(* ===== verification/_CoqProject ===== *)
-Q . S2P
Prelude.v
Alloc.v
ThreadId.v
Membarrier.v
Utils.v
Tls.v
UnitTests.v
RawData.v
RawStep.v
RawExec.v
RawGhost.v
RawInv.v
RawPreserve.v
RawProtect.v
RawFacts.v
RawConserve.v
RawReclaim.v
RawMemory.v
RawSolo.v
RawScenario.v
MemoryScenario.v
RawEffect.v
RawReserve.v
Guard.v
GuardExec.v
GuardInv.v
GuardPreserve.v
GuardHandle.v
GuardOps.v
GuardRefine.v
GuardSafe.v
GuardRetire.v
GuardReserve.v
GuardSpec.v
GuardEnter.v
GuardProgress.v
GuardSolo.v
Collector.v
Erasure.v
Lifetime.v
World.v
WorldSafe.v
Reclaim.v
Client.v
ClientInv.v
ClientSafe.v
ClientEffect.v
ClientExec.v
Treiber.v
TreiberInv.v
TreiberSafe.v
GuardScenario.v
CollectorScenario.v
IntegrationTests.v
WorldScenario.v
ClientScenario.v
TreiberScenario.v
