(* ===== verification/Prelude.v ===== *)
(** * A verification of the seize memory-reclamation library

    [seize] reclaims the objects of concurrent data structures. A client enters
    a guard, loads pointers through it, and retires the objects it unlinked;
    retired objects wait in batches with a reference count for the threads that
    were active, and asymmetric memory barriers make entering cheap. The
    collector calls the reclaimer of an object once no guard that was alive at
    its retirement is left. This library models the crate, proves that promise
    and what it rests on, and shows with the stack of the crate's own tests that
    a data structure can rely on it.

    ** The program and its model

    - [src/src/raw/tls/thread_id.rs] in ThreadId: the IDs of threads with their
      recycling heap, the arithmetic of [Thread::new], the thread-local
      variables, and the mutex with its poisoning.
    - [src/src/raw/tls/mod.rs] in Tls: the table of buckets that [load_or] grows
      without locks, its iterator and its drop. The accesses are separate
      operations ([load_step], [iter_step]); [load_or] is their composition.
    - [src/src/raw/membarrier.rs] in Membarrier: the barriers of the three
      platforms and the detection of the Linux strategy.
    - [src/src/raw/collector.rs] in RawData (batches, entries, reservations) and
      RawStep: the collector as a machine. A thread is a stack of frames, one
      per active function of the source, each at a point before an atomic
      access; [run_frame] has one function per piece of code, named after it
      ([step_add] for [add], [step_try], [step_retire], [step_cas] and
      [step_finish] for the parts of [try_retire], and so on). A label is a call
      by client code, one access of one thread, a spurious failure of a weak
      exchange, a return of a reclaimer, the draining of a store buffer, a new
      detection of the strategy, or a write of a guard to a reservation.
    - [src/src/guard.rs] in Guard: both kinds of guards, the [Guard] trait as a
      class with one instance for each, as handlers over the machine. A handler
      that calls the raw collector leaves a continuation ([kont]) and is resumed
      with the result. The registry of thread IDs is part of the state.
    - [src/src/collector.rs] in Guard (entering, retiring) and Collector
      (constructors, batch size, identity, and the guarded atomic accesses of
      [guard.rs]); Erasure has the constructors over the type-erased allocator,
      RawMemory the drop. World is a process with several collectors: they share
      the registry of thread IDs and the strategy, which are statics, and are
      created and dropped while others run. In the machine of one collector the
      others show as [GOther], what they may do to the registry.
    - [src/src/alloc.rs] in Alloc, [src/src/raw/utils.rs] in Utils.
    - [src/src/reclaim.rs] in Reclaim, on a memory of blocks and values.
    - Clients, in Client: threads with shared atomic pointers and objects in
      memory on top of the machine of guards; the history of a run says which
      objects are shared, unlinked, retired, and what was loaded through which
      guard, and [clegal] states the rules of the documentation with it.
    - The stack of [src/tests/lib.rs], which is that of [src/docs/GUIDE.md] and
      of [src/benches/stack.rs], in Treiber: [push], [pop] and [is_empty] as
      programs with one access a step. The unit tests inside the crate are in
      UnitTests, the integration tests of [src/tests/lib.rs] that check counts and
      results in IntegrationTests.

    Components meet at interfaces: [Allocator], [BoxVec] and [EntryLayout] are
    classes of operations, with [AllocatorLaws], [BoxVecLaws] and [MemLaws] for
    what is documented of them; the contract of the raw collector is [legal] in
    RawStep (the Safety sections of the source: a slot is used by one call at a
    time, [enter] finds it inactive), and that of the guards is [glegal] in
    Guard (what the borrow checker and the types enforce: guards are named
    freshly, [&mut self] is exclusive, local guards stay on their thread). A
    client is anything that keeps [glegal]; reclaimers are client code that runs
    on top of a frame, so they may call everything a client may.

    ** Memory model

    Accesses are sequentially consistent, except the store of [enter] that
    [light_store] makes relaxed: it goes into a store buffer (one pending store
    for each slot) that the process-wide barrier drains, and that may drain at
    any time. Acquire and release orderings of the other accesses and compiler
    fences are not told apart from stronger ones. [usize] has 64 bits; counters
    wrap.

    ** The theorems

    - Safe memory reclamation: GuardSpec states it without slots, batches or
      barriers and shows that every run of clients implements it. Under it lie
      RawProtect (an object retired while a slot is active is not reclaimed
      before the slot leaves, in every interleaving), GuardRefine (guards keep
      the contract of the raw collector) and GuardSafe (a guard alive keeps its
      slot active; counters and locks are right).
    - Memory safety and accounting: RawGhost, RawInv and RawPreserve have the
      invariant; RawFacts draws from it that no access dangles, that the counts
      are the numbers of references, that nothing leaks at rest and that
      [reserve] makes the next [add] succeed; RawConserve accounts for every
      retired object, RawMemory for every block and box, up to [Drop]; RawReclaim
      shows that [reclaim_all] reclaims everything from rest.
    - Retirement: GuardRetire shows that the result of [retire] and
      [defer_retire] tells whether the object was taken, and what the other calls
      may return, with the errors and panics that each can have. GuardReserve reads the
      calls and results of a run with a monitor that notes who has a
      reservation, and shows that a retirement with one cannot fail; RawReserve
      has what single steps do to the room of a batch.
    - Clients: ClientInv and ClientSafe show that clients that keep the rules
      never meet a dropped or freed object; ClientEffect what steps of others
      leave to them; TreiberInv and TreiberSafe that the stack keeps the rules
      and is linearizable.
    - The whole: Lifetime puts constructor, guards, collector and drop together:
      over the life of a collector every retired object is reclaimed exactly
      once, and all memory is given back. WorldSafe shows that each collector of
      a process behaves as a single one, whatever the others do, and that it can
      be dropped while they run.
    - Progress: GuardEnter (entering takes at most eight steps of the thread),
      GuardProgress (handlers never panic by themselves or lack something),
      RawSolo (every operation of the collector ends when its thread runs alone)
      and GuardSolo (so does every call of clients).
    - Components: ThreadId (bijection, uniqueness, reuse, bounds, poisoning),
      Tls (construction, [load_or], iteration, drop), Membarrier (the two sides
      of the barrier agree), Reclaim, Collector, Erasure and Utils; UnitTests and
      IntegrationTests have the tests of the crate pass; threads of a test that
      run at the same time do so in every order of their calls.

    RawExec, GuardExec and ClientExec run concrete histories with their contracts
    checked. RawScenario, MemoryScenario, GuardScenario, CollectorScenario,
    WorldScenario, ClientScenario and TreiberScenario evaluate some: the
    hypotheses of the theorems hold in them, and they show what the crate does
    outside its promises: [reclaim_all] loses an object that a reclaimer retires
    on a thread whose slot was visited before; a local guard that is leaked on a
    thread that exits leaves its counter behind, so that a later guard on the
    recycled ID does not protect ([glegal] excludes this, as it lets a thread
    exit only without local guards); and a reservation made through a shared
    owned guard is used up by retirements of other threads through it, which the
    documentation of [reserve_retire] does not mention.

    ** Fuel

    Only executable runs need fuel: [settle], [run_until] and [command_run]
    count steps, scenarios use 400, the tests 20000, and the theorems about termination state
    that enough fuel exists. The iterator ends by [iter_measure], a traversal by
    the length of its list.

    ** Not modelled

    - The stress tests, the test [refresh], and the benchmarks, whose point is
      load; what they look for is what the theorems about clients and the stack
      exclude. Destructors of values have no effect but that the value
      is gone.
    - Formatting ([Debug]), [Guard::collector] and [Collector::allocator], which
      return references, [Send] and [Sync], debug assertions, and documentation
      modules.
    - [reclaim_all] together with other threads: it requires exclusive access,
      so it is a step of the machine, but not of the concurrent contract.
    - A thread of World may be in several collectors at once, in any order: that
      the calls of one thread nest is not asked of it, so it has more runs than
      the crate. Constructors and drops take one step there.
    - The buffers of vectors show as capacities only, so RawMemory accounts for
      blocks and boxes, not for them. *)

From stdpp Require Export prelude list gmap.
From Stdlib Require Export ZArith Lia.

#[export] Set Default Goal Selector "!".

(** ** Machine words: [usize] on a 64-bit target *)

Declare Scope usize_scope.
Delimit Scope usize_scope with usize.

(** A [usize] is an integer [z] with [0 <= z < 2 ^ BITS]. *)
Definition BITS : Z := 64.
Definition usize_max : Z := 2 ^ BITS - 1.
Definition isize_max : Z := 2 ^ (BITS - 1) - 1.
Definition in_usize (z : Z) : Prop := (0 <= z <= usize_max)%Z.

(** Wrap-around of release-mode arithmetic and of the atomic counters. *)
Definition wrap (z : Z) : Z := z mod 2 ^ BITS.
Definition wadd (a b : Z) : Z := wrap (a + b).
Definition wsub (a b : Z) : Z := wrap (a - b).
Definition wshl (a n : Z) : Z := wrap (Z.shiftl a n).

(** [usize::leading_zeros]. *)
Definition leading_zeros (z : Z) : Z :=
  if decide (z <= 0)%Z then BITS else BITS - 1 - Z.log2 z.

(** [usize::checked_add]. *)
Definition checked_add (a b : Z) : option Z :=
  if decide (a + b <= usize_max)%Z then Some (a + b)%Z else None.

Infix "+w" := wadd (at level 50, left associativity) : usize_scope.
Infix "-w" := wsub (at level 50, left associativity) : usize_scope.

(** ** Results and panics *)

(** [allocator_api2::alloc::AllocError], a unit struct. *)
Inductive AllocErrorT := AllocError.

(** [Result<T, AllocError>]. *)
Inductive result (T : Type) :=
| Ok (v : T)
| Err (e : AllocErrorT).
Arguments Ok {T} _.
Arguments Err {T} _.

(** Code that may panic instead of returning. *)
Inductive outcome (T : Type) :=
| Ret (v : T)
| Panic.
Arguments Ret {T} _.
Arguments Panic {T}.

(** [?] on a [Result], and sequencing through a possible panic. *)
Definition res_bind {S T} (r : result S) (k : S -> result T) : result T :=
  match r with Ok v => k v | Err e => Err e end.

Definition out_bind {S T} (r : outcome S) (k : S -> outcome T) : outcome T :=
  match r with Ret v => k v | Panic => Panic end.

(** ** Tactics *)

(** Case analysis on the option matches and decisions of the hypotheses. *)
Ltac cases_in H :=
  repeat (case_match; simplify_eq/=; try done).

Ltac split_and_all := repeat match goal with |- _ /\ _ => split end.

(** Destruct every conjunction and existential of the context. *)
Ltac dex :=
  repeat match goal with
  | H : exists _, _ |- _ => destruct H
  | H : _ /\ _ |- _ => destruct H
  end.

(** Case analysis on membership in a literal list. *)
Ltac inlist H :=
  repeat match type of H with
  | _ ∈ _ :: _ => apply elem_of_cons in H as [H|H]
  | _ ∈ [] => by apply elem_of_nil in H
  end.

(** ** Words *)

Lemma pow_BITS : (2 ^ BITS = 18446744073709551616)%Z.
Proof. reflexivity. Qed.

Lemma wrap_id z : in_usize z -> wrap z = z.
Proof.
  unfold in_usize, wrap, usize_max. rewrite pow_BITS. intros.
  apply Z.mod_small. lia.
Qed.

Lemma wrap_range z : in_usize (wrap z).
Proof.
  unfold in_usize, wrap, usize_max.
  pose proof (Z.mod_pos_bound z (2 ^ BITS)) as Hb.
  rewrite pow_BITS in *. lia.
Qed.

Lemma wrap_wrap z : wrap (wrap z) = wrap z.
Proof. apply wrap_id, wrap_range. Qed.

Lemma wadd_wrap_l a b : wadd (wrap a) b = wrap (a + b).
Proof. unfold wadd, wrap. rewrite Zplus_mod_idemp_l. done. Qed.

Lemma wadd_wrap_r a b : wadd a (wrap b) = wrap (a + b).
Proof. unfold wadd, wrap. rewrite Zplus_mod_idemp_r. done. Qed.

Lemma wsub_wrap_l a b : wsub (wrap a) b = wrap (a - b).
Proof. unfold wsub, wrap. rewrite Zminus_mod_idemp_l. done. Qed.

Lemma wadd_id a b : in_usize (a + b) -> wadd a b = (a + b)%Z.
Proof. apply wrap_id. Qed.

Lemma wsub_id a b : in_usize (a - b) -> wsub a b = (a - b)%Z.
Proof. apply wrap_id. Qed.

Create HintDb usize discriminated.
#[export] Hint Resolve wrap_range : usize.
Create Rewrite HintDb wrap_db.
#[export] Hint Rewrite wrap_wrap wadd_wrap_l wadd_wrap_r wsub_wrap_l : wrap_db.

(** Discharge [in_usize] side conditions with concrete bounds. *)
Ltac usize :=
  unfold in_usize, usize_max, isize_max in *; rewrite ?pow_BITS in *;
  change (2 ^ (BITS - 1))%Z with 9223372036854775808%Z in *;
  unfold BITS in *; lia.

(** Counting modulo the word size. *)
Lemma wadd_succ_r a b n : wadd a b = n -> in_usize (n + 1) -> wadd a (wadd b 1) = (n + 1)%Z.
Proof.
  intros <- Hn. unfold wadd, wrap in *. rewrite Z.add_mod_idemp_r by done.
  rewrite Z.add_assoc, <-Z.add_mod_idemp_l by done. by apply wrap_id.
Qed.

Lemma wsub_pred_l a b n : wadd a b = n -> (1 <= n)%Z -> wadd (wsub a 1) b = (n - 1)%Z.
Proof.
  intros <- Hn. pose proof (wrap_range (a + b)) as Hr. unfold wadd, wsub, wrap in *.
  rewrite Z.add_mod_idemp_l by done.
  replace (a - 1 + b)%Z with (a + b - 1)%Z by lia.
  rewrite <-Zminus_mod_idemp_l. apply wrap_id. usize.
Qed.

(** ** Flattening a finite map, up to permutation *)

Section MapFlat.
Context {K V B : Type} `{Countable K}.
Implicit Types (f g : K -> V -> list B) (m : gmap K V).

Definition map_flat f m : list B := map_to_list m ≫= (fun kv => f kv.1 kv.2).

Lemma map_flat_empty f : map_flat f ∅ = [].
Proof. unfold map_flat. by rewrite map_to_list_empty. Qed.

Lemma map_flat_insert f m k v : m !! k = None -> map_flat f (<[k := v]> m) ≡ₚ f k v ++ map_flat f m.
Proof. intros Hk. unfold map_flat. by rewrite map_to_list_insert. Qed.

Lemma map_flat_delete f m k v : m !! k = Some v -> map_flat f m ≡ₚ f k v ++ map_flat f (delete k m).
Proof.
  intros Hk. rewrite <-(insert_id m k v) at 1 by done. rewrite <-insert_delete_eq.
  apply map_flat_insert, lookup_delete_eq.
Qed.

(** What a map contributes at one key. *)
Definition flat_at f m (k : K) : list B := from_option (f k) [] (m !! k).

Lemma map_flat_split f m k : map_flat f m ≡ₚ flat_at f m k ++ map_flat f (delete k m).
Proof.
  unfold flat_at. destruct (m !! k) as [v|] eqn:E; simpl; [by apply map_flat_delete|by rewrite delete_id].
Qed.

Lemma flat_at_delete f m k k' : flat_at f (delete k m) k' = if decide (k' = k) then [] else flat_at f m k'.
Proof.
  unfold flat_at. case_decide; [subst; by rewrite lookup_delete_eq|by rewrite lookup_delete_ne].
Qed.

Lemma map_flat_nil f m : (forall k, flat_at f m k = []) -> map_flat f m ≡ₚ [].
Proof.
  induction m as [|k v m Hk IH] using map_ind; intros Hf; [by rewrite map_flat_empty|].
  rewrite map_flat_insert by done. pose proof (Hf k) as Hv. unfold flat_at in Hv.
  rewrite lookup_insert_eq in Hv. simpl in Hv. rewrite Hv. apply IH. intros k'.
  destruct (decide (k' = k)) as [->|]; [by unfold flat_at; rewrite Hk|].
  rewrite <-(Hf k'). unfold flat_at. by rewrite lookup_insert_ne.
Qed.

Lemma map_flat_eqv f g m m' : (forall k, flat_at f m k = flat_at g m' k) -> map_flat f m ≡ₚ map_flat g m'.
Proof.
  revert m'. induction m as [|k v m Hk IH] using map_ind; intros m' Hfg.
  - rewrite map_flat_empty. symmetry. apply map_flat_nil. intros k. by rewrite <-Hfg.
  - rewrite map_flat_insert, (map_flat_split g m' k) by done. rewrite <-Hfg.
    unfold flat_at at 1. rewrite lookup_insert_eq. simpl. f_equiv. apply IH. intros k'.
    rewrite flat_at_delete. case_decide as Hk'; [subst; unfold flat_at; by rewrite Hk|].
    rewrite <-Hfg. unfold flat_at. by rewrite lookup_insert_ne.
Qed.

Lemma elem_of_map_flat f m k v x : m !! k = Some v -> x ∈ f k v -> x ∈ map_flat f m.
Proof. intros Hk Hx. rewrite (map_flat_delete f m k v) by done. apply elem_of_app. by left. Qed.

(** Two maps that agree but for one key. *)
Lemma map_flat_change f g m m' k :
  (forall k', k' <> k -> flat_at f m k' = flat_at g m' k') ->
  map_flat f m ++ flat_at g m' k ≡ₚ map_flat g m' ++ flat_at f m k.
Proof.
  intros Hfg. rewrite (map_flat_split f m k), (map_flat_split g m' k).
  rewrite (map_flat_eqv f g (delete k m) (delete k m')); [solve_Permutation|].
  intros k'. rewrite !flat_at_delete. case_decide; [done|by apply Hfg].
Qed.

End MapFlat.
