(* ===== verification/Alloc.v ===== *)
(** * Allocation ([src/src/alloc.rs])

    The [Allocator] trait of [allocator_api2] as an interface with its
    documented laws, the type-erased allocator [DynAlloc] that forwards every
    method to the allocator it holds, and what the collector uses of
    [allocator_api2]'s [Box] and [Vec]. An allocator is an explicit state: a
    method takes the state and returns the next one. *)

From stdpp Require Import prelude list gmap.
From S2P Require Import Prelude.

Open Scope Z_scope.

(** ** Layouts (standard library) *)

Record Layout := mkLayout { l_size : Z; l_align : Z }.

#[export] Instance Layout_eq_dec : EqDecision Layout.
Proof. solve_decision. Defined.

(** [Layout::array::<T>(n)] for a [T] of the given size and alignment. *)
Definition layout_array (size align n : Z) : option Layout :=
  if decide (size * n <= isize_max - (align - 1)) then Some (mkLayout (size * n) align)
  else None.

(** ** The [Allocator] trait *)

(** An address is a non-null pointer; [result Z] is [Result<NonNull<_>, AllocError>]. *)
Class Allocator (A : Type) := {
  al_allocate : A -> Layout -> A * result Z;
  al_allocate_zeroed : A -> Layout -> A * result Z;
  al_deallocate : A -> Z -> Layout -> A;
  al_grow : A -> Z -> Layout -> Layout -> A * result Z;
  al_grow_zeroed : A -> Z -> Layout -> Layout -> A * result Z;
  al_shrink : A -> Z -> Layout -> Layout -> A * result Z
}.

(** What an allocation from nothing promises about the blocks currently
    allocated, and what a reallocation promises. *)
Definition alloc_spec {A} (live : A -> gmap Z Layout) (f : A -> Layout -> A * result Z) : Prop :=
  forall a l a' r, f a l = (a', r) ->
    match r with
    | Ok p => live a !! p = None /\ live a' = <[p := l]> (live a)
    | Err _ => live a' = live a
    end.

Definition realloc_spec {A} (live : A -> gmap Z Layout)
    (f : A -> Z -> Layout -> Layout -> A * result Z) : Prop :=
  forall a p old new a' r, live a !! p = Some old -> f a p old new = (a', r) ->
    match r with
    | Ok p' => (p' = p \/ live a !! p' = None) /\ live a' = <[p' := new]> (delete p (live a))
    | Err _ => live a' = live a
    end.

Class AllocatorLaws (A : Type) `{Allocator A} := {
  live : A -> gmap Z Layout;
  allocate_ok : alloc_spec live al_allocate;
  allocate_zeroed_ok : alloc_spec live al_allocate_zeroed;
  deallocate_ok a p l :
    live a !! p = Some l -> live (al_deallocate a p l) = delete p (live a);
  grow_ok : realloc_spec live al_grow;
  grow_zeroed_ok : realloc_spec live al_grow_zeroed;
  shrink_ok : realloc_spec live al_shrink
}.

(** ** [DynAlloc] *)

(** The global allocator, or a user-provided one behind an [Arc]. *)
Inductive DynAlloc (G D : Type) :=
| Global (g : G)
| Dyn (d : D).
Arguments Global {G D} _.
Arguments Dyn {G D} _.

Section DynAlloc.
Context {G D : Type} `{Allocator G} `{Allocator D}.

Definition wrap_global {T} (r : G * T) : DynAlloc G D * T := (Global (fst r), snd r).
Definition wrap_dyn {T} (r : D * T) : DynAlloc G D * T := (Dyn (fst r), snd r).

Definition dyn_allocate (a : DynAlloc G D) (layout : Layout) : DynAlloc G D * result Z :=
  match a with
  | Global g => wrap_global (al_allocate g layout)
  | Dyn d => wrap_dyn (al_allocate d layout)
  end.

Definition dyn_allocate_zeroed (a : DynAlloc G D) (layout : Layout) : DynAlloc G D * result Z :=
  match a with
  | Global g => wrap_global (al_allocate_zeroed g layout)
  | Dyn d => wrap_dyn (al_allocate_zeroed d layout)
  end.

Definition dyn_deallocate (a : DynAlloc G D) (ptr : Z) (layout : Layout) : DynAlloc G D :=
  match a with
  | Global g => Global (al_deallocate g ptr layout)
  | Dyn d => Dyn (al_deallocate d ptr layout)
  end.

Definition dyn_grow (a : DynAlloc G D) (ptr : Z) (old new : Layout) : DynAlloc G D * result Z :=
  match a with
  | Global g => wrap_global (al_grow g ptr old new)
  | Dyn d => wrap_dyn (al_grow d ptr old new)
  end.

Definition dyn_grow_zeroed (a : DynAlloc G D) (ptr : Z) (old new : Layout) : DynAlloc G D * result Z :=
  match a with
  | Global g => wrap_global (al_grow_zeroed g ptr old new)
  | Dyn d => wrap_dyn (al_grow_zeroed d ptr old new)
  end.

Definition dyn_shrink (a : DynAlloc G D) (ptr : Z) (old new : Layout) : DynAlloc G D * result Z :=
  match a with
  | Global g => wrap_global (al_shrink g ptr old new)
  | Dyn d => wrap_dyn (al_shrink d ptr old new)
  end.

#[export] Instance DynAlloc_Allocator : Allocator (DynAlloc G D) := {|
  al_allocate := dyn_allocate;
  al_allocate_zeroed := dyn_allocate_zeroed;
  al_deallocate := dyn_deallocate;
  al_grow := dyn_grow;
  al_grow_zeroed := dyn_grow_zeroed;
  al_shrink := dyn_shrink
|}.

Definition dyn_live `{!AllocatorLaws G} `{!AllocatorLaws D} (a : DynAlloc G D) : gmap Z Layout :=
  match a with Global g => live g | Dyn d => live d end.

Context `{!AllocatorLaws G} `{!AllocatorLaws D}.

Lemma dyn_alloc_spec (fg : G -> Layout -> G * result Z) (fd : D -> Layout -> D * result Z) :
  alloc_spec live fg -> alloc_spec live fd ->
  alloc_spec dyn_live (fun a l =>
    match a with Global g => wrap_global (fg g l) | Dyn d => wrap_dyn (fd d l) end).
Proof.
  intros Hg Hd [g|d] l a' r [= <- <-]; simpl.
  - destruct (fg g l) as [g' r] eqn:E. by apply Hg in E.
  - destruct (fd d l) as [d' r] eqn:E. by apply Hd in E.
Qed.

Lemma dyn_realloc_spec (fg : G -> Z -> Layout -> Layout -> G * result Z)
    (fd : D -> Z -> Layout -> Layout -> D * result Z) :
  realloc_spec live fg -> realloc_spec live fd ->
  realloc_spec dyn_live (fun a p o n =>
    match a with Global g => wrap_global (fg g p o n) | Dyn d => wrap_dyn (fd d p o n) end).
Proof.
  intros Hg Hd [g|d] p o n a' r Hp [= <- <-]; simpl in *.
  - destruct (fg g p o n) as [g' r] eqn:E. by eapply Hg in E.
  - destruct (fd d p o n) as [d' r] eqn:E. by eapply Hd in E.
Qed.

(** Every method forwards to an allocator that upholds the contract, so the
    erased allocator upholds it too. *)
#[export] Program Instance DynAlloc_laws : AllocatorLaws (DynAlloc G D) := {| live := dyn_live |}.
Next Obligation. apply dyn_alloc_spec; apply allocate_ok. Qed.
Next Obligation. apply dyn_alloc_spec; apply allocate_zeroed_ok. Qed.
Next Obligation. intros [g|d] p l; apply deallocate_ok. Qed.
Next Obligation. apply dyn_realloc_spec; apply grow_ok. Qed.
Next Obligation. apply dyn_realloc_spec; apply grow_zeroed_ok. Qed.
Next Obligation. apply dyn_realloc_spec; apply shrink_ok. Qed.

End DynAlloc.

(** [DynAlloc::new]; [as_dyn] is the identity on the state of the allocator. *)
Definition DynAlloc_new {G D} (alloc : D) : DynAlloc G D := Dyn alloc.

(** ** Allocators that behave the same *)

(** One call of a method of the trait. *)
Inductive alloc_call :=
| CAllocate (layout : Layout)
| CAllocateZeroed (layout : Layout)
| CDeallocate (ptr : Z) (layout : Layout)
| CGrow (ptr : Z) (old new : Layout)
| CGrowZeroed (ptr : Z) (old new : Layout)
| CShrink (ptr : Z) (old new : Layout).

Definition alloc_call_run {A} `{Allocator A} (c : alloc_call) (a : A) : A * option (result Z) :=
  let returns r := (fst r, Some (snd r)) in
  match c with
  | CAllocate l => returns (al_allocate a l)
  | CAllocateZeroed l => returns (al_allocate_zeroed a l)
  | CDeallocate p l => (al_deallocate a p l, None)
  | CGrow p o n => returns (al_grow a p o n)
  | CGrowZeroed p o n => returns (al_grow_zeroed a p o n)
  | CShrink p o n => returns (al_shrink a p o n)
  end.

(** [h] turns an allocator into one that answers every call alike. *)
Class AllocHom {A B} `{Allocator A} `{Allocator B} (h : A -> B) : Prop :=
  alloc_hom c a : alloc_call_run c (h a) = (h (fst (alloc_call_run c a)), snd (alloc_call_run c a)).

#[export] Instance Global_hom {G D} `{Allocator G} `{Allocator D} : AllocHom (Global (G:=G) (D:=D)).
Proof. by intros []. Qed.

#[export] Instance Dyn_hom {G D} `{Allocator G} `{Allocator D} : AllocHom (Dyn (G:=G) (D:=D)).
Proof. by intros []. Qed.

(** ** Crate-level helpers *)

(** [alloc::allocate] and [alloc::deallocate]. *)
Definition allocate {A} `{Allocator A} (a : A) (layout : Layout) : A * result Z :=
  al_allocate a layout.

Definition deallocate {A} `{Allocator A} (a : A) (ptr : Z) (layout : Layout) : A :=
  al_deallocate a ptr layout.

(** ** [Box] and [Vec] of [allocator_api2]

    The collector boxes [Batch] values and keeps each batch's entries in a
    [Vec]. Only the address of the box matters: two live boxes are at different
    addresses. The buffer of a vector is owned by the vector and shows only as
    its capacity. *)
Class BoxVec (A : Type) := {
  box_try_new_in : A -> A * result Z;
  box_drop : A -> Z -> A;
  vec_try_reserve : A -> Z -> Z -> Z -> A * result Z;
  vec_try_reserve_exact : A -> Z -> Z -> Z -> A * result Z;
  vec_drop : A -> Z -> A
}.

(** [try_reserve(additional)] on a vector of the given length and capacity:
    afterwards there is room for [additional] more elements; nothing is done
    if there was already. Capacities are bounded by [isize::MAX]. *)
Definition reserve_spec {A} (boxes : A -> gset Z) (f : A -> Z -> Z -> Z -> A * result Z) : Prop :=
  forall a len cap additional a' r,
    f a len cap additional = (a', r) -> 0 <= additional ->
    boxes a' = boxes a /\
    (additional <= cap - len -> a' = a /\ r = Ok cap) /\
    (forall cap', r = Ok cap' -> cap <= cap' /\ len + additional <= cap' /\
       (cap < cap' -> cap' <= isize_max)).

Class BoxVecLaws (A : Type) `{Allocator A} `{BoxVec A} := {
  boxes : A -> gset Z;
  box_try_new_ok a a' r : box_try_new_in a = (a', r) ->
    match r with
    | Ok p => (p ∉ boxes a) /\ boxes a' = {[p]} ∪ boxes a
    | Err _ => boxes a' = boxes a
    end;
  box_drop_ok a p : boxes (box_drop a p) = boxes a ∖ {[p]};
  vec_try_reserve_ok : reserve_spec boxes vec_try_reserve;
  vec_try_reserve_exact_ok : reserve_spec boxes vec_try_reserve_exact;
  vec_drop_ok a cap : boxes (vec_drop a cap) = boxes a;
  allocate_boxes a l a' r : al_allocate a l = (a', r) -> boxes a' = boxes a;
  deallocate_boxes a p l : boxes (al_deallocate a p l) = boxes a
}.

(** Boxes and vectors are accounted for apart: [live] holds the blocks that the
    crate allocates through the trait itself. *)
Class MemLaws (A : Type) `{Allocator A} `{!AllocatorLaws A} `{BoxVec A} := {
  box_try_new_live a a' r : box_try_new_in a = (a', r) -> live a' = live a;
  box_drop_live a p : live (box_drop a p) = live a;
  vec_try_reserve_live a len cap n a' r : vec_try_reserve a len cap n = (a', r) -> live a' = live a;
  vec_try_reserve_exact_live a len cap n a' r : vec_try_reserve_exact a len cap n = (a', r) -> live a' = live a;
  vec_drop_live a cap : live (vec_drop a cap) = live a
}.

(** ** An allocator to run the model with

    A bump allocator whose allocations can be switched to fail, as the
    [FailingAlloc] of the integration tests. *)
Record Bump := mkBump {
  bump_fail : bool;
  bump_blocks : gmap Z Layout;
  bump_boxes : gset Z
}.

Definition bump_init : Bump := mkBump false ∅ ∅.

Definition bump_set_failing (f : bool) (a : Bump) : Bump :=
  mkBump f (bump_blocks a) (bump_boxes a).

Definition bump_alloc (a : Bump) (l : Layout) : Bump * result Z :=
  if bump_fail a then (a, Err AllocError)
  else
    let p := fresh (dom (bump_blocks a) ∪ bump_boxes a ∪ {[ 0 ]}) in
    (mkBump false (<[p := l]> (bump_blocks a)) (bump_boxes a), Ok p).

Definition bump_dealloc (a : Bump) (p : Z) (l : Layout) : Bump :=
  mkBump (bump_fail a) (delete p (bump_blocks a)) (bump_boxes a).

Definition bump_realloc (a : Bump) (p : Z) (old new : Layout) : Bump * result Z :=
  if bump_fail a then (a, Err AllocError)
  else (mkBump false (<[p := new]> (delete p (bump_blocks a))) (bump_boxes a), Ok p).

Definition bump_box (a : Bump) : Bump * result Z :=
  if bump_fail a then (a, Err AllocError)
  else
    let p := fresh (dom (bump_blocks a) ∪ bump_boxes a ∪ {[ 0 ]}) in
    (mkBump false (bump_blocks a) ({[p]} ∪ bump_boxes a), Ok p).

Definition bump_reserve (a : Bump) (len cap additional : Z) : Bump * result Z :=
  if decide (additional <= cap - len) then (a, Ok cap)
  else if bump_fail a then (a, Err AllocError)
  else if decide (len + additional <= isize_max /\ cap <= len + additional) then (a, Ok (len + additional))
  else (a, Err AllocError).

#[export] Instance Bump_Allocator : Allocator Bump := {|
  al_allocate := bump_alloc;
  al_allocate_zeroed := bump_alloc;
  al_deallocate := bump_dealloc;
  al_grow := bump_realloc;
  al_grow_zeroed := bump_realloc;
  al_shrink := bump_realloc
|}.

#[export] Instance Bump_BoxVec : BoxVec Bump := {|
  box_try_new_in := bump_box;
  box_drop a p := mkBump (bump_fail a) (bump_blocks a) (bump_boxes a ∖ {[p]});
  vec_try_reserve := bump_reserve;
  vec_try_reserve_exact := bump_reserve;
  vec_drop a _ := a
|}.

Lemma bump_alloc_ok : alloc_spec bump_blocks bump_alloc.
Proof.
  intros a l a' r. unfold bump_alloc. destruct (bump_fail a); [by intros [= <- <-]|].
  intros [= <- <-]. simpl. split; [|done]. apply not_elem_of_dom.
  pose proof (is_fresh (dom (bump_blocks a) ∪ bump_boxes a ∪ {[ 0 ]})). set_solver.
Qed.

Lemma bump_realloc_ok : realloc_spec bump_blocks bump_realloc.
Proof.
  intros a p old new a' r Hp. unfold bump_realloc.
  destruct (bump_fail a); [by intros [= <- <-]|]. intros [= <- <-]. simpl. auto.
Qed.

Lemma bump_reserve_ok : reserve_spec bump_boxes bump_reserve.
Proof.
  intros a len cap additional a' r. unfold bump_reserve.
  repeat case_match; intros [= <- <-] ?; split_and!; try done; intros; simplify_eq; lia.
Qed.

#[export] Program Instance Bump_laws : AllocatorLaws Bump := {| live := bump_blocks |}.
Solve Obligations with (simpl; auto using bump_alloc_ok, bump_realloc_ok).

#[export] Program Instance Bump_BoxVecLaws : BoxVecLaws Bump := {| boxes := bump_boxes |}.
Next Obligation.
  intros a a' r. simpl. unfold bump_box. destruct (bump_fail a); [by intros [= <- <-]|].
  intros [= <- <-]. split; [|done].
  pose proof (is_fresh (dom (bump_blocks a) ∪ bump_boxes a ∪ {[ 0 ]})). set_solver.
Qed.
Next Obligation. done. Qed.
Next Obligation. apply bump_reserve_ok. Qed.
Next Obligation. apply bump_reserve_ok. Qed.
Next Obligation. done. Qed.
Next Obligation.
  intros a l a' r. simpl. unfold bump_alloc.
  destruct (bump_fail a); by intros [= <- <-].
Qed.
Next Obligation. done. Qed.

Lemma bump_reserve_live a len cap n a' r : bump_reserve a len cap n = (a', r) -> bump_blocks a' = bump_blocks a.
Proof. unfold bump_reserve. repeat case_match; by intros [= <- <-]. Qed.

#[export] Program Instance Bump_MemLaws : MemLaws Bump.
Next Obligation.
  intros a a' r. simpl. unfold bump_box. destruct (bump_fail a); by intros [= <- <-].
Qed.
Next Obligation. done. Qed.
Next Obligation. apply bump_reserve_live. Qed.
Next Obligation. apply bump_reserve_live. Qed.
Next Obligation. done. Qed.
