(* ===== verification/ThreadId.v ===== *)
(** * Thread identifiers ([src/src/raw/tls/thread_id.rs])

    The ID allocator [ThreadIdManager], the index arithmetic of [Thread::new]
    that maps an ID to a (bucket, entry) position of a [ThreadLocal], and the
    life cycle of the IDs: the two thread-local variables [THREAD] and
    [THREAD_GUARD], the global mutex around the manager with its poisoning, and
    the IDs held by owned guards. *)

From stdpp Require Import prelude list gmap.
From S2P Require Import Prelude.

Open Scope Z_scope.

(** ** Constants *)

Definition ZERO_ENTRY : Z := 31.
Definition ZERO_BUCKET : Z := BITS - leading_zeros ZERO_ENTRY.
Definition BUCKETS : Z := BITS - ZERO_BUCKET.
Definition MAX_INDEX : Z := usize_max - ZERO_ENTRY - 1.

(** ** [Thread] *)

Record Thread := mkThread { id : Z; entry : Z; bucket : Z }.

#[export] Instance Thread_eq_dec : EqDecision Thread.
Proof. solve_decision. Defined.

(** [Thread::bucket_capacity] *)
Definition bucket_capacity (b : Z) : Z := wshl 1 (wadd b ZERO_BUCKET).

(** [Thread::new]; every operation wraps, as in a release build. *)
Definition Thread_new (i : Z) : outcome Thread :=
  if decide (i > MAX_INDEX) then Panic
  else
    let index := wadd i ZERO_ENTRY in
    let b := wsub (wsub BUCKETS (leading_zeros (wadd index 1))) 1 in
    let e := wsub index (wsub (bucket_capacity b) 1) in
    Ret {| id := i; bucket := b; entry := e |}.

(** ** [ThreadIdManager]

    [BinaryHeap<Reverse<usize>>] is a min-priority queue: [pop] removes a least
    element, [push] adds one. *)

Record ThreadIdManager := mkManager { free_from : Z; free_list : list Z }.

Fixpoint heap_least (x : Z) (l : list Z) : Z :=
  match l with
  | [] => x
  | y :: l' => heap_least (Z.min x y) l'
  end.

Fixpoint heap_remove (x : Z) (l : list Z) : list Z :=
  match l with
  | [] => []
  | y :: l' => if decide (x = y) then l' else y :: heap_remove x l'
  end.

Definition heap_pop (l : list Z) : option (Z * list Z) :=
  match l with
  | [] => None
  | x :: l' => let m := heap_least x l' in Some (m, heap_remove m l)
  end.

Definition heap_push (x : Z) (l : list Z) : list Z := x :: l.

(** [ThreadIdManager::default] *)
Definition manager_default : ThreadIdManager := {| free_from := 0; free_list := [] |}.

(** [ThreadIdManager::alloc] *)
Definition manager_alloc (m : ThreadIdManager) : outcome (Z * ThreadIdManager) :=
  match heap_pop (free_list m) with
  | Some (i, l) => Ret (i, {| free_from := free_from m; free_list := l |})
  | None =>
      let i := free_from m in
      match checked_add (free_from m) 1 with
      | Some n => Ret (i, {| free_from := n; free_list := free_list m |})
      | None => Panic
      end
  end.

(** [ThreadIdManager::free]; [mem] is the outcome of [try_reserve(1)]. *)
Definition manager_free (mem : bool) (i : Z) (m : ThreadIdManager) : ThreadIdManager :=
  if mem then {| free_from := free_from m; free_list := heap_push i (free_list m) |}
  else m.

(** ** Life cycle *)

(** The state of a [thread_local!] with a destructor. *)
Inductive GuardSlot :=
| GLive (i : Z)
| GDestroyed.

(** The process-wide state: the manager with the poison flag of its mutex, the
    two thread-local variables of every OS thread, and the [thread] field of
    every live [OwnedGuard]. *)
Record Registry := mkRegistry {
  manager : ThreadIdManager;
  poisoned : bool;
  THREAD : gmap nat Thread;
  THREAD_GUARD : gmap nat GuardSlot;
  owned : gmap nat Thread
}.

Definition registry_init : Registry :=
  {| manager := manager_default; poisoned := false;
     THREAD := ∅; THREAD_GUARD := ∅; owned := ∅ |}.

Definition set_manager (m : ThreadIdManager) (p : bool) (r : Registry) : Registry :=
  {| manager := m; poisoned := p; THREAD := THREAD r;
     THREAD_GUARD := THREAD_GUARD r; owned := owned r |}.

Definition set_tls (ts : gmap nat Thread) (gs : gmap nat GuardSlot) (r : Registry) : Registry :=
  {| manager := manager r; poisoned := poisoned r; THREAD := ts;
     THREAD_GUARD := gs; owned := owned r |}.

Definition set_owned (os : gmap nat Thread) (r : Registry) : Registry :=
  {| manager := manager r; poisoned := poisoned r; THREAD := THREAD r;
     THREAD_GUARD := THREAD_GUARD r; owned := os |}.

(** [Thread::create]. The [MutexGuard] is a temporary of the tail expression,
    so it is still held when [Thread::new] runs: a panic there, as one in
    [alloc], poisons the mutex. *)
Definition Thread_create (r : Registry) : outcome Thread * Registry :=
  if poisoned r then (Panic, r)
  else
    match manager_alloc (manager r) with
    | Panic => (Panic, set_manager (manager r) true r)
    | Ret (i, m) =>
        match Thread_new i with
        | Panic => (Panic, set_manager m true r)
        | Ret th => (Ret th, set_manager m false r)
        end
    end.

(** [Thread::free] *)
Definition Thread_free (mem : bool) (i : Z) (r : Registry) : outcome unit * Registry :=
  if poisoned r then (Panic, r)
  else (Ret tt, set_manager (manager_free mem i (manager r)) false r).

(** [Thread::init_slow] on OS thread [t] *)
Definition init_slow (t : nat) (r : Registry) : outcome Thread * Registry :=
  match Thread_create r with
  | (Panic, r) => (Panic, r)
  | (Ret new, r) =>
      let ts := <[t := new]> (THREAD r) in
      match THREAD_GUARD r !! t with
      | Some GDestroyed => (Panic, set_tls ts (THREAD_GUARD r) r)
      | _ => (Ret new, set_tls ts (<[t := GLive (id new)]> (THREAD_GUARD r)) r)
      end
  end.

(** [Thread::current] on OS thread [t] *)
Definition Thread_current (t : nat) (r : Registry) : outcome Thread * Registry :=
  match THREAD r !! t with
  | Some th => (Ret th, r)
  | None => init_slow t r
  end.

(** [ThreadGuard::drop], run when OS thread [t] exits, if the variable was
    initialised. *)
Definition ThreadGuard_drop (mem : bool) (t : nat) (r : Registry) : outcome unit * Registry :=
  match THREAD_GUARD r !! t with
  | Some (GLive i) =>
      let r := set_tls (delete t (THREAD r)) (<[t := GDestroyed]> (THREAD_GUARD r)) r in
      Thread_free mem i r
  | _ => (Ret tt, r)
  end.

(** The thread slot of [OwnedGuard::enter] and of its [Drop]; [g] names the
    guard. *)
Definition owned_create (g : nat) (r : Registry) : outcome Thread * Registry :=
  match Thread_create r with
  | (Ret th, r) => (Ret th, set_owned (<[g := th]> (owned r)) r)
  | (Panic, r) => (Panic, r)
  end.

Definition owned_free (mem : bool) (g : nat) (r : Registry) : outcome unit * Registry :=
  match owned r !! g with
  | Some th => Thread_free mem (id th) (set_owned (delete g (owned r)) r)
  | None => (Ret tt, r)
  end.

(** The operations of the process on the registry, in any interleaving: each
    runs under the mutex or touches only its own thread's variables. *)
Inductive reg_op :=
| RCurrent (t : nat)
| RExit (mem : bool) (t : nat)
| ROwned (g : nat)
| ROwnedDrop (mem : bool) (g : nat).

Definition reg_step (o : reg_op) (r : Registry) : Registry :=
  match o with
  | RCurrent t => snd (Thread_current t r)
  | RExit mem t => snd (ThreadGuard_drop mem t r)
  | ROwned g => if decide (is_Some (owned r !! g)) then r else snd (owned_create g r)
  | ROwnedDrop mem g => snd (owned_free mem g r)
  end.

Fixpoint reg_run (os : list reg_op) (r : Registry) : Registry :=
  match os with
  | [] => r
  | o :: os' => reg_run os' (reg_step o r)
  end.

(** Whether an operation is one whose free could not reserve memory. *)
Definition op_mem_ok (o : reg_op) : bool :=
  match o with
  | RExit mem _ | ROwnedDrop mem _ => mem
  | _ => true
  end.

(** The number of threads and owned guards that hold an ID, and its peak over a
    run. *)
Definition live_count (r : Registry) : Z := Z.of_nat (size (THREAD r) + size (owned r)).

Fixpoint peak (os : list reg_op) (r : Registry) : Z :=
  match os with
  | [] => live_count r
  | o :: os' => Z.max (live_count r) (peak os' (reg_step o r))
  end.

(** A holder of an ID: an OS thread, or an owned guard. *)
Definition holds (r : Registry) (h : nat + nat) (th : Thread) : Prop :=
  match h with
  | inl t => THREAD r !! t = Some th
  | inr g => owned r !! g = Some th
  end.

(** ** Facts about the constants *)

Lemma ZERO_BUCKET_val : ZERO_BUCKET = 5.
Proof. reflexivity. Qed.

Lemma BUCKETS_val : BUCKETS = 59.
Proof. reflexivity. Qed.

Lemma MAX_INDEX_val : MAX_INDEX = 2 ^ 64 - 33.
Proof. reflexivity. Qed.

Lemma bucket_capacity_pow b : 0 <= b < BUCKETS -> bucket_capacity b = 2 ^ (b + 5).
Proof.
  rewrite BUCKETS_val. intros Hb. unfold bucket_capacity.
  rewrite ZERO_BUCKET_val, wadd_id by usize.
  unfold wshl. rewrite Z.shiftl_mul_pow2, Z.mul_1_l by lia. apply wrap_id.
  pose proof (Z.pow_le_mono_r 2 (b + 5) 63). split; [apply Z.pow_nonneg; lia|].
  change (2 ^ 63) with 9223372036854775808 in *. usize.
Qed.

(** ** [Thread::new] *)

(** No operation of [Thread::new] wraps: below the panic threshold it computes
    its mathematical meaning. *)
Lemma Thread_new_val i :
  0 <= i <= MAX_INDEX ->
  Thread_new i =
    Ret {| id := i; bucket := Z.log2 (i + 32) - 5;
           entry := i + 32 - 2 ^ Z.log2 (i + 32) |}.
Proof.
  intros Hi. rewrite MAX_INDEX_val in Hi. change (2 ^ 64) with 18446744073709551616 in Hi.
  unfold Thread_new. rewrite decide_False by (rewrite MAX_INDEX_val; lia).
  unfold ZERO_ENTRY. rewrite (wadd_id i) by usize.
  rewrite (wadd_id (i + 31)) by usize. replace (i + 31 + 1) with (i + 32) by lia.
  assert (5 <= Z.log2 (i + 32) <= 63) as Hlog.
  { split.
    - apply (Z.log2_le_mono 32). lia.
    - enough (Z.log2 (i + 32) < 64) by lia. apply Z.log2_lt_pow2; lia. }
  unfold leading_zeros. rewrite decide_False by lia.
  rewrite BUCKETS_val. rewrite (wsub_id 59) by usize.
  rewrite (wsub_id (59 - _)) by usize.
  replace (59 - (BITS - 1 - Z.log2 (i + 32)) - 1) with (Z.log2 (i + 32) - 5) by usize.
  rewrite bucket_capacity_pow by (rewrite BUCKETS_val; lia).
  replace (Z.log2 (i + 32) - 5 + 5) with (Z.log2 (i + 32)) by lia.
  destruct (Z.log2_spec (i + 32)) as [Hlo _]; [lia|].
  pose proof (Z.pow_pos_nonneg 2 (Z.log2 (i + 32))).
  rewrite (wsub_id (2 ^ _)) by usize. rewrite wsub_id by usize.
  do 2 f_equal. lia.
Qed.

(** What [Thread::new] promises: a position inside a bucket of the vector. *)
Definition thread_wf (th : Thread) : Prop :=
  0 <= id th <= MAX_INDEX /\
  0 <= bucket th < BUCKETS /\
  0 <= entry th < bucket_capacity (bucket th) /\
  id th + 32 = bucket_capacity (bucket th) + entry th.

Lemma Thread_new_wf i th : 0 <= i -> Thread_new i = Ret th -> thread_wf th /\ id th = i.
Proof.
  intros Hi Hnew.
  assert (i <= MAX_INDEX) as Hmax.
  { unfold Thread_new in Hnew. case_decide; [done|]. lia. }
  rewrite Thread_new_val in Hnew by done. simplify_eq/=.
  rewrite MAX_INDEX_val in Hmax.
  destruct (Z.log2_spec (i + 32)) as [Hlo Hhi]; [lia|].
  assert (5 <= Z.log2 (i + 32)) by (apply (Z.log2_le_mono 32); lia).
  assert (Z.log2 (i + 32) < 64) by (apply Z.log2_lt_pow2; lia).
  unfold thread_wf; simpl. rewrite bucket_capacity_pow by (rewrite BUCKETS_val; lia).
  rewrite MAX_INDEX_val, BUCKETS_val.
  replace (Z.log2 (i + 32) - 5 + 5) with (Z.log2 (i + 32)) by lia.
  rewrite Z.pow_succ_r in Hhi by lia. lia.
Qed.

Lemma Thread_new_complete b e :
  0 <= b < BUCKETS -> 0 <= e < bucket_capacity b ->
  Thread_new (bucket_capacity b + e - 32) =
    Ret {| id := bucket_capacity b + e - 32; bucket := b; entry := e |}.
Proof.
  intros Hb He. rewrite bucket_capacity_pow in * by done. rewrite BUCKETS_val in Hb.
  assert (2 ^ 5 <= 2 ^ (b + 5)) by (apply Z.pow_le_mono_r; lia).
  assert (2 ^ (b + 5) <= 2 ^ 63) by (apply Z.pow_le_mono_r; lia).
  change (2 ^ 5) with 32 in *. change (2 ^ 63) with 9223372036854775808 in *.
  assert (Z.log2 (2 ^ (b + 5) + e) = b + 5) as Hlog.
  { apply Z.log2_unique; [lia|]. rewrite Z.pow_succ_r by lia. lia. }
  rewrite Thread_new_val by (rewrite MAX_INDEX_val; change (2 ^ 64) with 18446744073709551616; lia).
  replace (2 ^ (b + 5) + e - 32 + 32) with (2 ^ (b + 5) + e) by lia.
  rewrite Hlog. do 2 f_equal; lia.
Qed.

Lemma Thread_new_panics i : MAX_INDEX < i -> Thread_new i = Panic.
Proof. intros Hi. unfold Thread_new. by rewrite decide_True by lia. Qed.

(** Two well-formed threads are at the same position only if they are equal. *)
Lemma thread_wf_inj th1 th2 :
  thread_wf th1 -> thread_wf th2 ->
  bucket th1 = bucket th2 -> entry th1 = entry th2 -> th1 = th2.
Proof.
  destruct th1 as [i1 e1 b1], th2 as [i2 e2 b2]. unfold thread_wf; simpl.
  intros (_ & _ & _ & H1) (_ & _ & _ & H2) -> ->. f_equal. lia.
Qed.

(** ** The heap of free IDs *)

Lemma heap_least_le x l : heap_least x l <= x.
Proof.
  revert x. induction l as [|y l IH]; intros x; simpl; [lia|].
  specialize (IH (Z.min x y)). lia.
Qed.

Lemma heap_least_min x l y : y ∈ x :: l -> heap_least x l <= y.
Proof.
  revert x. induction l as [|z l IH]; intros x; simpl.
  - intros ->%list_elem_of_singleton. done.
  - intros [->|[->|Hy]%elem_of_cons]%elem_of_cons.
    + pose proof (heap_least_le (Z.min x z) l). lia.
    + pose proof (heap_least_le (Z.min x z) l). lia.
    + apply IH. by right.
Qed.

Lemma heap_least_elem x l : heap_least x l ∈ x :: l.
Proof.
  revert x. induction l as [|z l IH]; intros x; simpl; [by left|].
  pose proof (IH (Z.min x z)) as [->|H]%elem_of_cons; [|by do 2 right].
  destruct (Z.min_spec x z) as [[_ ->]|[_ ->]]; [left|right; left].
Qed.

Lemma heap_remove_perm x l : x ∈ l -> l ≡ₚ x :: heap_remove x l.
Proof.
  induction l as [|y l IH]; simpl; [set_solver|].
  intros Hx. case_decide as Heq; [by subst|].
  apply elem_of_cons in Hx as [->|Hx]; [done|].
  rewrite (IH Hx) at 1. constructor.
Qed.

(** [pop] returns a least element and leaves the others. *)
Lemma heap_pop_spec l i l' :
  heap_pop l = Some (i, l') -> l ≡ₚ i :: l' /\ (forall j, j ∈ l -> i <= j).
Proof.
  destruct l as [|x l]; [done|]. cbn -[heap_remove]. intros [= <- <-]. split.
  - apply heap_remove_perm, heap_least_elem.
  - intros j Hj. by apply heap_least_min.
Qed.

Lemma heap_pop_None l : heap_pop l = None <-> l = [].
Proof. destruct l; simpl; naive_solver. Qed.

(** ** The registry invariant *)

Record reg_inv (r : Registry) : Prop := {
  ri_from : 0 <= free_from (manager r) <= usize_max;
  ri_free : forall i, i ∈ free_list (manager r) -> 0 <= i < free_from (manager r);
  ri_nodup : NoDup (free_list (manager r));
  ri_held : forall h th, holds r h th ->
    Thread_new (id th) = Ret th /\ 0 <= id th < free_from (manager r) /\
    (id th ∉ free_list (manager r));
  ri_inj : forall h1 h2 th1 th2,
    holds r h1 th1 -> holds r h2 th2 -> id th1 = id th2 -> h1 = h2;
  ri_guard : forall t i, THREAD_GUARD r !! t = Some (GLive i) ->
    exists th, THREAD r !! t = Some th /\ id th = i;
  ri_count : Z.of_nat (length (free_list (manager r))) + live_count r <= free_from (manager r)
}.

(** What a successful [create] hands out: an ID nobody holds. *)
Definition fresh_in (th : Thread) (r : Registry) : Prop :=
  Thread_new (id th) = Ret th /\ 0 <= id th < free_from (manager r) /\
  (id th ∉ free_list (manager r)) /\
  (forall h th', holds r h th' -> id th' <> id th) /\
  Z.of_nat (length (free_list (manager r))) + live_count r + 1 <= free_from (manager r).

Lemma holds_set_manager m p r h th : holds (set_manager m p r) h th <-> holds r h th.
Proof. by destruct h. Qed.

(** Replacing the manager keeps the invariant when the new one is in order. *)
Lemma reg_inv_manager m p r :
  reg_inv r ->
  0 <= free_from m <= usize_max ->
  free_from (manager r) <= free_from m ->
  NoDup (free_list m) ->
  (forall i, i ∈ free_list m -> 0 <= i < free_from m) ->
  (forall h th, holds r h th -> id th ∉ free_list m) ->
  Z.of_nat (length (free_list m)) + live_count r <= free_from m ->
  reg_inv (set_manager m p r).
Proof.
  intros [] **. constructor; simpl; try done.
  intros h th Hh%holds_set_manager. destruct (ri_held0 _ _ Hh) as (? & ? & ?).
  split_and!; eauto; lia.
Qed.

Lemma manager_alloc_spec r i m :
  reg_inv r -> manager_alloc (manager r) = Ret (i, m) ->
  reg_inv (set_manager m false r) /\ 0 <= i < free_from m /\ (i ∉ free_list m) /\
  (forall h th, holds r h th -> id th <> i) /\
  Z.of_nat (length (free_list m)) + live_count r + 1 <= free_from m.
Proof.
  intros Hinv Halloc. pose proof Hinv as [].
  unfold manager_alloc in Halloc. destruct (heap_pop _) as [[j l]|] eqn:Hpop; simplify_eq/=.
  - apply heap_pop_spec in Hpop as [Hperm _]. rewrite Hperm in ri_nodup0, ri_count0.
    apply NoDup_cons in ri_nodup0 as [Hi Hl]. simpl in ri_count0.
    assert (i ∈ free_list (manager r)) as Hin by (rewrite Hperm; by left).
    split_and!; try (by apply ri_free0); try done; try lia.
    + apply reg_inv_manager; simpl; try done; try lia.
      * intros k Hk. apply ri_free0. rewrite Hperm. by right.
      * intros h th (_ & _ & Hth)%ri_held0 Hl'. apply Hth. rewrite Hperm. by right.
    + by intros h th (_ & _ & Hth)%ri_held0 <-.
  - apply heap_pop_None in Hpop. unfold checked_add in Halloc.
    case_decide; simplify_eq/=. rewrite Hpop in *. simpl in *.
    split_and!; try lia; try (by apply not_elem_of_nil).
    + apply reg_inv_manager; simpl; try done; try lia.
      all: try (by intros ? ?%elem_of_nil). by intros ??? ?%elem_of_nil.
    + intros h th (_ & ? & _)%ri_held0. lia.
Qed.

Lemma reg_inv_poison r p : reg_inv r -> reg_inv (set_manager (manager r) p r).
Proof.
  intros Hinv. pose proof Hinv as []. apply reg_inv_manager; try done.
  by intros h th (_ & _ & ?)%ri_held0.
Qed.

Lemma Thread_create_spec r o r' :
  reg_inv r -> Thread_create r = (o, r') ->
  reg_inv r' /\ THREAD r' = THREAD r /\ THREAD_GUARD r' = THREAD_GUARD r /\
  owned r' = owned r /\
  match o with Ret th => fresh_in th r' /\ poisoned r' = false | Panic => poisoned r' = true end.
Proof.
  intros Hinv. unfold Thread_create.
  destruct (poisoned r) eqn:Hp; [by intros [= <- <-]|].
  destruct (manager_alloc (manager r)) as [[i m]|] eqn:Halloc; simpl.
  - destruct (manager_alloc_spec _ _ _ Hinv Halloc) as (Hinv' & Hi & Hfree & Hne & Hcnt).
    destruct (Thread_new i) as [th|] eqn:Hnew; intros [= <- <-]; simpl.
    + destruct (Thread_new_wf i th) as [_ <-]; [lia|done|]. split_and!; try done.
    + split_and!; try done. by apply (reg_inv_poison _ true) in Hinv'.
  - intros [= <- <-]. split_and!; try done. by apply reg_inv_poison.
Qed.

(** A fresh thread given to a holder that had none. *)
Lemma reg_inv_acquire r r' h th :
  reg_inv r -> fresh_in th r ->
  manager r' = manager r -> live_count r' = live_count r + 1 ->
  (forall h' th', holds r' h' th' -> (h' = h /\ th' = th) \/ holds r h' th') ->
  (forall t i, THREAD_GUARD r' !! t = Some (GLive i) ->
    exists th', THREAD r' !! t = Some th' /\ id th' = i) ->
  reg_inv r'.
Proof.
  intros [] (Hnew & Hrange & Hnf & Hne & Hcnt) Hm Hlive Hh Hg.
  constructor; rewrite ?Hm; try done.
  - intros h' th' [[-> ->]|Hold]%Hh; [done|eauto].
  - intros h1 h2 th1 th2 H1%Hh H2%Hh Heq.
    destruct H1 as [[-> ->]|H1], H2 as [[-> ->]|H2]; [done|..|by eapply ri_inj0].
    + by destruct (Hne _ _ H2).
    + by destruct (Hne _ _ H1).
  - lia.
Qed.

(** A holder that goes away, before its ID is given back. *)
Lemma reg_inv_release r r' h :
  reg_inv r -> manager r' = manager r -> live_count r' <= live_count r ->
  (forall h' th', holds r' h' th' -> h' <> h /\ holds r h' th') ->
  (forall t i, THREAD_GUARD r' !! t = Some (GLive i) ->
    exists th', THREAD r' !! t = Some th' /\ id th' = i) ->
  reg_inv r'.
Proof.
  intros [] Hm Hlive Hh Hg.
  constructor; rewrite ?Hm; try done.
  - by intros h' th' [_ ?%ri_held0]%Hh.
  - intros h1 h2 th1 th2 [_ H1]%Hh [_ H2]%Hh. eauto.
  - lia.
Qed.

(** Giving an ID back that nobody holds any more. *)
Lemma Thread_free_inv mem i r o r' :
  reg_inv r -> Thread_free mem i r = (o, r') ->
  0 <= i < free_from (manager r) -> i ∉ free_list (manager r) ->
  (forall h th, holds r h th -> id th <> i) ->
  Z.of_nat (length (free_list (manager r))) + live_count r + 1 <= free_from (manager r) ->
  reg_inv r'.
Proof.
  unfold Thread_free. intros Hinv Hfree Hi Hni Hne Hcnt. pose proof Hinv as [].
  destruct (poisoned r); simplify_eq; [done|].
  apply reg_inv_manager; destruct mem; simpl; try done; try lia.
  - by constructor.
  - intros j [->|Hj]%elem_of_cons; eauto.
  - intros h th Hh [Heq|Hj]%elem_of_cons; [by eapply Hne|].
    by apply (ri_held0 _ _ Hh).
  - intros h th Hh. by apply (ri_held0 _ _ Hh).
Qed.

Lemma live_count_delete_THREAD r t gs th :
  THREAD r !! t = Some th ->
  live_count (set_tls (delete t (THREAD r)) gs r) = live_count r - 1.
Proof.
  intros Ht. unfold live_count; simpl. rewrite map_size_delete_Some by eauto.
  assert (size (THREAD r) <> 0%nat); [|lia].
  intros Hz%map_size_empty_inv. rewrite Hz in Ht. done.
Qed.

Lemma live_count_delete_owned r g th :
  owned r !! g = Some th ->
  live_count (set_owned (delete g (owned r)) r) = live_count r - 1.
Proof.
  intros Ht. unfold live_count; simpl. rewrite map_size_delete_Some by eauto.
  assert (size (owned r) <> 0%nat); [|lia].
  intros Hz%map_size_empty_inv. rewrite Hz in Ht. done.
Qed.

Lemma init_slow_inv t r o r' :
  reg_inv r -> THREAD r !! t = None -> init_slow t r = (o, r') ->
  reg_inv r' /\ (forall th, o = Ret th -> THREAD r' !! t = Some th).
Proof.
  intros Hinv Ht. unfold init_slow.
  destruct (Thread_create r) as [oc r1] eqn:Hc.
  destruct (Thread_create_spec _ _ _ Hinv Hc) as (Hinv1 & Ets & Egs & Eos & Hc1).
  destruct oc as [new|]; [|intros [= <- <-]; by split].
  destruct Hc1 as [Hfresh _]. intros Hr.
  assert (forall gs, (forall t' i, gs !! t' = Some (GLive i) ->
     exists th', <[t:=new]> (THREAD r1) !! t' = Some th' /\ id th' = i) ->
     reg_inv (set_tls (<[t:=new]> (THREAD r1)) gs r1)) as Hacq.
  { intros gs Hgs. apply (reg_inv_acquire r1 _ (inl t) new); try done.
    - unfold live_count; simpl. rewrite map_size_insert_None by congruence. lia.
    - intros [t'|g'] th' Hh; [|by right]. simpl in *.
      destruct (decide (t = t')) as [<-|]; simplify_map_eq; [by left|by right]. }
  assert (forall gs, (forall t' i, gs !! t' = Some (GLive i) ->
     (t' = t /\ i = id new) \/ THREAD_GUARD r1 !! t' = Some (GLive i)) ->
     reg_inv (set_tls (<[t:=new]> (THREAD r1)) gs r1)) as Hacq'.
  { intros gs Hgs. apply Hacq. intros t' i [[-> ->]|Hg]%Hgs; [simplify_map_eq; eauto|].
    destruct (ri_guard _ Hinv1 _ _ Hg) as (th' & Hth' & <-).
    exists th'. split; [|done]. rewrite lookup_insert_ne; [done|congruence]. }
  assert (reg_inv r' /\ THREAD r' = <[t:=new]> (THREAD r1) /\
    (forall th, o = Ret th -> th = new)) as (Hinv' & -> & Ho).
  { repeat case_match; simplify_eq/=; (split; [|split; [done|naive_solver]]);
      apply Hacq'; intros t' j Hg; simpl in *; auto;
      (destruct (decide (t = t')) as [<-|]; simplify_map_eq; auto). }
  split; [done|]. intros th ->%Ho. by simplify_map_eq.
Qed.

Lemma Thread_current_inv t r o r' :
  reg_inv r -> Thread_current t r = (o, r') ->
  reg_inv r' /\ (forall th, o = Ret th -> THREAD r' !! t = Some th).
Proof.
  intros Hinv. unfold Thread_current. destruct (THREAD r !! t) eqn:Ht; [|by apply init_slow_inv].
  intros [= <- <-]. naive_solver.
Qed.

Lemma ThreadGuard_drop_inv mem t r o r' :
  reg_inv r -> ThreadGuard_drop mem t r = (o, r') -> reg_inv r'.
Proof.
  intros Hinv. unfold ThreadGuard_drop.
  destruct (THREAD_GUARD r !! t) as [[i|]|] eqn:Hg; try by intros [= <- <-].
  destruct (ri_guard _ Hinv _ _ Hg) as (th & Hth & <-). intros Hf.
  destruct (ri_held _ Hinv (inl t) th Hth) as (Hnew & Hr & Hnf).
  pose proof (ri_count _ Hinv).
  eapply (Thread_free_inv _ _ _ _ _); [|done|done|done|..].
  - apply (reg_inv_release r _ (inl t)); try done.
    + rewrite (live_count_delete_THREAD _ _ _ th) by done. lia.
    + intros [t'|g'] th' Hh; simpl in *; simplify_map_eq; [|done].
      apply lookup_delete_Some in Hh as [? ?]. naive_solver.
    + simpl. intros t' i Hg'. destruct (decide (t = t')) as [<-|]; simplify_map_eq.
      destruct (ri_guard _ Hinv _ _ Hg') as (th' & ? & ?). exists th'. by simplify_map_eq.
  - intros [t'|g'] th' Hh; simpl in Hh; intros Heq.
    + apply lookup_delete_Some in Hh as [Hne Hh].
      by pose proof (ri_inj _ Hinv (inl t') (inl t) th' th Hh Hth Heq) as [= ->].
    + by pose proof (ri_inj _ Hinv (inr g') (inl t) th' th Hh Hth Heq).
  - rewrite (live_count_delete_THREAD _ _ _ th) by done. simpl. lia.
Qed.

Lemma owned_create_inv g r o r' :
  reg_inv r -> owned r !! g = None -> owned_create g r = (o, r') ->
  reg_inv r' /\ (forall th, o = Ret th -> owned r' !! g = Some th).
Proof.
  intros Hinv Hg. unfold owned_create.
  destruct (Thread_create r) as [oc r1] eqn:Hc.
  destruct (Thread_create_spec _ _ _ Hinv Hc) as (Hinv1 & Ets & Egs & Eos & Hc1).
  destruct oc as [new|]; intros [= <- <-]; [|by split].
  destruct Hc1 as [Hfresh _]. split; [|intros ? [= <-]; simpl; by simplify_map_eq].
  apply (reg_inv_acquire r1 _ (inr g) new); try done.
  - unfold live_count; simpl. rewrite map_size_insert_None by congruence. lia.
  - intros [t'|g'] th' Hh; [by right|]. simpl in *.
    destruct (decide (g = g')) as [<-|]; simplify_map_eq; [by left|by right].
  - apply (ri_guard _ Hinv1).
Qed.

Lemma owned_free_inv mem g r o r' :
  reg_inv r -> owned_free mem g r = (o, r') -> reg_inv r'.
Proof.
  intros Hinv. unfold owned_free.
  destruct (owned r !! g) as [th|] eqn:Hg; [|by intros [= <- <-]]. intros Hf.
  destruct (ri_held _ Hinv (inr g) th Hg) as (Hnew & Hr & Hnf).
  pose proof (ri_count _ Hinv).
  eapply (Thread_free_inv _ _ _ _ _); [|done|done|done|..].
  - apply (reg_inv_release r _ (inr g)); try done.
    + rewrite (live_count_delete_owned _ _ th) by done. lia.
    + intros [t'|g'] th' Hh; simpl in *; [done|].
      apply lookup_delete_Some in Hh as [? ?]. naive_solver.
    + apply (ri_guard _ Hinv).
  - intros [t'|g'] th' Hh; simpl in Hh; intros Heq.
    + by pose proof (ri_inj _ Hinv (inl t') (inr g) th' th Hh Hg Heq).
    + apply lookup_delete_Some in Hh as [Hne Hh].
      by pose proof (ri_inj _ Hinv (inr g') (inr g) th' th Hh Hg Heq) as [= ->].
  - rewrite (live_count_delete_owned _ _ th) by done. simpl. lia.
Qed.

Lemma reg_inv_init : reg_inv registry_init.
Proof.
  constructor; simpl; try done.
  - intros i ?%elem_of_nil. done.
  - constructor.
  - by intros [] ? ?.
  - by intros [] ???.
Qed.

Lemma reg_step_inv o r : reg_inv r -> reg_inv (reg_step o r).
Proof.
  intros Hinv. destruct o as [t|mem t|g|mem g]; simpl.
  - destruct (Thread_current t r) as [o' r'] eqn:Hc. by eapply Thread_current_inv.
  - destruct (ThreadGuard_drop mem t r) as [o' r'] eqn:Hc. by eapply ThreadGuard_drop_inv.
  - case_decide as Hg; [done|]. rewrite <-eq_None_not_Some in Hg.
    destruct (owned_create g r) as [o' r'] eqn:Hc. by eapply owned_create_inv.
  - destruct (owned_free mem g r) as [o' r'] eqn:Hc. by eapply owned_free_inv.
Qed.

Lemma reg_run_inv os r : reg_inv r -> reg_inv (reg_run os r).
Proof. revert r. induction os; intros r Hr; simpl; auto using reg_step_inv. Qed.

(** ** Who keeps its ID *)

Lemma Thread_current_holds t r o r' h th :
  reg_inv r -> Thread_current t r = (o, r') -> holds r h th -> holds r' h th.
Proof.
  intros Hinv. unfold Thread_current. destruct (THREAD r !! t) eqn:Ht; [by intros [= <- <-]|].
  unfold init_slow. destruct (Thread_create r) as [oc r1] eqn:Hc.
  destruct (Thread_create_spec _ _ _ Hinv Hc) as (_ & Ets & _ & Eos & _).
  intros Hr Hh. assert (holds r1 h th /\ h <> inl t) as [Hh1 Hne].
  { split; [destruct h; simpl in *; congruence|]. intros ->. simpl in Hh. congruence. }
  repeat case_match; simplify_eq/=; try done; destruct h as [t'|g]; simpl in *; try done;
    rewrite lookup_insert_ne; congruence.
Qed.

Lemma owned_create_holds g r o r' h th :
  reg_inv r -> owned r !! g = None -> owned_create g r = (o, r') -> holds r h th -> holds r' h th.
Proof.
  intros Hinv Hg. unfold owned_create. destruct (Thread_create r) as [oc r1] eqn:Hc.
  destruct (Thread_create_spec _ _ _ Hinv Hc) as (_ & Ets & _ & Eos & _).
  intros Hr Hh. assert (holds r1 h th /\ h <> inr g) as [Hh1 Hne].
  { split; [destruct h; simpl in *; congruence|]. intros ->. simpl in Hh. congruence. }
  destruct oc; simplify_eq/=; [|done]. destruct h as [t'|g']; simpl in *; [done|].
  rewrite lookup_insert_ne; congruence.
Qed.

Lemma Thread_free_holds mem i r o r' h th :
  Thread_free mem i r = (o, r') -> holds r' h th <-> holds r h th.
Proof. unfold Thread_free. destruct (poisoned r); intros [= <- <-]; by destruct h. Qed.

Lemma owned_free_holds mem g r o r' h th :
  owned_free mem g r = (o, r') -> h <> inr g -> holds r h th -> holds r' h th.
Proof.
  unfold owned_free. destruct (owned r !! g) as [th'|]; [|by intros [= <- <-]].
  intros Hf Hne Hh. apply (Thread_free_holds _ _ _ _ _ _ _ Hf). destruct h as [t|g']; simpl in *; [done|].
  rewrite lookup_delete_ne; congruence.
Qed.

Lemma ThreadGuard_drop_holds mem t r o r' h th :
  ThreadGuard_drop mem t r = (o, r') -> h <> inl t -> holds r h th -> holds r' h th.
Proof.
  unfold ThreadGuard_drop. destruct (THREAD_GUARD r !! t) as [[i|]|]; try by intros [= <- <-].
  intros Hf Hne Hh. apply (Thread_free_holds _ _ _ _ _ _ _ Hf). destruct h as [t'|g']; simpl in *; [|done].
  rewrite lookup_delete_ne; congruence.
Qed.

Lemma holds_wf r h th : reg_inv r -> holds r h th -> thread_wf th.
Proof. intros Hinv Hh. destruct (ri_held _ Hinv _ _ Hh) as (Hn & Hr & _). eapply Thread_new_wf; [|done]; lia. Qed.

(** ** Density of the IDs *)

(** Every ID below [free_from] is held or free: nothing was lost. *)
Definition dense (r : Registry) : Prop :=
  poisoned r = false ->
  Z.of_nat (length (free_list (manager r))) + live_count r = free_from (manager r).

Lemma Thread_create_poison r : poisoned r = true -> Thread_create r = (Panic, r).
Proof. unfold Thread_create. by intros ->. Qed.

Lemma Thread_free_poison mem i r : poisoned r = true -> Thread_free mem i r = (Panic, r).
Proof. unfold Thread_free. by intros ->. Qed.

Lemma reg_step_poison o r : poisoned r = true -> poisoned (reg_step o r) = true.
Proof.
  intros Hp. destruct o; simpl;
    unfold Thread_current, init_slow, ThreadGuard_drop, owned_create, owned_free;
    rewrite ?Thread_create_poison by done;
    repeat case_match; simplify_eq/=; try done; by rewrite Thread_free_poison.
Qed.

(** The manager's numbers after a successful [create]. *)
Lemma Thread_create_count r th r' :
  Thread_create r = (Ret th, r') ->
  live_count r' = live_count r /\ poisoned r' = false /\ poisoned r = false /\
  ((free_from (manager r') = free_from (manager r) /\
    length (free_list (manager r)) = S (length (free_list (manager r')))) \/
   (free_from (manager r') = free_from (manager r) + 1 /\
    free_list (manager r') = [] /\ free_list (manager r) = [])).
Proof.
  unfold Thread_create, manager_alloc, checked_add.
  destruct (poisoned r) eqn:Hp; [done|].
  destruct (heap_pop _) as [[i l]|] eqn:Hpop.
  - apply heap_pop_spec in Hpop as [Hperm _].
    case_match; intros [= <- <-]. simpl. split_and!; try done. left.
    split; [done|]. by rewrite Hperm.
  - apply heap_pop_None in Hpop. repeat case_match; intros; simplify_eq/=.
    split_and!; try done. by right.
Qed.

Lemma Thread_free_count i r r' o :
  Thread_free true i r = (o, r') -> poisoned r' = false ->
  live_count r' = live_count r /\ free_from (manager r') = free_from (manager r) /\
  length (free_list (manager r')) = S (length (free_list (manager r))).
Proof. unfold Thread_free. destruct (poisoned r) eqn:Hp; intros [= <- <-] ?; [congruence|done]. Qed.

(** One step changes the counts in step: [free_from] only grows when there is
    no free ID, in which case every ID is held afterwards. *)
Definition count_step (r r' : Registry) : Prop :=
  poisoned r' = false ->
  dense r' /\
  (free_from (manager r') = free_from (manager r) \/
   free_from (manager r') = live_count r').

Lemma count_step_acquire r th r1 r' :
  dense r -> Thread_create r = (Ret th, r1) ->
  manager r' = manager r1 -> live_count r' = live_count r1 + 1 -> count_step r r'.
Proof.
  intros Hd Hc Hm Hl _. destruct (Thread_create_count _ _ _ Hc) as (Hl1 & Hp1 & Hp & Hcase).
  specialize (Hd Hp). unfold dense. rewrite Hm, Hl, Hl1.
  destruct Hcase as [[-> Hlen]|(-> & -> & Hnil)].
  - split; [lia|by left].
  - rewrite Hnil in Hd. simpl in *. split; [lia|right; lia].
Qed.

Lemma count_step_refl r : dense r -> count_step r r.
Proof. intros Hd _. by split; [|left]. Qed.

Lemma count_step_release r r1 i o r' :
  dense r -> poisoned r1 = poisoned r -> manager r1 = manager r ->
  live_count r1 = live_count r - 1 ->
  Thread_free true i r1 = (o, r') -> count_step r r'.
Proof.
  intros Hd Hp Hm Hl Hf Hp'.
  destruct (Thread_free_count _ _ _ _ Hf Hp') as (Hl' & Hfr & Hlen).
  assert (poisoned r1 = false) as Hp1.
  { destruct (poisoned r1) eqn:E; [|done]. rewrite Thread_free_poison in Hf by done. congruence. }
  rewrite Hp in Hp1. specialize (Hd Hp1). unfold dense. rewrite Hl', Hfr, Hlen, Hl, Hm.
  split; [lia|by left].
Qed.

Lemma reg_step_count o r :
  reg_inv r -> dense r -> op_mem_ok o = true -> count_step r (reg_step o r).
Proof.
  intros Hinv Hd Ho. destruct o as [t|mem t|g|mem g]; simpl in *; try subst mem.
  - unfold Thread_current, init_slow. destruct (THREAD r !! t) eqn:Ht; [by apply count_step_refl|].
    destruct (Thread_create r) as [[th|] r1] eqn:Hc.
    + destruct (Thread_create_spec _ _ _ Hinv Hc) as (_ & Ets & Egs & Eos & _).
      assert (forall gs, live_count (set_tls (<[t:=th]> (THREAD r1)) gs r1) = live_count r1 + 1).
      { intros gs. unfold live_count; simpl. rewrite map_size_insert_None by congruence. lia. }
      repeat case_match; simpl; by eapply count_step_acquire.
    + destruct (Thread_create_spec _ _ _ Hinv Hc) as (_ & _ & _ & _ & Hp). intros Hp'. simpl in *. congruence.
  - unfold ThreadGuard_drop. destruct (THREAD_GUARD r !! t) as [[i|]|] eqn:Hg;
      try by apply count_step_refl.
    destruct (ri_guard _ Hinv _ _ Hg) as (th & Hth & <-).
    destruct (Thread_free true _ _) as [o' r'] eqn:Hf. simpl.
    eapply count_step_release; [done| | | |done]; try done.
    by eapply live_count_delete_THREAD.
  - case_decide as Hg; [by apply count_step_refl|]. rewrite <-eq_None_not_Some in Hg.
    unfold owned_create. destruct (Thread_create r) as [[th|] r1] eqn:Hc; simpl.
    + destruct (Thread_create_spec _ _ _ Hinv Hc) as (_ & Ets & Egs & Eos & _).
      eapply count_step_acquire; try done. unfold live_count; simpl.
      rewrite map_size_insert_None by congruence. lia.
    + destruct (Thread_create_spec _ _ _ Hinv Hc) as (_ & _ & _ & _ & Hp). intros Hp'. congruence.
  - unfold owned_free. destruct (owned r !! g) as [th|] eqn:Hg; [|by apply count_step_refl].
    destruct (Thread_free true _ _) as [o' r'] eqn:Hf. simpl.
    eapply count_step_release; [done| | | |done]; try done.
    by eapply live_count_delete_owned.
Qed.

Lemma reg_run_poison os r : poisoned r = true -> poisoned (reg_run os r) = true.
Proof. revert r. induction os; intros r Hr; simpl; auto using reg_step_poison. Qed.

Lemma reg_run_peak os r :
  reg_inv r -> dense r -> forallb op_mem_ok os = true ->
  poisoned (reg_run os r) = false ->
  free_from (manager (reg_run os r)) <= Z.max (free_from (manager r)) (peak os r).
Proof.
  revert r. induction os as [|o os IH]; intros r Hinv Hd Hos Hp; simpl in *; [lia|].
  apply andb_true_iff in Hos as [Ho Hos].
  assert (poisoned (reg_step o r) = false) as Hp1.
  { destruct (poisoned (reg_step o r)) eqn:E; [|done]. rewrite reg_run_poison in Hp by done. done. }
  destruct (reg_step_count _ _ Hinv Hd Ho Hp1) as [Hd1 Hcase].
  specialize (IH _ (reg_step_inv _ _ Hinv) Hd1 Hos Hp).
  assert (live_count (reg_step o r) <= peak os (reg_step o r)).
  { destruct os; simpl; lia. }
  lia.
Qed.

(** ** Properties *)

(** C29. [Thread::new] is a bijection between the IDs [0 .. MAX_INDEX] and
    the positions (bucket, entry) of the vector: an ID in range gets a position
    inside its bucket with no intermediate overflow, every position is reached,
    and by exactly one ID. *)
Theorem Thread_new_bijection :
  (forall i, 0 <= i <= MAX_INDEX ->
     exists th, Thread_new i = Ret th /\ id th = i /\
       0 <= bucket th < BUCKETS /\ 0 <= entry th < bucket_capacity (bucket th)) /\
  (forall b e, 0 <= b < BUCKETS -> 0 <= e < bucket_capacity b ->
     exists i, 0 <= i <= MAX_INDEX /\
       Thread_new i = Ret {| id := i; bucket := b; entry := e |} /\
       forall j th, 0 <= j -> Thread_new j = Ret th -> bucket th = b -> entry th = e -> j = i).
Proof.
  split.
  - intros i Hi. pose proof (Thread_new_val i Hi) as Hnew.
    destruct (Thread_new_wf _ _ (proj1 Hi) Hnew) as [(_ & ? & ? & _) ?]. eauto.
  - intros b e Hb He. pose proof (Thread_new_complete b e Hb He) as Hnew.
    set (i := bucket_capacity b + e - 32) in *. exists i.
    assert (0 <= i) as Hi.
    { subst i. rewrite bucket_capacity_pow by done.
      pose proof (Z.pow_le_mono_r 2 5 (b + 5)). change (2 ^ 5) with 32 in *. lia. }
    destruct (Thread_new_wf _ _ Hi Hnew) as [Hwf Hid]. pose proof (proj1 Hwf).
    split_and!; [done|naive_solver|done|].
    intros j th Hj Hth <- <-. destruct (Thread_new_wf _ _ Hj Hth) as [Hwf' <-].
    by rewrite (thread_wf_inj _ _ Hwf' Hwf).
Qed.

(** C28. Thread IDs and slots are never shared: whatever the interleaving of
    threads asking for their ID, threads exiting, owned guards being created
    and dropped, and failures to reserve memory when an ID is freed, two live
    holders (threads or owned guards) at the same (bucket, entry) position of
    the vector are one and the same holder. *)
Theorem live_slots_unique os h1 h2 th1 th2 :
  holds (reg_run os registry_init) h1 th1 ->
  holds (reg_run os registry_init) h2 th2 ->
  bucket th1 = bucket th2 -> entry th1 = entry th2 ->
  h1 = h2 /\ th1 = th2.
Proof.
  intros H1 H2 Hb He. pose proof (reg_run_inv os _ reg_inv_init) as Hinv.
  destruct (ri_held _ Hinv _ _ H1) as (Hn1 & Hr1 & _).
  destruct (ri_held _ Hinv _ _ H2) as (Hn2 & Hr2 & _).
  destruct (Thread_new_wf _ _ (proj1 Hr1) Hn1) as [Hwf1 _].
  destruct (Thread_new_wf _ _ (proj1 Hr2) Hn2) as [Hwf2 _].
  pose proof (thread_wf_inj _ _ Hwf1 Hwf2 Hb He) as ->.
  by split; [eapply (ri_inj _ Hinv)|].
Qed.


(** [alloc] reuses a least free ID when there is one, and otherwise the
    next ID that was never used; [free] makes the ID available again exactly
    when its [try_reserve] succeeds. *)
Theorem manager_alloc_least m i m' :
  manager_alloc m = Ret (i, m') ->
  (free_list m <> [] ->
     free_list m ≡ₚ i :: free_list m' /\ free_from m' = free_from m /\
     forall j, j ∈ free_list m -> i <= j) /\
  (free_list m = [] -> i = free_from m /\ free_from m' = free_from m + 1 /\ free_list m' = []) /\
  (forall j, j ∈ free_list (manager_free true i m') <-> j = i \/ j ∈ free_list m') /\
  manager_free false i m' = m'.
Proof.
  unfold manager_alloc, checked_add. intros Halloc.
  destruct (heap_pop _) as [[k l]|] eqn:Hpop.
  - simplify_eq/=. destruct (heap_pop_spec _ _ _ Hpop) as [Hperm Hmin].
    split_and!; try done; [|intros j; apply elem_of_cons].
    intros Hnil. by rewrite Hnil in Hpop.
  - apply heap_pop_None in Hpop. case_decide; simplify_eq/=.
    split_and!; try done. intros j; apply elem_of_cons.
Qed.

(** C31. Exhaustion: once all the [MAX_INDEX + 1 = 2^64 - 32] IDs are taken,
    [Thread::create] panics while the manager's mutex is held, which poisons
    it, so that every later [create] panics as well and no ID can be freed any
    more. *)
Theorem exhaustion_poisons r :
  poisoned r = false -> free_list (manager r) = [] -> free_from (manager r) = MAX_INDEX + 1 ->
  MAX_INDEX + 1 = 2 ^ 64 - 32 /\
  exists r', Thread_create r = (Panic, r') /\ poisoned r' = true /\
    forall os, poisoned (reg_run os r') = true /\
      fst (Thread_create (reg_run os r')) = Panic /\
      forall mem i, Thread_free mem i (reg_run os r') = (Panic, reg_run os r').
Proof.
  intros Hp Hnil Hfrom. split; [done|].
  exists (set_manager {| free_from := MAX_INDEX + 2; free_list := [] |} true r).
  split; [|split; [done|]].
  - unfold Thread_create. rewrite Hp. unfold manager_alloc. rewrite Hnil, Hfrom. done.
  - intros os. set (r' := reg_run os _).
    assert (poisoned r' = true) as Hp' by (by apply reg_run_poison).
    split_and!; [done|by rewrite Thread_create_poison|intros; by apply Thread_free_poison].
Qed.

(** ** Witnesses *)

(** Threads 0 and 1 start, thread 0 exits, an owned guard takes its ID over. *)
Definition demo_run : list reg_op :=
  [RCurrent 0; RCurrent 1; RExit true 0; ROwned 7; RCurrent 1].

Lemma live_slots_unique_witness :
  (inr 7%nat : nat + nat) = inr 7%nat /\ mkThread 0 0 0 = mkThread 0 0 0.
Proof.
  apply (live_slots_unique demo_run (inr 7%nat) (inr 7%nat) (mkThread 0 0 0) (mkThread 0 0 0));
    vm_compute; reflexivity.
Defined.


Lemma manager_alloc_least_witness :
  [2; 0] ≡ₚ 0 :: [2] /\ 3 = 3 /\ forall j, j ∈ [2; 0] -> 0 <= j.
Proof.
  apply (manager_alloc_least (mkManager 3 [2; 0]) 0 (mkManager 3 [2])); [reflexivity|done].
Defined.

Lemma exhaustion_poisons_witness :
  exists r', Thread_create (mkRegistry (mkManager (MAX_INDEX + 1) []) false ∅ ∅ ∅) = (Panic, r') /\
    poisoned r' = true.
Proof.
  destruct (exhaustion_poisons (mkRegistry (mkManager (MAX_INDEX + 1) []) false ∅ ∅ ∅))
    as (_ & r' & H1 & H2 & _); [reflexivity..|].
  exists r'. split; assumption.
Defined.

(** The unit tests [recycle_ids] and [thread] of the module. *)
Example recycle_ids :
  let a m := match manager_alloc m with Ret (i, m') => (Some i, m') | Panic => (None, m) end in
  let '(i0, m) := a manager_default in
  let '(i1, m) := a m in
  let '(i2, m) := a m in
  let m := manager_free true 0 (manager_free true 2 m) in
  let '(i3, m) := a m in
  let '(i4, m) := a m in
  let '(i5, m) := a m in
  [i0; i1; i2; i3; i4; i5] = [Some 0; Some 1; Some 2; Some 0; Some 2; Some 3].
Proof. reflexivity. Qed.

Example thread_positions :
  Thread_new 31 = Ret (mkThread 31 31 0) /\
  Thread_new 32 = Ret (mkThread 32 0 1) /\
  Thread_new 95 = Ret (mkThread 95 63 1) /\
  Thread_new 96 = Ret (mkThread 96 0 2) /\
  Thread_new MAX_INDEX = Ret (mkThread MAX_INDEX (2 ^ 63 - 1) 58).
Proof. split_and!; reflexivity. Qed.
