(* ===== verification/Membarrier.v ===== *)
(** * Asymmetric memory barriers ([src/src/raw/membarrier.rs])

    The three platform modules ([default], [linux], [windows]) with the
    orderings and barriers they choose, the run-time detection of the Linux
    strategy, and the system calls behind the two process-wide Linux barriers.
    System calls are code outside the crate: their return values are
    arguments. *)

From stdpp Require Import prelude list.
From S2P Require Import Prelude.

Open Scope Z_scope.

(** [std::sync::atomic::Ordering] *)
Inductive Ordering := Relaxed | Release | Acquire | AcqRel | SeqCst.

#[export] Instance Ordering_eq_dec : EqDecision Ordering.
Proof. solve_decision. Defined.

(** What [heavy] does: a fence of the calling thread only, or one of the
    process-wide barriers. *)
Inductive Heavy := HFence | HMembarrier | HMprotect | HFlushProcessWriteBuffers.

#[export] Instance Heavy_eq_dec : EqDecision Heavy.
Proof. solve_decision. Defined.

(** The process-wide barriers order the memory accesses of every thread of the
    process, as if each had executed a full fence at that point. *)
Definition process_wide (h : Heavy) : bool :=
  match h with HFence => false | _ => true end.

(** The module selected by the [cfg] attributes. *)
Inductive Platform := PDefault | PLinux | PWindows.

#[export] Instance Platform_eq_dec : EqDecision Platform.
Proof. solve_decision. Defined.

(** ** [mod default] *)

Definition default_light_store : Ordering := SeqCst.
Definition default_light_load : Ordering := SeqCst.
Definition default_heavy : Heavy := HFence.

(** ** [mod windows] *)

Definition windows_light_store : Ordering := Relaxed.
Definition windows_light_load : Ordering := Relaxed.
Definition windows_heavy : Heavy := HFlushProcessWriteBuffers.

(** ** [mod linux] *)

Definition MEMBARRIER : Z := 0.
Definition MPROTECT : Z := 1.
Definition FALLBACK : Z := 2.

(** The initial value of [static STRATEGY: AtomicU8]. *)
Definition STRATEGY_init : Z := FALLBACK.

Definition linux_light_store (strategy : Z) : Ordering :=
  if decide (strategy = FALLBACK) then SeqCst else Relaxed.

Definition linux_heavy (strategy : Z) : Heavy :=
  if decide (strategy = MEMBARRIER) then HMembarrier
  else if decide (strategy = MPROTECT) then HMprotect
  else HFence.

Definition linux_light_load : Ordering := SeqCst.

(** [mod membarrier]: the command numbers of the system call. *)
Definition MEMBARRIER_CMD_QUERY : Z := 0.
Definition MEMBARRIER_CMD_PRIVATE_EXPEDITED : Z := Z.shiftl 1 3.
Definition MEMBARRIER_CMD_REGISTER_PRIVATE_EXPEDITED : Z := Z.shiftl 1 4.

(** [membarrier::is_supported]; [sys cmd] is the value the system call
    returns for [cmd]. *)
Definition membarrier_is_supported (sys : Z -> Z) : bool :=
  let ret := sys MEMBARRIER_CMD_QUERY in
  if decide (ret < 0 \/
             Z.land ret MEMBARRIER_CMD_PRIVATE_EXPEDITED = 0 \/
             Z.land ret MEMBARRIER_CMD_REGISTER_PRIVATE_EXPEDITED = 0)
  then false
  else if decide (sys MEMBARRIER_CMD_REGISTER_PRIVATE_EXPEDITED < 0) then false
  else true.

(** [fatal_assert!]: abort the process unless the condition holds. *)
Definition fatal_assert (c : bool) (k : outcome unit) : outcome unit :=
  if c then k else Panic.

(** [membarrier::barrier] *)
Definition membarrier_barrier (sys : Z -> Z) : outcome unit :=
  fatal_assert (bool_decide (sys MEMBARRIER_CMD_PRIVATE_EXPEDITED >= 0)) (Ret tt).

(** [mprotect::is_supported]: the target is x86 or x86-64. *)
Definition mprotect_is_supported (x86 : bool) : bool := x86.

(** The system calls of [Barrier::barrier], in order, with the page protection
    as an observable state. *)
Inductive Prot := PROT_NONE | PROT_READ_WRITE.

#[export] Instance Prot_eq_dec : EqDecision Prot.
Proof. solve_decision. Defined.

Record MprotectPage := mkPage { locked : bool; prot : Prot; counter : Z }.

(** [Barrier::barrier]: the arguments are the return values of
    [pthread_mutex_lock], the two [mprotect] calls and [pthread_mutex_unlock]. *)
Definition mprotect_barrier (lock rw none unlock : Z) (pg : MprotectPage)
    : outcome MprotectPage :=
  if negb (bool_decide (lock = 0)) then Panic
  else if negb (bool_decide (rw = 0)) then Panic
  else
    (* The page is writable now: dirty it. *)
    let pg := mkPage true PROT_READ_WRITE (wadd (counter pg) 1) in
    if negb (bool_decide (none = 0)) then Panic
    else
      (* read-write to none: the TLB flush that acts as the barrier *)
      let pg := mkPage true PROT_NONE (counter pg) in
      if negb (bool_decide (unlock = 0)) then Panic
      else Ret (mkPage false PROT_NONE (counter pg)).

(** What the system calls of the closure in [mprotect::barrier] return. *)
Record InitCalls := mkInitCalls {
  ic_sysconf : Z;
  ic_mmap : Z;
  ic_attr_init : Z;
  ic_attr_settype : Z;
  ic_mutex_init : Z;
  ic_attr_destroy : Z
}.

(** [libc::MAP_FAILED], as an address. *)
Definition MAP_FAILED : Z := usize_max.

(** A [Barrier]: its page with the mutex, the address and the size. *)
Record Barrier := mkBarrier { br_page : MprotectPage; page : Z; page_size : Z }.

(** The closure: an anonymous page starts zeroed; the result of [mlock] is
    not checked. *)
Definition mprotect_init (c : InitCalls) : outcome Barrier :=
  if negb (bool_decide (ic_sysconf c > 0)) then Panic
  else if negb (bool_decide (ic_mmap c <> MAP_FAILED)) then Panic
  else if negb (bool_decide (ic_mmap c mod ic_sysconf c = 0)) then Panic
  else if negb (bool_decide (ic_attr_init c = 0)) then Panic
  else if negb (bool_decide (ic_attr_settype c = 0)) then Panic
  else if negb (bool_decide (ic_mutex_init c = 0)) then Panic
  else if negb (bool_decide (ic_attr_destroy c = 0)) then Panic
  else Ret (mkBarrier (mkPage false PROT_NONE 0) (ic_mmap c) (ic_sysconf c)).

(** What the system calls of one call of [mprotect::barrier] return: those of
    the closure, used only if [BARRIER] is empty, and those of [Barrier::barrier]. *)
Record BarrierCalls := mkBarrierCalls {
  bc_init : InitCalls; bc_lock : Z; bc_rw : Z; bc_none : Z; bc_unlock : Z
}.

(** [mprotect::barrier] on the static [BARRIER]. *)
Definition mprotect_barrier_once (c : BarrierCalls) (BARRIER : option Barrier) : outcome (option Barrier) :=
  out_bind (match BARRIER with Some b => Ret b | None => mprotect_init (bc_init c) end) (fun b =>
  out_bind (mprotect_barrier (bc_lock c) (bc_rw c) (bc_none c) (bc_unlock c) (br_page b)) (fun pg =>
    Ret (Some (mkBarrier pg (page b) (page_size b))))).

Fixpoint mprotect_barriers (cs : list BarrierCalls) (BARRIER : option Barrier) : outcome (option Barrier) :=
  match cs with
  | [] => Ret BARRIER
  | c :: cs => out_bind (mprotect_barrier_once c BARRIER) (mprotect_barriers cs)
  end.

(** [detect]: the strategy is only ever upgraded; if neither mechanism is
    available the stored value is left as it is. *)
Definition linux_detect (sys : Z -> Z) (x86 : bool) (strategy : Z) : Z :=
  if membarrier_is_supported sys then MEMBARRIER
  else if mprotect_is_supported x86 then MPROTECT
  else strategy.

(** ** The interface used by the collector *)

Definition light_store (p : Platform) (strategy : Z) : Ordering :=
  match p with
  | PDefault => default_light_store
  | PLinux => linux_light_store strategy
  | PWindows => windows_light_store
  end.

Definition light_load (p : Platform) : Ordering :=
  match p with
  | PDefault => default_light_load
  | PLinux => linux_light_load
  | PWindows => windows_light_load
  end.

Definition heavy (p : Platform) (strategy : Z) : Heavy :=
  match p with
  | PDefault => default_heavy
  | PLinux => linux_heavy strategy
  | PWindows => windows_heavy
  end.

Definition detect (p : Platform) (sys : Z -> Z) (x86 : bool) (strategy : Z) : Z :=
  match p with
  | PLinux => linux_detect sys x86 strategy
  | _ => strategy
  end.

(** The values [STRATEGY] can hold. *)
Definition strategy_ok (s : Z) : Prop := s = MEMBARRIER \/ s = MPROTECT \/ s = FALLBACK.

(** The strategy uses process-wide barriers, hence relaxed light stores. *)
Definition fast (p : Platform) (s : Z) : Prop := light_store p s = Relaxed.

#[export] Instance fast_dec p s : Decision (fast p s).
Proof. unfold fast. apply _. Defined.

Lemma detect_ok p sys x86 s : strategy_ok s -> strategy_ok (detect p sys x86 s).
Proof.
  unfold strategy_ok, detect, linux_detect. intros.
  destruct p; repeat case_match; auto.
Qed.

Lemma fast_heavy p s : strategy_ok s -> fast p s <-> process_wide (heavy p s) = true.
Proof.
  unfold strategy_ok, fast, light_store, heavy, linux_light_store, linux_heavy.
  intros [->|[->| ->]]; destruct p; done.
Qed.

Lemma detect_fast p sys x86 s : fast p s -> fast p (detect p sys x86 s).
Proof.
  unfold fast, detect, light_store, linux_detect, linux_light_store.
  destruct p; try done. repeat case_match; done.
Qed.

Lemma light_store_cases p s : light_store p s = SeqCst \/ light_store p s = Relaxed.
Proof. destruct p; simpl; unfold linux_light_store; repeat case_match; auto. Qed.

Lemma guarded_ret {T} (P : Prop) `{Decision P} (k : outcome T) (x : T) :
  (if negb (bool_decide P) then Panic else k) = Ret x <-> P /\ k = Ret x.
Proof. case_bool_decide; simpl; [by split; [|intros []]|by split; [|intros []]]. Qed.

Lemma mprotect_barrier_ret lock rw none unlock pg pg' :
  mprotect_barrier lock rw none unlock pg = Ret pg' <->
  (lock = 0 /\ rw = 0 /\ none = 0 /\ unlock = 0) /\ pg' = mkPage false PROT_NONE (wadd (counter pg) 1).
Proof. unfold mprotect_barrier. rewrite !guarded_ret. naive_solver. Qed.

Lemma detect_idemp p sys x86 s : detect p sys x86 (detect p sys x86 s) = detect p sys x86 s.
Proof. destruct p; [done| |done]. simpl. unfold linux_detect. by repeat case_match. Qed.

(** The two sides of the barrier agree: for every value [STRATEGY] can
    hold, the store that marks a thread active is relaxed exactly when the
    barrier of the retiring thread is process-wide. Detection keeps this, can
    be run any number of times with any results of the system calls, and never
    goes back from a process-wide barrier to plain fences; running it again
    with the same results changes nothing, so the strategy is constant from the
    first constructor on. *)
Theorem strategies_agree p (runs : list ((Z -> Z) * bool)) :
  let s := foldl (fun s '(sys, x86) => detect p sys x86 s) STRATEGY_init runs in
  (light_store p s = Relaxed <-> process_wide (heavy p s) = true) /\
  (light_store p s = SeqCst <-> heavy p s = HFence) /\
  (forall sys x86, process_wide (heavy p s) = true ->
     process_wide (heavy p (detect p sys x86 s)) = true) /\
  (forall sys x86, detect p sys x86 (detect p sys x86 s) = detect p sys x86 s).
Proof.
  intros s. assert (strategy_ok s) as Hs.
  { subst s. unfold STRATEGY_init. assert (strategy_ok FALLBACK) as H by (unfold strategy_ok; auto).
    revert H. generalize FALLBACK. induction runs as [|[sys x86] runs IH]; intros z Hz; simpl; auto using detect_ok. }
  split_and!.
  - by apply fast_heavy.
  - destruct p, Hs as [->|[->| ->]]; done.
  - intros sys x86. rewrite <-!fast_heavy by auto using detect_ok. apply detect_fast.
  - intros sys x86. apply detect_idemp.
Qed.

(** [detect] chooses [membarrier] exactly when the query reports both
    private-expedited commands and the registration succeeds, and the barrier
    based on [mprotect] leaves the page inaccessible and the lock free, unless
    a system call fails, which aborts. *)
Theorem linux_barriers sys x86 s pg lock rw none unlock :
  (membarrier_is_supported sys = true <->
     0 <= sys 0 /\ Z.testbit (sys 0) 3 = true /\ Z.testbit (sys 0) 4 = true /\ 0 <= sys 16) /\
  (linux_heavy (linux_detect sys x86 s) = HMembarrier <->
     membarrier_is_supported sys = true \/ (x86 = false /\ s = MEMBARRIER)) /\
  (forall pg', mprotect_barrier lock rw none unlock pg = Ret pg' <->
     lock = 0 /\ rw = 0 /\ none = 0 /\ unlock = 0 /\
     pg' = mkPage false PROT_NONE (wadd (counter pg) 1)).
Proof.
  assert (forall z n, 0 <= n -> Z.land z (Z.shiftl 1 n) = 0 <-> Z.testbit z n = false) as Hbit.
  { intros z n Hn. rewrite Z.shiftl_1_l. split.
    - intros Hz. rewrite <-(Z.bits_0 n), <-Hz, Z.land_spec, Z.pow2_bits_true by lia.
      by rewrite andb_true_r.
    - intros Hz. apply Z.bits_inj'. intros m Hm. rewrite Z.land_spec, Z.bits_0, Z.pow2_bits_eqb by lia.
      destruct (Z.eqb_spec n m) as [->|]; [by rewrite Hz|by rewrite andb_false_r]. }
  split_and!.
  - unfold membarrier_is_supported, MEMBARRIER_CMD_PRIVATE_EXPEDITED,
      MEMBARRIER_CMD_REGISTER_PRIVATE_EXPEDITED, MEMBARRIER_CMD_QUERY.
    change (Z.shiftl 1 4) with 16 at 2.
    pose proof (Hbit (sys 0) 3 ltac:(lia)) as H3. pose proof (Hbit (sys 0) 4 ltac:(lia)) as H4.
    case_decide as Hq.
    + split; [done|]. intros (? & E3 & E4 & ?). exfalso.
      destruct Hq as [?|[Hz%H3|Hz%H4]]; [lia|congruence|congruence].
    + apply Decidable.not_or in Hq as [Hq0 [N3 N4]%Decidable.not_or].
      rewrite H3 in N3. rewrite H4 in N4. apply not_false_is_true in N3, N4.
      change (Z.shiftl 1 4) with 16. case_decide; split.
      * done.
      * intros (_ & _ & _ & ?). lia.
      * intros _. split_and!; [lia|done..|lia].
      * done.
  - unfold linux_detect, linux_heavy, mprotect_is_supported.
    clear Hbit. generalize (membarrier_is_supported sys) as m.
    intros [] ; destruct x86; simpl; try (split; [by auto|done]); try (by split; [|intros [|[]]]).
    destruct (decide (s = MEMBARRIER)); split; [by auto|done| |by intros [|[]]].
    by destruct (decide (s = MPROTECT)).
  - intros pg'. rewrite mprotect_barrier_ret. naive_solver.
Qed.

(** ** The barrier based on [mprotect] *)

(** The calls of the closure and of [Barrier::barrier] that do not abort. *)
Definition init_calls_ok (c : InitCalls) : Prop :=
  0 < ic_sysconf c /\ ic_mmap c <> MAP_FAILED /\ (ic_sysconf c | ic_mmap c) /\
  ic_attr_init c = 0 /\ ic_attr_settype c = 0 /\ ic_mutex_init c = 0 /\ ic_attr_destroy c = 0.

Definition barrier_calls_ok (c : BarrierCalls) : Prop :=
  bc_lock c = 0 /\ bc_rw c = 0 /\ bc_none c = 0 /\ bc_unlock c = 0.

Lemma mprotect_init_ret c b :
  mprotect_init c = Ret b <->
  init_calls_ok c /\ b = mkBarrier (mkPage false PROT_NONE 0) (ic_mmap c) (ic_sysconf c).
Proof.
  unfold mprotect_init, init_calls_ok. rewrite !guarded_ret. split.
  - intros (? & ? & ? & ? & ? & ? & ? & [= <-]). split; [|done].
    split; [lia|]. split; [done|]. split; [apply Z.mod_divide; [lia|done]|done].
  - intros [(? & ? & ? & ? & ? & ? & ?) ->]. split; [lia|]. split; [done|].
    split; [apply Z.mod_divide; [lia|done]|done].
Qed.

Lemma mprotect_barriers_some cs b r :
  mprotect_barriers cs (Some b) = Ret r <->
  Forall barrier_calls_ok cs /\
  r = Some (match cs with
            | [] => b
            | _ => mkBarrier (mkPage false PROT_NONE (wadd (counter (br_page b)) (Z.of_nat (length cs)))) (page b) (page_size b)
            end).
Proof.
  revert b r. induction cs as [|c cs IH]; intros b r; simpl.
  - split; [by intros [= <-]|by intros [_ ->]].
  - unfold mprotect_barrier_once. simpl.
    destruct (mprotect_barrier _ _ _ _ (br_page b)) as [pg|] eqn:E; simpl.
    + apply mprotect_barrier_ret in E as [Hc ->]. rewrite IH, Forall_cons. split.
      * intros [Hcs ->]. split; [done|]. do 2 f_equal. destruct cs; [done|]. simpl. f_equal. f_equal.
        unfold wadd, wrap. rewrite Zplus_mod_idemp_l. f_equal. lia.
      * intros [[_ Hcs] ->]. split; [done|]. do 2 f_equal. destruct cs; [done|]. simpl. f_equal. f_equal.
        unfold wadd, wrap. rewrite Zplus_mod_idemp_l. f_equal. lia.
    + split; [done|]. intros [[Hc _]%Forall_cons _].
      pose proof (proj2 (mprotect_barrier_ret _ _ _ _ (br_page b) _) (conj Hc eq_refl)). congruence.
Qed.

(** C36. The barrier based on [mprotect] over the life of a process. A sequence
    of barriers, starting before the first one, comes to its end exactly when
    the page could be set up by the first and no system call of the barriers
    failed; in every other case the process is aborted. Then the page is the
    one that the first barrier mapped, aligned to its size, it was made dirty
    once for each barrier, and it is left without access and with its lock
    free; the later calls of the set-up are not made, whatever they would
    return. *)
Theorem mprotect_barriers_once c cs r :
  mprotect_barriers (c :: cs) None = Ret r <->
  init_calls_ok (bc_init c) /\ Forall barrier_calls_ok (c :: cs) /\
  r = Some (mkBarrier (mkPage false PROT_NONE (wrap (1 + Z.of_nat (length cs)))) (ic_mmap (bc_init c)) (ic_sysconf (bc_init c))).
Proof.
  change (mprotect_barriers (c :: cs) None) with (out_bind (mprotect_barrier_once c None) (mprotect_barriers cs)).
  unfold mprotect_barrier_once. destruct (mprotect_init (bc_init c)) as [b|] eqn:E; simpl.
  - pose proof E as [Hi Eb]%mprotect_init_ret.
    transitivity (mprotect_barriers (c :: cs) (Some b) = Ret r); [done|]. rewrite mprotect_barriers_some, Eb.
    simpl. unfold wadd. rewrite Z.add_0_l, Nat2Z.inj_succ, <-Z.add_1_l. naive_solver.
  - split; [done|]. intros (Hi & _).
    pose proof (proj2 (mprotect_init_ret _ _) (conj Hi eq_refl)). congruence.
Qed.
