(* ===== verification/Utils.v ===== *)
(** * Cache padding ([src/src/raw/utils.rs])

    The layout of [CachePadded<T>]: its alignment for the target, and its size,
    which the language rounds up to a multiple of the alignment. *)

From stdpp Require Import prelude.
From S2P Require Import Prelude Alloc.

Open Scope Z_scope.

(** The targets that the [cfg_attr] attributes tell apart. *)
Inductive Arch := X86_64 | Aarch64 | Powerpc64 | Arm | Mips | Mips64 | Riscv64 | S390x | OtherArch.

(** [repr(align(N))] *)
Definition repr_align (arch : Arch) : Z :=
  match arch with
  | X86_64 | Aarch64 | Powerpc64 => 128
  | Arm | Mips | Mips64 | Riscv64 => 32
  | S390x => 256
  | OtherArch => 64
  end.

(** The layout of a struct with one field of layout [l] and [repr(align(n))]
    (language reference): sizes are multiples of the alignment. *)
Definition round_up (n a : Z) : Z := (n + a - 1) / a * a.

Definition CachePadded (arch : Arch) (l : Layout) : Layout :=
  let a := l_align l `max` repr_align arch in
  mkLayout (round_up (l_size l) a) a.

(** [Deref] and [DerefMut]: the value is the only field, at offset 0. *)
Definition value_offset : Z := 0.

(** Layouts of types: the alignment is a power of two. *)
Definition layout_ok (l : Layout) : Prop := 0 <= l_size l /\ exists k, 0 <= k /\ l_align l = 2 ^ k.

Lemma round_up_spec n a : 0 < a -> n <= round_up n a < n + a /\ (a | round_up n a).
Proof.
  intros Ha. unfold round_up. split; [|by exists ((n + a - 1) / a)].
  pose proof (Z.div_mod (n + a - 1) a). pose proof (Z.mod_pos_bound (n + a - 1) a). nia.
Qed.

Lemma repr_align_pow arch : exists j, 5 <= j <= 8 /\ repr_align arch = 2 ^ j.
Proof. destruct arch; [exists 7|exists 7|exists 7|exists 5|exists 5|exists 5|exists 5|exists 8|exists 6]; (split; [lia|reflexivity]). Qed.

Lemma padded_align_pow arch l : layout_ok l -> exists m, 0 < m /\ l_align (CachePadded arch l) = m * repr_align arch.
Proof.
  intros (_ & k & Hk & Ek). destruct (repr_align_pow arch) as (j & Hj & Ej). simpl. rewrite Ek, Ej.
  destruct (decide (j <= k)).
  - exists (2 ^ (k - j)). split; [by apply Z.pow_pos_nonneg; lia|]. rewrite <-Z.pow_add_r by lia.
    replace (k - j + j) with k by lia. pose proof (Z.pow_le_mono_r 2 j k ltac:(lia) ltac:(lia)). lia.
  - exists 1. pose proof (Z.pow_le_mono_r 2 k j ltac:(lia) ltac:(lia)). lia.
Qed.

(** Padded values do not share cache lines. A padded value is at least as
    large and as aligned as its content, and as a line of the target; and if two
    of them are at different addresses that are aligned, and do not overlap, no
    line of the target has a byte of both. Neighbouring entries of a bucket are
    such values. *)
Theorem padded_values_apart arch l p q x y :
  layout_ok l -> (l_align (CachePadded arch l) | p) -> (l_align (CachePadded arch l) | q) ->
  p + l_size (CachePadded arch l) <= q -> p <= x < p + l_size (CachePadded arch l) -> q <= y < q + l_size (CachePadded arch l) ->
  x / repr_align arch <> y / repr_align arch /\
  l_size l <= l_size (CachePadded arch l) /\ l_align l <= l_align (CachePadded arch l) /\
  repr_align arch <= l_align (CachePadded arch l) /\ (l_align (CachePadded arch l) | l_size (CachePadded arch l)) /\
  p <= p + value_offset /\ p + value_offset + l_size l <= p + l_size (CachePadded arch l).
Proof.
  intros Hl Hp Hq Hpq Hx Hy. destruct (padded_align_pow arch l Hl) as (m & Hm & Ea).
  destruct (repr_align_pow arch) as (j & Hj & Ej).
  assert (0 < repr_align arch) as Hpos by (rewrite Ej; apply Z.pow_pos_nonneg; lia).
  set (a := l_align (CachePadded arch l)) in *.
  assert (0 < a) as Ha by nia.
  destruct (round_up_spec (l_size l) a Ha) as [[Hr1 Hr2] Hr3].
  change (l_size (CachePadded arch l)) with (round_up (l_size l) a) in *. unfold value_offset.
  split; [|split; [lia|split; [unfold a; simpl; lia|split; [unfold a; simpl; lia|split; [done|lia]]]]].
  destruct Hq as [n ->].
  assert (x < n * m * repr_align arch) as Hlt by nia. assert (n * m * repr_align arch <= y) as Hge by nia.
  assert (x / repr_align arch < n * m) by (apply Z.div_lt_upper_bound; lia).
  assert (n * m <= y / repr_align arch) by (apply Z.div_le_lower_bound; lia). lia.
Qed.

Lemma padded_values_apart_witness : 255 / 128 <> 256 / 128.
Proof.
  apply (padded_values_apart X86_64 (mkLayout 200 8) 0 256 255 256); try (vm_compute; split; [discriminate|reflexivity]).
  - split; [vm_compute; discriminate|]. exists 3. split; [lia|reflexivity].
  - exists 0. reflexivity.
  - exists 2. reflexivity.
  - vm_compute. discriminate.
Defined.
