(* ===== verification/Tls.v ===== *)
(** * Per-object thread-local storage ([src/src/raw/tls/mod.rs])

    [ThreadLocal<T>] is an array of lazily allocated buckets of doubling sizes;
    an entry carries a [present] flag and a possibly uninitialised value. The
    atomic accesses of [load_or], [initialize], [write] and of the iterator are
    separate operations here, so that the concurrent model can interleave them;
    the sequential functions compose them as the code does. *)

From stdpp Require Import prelude list gmap sorting.
From S2P Require Import Prelude Alloc ThreadId.

Open Scope Z_scope.

(** ** Data *)

Record Entry (T : Type) := mkEntry { present : bool; value : option T }.
Arguments mkEntry {T} _ _.
Arguments present {T} _.
Arguments value {T} _.

(** An allocated bucket: its address and its entries. *)
Record Bucket (T : Type) := mkBucket { b_addr : Z; b_entries : list (Entry T) }.
Arguments mkBucket {T} _ _.
Arguments b_addr {T} _.
Arguments b_entries {T} _.

(** [buckets: [AtomicPtr<Entry<T>>; BUCKETS]]; a null pointer is [None]. The
    allocator state is kept by the collector. *)
Record ThreadLocal (T : Type) := mkThreadLocal { buckets : list (option (Bucket T)) }.
Arguments mkThreadLocal {T} _.
Arguments buckets {T} _.

(** The address of an entry: bucket index and index in the bucket. *)
Abbreviation slot := (nat * nat)%type.

Definition thread_slot (th : Thread) : slot := (Z.to_nat (bucket th), Z.to_nat (entry th)).

(** Size and alignment of [Entry<T>], chosen by the compiler. *)
Class EntryLayout (T : Type) := { entry_size : Z; entry_align : Z }.

Definition uninit {T} : Entry T := mkEntry false None.

(** ** Buckets *)

Section Tls.
Context {T A : Type} `{EntryLayout T} `{Allocator A}.

Definition bucket_layout (capacity : Z) : result Layout :=
  match layout_array entry_size entry_align capacity with
  | Some l => Ok l
  | None => Err AllocError
  end.

(** A bucket just after its allocation at address [p]. *)
Definition bucket_at (p capacity : Z) : Bucket T :=
  mkBucket p (replicate (Z.to_nat capacity) uninit).

Definition allocate_bucket (a : A) (capacity : Z) : A * result (Bucket T) :=
  match bucket_layout capacity with
  | Err e => (a, Err e)
  | Ok layout =>
      match allocate a layout with
      | (a, Err e) => (a, Err e)
      | (a, Ok p) => (a, Ok (bucket_at p capacity))
      end
  end.

(** [Entry::drop]: the value is dropped if it was initialised. *)
Definition entry_drop (e : Entry T) : list T :=
  if present e then match value e with Some v => [v] | None => [] end else [].

(** [free_bucket]: the values dropped, and the allocator without the block. *)
Definition free_bucket (a : A) (bk : Bucket T) (capacity : Z) : outcome (A * list T) :=
  let dropped := b_entries bk ≫= entry_drop in
  match bucket_layout capacity with
  | Ok layout => Ret (deallocate a (b_addr bk) layout, dropped)
  | Err _ => Panic
  end.

(** ** Construction and destruction *)

(** Free the buckets allocated so far, [j] being the index of the first. *)
Fixpoint free_buckets (j : nat) (bs : list (Bucket T)) (a : A) : outcome A :=
  match bs with
  | [] => Ret a
  | b :: bs => out_bind (free_bucket a b (bucket_capacity (Z.of_nat j))) (fun r => free_buckets (S j) bs (fst r))
  end.

(** The loop [for i in 0..=init] with [n] iterations left. *)
Fixpoint init_buckets (n : nat) (done : list (Bucket T)) (a : A)
    : outcome (A * result (list (Bucket T))) :=
  match n with
  | O => Ret (a, Ok done)
  | S n =>
      match allocate_bucket a (bucket_capacity (Z.of_nat (length done))) with
      | (a, Ok b) => init_buckets n (done ++ [b]) a
      | (a, Err e) => out_bind (free_buckets 0 done a) (fun a => Ret (a, Err e))
      end
  end.

Definition with_capacity_in (capacity : Z) (a : A) : outcome (A * result (ThreadLocal T)) :=
  out_bind (if decide (capacity = 0) then Ret 0
            else out_bind (Thread_new capacity) (fun th => Ret (bucket th)))
    (fun init =>
       out_bind (init_buckets (Z.to_nat (init + 1)) [] a) (fun r =>
         match r with
         | (a, Ok bs) =>
             Ret (a, Ok (mkThreadLocal
               ((Some <$> bs) ++ replicate (Z.to_nat BUCKETS - length bs) None)))
         | (a, Err e) => Ret (a, Err e)
         end)).

(** [ThreadLocal::drop]: the loop over the buckets, from index [i]. *)
Fixpoint drop_buckets (i : nat) (bs : list (option (Bucket T))) (a : A) : outcome (A * list T) :=
  match bs with
  | [] => Ret (a, [])
  | None :: bs => drop_buckets (S i) bs a
  | Some b :: bs =>
      out_bind (free_bucket a b (bucket_capacity (Z.of_nat i))) (fun '(a, vs) =>
        out_bind (drop_buckets (S i) bs a) (fun '(a, vs') => Ret (a, vs ++ vs')))
  end.

Definition tls_drop (tl : ThreadLocal T) (a : A) : outcome (A * list T) :=
  drop_buckets 0 (buckets tl) a.

(** ** Atomic accesses *)

(** [bucket.load(Acquire)]; [None] is an index out of bounds. *)
Definition bucket_load (tl : ThreadLocal T) (b : nat) : option (option (Bucket T)) :=
  buckets tl !! b.

(** [bucket.compare_exchange(null, new, ..)]: the new table, and the bucket that
    was found in place if the exchange failed. *)
Definition bucket_cas (tl : ThreadLocal T) (b : nat) (new : Bucket T)
    : option (ThreadLocal T * option (Bucket T)) :=
  match buckets tl !! b with
  | Some None => Some (mkThreadLocal (<[b := Some new]> (buckets tl)), None)
  | Some (Some other) => Some (tl, Some other)
  | None => None
  end.

(** The entry at an address; [None] is a null bucket or an index out of bounds. *)
Definition tl_entry (tl : ThreadLocal T) (s : slot) : option (Entry T) :=
  match buckets tl !! s.1 with
  | Some (Some bk) => b_entries bk !! s.2
  | _ => None
  end.

Definition alter_entry (f : Entry T -> Entry T) (s : slot) (tl : ThreadLocal T) : ThreadLocal T :=
  mkThreadLocal
    (alter (fmap (fun bk => mkBucket (b_addr bk) (alter f s.2 (b_entries bk)))) s.1 (buckets tl)).

(** [write]: the value, then the [present] flag (the fence that follows makes
    it visible to every thread). *)
Definition tl_write (v : T) (s : slot) (tl : ThreadLocal T) : ThreadLocal T :=
  alter_entry (fun _ => mkEntry true (Some v)) s tl.

(** Mutation of an initialised value through a shared reference. *)
Definition tl_modify (f : T -> T) (s : slot) (tl : ThreadLocal T) : ThreadLocal T :=
  alter_entry (fun e => mkEntry (present e) (f <$> value e)) s tl.

(** Mutation of every initialised value, given its slot. *)
Definition tl_imap (g : slot -> T -> T) (tl : ThreadLocal T) : ThreadLocal T :=
  mkThreadLocal
    (imap (fun b => fmap (fun bk =>
       mkBucket (b_addr bk)
         (imap (fun i e => mkEntry (present e) (g (b, i) <$> value e)) (b_entries bk))))
     (buckets tl)).

(** The value of an entry whose [present] flag is set; [get] on a thread. *)
Definition tl_get (tl : ThreadLocal T) (s : slot) : option T :=
  match tl_entry tl s with
  | Some e => if present e then value e else None
  | None => None
  end.

Definition get (tl : ThreadLocal T) (th : Thread) : option T :=
  match bucket_load tl (Z.to_nat (bucket th)) with
  | Some (Some bk) =>
      match b_entries bk !! Z.to_nat (entry th) with
      | Some e => if present e then value e else None
      | None => None
      end
  | _ => None
  end.

(** ** [load_or] *)

(** [initialize]: allocate a bucket and race to install it. *)
Definition initialize (tl : ThreadLocal T) (th : Thread) (a : A)
    : option (outcome (A * ThreadLocal T * result unit)) :=
  let capacity := bucket_capacity (bucket th) in
  match allocate_bucket a capacity with
  | (a, Err e) => Some (Ret (a, tl, Err e))
  | (a, Ok new) =>
      match bucket_cas tl (Z.to_nat (bucket th)) new with
      | Some (tl, None) => Some (Ret (a, tl, Ok tt))
      | Some (tl, Some _) =>
          Some (out_bind (free_bucket a new capacity) (fun r => Ret (fst r, tl, Ok tt)))
      | None => None
      end
  end.

(** The part of [load_or] after the bucket is known to exist: initialise the
    entry if it is not present. *)
Definition load_entry (create : T) (s : slot) (tl : ThreadLocal T) : option (ThreadLocal T) :=
  match tl_entry tl s with
  | Some e => Some (if present e then tl else tl_write create s tl)
  | None => None
  end.

(** [load_or]; the reference returned is the address of the entry. The outer
    [None] is an access out of bounds. *)
Definition load_or (create : T) (th : Thread) (tl : ThreadLocal T) (a : A)
    : option (outcome (A * ThreadLocal T * result slot)) :=
  let s := thread_slot th in
  match bucket_load tl (Z.to_nat (bucket th)) with
  | None => None
  | Some (Some _) => tl ← load_entry create s tl; Some (Ret (a, tl, Ok s))
  | Some None =>
      match initialize tl th a with
      | Some (Ret (a, tl, Ok _)) => tl ← load_entry create s tl; Some (Ret (a, tl, Ok s))
      | Some (Ret (a, tl, Err e)) => Some (Ret (a, tl, Err e))
      | Some Panic => Some Panic
      | None => None
      end
  end.

(** [load_or] by its atomic accesses, to be interleaved with other threads: the
    load of the bucket, the allocation and the exchange of [initialize], and
    the access to the entry, which only its thread writes. *)
Inductive load_pc := LBucket | LAllocate | LCas (p : Z) | LEntry.

Inductive load_res := LMore (pc : load_pc) | LDone (s : slot) | LErr.

Definition load_step (create : T) (th : Thread) (pc : load_pc) (tl : ThreadLocal T) (a : A)
    : option (A * ThreadLocal T * load_res) :=
  let b := Z.to_nat (bucket th) in
  let capacity := bucket_capacity (bucket th) in
  match pc with
  | LBucket =>
      match bucket_load tl b with
      | None => None
      | Some None => Some (a, tl, LMore LAllocate)
      | Some (Some _) => Some (a, tl, LMore LEntry)
      end
  | LAllocate =>
      match allocate_bucket a capacity with
      | (a, Err _) => Some (a, tl, LErr)
      | (a, Ok new) => Some (a, tl, LMore (LCas (b_addr new)))
      end
  | LCas p =>
      match bucket_cas tl b (bucket_at p capacity) with
      | None => None
      | Some (tl, None) => Some (a, tl, LMore LEntry)
      | Some (tl, Some _) =>
          match free_bucket a (bucket_at p capacity) capacity with
          | Ret (a, _) => Some (a, tl, LMore LEntry)
          | Panic => None
          end
      end
  | LEntry =>
      match load_entry create (thread_slot th) tl with
      | Some tl => Some (a, tl, LDone (thread_slot th))
      | None => None
      end
  end.

(** The steps of one [load_or] in a row. *)
Fixpoint load_run (fuel : nat) (create : T) (th : Thread) (pc : load_pc) (tl : ThreadLocal T) (a : A)
    : option (A * ThreadLocal T * result slot) :=
  match fuel with
  | O => None
  | S fuel =>
      match load_step create th pc tl a with
      | Some (a, tl, LMore pc) => load_run fuel create th pc tl a
      | Some (a, tl, LDone s) => Some (a, tl, Ok s)
      | Some (a, tl, LErr) => Some (a, tl, Err AllocError)
      | None => None
      end
  end.

(** ** The iterator *)

Record Iter := mkIter { it_bucket : Z; it_index : Z; it_size : Z }.

Definition iter_init : Iter := mkIter 0 0 (bucket_capacity 0).

(** "Advance to the next bucket". *)
Definition iter_advance (it : Iter) : Iter :=
  mkIter (wadd (it_bucket it) 1) 0 (wshl (it_size it) 1).

(** Where [next] is: at the head of the outer loop, or of the inner one with a
    non-null bucket. *)
Inductive iter_pc := IBucket | IEntry.

Inductive iter_res :=
| IMore (pc : iter_pc) (it : Iter)
| IYield (s : slot) (it : Iter)
| IDone.

Definition iter_slot (it : Iter) : slot := (Z.to_nat (it_bucket it), Z.to_nat (it_index it)).

(** One atomic load of [Iter::next]. *)
Definition iter_step (tl : ThreadLocal T) (pc : iter_pc) (it : Iter) : option iter_res :=
  match pc with
  | IBucket =>
      if decide (it_bucket it < BUCKETS) then
        match bucket_load tl (Z.to_nat (it_bucket it)) with
        | None => None
        | Some None => Some (IMore IBucket (iter_advance it))
        | Some (Some _) => Some (IMore IEntry it)
        end
      else Some IDone
  | IEntry =>
      if decide (it_index it < it_size it) then
        match tl_entry tl (iter_slot it) with
        | None => None
        | Some e =>
            let it' := mkIter (it_bucket it) (wadd (it_index it) 1) (it_size it) in
            Some (if present e then IYield (iter_slot it) it' else IMore IEntry it')
        end
      else Some (IMore IBucket (iter_advance it))
  end.

(** Calling [next] until it returns [None], on a table that does not change;
    [fuel] bounds the number of atomic loads. *)
Fixpoint iter_run (fuel : nat) (tl : ThreadLocal T) (pc : iter_pc) (it : Iter) : option (list slot) :=
  match fuel with
  | O => None
  | S fuel =>
      match iter_step tl pc it with
      | Some (IMore pc it) => iter_run fuel tl pc it
      | Some (IYield s it) => cons s <$> iter_run fuel tl IBucket it
      | Some IDone => Some []
      | None => None
      end
  end.

(** Reference: the present entries, bucket by bucket. *)
Definition bucket_slots (tl : ThreadLocal T) (b : nat) (from : nat) : list slot :=
  match buckets tl !! b with
  | Some (Some bk) =>
      filter (fun s => is_Some (tl_get tl s)) ((fun i => (b, i)) <$> seq from (length (b_entries bk) - from))
  | _ => []
  end.

Definition slots_from (tl : ThreadLocal T) (b : nat) : list slot :=
  seq b (Z.to_nat BUCKETS - b) ≫= fun b => bucket_slots tl b 0.

(** ** Well-formedness *)

Definition bucket_wf (i : nat) (bk : Bucket T) : Prop :=
  length (b_entries bk) = Z.to_nat (bucket_capacity (Z.of_nat i)) /\
  Forall (fun e => present e = true -> is_Some (value e)) (b_entries bk).

Record tl_wf (tl : ThreadLocal T) : Prop := {
  wf_len : length (buckets tl) = Z.to_nat BUCKETS;
  wf_buckets : forall i bk, buckets tl !! i = Some (Some bk) -> bucket_wf i bk
}.

Definition bucket_ready (tl : ThreadLocal T) (b : nat) : Prop :=
  exists bk, buckets tl !! b = Some (Some bk).

Definition iter_ok (it : Iter) : Prop :=
  0 <= it_bucket it <= BUCKETS /\
  (it_bucket it < BUCKETS -> it_size it = bucket_capacity (it_bucket it)) /\
  (it_bucket it = BUCKETS -> it_size it = 0) /\
  0 <= it_index it <= it_size it.

Definition iter_pc_ok (tl : ThreadLocal T) (pc : iter_pc) (it : Iter) : Prop :=
  match pc with
  | IBucket => True
  | IEntry => it_bucket it < BUCKETS /\ bucket_ready tl (Z.to_nat (it_bucket it))
  end.

(** The iterator has not yet gone past an entry. *)
Definition not_passed (it : Iter) (s : slot) : Prop :=
  it_bucket it < Z.of_nat s.1 \/ (it_bucket it = Z.of_nat s.1 /\ it_index it <= Z.of_nat s.2).

End Tls.

#[export] Hint Unfold thread_slot iter_slot : core.

Section TlsFacts.
Context {T A : Type} `{EntryLayout T} `{Allocator A}.
Implicit Types (tl : ThreadLocal T) (s : slot) (bk : Bucket T).

(** ** Lookups *)

Lemma tl_entry_alter f s s' tl :
  tl_entry (alter_entry f s tl) s' =
    if decide (s = s') then f <$> tl_entry tl s' else tl_entry tl s'.
Proof.
  destruct s as [b e], s' as [b' e']. unfold tl_entry, alter_entry; simpl.
  destruct (decide (b = b')) as [<-|Hb].
  - rewrite list_lookup_alter_eq. destruct (buckets tl !! b) as [[bk|]|]; simpl.
    + destruct (decide (e = e')) as [<-|He].
      * by rewrite decide_True, list_lookup_alter_eq.
      * rewrite decide_False by naive_solver. by rewrite list_lookup_alter_ne.
    + by case_decide.
    + by case_decide.
  - rewrite list_lookup_alter_ne by done. by rewrite decide_False by naive_solver.
Qed.

Lemma tl_get_modify f s s' tl :
  tl_get (tl_modify f s tl) s' =
    if decide (s = s') then f <$> tl_get tl s' else tl_get tl s'.
Proof.
  unfold tl_get, tl_modify. rewrite tl_entry_alter. case_decide; [|done].
  destruct (tl_entry tl s') as [e|]; simpl; [|done]. by destruct (present e).
Qed.

Lemma tl_get_modify_eq f s tl v :
  tl_get tl s = Some v -> tl_get (tl_modify f s tl) s = Some (f v).
Proof. intros Hs. by rewrite tl_get_modify, decide_True, Hs. Qed.

Lemma tl_get_modify_ne f s s' tl : s <> s' -> tl_get (tl_modify f s tl) s' = tl_get tl s'.
Proof. intros Hs. by rewrite tl_get_modify, decide_False. Qed.

Lemma tl_get_write v s s' tl :
  is_Some (tl_entry tl s) ->
  tl_get (tl_write v s tl) s' = if decide (s = s') then Some v else tl_get tl s'.
Proof.
  intros [e He]. unfold tl_get, tl_write. rewrite tl_entry_alter.
  case_decide as Heq; [|done]. subst. by rewrite He.
Qed.

Lemma get_tl_get tl th : get tl th = tl_get tl (thread_slot th).
Proof.
  unfold get, tl_get, tl_entry, bucket_load, thread_slot; simpl.
  destruct (buckets tl !! _) as [[bk|]|]; done.
Qed.

Lemma bucket_ready_alter f s tl b : bucket_ready (alter_entry f s tl) b <-> bucket_ready tl b.
Proof.
  unfold bucket_ready, alter_entry; simpl. destruct (decide (s.1 = b)) as [<-|].
  - rewrite list_lookup_alter_eq. destruct (buckets tl !! s.1) as [[bk|]|]; simpl; naive_solver.
  - by rewrite list_lookup_alter_ne.
Qed.

Lemma tl_entry_imap g s tl :
  tl_entry (tl_imap g tl) s = (fun e => mkEntry (present e) (g s <$> value e)) <$> tl_entry tl s.
Proof.
  destruct s as [b i]. unfold tl_entry, tl_imap; simpl. rewrite list_lookup_imap.
  destruct (buckets tl !! b) as [[bk|]|]; simpl; [|done..].
  by rewrite list_lookup_imap.
Qed.

Lemma tl_get_imap g s tl : tl_get (tl_imap g tl) s = g s <$> tl_get tl s.
Proof.
  unfold tl_get. rewrite tl_entry_imap. destruct (tl_entry tl s) as [e|]; [|done].
  simpl. by destruct (present e).
Qed.

Lemma bucket_ready_imap g tl b : bucket_ready (tl_imap g tl) b <-> bucket_ready tl b.
Proof.
  unfold bucket_ready, tl_imap; simpl. rewrite list_lookup_imap.
  destruct (buckets tl !! b) as [[bk|]|]; simpl; naive_solver.
Qed.

Lemma bucket_load_alter_None f s tl b :
  bucket_load (alter_entry f s tl) b = Some None <-> bucket_load tl b = Some None.
Proof.
  unfold bucket_load, alter_entry; simpl. destruct (decide (s.1 = b)) as [<-|].
  - rewrite list_lookup_alter_eq. destruct (buckets tl !! s.1) as [[bk|]|]; simpl; naive_solver.
  - by rewrite list_lookup_alter_ne.
Qed.

(** ** Well-formedness *)

Lemma alter_entry_wf f s tl :
  (forall e, (present e = true -> is_Some (value e)) ->
     present (f e) = true -> is_Some (value (f e))) ->
  tl_wf tl -> tl_wf (alter_entry f s tl).
Proof.
  intros Hf [Hlen Hb]. constructor; simpl; [by rewrite length_alter|].
  intros i bk. destruct (decide (s.1 = i)) as [<-|]; [|rewrite list_lookup_alter_ne by done; eauto].
  rewrite list_lookup_alter_eq, fmap_Some. intros ([bk0|] & Hbk0 & Heq); simplify_eq/=.
  destruct (Hb _ _ Hbk0) as [Hl HF]. split; simpl; [by rewrite length_alter|].
  apply Forall_alter; [done|]. intros e _. apply Hf.
Qed.

Lemma tl_modify_wf f s tl : tl_wf tl -> tl_wf (tl_modify f s tl).
Proof.
  apply alter_entry_wf. intros e He Hp; simpl in *. destruct (He Hp) as [v ->]. by eexists.
Qed.

Lemma tl_write_wf v s tl : tl_wf tl -> tl_wf (tl_write v s tl).
Proof. apply alter_entry_wf. intros e He Hp. by eexists. Qed.

Lemma tl_imap_wf g tl : tl_wf tl -> tl_wf (tl_imap g tl).
Proof.
  intros [Hlen Hb]. constructor; simpl; [by rewrite length_imap|].
  intros i bk. rewrite list_lookup_imap, fmap_Some.
  intros ([bk0|] & Hbk0 & Heq); simplify_eq/=.
  destruct (Hb _ _ Hbk0) as [Hl HF]. split; simpl; [by rewrite length_imap|].
  apply Forall_lookup. intros j e. rewrite list_lookup_imap, fmap_Some.
  intros (e0 & He0 & ->). simpl. intros Hp. eapply Forall_lookup in HF; [|done].
  destruct (HF Hp) as [v ->]. by eexists.
Qed.

(** A fresh bucket holds no value. *)
Definition fresh_bucket (i : nat) bk : Prop :=
  bucket_wf i bk /\ Forall (fun e => e = uninit) (b_entries bk).

Lemma bucket_at_fresh p b : fresh_bucket b (bucket_at p (bucket_capacity (Z.of_nat b))).
Proof.
  repeat split; simpl.
  - by rewrite length_replicate.
  - by apply Forall_replicate.
  - by apply Forall_replicate.
Qed.

Lemma allocate_bucket_fresh (i : nat) (a a' : A) bk :
  allocate_bucket a (bucket_capacity (Z.of_nat i)) = (a', Ok bk) -> fresh_bucket i bk.
Proof.
  unfold allocate_bucket. destruct (bucket_layout _); [|done].
  destruct (allocate a v) as [a1 [p|]]; intros [= <- <-]. apply bucket_at_fresh.
Qed.

Lemma bucket_cas_wf tl b new tl' o :
  tl_wf tl -> fresh_bucket b new -> bucket_cas tl b new = Some (tl', o) -> tl_wf tl'.
Proof.
  intros [Hlen Hb] [Hnew _]. unfold bucket_cas.
  destruct (buckets tl !! b) as [[other|]|] eqn:Eb; intros [= <- <-]; [done|].
  constructor; simpl; [by rewrite length_insert|].
  intros i bk [(<- & [= <-] & _)|[Hne Hi]]%list_lookup_insert_Some; eauto.
Qed.

Lemma fresh_lookup b bk e n : fresh_bucket b bk -> b_entries bk !! n = Some e -> e = uninit.
Proof. intros [_ HF] Hl. by eapply Forall_lookup in HF. Qed.

(** Installing a bucket does not change the values of the table. *)
Lemma bucket_cas_get tl b new tl' o s :
  fresh_bucket b new -> bucket_cas tl b new = Some (tl', o) -> tl_get tl' s = tl_get tl s.
Proof.
  intros Hf. unfold bucket_cas.
  destruct (buckets tl !! b) as [[other|]|] eqn:Eb; intros [= <- <-]; [done|].
  destruct s as [b' e']. unfold tl_get, tl_entry; simpl.
  destruct (decide (b = b')) as [<-|]; [|by rewrite list_lookup_insert_ne].
  rewrite list_lookup_insert_eq by (by eapply lookup_lt_Some). rewrite Eb.
  destruct (b_entries new !! e') eqn:E; [|done].
  by rewrite (fresh_lookup _ _ _ _ Hf E).
Qed.

Lemma bucket_cas_ready tl b new tl' o :
  bucket_cas tl b new = Some (tl', o) ->
  bucket_ready tl' b /\ (forall i, bucket_ready tl i -> bucket_ready tl' i).
Proof.
  unfold bucket_cas, bucket_ready.
  destruct (buckets tl !! b) as [[other|]|] eqn:Eb; intros [= <- <-]; simpl; [eauto|].
  pose proof (lookup_lt_Some _ _ _ Eb). split.
  - exists new. by apply list_lookup_insert_eq.
  - intros i [bk Hi]. destruct (decide (b = i)) as [<-|]; [naive_solver|].
    exists bk. by rewrite list_lookup_insert_ne.
Qed.

Lemma bucket_cas_total tl b new :
  tl_wf tl -> (b < Z.to_nat BUCKETS)%nat -> exists tl' o, bucket_cas tl b new = Some (tl', o).
Proof.
  intros Hwf Hb. unfold bucket_cas. rewrite <-(wf_len _ Hwf) in Hb.
  apply lookup_lt_is_Some in Hb as [[bk|] ->]; eauto.
Qed.

Lemma thread_slot_bounds th :
  thread_wf th ->
  ((thread_slot th).1 < Z.to_nat BUCKETS)%nat /\
  ((thread_slot th).2 < Z.to_nat (bucket_capacity (Z.of_nat (thread_slot th).1)))%nat.
Proof. intros (_ & Hb & He & _). unfold thread_slot; simpl. rewrite Z2Nat.id by lia. lia. Qed.

Lemma thread_slot_inj th1 th2 :
  thread_wf th1 -> thread_wf th2 -> thread_slot th1 = thread_slot th2 -> th1 = th2.
Proof.
  intros H1 H2 [= Hb He]. pose proof H1 as (_ & ? & ? & _). pose proof H2 as (_ & ? & ? & _).
  apply thread_wf_inj; try done; lia.
Qed.

Lemma tl_entry_ready tl th :
  tl_wf tl -> thread_wf th -> bucket_ready tl (thread_slot th).1 ->
  is_Some (tl_entry tl (thread_slot th)).
Proof.
  intros Hwf Hth [bk Hbk]. unfold tl_entry. rewrite Hbk.
  apply lookup_lt_is_Some. destruct (wf_buckets _ Hwf _ _ Hbk) as [-> _].
  by apply thread_slot_bounds.
Qed.

Lemma tl_get_slot tl s v :
  tl_wf tl -> tl_get tl s = Some v ->
  (s.1 < Z.to_nat BUCKETS)%nat /\ bucket_ready tl s.1 /\
  (s.2 < Z.to_nat (bucket_capacity (Z.of_nat s.1)))%nat.
Proof.
  intros Hwf. unfold tl_get, tl_entry, bucket_ready.
  destruct (buckets tl !! s.1) as [[bk|]|] eqn:Eb; try done.
  destruct (b_entries bk !! s.2) eqn:Ee; try done. intros _.
  split_and!; [|eauto|].
  - rewrite <-(wf_len _ Hwf). by eapply lookup_lt_Some.
  - destruct (wf_buckets _ Hwf _ _ Eb) as [<- _]. by eapply lookup_lt_Some.
Qed.

Lemma tl_entry_present tl s e :
  tl_wf tl -> tl_entry tl s = Some e -> present e = true -> is_Some (tl_get tl s).
Proof.
  intros Hwf He Hp. unfold tl_get. rewrite He, Hp. revert He. unfold tl_entry.
  destruct (buckets tl !! s.1) as [[bk|]|] eqn:Eb; try done. intros Ee.
  destruct (wf_buckets _ Hwf _ _ Eb) as [_ HF].
  by eapply Forall_lookup in HF; [|done]; auto.
Qed.

Lemma tl_get_present tl s :
  is_Some (tl_get tl s) -> exists e, tl_entry tl s = Some e /\ present e = true.
Proof.
  unfold tl_get. destruct (tl_entry tl s) as [e|]; [|by intros []].
  destruct (present e) eqn:Hp; [eauto|by intros []].
Qed.

(** ** The iterator *)

Lemma iter_init_ok : iter_ok iter_init.
Proof.
  unfold iter_ok, iter_init; cbn -[bucket_capacity]. change (bucket_capacity 0) with 32.
  rewrite BUCKETS_val. lia.
Qed.

Lemma iter_advance_ok it : iter_ok it -> it_bucket it < BUCKETS -> iter_ok (iter_advance it).
Proof.
  unfold iter_ok, iter_advance; simpl. rewrite BUCKETS_val.
  intros (Hb & Hs & _ & Hi) Hlt. specialize (Hs Hlt).
  rewrite wadd_id by usize. rewrite Hs, bucket_capacity_pow by (rewrite BUCKETS_val; lia).
  unfold wshl. rewrite Z.shiftl_mul_pow2 by lia. rewrite <-Z.pow_add_r by lia.
  destruct (decide (it_bucket it = 58)) as [->|].
  - change (wrap (2 ^ (58 + 5 + 1))) with 0. lia.
  - rewrite bucket_capacity_pow by (rewrite BUCKETS_val; lia).
    replace (it_bucket it + 1 + 5) with (it_bucket it + 5 + 1) by lia.
    assert (2 ^ (it_bucket it + 5 + 1) <= 2 ^ 63) by (apply Z.pow_le_mono_r; lia).
    assert (0 < 2 ^ (it_bucket it + 5 + 1)) by (apply Z.pow_pos_nonneg; lia).
    change (2 ^ 63) with 9223372036854775808 in *. rewrite wrap_id by usize. lia.
Qed.

(** Advancing the index inside a bucket. *)
Lemma iter_next_ok it :
  iter_ok it -> it_bucket it < BUCKETS -> it_index it < it_size it ->
  wadd (it_index it) 1 = it_index it + 1 /\
  iter_ok (mkIter (it_bucket it) (wadd (it_index it) 1) (it_size it)).
Proof.
  intros (Hb & Hs & Hs0 & Hi) Hlt Hlt'. assert (wadd (it_index it) 1 = it_index it + 1) as E.
  { apply wadd_id. rewrite (Hs Hlt), bucket_capacity_pow in Hlt' by lia.
    assert (2 ^ (it_bucket it + 5) <= 2 ^ 63) by (apply Z.pow_le_mono_r; rewrite BUCKETS_val in *; lia).
    change (2 ^ 63) with 9223372036854775808 in *. usize. }
  split; [done|]. unfold iter_ok; simpl. rewrite E. split_and!; try done; lia.
Qed.

(** The entry under the cursor exists. *)
Lemma iter_entry tl it :
  tl_wf tl -> iter_ok it -> iter_pc_ok tl IEntry it -> it_index it < it_size it ->
  is_Some (tl_entry tl (iter_slot it)).
Proof.
  intros Hwf (Hb & Hs & _ & Hi) [Hlt [bk Hbk]] Hlt'. unfold tl_entry, iter_slot; simpl.
  rewrite Hbk. apply lookup_lt_is_Some. destruct (wf_buckets _ Hwf _ _ Hbk) as [-> _].
  rewrite Z2Nat.id by lia. rewrite <-Hs by done. lia.
Qed.

Lemma iter_step_ok tl pc it :
  tl_wf tl -> iter_ok it -> iter_pc_ok tl pc it ->
  exists res, iter_step tl pc it = Some res /\
    match res with
    | IMore pc' it' => iter_ok it' /\ iter_pc_ok tl pc' it'
    | IYield s it' => iter_ok it' /\ s = iter_slot it /\ is_Some (tl_get tl s)
    | IDone => True
    end.
Proof.
  intros Hwf Hok Hpc. destruct pc; simpl.
  - case_decide as Hlt; [|eauto]. pose proof Hok as (Hb & _).
    destruct (bucket_load tl (Z.to_nat (it_bucket it))) as [[bk|]|] eqn:E; unfold bucket_load in E.
    + eexists; split; [done|]. split; [done|]. split; [done|by exists bk].
    + eexists; split; [done|]. split; [by apply iter_advance_ok|done].
    + apply lookup_ge_None in E. rewrite (wf_len _ Hwf) in E. lia.
  - case_decide as Hlt.
    + destruct (iter_entry _ _ Hwf Hok Hpc Hlt) as [e He]. rewrite He.
      destruct (iter_next_ok it Hok (proj1 Hpc) Hlt) as [_ Hok'].
      eexists. split; [done|]. destruct (present e) eqn:Hp.
      * split; [done|]. split; [done|by eapply tl_entry_present].
      * by split.
    + eexists. split; [done|]. split; [by apply iter_advance_ok, Hpc|done].
Qed.

(** The iterator only goes past an entry by yielding it. *)
Lemma iter_step_covers tl pc it res s :
  tl_wf tl -> iter_ok it -> iter_pc_ok tl pc it -> iter_step tl pc it = Some res ->
  is_Some (tl_get tl s) -> not_passed it s ->
  match res with
  | IMore _ it' => not_passed it' s
  | IYield s' it' => s' = s \/ not_passed it' s
  | IDone => False
  end.
Proof.
  intros Hwf Hok Hpc Hstep [v Hv] Hnp. pose proof Hok as (Hb & Hs & _ & Hi).
  destruct (tl_get_slot _ _ _ Hwf Hv) as (Hs1 & [bk Hbk] & Hs2).
  destruct pc; simpl in Hstep.
  - case_decide as Hlt; [|simplify_eq; destruct Hnp; lia].
    destruct (bucket_load _ _) as [[bk'|]|] eqn:E; simplify_eq; [done|].
    unfold not_passed, iter_advance; simpl. rewrite wadd_id by (rewrite BUCKETS_val in *; usize).
    destruct Hnp as [?|[Heq _]]; [lia|]. unfold bucket_load in E.
    rewrite Heq, Nat2Z.id in E. congruence.
  - case_decide as Hlt; simplify_eq.
    + destruct (tl_entry tl (iter_slot it)) as [e|] eqn:He; simplify_eq.
      destruct (iter_next_ok it Hok (proj1 Hpc) Hlt) as [E _]. rewrite E.
      destruct (decide (it_bucket it = Z.of_nat s.1 /\ it_index it = Z.of_nat s.2)) as [[E1 E2]|Hne].
      * assert (iter_slot it = s) as Hs'.
        { unfold iter_slot. rewrite E1, E2, !Nat2Z.id. by destruct s. }
        destruct (tl_get_present tl s) as (e' & He' & Hp'); [eauto|].
        rewrite Hs' in He. assert (e = e') as -> by congruence. rewrite Hp'. by left.
      * assert (not_passed (mkIter (it_bucket it) (it_index it + 1) (it_size it)) s).
        { unfold not_passed in *; simpl. lia. }
        destruct (present e); [by right|done].
    + unfold not_passed, iter_advance; simpl.
      destruct Hpc as [Hlt' _]. rewrite wadd_id by (rewrite BUCKETS_val in *; usize).
      destruct Hnp as [?|[E1 E2]]; [lia|]. rewrite Hs, E1 in Hlt by done. lia.
Qed.

(** Bound on the number of atomic loads left. *)
Definition iter_measure (pc : iter_pc) (it : Iter) : Z :=
  match pc with
  | IBucket => (BUCKETS - it_bucket it) * 2 ^ 66 - 2 * it_index it
  | IEntry => (BUCKETS - it_bucket it) * 2 ^ 66 - 2 * it_index it - 1
  end.

Lemma iter_measure_nonneg pc it : iter_ok it -> (pc = IEntry -> it_bucket it < BUCKETS) ->
  0 <= iter_measure pc it.
Proof.
  intros (Hb & Hs & Hs0 & Hi) Hpc.
  assert (it_bucket it = BUCKETS \/ it_bucket it < BUCKETS) as [E|Hlt] by lia.
  - destruct pc; simpl; [|specialize (Hpc eq_refl); lia]. rewrite E in *. lia.
  - assert (it_index it <= 2 ^ 63).
    { rewrite Hs, bucket_capacity_pow in Hi by lia. rewrite BUCKETS_val in *.
      pose proof (Z.pow_le_mono_r 2 (it_bucket it + 5) 63). lia. }
    change (2 ^ 63) with 9223372036854775808 in *.
    destruct pc; simpl; change (2 ^ 66) with 73786976294838206464; lia.
Qed.

Lemma iter_step_measure tl pc it res :
  tl_wf tl -> iter_ok it -> iter_pc_ok tl pc it -> iter_step tl pc it = Some res ->
  match res with
  | IMore pc' it' => iter_measure pc' it' < iter_measure pc it
  | IYield _ it' => iter_measure IBucket it' < iter_measure pc it
  | IDone => True
  end.
Proof.
  intros Hwf Hok Hpc Hstep. pose proof Hok as (Hb & Hs & _ & Hi).
  assert (it_bucket it < BUCKETS -> it_index it <= 2 ^ 63) as Hi63.
  { intros Hlt. rewrite Hs, bucket_capacity_pow in Hi by lia. rewrite BUCKETS_val in *.
    pose proof (Z.pow_le_mono_r 2 (it_bucket it + 5) 63). lia. }
  assert (it_bucket it < BUCKETS ->
    (BUCKETS - (it_bucket it + 1)) * 2 ^ 66 < (BUCKETS - it_bucket it) * 2 ^ 66 - 2 * it_index it - 1)
    as Hadv.
  { intros Hlt. specialize (Hi63 Hlt). change (2 ^ 63) with 9223372036854775808 in *.
    change (2 ^ 66) with 73786976294838206464. lia. }
  destruct pc; simpl in Hstep.
  - case_decide as Hlt; simplify_eq; [|done].
    destruct (bucket_load _ _) as [[bk'|]|]; simplify_eq; simpl; [lia|].
    rewrite wadd_id by (rewrite BUCKETS_val in *; usize). specialize (Hadv Hlt). lia.
  - destruct Hpc as [Hlt _]. case_decide as Hlt'; simplify_eq.
    + destruct (iter_next_ok it Hok Hlt Hlt') as [E _].
      destruct (tl_entry _ _) as [e|]; simplify_eq.
      destruct (present e); simpl; rewrite E; lia.
    + simpl. rewrite wadd_id by (rewrite BUCKETS_val in *; usize). specialize (Hadv Hlt). lia.
Qed.

(** What is left to yield, by the reference. *)
Definition slots_after tl (it : Iter) : list slot :=
  bucket_slots tl (Z.to_nat (it_bucket it)) (Z.to_nat (it_index it)) ++
  slots_from tl (S (Z.to_nat (it_bucket it))).

Lemma slots_from_step tl b :
  (b < Z.to_nat BUCKETS)%nat -> slots_from tl b = bucket_slots tl b 0 ++ slots_from tl (S b).
Proof.
  intros Hb. unfold slots_from. replace (Z.to_nat BUCKETS - b)%nat with (S (Z.to_nat BUCKETS - S b)) by lia.
  done.
Qed.

Lemma slots_from_end tl b : (Z.to_nat BUCKETS <= b)%nat -> slots_from tl b = [].
Proof. intros Hb. unfold slots_from. by replace (Z.to_nat BUCKETS - b)%nat with O by lia. Qed.

Lemma slots_after_advance tl it :
  tl_wf tl -> iter_ok it -> it_bucket it < BUCKETS ->
  bucket_slots tl (Z.to_nat (it_bucket it)) (Z.to_nat (it_index it)) = [] ->
  slots_after tl (iter_advance it) = slots_after tl it.
Proof.
  intros Hwf (Hb & _) Hlt Hnil. unfold slots_after, iter_advance; simpl. rewrite Hnil. simpl.
  rewrite wadd_id by (rewrite BUCKETS_val in *; usize).
  rewrite Z2Nat.inj_add, Nat.add_1_r by lia.
  destruct (decide (it_bucket it + 1 < BUCKETS)) as [Hlt'|].
  - symmetry. apply slots_from_step. lia.
  - rewrite !slots_from_end by lia. rewrite app_nil_r. unfold bucket_slots.
    destruct (buckets tl !! _) eqn:E; [|done].
    apply lookup_lt_Some in E. rewrite (wf_len _ Hwf) in E. lia.
Qed.

Lemma bucket_slots_entry tl it e :
  tl_wf tl -> iter_ok it -> iter_pc_ok tl IEntry it -> it_index it < it_size it ->
  tl_entry tl (iter_slot it) = Some e ->
  bucket_slots tl (Z.to_nat (it_bucket it)) (Z.to_nat (it_index it)) =
    (if present e then [iter_slot it] else []) ++
    bucket_slots tl (Z.to_nat (it_bucket it)) (S (Z.to_nat (it_index it))).
Proof.
  intros Hwf (Hb & Hs & _ & Hi) [Hlt [bk Hbk]] Hlt' He. unfold bucket_slots. rewrite Hbk.
  destruct (wf_buckets _ Hwf _ _ Hbk) as [Hlen _].
  rewrite Z2Nat.id in Hlen by lia. rewrite <-Hs in Hlen by done.
  replace (length (b_entries bk) - Z.to_nat (it_index it))%nat
    with (S (length (b_entries bk) - S (Z.to_nat (it_index it)))) by lia.
  rewrite <-cons_seq, fmap_cons, filter_cons.
  destruct (present e) eqn:Hp.
  - rewrite decide_True; [done|]. by eapply tl_entry_present.
  - rewrite decide_False; [done|]. unfold tl_get, iter_slot in *. rewrite He, Hp. by intros [].
Qed.

Lemma bucket_slots_end tl it :
  tl_wf tl -> iter_ok it -> iter_pc_ok tl IEntry it -> ~ it_index it < it_size it ->
  bucket_slots tl (Z.to_nat (it_bucket it)) (Z.to_nat (it_index it)) = [].
Proof.
  intros Hwf (Hb & Hs & _ & Hi) [Hlt [bk Hbk]] Hge. unfold bucket_slots. rewrite Hbk.
  destruct (wf_buckets _ Hwf _ _ Hbk) as [Hlen _].
  rewrite Z2Nat.id in Hlen by lia. rewrite <-Hs in Hlen by done.
  by replace (length (b_entries bk) - Z.to_nat (it_index it))%nat with O by lia.
Qed.

(** One step consumes what the reference says is yielded first. *)
Lemma iter_step_slots tl pc it res :
  tl_wf tl -> iter_ok it -> iter_pc_ok tl pc it -> iter_step tl pc it = Some res ->
  match res with
  | IMore _ it' => slots_after tl it = slots_after tl it'
  | IYield s it' => slots_after tl it = s :: slots_after tl it'
  | IDone => slots_after tl it = []
  end.
Proof.
  intros Hwf Hok Hpc Hstep. pose proof Hok as (Hb & Hs & _ & Hi). destruct pc; simpl in Hstep.
  - case_decide as Hlt; simplify_eq.
    + destruct (bucket_load _ _) as [[bk'|]|] eqn:E; simplify_eq; [done|].
      symmetry. apply slots_after_advance; try done.
      unfold bucket_load in E. unfold bucket_slots. by rewrite E.
    + unfold slots_after. rewrite slots_from_end by lia. rewrite app_nil_r.
      unfold bucket_slots. destruct (buckets tl !! _) eqn:E; [|done].
      apply lookup_lt_Some in E. rewrite (wf_len _ Hwf) in E. lia.
  - case_decide as Hlt'; simplify_eq.
    + destruct (tl_entry _ _) as [e|] eqn:He; simplify_eq.
      destruct (iter_next_ok it Hok (proj1 Hpc) Hlt') as [E _].
      pose proof (bucket_slots_entry _ _ _ Hwf Hok Hpc Hlt' He) as Hsl.
      unfold slots_after. rewrite Hsl.
      destruct (present e); simpl; rewrite E, Z2Nat.inj_add, Nat.add_1_r by lia; done.
    + symmetry. apply slots_after_advance; try done; [apply Hpc|]. by apply bucket_slots_end.
Qed.

Lemma iter_run_reference tl pc it :
  tl_wf tl -> iter_ok it -> iter_pc_ok tl pc it ->
  exists fuel, forall n, (fuel <= n)%nat -> iter_run n tl pc it = Some (slots_after tl it).
Proof.
  intros Hwf. remember (Z.to_nat (iter_measure pc it)) as m eqn:Em.
  revert pc it Em. induction m as [m IH] using lt_wf_ind. intros pc it -> Hok Hpc.
  assert (pc = IEntry -> it_bucket it < BUCKETS) as Hlt by (intros ->; apply Hpc).
  pose proof (iter_measure_nonneg _ _ Hok Hlt) as Hnn.
  destruct (iter_step_ok _ _ _ Hwf Hok Hpc) as (res & Hstep & Hres).
  pose proof (iter_step_measure _ _ _ _ Hwf Hok Hpc Hstep) as Hm.
  pose proof (iter_step_slots _ _ _ _ Hwf Hok Hpc Hstep) as Hsl.
  destruct res as [pc' it'|s it'|].
  - destruct Hres as [Hok' Hpc']. edestruct (IH (Z.to_nat (iter_measure pc' it'))) as [fuel Hf]; [|done..|].
    { apply Z2Nat.inj_lt; try done. apply iter_measure_nonneg; [done|]. intros ->. apply Hpc'. }
    exists (S fuel). intros [|n] Hn; [lia|]. simpl. rewrite Hstep, Hsl. apply Hf. lia.
  - destruct Hres as (Hok' & _ & _). edestruct (IH (Z.to_nat (iter_measure IBucket it'))) as [fuel Hf]; [|done..|].
    { apply Z2Nat.inj_lt; try done. by apply iter_measure_nonneg. }
    exists (S fuel). intros [|n] Hn; [lia|]. simpl. rewrite Hstep, Hsl, Hf by lia. done.
  - exists 1%nat. intros [|n] Hn; [lia|]. simpl. by rewrite Hstep, Hsl.
Qed.

End TlsFacts.

(** ** Ownership of the blocks *)

Section TlsOwn.
Context {T A : Type} `{EntryLayout T} `{AllocatorLaws A}.
Implicit Types (tl : ThreadLocal T) (bs : list (option (Bucket T))) (m : gmap Z Layout).

(** The blocks of a list of buckets whose first has index [j]. *)
Fixpoint blocks (j : nat) bs : gmap Z Layout :=
  match bs with
  | [] => ∅
  | None :: bs => blocks (S j) bs
  | Some b :: bs =>
      match bucket_layout (T:=T) (bucket_capacity (Z.of_nat j)) with
      | Ok l => <[b_addr b := l]> (blocks (S j) bs)
      | Err _ => blocks (S j) bs
      end
  end.

(** [m] is [m0] and the blocks of the buckets, each allocated once and with the
    layout of its index. *)
Fixpoint owned (j : nat) bs m0 m : Prop :=
  match bs with
  | [] => m = m0
  | None :: bs => owned (S j) bs m0 m
  | Some b :: bs =>
      exists l, bucket_layout (T:=T) (bucket_capacity (Z.of_nat j)) = Ok l /\
        m !! b_addr b = Some l /\ owned (S j) bs m0 (delete (b_addr b) m)
  end.

Definition bucket_values (ob : option (Bucket T)) : list T :=
  match ob with Some b => b_entries b ≫= entry_drop | None => [] end.

Lemma drop_buckets_owned j bs (a : A) m0 :
  owned j bs m0 (live a) ->
  exists a', drop_buckets j bs a = Ret (a', bs ≫= bucket_values) /\ live a' = m0.
Proof.
  revert j a. induction bs as [|[b|] bs IH]; intros j a Hown; simpl in *.
  - by exists a.
  - destruct Hown as (l & Hl & Hlive & Hown). unfold free_bucket. rewrite Hl. simpl.
    destruct (IH (S j) (deallocate a (b_addr b) l)) as (a' & -> & Ha').
    { unfold deallocate. by rewrite deallocate_ok. }
    simpl. by exists a'.
  - by apply IH.
Qed.

Lemma free_buckets_drop j (bs : list (Bucket T)) (a : A) :
  free_buckets j bs a = out_bind (drop_buckets j (Some <$> bs) a) (fun r => Ret (fst r)).
Proof.
  revert j a. induction bs as [|b bs IH]; intros j a; simpl; [done|].
  destruct (free_bucket a b _) as [[a1 vs]|]; simpl; [|done]. rewrite IH.
  by destruct (drop_buckets _ _ _) as [[a2 vs']|].
Qed.

(** The blocks owned are not among the remaining ones, so a new block can be
    added at the end. *)
Lemma owned_app j bs b l m0 m p :
  owned j bs m0 m -> b_addr b = p -> m !! p = None ->
  bucket_layout (T:=T) (bucket_capacity (Z.of_nat (j + length bs))) = Ok l ->
  owned j (bs ++ [Some b]) m0 (<[p := l]> m).
Proof.
  intros Hown <-. revert j m Hown. induction bs as [|[b'|] bs IH]; intros j m Hown Hp Hl; simpl in *.
  - subst. rewrite Nat.add_0_r in Hl. exists l. split_and!; [done|by simplify_map_eq|].
    by rewrite delete_insert_id.
  - destruct Hown as (l' & Hl' & Hb' & Hown). exists l'.
    assert (b_addr b <> b_addr b') by congruence.
    split_and!; [done|by rewrite lookup_insert_ne|].
    rewrite delete_insert_ne by done. apply IH; [done|by rewrite lookup_delete_ne|].
    by rewrite <-Nat.add_succ_comm in Hl.
  - apply IH; try done. by rewrite <-Nat.add_succ_comm in Hl.
Qed.

Lemma owned_Nones j bs n m0 m : owned j bs m0 m -> owned j (bs ++ replicate n None) m0 m.
Proof.
  revert j m. induction bs as [|[b|] bs IH]; intros j m; simpl.
  - intros ->. revert j. induction n; simpl; auto.
  - intros (l & ? & ? & ?). exists l. auto.
  - apply IH.
Qed.

Lemma allocate_bucket_owned (a a' : A) n r :
  allocate_bucket (T:=T) a n = (a', r) ->
  match r with
  | Ok b => exists l, bucket_layout (T:=T) n = Ok l /\ live a !! b_addr b = None /\
      live a' = <[b_addr b := l]> (live a)
  | Err _ => live a' = live a
  end.
Proof.
  unfold allocate_bucket. destruct (bucket_layout n) as [l|] eqn:Hl; [|by intros [= <- <-]].
  unfold allocate. destruct (al_allocate a l) as [a1 [p|]] eqn:Ha; intros [= <- <-];
    apply allocate_ok in Ha; simpl; naive_solver.
Qed.

Lemma init_buckets_spec n (bs : list (Bucket T)) (a : A) m0 :
  owned 0 (Some <$> bs) m0 (live a) ->
  (forall i b, bs !! i = Some b -> fresh_bucket i b) ->
  exists a' r, init_buckets n bs a = Ret (a', r) /\
    match r with
    | Ok bs' => length bs' = (length bs + n)%nat /\ owned 0 (Some <$> bs') m0 (live a') /\
        (forall i b, bs' !! i = Some b -> fresh_bucket i b)
    | Err _ => live a' = m0
    end.
Proof.
  revert bs a. induction n as [|n IH]; intros bs a Hown Hfr; simpl.
  { eexists _, (Ok bs). split_and!; done || lia. }
  destruct (allocate_bucket a _) as [a1 [b|[]]] eqn:Ha.
  - pose proof (allocate_bucket_fresh _ _ _ _ Ha) as Hb.
    apply allocate_bucket_owned in Ha as (l & Hl & Hnone & Hlive).
    destruct (IH (bs ++ [b]) a1) as (a' & r & Hr & Hspec).
    + rewrite fmap_app, Hlive. by eapply owned_app; rewrite ?length_fmap.
    + intros i b' [Hi|[Hi Heq]]%lookup_app_Some; [by apply Hfr|].
      apply list_lookup_singleton_Some in Heq as [Hi' <-].
      by replace i with (length bs) by lia.
    + exists a', r. split; [done|]. destruct r; [|done].
      rewrite length_app in Hspec. simpl in Hspec.
      destruct Hspec as (? & ? & ?). split_and!; [lia|done..].
  - apply allocate_bucket_owned in Ha. rewrite <-Ha in Hown.
    rewrite free_buckets_drop. destruct (drop_buckets_owned _ _ _ _ Hown) as (a' & -> & Hlive).
    simpl. by exists a', (Err AllocError).
Qed.

End TlsOwn.

(** ** The values of a table *)

Definition all_values {T} (tl : ThreadLocal T) : list T := buckets tl ≫= bucket_values.

Lemma tl_get_values {T} (tl : ThreadLocal T) (s : slot) v : tl_get tl s = Some v -> v ∈ all_values tl.
Proof.
  unfold tl_get, tl_entry, all_values. destruct (buckets tl !! s.1) as [[bk|]|] eqn:Eb; [|done..].
  destruct (b_entries bk !! s.2) as [e|] eqn:Ee; [|done]. intros Hv.
  apply list_elem_of_bind. exists (Some bk). split; [|by eapply list_elem_of_lookup_2].
  simpl. apply list_elem_of_bind. exists e. split; [|by eapply list_elem_of_lookup_2].
  unfold entry_drop. destruct (present e); [|done]. rewrite Hv. by left.
Qed.

(** ** Properties *)

Section TlsProps.
Context {T A : Type} `{EntryLayout T} `{AllocatorLaws A}.
Implicit Types (tl : ThreadLocal T) (s : slot).

Lemma with_capacity_wf (bs : list (Bucket T)) (n : nat) :
  (forall i b, bs !! i = Some b -> fresh_bucket i b) ->
  (length bs <= Z.to_nat BUCKETS)%nat ->
  let tl := mkThreadLocal ((Some <$> bs) ++ replicate (Z.to_nat BUCKETS - length bs) None) in
  tl_wf tl /\ (forall s, tl_get tl s = None) /\
  (forall i, (i < length bs)%nat -> bucket_ready tl i).
Proof.
  intros Hfr Hlen tl.
  assert (forall i bk, buckets tl !! i = Some (Some bk) -> bs !! i = Some bk) as Hlk.
  { intros i bk [Hi|[_ Hi]]%lookup_app_Some.
    - rewrite list_lookup_fmap in Hi. by destruct (bs !! i); simplify_eq/=.
    - apply lookup_replicate in Hi as [? _]. done. }
  split_and!.
  - constructor; simpl; [rewrite length_app, length_fmap, length_replicate; lia|].
    intros i bk Hi. by apply Hfr, Hlk.
  - intros [b e]. unfold tl_get, tl_entry; simpl.
    destruct (_ !! b) as [[bk|]|] eqn:Eb; try done.
    destruct (b_entries bk !! e) eqn:Ee; [|done].
    by rewrite (fresh_lookup _ _ _ _ (Hfr _ _ (Hlk _ _ Eb)) Ee).
  - intros i [bk Hi]%lookup_lt_is_Some. exists bk. unfold tl; simpl.
    apply lookup_app_l_Some. by rewrite list_lookup_fmap, Hi.
Qed.

Lemma bucket_mono th1 th2 :
  thread_wf th1 -> thread_wf th2 -> id th1 <= id th2 -> bucket th1 <= bucket th2.
Proof.
  intros (_ & Hb1 & He1 & E1) (_ & Hb2 & He2 & E2) Hle.
  rewrite !bucket_capacity_pow in * by done.
  destruct (Z.le_gt_cases (bucket th1) (bucket th2)) as [|Hgt]; [done|].
  assert (2 ^ (bucket th2 + 6) <= 2 ^ (bucket th1 + 5)) by (apply Z.pow_le_mono_r; lia).
  replace (bucket th2 + 6) with (Z.succ (bucket th2 + 5)) in * by lia.
  rewrite Z.pow_succ_r in * by lia. lia.
Qed.

Lemma init_buckets_fresh n (bs bs' : list (Bucket T)) (a a' : A) :
  init_buckets n bs a = Ret (a', Ok bs') -> (forall i b, bs !! i = Some b -> fresh_bucket i b) ->
  length bs' = (length bs + n)%nat /\ (forall i b, bs' !! i = Some b -> fresh_bucket i b).
Proof.
  revert bs a. induction n as [|n IH]; intros bs a; simpl.
  { intros [= <- <-] ?. split; [lia|done]. }
  destruct (allocate_bucket a _) as [a1 [b|[]]] eqn:Ha; [|by destruct (free_buckets _ _ _)].
  pose proof (allocate_bucket_fresh _ _ _ _ Ha) as Hb. intros Hrun Hbs.
  apply IH in Hrun as [Hlen Hfr].
  - split; [|done]. rewrite Hlen, length_app. simpl. lia.
  - intros i b' [Hi|[Hi Heq]]%lookup_app_Some; [by apply Hbs|].
    apply list_lookup_singleton_Some in Heq as [Hi' <-]. by replace i with (length bs) by lia.
Qed.

(** What a new table looks like, whatever the allocator does. *)
Lemma with_capacity_in_fresh capacity (a a' : A) tl :
  0 <= capacity -> with_capacity_in (T:=T) capacity a = Ret (a', Ok tl) ->
  tl_wf tl /\ forall s, tl_get tl s = None.
Proof.
  intros Hc. unfold with_capacity_in.
  destruct (if decide (capacity = 0) then _ else _) as [init|] eqn:Hinit; [|done]. simpl.
  assert (0 <= init < BUCKETS) as Hb.
  { case_decide; [simplify_eq; rewrite BUCKETS_val; lia|].
    destruct (Thread_new capacity) as [th|] eqn:Hnew; simplify_eq/=.
    apply Thread_new_wf in Hnew as [(_ & ? & _) _]; lia. }
  destruct (init_buckets _ [] a) as [[a1 [bs|]]|] eqn:E; [|done..]. intros [= <- <-].
  apply init_buckets_fresh in E as [Hlen Hfr]; [|by intros ??]. simpl in Hlen.
  destruct (with_capacity_wf bs 0 Hfr) as (Hwf & Hget & _); [lia|]. done.
Qed.

(** [with_capacity_in] panics exactly above [MAX_INDEX]; otherwise it either
    runs out of memory, and then every block it allocated has been given back
    to the allocator, or returns a well-formed table without values in which
    the bucket of every thread ID up to the capacity is allocated, and which
    owns exactly the blocks it allocated. *)
Theorem with_capacity_in_spec (capacity : Z) (a : A) :
  0 <= capacity ->
  (with_capacity_in (T:=T) capacity a = Panic <-> MAX_INDEX < capacity) /\
  forall a' r, with_capacity_in (T:=T) capacity a = Ret (a', r) ->
    match r with
    | Err _ => live a' = live a
    | Ok tl => tl_wf tl /\ (forall s, tl_get tl s = None) /\
        owned 0 (buckets tl) (live a) (live a') /\
        (forall th, thread_wf th -> id th <= capacity -> bucket_ready tl (thread_slot th).1)
    end.
Proof.
  intros Hc. unfold with_capacity_in.
  set (init := if decide (capacity = 0) then Ret 0 else _).
  assert (init = Panic /\ MAX_INDEX < capacity \/
    exists th, init = Ret (bucket th) /\ thread_wf th /\ id th = capacity) as Hinit.
  { unfold init. case_decide as Hz.
    - right. exists (mkThread 0 0 0). subst. split_and!; try done.
    - destruct (Thread_new capacity) as [th|] eqn:Hnew; simpl.
      + right. exists th. split; [done|]. by apply Thread_new_wf.
      + left. split; [done|]. destruct (decide (capacity <= MAX_INDEX)); [|lia].
        by rewrite Thread_new_val in Hnew by lia. }
  destruct Hinit as [[-> Hgt]|(th & -> & Hwf & <-)]; simpl.
  { split; [by split|]. done. }
  pose proof Hwf as (Hid & Hb & _).
  destruct (init_buckets_spec (T:=T) (Z.to_nat (bucket th + 1)) [] a (live a))
    as (a1 & r & -> & Hr); [done|by intros ??|]. simpl.
  split; [split; [by destruct r|lia]|]. intros a' r' Hret.
  destruct r as [bs|[]]; simplify_eq; [|done]. destruct Hr as (Hlen & Hown & Hfr).
  simpl in Hlen. assert (length bs <= Z.to_nat BUCKETS)%nat as Hle by lia.
  destruct (with_capacity_wf bs 0 Hfr Hle) as (Htl & Hget & Hready).
  split; [done|]. split; [done|]. split; [by apply owned_Nones|].
  intros th' Hwf' Hid'. apply Hready. unfold thread_slot; simpl.
  pose proof (bucket_mono _ _ Hwf' Hwf Hid'). destruct Hwf' as (_ & ? & _). lia.
Qed.

(** Dropping a table gives every block back and drops exactly the values of
    the present entries, in slot order. *)
Theorem tls_drop_spec (tl : ThreadLocal T) (a : A) m0 :
  tl_wf tl -> owned 0 (buckets tl) m0 (live a) ->
  exists a', tls_drop tl a = Ret (a', buckets tl ≫= bucket_values) /\ live a' = m0.
Proof. intros _ Hown. by apply drop_buckets_owned. Qed.

Lemma load_entry_spec (create : T) s tl :
  tl_wf tl -> is_Some (tl_entry tl s) ->
  exists tl', load_entry create s tl = Some tl' /\ tl_wf tl' /\
    tl_get tl' s = Some (default create (tl_get tl s)) /\
    (forall s', s' <> s -> tl_get tl' s' = tl_get tl s') /\
    (is_Some (tl_get tl s) -> tl' = tl).
Proof.
  intros Hwf [e He]. unfold load_entry. rewrite He. destruct (present e) eqn:Hp.
  - exists tl. destruct (tl_entry_present _ _ _ Hwf He Hp) as [v Hv]. rewrite Hv.
    split_and!; done.
  - exists (tl_write create s tl). split; [done|]. split; [by apply tl_write_wf|].
    assert (tl_get tl s = None) as Hn by (unfold tl_get; by rewrite He, Hp).
    rewrite !tl_get_write by eauto. rewrite decide_True, Hn by done.
    split_and!; [done| |by intros []].
    intros s' Hs. rewrite tl_get_write by eauto. by rewrite decide_False.
Qed.

(** C37. [load_or] never reads out of bounds or panics on a thread made by
    [Thread::new]: it returns the slot of the thread, holding the value it had
    or else the created one, and no other value of the table changes; an entry
    that was present needs no allocation and is left alone; and if the bucket
    cannot be allocated the table is unchanged. *)
Theorem load_or_spec (create : T) th tl (a : A) :
  tl_wf tl -> thread_wf th ->
  exists a' tl' r, load_or create th tl a = Some (Ret (a', tl', r)) /\ tl_wf tl' /\
    (is_Some (tl_get tl (thread_slot th)) -> a' = a /\ tl' = tl /\ r = Ok (thread_slot th)) /\
    match r with
    | Ok s => s = thread_slot th /\ tl_get tl' s = Some (default create (tl_get tl s)) /\
        (forall s', s' <> s -> tl_get tl' s' = tl_get tl s')
    | Err _ => tl' = tl /\ tl_get tl (thread_slot th) = None
    end.
Proof.
  intros Hwf Hth. unfold load_or, initialize. set (s := thread_slot th).
  pose proof (thread_slot_bounds th Hth) as [Hb _]. fold s in Hb.
  change (Z.to_nat (bucket th)) with s.1 in *.
  destruct (bucket_load tl s.1) as [[bk|]|] eqn:Ebk; unfold bucket_load in Ebk.
  - destruct (load_entry_spec create s tl Hwf) as (tl' & -> & ? & ? & ? & Hsame).
    { apply tl_entry_ready; try done. by exists bk. }
    simpl. eexists a, tl', (Ok s). split; [done|]. split; [done|].
    split; [intros Hs; by rewrite (Hsame Hs)|done].
  - assert (tl_get tl s = None) as Hnone by (unfold tl_get, tl_entry; by rewrite Ebk).
    assert (bucket th = Z.of_nat s.1) as Ebt.
    { unfold s, thread_slot; simpl. destruct Hth as (_ & ? & _). lia. }
    rewrite Ebt. destruct (allocate_bucket a _) as [a1 [new|[]]] eqn:Ha.
    + pose proof (allocate_bucket_fresh _ _ _ _ Ha) as Hfr.
      destruct (bucket_cas_total tl s.1 new Hwf Hb) as (tl1 & o & Hcas). rewrite Hcas.
      assert (o = None) as -> by (unfold bucket_cas in Hcas; rewrite Ebk in Hcas; congruence).
      pose proof (bucket_cas_wf _ _ _ _ _ Hwf Hfr Hcas) as Hwf1.
      pose proof (bucket_cas_ready _ _ _ _ _ Hcas) as [Hrdy _].
      destruct (load_entry_spec create s tl1 Hwf1) as (tl' & -> & ? & Hg & Hne & _).
      { by apply tl_entry_ready. }
      simpl. eexists a1, tl', (Ok s). split; [done|]. split; [done|].
      rewrite (bucket_cas_get _ _ _ _ _ s Hfr Hcas) in Hg. rewrite Hnone in *.
      split; [by intros []|]. split_and!; [done|done|].
      intros s' Hs'. rewrite Hne by done. by eapply bucket_cas_get.
    + eexists a1, tl, (Err AllocError). split; [done|]. split; [done|].
      split; [rewrite Hnone; by intros []|done].
  - apply lookup_ge_None in Ebk. rewrite (wf_len _ Hwf) in Ebk. lia.
Qed.

Lemma load_run_S fuel (create : T) th pc tl (a : A) :
  load_run (S fuel) create th pc tl a =
    match load_step create th pc tl a with
    | Some (a, tl, LMore pc) => load_run fuel create th pc tl a
    | Some (a, tl, LDone s) => Some (a, tl, Ok s)
    | Some (a, tl, LErr) => Some (a, tl, Err AllocError)
    | None => None
    end.
Proof. done. Qed.

Lemma load_run_entry fuel (create : T) th tl (a : A) :
  load_run (S fuel) create th LEntry tl a =
    tl ← load_entry create (thread_slot th) tl; Some (a, tl, Ok (thread_slot th)).
Proof.
  rewrite load_run_S. simpl (load_step _ _ LEntry _ _).
  by destruct (load_entry create (thread_slot th) tl).
Qed.

(** The atomic accesses of [load], run in a row, are [load_or]: four of them
    are enough, for any table and allocator. *)
Theorem load_run_is_load_or (create : T) th tl (a : A) k :
  load_run (4 + k) create th LBucket tl a =
    match load_or create th tl a with Some (Ret x) => Some x | _ => None end.
Proof.
  unfold load_or. change (4 + k)%nat with (S (S (S (S k)))).
  rewrite load_run_S. simpl (load_step _ _ LBucket _ _).
  destruct (bucket_load tl (Z.to_nat (bucket th))) as [[bk|]|] eqn:Ebk; [| |done].
  - by rewrite load_run_entry; destruct (load_entry create (thread_slot th) tl).
  - unfold initialize. rewrite load_run_S. simpl (load_step _ _ LAllocate _ _).
    destruct (allocate_bucket a _) as [a1 [new|[]]] eqn:Ea; [|done].
    assert (new = bucket_at (b_addr new) (bucket_capacity (bucket th))) as Hnew.
    { unfold allocate_bucket in Ea. destruct (bucket_layout _); [|done].
      destruct (allocate a _) as [a2 [q|]]; by simplify_eq. }
    rewrite load_run_S. simpl (load_step _ _ (LCas _) _ _). rewrite <-Hnew.
    unfold bucket_load in Ebk. unfold bucket_cas. rewrite Ebk, load_run_entry.
    by destruct (load_entry create (thread_slot th) _).
Qed.

Definition slot_lt (s1 s2 : slot) : Prop :=
  (s1.1 < s2.1)%nat \/ (s1.1 = s2.1 /\ (s1.2 < s2.2)%nat).

Lemma elem_of_bucket_slots tl b s :
  s ∈ bucket_slots tl b 0 <-> s.1 = b /\ is_Some (tl_get tl s).
Proof.
  unfold bucket_slots. destruct (buckets tl !! b) as [[bk|]|] eqn:Eb.
  - rewrite list_elem_of_filter, list_elem_of_fmap. split.
    + intros (Hs & i & -> & _). done.
    + intros (<- & Hs). split; [done|]. exists s.2. split; [by destruct s|].
      apply elem_of_seq. split; [lia|]. destruct Hs as [v Hs]. unfold tl_get, tl_entry in Hs.
      rewrite Eb in Hs. destruct (b_entries bk !! s.2) eqn:Ee; [|done].
      apply lookup_lt_Some in Ee. lia.
  - split; [by intros ?%elem_of_nil|]. intros [<- [v Hs]]. unfold tl_get, tl_entry in Hs. by rewrite Eb in Hs.
  - split; [by intros ?%elem_of_nil|]. intros [<- [v Hs]]. unfold tl_get, tl_entry in Hs. by rewrite Eb in Hs.
Qed.

Lemma bucket_slots_sorted tl b from : StronglySorted slot_lt (bucket_slots tl b from).
Proof.
  unfold bucket_slots. destruct (buckets tl !! b) as [[bk|]|]; [|constructor..].
  generalize (length (b_entries bk) - from)%nat as n. intros n. revert from.
  induction n as [|n IH]; intros from; simpl; [constructor|]. rewrite filter_cons.
  case_decide; [|apply IH]. constructor; [apply IH|].
  apply Forall_forall. intros s. rewrite list_elem_of_filter, list_elem_of_fmap.
  intros (_ & i & -> & Hi%elem_of_seq). right; simpl. lia.
Qed.

Lemma slots_from_spec tl b :
  tl_wf tl -> StronglySorted slot_lt (slots_from tl b) /\
  forall s, s ∈ slots_from tl b <-> (b <= s.1)%nat /\ is_Some (tl_get tl s).
Proof.
  intros Hwf. remember (Z.to_nat BUCKETS - b)%nat as n eqn:En. revert b En.
  induction n as [|n IH]; intros b En.
  - rewrite slots_from_end by lia. split; [constructor|]. intros s.
    split; [by intros ?%elem_of_nil|]. intros [Hle [v Hv]].
    apply (tl_get_slot _ _ _ Hwf) in Hv. lia.
  - rewrite slots_from_step by lia. destruct (IH (S b)) as [Hsort Hel]; [lia|]. split.
    + apply StronglySorted_app_2; [|apply bucket_slots_sorted|done].
      intros s1 s2 Hs1%elem_of_bucket_slots Hs2%Hel. left. lia.
    + intros s. rewrite elem_of_app, elem_of_bucket_slots, Hel. split; [intuition lia|].
      intros [Hle Hs]. destruct (decide (s.1 = b)); [by left|right]. split; [lia|done].
Qed.

(** C38. The iterator is complete and exact: on a table that does not change,
    enough calls of [next] yield, in increasing slot order and without
    repetition, exactly the slots whose entry is present, and then [None]. *)
Theorem iter_yields_present tl :
  tl_wf tl ->
  exists l fuel, (forall n, (fuel <= n)%nat -> iter_run n tl IBucket iter_init = Some l) /\
    StronglySorted slot_lt l /\ forall s, s ∈ l <-> is_Some (tl_get tl s).
Proof.
  intros Hwf. destruct (iter_run_reference tl IBucket iter_init Hwf iter_init_ok) as [fuel Hf]; [done|].
  destruct (slots_from_spec tl 0 Hwf) as [Hsort Hel].
  assert (slots_after tl iter_init = slots_from tl 0) as E.
  { unfold slots_after, iter_init; simpl. symmetry. apply slots_from_step. rewrite BUCKETS_val. lia. }
  exists (slots_from tl 0), fuel. split; [by intros n Hn; rewrite Hf, E|].
  split; [done|]. intros s. rewrite Hel. intuition lia.
Qed.

End TlsProps.

(** ** Witnesses

    A table of natural numbers with one bucket of 32 entries, in the bump
    allocator; the thread of ID 3 has written 7. *)

#[local] Instance nat_layout : EntryLayout nat := {| entry_size := 16; entry_align := 8 |}.

Definition demo_bump : Bump := fst (bump_alloc bump_init {| l_size := 512; l_align := 8 |}).

Definition demo_tls : ThreadLocal nat :=
  tl_write 7%nat (0, 3)%nat
    (mkThreadLocal (Some (bucket_at 1 32) :: replicate 58 None)).

Lemma demo_tls_wf : tl_wf demo_tls.
Proof.
  apply tl_write_wf. constructor; [done|]. intros [|i] bk; simpl.
  - intros [= <-]. split; [done|]. by apply Forall_replicate.
  - intros Hi. do 58 (destruct i as [|i]; [done|simpl in Hi]). done.
Defined.

Lemma demo_tls_owned : owned 0 (buckets demo_tls) ∅ (live demo_bump).
Proof. eexists. split; [reflexivity|]. split; reflexivity. Defined.

Lemma with_capacity_in_spec_witness :
  exists a tl, with_capacity_in (T:=nat) 40 bump_init = Ret (a, Ok tl) /\
    tl_wf tl /\ bucket_ready tl 1.
Proof.
  destruct (with_capacity_in_spec (T:=nat) 40 bump_init) as [_ Hspec]; [lia|].
  destruct (with_capacity_in 40 bump_init) as [[a [tl|e]]|] eqn:E.
  - exists a, tl. destruct (Hspec _ _ eq_refl) as (Hwf & _ & _ & Hready).
    split; [done|]. split; [done|]. apply (Hready (mkThread 40 8 1)); [|done].
    by repeat split.
  - exfalso. revert E. vm_compute. discriminate.
  - exfalso. revert E. vm_compute. discriminate.
Defined.

Lemma tls_drop_spec_witness :
  exists a, tls_drop demo_tls demo_bump = Ret (a, [7%nat]) /\ live a = ∅.
Proof. exact (tls_drop_spec demo_tls demo_bump ∅ demo_tls_wf demo_tls_owned). Defined.

Lemma load_or_spec_witness :
  exists a tl, load_or 9%nat (mkThread 40 8 1) demo_tls demo_bump = Some (Ret (a, tl, Ok (1, 8)%nat)) /\
    tl_get tl (1, 8)%nat = Some 9%nat /\ tl_get tl (0, 3)%nat = Some 7%nat.
Proof.
  destruct (load_or_spec 9%nat (mkThread 40 8 1) demo_tls demo_bump demo_tls_wf)
    as (a & tl & r & E & _ & _ & Hr); [by repeat split|].
  assert (r = Ok (1, 8)%nat) as ->.
  { revert E. vm_compute. by intros [= <- <- <-]. }
  exists a, tl. split; [done|]. destruct Hr as (_ & Hg & Hne).
  split; [by rewrite Hg|]. rewrite Hne by done. reflexivity.
Defined.

Lemma iter_yields_present_witness :
  exists fuel, forall n, (fuel <= n)%nat -> iter_run n demo_tls IBucket iter_init = Some [(0, 3)%nat].
Proof.
  destruct (iter_yields_present demo_tls demo_tls_wf) as (l & fuel & Hf & Hs & Hl).
  exists (fuel + 200)%nat. intros n Hn. rewrite Hf by lia. rewrite <-(Hf (fuel + 200)%nat) by lia.
  rewrite Nat.add_comm. reflexivity.
Defined.
