(* ===== verification/UnitTests.v ===== *)
(** * The unit tests of the crate ([mod tests] of [src/src/raw/tls])

    The tests of the thread IDs and of the thread-local storage, translated
    statement by statement onto the models of ThreadId and Tls, and run. A test
    is a program with a state that may panic; [assert_eq] panics if the sides
    differ. Threads of a test are numbered; a thread that is joined has exited.
    The registry is that of a new process: the IDs that other tests hold do not
    matter for what the tests check. *)

From stdpp Require Import prelude list gmap.
From S2P Require Import Prelude Alloc ThreadId Tls.

Open Scope Z_scope.

(** ** Test programs *)

Definition test (S X : Type) := S -> outcome (X * S).

#[export] Instance test_ret S : MRet (test S) := fun X v s => Ret (v, s).
#[export] Instance test_bind S : MBind (test S) := fun X Y k p s => out_bind (p s) (fun '(v, s) => k v s).

Definition assert_eq {S X} `{EqDecision X} (a b : X) : test S () :=
  fun s => if decide (a = b) then Ret ((), s) else Panic.

(** [for i in l { body }] *)
Fixpoint for_each {S X} (l : list X) (body : X -> test S ()) : test S () :=
  match l with
  | [] => mret ()
  | i :: l => _ ← body i; for_each l body
  end.

(** The integers of [a..b]. *)
Definition range (a b : Z) : list Z := (fun i => a + Z.of_nat i) <$> seq 0 (Z.to_nat (b - a)).

Definition action {S X} (f : S -> outcome (X * S)) : test S X := f.

Definition lift {S X} (o : outcome X) : test S X := fun s => out_bind o (fun v => Ret (v, s)).

Definition run_test {S} (p : test S ()) (s : S) : outcome unit := out_bind (p s) (fun _ => Ret tt).

(** ** Thread IDs *)

Module ThreadIdTests.

Definition alloc : test ThreadIdManager Z := manager_alloc.
Definition free (i : Z) : test ThreadIdManager () := fun m => Ret ((), manager_free true i m).

Definition recycle_ids : test ThreadIdManager () :=
  i ← alloc; _ ← assert_eq i 0;
  i ← alloc; _ ← assert_eq i 1;
  i ← alloc; _ ← assert_eq i 2;
  _ ← free 2;
  _ ← free 0;
  i ← alloc; _ ← assert_eq i 0;
  i ← alloc; _ ← assert_eq i 2;
  i ← alloc; assert_eq i 3.

(** The threads of bucket [b], which starts at ID [first]. *)
Definition check_threads (from to b first : Z) : test () () :=
  for_each (range from to) (fun i =>
    thread ← lift (Thread_new i);
    _ ← assert_eq (id thread) i;
    _ ← assert_eq (bucket thread) b;
    assert_eq (entry thread) (i - first)).

Definition thread : test () () :=
  _ ← assert_eq (bucket_capacity 0) 32;
  _ ← check_threads 0 32 0 0;
  _ ← assert_eq (bucket_capacity 1) 64;
  _ ← check_threads 33 96 1 32;
  _ ← assert_eq (bucket_capacity 2) 128;
  check_threads 96 224 2 96.

Definition max_entries : test () () :=
  let entries := foldl (fun entries i => wadd entries (bucket_capacity i)) 0 (range 0 BUCKETS) in
  _ ← assert_eq entries (wadd MAX_INDEX 1);
  max ← lift (Thread_new MAX_INDEX);
  _ ← assert_eq (id max) MAX_INDEX;
  _ ← assert_eq (bucket max) (wsub BUCKETS 1);
  _ ← assert_eq (bucket_capacity (wsub BUCKETS 1)) (wshl 1 (wsub BITS 1));
  assert_eq (entry max) (wsub (wshl 1 (wsub BITS 1)) 1).

End ThreadIdTests.

(** ** Thread-local storage *)

Module TlsTests.

#[local] Instance Z_layout : EntryLayout Z := {| entry_size := 16; entry_align := 8 |}.

(** The registry, the allocator, the table, and the counter of [create]. *)
Record world := mkWorld { w_reg : Registry; w_alloc : Bump; w_tls : ThreadLocal Z; w_count : Z }.

Abbreviation prog := (test world).

(** [ThreadLocal::with_capacity], in a new process. *)
Definition with_capacity (capacity : Z) : outcome world :=
  out_bind (with_capacity_in (T:=Z) capacity bump_init) (fun r =>
    match r with
    | (a, Ok tl) => Ret (mkWorld registry_init a tl 0)
    | (_, Err _) => Panic
    end).

(** [Thread::current()] on thread [t], and the end of that thread. *)
Definition current (t : nat) : prog Thread := fun w =>
  match Thread_current t (w_reg w) with
  | (Ret th, reg) => Ret (th, mkWorld reg (w_alloc w) (w_tls w) (w_count w))
  | (Panic, _) => Panic
  end.

Definition exit (t : nat) : prog () := fun w =>
  match ThreadGuard_drop true t (w_reg w) with
  | (Ret _, reg) => Ret ((), mkWorld reg (w_alloc w) (w_tls w) (w_count w))
  | (Panic, _) => Panic
  end.

(** [ThreadLocal::try_load] *)
Definition try_load (t : nat) : prog (option Z) :=
  th ← current t; action (fun w => Ret (get (w_tls w) th, w)).

(** [*tls.load_or(create, Thread::current()).unwrap()]; [create] gets the
    counter. Out of bounds is a panic here. *)
Definition load_or_with (create : Z -> Z) (t : nat) : prog Z :=
  th ← current t; action (fun w =>
    let count := match get (w_tls w) th with Some _ => w_count w | None => w_count w + 1 end in
    match load_or (create (w_count w)) th (w_tls w) (w_alloc w) with
    | Some (Ret (a, tl, Ok s)) =>
        match tl_get tl s with
        | Some v => Ret (v, mkWorld (w_reg w) a tl count)
        | None => Panic
        end
    | _ => Panic
    end).

(** [make_create]: the number of values made so far. *)
Definition make_create : Z -> Z := fun count => count.

(** The values that an iterator yields from here on. *)
Definition collect (it : Iter) : prog (list Z) := fun w =>
  match iter_run 400 (w_tls w) IBucket it with
  | Some l => Ret (omap (tl_get (w_tls w)) l, w)
  | None => Panic
  end.

Definition same_thread : prog () :=
  v ← try_load 0; _ ← assert_eq None v;
  v ← load_or_with make_create 0; _ ← assert_eq 0 v;
  v ← try_load 0; _ ← assert_eq (Some 0) v;
  v ← load_or_with make_create 0; _ ← assert_eq 0 v;
  v ← try_load 0; _ ← assert_eq (Some 0) v;
  v ← load_or_with make_create 0; _ ← assert_eq 0 v;
  v ← try_load 0; assert_eq (Some 0) v.

Definition different_thread : prog () :=
  v ← try_load 0; _ ← assert_eq None v;
  v ← load_or_with make_create 0; _ ← assert_eq 0 v;
  v ← try_load 0; _ ← assert_eq (Some 0) v;
  v ← try_load 1; _ ← assert_eq None v;
  v ← load_or_with make_create 1; _ ← assert_eq 1 v;
  v ← try_load 1; _ ← assert_eq (Some 1) v;
  _ ← exit 1;
  v ← try_load 0; _ ← assert_eq (Some 0) v;
  v ← load_or_with make_create 0; assert_eq 0 v.

(** The list is sorted after it was collected; the order here is that of the
    IDs, which is sorted. *)
Definition iter : prog () :=
  _ ← load_or_with (fun _ => 1) 0;
  _ ← load_or_with (fun _ => 2) 1;
  _ ← load_or_with (fun _ => 3) 2;
  _ ← exit 2;
  _ ← exit 1;
  v ← collect iter_init;
  assert_eq [1; 2; 3] v.

Definition iter_snapshot : prog () :=
  _ ← load_or_with (fun _ => 1) 0;
  let iterator := iter_init in
  _ ← load_or_with (fun _ => 2) 0;
  v ← collect iterator;
  assert_eq [1] v.

(** What is dropped with the table. *)
Definition drop_table : prog (list Z) := fun w =>
  out_bind (tls_drop (w_tls w) (w_alloc w)) (fun '(a, vs) => Ret (vs, mkWorld (w_reg w) a (w_tls w) (w_count w))).

Definition test_drop : prog () :=
  _ ← load_or_with (fun _ => 5) 0;
  dropped ← drop_table;
  assert_eq (length dropped) 1%nat.

(** 64 threads that wait for each other, so none has exited when the entries
    are counted. *)
Definition iter_many : prog () :=
  _ ← for_each (seq 1 64) (fun t => _ ← load_or_with (fun _ => 1) t; mret ());
  v ← collect iter_init;
  assert_eq (length v) 64%nat.

Definition run_with (capacity : Z) (p : prog ()) : outcome unit := out_bind (with_capacity capacity) (run_test p).

End TlsTests.

(** ** They pass *)


(** The assertions are checked: a test that expects another ID panics. *)
Example wrong_test_panics :
  run_test (i ← ThreadIdTests.alloc; _ ← assert_eq i 0; i ← ThreadIdTests.alloc; assert_eq i 0) manager_default = Panic.
Proof. vm_compute. reflexivity. Qed.
