(* ===== verification/RawData.v ===== *)
(** * Data of the raw collector ([src/src/raw/collector.rs])

    Reservations, batches, retired entries and the thread-local batch pointer,
    with the operations that only touch memory owned by one thread. The heap
    maps the address of a boxed [Batch] to its contents; a pointer to a retired
    entry is the address of its batch and its index in the batch's vector,
    whose buffer does not move once entries of it are shared. *)

From stdpp Require Import prelude list gmap.
From S2P Require Import Prelude Alloc ThreadId Tls.

Open Scope Z_scope.

(** [*mut Entry]: null, the sentinel [Entry::INACTIVE], or an entry. *)
Inductive eptr :=
| ENull
| INACTIVE
| EPtr (b : Z) (i : nat).

#[export] Instance eptr_eq_dec : EqDecision eptr.
Proof. solve_decision. Defined.

(** [union EntryState]: the location of a reservation list while retiring
    (null at first), the next entry of the list afterwards. *)
Inductive EntryState :=
| SHead (r : option slot)
| SNext (e : eptr).

Record Entry := mkEntry { ptr : Z; reclaim : Z; state : EntryState; e_batch : Z }.

Record Batch := mkBatch { entries : list Entry; capacity : Z; active : Z }.

(** [*mut Batch]: null, the sentinel [LocalBatch::DROP], or a batch. *)
Inductive bptr :=
| BNull
| DROP
| BPtr (b : Z).

#[export] Instance bptr_eq_dec : EqDecision bptr.
Proof. solve_decision. Defined.

Record LocalBatch := mkLocalBatch { batch : bptr }.

(** [Reservation]; [lock] is the state of the mutex. *)
Record Reservation := mkReservation { head : eptr; guards : Z; lock : bool }.

Definition Reservation_default : Reservation :=
  {| head := INACTIVE; guards := 0; lock := false |}.

Definition LocalBatch_default : LocalBatch := {| batch := BNull |}.

Definition set_head (e : eptr) (r : Reservation) : Reservation :=
  {| head := e; guards := guards r; lock := lock r |}.

(** [reservation.guards.set(n)], and the state of the mutex. *)
Definition set_guards (n : Z) (r : Reservation) : Reservation :=
  {| head := head r; guards := n; lock := lock r |}.

Definition set_lock (b : bool) (r : Reservation) : Reservation :=
  {| head := head r; guards := guards r; lock := b |}.

Section RawData.
Context {A : Type} `{Allocator A} `{BoxVec A}.

(** [Batch::new] *)
Definition Batch_new (cap : Z) (a : A) : A * result Batch :=
  match vec_try_reserve_exact a 0 0 cap with
  | (a, Ok c) => (a, Ok {| entries := []; capacity := c; active := 0 |})
  | (a, Err e) => (a, Err e)
  end.

(** [LocalBatch::get_or_init]; a batch that could not be boxed is dropped. *)
Definition get_or_init (lb : LocalBatch) (cap : Z) (h : gmap Z Batch) (a : A)
    : A * gmap Z Batch * LocalBatch * result bptr :=
  match batch lb with
  | BNull =>
      match Batch_new cap a with
      | (a, Err e) => (a, h, lb, Err e)
      | (a, Ok bt) =>
          match box_try_new_in a with
          | (a, Ok p) => (a, <[p := bt]> h, {| batch := BPtr p |}, Ok (BPtr p))
          | (a, Err e) => (vec_drop a (capacity bt), h, lb, Err e)
          end
      end
  | b => (a, h, lb, Ok b)
  end.

(** [LocalBatch::free]: drop the boxed batch, then its vector. *)
Definition LocalBatch_free (b : Z) (h : gmap Z Batch) (a : A) : option (gmap Z Batch * A) :=
  bt ← h !! b; Some (delete b h, box_drop (vec_drop a (capacity bt)) b).

(** [entries.try_reserve(1)] on a batch *)
Definition entries_try_reserve (bt : Batch) (a : A) : A * result Batch :=
  match vec_try_reserve a (Z.of_nat (length (entries bt))) (capacity bt) 1 with
  | (a, Ok c) => (a, Ok {| entries := entries bt; capacity := c; active := active bt |})
  | (a, Err e) => (a, Err e)
  end.

End RawData.

(** [entries.push(Entry { .. })] *)
Definition push_entry (b p f : Z) (bt : Batch) : Batch :=
  {| entries := entries bt ++ [{| ptr := p; reclaim := f; state := SHead None; e_batch := b |}];
     capacity := capacity bt; active := active bt |}.

(** Writing the state of one entry. *)
Definition set_state (i : nat) (s : EntryState) (bt : Batch) : Batch :=
  {| entries := alter (fun e => {| ptr := ptr e; reclaim := reclaim e; state := s; e_batch := e_batch e |})
                  i (entries bt);
     capacity := capacity bt; active := active bt |}.

Definition set_active (n : Z) (bt : Batch) : Batch :=
  {| entries := entries bt; capacity := capacity bt; active := n |}.

(** The entry at a pointer. *)
Definition entry_at (h : gmap Z Batch) (b : Z) (i : nat) : option Entry :=
  bt ← h !! b; entries bt !! i.
