(* ===== verification/RawStep.v ===== *)
(** * The raw collector as a concurrent machine ([src/src/raw/collector.rs])

    A thread is a stack of frames; a frame is a point of a collector function
    with its local variables, placed before an atomic access or a call. A step
    of the machine is one such access of one thread, together with the thread's
    local computation up to the next. Client code is the empty stack or a
    [FReclaim] frame: it may call any operation, so reclaimers can re-enter the
    collector. The relaxed store of [enter] goes to the store buffer of its
    thread, and is drained by a barrier, by the thread's own exchange on the
    same location, or at any time. *)

From stdpp Require Import prelude list gmap.
From S2P Require Import Prelude Alloc ThreadId Membarrier Tls RawData.

Open Scope Z_scope.

(** ** Operations of the raw collector *)

Inductive op :=
| OpReservation (th : Thread)          (* Collector::reservation *)
| OpEnter (s : slot)                   (* Collector::enter *)
| OpLeave (s : slot)                   (* Collector::leave *)
| OpRefresh (s : slot)                 (* Collector::refresh *)
| OpAdd (p f : Z) (th : Thread)        (* Collector::add *)
| OpReserve (th : Thread)              (* Collector::reserve *)
| OpFlush (th : Thread)                (* Collector::try_retire_batch *)
| OpReclaimAll.                        (* Collector::reclaim_all *)

(** Values returned to the caller. *)
Inductive ret :=
| RUnit
| ROk
| RErr
| RReservation (s : slot).

(** ** Frames *)

(** What follows a [ThreadLocal::load]. *)
Inductive load_kont := KReservation | KAdd (p f : Z) | KReserve.

(** The points of [try_retire] while it owns the local batch. *)
Inductive try_pc :=
| TStrategy                                         (* heavy(): STRATEGY.load *)
| TBarrier (h : Heavy)                              (* heavy(): the barrier *)
| TBatch                                            (* let batch = local_batch.batch *)
| TScan (b : Z) (marked : nat) (pc : iter_pc) (it : Iter)  (* reservations.iter() *)
| TMark (b : Z) (marked : nat) (it : Iter) (r : slot)      (* the loop body on a reservation *)
| TReset (b : Z) (marked : nat).                    (* local_batch = default *)

Inductive frame :=
| FLoad (k : load_kont) (th : Thread) (pc : load_pc)
| FAdd (s : slot) (p f : Z)
| FReserve (s : slot)
| FFlush (th : Thread)
| FTry (s : slot) (pc : try_pc)
| FRetire (b : Z) (marked i : nat) (act : Z)        (* 'retire: for i in 0..marked *)
| FCas (b : Z) (marked i : nat) (act : Z) (r : slot) (prev : eptr)  (* the inner loop *)
| FFinish (b : Z) (act : Z)                         (* active.fetch_add *)
| FEnter (s : slot)                                 (* light_store() *)
| FEnterStore (s : slot) (o : Ordering)             (* head.store(null, o) *)
| FLeave (s : slot)                                 (* head.swap(INACTIVE) *)
| FRefresh (s : slot)                               (* head.swap(null) *)
| FTraverse (l : eptr)                              (* while !list.is_null() *)
| FDec (next : eptr) (b : Z)                        (* active.fetch_sub *)
| FFree (b : Z) (i : nat)                           (* free_batch, at entry i *)
| FReclaim (p f : Z)                                (* client code: the reclaimer of p *)
| FAll (pc : iter_pc) (it : Iter)                   (* reclaim_all: batches.iter() *)
| FAllBatch (s : slot) (it : Iter)
| FAllReset (s : slot) (it : Iter)
| FRet (r : ret).                                   (* return to the client *)

(** What an observer sees. *)
Inductive event :=
| EvRet (t : nat) (r : ret)
| EvRetire (t : nat) (p f : Z)
| EvReclaim (t : nat) (p f : Z)
| EvEnter (s : slot)
| EvExit (s : slot).

#[export] Instance ret_eq_dec : EqDecision ret.
Proof. solve_decision. Defined.

#[export] Instance event_eq_dec : EqDecision event.
Proof. solve_decision. Defined.

Inductive label :=
| LCall (t : nat) (o : op)             (* client code of thread t calls o *)
| LRun (t : nat)                       (* thread t runs its top frame *)
| LSpurious (t : nat)                  (* its compare_exchange_weak fails spuriously *)
| LReturn (t : nat)                    (* the reclaimer on top returns *)
| LDrain (s : slot)                    (* a store buffer drains *)
| LDetect (sys : Z -> Z) (x86 : bool)  (* membarrier::detect *)
| LGuards (s : slot) (n : Z)           (* a guard writes reservation.guards *)
| LLock (s : slot)                     (* a guard acquires reservation.lock *)
| LUnlock (s : slot).                  (* and releases it *)

(** ** State *)

Record raw_state (A : Type) := mkState {
  strategy : Z;
  buffers : gmap slot nat;             (* pending stores of null, with their thread *)
  reservations : ThreadLocal Reservation;
  batches : ThreadLocal LocalBatch;
  alloc : A;
  heap : gmap Z Batch;
  threads : gmap nat (list frame)
}.
Arguments mkState {A} _ _ _ _ _ _ _.
Arguments strategy {A} _.
Arguments buffers {A} _.
Arguments reservations {A} _.
Arguments batches {A} _.
Arguments alloc {A} _.
Arguments heap {A} _.
Arguments threads {A} _.

Section Machine.
Context {A : Type} `{Allocator A} `{BoxVec A}.
Context `{EntryLayout Reservation} `{EntryLayout LocalBatch}.
Variables (plat : Platform) (batch_size : Z).

Abbreviation rstate := (raw_state A).

Definition set_strategy x (s : rstate) : rstate :=
  mkState x (buffers s) (reservations s) (batches s) (alloc s) (heap s) (threads s).
Definition set_buffers x (s : rstate) : rstate :=
  mkState (strategy s) x (reservations s) (batches s) (alloc s) (heap s) (threads s).
Definition set_reservations x (s : rstate) : rstate :=
  mkState (strategy s) (buffers s) x (batches s) (alloc s) (heap s) (threads s).
Definition set_batches x (s : rstate) : rstate :=
  mkState (strategy s) (buffers s) (reservations s) x (alloc s) (heap s) (threads s).
Definition set_alloc x (s : rstate) : rstate :=
  mkState (strategy s) (buffers s) (reservations s) (batches s) x (heap s) (threads s).
Definition set_heap x (s : rstate) : rstate :=
  mkState (strategy s) (buffers s) (reservations s) (batches s) (alloc s) x (threads s).
Definition set_threads x (s : rstate) : rstate :=
  mkState (strategy s) (buffers s) (reservations s) (batches s) (alloc s) (heap s) x.

Definition stack (s : rstate) (t : nat) : list frame := default [] (threads s !! t).

Definition goto (t : nat) (fs : list frame) (s : rstate) : rstate :=
  set_threads (<[t := fs]> (threads s)) s.

(** ** Memory *)

Definition head_of (s : rstate) (r : slot) : option eptr := head <$> tl_get (reservations s) r.
Definition local_of (s : rstate) (r : slot) : option bptr := batch <$> tl_get (batches s) r.

Definition store_head (r : slot) (e : eptr) (s : rstate) : rstate :=
  set_reservations (tl_modify (set_head e) r (reservations s)) s.

(** The fields of the reservation that belong to the guards. *)
Definition guards_of (s : rstate) (r : slot) : option Z := guards <$> tl_get (reservations s) r.
Definition lock_of (s : rstate) (r : slot) : option bool := lock <$> tl_get (reservations s) r.

Definition store_field (f : Reservation -> Reservation) (r : slot) (s : rstate) : rstate :=
  set_reservations (tl_modify f r (reservations s)) s.

Definition store_local (r : slot) (b : bptr) (s : rstate) : rstate :=
  set_batches (tl_modify (fun _ => mkLocalBatch b) r (batches s)) s.

Definition store_batch (b : Z) (f : Batch -> Batch) (s : rstate) : rstate :=
  set_heap (alter f b (heap s)) s.

(** The pending stores that satisfy [P] reach memory. *)
Definition drained (P : slot -> nat -> bool) (s : rstate) (r : slot) : bool :=
  match buffers s !! r with Some t => P r t | None => false end.

Definition drain (P : slot -> nat -> bool) (s : rstate) : rstate :=
  set_buffers (filter (fun '(r, t) => P r t = false) (buffers s))
    (set_reservations
       (tl_imap (fun r x => if drained P s r then set_head ENull x else x) (reservations s)) s).

(** The store [head.store(null, o)] of thread [t]. *)
Definition store_null (t : nat) (r : slot) (o : Ordering) (s : rstate) : rstate :=
  match o with
  | SeqCst => store_head r ENull s
  | _ => set_buffers (<[r := t]> (buffers s)) s
  end.

(** [heavy()] on thread [t] *)
Definition barrier (t : nat) (h : Heavy) (s : rstate) : rstate :=
  if process_wide h then drain (fun _ _ => true) s
  else drain (fun _ t' => bool_decide (t' = t)) s.

(** The owner's exchange on a head: its own pending store comes first. *)
Definition drain_slot (r : slot) (s : rstate) : rstate :=
  drain (fun r' _ => bool_decide (r' = r)) s.

(** ** The functions of the collector *)

(** A frame's step: the new stack is [fs] on top of [rest]. *)
Abbreviation outcomes := (option (rstate * list event)).

Definition next (t : nat) (fs rest : list frame) (s : rstate) : outcomes :=
  Some (goto t (fs ++ rest) s, []).

Definition next_ev (t : nat) (fs rest : list frame) (ev : list event) (s : rstate) : outcomes :=
  Some (goto t (fs ++ rest) s, ev).

(** [self.reservations.load(thread)] and [self.batches.load(thread)] *)
Definition step_load (t : nat) (k : load_kont) (th : Thread) (pc : load_pc)
    (rest : list frame) (s : rstate) : outcomes :=
  match k with
  | KReservation =>
      match load_step Reservation_default th pc (reservations s) (alloc s) with
      | None => None
      | Some (a, tl, r) =>
          let s := set_alloc a (set_reservations tl s) in
          match r with
          | LMore pc => next t [FLoad k th pc] rest s
          | LDone r => next t [FRet (RReservation r)] rest s
          | LErr => next t [FRet RErr] rest s
          end
      end
  | KAdd _ _ | KReserve =>
      match load_step LocalBatch_default th pc (batches s) (alloc s) with
      | None => None
      | Some (a, tl, r) =>
          let s := set_alloc a (set_batches tl s) in
          match r with
          | LMore pc => next t [FLoad k th pc] rest s
          | LDone r =>
              match k with
              | KAdd p f => next t [FAdd r p f] rest s
              | _ => next t [FReserve r] rest s
              end
          | LErr => next t [FRet RErr] rest s
          end
      end
  end.

(** [local_batch.get_or_init(self.batch_size, &self.alloc)] *)
Definition local_get_or_init (r : slot) (s : rstate) : option (rstate * result bptr) :=
  lb ← tl_get (batches s) r;
  let '(a, h, lb, res) := get_or_init lb batch_size (heap s) (alloc s) in
  Some (store_local r (batch lb) (set_alloc a (set_heap h s)), res).

(** [add], after the local batch was loaded *)
Definition step_add (t : nat) (r : slot) (p f : Z) (rest : list frame) (s : rstate) : outcomes :=
  '(s, res) ← local_get_or_init r s;
  match res with
  | Err _ => next t [FRet RErr] rest s
  | Ok DROP => next_ev t [FReclaim p f; FRet ROk] rest [EvRetire t p f; EvReclaim t p f] s
  | Ok BNull => None
  | Ok (BPtr b) =>
      bt ← heap s !! b;
      match entries_try_reserve bt (alloc s) with
      | (a, Err _) => next t [FRet RErr] rest (set_alloc a s)
      | (a, Ok bt) =>
          let bt := push_entry b p f bt in
          let s := set_alloc a (set_heap (<[b := bt]> (heap s)) s) in
          next_ev t (if decide (Z.of_nat (length (entries bt)) >= batch_size)
                     then [FTry r TStrategy; FRet ROk] else [FRet ROk])
            rest [EvRetire t p f] s
      end
  end.

(** [reserve], after the local batch was loaded *)
Definition step_reserve (t : nat) (r : slot) (rest : list frame) (s : rstate) : outcomes :=
  '(s, res) ← local_get_or_init r s;
  match res with
  | Err _ => next t [FRet RErr] rest s
  | Ok DROP => next t [FRet ROk] rest s
  | Ok BNull => None
  | Ok (BPtr b) =>
      bt ← heap s !! b;
      match entries_try_reserve bt (alloc s) with
      | (a, Err _) => next t [FRet RErr] rest (set_alloc a s)
      | (a, Ok bt) => next t [FRet ROk] rest (set_alloc a (set_heap (<[b := bt]> (heap s)) s))
      end
  end.

(** [try_retire_batch] *)
Definition step_flush (t : nat) (th : Thread) (rest : list frame) (s : rstate) : outcomes :=
  match get (batches s) th with
  | None => next t [FRet RUnit] rest s
  | Some _ => next t [FTry (thread_slot th) TStrategy; FRet RUnit] rest s
  end.

(** [try_retire], up to the reset of the local batch *)
Definition step_try (t : nat) (r : slot) (pc : try_pc) (rest : list frame) (s : rstate) : outcomes :=
  match pc with
  | TStrategy => next t [FTry r (TBarrier (heavy plat (strategy s)))] rest s
  | TBarrier h => next t [FTry r TBatch] rest (barrier t h s)
  | TBatch =>
      lb ← local_of s r;
      match lb with
      | BNull | DROP => next t [] rest s
      | BPtr b => next t [FTry r (TScan b 0 IBucket iter_init)] rest s
      end
  | TScan b marked ipc it =>
      res ← iter_step (reservations s) ipc it;
      match res with
      | IMore ipc it => next t [FTry r (TScan b marked ipc it)] rest s
      | IYield r' it => next t [FTry r (TMark b marked it r')] rest s
      | IDone => next t [FTry r (TReset b marked)] rest s
      end
  | TMark b marked it r' =>
      hd ← head_of s r';
      if decide (hd = INACTIVE) then next t [FTry r (TScan b marked IBucket it)] rest s
      else
        bt ← heap s !! b;
        match entries bt !! marked with
        | None => next t [] rest s
        | Some _ =>
            next t [FTry r (TScan b (S marked) IBucket it)] rest
              (store_batch b (set_state marked (SHead (Some r'))) s)
        end
  | TReset b marked => next t [FRetire b marked 0 0] rest (store_local r BNull s)
  end.

(** The loop ['retire: for i in 0..marked]: the first load of the head *)
Definition step_retire (t : nat) (b : Z) (marked i : nat) (act : Z) (rest : list frame)
    (s : rstate) : outcomes :=
  if decide (i < marked)%nat then
    e ← entry_at (heap s) b i;
    match state e with
    | SHead (Some r) =>
        prev ← head_of s r;
        next t [FCas b marked i act r prev] rest s
    | _ => None
    end
  else next t [FFinish b act] rest s.

(** The inner loop: skip an inactive thread, otherwise link the entry with
    [compare_exchange_weak] *)
Definition step_cas (spurious : bool) (t : nat) (b : Z) (marked i : nat) (act : Z) (r : slot)
    (prev : eptr) (rest : list frame) (s : rstate) : outcomes :=
  if decide (prev = INACTIVE) then next t [FRetire b marked (S i) act] rest s
  else
    _ ← entry_at (heap s) b i;
    let s := store_batch b (set_state i (SNext prev)) s in
    found ← head_of s r;
    if spurious then next t [FCas b marked i act r found] rest s
    else if decide (found = prev) then
      next t [FRetire b marked (S i) (wadd act 1)] rest (store_head r (EPtr b i) s)
    else next t [FCas b marked i act r found] rest s.

(** [active.fetch_add(active).wrapping_add(active) == 0] *)
Definition step_finish (t : nat) (b : Z) (act : Z) (rest : list frame) (s : rstate) : outcomes :=
  bt ← heap s !! b;
  let old := active bt in
  let s := store_batch b (set_active (wadd old act)) s in
  next t (if decide (wadd old act = 0) then [FFree b 0] else []) rest s.

(** [enter] *)
Definition step_enter (t : nat) (r : slot) (rest : list frame) (s : rstate) : outcomes :=
  next t [FEnterStore r (light_store plat (strategy s))] rest s.

Definition step_enter_store (t : nat) (r : slot) (o : Ordering) (rest : list frame)
    (s : rstate) : outcomes :=
  _ ← head_of s r;
  next_ev t [] rest [EvEnter r] (store_null t r o s).

(** [leave] and [refresh]: the exchange of the head *)
Definition step_swap (t : nat) (r : slot) (new : eptr) (rest : list frame) (s : rstate) : outcomes :=
  let s := drain_slot r s in
  hd ← head_of s r;
  next_ev t (if decide (hd = INACTIVE) then [] else [FTraverse hd]) rest [EvExit r]
    (store_head r new s).

Definition step_leave (t : nat) (r : slot) (rest : list frame) (s : rstate) : outcomes :=
  step_swap t r INACTIVE rest s.

Definition step_refresh (t : nat) (r : slot) (rest : list frame) (s : rstate) : outcomes :=
  step_swap t r ENull rest s.

(** [traverse]: read the entry, then decrement the count of its batch *)
Definition step_traverse (t : nat) (l : eptr) (rest : list frame) (s : rstate) : outcomes :=
  match l with
  | ENull => next t [] rest s
  | INACTIVE => None
  | EPtr b i =>
      e ← entry_at (heap s) b i;
      match state e with
      | SNext n => next t [FDec n (e_batch e)] rest s
      | SHead _ => None
      end
  end.

Definition step_dec (t : nat) (n : eptr) (b : Z) (rest : list frame) (s : rstate) : outcomes :=
  bt ← heap s !! b;
  let old := active bt in
  let s := store_batch b (set_active (wsub old 1)) s in
  next t (if decide (old = 1) then [FFree b 0; FTraverse n] else [FTraverse n]) rest s.

(** [free_batch] *)
Definition step_free_batch (t : nat) (b : Z) (i : nat) (rest : list frame) (s : rstate) : outcomes :=
  bt ← heap s !! b;
  match entries bt !! i with
  | Some e =>
      next_ev t [FReclaim (ptr e) (reclaim e); FFree b (S i)] rest [EvReclaim t (ptr e) (reclaim e)] s
  | None =>
      '(h, a) ← LocalBatch_free b (heap s) (alloc s);
      next t [] rest (set_alloc a (set_heap h s))
  end.

(** [reclaim_all] *)
Definition step_all (t : nat) (ipc : iter_pc) (it : Iter) (rest : list frame) (s : rstate) : outcomes :=
  res ← iter_step (batches s) ipc it;
  match res with
  | IMore ipc it => next t [FAll ipc it] rest s
  | IYield r it => next t [FAllBatch r it] rest s
  | IDone => next t [] rest s
  end.

Definition step_all_batch (t : nat) (r : slot) (it : Iter) (rest : list frame) (s : rstate) : outcomes :=
  lb ← local_of s r;
  match lb with
  | BNull => next t [FAll IBucket it] rest s
  | DROP => None
  | BPtr b => next t [FFree b 0; FAllReset r it] rest (store_local r DROP s)
  end.

Definition step_all_reset (t : nat) (r : slot) (it : Iter) (rest : list frame) (s : rstate) : outcomes :=
  next t [FAll IBucket it] rest (store_local r BNull s).

(** ** The machine *)

(** The frames of a call. *)
Definition call (o : op) : list frame :=
  match o with
  | OpReservation th => [FLoad KReservation th LBucket]
  | OpEnter r => [FEnter r; FRet RUnit]
  | OpLeave r => [FLeave r; FRet RUnit]
  | OpRefresh r => [FRefresh r; FRet RUnit]
  | OpAdd p f th => [FLoad (KAdd p f) th LBucket]
  | OpReserve th => [FLoad KReserve th LBucket]
  | OpFlush th => [FFlush th]
  | OpReclaimAll => [FAll IBucket iter_init; FRet RUnit]
  end.

(** Client code is running: the stack is empty or a reclaimer is on top. *)
Definition at_client (fs : list frame) : bool :=
  match fs with
  | [] | FReclaim _ _ :: _ => true
  | _ => false
  end.

Definition run_frame (spurious : bool) (t : nat) (fr : frame) (rest : list frame)
    (s : rstate) : outcomes :=
  match fr with
  | FLoad k th pc => step_load t k th pc rest s
  | FAdd r p f => step_add t r p f rest s
  | FReserve r => step_reserve t r rest s
  | FFlush th => step_flush t th rest s
  | FTry r pc => step_try t r pc rest s
  | FRetire b m i act => step_retire t b m i act rest s
  | FCas b m i act r prev => step_cas spurious t b m i act r prev rest s
  | FFinish b act => step_finish t b act rest s
  | FEnter r => step_enter t r rest s
  | FEnterStore r o => step_enter_store t r o rest s
  | FLeave r => step_leave t r rest s
  | FRefresh r => step_refresh t r rest s
  | FTraverse l => step_traverse t l rest s
  | FDec n b => step_dec t n b rest s
  | FFree b i => step_free_batch t b i rest s
  | FReclaim _ _ => None
  | FAll ipc it => step_all t ipc it rest s
  | FAllBatch r it => step_all_batch t r it rest s
  | FAllReset r it => step_all_reset t r it rest s
  | FRet r => next_ev t [] rest [EvRet t r] s
  end.

Definition step (l : label) (s : rstate) : outcomes :=
  match l with
  | LCall t o =>
      if at_client (stack s t) then next t (call o) (stack s t) s else None
  | LRun t =>
      match stack s t with
      | fr :: rest => run_frame false t fr rest s
      | [] => None
      end
  | LSpurious t =>
      match stack s t with
      | FCas b m i act r prev :: rest => run_frame true t (FCas b m i act r prev) rest s
      | _ => None
      end
  | LReturn t =>
      match stack s t with
      | FReclaim _ _ :: rest => next t [] rest s
      | _ => None
      end
  | LDrain r => Some (drain_slot r s, [])
  | LDetect sys x86 => Some (set_strategy (detect plat sys x86 (strategy s)) s, [])
  | LGuards r n => Some (store_field (set_guards n) r s, [])
  | LLock r =>
      match lock_of s r with
      | Some false => Some (store_field (set_lock true) r s, [])
      | _ => None
      end
  | LUnlock r => Some (store_field (set_lock false) r s, [])
  end.

(** The slot a frame uses: while it is on a stack, no other frame may touch the
    thread-local data of that slot. *)
Definition uses (fr : frame) : option slot :=
  match fr with
  | FLoad _ th _ | FFlush th => Some (thread_slot th)
  | FAdd r _ _ | FReserve r | FTry r _ | FEnter r | FEnterStore r _ | FLeave r | FRefresh r => Some r
  | _ => None
  end.

Definition slot_free (s : rstate) (r : slot) : Prop :=
  forall t fr, fr ∈ stack s t -> uses fr <> Some r.

(** The safety contract of the raw operations ("# Safety" sections): the slot
    is used by nobody else, [enter] needs an inactive reservation.
    [reclaim_all] needs exclusive access to the whole collector and is not part
    of the concurrent contract. *)
Definition legal_op (o : op) (s : rstate) : Prop :=
  match o with
  | OpReservation th | OpReserve th | OpFlush th | OpAdd _ _ th =>
      thread_wf th /\ slot_free s (thread_slot th)
  | OpEnter r => head_of s r = Some INACTIVE /\ buffers s !! r = None /\ slot_free s r
  | OpLeave r | OpRefresh r => is_Some (head_of s r) /\ slot_free s r
  | OpReclaimAll => False
  end.

Definition legal (l : label) (s : rstate) : Prop :=
  match l with LCall _ o => legal_op o s | _ => True end.

(** Runs of clients that respect the contract, with what an observer sees. *)
Inductive steps : rstate -> list event -> rstate -> Prop :=
| steps_nil s : steps s [] s
| steps_cons s1 l s2 ev tr s3 :
    legal l s1 -> step l s1 = Some (s2, ev) -> steps s2 tr s3 -> steps s1 (ev ++ tr) s3.

(** [Collector::new]: both tables with the initial capacity. *)
Definition collector_new (strat cap : Z) (a : A) : outcome (A * result rstate) :=
  out_bind (with_capacity_in (T:=Reservation) cap a) (fun r =>
    match r with
    | (a, Err e) => Ret (a, Err e)
    | (a, Ok res) =>
        out_bind (with_capacity_in (T:=LocalBatch) cap a) (fun r =>
          match r with
          | (a, Err e) =>
              out_bind (tls_drop res a) (fun r => Ret (fst r, Err e))
          | (a, Ok bat) => Ret (a, Ok (mkState strat ∅ res bat a ∅ ∅))
          end)
    end).

(** States reachable from a new collector. *)
Definition reachable (s : rstate) : Prop :=
  exists strat cap a0 a s0 tr, strategy_ok strat /\ in_usize cap /\ in_usize batch_size /\
    collector_new strat cap a0 = Ret (a, Ok s0) /\ steps s0 tr s.

(** Executable runs: the labels must all be enabled; contracts are not
    checked. *)
Fixpoint run (ls : list label) (s : rstate) : option (rstate * list event) :=
  match ls with
  | [] => Some (s, [])
  | l :: ls =>
      '(s1, ev) ← step l s;
      '(s2, tr) ← run ls s1;
      Some (s2, ev ++ tr)
  end.

(** Run one thread until its client code is in control again. *)
Fixpoint run_until (fuel : nat) (t : nat) (s : rstate) : option (rstate * list event) :=
  if at_client (stack s t) then Some (s, [])
  else
    match fuel with
    | O => None
    | S fuel =>
        '(s1, ev) ← step (LRun t) s;
        '(s2, tr) ← run_until fuel t s1;
        Some (s2, ev ++ tr)
    end.

End Machine.
