(* ===== verification/RawExec.v ===== *)
(** * Running the raw collector

    Executable runs of the machine that check the contract of every call, so
    that concrete histories can be evaluated and are runs in the sense of the
    theorems. *)

From stdpp Require Import prelude list gmap.
From S2P Require Import Prelude Alloc ThreadId Membarrier Tls RawData RawStep.

Open Scope Z_scope.

#[export] Instance thread_wf_dec th : Decision (thread_wf th).
Proof. unfold thread_wf. apply _. Defined.

Section Exec.
Context {A : Type} `{Allocator A} `{BoxVec A}.
Context `{EntryLayout Reservation} `{EntryLayout LocalBatch}.
Variables (plat : Platform) (batch_size : Z).

Abbreviation rstate := (raw_state A).
Abbreviation step := (step plat batch_size).
Abbreviation steps := (steps plat batch_size).
Implicit Types (s : rstate) (r : slot) (t : nat).

Lemma slot_free_threads s r :
  slot_free s r <-> map_Forall (fun _ fs => Forall (fun f => uses f <> Some r) fs) (threads s).
Proof.
  unfold slot_free, stack. split.
  - intros Hf t fs Ht. apply Forall_forall. intros f Hin. apply (Hf t). by rewrite Ht.
  - intros Hf t f. destruct (threads s !! t) as [fs|] eqn:E; simpl; [|by intros ?%elem_of_nil].
    specialize (Hf _ _ E). rewrite Forall_forall in Hf. apply Hf.
Qed.

#[export] Instance slot_free_dec s r : Decision (slot_free s r).
Proof.
  refine (cast_if (decide (map_Forall (fun _ fs => Forall (fun f => uses f <> Some r) fs) (threads s))));
    by rewrite slot_free_threads.
Defined.

#[export] Instance legal_dec l s : Decision (legal l s).
Proof. destruct l as [t o|t|t|t|r|sys x86|r n|r|r]; [destruct o|..]; simpl; apply _. Defined.

(** One step, if it respects the contract. *)
Definition checked (l : label) s : option (rstate * list event) :=
  if decide (legal l s) then step l s else None.

Fixpoint run_checked (ls : list label) s : option (rstate * list event) :=
  match ls with
  | [] => Some (s, [])
  | l :: ls =>
      '(s1, ev) ← checked l s;
      '(s2, tr) ← run_checked ls s1;
      Some (s2, ev ++ tr)
  end.

(** Run one thread until its stack is empty; reclaimers return at once. *)
Fixpoint settle (fuel t : nat) s : option (rstate * list event) :=
  match stack s t with
  | [] => Some (s, [])
  | fr :: _ =>
      match fuel with
      | O => None
      | S fuel =>
          '(s1, ev) ← step (match fr with FReclaim _ _ => LReturn t | _ => LRun t end) s;
          '(s2, tr) ← settle fuel t s1;
          Some (s2, ev ++ tr)
      end
  end.

(** A script: calls run to completion, or single steps. *)
Inductive command :=
| Call (t : nat) (o : op)
| Step (l : label).

Definition command_run (fuel : nat) (c : command) s : option (rstate * list event) :=
  match c with
  | Call t o =>
      '(s1, ev) ← checked (LCall t o) s;
      '(s2, tr) ← settle fuel t s1;
      Some (s2, ev ++ tr)
  | Step l => checked l s
  end.

Fixpoint script_run (fuel : nat) (cs : list command) s : option (rstate * list event) :=
  match cs with
  | [] => Some (s, [])
  | c :: cs =>
      '(s1, ev) ← command_run fuel c s;
      '(s2, tr) ← script_run fuel cs s1;
      Some (s2, ev ++ tr)
  end.

(** ** Scripts are runs *)

Lemma steps_trans s1 tr1 s2 tr2 s3 :
  steps s1 tr1 s2 -> steps s2 tr2 s3 -> steps s1 (tr1 ++ tr2) s3.
Proof.
  intros H12 H23. induction H12 as [s|s1 l s2 ev tr s4 Hl Hs H12 IH]; [done|].
  rewrite <-(assoc_L (++)). econstructor; eauto.
Qed.

Lemma steps_one l s s' ev : legal l s -> step l s = Some (s', ev) -> steps s ev s'.
Proof. intros Hl Hs. rewrite <-(app_nil_r ev). econstructor; [done..|constructor]. Qed.

Lemma checked_steps l s s' ev : checked l s = Some (s', ev) -> steps s ev s'.
Proof. unfold checked. case_decide; [|done]. by apply steps_one. Qed.

Lemma run_checked_steps ls s s' tr : run_checked ls s = Some (s', tr) -> steps s tr s'.
Proof.
  revert s tr. induction ls as [|l ls IH]; intros s tr; simpl; [intros [= -> <-]; constructor|].
  intros ([s1 ev] & E1 & ([s2 tr2] & E2 & [= -> <-])%bind_Some)%bind_Some.
  eapply steps_trans; [by eapply checked_steps|by apply IH].
Qed.

Lemma settle_steps fuel t s s' tr : settle fuel t s = Some (s', tr) -> steps s tr s'.
Proof.
  revert s tr. induction fuel as [|fuel IH]; intros s tr; simpl.
  - destruct (stack s t); intros; simplify_eq; constructor.
  - destruct (stack s t) as [|fr rest]; [intros [= -> <-]; constructor|].
    intros ([s1 ev] & E1 & ([s2 tr2] & E2 & [= -> <-])%bind_Some)%bind_Some.
    eapply steps_trans; [eapply steps_one; [|done]|by apply IH]. by destruct fr.
Qed.

Lemma script_run_steps fuel cs s s' tr : script_run fuel cs s = Some (s', tr) -> steps s tr s'.
Proof.
  revert s tr. induction cs as [|c cs IH]; intros s tr; simpl; [intros [= -> <-]; constructor|].
  intros ([s1 ev] & E1 & ([s2 tr2] & E2 & [= -> <-])%bind_Some)%bind_Some.
  eapply steps_trans; [|by apply IH]. destruct c as [t o|l]; [|by apply checked_steps in E1].
  simpl in E1. apply bind_Some in E1 as ([s3 ev3] & E3 & ([s4 tr4] & E4 & [= -> <-])%bind_Some).
  eapply steps_trans; [by eapply checked_steps|by eapply settle_steps].
Qed.

End Exec.
