(* ===== verification/RawGhost.v ===== *)
(** * Ownership of batches and references

    The ghost state behind the reference counts of [src/src/raw/collector.rs]:
    a linked entry of a batch is one reference, owned by a reservation list or
    by a thread that traverses one; a batch is local to a slot, being retired,
    published or being freed. Two invariants over it: [Chains] says the linked
    lists in memory are exactly the references owned, [Counts] relates the
    counters of the batches to them. They depend on the machine only through
    the roles of the frames, the heads, the local batches and the heap, and are
    preserved by one lemma per kind of access. *)

From stdpp Require Import prelude list gmap.
From S2P Require Import Prelude Alloc ThreadId Tls RawData RawStep.

Open Scope Z_scope.

(** A frame is named by its thread and its height in the stack. *)
Inductive owner :=
| OwnSlot (r : slot)
| OwnTrav (t d : nat)
| OwnDec (t d : nat).

#[export] Instance owner_eq_dec : EqDecision owner.
Proof. solve_decision. Defined.

Inductive phase :=
| PLocal (r : slot)
| PRetiring (t d : nat)
| PPublished
| PFreeing (t d : nat).

(** What a frame holds: a list to traverse, a reference to drop, a batch being
    retired (no entry from [fr] on is linked, those of [lo .. m-1] still hold a
    location, [act] entries were linked) or a batch being freed. *)
Inductive role :=
| RNone
| RTrav (l : eptr)
| RDec (n : eptr) (b : Z)
| RRet (b : Z) (fr lo m : nat) (act : Z)
| RFin (b : Z) (act : Z)
| RFree (b : Z).

Definition role_of (f : frame) : role :=
  match f with
  | FTraverse l => RTrav l
  | FDec n b => RDec n b
  | FRetire b m i act => RRet b i i m act
  | FCas b m i act _ _ => RRet b i (S i) m act
  | FFinish b act => RFin b act
  | FFree b _ => RFree b
  | _ => RNone
  end.

Abbreviation ref := (Z * nat)%type.
Abbreviation owners := (gmap ref owner).
Abbreviation roles := (nat -> nat -> role).
Abbreviation heads := (slot -> option eptr).
Abbreviation locals := (slot -> option bptr).

Definition refs (own : owners) (b : Z) : nat := size (filter (fun x => x.1 = b) (dom own)).

Definition upd (t d : nat) (p : role) (R : roles) : roles :=
  fun t' d' => if decide (t' = t /\ d' = d) then p else R t' d'.

(** ** Counting references *)

Implicit Types (own : owners) (x : ref).

Lemma upd_eq t d p R : upd t d p R t d = p.
Proof. unfold upd. by rewrite decide_True. Qed.

Lemma upd_ne t d p R t' d' : ~ (t' = t /\ d' = d) -> upd t d p R t' d' = R t' d'.
Proof. intros Hne. unfold upd. by rewrite decide_False. Qed.

Lemma refs_ext own own' b :
  (forall j, is_Some (own !! (b, j)) <-> is_Some (own' !! (b, j))) -> refs own b = refs own' b.
Proof.
  intros Hj. unfold refs. f_equal. apply set_eq. intros [b' j].
  rewrite !elem_of_filter, !elem_of_dom; simpl. split; intros [-> ?]; (split; [done|]); by apply Hj.
Qed.

Lemma refs_insert own x o b :
  own !! x = None -> refs (<[x := o]> own) b = (refs own b + if decide (x.1 = b) then 1 else 0)%nat.
Proof.
  intros Hx. unfold refs. rewrite dom_insert_L.
  case_decide as Hb.
  - rewrite filter_union_L, (filter_singleton_True_L _ x Hb), size_union, size_singleton;
      [apply Nat.add_comm| |apply _].
    apply disjoint_singleton_l. rewrite elem_of_filter, elem_of_dom, Hx. by intros [_ []].
  - rewrite filter_union_L, (filter_singleton_False_L _ x Hb), (left_id_L ∅ (∪)).
    1: by rewrite Nat.add_0_r. apply _.
Qed.

Lemma refs_insert_old own x o b : is_Some (own !! x) -> refs (<[x := o]> own) b = refs own b.
Proof.
  intros Hx. apply refs_ext. intros j. destruct (decide (x = (b, j))) as [->|].
  - by rewrite lookup_insert_eq.
  - by rewrite lookup_insert_ne.
Qed.

Lemma refs_delete own x b :
  is_Some (own !! x) -> refs own b = (refs (delete x own) b + if decide (x.1 = b) then 1 else 0)%nat.
Proof.
  intros [o Hx]. rewrite <-(insert_id own x o) at 1 by done.
  rewrite <-insert_delete_eq. apply refs_insert. by rewrite lookup_delete_eq.
Qed.

Lemma refs_0 own b : refs own b = 0%nat <-> forall j, own !! (b, j) = None.
Proof.
  unfold refs. rewrite size_empty_iff, elem_of_equiv_empty. split.
  - intros Hs j. apply not_elem_of_dom. intros Hj. apply (Hs (b, j)). by apply elem_of_filter.
  - intros Hn [b' j] [Hb Hj]%elem_of_filter. simpl in Hb. subst.
    rewrite elem_of_dom, Hn in Hj. by destruct Hj.
Qed.

Lemma refs_le own b n :
  (forall j, is_Some (own !! (b, j)) -> (j < n)%nat) -> (refs own b <= n)%nat.
Proof.
  intros Hj. unfold refs.
  transitivity (size (list_to_set ((fun j => (b, j)) <$> seq 0 n) : gset ref)).
  - apply subseteq_size. intros [b' j]. rewrite elem_of_filter, elem_of_dom; simpl.
    intros [-> Hs%Hj]. apply elem_of_list_to_set, list_elem_of_fmap. exists j.
    split; [done|]. apply elem_of_seq. lia.
  - rewrite size_list_to_set.
    + by rewrite length_fmap, length_seq.
    + apply NoDup_fmap; [by intros ?? [=]|apply NoDup_seq].
Qed.

(** ** Linked lists of entries *)

Definition next_of (h : gmap Z Batch) x : option eptr :=
  e ← entry_at h x.1 x.2;
  match state e with SNext n => Some n | SHead _ => None end.

Fixpoint links (h : gmap Z Batch) (e : eptr) (l : list ref) : Prop :=
  match l with
  | [] => e = ENull
  | x :: l => e = EPtr x.1 x.2 /\ exists n, next_of h x = Some n /\ links h n l
  end.

Lemma links_ext h h' e l :
  (forall x, x ∈ l -> next_of h' x = next_of h x) -> links h e l -> links h' e l.
Proof.
  revert e. induction l as [|x l IH]; intros e Hx; simpl; [done|].
  intros (-> & n & Hn & Hl). split; [done|]. exists n.
  split; [rewrite Hx; [done|by left]|]. apply IH; [|done]. intros y Hy. apply Hx. by right.
Qed.

Lemma links_det h e l l' : links h e l -> links h e l' -> l = l'.
Proof.
  revert e l'. induction l as [|[b i] l IH]; intros e [|[b' i'] l']; simpl; try done.
  - by intros -> [? _].
  - by intros (-> & _) ?.
  - intros (-> & n & Hn & Hl) ([= <- <-] & n' & Hn' & Hl'). f_equal. eapply IH; [done|]. congruence.
Qed.

Definition chain (h : gmap Z Batch) own (o : owner) (e : eptr) : Prop :=
  exists l, links h e l /\ NoDup l /\ forall x, x ∈ l <-> own !! x = Some o.

Lemma chain_ext h h' own own' o o' e :
  (forall x, own !! x = Some o -> next_of h' x = next_of h x) ->
  (forall x, own !! x = Some o <-> own' !! x = Some o') ->
  chain h own o e -> chain h' own' o' e.
Proof.
  intros Hn Ho (l & Hl & Hnd & Hx). exists l. split_and!; [|done|].
  - eapply links_ext; [|done]. intros x Hxl. by apply Hn, Hx.
  - intros x. by rewrite Hx.
Qed.

Lemma chain_null h own o : (forall x, own !! x <> Some o) -> chain h own o ENull.
Proof.
  intros Hx. exists []. split; [done|]. split; [constructor|].
  intros x. split; [by intros ?%elem_of_nil|by intros ?%Hx].
Qed.

Lemma chain_null_inv h own o x : chain h own o ENull -> own !! x <> Some o.
Proof.
  intros (l & Hl & _ & Hx) Ho. destruct l as [|y l]; [|by destruct Hl].
  by apply Hx, elem_of_nil in Ho.
Qed.

Lemma chain_not_inactive h own o : ~ chain h own o INACTIVE.
Proof. intros ([|x l] & Hl & _); [done|]. by destruct Hl. Qed.

(** The first entry of a list. *)
Lemma chain_head h own o b i :
  chain h own o (EPtr b i) ->
  own !! (b, i) = Some o /\ exists n, next_of h (b, i) = Some n /\
    exists l, links h n l /\ NoDup l /\ (forall x, x ∈ l <-> own !! x = Some o /\ x <> (b, i)).
Proof.
  intros ([|[b' i'] l] & Hl & Hnd & Hx); [done|]. destruct Hl as ([= <- <-] & n & Hn & Hl).
  apply NoDup_cons in Hnd as [Hni Hnd]. split; [apply Hx; by left|].
  exists n. split; [done|]. exists l. split_and!; try done. intros x.
  rewrite <-Hx, elem_of_cons. split; [intros Hxl; split; [by right|congruence]|].
  by intros [[->|?] ?].
Qed.

(** The list a head points to. *)
Definition list_of (o : option eptr) : eptr :=
  match o with Some (EPtr b i) => EPtr b i | _ => ENull end.

Definition trav_of (p : role) : eptr :=
  match p with RTrav l => l | RDec n _ => n | _ => ENull end.

Definition pending own (t d : nat) (p : role) : Prop :=
  match p with
  | RDec _ b => exists i, forall x, own !! x = Some (OwnDec t d) <-> x = (b, i)
  | _ => forall x, own !! x <> Some (OwnDec t d)
  end.

Record Chains own (R : roles) (H : heads) (h : gmap Z Batch) : Prop := {
  c_slot r : chain h own (OwnSlot r) (list_of (H r));
  c_trav t d : chain h own (OwnTrav t d) (trav_of (R t d));
  c_dec t d : pending own t d (R t d)
}.

(** Roles that matter to [Chains]. *)
Definition chain_role (p : role) : role :=
  match p with RTrav l => RTrav l | RDec n b => RDec n b | _ => RTrav ENull end.

Lemma pending_chain_role own t d p : pending own t d (chain_role p) <-> pending own t d p.
Proof. by destruct p. Qed.

Lemma trav_chain_role p : trav_of (chain_role p) = trav_of p.
Proof. by destruct p. Qed.

Lemma Chains_ext own R R' (H H' : heads) h h' :
  (forall t d, chain_role (R' t d) = chain_role (R t d)) ->
  (forall r, list_of (H' r) = list_of (H r)) ->
  (forall x, is_Some (own !! x) -> next_of h' x = next_of h x) ->
  Chains own R H h -> Chains own R' H' h'.
Proof.
  intros HR HH Hh [Hs Ht Hd]. constructor.
  - intros r. rewrite HH. eapply chain_ext; [|done|apply Hs]. eauto.
  - intros t d. rewrite <-trav_chain_role, HR, trav_chain_role.
    eapply chain_ext; [|done|apply Ht]. eauto.
  - intros t d. apply pending_chain_role. rewrite HR. by apply pending_chain_role.
Qed.

Lemma chain_role_upd t d p R t' d' :
  chain_role p = chain_role (R t d) -> chain_role (upd t d p R t' d') = chain_role (R t' d').
Proof. intros Hp. unfold upd. case_decide; [|done]. by destruct_and!; subst. Qed.

Definition set_fun {B} (r : slot) (v : B) (H : slot -> option B) : slot -> option B :=
  fun r' => if decide (r' = r) then Some v else H r'.

(** A new entry at the head of the list of slot [r]. *)
Lemma Chains_link own R (H : heads) h b i r :
  Chains own R H h -> own !! (b, i) = None -> next_of h (b, i) = Some (list_of (H r)) ->
  Chains (<[(b, i) := OwnSlot r]> own) R (set_fun r (EPtr b i) H) h.
Proof.
  intros [Hs Ht Hd] Hnone Hnext.
  assert (forall o x, o <> OwnSlot r -> own !! x = Some o <-> <[(b, i) := OwnSlot r]> own !! x = Some o) as Hk.
  { intros o x Ho. destruct (decide (x = (b, i))) as [->|].
    - rewrite lookup_insert_eq, Hnone. split; congruence.
    - by rewrite lookup_insert_ne. }
  constructor.
  - intros r'. unfold set_fun. case_decide as Hr; [|eapply chain_ext; [done|intros; apply Hk; congruence|done]].
    subst r'. destruct (Hs r) as (l & Hl & Hnd & Hx). exists ((b, i) :: l). simpl.
    split; [split; [done|by exists (list_of (H r))]|]. split.
    + constructor; [|done]. rewrite Hx. congruence.
    + intros x. rewrite elem_of_cons, Hx. destruct (decide (x = (b, i))) as [->|].
      * rewrite lookup_insert_eq. intuition.
      * rewrite lookup_insert_ne by done. intuition.
  - intros t d. eapply chain_ext; [done|intros; by apply Hk|done].
  - intros t d. specialize (Hd t d). unfold pending in *. destruct (R t d); try (intros x; by rewrite <-Hk).
    destruct Hd as [j Hj]. exists j. intros x. by rewrite <-Hk.
Qed.

Definition move (o1 o2 o : owner) : owner := if decide (o = o1) then o2 else o.

Lemma move_lookup own o1 o2 o x :
  o1 <> o2 -> (forall x, own !! x <> Some o2) ->
  (move o1 o2 <$> own) !! x = Some o <->
    (o <> o1 /\ o <> o2 /\ own !! x = Some o) \/ (o = o2 /\ own !! x = Some o1).
Proof.
  intros Hne Hno. rewrite lookup_fmap, fmap_Some. unfold move. split.
  - intros (o' & Ho' & ->). case_decide; subst; [by right|left]. split_and!; try done.
    intros ->. by eapply Hno.
  - intros [(Hn1 & Hn2 & Ho)|[-> Ho]]; eexists; (split; [done|]); by case_decide.
Qed.

(** The list of slot [r] is handed over to a frame. *)
Lemma Chains_swap own R (H : heads) h r t d hd new :
  Chains own R H h -> H r = Some hd -> (new = INACTIVE \/ new = ENull) ->
  chain_role (R t d) = RTrav ENull ->
  Chains (move (OwnSlot r) (OwnTrav t d) <$> own)
    (upd t d (RTrav (list_of (Some hd))) R) (set_fun r new H) h.
Proof.
  intros [Hs Ht Hd] Hr Hnew HR.
  assert (forall x, own !! x <> Some (OwnTrav t d)) as Hno.
  { intros x. apply (chain_null_inv h). specialize (Ht t d). by rewrite <-trav_chain_role, HR in Ht. }
  assert (OwnSlot r <> OwnTrav t d) as Hne by done.
  assert (forall o x, o <> OwnSlot r -> o <> OwnTrav t d ->
    own !! x = Some o <-> (move (OwnSlot r) (OwnTrav t d) <$> own) !! x = Some o) as Hk.
  { intros o x H1 H2. rewrite move_lookup by done. intuition. }
  constructor.
  - intros r'. unfold set_fun. case_decide as Hr'.
    + subst r'. assert (list_of (Some new) = ENull) as -> by (by destruct Hnew as [-> | ->]).
      apply chain_null. intros x Hx%move_lookup; [|done..]. naive_solver.
    + eapply chain_ext; [done|intros; apply Hk; congruence|done].
  - intros t' d'. unfold upd. case_decide as Ht'.
    + destruct Ht' as [-> ->]. specialize (Hs r). rewrite Hr in Hs. simpl trav_of.
      eapply chain_ext; [done| |apply Hs]. intros x. rewrite move_lookup by done. intuition congruence.
    + eapply chain_ext; [done|intros; apply Hk; [done|intros [= -> ->]; by apply Ht']|done].
  - intros t' d'. specialize (Hd t' d'). unfold upd. case_decide as Ht'.
    + destruct Ht' as [-> ->]. apply pending_chain_role in Hd. rewrite HR in Hd.
      intros x. rewrite <-Hk by done. apply Hd.
    + unfold pending in *. destruct (R t' d'); try (intros x; by rewrite <-Hk).
      destruct Hd as [j Hj]. exists j. intros x. by rewrite <-Hk.
Qed.

Lemma trav_no_pending own R H h t d l :
  Chains own R H h -> R t d = RTrav l -> forall x, own !! x <> Some (OwnDec t d).
Proof. intros HC HR. pose proof (c_dec _ _ _ _ HC t d) as Hd. by rewrite HR in Hd. Qed.

(** A traversal takes the first reference of its list. *)
Lemma Chains_read own R (H : heads) h t d b i n :
  Chains own R H h -> R t d = RTrav (EPtr b i) -> next_of h (b, i) = Some n ->
  own !! (b, i) = Some (OwnTrav t d) /\
  Chains (<[(b, i) := OwnDec t d]> own) (upd t d (RDec n b) R) H h.
Proof.
  intros HC HR Hnext. pose proof (trav_no_pending _ _ _ _ _ _ _ HC HR) as Hno.
  pose proof (c_trav _ _ _ _ HC t d) as Hcur. rewrite HR in Hcur.
  apply chain_head in Hcur as (Hown & n' & Hn' & l & Hl & Hnd & Hx).
  assert (n' = n) as -> by congruence. split; [done|].
  assert (forall o x, o <> OwnTrav t d -> o <> OwnDec t d ->
    own !! x = Some o <-> <[(b, i) := OwnDec t d]> own !! x = Some o) as Hk.
  { intros o x H1 H2. destruct (decide (x = (b, i))) as [->|].
    - rewrite lookup_insert_eq, Hown. split; congruence.
    - by rewrite lookup_insert_ne. }
  destruct HC as [Hs Ht Hd]. constructor.
  - intros r. eapply chain_ext; [done|intros; by apply Hk|done].
  - intros t' d'. unfold upd. case_decide as E.
    + destruct E as [-> ->]. exists l. split_and!; try done. intros x. rewrite Hx.
      destruct (decide (x = (b, i))) as [->|]; [rewrite lookup_insert_eq|rewrite lookup_insert_ne by done];
        intuition congruence.
    + eapply chain_ext; [done|intros; apply Hk; [intros [= -> ->]; by apply E|done]|done].
  - intros t' d'. specialize (Hd t' d'). unfold upd. case_decide as E.
    + destruct E as [-> ->]. exists i. intros x. destruct (decide (x = (b, i))) as [->|].
      * by rewrite lookup_insert_eq.
      * rewrite lookup_insert_ne by done. split; [by intros ?%Hno|done].
    + assert (OwnDec t' d' <> OwnDec t d) as Hne by (intros [= -> ->]; by apply E).
      unfold pending in *. destruct (R t' d'); try (intros x; by rewrite <-Hk).
      destruct Hd as [j Hj]. exists j. intros x. by rewrite <-Hk.
Qed.

(** ... and drops it. *)
Lemma Chains_dec own R (H : heads) h t d b n :
  Chains own R H h -> R t d = RDec n b ->
  exists i, own !! (b, i) = Some (OwnDec t d) /\
    Chains (delete (b, i) own) (upd t d (RTrav n) R) H h.
Proof.
  intros [Hs Ht Hd] HR. pose proof (Hd t d) as Hp. rewrite HR in Hp. destruct Hp as [i Hi].
  exists i. assert (own !! (b, i) = Some (OwnDec t d)) as Hown by by apply Hi. split; [done|].
  assert (forall o x, o <> OwnDec t d -> own !! x = Some o <-> delete (b, i) own !! x = Some o) as Hk.
  { intros o x H1. destruct (decide (x = (b, i))) as [->|].
    - rewrite lookup_delete_eq, Hown. split; congruence.
    - by rewrite lookup_delete_ne. }
  constructor.
  - intros r. eapply chain_ext; [done|intros; by apply Hk|done].
  - intros t' d'. specialize (Ht t' d'). unfold upd. case_decide as E.
    + destruct E as [-> ->]. rewrite HR in Ht. eapply chain_ext; [done|intros; by apply Hk|done].
    + eapply chain_ext; [done|intros; by apply Hk|done].
  - intros t' d'. specialize (Hd t' d'). unfold upd. case_decide as E.
    + destruct E as [-> ->]. intros x. destruct (decide (x = (b, i))) as [->|].
      * by rewrite lookup_delete_eq.
      * rewrite lookup_delete_ne by done. by rewrite Hi.
    + assert (OwnDec t' d' <> OwnDec t d) as Hne by (intros [= -> ->]; by apply E).
      unfold pending in *. destruct (R t' d'); try (intros x; by rewrite <-Hk).
      destruct Hd as [j Hj]. exists j. intros x. by rewrite <-Hk.
Qed.

(** ** The counters *)

Definition role_batch (p : role) : option Z :=
  match p with RRet b _ _ _ _ | RFin b _ | RFree b => Some b | _ => None end.

Definition role_phase (t d : nat) (p : role) (f : phase) : Prop :=
  match p with
  | RRet _ _ _ _ _ | RFin _ _ => f = PRetiring t d
  | RFree _ => f = PFreeing t d
  | _ => True
  end.

Definition batch_ok (b : Z) (bt : Batch) : Prop :=
  Forall (fun e => e_batch e = b) (entries bt) /\
  Z.of_nat (length (entries bt)) <= capacity bt <= isize_max /\ in_usize (active bt).

(** Entry [j] of a batch holds the location of a reservation list. *)
Definition marked_at (H : heads) (bt : Batch) (j : nat) : Prop :=
  exists e r, entries bt !! j = Some e /\ state e = SHead (Some r) /\ is_Some (H r).

Definition retiring own (H : heads) (b : Z) (bt : Batch) (p : role) : Prop :=
  match p with
  | RRet b' fr lo m act =>
      b' = b /\ wadd (active bt) act = Z.of_nat (refs own b) /\
      Z.of_nat (refs own b) <= act <= Z.of_nat fr /\ (fr <= m <= length (entries bt))%nat /\
      (forall j, is_Some (own !! (b, j)) -> (j < fr)%nat) /\
      (forall j, (lo <= j < m)%nat -> marked_at H bt j)
  | RFin b' act =>
      b' = b /\ wadd (active bt) act = Z.of_nat (refs own b) /\
      Z.of_nat (refs own b) <= act <= Z.of_nat (length (entries bt))
  | _ => False
  end.

Definition phase_ok own (R : roles) (H : heads) (L : locals) (b : Z) (bt : Batch) (f : phase) : Prop :=
  match f with
  | PLocal r => L r = Some (BPtr b) /\ active bt = 0 /\ refs own b = 0%nat
  | PRetiring t d => retiring own H b bt (R t d)
  | PPublished => active bt = Z.of_nat (refs own b) /\ refs own b <> 0%nat
  | PFreeing t d => R t d = RFree b /\ refs own b = 0%nat
  end.

Record Counts own (ph : gmap Z phase) (R : roles) (H : heads) (L : locals)
    (h : gmap Z Batch) (bx : gset Z) : Prop := {
  k_own x : is_Some (own !! x) -> is_Some (entry_at h x.1 x.2);
  k_batch b bt : h !! b = Some bt -> b ∈ bx /\ batch_ok b bt;
  k_phase b bt : h !! b = Some bt -> exists f, ph !! b = Some f /\ phase_ok own R H L b bt f;
  k_heap b f : ph !! b = Some f -> is_Some (h !! b);
  k_local r : match L r with Some (BPtr b) => ph !! b = Some (PLocal r) | Some DROP => False | _ => True end;
  k_role t d b : role_batch (R t d) = Some b ->
    exists f, ph !! b = Some f /\ role_phase t d (R t d) f
}.

Section Counts.
Context (own own' : owners) (ph : gmap Z phase) (R R' : roles) (H H' : heads) (L L' : locals)
  (h : gmap Z Batch) (bx bx' : gset Z).

(** What an access to batch [b] leaves alone. *)
Record others (b : Z) : Prop := {
  o_own b' j : b' <> b -> is_Some (own' !! (b', j)) <-> is_Some (own !! (b', j));
  o_heads r : is_Some (H r) -> is_Some (H' r);
  o_role t d b' : b' <> b ->
    role_batch (R t d) = Some b' \/ role_batch (R' t d) = Some b' -> R' t d = R t d;
  o_local r b' : b' <> b -> L r = Some (BPtr b') <-> L' r = Some (BPtr b');
  o_boxes b' : b' <> b -> b' ∈ bx -> b' ∈ bx'
}.

Lemma marked_at_mono bt j : (forall r, is_Some (H r) -> is_Some (H' r)) ->
  marked_at H bt j -> marked_at H' bt j.
Proof. intros HH (e & r & ? & ? & ?). exists e, r. auto. Qed.

Lemma phase_ok_other b b' bt f :
  others b -> b' <> b -> phase_ok own R H L b' bt f -> phase_ok own' R' H' L' b' bt f.
Proof.
  intros [Ho Hh Hr Hl _] Hne. assert (refs own' b' = refs own b') as Hrefs.
  { apply refs_ext. intros j. by apply Ho. }
  assert (forall t d, role_batch (R t d) = Some b' -> R' t d = R t d) as HR by eauto.
  destruct f as [r|t d| |t d]; simpl; rewrite ?Hrefs; [by rewrite Hl by done| |done|].
  - intros Hret. rewrite HR; [|by destruct (R t d); try done; destruct Hret; subst].
    destruct (R t d) as [| | |b'' fr lo m act|b'' act|]; simpl in *; rewrite ?Hrefs; try done.
    destruct Hret as (? & ? & ? & ? & Hfr & Hlo). split_and!; try done; try lia.
    + intros j Hj. apply Hfr. by apply Ho.
    + intros j Hj. by apply marked_at_mono, Hlo.
  - intros [HRt ?]. by rewrite HR, HRt by (by rewrite HRt).
Qed.

(** An access to batch [b], whose new contents is [bt] in phase [f]. *)
Lemma Counts_update b bt f :
  Counts own ph R H L h bx -> others b ->
  b ∈ bx' -> batch_ok b bt ->
  (forall j, is_Some (own' !! (b, j)) -> is_Some (entries bt !! j)) ->
  phase_ok own' R' H' L' b bt f ->
  (forall t d, role_batch (R' t d) = Some b -> role_phase t d (R' t d) f) ->
  (forall r, L' r = Some (BPtr b) -> f = PLocal r) ->
  (forall r, L' r <> Some DROP) ->
  Counts own' (<[b := f]> ph) R' H' L' (<[b := bt]> h) bx'.
Proof.
  intros [Kown Kbatch Kphase Kheap Klocal Krole] Hoth Hbx Hbt Hent Hph Hrole Hloc Hdrop.
  constructor.
  - intros [b' j] Hj; simpl. unfold entry_at. destruct (decide (b' = b)) as [->|Hne].
    + rewrite lookup_insert_eq. by apply Hent.
    + rewrite lookup_insert_ne by done. apply (Kown (b', j)). by apply (o_own _ Hoth).
  - intros b' bt' [[<- <-]|[Hne Hb']]%lookup_insert_Some; [done|].
    destruct (Kbatch _ _ Hb') as [? ?]. split; [|done]. by apply (o_boxes _ Hoth).
  - intros b' bt' [[<- <-]|[Hne Hb']]%lookup_insert_Some; [exists f; by rewrite lookup_insert_eq|].
    destruct (Kphase _ _ Hb') as (f' & Hf' & Hok). exists f'. rewrite lookup_insert_ne by done.
    split; [done|]. by eapply phase_ok_other.
  - intros b' f' [[<- _]|[Hne Hb']]%lookup_insert_Some; [rewrite lookup_insert_eq; eauto|].
    rewrite lookup_insert_ne by done. eauto.
  - intros r. destruct (L' r) as [[| |b']|] eqn:HL; try done; [by apply Hdrop in HL|].
    destruct (decide (b' = b)) as [->|Hne]; [rewrite lookup_insert_eq; by f_equal; apply Hloc|].
    rewrite lookup_insert_ne by done. apply (o_local _ Hoth) in HL; [|done].
    specialize (Klocal r). by rewrite HL in Klocal.
  - intros t d b' Hb'. destruct (decide (b' = b)) as [->|Hne].
    + exists f. rewrite lookup_insert_eq. auto.
    + rewrite lookup_insert_ne by done. rewrite (o_role _ Hoth _ _ _ Hne) in * by auto. eauto.
Qed.

(** Nothing that matters to the counters changes. *)
Lemma Counts_ext :
  Counts own ph R H L h bx ->
  (forall x, is_Some (own' !! x) <-> is_Some (own !! x)) ->
  (forall r, is_Some (H r) -> is_Some (H' r)) ->
  (forall t d, R' t d = R t d \/ (role_batch (R t d) = None /\ role_batch (R' t d) = None)) ->
  (forall r b, L r = Some (BPtr b) <-> L' r = Some (BPtr b)) ->
  (forall r, L' r <> Some DROP) -> bx ⊆ bx' ->
  Counts own' ph R' H' L' h bx'.
Proof.
  intros [Kown Kbatch Kphase Kheap Klocal Krole] Ho HH HR HL Hdrop Hbx.
  assert (forall t d b, role_batch (R t d) = Some b \/ role_batch (R' t d) = Some b -> R' t d = R t d) as HR'.
  { intros t d b Hb. destruct (HR t d) as [?|[E1 E2]]; [done|]. rewrite E1, E2 in Hb. by destruct Hb. }
  constructor.
  - intros x Hx. by apply Kown, Ho.
  - intros b bt Hb. destruct (Kbatch _ _ Hb) as [? ?]. split; [by apply Hbx|done].
  - intros b bt Hb. destruct (Kphase _ _ Hb) as (f & Hf & Hok). exists f. split; [done|].
    apply (phase_ok_other (b + 1) b); [|lia|done]. constructor; auto. intros. by eapply HR'; eauto.
  - done.
  - intros r. destruct (L' r) as [[| |b']|] eqn:HE; try done; [by apply Hdrop in HE|].
    apply HL in HE. specialize (Klocal r). by rewrite HE in Klocal.
  - intros t d b Hb. rewrite (HR' t d b) in * by auto. eauto.
Qed.

End Counts.

Section CountsOps.
Context (own : owners) (ph : gmap Z phase) (R : roles) (H : heads) (L : locals)
  (h : gmap Z Batch) (bx : gset Z).
Hypothesis HK : Counts own ph R H L h bx.

Lemma k_phase_at b bt f : h !! b = Some bt -> ph !! b = Some f -> phase_ok own R H L b bt f.
Proof. intros Hb Hf. destruct (k_phase _ _ _ _ _ _ _ HK _ _ Hb) as (f' & ? & ?). congruence. Qed.

Lemma k_local_at r b : L r = Some (BPtr b) -> ph !! b = Some (PLocal r).
Proof. intros HL. pose proof (k_local _ _ _ _ _ _ _ HK r) as Hl. by rewrite HL in Hl. Qed.

Lemma k_no_drop r : L r <> Some DROP.
Proof. intros HL. pose proof (k_local _ _ _ _ _ _ _ HK r) as Hl. by rewrite HL in Hl. Qed.

Lemma k_role_at t d b f :
  role_batch (R t d) = Some b -> ph !! b = Some f -> role_phase t d (R t d) f.
Proof. intros Hr Hf. destruct (k_role _ _ _ _ _ _ _ HK _ _ _ Hr) as (f' & ? & ?). congruence. Qed.

Lemma k_own_lt b bt j : h !! b = Some bt -> is_Some (own !! (b, j)) -> (j < length (entries bt))%nat.
Proof.
  intros Hb Hj. apply (k_own _ _ _ _ _ _ _ HK) in Hj. unfold entry_at in Hj; simpl in Hj.
  rewrite Hb in Hj. by apply lookup_lt_is_Some.
Qed.

Lemma k_local_heap r b : L r = Some (BPtr b) ->
  exists bt, h !! b = Some bt /\ batch_ok b bt /\ active bt = 0 /\ (forall j, own !! (b, j) = None).
Proof.
  intros HL. pose proof (k_local_at _ _ HL) as Hp.
  destruct (k_heap _ _ _ _ _ _ _ HK _ _ Hp) as [bt Hb]. exists bt.
  destruct (k_phase_at _ _ _ Hb Hp) as (_ & ? & ?).
  destruct (k_batch _ _ _ _ _ _ _ HK _ _ Hb). split_and!; try done. by apply refs_0.
Qed.

Lemma k_retiring_heap t d b :
  role_batch (R t d) = Some b -> (forall b', R t d <> RFree b') ->
  exists bt, h !! b = Some bt /\ batch_ok b bt /\ ph !! b = Some (PRetiring t d) /\
    retiring own H b bt (R t d).
Proof.
  intros Hr Hnf. destruct (k_role _ _ _ _ _ _ _ HK _ _ _ Hr) as (f & Hf & Hrp).
  assert (f = PRetiring t d) as ->.
  { destruct (R t d); try done. by destruct (Hnf b0). }
  destruct (k_heap _ _ _ _ _ _ _ HK _ _ Hf) as [bt Hb]. exists bt.
  destruct (k_batch _ _ _ _ _ _ _ HK _ _ Hb). pose proof (k_phase_at _ _ _ Hb Hf). done.
Qed.

(** No frame has a role on a local batch. *)
Lemma k_local_no_role r b t d : L r = Some (BPtr b) -> role_batch (R t d) <> Some b.
Proof.
  intros HL Hr. pose proof (k_role_at _ _ _ _ Hr (k_local_at _ _ HL)) as Hp.
  by destruct (R t d).
Qed.

(** [get_or_init] installs a new batch. *)
Lemma Counts_new r p c :
  L r = Some BNull -> (p ∉ bx) -> 0 <= c <= isize_max ->
  Counts own (<[p := PLocal r]> ph) R H (set_fun r (BPtr p) L)
    (<[p := {| entries := []; capacity := c; active := 0 |}]> h) ({[p]} ∪ bx).
Proof.
  intros HLr Hp Hc. assert (h !! p = None) as Hn.
  { destruct (h !! p) eqn:E; [|done]. destruct Hp. by destruct (k_batch _ _ _ _ _ _ _ HK _ _ E). }
  assert (ph !! p = None) as Hphn.
  { destruct (ph !! p) eqn:E; [|done]. apply (k_heap _ _ _ _ _ _ _ HK) in E. rewrite Hn in E. by destruct E. }
  assert (forall j, own !! (p, j) = None) as Hon.
  { intros j. destruct (own !! (p, j)) eqn:E; [|done].
    assert (is_Some (own !! (p, j))) as Hs by eauto. apply (k_own _ _ _ _ _ _ _ HK) in Hs.
    unfold entry_at in Hs; simpl in Hs. rewrite Hn in Hs. by destruct Hs. }
  assert (forall r', L r' <> Some (BPtr p)) as HLn by (intros r' HL; apply k_local_at in HL; congruence).
  apply (Counts_update own own ph R R H H L _ h bx); try done.
  - constructor; [by auto|by auto|by auto|intros r' b' Hb'|intros; by apply elem_of_union_r].
    unfold set_fun. case_decide; [subst|done]. split; congruence.
  - by apply elem_of_union_l, elem_of_singleton.
  - intros j. rewrite Hon. by intros [].
  - split; [unfold set_fun; by rewrite decide_True|]. split; [done|]. by apply refs_0.
  - intros t d Hr. destruct (k_role _ _ _ _ _ _ _ HK _ _ _ Hr) as (f & Hf & _). congruence.
  - intros r'. unfold set_fun. case_decide; [by subst|]. intros HL. by apply HLn in HL.
  - intros r'. unfold set_fun. case_decide; [done|apply k_no_drop].
Qed.

(** The owner of a local batch changes its vector. *)
Lemma Counts_local r b bt bt' :
  L r = Some (BPtr b) -> h !! b = Some bt -> batch_ok b bt' -> active bt' = active bt ->
  Counts own ph R H L (<[b := bt']> h) bx.
Proof.
  intros HL Hb Hok Hact. pose proof (k_local_at _ _ HL) as Hp.
  destruct (k_local_heap _ _ HL) as (bt0 & ? & _ & Hact0 & Hown). simplify_eq.
  rewrite <-(insert_id ph b (PLocal r)) by done.
  apply (Counts_update own own ph R R H H L L h bx); try done.
  - by destruct (k_batch _ _ _ _ _ _ _ HK _ _ Hb).
  - intros j. rewrite Hown. by intros [].
  - split; [done|]. split; [congruence|]. by apply refs_0.
  - intros t d Hr. by apply (k_local_no_role _ _ _ _ HL) in Hr.
  - intros r' HL'%k_local_at. congruence.
  - apply k_no_drop.
Qed.

(** [try_retire] takes the batch out of the slot, with [m] entries marked. *)
Lemma Counts_detach r b bt t d m :
  L r = Some (BPtr b) -> h !! b = Some bt -> role_batch (R t d) = None ->
  (m <= length (entries bt))%nat -> (forall j, (j < m)%nat -> marked_at H bt j) ->
  Counts own (<[b := PRetiring t d]> ph) (upd t d (RRet b 0 0 m 0) R) H (set_fun r BNull L) h bx.
Proof.
  intros HL Hb HR Hm Hmark. rewrite <-(insert_id h b bt) by done.
  destruct (k_local_heap _ _ HL) as (bt0 & ? & Hok & Hact & Hown). simplify_eq.
  apply (Counts_update own own ph R _ H H L _ h bx); try done.
  - constructor; try by auto.
    + intros t' d' b' Hb'. unfold upd. case_decide as E; [|done]. destruct E as [-> ->].
      rewrite HR. simpl. by intros [|[=]].
    + intros r' b' Hb'. unfold set_fun. case_decide; [subst|done]. split; congruence.
  - by destruct (k_batch _ _ _ _ _ _ _ HK _ _ Hb).
  - intros j. rewrite Hown. by intros [].
  - simpl. rewrite upd_eq. simpl. assert (refs own b = 0%nat) as -> by by apply refs_0.
    rewrite Hact. split_and!; try done; try lia.
    + intros j. rewrite Hown. by intros [].
    + intros j Hj. apply Hmark. lia.
  - intros t' d'. unfold upd. case_decide as E; [by destruct E as [-> ->]|].
    intros Hr. by apply (k_local_no_role _ _ _ _ HL) in Hr.
  - intros r'. unfold set_fun. case_decide; [done|]. intros HL'%k_local_at.
    rewrite (k_local_at _ _ HL) in HL'. congruence.
  - intros r'. unfold set_fun. case_decide; [done|apply k_no_drop].
Qed.

(** The thread that retires batch [b] changes it, links one of its entries, or
    adds its count and goes on to phase [f]. *)
Lemma Counts_retire own' (H' : heads) t d b bt bt' p' f :
  role_batch (R t d) = Some b -> ph !! b = Some (PRetiring t d) -> h !! b = Some bt ->
  role_batch p' = Some b \/ role_batch p' = None ->
  (role_batch p' = Some b -> role_phase t d p' f) ->
  (forall r, f <> PLocal r) ->
  batch_ok b bt' -> (length (entries bt) <= length (entries bt'))%nat ->
  (forall b' j, b' <> b -> is_Some (own' !! (b', j)) <-> is_Some (own !! (b', j))) ->
  (forall j, is_Some (own' !! (b, j)) -> (j < length (entries bt'))%nat) ->
  (forall r, is_Some (H r) -> is_Some (H' r)) ->
  phase_ok own' (upd t d p' R) H' L b bt' f ->
  Counts own' (<[b := f]> ph) (upd t d p' R) H' L (<[b := bt']> h) bx.
Proof.
  intros HR Hph Hb Hp' Hf Hnl Hok Hlen Ho Hoj HH Hphase.
  apply (Counts_update own own' ph R _ H H' L L h bx); try done.
  - constructor; try by auto. intros t' d' b' Hb'. unfold upd. case_decide as E; [|done].
    destruct E as [-> ->]. intros [Hx|Hx]; exfalso; [congruence|]. destruct Hp'; congruence.
  - by destruct (k_batch _ _ _ _ _ _ _ HK _ _ Hb).
  - intros j Hj%Hoj. by apply lookup_lt_is_Some.
  - intros t' d'. unfold upd. case_decide as E; [destruct E as [-> ->]; auto|].
    intros Hr. pose proof (k_role_at _ _ _ _ Hr Hph) as Hrp. exfalso.
    destruct (R t' d'); try done; injection Hrp as -> ->; by apply E.
  - intros r HL. apply k_local_at in HL. congruence.
  - apply k_no_drop.
Qed.

Definition retires (p : role) (b : Z) : Prop :=
  match p with RRet b' _ _ _ _ | RFin b' _ => b' = b | _ => False end.

Lemma retires_batch p b : retires p b -> role_batch p = Some b /\ forall b', p <> RFree b'.
Proof. by destruct p; simpl; intros; subst. Qed.

Lemma Counts_retiring own' (H' : heads) t d b bt bt' p' :
  retires (R t d) b -> retires p' b -> h !! b = Some bt ->
  batch_ok b bt' -> length (entries bt) = length (entries bt') ->
  (forall b' j, b' <> b -> is_Some (own' !! (b', j)) <-> is_Some (own !! (b', j))) ->
  (forall j, is_Some (own' !! (b, j)) -> (j < length (entries bt'))%nat) ->
  (forall r, is_Some (H r) -> is_Some (H' r)) ->
  retiring own' H' b bt' p' ->
  Counts own' ph (upd t d p' R) H' L (<[b := bt']> h) bx.
Proof.
  intros [HR Hnf]%retires_batch Hp' Hb Hok Hlen Ho Hoj HH Hret.
  destruct (k_retiring_heap _ _ _ HR Hnf) as (bt0 & ? & _ & Hph & _). simplify_eq.
  destruct (retires_batch _ _ Hp') as [Hp'b Hp'f].
  rewrite <-(insert_id ph b (PRetiring t d)) by done.
  eapply Counts_retire; try done; auto; [|lia|by simpl; rewrite upd_eq].
  intros _. by destruct p'.
Qed.

(** One entry of a batch being retired is skipped, or about to be linked. *)
Lemma Counts_scan t d b i fr lo m act p' :
  R t d = RRet b i lo m act -> (i < m)%nat -> p' = RRet b fr (S i) m act ->
  (i <= fr <= S i)%nat -> (lo <= S i)%nat ->
  Counts own ph (upd t d p' R) H L h bx.
Proof.
  intros HR Him -> Hfr Hlo. assert (retires (R t d) b) as Hrt by by rewrite HR.
  destruct (retires_batch _ _ Hrt) as [HRb Hnf].
  destruct (k_retiring_heap _ _ _ HRb Hnf) as (bt & Hb & Hok & Hph & Hret).
  rewrite <-(insert_id h b bt) by done. rewrite HR in Hret.
  destruct Hret as (_ & Hw & Hact & Hm & Hown & Hmk).
  eapply Counts_retiring; try done; [by intros; eapply k_own_lt|].
  split_and!; try done; try lia.
  - intros j Hj. apply Hown in Hj. lia.
  - intros j Hj. apply Hmk. lia.
Qed.

Lemma set_state_ok b i s bt : batch_ok b bt -> batch_ok b (set_state i s bt).
Proof.
  intros (HF & Hl & Ha). unfold batch_ok; simpl. rewrite length_alter. split; [|done].
  by apply Forall_alter.
Qed.

Lemma set_state_lookup i s bt j :
  entries (set_state i s bt) !! j =
    if decide (i = j) then (fun e => {| ptr := ptr e; reclaim := reclaim e; state := s; e_batch := e_batch e |})
      <$> entries bt !! j else entries bt !! j.
Proof.
  simpl. case_decide; [by subst; rewrite list_lookup_alter_eq|by rewrite list_lookup_alter_ne].
Qed.

(** The state of the entry about to be linked is written. *)
Lemma Counts_set_next t d b i m act bt s :
  R t d = RRet b i (S i) m act -> h !! b = Some bt ->
  Counts own ph R H L (<[b := set_state i s bt]> h) bx.
Proof.
  intros HR Hb. assert (retires (R t d) b) as Hrt by by rewrite HR.
  destruct (retires_batch _ _ Hrt) as [HRb Hnf].
  destruct (k_retiring_heap _ _ _ HRb Hnf) as (bt0 & ? & Hok & Hph & Hret). simplify_eq.
  rewrite HR in Hret. destruct Hret as (_ & Hw & Hact & Hm & Hown & Hmk).
  apply (Counts_ext own own ph (upd t d (R t d) R) R H H L L _ bx bx); try done.
  - eapply Counts_retiring; try done.
    + by apply set_state_ok.
    + simpl. by rewrite length_alter.
    + intros j Hj. simpl. rewrite length_alter. by eapply k_own_lt.
    + rewrite HR. simpl. rewrite length_alter. split_and!; try done; try lia.
      intros j Hj. destruct (Hmk j Hj) as (e & r & He & ? & ?). exists e, r.
      split; [|done]. by rewrite set_state_lookup, decide_False by lia.
  - intros t' d'. left. unfold upd. case_decide as E; [by destruct E as [-> ->]|done].
  - apply k_no_drop.
Qed.

Lemma batch_length b bt : batch_ok b bt -> Z.of_nat (length (entries bt)) + 1 <= usize_max.
Proof. intros (_ & ? & _). usize. Qed.

(** The entry is linked. *)
Lemma Counts_link (H' : heads) t d b i m act o bt :
  R t d = RRet b i (S i) m act -> (i < m)%nat -> h !! b = Some bt ->
  (forall r, is_Some (H r) -> is_Some (H' r)) ->
  own !! (b, i) = None /\
  Counts (<[(b, i) := o]> own) ph (upd t d (RRet b (S i) (S i) m (wadd act 1)) R) H' L h bx.
Proof.
  intros HR Him Hb HH. assert (retires (R t d) b) as Hrt by by rewrite HR.
  destruct (retires_batch _ _ Hrt) as [HRb Hnf].
  destruct (k_retiring_heap _ _ _ HRb Hnf) as (bt0 & ? & Hok & Hph & Hret). simplify_eq.
  rewrite HR in Hret. destruct Hret as (_ & Hw & Hact & Hm & Hown & Hmk).
  assert (own !! (b, i) = None) as Hn.
  { destruct (own !! (b, i)) eqn:E; [|done]. assert (i < i)%nat by eauto. lia. }
  split; [done|]. rewrite <-(insert_id h b bt) by done.
  pose proof (batch_length _ _ Hok) as Hlen.
  assert (forall j, is_Some (<[(b, i) := o]> own !! (b, j)) -> (j < S i)%nat) as Hown'.
  { intros j [o' [[[= ->] _]|[_ Hj]]%lookup_insert_Some]; [lia|]. assert (j < i)%nat by eauto. lia. }
  eapply Counts_retiring; try done.
  - intros b' j Hb'. rewrite lookup_insert_ne by congruence. done.
  - intros j Hj%Hown'. lia.
  - simpl. rewrite refs_insert, decide_True by done. rewrite Nat2Z.inj_add.
    rewrite (wadd_id act 1) by usize.
    split_and!; try done; try lia.
    + rewrite <-(wadd_id act 1) by usize. apply wadd_succ_r; [done|usize].
    + intros j Hj. eapply marked_at_mono; [done|]. apply Hmk. lia.
Qed.

(** Every marked entry was handled. *)
Lemma Counts_fin t d b i lo m act :
  R t d = RRet b i lo m act -> Counts own ph (upd t d (RFin b act) R) H L h bx.
Proof.
  intros HR. assert (retires (R t d) b) as Hrt by by rewrite HR.
  destruct (retires_batch _ _ Hrt) as [HRb Hnf].
  destruct (k_retiring_heap _ _ _ HRb Hnf) as (bt & Hb & Hok & Hph & Hret).
  rewrite HR in Hret. destruct Hret as (_ & Hw & Hact & Hm & _ & _).
  rewrite <-(insert_id h b bt) by done.
  eapply Counts_retiring; try done; [by intros; eapply k_own_lt|].
  split_and!; try done; lia.
Qed.

(** The count is added: the batch is published, or free if every reference was
    already dropped. *)
Lemma Counts_finish t d b act bt p' f :
  R t d = RFin b act -> h !! b = Some bt ->
  p' = (if decide (wadd (active bt) act = 0) then RFree b else RNone) ->
  f = (if decide (wadd (active bt) act = 0) then PFreeing t d else PPublished) ->
  Counts own (<[b := f]> ph) (upd t d p' R) H L
    (<[b := set_active (wadd (active bt) act) bt]> h) bx.
Proof.
  intros HR Hb -> ->. assert (retires (R t d) b) as Hrt by by rewrite HR.
  destruct (retires_batch _ _ Hrt) as [HRb Hnf].
  destruct (k_retiring_heap _ _ _ HRb Hnf) as (bt0 & ? & Hok & Hph & Hret). simplify_eq.
  rewrite HR in Hret. destruct Hret as (_ & Hw & Hact).
  eapply Counts_retire; try done.
  - case_decide; auto.
  - by case_decide.
  - by case_decide.
  - destruct Hok as (? & ? & ?). split; [done|]. split; [done|apply wrap_range].
  - intros j Hj. by apply (k_own_lt _ _ _ Hb).
  - rewrite Hw. case_decide; simpl; [rewrite upd_eq; split; [done|lia]|]. split; [done|lia].
Qed.

(** The phases a batch with references can be in. *)
Lemma k_referenced b i bt : is_Some (own !! (b, i)) -> h !! b = Some bt ->
  (ph !! b = Some PPublished /\ active bt = Z.of_nat (refs own b)) \/
  (exists t d, ph !! b = Some (PRetiring t d) /\ retiring own H b bt (R t d)).
Proof.
  intros Hi Hb. destruct (k_phase _ _ _ _ _ _ _ HK _ _ Hb) as (f & Hf & Hok).
  assert (refs own b <> 0%nat) as Hr by (rewrite refs_0; intros Hn; rewrite Hn in Hi; by destruct Hi).
  destruct f as [r|t d| |t d]; simpl in Hok.
  - by destruct Hok as (_ & _ & ?).
  - right. eauto.
  - left. by destruct Hok.
  - by destruct Hok as (_ & ?).
Qed.

Lemma retiring_active b bt p :
  batch_ok b bt -> retiring own H b bt p -> active bt <> 1.
Proof.
  intros Hok Hret Ha. pose proof (batch_length _ _ Hok).
  destruct p as [| | |b' fr lo m act|b' act|]; try done; simpl in Hret; rewrite Ha in Hret;
    [destruct Hret as (_ & Hw & ? & ? & _)|destruct Hret as (_ & Hw & ?)];
    rewrite wadd_id in Hw by usize; lia.
Qed.

Lemma delete_others (b : Z) i b' j : b' <> b ->
  is_Some (delete (b, i) own !! (b', j)) <-> is_Some (own !! (b', j)).
Proof. intros Hb. by rewrite lookup_delete_ne by congruence. Qed.

(** The last reference to a batch is dropped: the batch goes to its frame. *)
Lemma Counts_dec_last t d b i n bt :
  R t d = RDec n b -> role_batch (R t (S d)) = None -> is_Some (own !! (b, i)) ->
  h !! b = Some bt -> active bt = 1 ->
  Counts (delete (b, i) own) (<[b := PFreeing t (S d)]> ph)
    (upd t (S d) (RFree b) (upd t d (RTrav n) R)) H L
    (<[b := set_active (wsub (active bt) 1) bt]> h) bx.
Proof.
  intros HR HR' Hi Hb Ha. destruct (k_batch _ _ _ _ _ _ _ HK _ _ Hb) as [Hbx Hok].
  destruct (k_referenced _ _ _ Hi Hb) as [[Hph Hrefs]|(t' & d' & _ & Hret)];
    [|by destruct (retiring_active _ _ _ Hok Hret)].
  rewrite Ha in Hrefs. pose proof (refs_delete own (b, i) b Hi) as Hdel.
  rewrite decide_True in Hdel by done.
  assert (refs (delete (b, i) own) b = 0%nat) as Hz by lia.
  apply (Counts_update own _ ph R _ H H L L h bx); try done.
  - constructor; [|by auto| |by auto..]; [intros; by apply delete_others|]. intros t' d' b' Hb'. unfold upd.
    repeat case_decide; destruct_and?; subst; simpl; rewrite ?HR, ?HR' in *; intros [?|?]; congruence || done.
  - destruct Hok as (? & ? & ?). split; [done|]. split; [done|apply wrap_range].
  - intros j [o Hj]. rewrite refs_0 in Hz. congruence.
  - split; [apply upd_eq|done].
  - intros t' d'. unfold upd. case_decide as E; [by destruct E as [-> ->]|]. case_decide; [done|].
    intros Hr. pose proof (k_role_at _ _ _ _ Hr Hph) as Hrp. by destruct (R t' d').
  - intros r HL%k_local_at. congruence.
  - apply k_no_drop.
Qed.

Lemma retiring_dec b i bt p :
  is_Some (own !! (b, i)) -> retiring own H b bt p ->
  retiring (delete (b, i) own) H b (set_active (wsub (active bt) 1) bt) p.
Proof.
  intros Hi Hret. pose proof (refs_delete own (b, i) b Hi) as Hdel.
  rewrite decide_True in Hdel by done.
  destruct p as [| | |b' fr lo m act|b' act|]; simpl in *; try done.
  - destruct Hret as (-> & Hw & Hact & Hm & Hown & Hmk).
    rewrite (wsub_pred_l _ _ _ Hw) by lia. split_and!; try done; try lia.
    intros j Hj. apply Hown. destruct (decide (j = i)) as [->|]; [done|].
    by rewrite lookup_delete_ne in Hj by congruence.
  - destruct Hret as (-> & Hw & Hact). rewrite (wsub_pred_l _ _ _ Hw) by lia.
    split_and!; try done; lia.
Qed.

(** A reference is dropped, not the last. *)
Lemma Counts_dec t d b i n bt :
  R t d = RDec n b -> is_Some (own !! (b, i)) -> h !! b = Some bt -> active bt <> 1 ->
  Counts (delete (b, i) own) ph (upd t d (RTrav n) R) H L
    (<[b := set_active (wsub (active bt) 1) bt]> h) bx.
Proof.
  intros HR Hi Hb Ha. destruct (k_batch _ _ _ _ _ _ _ HK _ _ Hb) as [Hbx Hok].
  pose proof (refs_delete own (b, i) b Hi) as Hdel. rewrite decide_True in Hdel by done.
  destruct (k_phase _ _ _ _ _ _ _ HK _ _ Hb) as (f & Hf & Hphase).
  pose proof Hok as (_ & _ & Hau).
  assert (phase_ok (delete (b, i) own) (upd t d (RTrav n) R) H L b (set_active (wsub (active bt) 1) bt) f) as Hph'.
  { destruct (k_referenced _ _ _ Hi Hb) as [[Hph Hrefs]|(t' & d' & Hph & Hret)]; rewrite Hph in Hf; simplify_eq; simpl.
    - rewrite wsub_id by usize. lia.
    - rewrite upd_ne by (intros [-> ->]; by rewrite HR in Hret). by apply retiring_dec. }
  rewrite <-(insert_id ph b f) by done.
  apply (Counts_update own _ ph R _ H H L L h bx); try done.
  - constructor; [|by auto| |by auto..]; [intros; by apply delete_others|]. intros t' d' b' Hb'. unfold upd.
    case_decide as E; [destruct E as [-> ->]|done]. rewrite HR. simpl. by intros [|].
  - destruct Hok as (? & ? & ?). split; [done|]. split; [done|apply wrap_range].
  - intros j Hj. simpl. apply lookup_lt_is_Some, (k_own_lt _ _ _ Hb).
    destruct (decide (j = i)) as [->|]; [done|]. by rewrite lookup_delete_ne in Hj by congruence.
  - intros t' d'. unfold upd. case_decide as E; [by destruct E as [-> ->]|]. intros Hr. by apply (k_role_at _ _ _ _ Hr).
  - intros r HL%k_local_at. congruence.
  - apply k_no_drop.
Qed.

(** A batch is deallocated. *)
Lemma Counts_free t d b :
  R t d = RFree b ->
  (forall j, own !! (b, j) = None) /\
  Counts own (delete b ph) (upd t d RNone R) H L (delete b h) (bx ∖ {[b]}).
Proof.
  intros HR. assert (role_batch (R t d) = Some b) as HRb by by rewrite HR.
  destruct (k_role _ _ _ _ _ _ _ HK _ _ _ HRb) as (f & Hf & Hrp).
  rewrite HR in Hrp; simpl in Hrp; subst f.
  destruct (k_heap _ _ _ _ _ _ _ HK _ _ Hf) as [bt Hb].
  destruct (k_phase_at _ _ _ Hb Hf) as (_ & Hz). rewrite refs_0 in Hz. split; [done|].
  assert (others own own R (upd t d RNone R) H H L L bx (bx ∖ {[b]}) b) as Hoth.
  { constructor; [by auto|by auto| |by auto|intros; apply elem_of_difference; by rewrite elem_of_singleton].
    intros t' d' b' Hb'. unfold upd. case_decide as E; [destruct E as [-> ->]|done].
    rewrite HR. simpl. intros [|]; congruence. }
  constructor.
  - intros [b' j] Hj; simpl. unfold entry_at. destruct (decide (b' = b)) as [->|].
    + rewrite Hz in Hj. by destruct Hj.
    + rewrite lookup_delete_ne by done. by apply (k_own _ _ _ _ _ _ _ HK (b', j)).
  - intros b' bt' [Hne Hb']%lookup_delete_Some. destruct (k_batch _ _ _ _ _ _ _ HK _ _ Hb').
    split; [|done]. by apply (o_boxes _ _ _ _ _ _ _ _ _ _ _ Hoth).
  - intros b' bt' [Hne Hb']%lookup_delete_Some. destruct (k_phase _ _ _ _ _ _ _ HK _ _ Hb') as (f' & Hf' & Hok).
    exists f'. rewrite lookup_delete_ne by done. split; [done|]. by eapply phase_ok_other.
  - intros b' f' [Hne Hb']%lookup_delete_Some. rewrite lookup_delete_ne by done. by eapply k_heap.
  - intros r. destruct (L r) as [[| |b']|] eqn:HL; try done; [by apply k_no_drop in HL|].
    apply k_local_at in HL. rewrite lookup_delete_ne; [done|congruence].
  - intros t' d' b'. unfold upd. case_decide as E; [done|]. intros Hr.
    destruct (k_role _ _ _ _ _ _ _ HK _ _ _ Hr) as (f' & Hf' & Hrp').
    assert (b' <> b) as Hne.
    { intros ->. rewrite Hf in Hf'. simplify_eq. destruct (R t' d'); try done.
      injection Hrp' as -> ->. by apply E. }
    exists f'. by rewrite lookup_delete_ne.
Qed.

End CountsOps.

(** ** The ownership invariant *)

Definition GInv (R : roles) (H : heads) (L : locals) (h : gmap Z Batch) (bx : gset Z) : Prop :=
  exists own ph, Chains own R H h /\ Counts own ph R H L h bx.

(** Roles that own the same. *)
Definition role_eqv (p q : role) : Prop :=
  p = q \/ (role_batch p = None /\ role_batch q = None /\ chain_role p = chain_role q).

Lemma role_eqv_chain p q : role_eqv p q -> chain_role p = chain_role q.
Proof. by intros [->|(_ & _ & ?)]. Qed.

#[export] Instance role_eqv_equiv : Equivalence role_eqv.
Proof.
  split.
  - by left.
  - intros p q [->|(? & ? & ?)]; [by left|by right].
  - intros p q u [->|(? & ? & ?)] [->|(? & ? & ?)]; unfold role_eqv; auto.
    right. split_and!; congruence.
Qed.

Lemma GInv_ext (R R' : roles) (H H' : heads) (L L' : locals) h bx bx' :
  GInv R H L h bx ->
  (forall t d, role_eqv (R t d) (R' t d)) ->
  (forall r, list_of (H' r) = list_of (H r)) ->
  (forall r, is_Some (H r) -> is_Some (H' r)) ->
  (forall r b, L r = Some (BPtr b) <-> L' r = Some (BPtr b)) ->
  (forall r, L' r <> Some DROP) -> bx ⊆ bx' ->
  GInv R' H' L' h bx'.
Proof.
  intros (own & ph & HC & HK) HR HH HHm HL Hd Hbx. exists own, ph. split.
  - eapply Chains_ext; [|done| |done]; [|done]. intros t d. by symmetry; apply role_eqv_chain.
  - eapply Counts_ext; [done|done|done| |done..]. intros t d.
    destruct (HR t d) as [->|(? & ? & _)]; auto.
Qed.

Lemma GInv_eq (R R' : roles) (H H' : heads) (L L' : locals) h bx bx' :
  GInv R H L h bx -> (forall t d, role_eqv (R t d) (R' t d)) ->
  (forall r, H' r = H r) -> (forall r, L' r = L r) -> bx ⊆ bx' -> GInv R' H' L' h bx'.
Proof.
  intros HG HR HH HL Hbx. eapply GInv_ext; [done|done| | | | |done].
  - intros r. by rewrite HH.
  - intros r. by rewrite HH.
  - intros r b. by rewrite HL.
  - intros r. rewrite HL. destruct HG as (own & ph & _ & HK). intros HD.
    pose proof (k_local _ _ _ _ _ _ _ HK r) as Hk. by rewrite HD in Hk.
Qed.

Lemma next_of_ne b bt h x : x.1 <> b -> next_of (<[b := bt]> h) x = next_of h x.
Proof. intros Hx. unfold next_of, entry_at. by rewrite lookup_insert_ne. Qed.

Section GInvOps.
Context (R : roles) (H : heads) (L : locals) (h : gmap Z Batch) (bx : gset Z).
Hypothesis HG : GInv R H L h bx.

Lemma G_no_drop r : L r <> Some DROP.
Proof. destruct HG as (own & ph & _ & HK). by eapply k_no_drop. Qed.

Lemma G_local_heap r b : L r = Some (BPtr b) ->
  exists bt, h !! b = Some bt /\ batch_ok b bt /\ active bt = 0.
Proof.
  intros HL. destruct HG as (own & ph & _ & HK).
  destruct (k_local_heap _ _ _ _ _ _ _ HK _ _ HL) as (bt & ? & ? & ? & _). eauto.
Qed.

Lemma G_local_inj r r' b : L r = Some (BPtr b) -> L r' = Some (BPtr b) -> r = r'.
Proof.
  intros H1 H2. destruct HG as (own & ph & _ & HK).
  apply (k_local_at _ _ _ _ _ _ _ HK) in H1, H2. congruence.
Qed.

Lemma G_local_no_role r b t d : L r = Some (BPtr b) -> role_batch (R t d) <> Some b.
Proof. destruct HG as (own & ph & _ & HK). by eapply k_local_no_role. Qed.

Lemma G_batch b bt : h !! b = Some bt -> b ∈ bx /\ batch_ok b bt.
Proof. destruct HG as (own & ph & _ & HK). by eapply k_batch. Qed.

Lemma G_role t d b : role_batch (R t d) = Some b -> exists bt, h !! b = Some bt.
Proof.
  intros Hr. destruct HG as (own & ph & _ & HK).
  destruct (k_role _ _ _ _ _ _ _ HK _ _ _ Hr) as (f & Hf & _).
  by destruct (k_heap _ _ _ _ _ _ _ HK _ _ Hf) as [bt ?]; eauto.
Qed.

(** Two frames never work on the same batch. *)
Lemma G_role_inj t d t' d' b :
  role_batch (R t d) = Some b -> role_batch (R t' d') = Some b -> t = t' /\ d = d'.
Proof.
  intros H1 H2. destruct HG as (own & ph & _ & HK).
  destruct (k_role _ _ _ _ _ _ _ HK _ _ _ H1) as (f & Hf & E1).
  pose proof (k_role_at _ _ _ _ _ _ _ HK _ _ _ _ H2 Hf) as E2.
  destruct (R t d), (R t' d'); simpl in *; try done; simplify_eq; done.
Qed.

Lemma G_new r p c :
  L r = Some BNull -> (p ∉ bx) -> 0 <= c <= isize_max ->
  GInv R H (set_fun r (BPtr p) L) (<[p := {| entries := []; capacity := c; active := 0 |}]> h) ({[p]} ∪ bx).
Proof.
  intros HL Hp Hc. destruct HG as (own & ph & HC & HK). exists own, (<[p := PLocal r]> ph).
  split; [|by apply Counts_new]. eapply Chains_ext; [done|done| |done].
  intros x Hx. apply next_of_ne. intros <-. apply Hp.
  destruct (k_own _ _ _ _ _ _ _ HK _ Hx) as [e He]. unfold entry_at in He.
  destruct (h !! x.1) eqn:E; [|done]. by destruct (k_batch _ _ _ _ _ _ _ HK _ _ E).
Qed.

Lemma G_local r b bt bt' :
  L r = Some (BPtr b) -> h !! b = Some bt -> batch_ok b bt' -> active bt' = active bt ->
  GInv R H L (<[b := bt']> h) bx.
Proof.
  intros HL Hb Hok Ha. destruct HG as (own & ph & HC & HK). exists own, ph.
  split; [|by eapply Counts_local]. eapply Chains_ext; [done|done| |done].
  intros [b' j] Hx. apply next_of_ne. simpl. intros ->.
  destruct (k_local_heap _ _ _ _ _ _ _ HK _ _ HL) as (_ & _ & _ & _ & Hn). rewrite Hn in Hx. by destruct Hx.
Qed.

Lemma G_detach r b bt t d m :
  L r = Some (BPtr b) -> h !! b = Some bt -> R t d = RNone ->
  (m <= length (entries bt))%nat -> (forall j, (j < m)%nat -> marked_at H bt j) ->
  GInv (upd t d (RRet b 0 0 m 0) R) H (set_fun r BNull L) h bx.
Proof.
  intros HL Hb HR Hm Hmk. destruct HG as (own & ph & HC & HK). exists own, (<[b := PRetiring t d]> ph).
  split; [|eapply Counts_detach; try done; by rewrite HR].
  eapply Chains_ext; [|done|done|done]. intros t' d'. apply chain_role_upd. by rewrite HR.
Qed.

Lemma G_scan t d b i fr lo m act p' :
  R t d = RRet b i lo m act -> (i < m)%nat -> p' = RRet b fr (S i) m act ->
  (i <= fr <= S i)%nat -> (lo <= S i)%nat -> GInv (upd t d p' R) H L h bx.
Proof.
  intros HR Him Hp Hfr Hlo. destruct HG as (own & ph & HC & HK). exists own, ph.
  split; [|by eapply Counts_scan]. eapply Chains_ext; [|done|done|done].
  intros t' d'. apply chain_role_upd. by rewrite HR, Hp.
Qed.

Lemma G_fin t d b i lo m act :
  R t d = RRet b i lo m act -> GInv (upd t d (RFin b act) R) H L h bx.
Proof.
  intros HR. destruct HG as (own & ph & HC & HK). exists own, ph.
  split; [|by eapply Counts_fin]. eapply Chains_ext; [|done|done|done].
  intros t' d'. apply chain_role_upd. by rewrite HR.
Qed.

Lemma G_ret_entry t d b i lo m act :
  R t d = RRet b i lo m act -> (i < m)%nat ->
  exists bt e, h !! b = Some bt /\ entries bt !! i = Some e /\ (m <= length (entries bt))%nat /\
    ((lo <= i)%nat -> marked_at H bt i).
Proof.
  intros HR Him. destruct HG as (own & ph & _ & HK).
  assert (retires (R t d) b) as [Hr Hnf]%retires_batch by by rewrite HR.
  destruct (k_retiring_heap _ _ _ _ _ _ _ HK _ _ _ Hr Hnf) as (bt & Hb & _ & _ & Hret).
  rewrite HR in Hret. destruct Hret as (_ & _ & _ & Hm & _ & Hmk).
  destruct (lookup_lt_is_Some_2 (entries bt) i) as [e He]; [lia|].
  exists bt, e. split_and!; try done; [lia|]. intros Hlo. apply Hmk. lia.
Qed.

Lemma G_set_next t d b i m act bt st :
  R t d = RRet b i (S i) m act -> h !! b = Some bt ->
  GInv R H L (<[b := set_state i st bt]> h) bx.
Proof.
  intros HR Hb. destruct HG as (own & ph & HC & HK). exists own, ph.
  split; [|by eapply Counts_set_next]. eapply Chains_ext; [done|done| |done].
  intros [b' j] Hx. destruct (decide (b' = b)) as [->|]; [|by apply next_of_ne].
  unfold next_of, entry_at; simpl. rewrite lookup_insert_eq, Hb. cbn.
  assert (j <> i) as Hj.
  { intros ->. assert (retires (R t d) b) as [Hr Hnf]%retires_batch by by rewrite HR.
    destruct (k_retiring_heap _ _ _ _ _ _ _ HK _ _ _ Hr Hnf) as (bt0 & ? & _ & _ & Hret).
    rewrite HR in Hret. destruct Hret as (_ & _ & _ & _ & Ho & _). apply Ho in Hx. lia. }
  by rewrite list_lookup_alter_ne by done.
Qed.

Lemma G_link t d b i m act r prev :
  R t d = RRet b i (S i) m act -> (i < m)%nat -> H r = Some prev -> prev <> INACTIVE ->
  next_of h (b, i) = Some prev ->
  GInv (upd t d (RRet b (S i) (S i) m (wadd act 1)) R) (set_fun r (EPtr b i) H) L h bx.
Proof.
  intros HR Him Hr Hp Hn. destruct HG as (own & ph & HC & HK).
  destruct (G_ret_entry _ _ _ _ _ _ _ HR Him) as (bt & _ & Hb & _).
  destruct (Counts_link _ _ _ _ _ _ _ HK (set_fun r (EPtr b i) H) _ _ _ _ _ _ (OwnSlot r) _ HR Him Hb)
    as [Hnone HK'].
  { intros r'. unfold set_fun. case_decide; [eauto|done]. }
  exists (<[(b, i) := OwnSlot r]> own), ph. split; [|done].
  eapply Chains_ext; [|done|done|apply Chains_link; try done].
  - intros t' d'. apply chain_role_upd. by rewrite HR.
  - rewrite Hn, Hr. by destruct prev.
Qed.

Lemma G_finish t d b act bt p' :
  R t d = RFin b act -> h !! b = Some bt ->
  p' = (if decide (wadd (active bt) act = 0) then RFree b else RNone) ->
  GInv (upd t d p' R) H L (<[b := set_active (wadd (active bt) act) bt]> h) bx.
Proof.
  intros HR Hb Hp. destruct HG as (own & ph & HC & HK). eexists own, _.
  split; [|by eapply Counts_finish]. eapply Chains_ext; [|done| |done].
  - intros t' d'. apply chain_role_upd. rewrite HR, Hp. by case_decide.
  - intros [b' j] _. unfold next_of, entry_at; simpl. destruct (decide (b' = b)) as [->|].
    + by rewrite lookup_insert_eq, Hb.
    + by rewrite lookup_insert_ne.
Qed.

Lemma G_swap r t d hd new p :
  H r = Some hd -> new = INACTIVE \/ new = ENull -> R t d = RNone ->
  chain_role p = RTrav (list_of (Some hd)) -> role_batch p = None ->
  GInv (upd t d p R) (set_fun r new H) L h bx.
Proof.
  intros Hr Hnew HR Hp Hpb. destruct HG as (own & ph & HC & HK).
  eexists (move _ _ <$> own), ph. split.
  - eapply Chains_ext; [|done|done|by eapply Chains_swap; [..|by rewrite HR]].
    intros t' d'. unfold upd. by case_decide.
  - eapply Counts_ext; [done| | | |done|by apply G_no_drop|done].
    + intros x. by rewrite lookup_fmap, fmap_is_Some.
    + intros r'. unfold set_fun. case_decide; [eauto|done].
    + intros t' d'. unfold upd. case_decide as E; [|by left]. destruct E as [-> ->].
      right. by rewrite HR.
Qed.

(** An active head becomes an empty list, or back. *)
Lemma G_head r new old :
  H r = Some old -> list_of (Some old) = ENull -> list_of (Some new) = ENull ->
  GInv R (set_fun r new H) L h bx.
Proof.
  intros Hr Ho Hn. eapply GInv_ext; [done|by left| | |done|apply G_no_drop|done].
  - intros r'. unfold set_fun. case_decide; [|done]. subst. by rewrite Hr, Hn.
  - intros r'. unfold set_fun. case_decide; [eauto|done].
Qed.

Lemma G_trav_entry t d e :
  R t d = RTrav e -> e = ENull \/ exists b i bt en n, e = EPtr b i /\ h !! b = Some bt /\
    entries bt !! i = Some en /\ state en = SNext n /\ e_batch en = b.
Proof.
  intros HR. destruct HG as (own & ph & HC & HK). pose proof (c_trav _ _ _ _ HC t d) as Hc.
  rewrite HR in Hc. simpl in Hc. destruct e as [| |b i]; [by left|by apply chain_not_inactive in Hc|right].
  apply chain_head in Hc as (_ & n & Hn & _). unfold next_of, entry_at in Hn; simpl in Hn.
  destruct (h !! b) as [bt|] eqn:Hb; simpl in Hn; [|done].
  destruct (entries bt !! i) as [en|] eqn:He; simpl in Hn; [|done].
  destruct (state en) as [|n'] eqn:Hs; simplify_eq.
  exists b, i, bt, en, n. split_and!; try done.
  destruct (k_batch _ _ _ _ _ _ _ HK _ _ Hb) as (_ & HF & _). by eapply Forall_lookup in HF.
Qed.

Lemma G_read t d b i bt en n :
  R t d = RTrav (EPtr b i) -> h !! b = Some bt -> entries bt !! i = Some en -> state en = SNext n ->
  GInv (upd t d (RDec n b) R) H L h bx.
Proof.
  intros HR Hb He Hs. destruct HG as (own & ph & HC & HK).
  assert (next_of h (b, i) = Some n) as Hn.
  { unfold next_of, entry_at; simpl. rewrite Hb. simpl. rewrite He. simpl. by rewrite Hs. }
  destruct (Chains_read _ _ _ _ _ _ _ _ _ HC HR Hn) as [Hown HC'].
  exists (<[(b, i) := OwnDec t d]> own), ph. split; [done|].
  eapply Counts_ext; [done| |done| |done|by apply G_no_drop|done].
  - intros x. destruct (decide (x = (b, i))) as [->|].
    + rewrite lookup_insert_eq, Hown. split; eauto.
    + by rewrite lookup_insert_ne.
  - intros t' d'. unfold upd. case_decide as E; [|by left]. destruct E as [-> ->]. right. by rewrite HR.
Qed.

Lemma G_dec_heap t d n b : R t d = RDec n b -> exists bt, h !! b = Some bt.
Proof.
  intros HR. destruct HG as (own & ph & HC & HK).
  destruct (Chains_dec _ _ _ _ _ _ _ _ HC HR) as (i & Hi & _).
  destruct (k_own _ _ _ _ _ _ _ HK (b, i)) as [e He]; [eauto|].
  unfold entry_at in He. simpl in He. destruct (h !! b); [eauto|done].
Qed.

(** A batch with references is not local. *)
Lemma G_dec_not_local t d n b r : R t d = RDec n b -> L r <> Some (BPtr b).
Proof.
  intros HR HL. destruct HG as (own & ph & HC & HK).
  destruct (Chains_dec _ _ _ _ _ _ _ _ HC HR) as (i & Hi & _).
  destruct (k_local_heap _ _ _ _ _ _ _ HK _ _ HL) as (_ & _ & _ & _ & Hn). congruence.
Qed.

Lemma G_dec t d n b bt R' :
  R t d = RDec n b -> h !! b = Some bt -> R t (S d) = RNone ->
  R' = upd t d (RTrav n) R ->
  GInv (if decide (active bt = 1) then upd t (S d) (RFree b) R' else R') H L
    (<[b := set_active (wsub (active bt) 1) bt]> h) bx.
Proof.
  intros HR Hb HR1 ->. destruct HG as (own & ph & HC & HK).
  destruct (Chains_dec _ _ _ _ _ _ _ _ HC HR) as (i & Hi & HC').
  assert (forall x, next_of (<[b := set_active (wsub (active bt) 1) bt]> h) x = next_of h x) as Hn.
  { intros [b' j]. unfold next_of, entry_at; simpl. destruct (decide (b' = b)) as [->|].
    + by rewrite lookup_insert_eq, Hb.
    + by rewrite lookup_insert_ne. }
  case_decide as Ha; eexists (delete (b, i) own), _.
  - split; [|eapply Counts_dec_last; eauto; by rewrite HR1].
    apply (Chains_ext _ (upd t d (RTrav n) R) _ H _ h); try done. intros t' d'.
    unfold upd at 1. case_decide as E; [|done]. destruct E as [-> ->].
    rewrite upd_ne by lia. by rewrite HR1.
  - split; [|eapply Counts_dec; eauto]. by apply (Chains_ext _ (upd t d (RTrav n) R) _ H _ h).
Qed.

Lemma G_free t d b :
  R t d = RFree b -> GInv (upd t d RNone R) H L (delete b h) (bx ∖ {[b]}).
Proof.
  intros HR. destruct HG as (own & ph & HC & HK).
  destruct (Counts_free _ _ _ _ _ _ _ HK _ _ _ HR) as [Hz HK'].
  eexists own, _. split; [|done]. eapply Chains_ext; [|done| |done].
  - intros t' d'. apply chain_role_upd. by rewrite HR.
  - intros [b' j] Hx. unfold next_of, entry_at; simpl.
    rewrite lookup_delete_ne; [done|]. intros ->. rewrite Hz in Hx. by destruct Hx.
Qed.

(** ** Entries linked in the list of a slot *)

Definition slot_link (r : slot) (x : ref) : Prop :=
  exists l, links h (list_of (H r)) l /\ x ∈ l.

Lemma slot_link_own own r x : Chains own R H h -> slot_link r x -> own !! x = Some (OwnSlot r).
Proof.
  intros HC (l & Hl & Hx). destruct (c_slot _ _ _ _ HC r) as (l' & Hl' & _ & Hx').
  apply Hx'. by rewrite (links_det _ _ _ _ Hl' Hl).
Qed.

(** A batch with a linked entry is neither local nor being freed, and its
    count does not let it become so. *)
Lemma slot_link_batch r x :
  slot_link r x ->
  x.1 ∈ bx /\ (forall r', L r' <> Some (BPtr x.1)) /\ (forall t d, R t d <> RFree x.1) /\
  (forall t d i m act, R t d = RRet x.1 i (S i) m act -> x.2 <> i).
Proof.
  intros Hl. destruct HG as (own & ph & HC & HK). pose proof (slot_link_own _ _ _ HC Hl) as Ho.
  assert (is_Some (own !! (x.1, x.2))) as Hs by (destruct x; eauto).
  pose proof (k_own _ _ _ _ _ _ _ HK _ Hs) as [e He]. unfold entry_at in He; simpl in He.
  destruct (h !! x.1) as [bt|] eqn:Hb; [|done]. split_and!.
  - by destruct (k_batch _ _ _ _ _ _ _ HK _ _ Hb).
  - intros r' HL. destruct (k_local_heap _ _ _ _ _ _ _ HK _ _ HL) as (_ & _ & _ & _ & Hn).
    rewrite Hn in Hs. by destruct Hs.
  - intros t d HR. destruct (Counts_free _ _ _ _ _ _ _ HK _ _ _ HR) as [Hn _].
    rewrite Hn in Hs. by destruct Hs.
  - intros t d i m act HR Hi. assert (retires (R t d) x.1) as [Hr Hnf]%retires_batch by by rewrite HR.
    destruct (k_retiring_heap _ _ _ _ _ _ _ HK _ _ _ Hr Hnf) as (bt0 & _ & _ & _ & Hret).
    rewrite HR in Hret. destruct Hret as (_ & _ & _ & _ & Hj & _). apply Hj in Hs. lia.
Qed.

Lemma slot_link_finish r x t d act bt :
  slot_link r x -> R t d = RFin x.1 act -> h !! x.1 = Some bt -> wadd (active bt) act <> 0.
Proof.
  intros Hl HR Hb Hz. destruct HG as (own & ph & HC & HK).
  pose proof (slot_link_own _ _ _ HC Hl) as Ho.
  assert (retires (R t d) x.1) as [Hr Hnf]%retires_batch by by rewrite HR.
  destruct (k_retiring_heap _ _ _ _ _ _ _ HK _ _ _ Hr Hnf) as (bt0 & ? & _ & _ & Hret). simplify_eq.
  rewrite HR in Hret. destruct Hret as (_ & Hw & _). rewrite Hz in Hw.
  assert (refs own x.1 = 0%nat) as Hn by lia. rewrite refs_0 in Hn.
  specialize (Hn x.2). destruct x as [b j]; simpl in *. congruence.
Qed.

Lemma slot_link_dec r x t d n bt :
  slot_link r x -> R t d = RDec n x.1 -> h !! x.1 = Some bt -> active bt <> 1.
Proof.
  intros Hl HR Hb Ha. destruct HG as (own & ph & HC & HK).
  pose proof (slot_link_own _ _ _ HC Hl) as Ho. destruct x as [b j]; simpl in *.
  destruct (Chains_dec _ _ _ _ _ _ _ _ HC HR) as (i & Hi & HC').
  destruct (k_batch _ _ _ _ _ _ _ HK _ _ Hb) as [_ Hok].
  assert (is_Some (own !! (b, i))) as His by eauto.
  destruct (k_referenced _ _ _ _ _ _ _ HK _ _ _ His Hb) as [[_ Hrefs]|(t' & d' & _ & Hret)];
    [|by destruct (retiring_active _ _ _ _ _ Hok Hret)].
  pose proof (refs_delete own (b, i) b His) as Hdel. rewrite decide_True in Hdel by done.
  assert (refs (delete (b, i) own) b = 0%nat) as Hz by lia. rewrite refs_0 in Hz.
  specialize (Hz j). rewrite lookup_delete_ne in Hz; [congruence|].
  intros [= ->]. rewrite Hi in Ho. done.
Qed.

(** The last reference is never dropped while the batch is being retired. *)
Lemma G_dec_last_retire t d n b bt t' d' :
  R t d = RDec n b -> h !! b = Some bt -> active bt = 1 -> ~ retires (R t' d') b.
Proof.
  intros HR Hb Ha [Hr Hnf]%retires_batch. destruct HG as (own & ph & HC & HK).
  destruct (k_retiring_heap _ _ _ _ _ _ _ HK _ _ _ Hr Hnf) as (bt0 & ? & Hok & _ & Hret). simplify_eq.
  by apply (retiring_active _ _ _ _ _ Hok Hret).
Qed.

End GInvOps.
