(* ===== verification/RawInv.v ===== *)
(** * The invariant of the raw collector

    [Inv] holds of every state the machine of [RawStep.v] can reach under the
    contract of the operations. It has a structural part (the tables are well
    formed, every frame is at a point its function can be at, a slot is used by
    one frame, a buffered store belongs to an inactive head) and the ownership
    part of [RawGhost.v]. [RawPreserve.v] shows for each frame that its step is
    defined, hence touches no dangling memory, and keeps the invariant. *)

From stdpp Require Import prelude list gmap.
From S2P Require Import Prelude Alloc ThreadId Membarrier Tls RawData RawStep RawGhost.

Open Scope Z_scope.

(** ** Frames by height *)

Definition frame_at (fs : list frame) (d : nat) : option frame := reverse fs !! d.

Lemma frame_at_app fs rest d :
  frame_at (fs ++ rest) d =
    if decide (d < length rest)%nat then frame_at rest d else frame_at fs (d - length rest).
Proof.
  unfold frame_at. rewrite reverse_app. case_decide as Hd.
  - rewrite lookup_app_l; [done|by rewrite length_reverse].
  - rewrite lookup_app_r by (rewrite length_reverse; lia). by rewrite length_reverse.
Qed.

Lemma frame_at_lt fs d fr : frame_at fs d = Some fr -> (d < length fs)%nat.
Proof. intros Hl%lookup_lt_Some. by rewrite length_reverse in Hl. Qed.

Lemma frame_at_ge fs d : (length fs <= d)%nat -> frame_at fs d = None.
Proof. intros Hd. apply lookup_ge_None. by rewrite length_reverse. Qed.

Lemma elem_of_frames fs fr : fr ∈ fs <-> exists d, frame_at fs d = Some fr.
Proof. unfold frame_at. rewrite <-list_elem_of_lookup. symmetry. apply elem_of_reverse. Qed.

Lemma frame_at_1 f d : frame_at [f] d = if decide (d = 0)%nat then Some f else None.
Proof. by destruct d. Qed.

Lemma frame_at_2 f1 f2 d :
  frame_at [f2; f1] d = if decide (d = 0)%nat then Some f1 else if decide (d = 1)%nat then Some f2 else None.
Proof. by destruct d as [|[|d]]. Qed.

(** ** The structural invariant *)

Section RawInv.
Context {A : Type} `{Allocator A} `{BoxVec A}.
Context `{EntryLayout Reservation} `{EntryLayout LocalBatch}.
Variables (plat : Platform) (batch_size : Z).

Abbreviation rstate := (raw_state A).
Implicit Types (s : rstate) (r : slot) (t d : nat).

Definition role_at s t d : role := from_option role_of RNone (frame_at (stack s t) d).

Definition load_pc_ok {T} `{EntryLayout T} (tl : ThreadLocal T) (th : Thread) (pc : load_pc) : Prop :=
  match pc with
  | LEntry => bucket_ready tl (thread_slot th).1
  | LCas _ => exists l, bucket_layout (T:=T) (bucket_capacity (bucket th)) = Ok l
  | _ => True
  end.

(** The first [n] entries of the batch hold locations of reservations. *)
Definition marks s (b : Z) (n : nat) : Prop :=
  exists bt, heap s !! b = Some bt /\ (n <= length (entries bt))%nat /\
    forall j, (j < n)%nat -> marked_at (head_of s) bt j.

Definition try_ok s r (pc : try_pc) : Prop :=
  match pc with
  | TStrategy | TBarrier _ | TBatch => True
  | TScan b m ipc it =>
      local_of s r = Some (BPtr b) /\ marks s b m /\ iter_ok it /\ iter_pc_ok (reservations s) ipc it
  | TMark b m it r' =>
      local_of s r = Some (BPtr b) /\ marks s b m /\ iter_ok it /\ is_Some (head_of s r')
  | TReset b m => local_of s r = Some (BPtr b) /\ marks s b m
  end.

(** The reservation is inactive and no store to it is pending. *)
Definition idle s r : Prop := head_of s r = Some INACTIVE /\ buffers s !! r = None.

Definition frame_ok s (f : frame) : Prop :=
  match f with
  | FLoad k th pc =>
      thread_wf th /\
      match k with
      | KReservation => load_pc_ok (reservations s) th pc
      | _ => load_pc_ok (batches s) th pc
      end
  | FAdd r _ _ | FReserve r => is_Some (local_of s r)
  | FTry r pc => is_Some (local_of s r) /\ try_ok s r pc
  | FCas _ m i _ r _ => is_Some (head_of s r) /\ (i < m)%nat
  | FEnter r => idle s r
  | FEnterStore r o => idle s r /\ (o = SeqCst \/ (o = Relaxed /\ fast plat (strategy s)))
  | FLeave r | FRefresh r | FRet (RReservation r) => is_Some (head_of s r)
  | FAll _ _ | FAllBatch _ _ | FAllReset _ _ => False
  | _ => True
  end.

Record SInv s : Prop := {
  i_res : tl_wf (reservations s);
  i_bat : tl_wf (batches s);
  i_strategy : strategy_ok (strategy s);
  i_buffers r t : buffers s !! r = Some t ->
    head_of s r = Some INACTIVE /\ fast plat (strategy s);
  i_frames t d f : frame_at (stack s t) d = Some f -> frame_ok s f;
  i_excl t1 d1 f1 t2 d2 f2 r :
    frame_at (stack s t1) d1 = Some f1 -> frame_at (stack s t2) d2 = Some f2 ->
    uses f1 = Some r -> uses f2 = Some r -> t1 = t2 /\ d1 = d2
}.

(** ** What a step leaves alone

    [u] is the slot used by the frame that runs. *)
Record stable (u : option slot) s s' : Prop := {
  st_res b : bucket_ready (reservations s) b -> bucket_ready (reservations s') b;
  st_bat b : bucket_ready (batches s) b -> bucket_ready (batches s') b;
  st_head r : is_Some (head_of s r) -> is_Some (head_of s' r);
  st_idle r : Some r <> u -> idle s r -> idle s' r;
  st_local r : Some r <> u -> is_Some (local_of s r) -> local_of s' r = local_of s r;
  st_heap r b : Some r <> u -> local_of s r = Some (BPtr b) -> heap s' !! b = heap s !! b;
  st_fast : fast plat (strategy s) -> fast plat (strategy s')
}.

Lemma marked_at_stable u s s' bt j : stable u s s' ->
  marked_at (head_of s) bt j -> marked_at (head_of s') bt j.
Proof. intros Hst. apply marked_at_mono. apply (st_head _ _ _ Hst). Qed.

Lemma marks_stable u s s' r b n :
  stable u s s' -> Some r <> u -> local_of s r = Some (BPtr b) -> marks s b n -> marks s' b n.
Proof.
  intros Hst Hr HL (bt & Hb & Hn & Hm). exists bt.
  rewrite (st_heap _ _ _ Hst r b Hr HL). split_and!; try done.
  intros j Hj. eapply marked_at_stable; eauto.
Qed.

Lemma iter_pc_ok_stable u s s' ipc it :
  stable u s s' -> iter_pc_ok (reservations s) ipc it -> iter_pc_ok (reservations s') ipc it.
Proof. intros Hst. destruct ipc; [done|]. intros [? ?]. split; [done|]. by apply (st_res _ _ _ Hst). Qed.

Lemma try_ok_stable u s s' r pc :
  stable u s s' -> Some r <> u -> is_Some (local_of s r) -> try_ok s r pc -> try_ok s' r pc.
Proof.
  intros Hst Hr HL. pose proof (st_local _ _ _ Hst r Hr HL) as E.
  destruct pc as [| | |b m ipc it|b m it r'|b m]; simpl; try done; rewrite E.
  - intros (? & ? & ? & ?). split_and!; try done; [by eapply marks_stable|by eapply iter_pc_ok_stable].
  - intros (? & ? & ? & ?). split_and!; try done; [by eapply marks_stable|by eapply st_head].
  - intros (? & ?). split; [done|by eapply marks_stable].
Qed.

Lemma frame_ok_stable u s s' f :
  stable u s s' -> (forall r, uses f = Some r -> Some r <> u) -> frame_ok s f -> frame_ok s' f.
Proof.
  intros Hst Hu. destruct f as [k th pc|r p f|r|th|r pc| | | |r|r o|r|r| | | | | | | |[]]; simpl in *; try done.
  - intros [Hwf Hpc]. split; [done|]. destruct k, pc; simpl in *; try done;
      by eapply st_res || by eapply st_bat.
  - intros HL. erewrite st_local; eauto.
  - intros HL. erewrite st_local; eauto.
  - intros [HL Hpc]. split; [erewrite st_local; eauto|]. eapply try_ok_stable; eauto.
  - intros [? ?]. split; [by eapply st_head|done].
  - eapply st_idle; eauto.
  - intros [? Ho]. split; [eapply st_idle; eauto|].
    destruct Ho as [|[? ?]]; [by left|right]. split; [done|by eapply st_fast].
  - by eapply st_head.
  - by eapply st_head.
  - by eapply st_head.
Qed.

Lemma stack_goto t fs s t' : stack (goto t fs s) t' = if decide (t' = t) then fs else stack s t'.
Proof.
  unfold stack, goto; simpl. case_decide; [by subst; rewrite lookup_insert_eq|].
  by rewrite lookup_insert_ne.
Qed.

(** Frames of the state after a step of [t], whose frames [old] became [fs]. *)
Lemma frame_at_goto t fs rest s t' d f :
  frame_at (stack (goto t (fs ++ rest) s) t') d = Some f ->
  (t' = t /\ (length rest <= d)%nat /\ frame_at fs (d - length rest) = Some f) \/
  ((t' = t -> (d < length rest)%nat) /\
    frame_at (if decide (t' = t) then rest else stack s t') d = Some f).
Proof.
  rewrite stack_goto. case_decide as Ht.
  - rewrite frame_at_app. case_decide; [by right|]. left. split_and!; [done|lia|done].
  - by right.
Qed.

(** The frames kept by a step of [t] do not use [r]. *)
Definition unused_below s t (rest : list frame) r : Prop :=
  forall t' d f, frame_at (if decide (t' = t) then rest else stack s t') d = Some f ->
    uses f <> Some r.

Lemma frame_at_below s t old rest t' d f :
  stack s t = old ++ rest ->
  frame_at (if decide (t' = t) then rest else stack s t') d = Some f ->
  frame_at (stack s t') d = Some f.
Proof.
  intros Hs. case_decide as Ht; [|done]. subst t'. intros Hf. rewrite Hs, frame_at_app.
  rewrite decide_True; [done|]. by eapply frame_at_lt.
Qed.

Lemma SInv_goto s s1 t old fs rest u :
  SInv s -> stack s t = old ++ rest -> threads s1 = threads s -> stable u s s1 ->
  (forall r, u = Some r -> unused_below s t rest r) ->
  tl_wf (reservations s1) -> tl_wf (batches s1) -> strategy_ok (strategy s1) ->
  (forall r t', buffers s1 !! r = Some t' ->
    head_of s1 r = Some INACTIVE /\ fast plat (strategy s1)) ->
  (forall f, f ∈ fs -> frame_ok s1 f) ->
  (forall f r, f ∈ fs -> uses f = Some r -> unused_below s t rest r) ->
  (forall f, f ∈ tail fs -> uses f = None) ->
  SInv (goto t (fs ++ rest) s1).
Proof.
  intros HS Hstk Hth Hst Hu Hr1 Hb1 Hs1 Hbuf Hfs Hnew Htl.
  assert (forall t', stack s1 t' = stack s t') as Es by (intros; unfold stack; by rewrite Hth).
  constructor; try done.
  - intros t' d f [(-> & _ & Hf)|[_ Hf]]%frame_at_goto.
    + change (frame_ok s1 f). apply Hfs, elem_of_frames. eauto.
    + rewrite Es in Hf. change (frame_ok s1 f).
      assert (frame_at (stack s t') d = Some f) as Hf' by by eapply frame_at_below.
      eapply frame_ok_stable; [done| |by eapply (i_frames _ HS)].
      intros r Huse Hru. symmetry in Hru. by apply (Hu r Hru _ _ _ Hf).
  - assert (forall d f r, frame_at fs d = Some f -> uses f = Some r -> d = (length fs - 1)%nat) as Htop.
    { intros d f r Hf Huse. destruct fs as [|f0 fs]; [by destruct d|].
      rewrite (frame_at_app [f0] fs) in Hf. case_decide.
      - rewrite (Htl f) in Huse; [done|]. apply elem_of_frames. eauto.
      - rewrite frame_at_1 in Hf. case_decide; [simpl; lia|done]. }
    intros t1 d1 f1 t2 d2 f2 r [(-> & Hd1 & F1)|[Hd1 F1]]%frame_at_goto
      [(-> & Hd2 & F2)|[Hd2 F2]]%frame_at_goto U1 U2; rewrite ?Es in *.
    + split; [done|]. pose proof (Htop _ _ _ F1 U1). pose proof (Htop _ _ _ F2 U2). lia.
    + exfalso. eapply (Hnew f1); [apply elem_of_frames; eauto|done|done|done].
    + exfalso. eapply (Hnew f2); [apply elem_of_frames; eauto|done|done|done].
    + eapply (i_excl _ HS); [by eapply frame_at_below|by eapply frame_at_below|done|done].
Qed.

Lemma role_at_goto s s1 t old fs rest t' d :
  stack s t = old ++ rest -> threads s1 = threads s ->
  role_at (goto t (fs ++ rest) s1) t' d =
    if decide (t' = t /\ (length rest <= d)%nat)
    then from_option role_of RNone (frame_at fs (d - length rest)) else role_at s t' d.
Proof.
  intros Hs Hth. assert (stack s1 t' = stack s t') as Es by (unfold stack; by rewrite Hth).
  unfold role_at. rewrite stack_goto. case_decide as Ht.
  - subst t'. rewrite frame_at_app. destruct (decide (d < length rest)%nat).
    + rewrite decide_False by lia. rewrite Hs, frame_at_app, decide_True; done.
    + by rewrite decide_True by lia.
  - rewrite decide_False by (by intros [? _]). by rewrite Es.
Qed.

Lemma frame_at_top s t f rest : stack s t = f :: rest -> frame_at (stack s t) (length rest) = Some f.
Proof.
  intros Hs. rewrite Hs, (frame_at_app [f] rest), decide_False by lia.
  by rewrite frame_at_1, decide_True by lia.
Qed.

(** The lowest of the new frames. *)
Lemma frame_at_goto_1 t f rest s :
  frame_at (stack (goto t (f :: rest) s) t) (length rest) = Some f.
Proof. apply frame_at_top. by rewrite stack_goto, decide_True. Qed.

Lemma frame_at_goto_2 t f1 f2 rest s :
  frame_at (stack (goto t (f2 :: f1 :: rest) s) t) (length rest) = Some f1.
Proof.
  rewrite stack_goto, decide_True by done.
  by rewrite (frame_at_app [f2; f1] rest), decide_False, frame_at_2, decide_True by lia.
Qed.

Lemma role_at_top s t f rest : stack s t = f :: rest -> role_at s t (length rest) = role_of f.
Proof.
  intros Hs. unfold role_at. rewrite Hs, (frame_at_app [f] rest), decide_False by lia.
  by rewrite frame_at_1, decide_True by lia.
Qed.

Lemma role_at_above s t d : (length (stack s t) <= d)%nat -> role_at s t d = RNone.
Proof. intros Hd. unfold role_at. by rewrite frame_at_ge. Qed.

Lemma unused_top s t f rest r :
  SInv s -> stack s t = f :: rest -> uses f = Some r -> unused_below s t rest r.
Proof.
  intros HS Hs Hu t' d f' Hf Hu'.
  assert (frame_at (stack s t') d = Some f') as Hf'
    by (eapply (frame_at_below s t [f] rest); [exact Hs|exact Hf]).
  pose proof (frame_at_top _ _ _ _ Hs) as Ht.
  destruct (i_excl _ HS _ _ _ _ _ _ _ Ht Hf' Hu Hu') as [<- <-].
  rewrite decide_True in Hf by done. apply frame_at_lt in Hf. lia.
Qed.

End RawInv.

(** ** The invariant *)

Section Inv.
Context {A : Type} `{Allocator A} `{BoxVec A} `{!BoxVecLaws A}.
Context `{EntryLayout Reservation} `{EntryLayout LocalBatch}.
Variables (plat : Platform) (batch_size : Z).

Abbreviation rstate := (raw_state A).
Abbreviation SInv := (SInv plat).
Abbreviation frame_ok := (frame_ok plat).
Abbreviation stable := (stable plat).
Implicit Types (s : rstate) (r : slot) (t d : nat).

Definition Inv s : Prop :=
  in_usize batch_size /\ SInv s /\
  GInv (role_at s) (head_of s) (local_of s) (heap s) (boxes (alloc s)).

Lemma stable_refl u s : stable u s s.
Proof. by constructor. Qed.

Lemma stable_trans u s1 s2 s3 : stable u s1 s2 -> stable u s2 s3 -> stable u s1 s3.
Proof.
  intros H12 H23. constructor; intros.
  - by eapply st_res, st_res.
  - by eapply st_bat, st_bat.
  - by eapply st_head, st_head.
  - by eapply st_idle, st_idle.
  - erewrite (st_local _ _ _ _ H23), (st_local _ _ _ _ H12); try done.
    by erewrite (st_local _ _ _ _ H12).
  - erewrite (st_heap _ _ _ _ H23), (st_heap _ _ _ _ H12); try done.
    erewrite (st_local _ _ _ _ H12); eauto.
  - by eapply st_fast, st_fast.
Qed.

Record sane s : Prop := {
  sn_res : tl_wf (reservations s);
  sn_bat : tl_wf (batches s);
  sn_strategy : strategy_ok (strategy s);
  sn_buffers r t : buffers s !! r = Some t ->
    head_of s r = Some INACTIVE /\ fast plat (strategy s)
}.

Lemma SInv_sane s : SInv s -> sane s.
Proof. by intros []. Qed.

(** [fs] continues the frame [f0]: at most its first frame uses a slot. *)
Definition continues (f0 : frame) (fs : list frame) : Prop :=
  match fs with
  | [] => True
  | f :: fs => (uses f = None \/ uses f = uses f0) /\ Forall (fun f => uses f = None) fs
  end.

Definition roles_after (t n : nat) (fs : list frame) (R : roles) : roles :=
  fun t' d => if decide (t' = t /\ (n <= d)%nat)
              then from_option role_of RNone (frame_at fs (d - n)) else R t' d.

(** The step of a frame. *)
Lemma Inv_run s s1 t f0 fs rest R1 :
  Inv s -> stack s t = f0 :: rest -> threads s1 = threads s -> stable (uses f0) s s1 -> sane s1 ->
  continues f0 fs -> Forall (frame_ok s1) fs ->
  GInv R1 (head_of s1) (local_of s1) (heap s1) (boxes (alloc s1)) ->
  (forall t' d, role_eqv (R1 t' d) (roles_after t (length rest) fs (role_at s) t' d)) ->
  Inv (goto t (fs ++ rest) s1).
Proof.
  intros (Hbs & HS & HG) Hs Hth Hst Hsane Hc Hok HG1 HR. split; [done|].
  assert (forall r, uses f0 = Some r -> unused_below s t rest r) as Hun
    by (intros; by eapply unused_top).
  destruct Hsane. split.
  - apply (SInv_goto plat s s1 t [f0] fs rest (uses f0)); try done.
    + intros f Hf. by eapply Forall_forall in Hok.
    + intros f r Hf Hu. destruct fs as [|f1 fs]; [by apply elem_of_nil in Hf|].
      destruct Hc as [Hc1 Hc2]. apply elem_of_cons in Hf as [->|Hf].
      * apply Hun. destruct Hc1; congruence.
      * eapply Forall_forall in Hc2; [|done]. simpl in Hc2. congruence.
    + intros f Hf. destruct fs as [|f1 fs]; [by apply elem_of_nil in Hf|].
      destruct Hc as [_ Hc2]. by eapply Forall_forall in Hc2.
  - eapply GInv_eq; [done| |done..]. intros t' d.
    rewrite (role_at_goto s s1 t [f0] fs rest) by done. apply HR.
Qed.

Lemma roles_after_0 t n (R : roles) t' d :
  (forall d, (n < d)%nat -> R t d = RNone) -> roles_after t n [] R t' d = upd t n RNone R t' d.
Proof.
  intros Hn. unfold roles_after, upd. destruct (decide (t' = t)) as [->|].
  - destruct (decide (n <= d)%nat); [|by rewrite !decide_False by lia].
    rewrite decide_True by done. simpl. case_decide; [done|]. rewrite Hn; [done|lia].
  - by rewrite !decide_False by (by intros []).
Qed.

Lemma roles_after_1 t n f (R : roles) t' d :
  (forall d, (n < d)%nat -> R t d = RNone) ->
  roles_after t n [f] R t' d = upd t n (role_of f) R t' d.
Proof.
  intros Hn. unfold roles_after, upd. destruct (decide (t' = t)) as [->|].
  - destruct (decide (n <= d)%nat); [|by rewrite !decide_False by lia].
    rewrite decide_True, frame_at_1 by done.
    destruct (decide (d = n)) as [->|].
    + by rewrite !decide_True by lia.
    + rewrite !decide_False by lia. symmetry. apply Hn. lia.
  - by rewrite !decide_False by (by intros []).
Qed.

Lemma roles_after_2 t n f1 f2 (R : roles) t' d :
  (forall d, (n < d)%nat -> R t d = RNone) ->
  roles_after t n [f2; f1] R t' d = upd t (S n) (role_of f2) (upd t n (role_of f1) R) t' d.
Proof.
  intros Hn. unfold roles_after, upd. destruct (decide (t' = t)) as [->|].
  - destruct (decide (n <= d)%nat); [|by rewrite !decide_False by lia].
    rewrite decide_True, frame_at_2 by done.
    destruct (decide (d = n)) as [->|]; [|destruct (decide (d = S n)) as [->|]].
    + by rewrite decide_True, decide_False, decide_True by lia.
    + by rewrite decide_False, !decide_True by lia.
    + rewrite !decide_False by lia. symmetry. apply Hn. lia.
  - by rewrite !decide_False by (by intros []).
Qed.

Lemma role_above s t f rest d :
  stack s t = f :: rest -> (length rest < d)%nat -> role_at s t d = RNone.
Proof. intros Hs Hd. apply role_at_above. rewrite Hs. simpl. lia. Qed.

(** A step that only changes the stack. *)
Lemma Inv_pure s t f0 fs rest :
  Inv s -> stack s t = f0 :: rest -> continues f0 fs -> Forall (frame_ok s) fs ->
  (forall d, role_eqv (from_option role_of RNone (frame_at [f0] d))
               (from_option role_of RNone (frame_at fs d))) ->
  Inv (goto t (fs ++ rest) s).
Proof.
  intros HI Hs Hc Hok HR. pose proof HI as (_ & HS & HG).
  eapply Inv_run; try done; [by apply SInv_sane|].
  intros t' d. unfold roles_after. case_decide as Ht; [|by left].
  destruct Ht as [-> Hd]. unfold role_at. rewrite Hs, (frame_at_app [f0] rest), decide_False by lia.
  apply HR.
Qed.

End Inv.
