(* ===== verification/RawPreserve.v ===== *)
(** * Every step of the raw collector is defined and keeps its invariant

    One lemma per kind of frame; [run_frame_safe] and [Inv_step] put them
    together: a call that respects the contract keeps [Inv], and a thread
    inside the collector can always take its next step. *)

From stdpp Require Import prelude list gmap.
From S2P Require Import Prelude Alloc ThreadId Membarrier Tls RawData RawStep RawGhost RawInv.

Open Scope Z_scope.

Section LoadOk.
Context {T A : Type} `{EntryLayout T} `{Allocator A} `{BoxVec A} `{!BoxVecLaws A}.
Implicit Types (tl : ThreadLocal T).

Lemma allocate_bucket_boxes (a a' : A) n r :
  allocate_bucket (T:=T) a n = (a', r) ->
  boxes a' = boxes a /\ (forall bk, r = Ok bk -> exists l, bucket_layout (T:=T) n = Ok l).
Proof.
  unfold allocate_bucket. destruct (bucket_layout n) as [l|]; [|by intros [= <- <-]].
  unfold allocate. destruct (al_allocate a l) as [a1 [p|]] eqn:E;
    apply allocate_boxes in E; intros [= <- <-]; (split; [done|eauto]).
Qed.

(** What one access of [load] does to a table. *)
Definition load_effect th create tl tl' : Prop :=
  tl_wf tl' /\ (forall b, bucket_ready tl b -> bucket_ready tl' b) /\
  (forall s, s <> thread_slot th -> tl_get tl' s = tl_get tl s) /\
  (tl_get tl' (thread_slot th) = tl_get tl (thread_slot th) \/
   (tl_get tl (thread_slot th) = None /\ tl_get tl' (thread_slot th) = Some create)).

Lemma load_effect_refl th (create : T) tl : tl_wf tl -> load_effect th create tl tl.
Proof. unfold load_effect. auto. Qed.

Lemma load_step_ok (create : T) th pc tl (a : A) :
  tl_wf tl -> thread_wf th -> load_pc_ok tl th pc ->
  exists a' tl' r, load_step create th pc tl a = Some (a', tl', r) /\
    load_effect th create tl tl' /\ boxes a' = boxes a /\
    match r with
    | LMore pc' => load_pc_ok tl' th pc'
    | LDone s => s = thread_slot th /\ is_Some (tl_get tl' s)
    | LErr => True
    end.
Proof.
  intros Hwf Hth Hpc. pose proof (load_effect_refl th create tl Hwf) as Hrefl.
  destruct (thread_slot_bounds th Hth) as [Hb _]. change (Z.to_nat (bucket th)) with (thread_slot th).1 in *.
  assert (bucket_capacity (bucket th) = bucket_capacity (Z.of_nat (thread_slot th).1)) as Ecap.
  { unfold thread_slot; simpl. destruct Hth as (_ & ? & _). by rewrite Z2Nat.id by lia. }
  destruct pc as [| |p|]; simpl.
  - unfold bucket_load. destruct (buckets tl !! Z.to_nat (bucket th)) as [[bk|]|] eqn:E.
    + eexists a, tl, _. split_and!; try done. by exists bk.
    + by eexists a, tl, _.
    + apply lookup_ge_None in E. rewrite (wf_len _ Hwf) in E. by apply Nat.le_ngt in E.
  - destruct (allocate_bucket a _) as [a' [new|e]] eqn:E;
      apply allocate_bucket_boxes in E as [Ebx El]; [|by eexists a', tl, _].
    eexists a', tl, _. split_and!; try done. by apply (El new).
  - set (new := bucket_at p _).
    destruct (bucket_cas_total tl (thread_slot th).1 new Hwf Hb) as (tl' & o & E). simpl in E; rewrite E.
    assert (fresh_bucket (thread_slot th).1 new) as Hfr by (unfold new; rewrite Ecap; apply bucket_at_fresh).
    pose proof (bucket_cas_wf _ _ _ _ _ Hwf Hfr E). pose proof (bucket_cas_ready _ _ _ _ _ E) as [Hrdy Hmono].
    assert (load_effect th create tl tl') as Heff.
    { split_and!; try done; [|left]; intros; by eapply bucket_cas_get. }
    destruct o as [other|]; [|by eexists a, tl', _].
    unfold free_bucket. destruct Hpc as [l ->]. eexists _, tl', _. split_and!; try done.
    unfold deallocate. apply deallocate_boxes.
  - destruct (load_entry_spec create (thread_slot th) tl Hwf) as (tl' & E & Hwf' & Hg & Hne & Hsame).
    { by apply tl_entry_ready. }
    rewrite E. eexists a, tl', _. split; [done|]. split; [|by rewrite Hg].
    split_and!; try done.
    + intros b. unfold load_entry in E. destruct (tl_entry tl _) as [en|]; [|done].
      injection E as <-. destruct (present en); [done|]. by apply bucket_ready_alter.
    + destruct (tl_get tl (thread_slot th)) as [v|] eqn:Ev; simpl in Hg; [left; congruence|by right].
Qed.

End LoadOk.

(** Side conditions on the new frames of a step. *)
Ltac frames :=
  repeat match goal with
  | |- continues _ [] => done
  | |- continues _ (_ :: _) => split; [first [by left|by right]|]
  | |- Forall _ [] => apply Forall_nil_2
  | |- Forall _ (_ :: _) => apply Forall_cons_2
  end; try done.

Section Preserve.
Context {A : Type} `{Allocator A} `{BoxVec A} `{!BoxVecLaws A}.
Context `{EntryLayout Reservation} `{EntryLayout LocalBatch}.
Variables (plat : Platform) (batch_size : Z).

Abbreviation rstate := (raw_state A).
Abbreviation SInv := (SInv plat).
Abbreviation Inv := (Inv plat batch_size).
Abbreviation stable := (stable plat).
Abbreviation sane := (sane plat).
Implicit Types (s : rstate) (r : slot) (t d : nat) (rest : list frame).

(** The step is defined and keeps the invariant. *)
Definition safe (o : option (rstate * list event)) : Prop :=
  exists s' ev, o = Some (s', ev) /\ Inv s'.

Lemma safe_next_ev t fs rest ev s : Inv (goto t (fs ++ rest) s) -> safe (next_ev t fs rest ev s).
Proof. intros HI. by eexists _, ev. Qed.

Lemma safe_next t fs rest s : Inv (goto t (fs ++ rest) s) -> safe (next t fs rest s).
Proof. apply safe_next_ev. Qed.

Lemma Inv_top s t f rest : Inv s -> stack s t = f :: rest -> frame_ok plat s f.
Proof.
  intros (_ & HS & _) Hs. by apply (i_frames _ _ HS t (length rest)), frame_at_top.
Qed.

(** Roles of the stack after the step, for stacks of the sizes that occur. *)
Lemma roles_none t n f rest s (fs : list frame) t' d :
  stack s t = f :: rest -> n = length rest -> role_eqv (role_of f) RNone ->
  Forall (fun f => role_of f = RNone) fs ->
  role_eqv (role_at s t' d) (roles_after t n fs (role_at s) t' d).
Proof.
  intros Hs -> Hf Hfs. unfold roles_after. case_decide as Ht; [|done]. destruct Ht as [-> Hd].
  transitivity RNone.
  - destruct (decide (d = length rest)) as [->|]; [by rewrite (role_at_top _ _ _ _ Hs)|].
    by rewrite (role_above _ _ _ _ _ Hs) by lia.
  - destruct (frame_at fs _) as [f'|] eqn:E; [|done]. simpl.
    assert (f' ∈ fs) as Hin by (apply elem_of_frames; eauto).
    eapply Forall_forall in Hfs; [|done]. by rewrite Hfs.
Qed.

Lemma step_load_reservation_safe s t th pc rest :
  Inv s -> stack s t = FLoad KReservation th pc :: rest ->
  safe (step_load t KReservation th pc rest s).
Proof.
  intros HI Hs. destruct (Inv_top _ _ _ _ HI Hs) as [Hth Hpc]. pose proof HI as (_ & HS & HG).
  destruct (load_step_ok Reservation_default th pc (reservations s) (alloc s) (i_res _ _ HS) Hth Hpc)
    as (a & tl & r & Hstep & (Hwf & Hmono & Hne & Hown) & Hbx & Hr).
  unfold step_load. rewrite Hstep.
  set (s1 := set_alloc a (set_reservations tl s)).
  assert (forall r', r' <> thread_slot th -> head_of s1 r' = head_of s r') as Hne'.
  { intros r' Hr'. unfold head_of; simpl. by rewrite Hne. }
  assert (head_of s1 (thread_slot th) = head_of s (thread_slot th) \/
    (head_of s (thread_slot th) = None /\ head_of s1 (thread_slot th) = Some INACTIVE)) as Hown'.
  { unfold head_of; simpl. destruct Hown as [->|[-> ->]]; auto. }
  assert (forall r', is_Some (head_of s r') -> head_of s1 r' = head_of s r') as Hmono'.
  { intros r' Hr'. destruct (decide (r' = thread_slot th)) as [->|]; [|by apply Hne'].
    destruct Hown' as [|[E _]]; [done|]. rewrite E in Hr'. by destruct Hr'. }
  assert (forall fs, continues (FLoad KReservation th pc) fs -> Forall (frame_ok plat s1) fs ->
    Forall (fun f => role_of f = RNone) fs -> Inv (goto t (fs ++ rest) s1)) as Hgo.
  { intros fs Hc Hok Hrn. eapply Inv_run; try done.
    - constructor; try done.
      + intros r' Hr'. by rewrite Hmono'.
      + intros r' _ [Hi Hb]. split; [rewrite Hmono' by eauto; done|done].
    - constructor; try apply HS; [done|]. intros r' t' Hb. simpl in Hb.
      destruct (i_buffers _ _ HS _ _ Hb) as [? ?]. split; [rewrite Hmono' by eauto; done|done].
    - eapply GInv_ext; [done|intros; by eapply roles_none| | |done| |simpl; by rewrite Hbx].
      + intros r'. destruct (decide (r' = thread_slot th)) as [->|]; [|by rewrite Hne'].
        destruct Hown' as [->|[-> ->]]; done.
      + intros r' Hr'. by rewrite Hmono'.
      + by eapply G_no_drop. }
  destruct r as [pc'|r'|]; apply safe_next, Hgo; try by frames.
  apply Forall_cons_2; [|by frames]. destruct Hr as [_ [v Hv]]. simpl. unfold head_of; simpl. rewrite Hv. by eexists.
Qed.

Lemma step_load_batch_safe s t k th pc rest :
  k <> KReservation -> Inv s -> stack s t = FLoad k th pc :: rest ->
  safe (step_load t k th pc rest s).
Proof.
  intros Hk HI Hs. destruct (Inv_top _ _ _ _ HI Hs) as [Hth Hpc0]. pose proof HI as (_ & HS & HG).
  assert (load_pc_ok (batches s) th pc) as Hpc by (by destruct k).
  destruct (load_step_ok LocalBatch_default th pc (batches s) (alloc s) (i_bat _ _ HS) Hth Hpc)
    as (a & tl & r & Hstep & (Hwf & Hmono & Hne & Hown) & Hbx & Hr).
  set (s1 := set_alloc a (set_batches tl s)).
  assert (local_of s1 (thread_slot th) = local_of s (thread_slot th) \/
    (local_of s (thread_slot th) = None /\ local_of s1 (thread_slot th) = Some BNull)) as Hown'.
  { unfold local_of; simpl. destruct Hown as [->|[-> ->]]; auto. }
  assert (forall r', local_of s1 r' = local_of s r' \/
    (local_of s r' = None /\ local_of s1 r' = Some BNull)) as Hall.
  { intros r'. destruct (decide (r' = thread_slot th)) as [->|]; [done|left].
    unfold local_of; simpl. by rewrite Hne. }
  assert (forall fs, continues (FLoad k th pc) fs -> Forall (frame_ok plat s1) fs ->
    Forall (fun f => role_of f = RNone) fs -> Inv (goto t (fs ++ rest) s1)) as Hgo.
  { intros fs Hc Hok Hrn. eapply Inv_run; try done.
    - constructor; try done. intros r' _ Hr'. destruct (Hall r') as [|[E _]]; [done|].
      rewrite E in Hr'. by destruct Hr'.
    - constructor; try apply HS; done.
    - eapply GInv_ext; [done|intros; by eapply roles_none|done|done| | |simpl; by rewrite Hbx].
      + intros r' b. destruct (Hall r') as [->|[-> ->]]; done.
      + intros r'. destruct (Hall r') as [->|[_ ->]]; [by eapply G_no_drop|done]. }
  assert (is_Some (tl_get tl (thread_slot th)) -> is_Some (local_of s1 (thread_slot th))) as Hsome.
  { intros Hx. unfold local_of; simpl. by rewrite fmap_is_Some. }
  unfold step_load. destruct k as [|p f|]; [done| |]; rewrite Hstep;
    (destruct r as [pc'|r'|]; [|destruct Hr as [-> ?]|]; apply safe_next, Hgo; frames; by apply Hsome).
Qed.

Lemma step_load_safe s t k th pc rest :
  Inv s -> stack s t = FLoad k th pc :: rest -> safe (step_load t k th pc rest s).
Proof.
  intros HI Hs. destruct k;
    [by apply step_load_reservation_safe|by apply step_load_batch_safe..].
Qed.

(** ** [add] and [reserve] *)

Lemma local_of_store r b s r' :
  local_of (store_local r b s) r' = if decide (r = r') then (fun _ => b) <$> local_of s r' else local_of s r'.
Proof.
  unfold local_of; simpl. rewrite tl_get_modify. case_decide; [|done]. by destruct (tl_get _ r').
Qed.

Lemma head_of_store r e s r' :
  head_of (store_head r e s) r' = if decide (r = r') then (fun _ => e) <$> head_of s r' else head_of s r'.
Proof.
  unfold head_of; simpl. rewrite tl_get_modify. case_decide; [|done]. by destruct (tl_get _ r').
Qed.

Lemma local_of_set r b s : is_Some (local_of s r) ->
  forall r', local_of (store_local r b s) r' = set_fun r b (local_of s) r'.
Proof.
  intros [v Hv] r'. rewrite local_of_store. unfold set_fun.
  destruct (decide (r = r')) as [->|]; [by rewrite decide_True, Hv|by rewrite decide_False].
Qed.

Lemma head_of_set r e s : is_Some (head_of s r) ->
  forall r', head_of (store_head r e s) r' = set_fun r e (head_of s) r'.
Proof.
  intros [v Hv] r'. rewrite head_of_store. unfold set_fun.
  destruct (decide (r = r')) as [->|]; [by rewrite decide_True, Hv|by rewrite decide_False].
Qed.

(** States that differ in what the owner of slot [r] may change: its local
    batch, the contents of that batch and the allocator. *)
Record owner_step r s s' : Prop := {
  os_threads : threads s' = threads s;
  os_res : reservations s' = reservations s;
  os_buf : buffers s' = buffers s;
  os_new b : local_of s' r = Some (BPtr b) ->
    local_of s r = Some (BPtr b) \/ ~ b ∈ boxes (alloc s);
  os_keep r' b : local_of s r' = Some (BPtr b) -> local_of s' r' = Some (BPtr b);
  os_heap b : local_of s' r <> Some (BPtr b) -> heap s' !! b = heap s !! b;
  os_stable : stable (Some r) s s';
  os_sane : sane s';
  os_G : GInv (role_at s) (head_of s') (local_of s') (heap s') (boxes (alloc s'))
}.

Lemma owner_run r s s1 t f0 fs rest :
  owner_step r s s1 -> Inv s -> stack s t = f0 :: rest -> uses f0 = Some r -> role_eqv (role_of f0) RNone ->
  continues f0 fs -> Forall (frame_ok plat s1) fs -> Forall (fun f => role_of f = RNone) fs ->
  Inv (goto t (fs ++ rest) s1).
Proof.
  intros [Hth _ _ _ _ _ Hst Hsane HG] HI Hs Hu Hr Hc Hok Hrn. rewrite <-Hu in Hst.
  eapply Inv_run; try done. intros. by eapply roles_none.
Qed.

Definition empty_batch (c : Z) : Batch := {| entries := []; capacity := c; active := 0 |}.

Lemma get_or_init_cases lb cap h (a a' : A) h' lb' res :
  0 <= cap -> get_or_init lb cap h a = (a', h', lb', res) ->
  (batch lb <> BNull /\ a' = a /\ h' = h /\ lb' = lb /\ res = Ok (batch lb)) \/
  (batch lb = BNull /\
   ((exists e, res = Err e /\ boxes a' = boxes a /\ h' = h /\ lb' = lb) \/
    (exists p c, res = Ok (BPtr p) /\ lb' = mkLocalBatch (BPtr p) /\ h' = <[p := empty_batch c]> h /\
       (p ∉ boxes a) /\ boxes a' = {[p]} ∪ boxes a /\ 0 <= c <= isize_max))).
Proof.
  intros Hcap. unfold get_or_init, Batch_new. destruct lb as [[| |b]]; simpl; [|by intros [= <- <- <- <-]; left..].
  intros Hg. right. split; [done|]. revert Hg.
  destruct (vec_try_reserve_exact a 0 0 cap) as [a1 [c|e]] eqn:Ev;
    destruct (vec_try_reserve_exact_ok _ _ _ _ _ _ Ev Hcap) as (Hbx & _ & Hc); [|].
  - destruct (Hc c eq_refl) as (Hc0 & _ & Hcm).
    destruct (box_try_new_in a1) as [a2 [p|e]] eqn:Eb; apply box_try_new_ok in Eb; intros [= <- <- <- <-].
    + right. exists p, c. destruct Eb as [Hp Ebx]. rewrite Hbx in *. split_and!; try done.
      destruct (decide (0 < c)); [auto|]. usize.
    + left. exists e. rewrite vec_drop_ok. split_and!; try done. congruence.
  - intros [= <- <- <- <-]. left. by exists e.
Qed.

Lemma owner_intro r s s' :
  Inv s -> threads s' = threads s -> reservations s' = reservations s -> buffers s' = buffers s ->
  strategy s' = strategy s -> tl_wf (batches s') ->
  (forall b, bucket_ready (batches s) b -> bucket_ready (batches s') b) ->
  (forall r', r' <> r -> local_of s' r' = local_of s r') ->
  (forall b, local_of s r = Some (BPtr b) -> local_of s' r = Some (BPtr b)) ->
  (forall b, local_of s' r = Some (BPtr b) -> local_of s r = Some (BPtr b) \/ ~ b ∈ boxes (alloc s)) ->
  (forall b, local_of s' r <> Some (BPtr b) -> heap s' !! b = heap s !! b) ->
  GInv (role_at s) (head_of s) (local_of s') (heap s') (boxes (alloc s')) ->
  owner_step r s s'.
Proof.
  intros (_ & HS & _) Hth Hres Hbuf Hstr Hwf Hmono HL Hkeep Hnew Hh HG.
  assert (forall r, head_of s' r = head_of s r) as EH by (intros; unfold head_of; by rewrite Hres).
  constructor; try done.
  - intros r' b Hb. destruct (decide (r' = r)) as [->|]; [auto|by rewrite HL].
  - constructor; try done.
    + by rewrite Hres.
    + intros r'. by rewrite EH.
    + intros r' _ [? ?]. split; [by rewrite EH|by rewrite Hbuf].
    + intros r' Hr' _. apply HL. congruence.
    + intros r' b Hr' Hb. apply Hh. intros Hb'. apply Hr'. f_equal.
      eapply (G_local_inj _ _ _ _ _ HG); [|done]. by rewrite HL by congruence.
    + by rewrite Hstr.
  - constructor; rewrite ?Hres, ?Hstr, ?Hbuf; try apply HS; [done|]. intros r' t'. rewrite EH. apply HS.
  - eapply GInv_eq; try done.
Qed.

(** The entries of a batch; none for an address that is not allocated. *)
Definition entries_of s (b : Z) : list RawData.Entry := from_option entries [] (heap s !! b).

Lemma local_get_or_init_safe r s :
  Inv s -> is_Some (local_of s r) ->
  exists s' res, local_get_or_init batch_size r s = Some (s', res) /\ owner_step r s s' /\
    (forall b, entries_of s' b = entries_of s b) /\
    match res with
    | Ok (BPtr b) => local_of s' r = Some (BPtr b)
    | Ok _ => False
    | Err _ => True
    end.
Proof.
  intros HI Hr. pose proof HI as ([Hbs _] & HS & HG). pose proof Hr as [bp Hbp].
  unfold local_of in Hbp. destruct (tl_get (batches s) r) as [lb|] eqn:El; simplify_eq/=.
  assert (local_of s r = Some (batch lb)) as Elb by (unfold local_of; by rewrite El).
  unfold local_get_or_init. rewrite El. simpl.
  destruct (get_or_init lb batch_size (heap s) (alloc s)) as [[[a h] lb'] res] eqn:Eg.
  eexists _, res. split; [done|].
  set (s' := store_local r (batch lb') (set_alloc a (set_heap h s))).
  assert (forall r', local_of s' r' = set_fun r (batch lb') (local_of s) r') as EL
    by by apply (local_of_set r (batch lb') (set_alloc a (set_heap h s))).
  assert (batch lb' = batch lb -> forall r', local_of s' r' = local_of s r') as Esame.
  { intros E r'. rewrite EL. unfold set_fun. case_decide; [|done]. subst. by rewrite Elb, E. }
  assert (local_of s' r = Some (batch lb')) as Er by (rewrite EL; unfold set_fun; by rewrite decide_True).
  assert (tl_wf (batches s')) as Hwf by by apply tl_modify_wf, HS.
  assert (forall b, bucket_ready (batches s) b -> bucket_ready (batches s') b) as Hrdy
    by by intros; apply bucket_ready_alter.
  destruct (get_or_init_cases _ _ _ _ _ _ _ _ Hbs Eg)
    as [(Hn & -> & -> & -> & ->)|(Hn & [(e & -> & Hbx & -> & ->)|(p & c & -> & -> & -> & Hp & Hbx & Hc)])].
  - specialize (Esame eq_refl). split; [|split; [done|]].
    + apply owner_intro; try done; [by rewrite Esame|rewrite Esame; by left|].
      eapply GInv_eq; [done|by left|done|by apply Esame|done].
    + destruct (batch lb) eqn:E; [done| |by rewrite Er]. by eapply G_no_drop; [|rewrite Elb].
  - specialize (Esame eq_refl). split; [|done].
    apply owner_intro; try done; [by rewrite Esame|rewrite Esame; by left|].
    eapply GInv_eq; [done|by left|done|by apply Esame|]. simpl. by rewrite Hbx.
  - split; [|split; [|done]].
    2: { intros b. unfold entries_of. simpl. destruct (decide (p = b)) as [->|].
         - rewrite lookup_insert_eq. destruct (heap s !! b) eqn:Hb; [|done].
           by destruct (G_batch _ _ _ _ _ HG _ _ Hb).
         - by rewrite lookup_insert_ne. }
    apply owner_intro; try done.
    + intros r' Hr'. rewrite EL. unfold set_fun. by rewrite decide_False.
    + rewrite Elb, Hn. done.
    + rewrite Er. simpl. intros b [= <-]. by right.
    + rewrite Er. simpl. intros b Hb. rewrite lookup_insert_ne; [done|]. congruence.
    + eapply GInv_eq; [eapply (G_new _ _ _ _ _ HG r p c); [by rewrite Elb, Hn|done..]|by left|done| |].
      * intros r'. by rewrite EL.
      * simpl. by rewrite Hbx.
Qed.

Lemma owner_heap r s s' b bt bt' a :
  owner_step r s s' -> local_of s' r = Some (BPtr b) -> heap s' !! b = Some bt ->
  batch_ok b bt' -> active bt' = active bt -> boxes a = boxes (alloc s') ->
  owner_step r s (set_alloc a (set_heap (<[b := bt']> (heap s')) s')).
Proof.
  intros [Hth Hres Hbuf Hnew Hkeep Hheap Hst Hsane HG] HL Hb Hok Ha Hbx. constructor; try done.
  - intros b' Hb'. simpl. rewrite lookup_insert_ne; [by apply Hheap|]. intros ->. by apply Hb'.
  - constructor; try by destruct Hst. intros r' b' Hr' HL'. simpl.
    rewrite lookup_insert_ne; [by apply (st_heap _ _ _ _ Hst r')|]. intros ->. apply Hr'. f_equal.
    eapply (G_local_inj _ _ _ _ _ HG); [|done]. rewrite (st_local _ _ _ _ Hst); eauto.
  - by destruct Hsane.
  - simpl. rewrite Hbx. by eapply G_local.
Qed.

Lemma owner_alloc r s s' a :
  owner_step r s s' -> boxes a = boxes (alloc s') -> owner_step r s (set_alloc a s').
Proof.
  intros [Hth Hres Hbuf Hnew Hkeep Hheap Hst Hsane HG] Hbx.
  constructor; try done; [by destruct Hst|by destruct Hsane|]. simpl. by rewrite Hbx.
Qed.

Lemma entries_try_reserve_ok b bt (a a' : A) res :
  batch_ok b bt -> entries_try_reserve bt a = (a', res) ->
  boxes a' = boxes a /\ match res with
  | Ok bt' => entries bt' = entries bt /\ active bt' = active bt /\
      Z.of_nat (length (entries bt)) + 1 <= capacity bt' <= isize_max
  | Err _ => True
  end.
Proof.
  intros (_ & Hl & _). unfold entries_try_reserve.
  destruct (vec_try_reserve a _ _ 1) as [a1 [c|e]] eqn:E;
    apply vec_try_reserve_ok in E as (Hbx & _ & Hc); try lia; intros [= <- <-]; split; try done.
  destruct (Hc c eq_refl) as (H3 & H4 & H5). simpl. split_and!; try done.
  destruct (decide (capacity bt < c)); [auto|lia].
Qed.

Lemma push_entry_ok b p f bt :
  batch_ok b bt -> Z.of_nat (length (entries bt)) + 1 <= capacity bt -> batch_ok b (push_entry b p f bt).
Proof.
  intros (HF & Hl & Ha) Hc. unfold batch_ok; simpl. rewrite length_app; simpl.
  split; [|split; [lia|done]]. apply Forall_app. split; [done|]. by repeat constructor.
Qed.

Lemma batch_ok_reserved b bt bt' : batch_ok b bt -> entries bt' = entries bt -> active bt' = active bt ->
  Z.of_nat (length (entries bt)) + 1 <= capacity bt' <= isize_max -> batch_ok b bt'.
Proof. unfold batch_ok. intros (? & ? & ?) -> -> ?. split_and!; try done; lia. Qed.

(** [add] either fails and retires nothing, or appends one entry to the local
    batch, and calls [try_retire] if the batch is large enough. *)
Lemma step_add_spec s t r p f rest :
  Inv s -> is_Some (local_of s r) ->
  exists s1 fs ev, step_add batch_size t r p f rest s = Some (goto t (fs ++ rest) s1, ev) /\
    owner_step r s s1 /\
    ((fs = [FRet RErr] /\ ev = [] /\ forall b, entries_of s1 b = entries_of s b) \/
     (exists b, ev = [EvRetire t p f] /\ local_of s1 r = Some (BPtr b) /\
        entries_of s1 b = entries_of s b ++
          [{| ptr := p; reclaim := f; state := SHead None; e_batch := b |}] /\
        (forall b', b' <> b -> entries_of s1 b' = entries_of s b') /\
        fs = if decide (Z.of_nat (length (entries_of s1 b)) >= batch_size)
             then [FTry r TStrategy; FRet ROk] else [FRet ROk])).
Proof.
  intros HI Hr. destruct (local_get_or_init_safe r s HI Hr) as (s1 & res & Eg & Ho & He & Hres).
  unfold step_add. rewrite Eg. simpl.
  destruct res as [[| |b]|e]; [done..| |by eexists s1, _, _; split; [done|]; split; [done|left]].
  destruct (G_local_heap _ _ _ _ _ (os_G _ _ _ Ho) _ _ Hres) as (bt & Hb & Hok & _).
  rewrite Hb. simpl. destruct (entries_try_reserve bt (alloc s1)) as [a [bt'|e]] eqn:Et;
    destruct (entries_try_reserve_ok _ _ _ _ _ Hok Et) as [Hbx Hbt'].
  2: { eexists (set_alloc a s1), _, _. split; [done|]. split; [by apply owner_alloc|by left]. }
  destruct Hbt' as (Hent & Ha & Hc).
  set (s2 := set_alloc a (set_heap (<[b:=push_entry b p f bt']> (heap s1)) s1)).
  assert (owner_step r s s2) as Ho2.
  { eapply owner_heap; try done. apply push_entry_ok; [by eapply batch_ok_reserved|rewrite Hent; lia]. }
  assert (entries_of s2 b = entries bt' ++
    [{| ptr := p; reclaim := f; state := SHead None; e_batch := b |}]) as E2.
  { unfold entries_of. simpl. by rewrite lookup_insert_eq. }
  eexists s2, _, _. split; [done|]. split; [done|]. right. exists b. rewrite E2.
  split_and!; try done.
  - rewrite Hent, <-He. unfold entries_of. by rewrite Hb.
  - intros b' Hb'. rewrite <-He. unfold entries_of. simpl. by rewrite lookup_insert_ne.
Qed.

Lemma step_add_safe s t r p f rest :
  Inv s -> stack s t = FAdd r p f :: rest -> safe (step_add batch_size t r p f rest s).
Proof.
  intros HI Hs. pose proof (Inv_top _ _ _ _ HI Hs) as Hr. simpl in Hr.
  destruct (step_add_spec s t r p f rest HI Hr) as (s1 & fs & ev & E & Ho & Hcase).
  eexists _, _. split; [done|].
  destruct Hcase as [(-> & _)|(b & _ & HL & _ & _ & ->)]; [by eapply (owner_run r s); try done; frames|].
  assert (is_Some (local_of s1 r)) as HL1 by eauto.
  case_decide; by eapply (owner_run r s); try done; frames.
Qed.

Lemma step_reserve_spec s t r rest :
  Inv s -> is_Some (local_of s r) ->
  exists s1 (x : bool), step_reserve batch_size t r rest s =
      Some (goto t ([FRet (if x then ROk else RErr)] ++ rest) s1, []) /\
    owner_step r s s1 /\ (forall b, entries_of s1 b = entries_of s b).
Proof.
  intros HI Hr. destruct (local_get_or_init_safe r s HI Hr) as (s1 & res & Eg & Ho & He & Hres).
  unfold step_reserve. rewrite Eg. simpl.
  destruct res as [[| |b]|e]; [done..| |by exists s1, false].
  destruct (G_local_heap _ _ _ _ _ (os_G _ _ _ Ho) _ _ Hres) as (bt & Hb & Hok & _).
  rewrite Hb. simpl. destruct (entries_try_reserve bt (alloc s1)) as [a [bt'|e]] eqn:Et;
    destruct (entries_try_reserve_ok _ _ _ _ _ Hok Et) as [Hbx Hbt'].
  2: { exists (set_alloc a s1), false. split; [done|]. split; [by apply owner_alloc|done]. }
  destruct Hbt' as (Hent & Ha & Hc).
  eexists _, true. split; [done|]. split; [eapply owner_heap; try done; by eapply batch_ok_reserved|].
  intros b'. rewrite <-He. unfold entries_of. simpl. destruct (decide (b = b')) as [->|].
  - by rewrite lookup_insert_eq, Hb.
  - by rewrite lookup_insert_ne.
Qed.

Lemma step_reserve_safe s t r rest :
  Inv s -> stack s t = FReserve r :: rest -> safe (step_reserve batch_size t r rest s).
Proof.
  intros HI Hs. pose proof (Inv_top _ _ _ _ HI Hs) as Hr. simpl in Hr.
  destruct (step_reserve_spec s t r rest HI Hr) as (s1 & x & E & Ho & _).
  eexists _, _. split; [done|]. by destruct x; eapply (owner_run r s); try done; frames.
Qed.

(** ** [try_retire] *)

Lemma head_of_drain P s r :
  head_of (drain P s) r = if drained P s r then (fun _ => ENull) <$> head_of s r else head_of s r.
Proof.
  unfold head_of; simpl. rewrite tl_get_imap. destruct (drained P s r); by destruct (tl_get _ r).
Qed.

Lemma buffers_drain P s r t :
  buffers (drain P s) !! r = Some t <-> buffers s !! r = Some t /\ P r t = false.
Proof. simpl. by rewrite map_lookup_filter_Some. Qed.

Lemma drained_buffer P s r : drained P s r = true -> exists t, buffers s !! r = Some t /\ P r t = true.
Proof. unfold drained. destruct (buffers s !! r) as [t|]; [eauto|done]. Qed.

Lemma drain_stable u P s : SInv s -> stable u s (drain P s).
Proof.
  intros HS. constructor; try done.
  - intros b. apply bucket_ready_imap.
  - intros r Hr. rewrite head_of_drain. by case_match; rewrite ?fmap_is_Some.
  - intros r _ [Hh Hb]. assert (drained P s r = false) as Hd by (unfold drained; by rewrite Hb).
    split; [by rewrite head_of_drain, Hd|].
    apply eq_None_not_Some. intros [t [Ht _]%buffers_drain]. congruence.
Qed.

Lemma drain_sane P s : SInv s -> sane (drain P s).
Proof.
  intros HS. constructor; try apply HS; [by apply tl_imap_wf, HS|].
  intros r t [Hb Hp]%buffers_drain. destruct (i_buffers _ _ HS _ _ Hb) as [Hh ?].
  split; [|done]. rewrite head_of_drain. unfold drained. by rewrite Hb, Hp.
Qed.

Lemma drain_G P s R : SInv s -> GInv R (head_of s) (local_of s) (heap s) (boxes (alloc s)) ->
  GInv R (head_of (drain P s)) (local_of (drain P s)) (heap (drain P s)) (boxes (alloc (drain P s))).
Proof.
  intros HS HG. eapply GInv_ext; [done|by left| | |done|by eapply G_no_drop|done].
  - intros r. rewrite head_of_drain. destruct (drained P s r) eqn:E; [|done].
    apply drained_buffer in E as (t & Hb & _). by destruct (i_buffers _ _ HS _ _ Hb) as [-> _].
  - intros r Hr. rewrite head_of_drain. by case_match; rewrite ?fmap_is_Some.
Qed.

Lemma barrier_drain t h s : exists P, barrier t h s = drain P s.
Proof. unfold barrier. case_match; eauto. Qed.

Lemma step_barrier_safe s t r h rest :
  Inv s -> stack s t = FTry r (TBarrier h) :: rest -> safe (step_try plat t r (TBarrier h) rest s).
Proof.
  intros HI Hs. destruct (Inv_top _ _ _ _ HI Hs) as [HL _]. pose proof HI as (_ & HS & HG).
  simpl. apply safe_next. destruct (barrier_drain t h s) as [P ->].
  eapply Inv_run; [done..|by apply drain_stable|by apply drain_sane|by frames|by frames|by apply drain_G|].
  intros. by eapply roles_none; frames.
Qed.

Lemma step_flush_safe s t th rest :
  Inv s -> stack s t = FFlush th :: rest -> safe (step_flush t th rest s).
Proof.
  intros HI Hs. unfold step_flush. rewrite get_tl_get.
  destruct (tl_get (batches s) (thread_slot th)) as [lb|] eqn:E; apply safe_next.
  - eapply Inv_pure; try done; frames; [|by intros [|[|d]]].
    split; [|done]. unfold local_of. rewrite E. eauto.
  - by eapply Inv_pure; try done; frames; intros [|[|d]].
Qed.

(** The scan of the reservations changes the stack and the marked entries. *)
Lemma step_scan_safe s t r b m ipc it rest :
  Inv s -> stack s t = FTry r (TScan b m ipc it) :: rest ->
  safe (step_try plat t r (TScan b m ipc it) rest s).
Proof.
  intros HI Hs. destruct (Inv_top _ _ _ _ HI Hs) as (HL & HL' & Hm & Hit & Hpc). pose proof HI as (_ & HS & HG).
  destruct (iter_step_ok _ _ _ (i_res _ _ HS) Hit Hpc) as (res & E & Hres).
  simpl. rewrite E. simpl.
  destruct res as [ipc' it'|r' it'|]; apply safe_next; (eapply Inv_pure; [done..| | |]; frames; try by intros [|[|d]]).
  destruct Hres as (? & ? & ?). do 4 (split; [done|]). unfold head_of. by rewrite fmap_is_Some.
Qed.

Lemma marks_insert s r b m it r' bt :
  Inv s -> local_of s r = Some (BPtr b) -> marks s b m -> iter_ok it -> is_Some (head_of s r') ->
  heap s !! b = Some bt -> (m < length (entries bt))%nat ->
  marks (store_batch b (set_state m (SHead (Some r'))) s) b (S m).
Proof.
  intros HI HL (bt0 & Hb0 & Hm & Hmk) Hit Hr' Hb Hlt.
  assert (bt0 = bt) as -> by congruence.
  eexists. simpl. rewrite lookup_alter_eq, Hb. split; [done|]. simpl. rewrite length_alter.
  split; [lia|]. intros j Hj. destruct (decide (j = m)) as [->|].
  - destruct (lookup_lt_is_Some_2 _ _ Hlt) as [e He]. eexists _, r'.
    simpl. rewrite list_lookup_alter_eq, He. split_and!; done.
  - destruct (Hmk j) as (e & r1 & He & ? & ?); [lia|]. exists e, r1.
    simpl. by rewrite list_lookup_alter_ne by done.
Qed.

Lemma store_batch_insert b f bt s :
  heap s !! b = Some bt -> heap (store_batch b f s) = <[b := f bt]> (heap s).
Proof.
  intros Hb. simpl. apply map_eq. intros b1. destruct (decide (b1 = b)) as [->|].
  - by rewrite lookup_alter_eq, lookup_insert_eq, Hb.
  - by rewrite lookup_alter_ne, lookup_insert_ne.
Qed.

Lemma mark_owner s t r b m it r' rest bt e :
  Inv s -> stack s t = FTry r (TMark b m it r') :: rest ->
  heap s !! b = Some bt -> entries bt !! m = Some e ->
  owner_step r s (store_batch b (set_state m (SHead (Some r'))) s).
Proof.
  intros HI Hs Hb He. destruct (Inv_top _ _ _ _ HI Hs) as (HL & HL' & _). pose proof HI as (_ & HS & HG).
  destruct (G_batch _ _ _ _ _ HG _ _ Hb) as [_ Hok].
  apply owner_intro; try done; [apply HS|by left| |].
  - intros b1 HL1. simpl. rewrite lookup_alter_ne; [done|]. intros <-. by apply HL1.
  - rewrite (store_batch_insert _ _ _ _ Hb). eapply G_local; try done. by apply set_state_ok.
Qed.

Lemma step_mark_safe s t r b m it r' rest :
  Inv s -> stack s t = FTry r (TMark b m it r') :: rest ->
  safe (step_try plat t r (TMark b m it r') rest s).
Proof.
  intros HI Hs. destruct (Inv_top _ _ _ _ HI Hs) as (HL & HL' & Hm & Hit & Hr'). pose proof HI as (_ & HS & HG).
  destruct (Hr') as [hd Hhd]. simpl. rewrite Hhd. simpl. case_decide as Hin.
  { apply safe_next. by eapply Inv_pure; [done..| | |]; frames; intros [|[|d]]. }
  destruct (G_local_heap _ _ _ _ _ HG _ _ HL') as (bt & Hb & Hok & _). rewrite Hb. simpl.
  destruct (entries bt !! m) as [e|] eqn:He; apply safe_next.
  2: by eapply Inv_pure; [done..| | |]; frames; intros [|[|d]].
  pose proof (mark_owner _ _ _ _ _ _ _ _ _ _ HI Hs Hb He) as Ho.
  eapply owner_run; try done; frames. split; [done|].
  split; [done|]. split; [|done]. eapply marks_insert; try done. by eapply lookup_lt_Some.
Qed.

Lemma roles_one t f0 f rest s t' d :
  stack s t = f0 :: rest ->
  role_eqv (upd t (length rest) (role_of f) (role_at s) t' d) (roles_after t (length rest) [f] (role_at s) t' d).
Proof. intros Hs. rewrite roles_after_1; [done|]. intros. by eapply role_above. Qed.

Lemma roles_zero t f0 rest s t' d :
  stack s t = f0 :: rest ->
  role_eqv (upd t (length rest) RNone (role_at s) t' d) (roles_after t (length rest) [] (role_at s) t' d).
Proof. intros Hs. rewrite roles_after_0; [done|]. intros. by eapply role_above. Qed.

Lemma roles_two t f0 f1 f2 rest s t' d :
  stack s t = f0 :: rest ->
  role_eqv (upd t (S (length rest)) (role_of f2) (upd t (length rest) (role_of f1) (role_at s)) t' d)
    (roles_after t (length rest) [f2; f1] (role_at s) t' d).
Proof. intros Hs. rewrite roles_after_2; [done|]. intros. by eapply role_above. Qed.

Lemma Inv_run1 s s1 t f0 f rest :
  Inv s -> stack s t = f0 :: rest -> threads s1 = threads s -> stable (uses f0) s s1 -> sane s1 ->
  (uses f = None \/ uses f = uses f0) -> frame_ok plat s1 f ->
  GInv (upd t (length rest) (role_of f) (role_at s)) (head_of s1) (local_of s1) (heap s1) (boxes (alloc s1)) ->
  Inv (goto t ([f] ++ rest) s1).
Proof.
  intros. eapply Inv_run; try done; [by frames|]. intros. by eapply roles_one.
Qed.

Lemma Inv_run0 s s1 t f0 rest :
  Inv s -> stack s t = f0 :: rest -> threads s1 = threads s -> stable (uses f0) s s1 -> sane s1 ->
  GInv (upd t (length rest) RNone (role_at s)) (head_of s1) (local_of s1) (heap s1) (boxes (alloc s1)) ->
  Inv (goto t ([] ++ rest) s1).
Proof. intros. eapply Inv_run; try done. intros. by eapply roles_zero. Qed.

Lemma Inv_run2 s s1 t f0 f1 f2 rest :
  Inv s -> stack s t = f0 :: rest -> threads s1 = threads s -> stable (uses f0) s s1 -> sane s1 ->
  uses f2 = None -> uses f1 = None -> frame_ok plat s1 f2 -> frame_ok plat s1 f1 ->
  GInv (upd t (S (length rest)) (role_of f2) (upd t (length rest) (role_of f1) (role_at s)))
    (head_of s1) (local_of s1) (heap s1) (boxes (alloc s1)) ->
  Inv (goto t ([f2; f1] ++ rest) s1).
Proof.
  intros. eapply Inv_run; try done; [split; [by left|by frames]|by frames|].
  intros. by eapply roles_two.
Qed.

Lemma step_reset_safe s t r b m rest :
  Inv s -> stack s t = FTry r (TReset b m) :: rest ->
  safe (step_try plat t r (TReset b m) rest s).
Proof.
  intros HI Hs. destruct (Inv_top _ _ _ _ HI Hs) as (HL & HL' & (bt & Hb & Hm & Hmk)).
  pose proof HI as (_ & HS & HG). simpl. apply safe_next.
  pose proof (local_of_set r BNull s HL) as EL.
  eapply Inv_run1; [done..| | |by left|done|].
  - constructor; try done; [by intros; apply bucket_ready_alter|]. intros r' Hr' _.
    rewrite EL. unfold set_fun. rewrite decide_False; [done|]. simpl in Hr'. congruence.
  - constructor; try apply HS. by apply tl_modify_wf, HS.
  - eapply GInv_eq; [eapply (G_detach _ _ _ _ _ HG r b bt); try done|by left|done|done|done].
    by rewrite (role_at_top _ _ _ _ Hs).
Qed.

Lemma step_try_safe s t r pc rest :
  Inv s -> stack s t = FTry r pc :: rest -> safe (step_try plat t r pc rest s).
Proof.
  intros HI Hs. pose proof HI as (_ & HS & HG). destruct (Inv_top _ _ _ _ HI Hs) as (HL & Hpc).
  destruct pc as [|h| |b m ipc it|b m it r'|b m].
  - apply safe_next. eapply Inv_pure; [done..| | |]; frames. by intros [|[|d]].
  - by apply step_barrier_safe.
  - simpl. pose proof HL as [lb E]. rewrite E. simpl. destruct lb as [| |b].
    + apply safe_next. eapply Inv_pure; [done..| | |]; frames. by intros [|[|d]].
    + by destruct (G_no_drop _ _ _ _ _ HG r).
    + apply safe_next. eapply Inv_pure; [done..| | |]; frames; [|by intros [|[|d]]].
      split; [done|]. split; [done|]. split; [|split; [apply iter_init_ok|done]].
      destruct (G_local_heap _ _ _ _ _ HG _ _ E) as (bt & Hb & _). exists bt.
      split; [done|]. split; [lia|]. intros j Hj. lia.
  - by apply step_scan_safe.
  - by apply step_mark_safe.
  - by apply step_reset_safe.
Qed.

Lemma step_retire_safe s t b m i act rest :
  Inv s -> stack s t = FRetire b m i act :: rest -> safe (step_retire t b m i act rest s).
Proof.
  intros HI Hs. pose proof HI as (_ & HS & HG).
  pose proof (role_at_top _ _ _ _ Hs) as HR. simpl in HR. unfold step_retire. case_decide as Him.
  - destruct (G_ret_entry _ _ _ _ _ HG _ _ _ _ _ _ _ HR Him) as (bt & e & Hb & He & Hm & Hmk).
    destruct Hmk as (e' & r & He' & Hst & [hd Hhd]); [done|]. simplify_eq.
    unfold entry_at. rewrite Hb. simpl. rewrite He. simpl. rewrite Hst. rewrite Hhd. simpl.
    apply safe_next. eapply Inv_run1; try done; [by apply SInv_sane|by left|].
    eapply G_scan; try done; lia.
  - apply safe_next. eapply Inv_run1; try done; [by apply SInv_sane|by left|]. by eapply G_fin.
Qed.

(** A batch with a role is nobody's local batch. *)
Lemma store_batch_stable u b f s t d :
  Inv s -> role_batch (role_at s t d) = Some b -> stable u s (store_batch b f s).
Proof.
  intros (_ & _ & HG) HR. constructor; try done. intros r b' _ HL. simpl.
  rewrite lookup_alter_ne; [done|]. intros <-. by eapply (G_local_no_role _ _ _ _ _ HG).
Qed.

Lemma store_batch_sane b f s : SInv s -> sane (store_batch b f s).
Proof. intros HS. by constructor; try apply HS. Qed.

(** The exchange on a head that is not inactive. *)
Lemma store_head_stable u r e s :
  head_of s r <> Some INACTIVE -> is_Some (head_of s r) -> stable u s (store_head r e s).
Proof.
  intros Hn Hr. constructor; try done.
  - intros b. apply bucket_ready_alter.
  - intros r' Hr'. rewrite head_of_set by done. unfold set_fun. case_decide; [eauto|done].
  - intros r' _ [Hi Hb]. split; [|done]. rewrite head_of_set by done. unfold set_fun.
    rewrite decide_False; [done|]. by intros ->.
Qed.

Lemma store_head_sane r e s :
  SInv s -> is_Some (head_of s r) -> (buffers s !! r = None) -> sane (store_head r e s).
Proof.
  intros HS Hr Hb. constructor; try apply HS; [by apply tl_modify_wf, HS|].
  intros r' t' Hb'. simpl in Hb'. rewrite head_of_set by done. unfold set_fun.
  rewrite decide_False by congruence. by apply (i_buffers _ _ HS _ t').
Qed.

Lemma active_unbuffered s r hd :
  SInv s -> head_of s r = Some hd -> hd <> INACTIVE -> buffers s !! r = None.
Proof.
  intros HS Hr Hn. destruct (buffers s !! r) eqn:E; [|done].
  destruct (i_buffers _ _ HS _ _ E) as [E' _]. congruence.
Qed.

Lemma step_cas_safe sp s t b m i act r prev rest :
  Inv s -> stack s t = FCas b m i act r prev :: rest ->
  safe (step_cas sp t b m i act r prev rest s).
Proof.
  intros HI Hs. pose proof HI as (_ & HS & HG).
  pose proof (role_at_top _ _ _ _ Hs) as HR. simpl in HR.
  destruct (Inv_top _ _ _ _ HI Hs) as [[hd Hhd] Him].
  destruct (G_ret_entry _ _ _ _ _ HG _ _ _ _ _ _ _ HR Him) as (bt & e & Hb & He & Hm & _).
  unfold step_cas. case_decide as Hin.
  { apply safe_next. eapply Inv_run1; try done; [by apply SInv_sane|by left|].
    eapply G_scan; try done; lia. }
  unfold entry_at. rewrite Hb. simpl. rewrite He. simpl.
  set (s1 := store_batch b _ s).
  assert (head_of s1 = head_of s) as EH by done. rewrite EH, Hhd. simpl.
  assert (role_batch (role_at s t (length rest)) = Some b) as HRb by by rewrite HR.
  assert (GInv (role_at s) (head_of s) (local_of s) (heap s1) (boxes (alloc s))) as HG1.
  { unfold s1. rewrite (store_batch_insert _ _ _ _ Hb). by eapply G_set_next. }
  assert (stable None s s1) as Hst by by eapply store_batch_stable.
  assert (Inv (goto t ([FCas b m i act r hd] ++ rest) s1)) as Hretry.
  { eapply Inv_run1; try done; [by apply store_batch_sane|by left|].
    eapply GInv_eq; [done| |done..]. intros t' d. unfold upd. case_decide as E; [|done].
    destruct E as [-> ->]. by rewrite HR. }
  destruct sp; [by apply safe_next|]. case_decide as Hcas; [|by apply safe_next]. subst hd.
  apply safe_next.
  assert (is_Some (head_of s1 r)) as Hsome by by rewrite EH.
  assert (buffers s !! r = None) as Hnb by by eapply active_unbuffered.
  assert (sane (store_head r (EPtr b i) s1)) as Hsane.
  { split; try apply HS; [by apply tl_modify_wf, HS|]. intros r' t' Hb'. simpl in Hb'.
    rewrite head_of_set by done. unfold set_fun. rewrite decide_False by congruence.
    by apply (i_buffers _ _ HS _ t'). }
  eapply (Inv_run1 s); try done; [|by left|].
  { eapply stable_trans; [done|]. apply store_head_stable; [|done]. rewrite EH. congruence. }
  eapply GInv_eq; [eapply (G_link _ _ _ _ _ HG1 t (length rest) b i m act r prev); try done|by left| |done|done].
  - unfold next_of, entry_at, s1; simpl. rewrite lookup_alter_eq, Hb. simpl.
    by rewrite list_lookup_alter_eq, He.
  - intros r'. by rewrite (head_of_set r _ s1 Hsome).
Qed.

Lemma step_finish_safe s t b act rest :
  Inv s -> stack s t = FFinish b act :: rest -> safe (step_finish t b act rest s).
Proof.
  intros HI Hs. pose proof HI as (_ & HS & HG).
  pose proof (role_at_top _ _ _ _ Hs) as HR. simpl in HR.
  assert (role_batch (role_at s t (length rest)) = Some b) as HRb by by rewrite HR.
  destruct (G_role _ _ _ _ _ HG _ _ _ HRb) as [bt Hb]. unfold step_finish. rewrite Hb. simpl.
  pose proof (G_finish _ _ _ _ _ HG _ _ _ _ _ _ HR Hb eq_refl) as HG1.
  pose proof (store_batch_stable None b (set_active (wadd (active bt) act)) s _ _ HI HRb) as Hst.
  pose proof (store_batch_sane b (set_active (wadd (active bt) act)) s HS) as Hsane.
  apply safe_next. case_decide.
  - eapply Inv_run1; try done; [by left|]. by rewrite (store_batch_insert _ _ _ _ Hb).
  - eapply Inv_run0; try done. by rewrite (store_batch_insert _ _ _ _ Hb).
Qed.

(** ** [enter], [leave], [refresh] *)

Lemma store_head_owner_stable r e s : is_Some (head_of s r) -> stable (Some r) s (store_head r e s).
Proof.
  intros Hr. constructor; try done.
  - intros b. apply bucket_ready_alter.
  - intros r' Hr'. rewrite head_of_set by done. unfold set_fun. case_decide; [eauto|done].
  - intros r' Hne [Hi Hb]. split; [|done]. rewrite head_of_set by done. unfold set_fun.
    rewrite decide_False; [done|congruence].
Qed.

Lemma step_enter_safe s t r rest :
  Inv s -> stack s t = FEnter r :: rest -> safe (step_enter plat t r rest s).
Proof.
  intros HI Hs. pose proof (Inv_top _ _ _ _ HI Hs) as Hidle. simpl in Hidle.
  apply safe_next. eapply Inv_pure; [done..| | |]; frames; [|by intros [|[|d]]].
  split; [done|]. destruct (light_store_cases plat (strategy s)) as [->|E]; [by left|right].
  split; [done|]. by unfold fast.
Qed.

Lemma step_enter_store_safe s t r o rest :
  Inv s -> stack s t = FEnterStore r o :: rest -> safe (step_enter_store t r o rest s).
Proof.
  intros HI Hs. pose proof HI as (_ & HS & HG).
  destruct (Inv_top _ _ _ _ HI Hs) as [[Hi Hb] Ho]. unfold step_enter_store. rewrite Hi. simpl.
  assert (forall t' d, role_eqv (role_at s t' d) (upd t (length rest) RNone (role_at s) t' d)) as HR.
  { intros t' d. unfold upd. case_decide as E; [|done]. destruct E as [-> ->].
    by rewrite (role_at_top _ _ _ _ Hs). }
  apply safe_next_ev. destruct Ho as [->|[-> Hf]]; simpl store_null.
  - assert (is_Some (head_of s r)) as Hsome by eauto.
    eapply Inv_run0; try done; [by apply store_head_owner_stable|by apply store_head_sane|].
    eapply GInv_eq; [by eapply (G_head _ _ _ _ _ HG r ENull INACTIVE)|done| |done|done].
    intros r'. by rewrite head_of_set.
  - eapply Inv_run0; try done.
    + constructor; try done. intros r' Hr' [? ?]. split; [done|]. simpl.
      rewrite lookup_insert_ne; [done|]. intros ->. by apply Hr'.
    + constructor; try apply HS. intros r' t'. simpl.
      intros [[<- _]|[_ Hb']]%lookup_insert_Some; [done|by apply (i_buffers _ _ HS _ t')].
    + by eapply GInv_eq.
Qed.

Lemma step_swap_safe s t r new f0 rest :
  Inv s -> stack s t = f0 :: rest -> uses f0 = Some r -> role_of f0 = RNone ->
  is_Some (head_of s r) -> new = INACTIVE \/ new = ENull ->
  safe (step_swap t r new rest s).
Proof.
  intros HI Hs Hu Hrole Hr Hnew. pose proof HI as (_ & HS & HG). unfold step_swap.
  pose proof (drain_stable (Some r) (fun r' _ => bool_decide (r' = r)) s HS) as Hst1.
  pose proof (drain_sane (fun r' _ => bool_decide (r' = r)) s HS) as Hsane1.
  pose proof (drain_G (fun r' _ => bool_decide (r' = r)) s _ HS HG) as HG1.
  fold (drain_slot r s) in *. set (s1 := drain_slot r s) in *.
  assert (is_Some (head_of s1 r)) as Hr1 by by apply (st_head _ _ _ _ Hst1).
  pose proof Hr1 as [hd Hhd]. rewrite Hhd. simpl.
  assert (buffers s1 !! r = None) as Hb1.
  { apply eq_None_not_Some. intros [t' [_ Hp]%buffers_drain]. by rewrite bool_decide_true in Hp. }
  assert (stable (uses f0) s (store_head r new s1)) as Hst2.
  { rewrite Hu. eapply stable_trans; [done|]. by apply store_head_owner_stable. }
  assert (sane (store_head r new s1)) as Hsane2.
  { split; try apply Hsane1; [by apply tl_modify_wf, Hsane1|]. intros r' t' Hb'.
    change (buffers s1 !! r' = Some t') in Hb'.
    rewrite head_of_set by done. unfold set_fun. rewrite decide_False by congruence.
    by apply (sn_buffers _ _ Hsane1 _ t'). }
  assert (role_at s t (length rest) = RNone) as HR by by rewrite (role_at_top _ _ _ _ Hs).
  apply safe_next_ev.
  assert (forall p, chain_role p = RTrav (list_of (Some hd)) -> role_batch p = None ->
    GInv (upd t (length rest) p (role_at s)) (head_of (store_head r new s1)) (local_of (store_head r new s1))
      (heap (store_head r new s1)) (boxes (alloc (store_head r new s1)))) as HG2.
  { intros p Hp1 Hp2. eapply GInv_eq; [by eapply (G_swap _ _ _ _ _ HG1 r t _ hd new p)|by left| |done|done].
    intros r'. by rewrite head_of_set. }
  case_decide as Hin.
  - subst hd. eapply Inv_run0; try done. by apply HG2.
  - eapply Inv_run1; try done; [by left|]. apply HG2; [|done]. by destruct hd.
Qed.

(** ** [traverse] and [free_batch] *)

Lemma step_traverse_safe s t l rest :
  Inv s -> stack s t = FTraverse l :: rest -> safe (step_traverse t l rest s).
Proof.
  intros HI Hs. pose proof HI as (_ & HS & HG).
  pose proof (role_at_top _ _ _ _ Hs) as HR. simpl in HR.
  destruct (G_trav_entry _ _ _ _ _ HG _ _ _ HR) as [->|(b & i & bt & en & n & -> & Hb & He & Hn & Heb)].
  - apply safe_next. eapply Inv_pure; try done. intros [|[|d]]; try done. by right.
  - simpl. unfold entry_at. rewrite Hb. simpl. rewrite He. simpl. rewrite Hn, Heb. apply safe_next.
    eapply Inv_run1; try done; [by apply SInv_sane|by left|]. by eapply G_read.
Qed.

Lemma step_dec_safe s t n b rest :
  Inv s -> stack s t = FDec n b :: rest -> safe (step_dec t n b rest s).
Proof.
  intros HI Hs. pose proof HI as (_ & HS & HG).
  pose proof (role_at_top _ _ _ _ Hs) as HR. simpl in HR.
  destruct (G_dec_heap _ _ _ _ _ HG _ _ _ _ HR) as [bt Hb]. unfold step_dec. rewrite Hb. simpl.
  assert (role_at s t (S (length rest)) = RNone) as HR1 by (eapply role_above; [done|lia]).
  pose proof (G_dec _ _ _ _ _ HG _ _ _ _ _ _ HR Hb HR1 eq_refl) as HG1.
  assert (forall u, stable u s (store_batch b (set_active (wsub (active bt) 1)) s)) as Hst.
  { intros u. constructor; try done. intros r b' _ HL. simpl. rewrite lookup_alter_ne; [done|].
    intros <-. by eapply (G_dec_not_local _ _ _ _ _ HG). }
  pose proof (store_batch_sane b (set_active (wsub (active bt) 1)) s HS) as Hsane.
  apply safe_next. case_decide.
  - eapply Inv_run2; try done. by rewrite (store_batch_insert _ _ _ _ Hb).
  - eapply Inv_run1; try done; [by left|]. by rewrite (store_batch_insert _ _ _ _ Hb).
Qed.

Lemma step_free_batch_safe s t b i rest :
  Inv s -> stack s t = FFree b i :: rest -> safe (step_free_batch t b i rest s).
Proof.
  intros HI Hs. pose proof HI as (_ & HS & HG).
  pose proof (role_at_top _ _ _ _ Hs) as HR. simpl in HR.
  assert (role_batch (role_at s t (length rest)) = Some b) as HRb by by rewrite HR.
  destruct (G_role _ _ _ _ _ HG _ _ _ HRb) as [bt Hb]. unfold step_free_batch. rewrite Hb. simpl.
  destruct (entries bt !! i) as [e|] eqn:He.
  - apply safe_next_ev. eapply Inv_pure; [done..| | |]; frames. by intros [|[|d]].
  - unfold LocalBatch_free. rewrite Hb. simpl. apply safe_next. eapply Inv_run0; try done.
    + constructor; try done. intros r b' _ HL. simpl. rewrite lookup_delete_ne; [done|].
      intros <-. by eapply (G_local_no_role _ _ _ _ _ HG).
    + by constructor; try apply HS.
    + simpl. rewrite box_drop_ok, vec_drop_ok. by apply G_free.
Qed.

(** ** All steps *)

Lemma run_frame_safe s t fr rest :
  Inv s -> stack s t = fr :: rest -> at_client (fr :: rest) = false ->
  safe (run_frame plat batch_size false t fr rest s).
Proof.
  intros HI Hs Hc. pose proof (Inv_top _ _ _ _ HI Hs) as Hok.
  destruct fr as [k th pc|r p f|r|th|r pc|b m i act|b m i act r prev|b act|r|r o|r|r|l|n b|b i|p f|ipc it|r it|r it|x];
    simpl; try done.
  - by apply step_load_safe.
  - by apply step_add_safe.
  - by apply step_reserve_safe.
  - by apply step_flush_safe.
  - by apply step_try_safe.
  - by apply step_retire_safe.
  - by apply step_cas_safe.
  - by apply step_finish_safe.
  - by apply step_enter_safe.
  - by apply step_enter_store_safe.
  - eapply step_swap_safe; try done. by left.
  - eapply step_swap_safe; try done. by right.
  - by apply step_traverse_safe.
  - by apply step_dec_safe.
  - by apply step_free_batch_safe.
  - apply safe_next_ev. eapply Inv_pure; try done. by intros [|[|d]].
Qed.

(** Steps that change no stack. *)
Lemma Inv_stable s s1 :
  Inv s -> threads s1 = threads s -> stable None s s1 -> sane s1 ->
  GInv (role_at s) (head_of s1) (local_of s1) (heap s1) (boxes (alloc s1)) -> Inv s1.
Proof.
  intros (Hbs & HS & _) Hth Hst Hsane HG.
  assert (forall t, stack s1 t = stack s t) as Es by (intros; unfold stack; by rewrite Hth).
  split; [done|]. split.
  - constructor; try apply Hsane.
    + intros t d f. rewrite Es. intros Hf. eapply frame_ok_stable; [done|done|]. by apply (i_frames _ _ HS t d).
    + intros t1 d1 f1 t2 d2 f2 r. rewrite !Es. by apply (i_excl _ _ HS).
  - eapply GInv_eq; [done| |done..]. intros t d. unfold role_at. by rewrite Es.
Qed.

Lemma Inv_drain P s : Inv s -> Inv (drain P s).
Proof.
  intros HI. pose proof HI as (_ & HS & HG).
  eapply Inv_stable; [done|done|by apply drain_stable|by apply drain_sane|by apply drain_G].
Qed.

Lemma Inv_detect sys x86 s : Inv s -> Inv (set_strategy (detect plat sys x86 (strategy s)) s).
Proof.
  intros HI. pose proof HI as (_ & HS & HG). eapply Inv_stable; [done|done| | |done].
  - constructor; try done. apply detect_fast.
  - constructor; try apply HS; [apply detect_ok, HS|]. intros r t Hb.
    destruct (i_buffers _ _ HS _ _ Hb) as [? ?]. split; [done|]. by apply detect_fast.
Qed.

(** The guards' fields are not the collector's. *)
Lemma head_of_field f r s r' : (forall x, head (f x) = head x) ->
  head_of (store_field f r s) r' = head_of s r'.
Proof.
  intros Hf. unfold head_of, store_field; simpl. rewrite tl_get_modify.
  case_decide; [|done]. destruct (tl_get (reservations s) r'); simpl; [|done]. by rewrite Hf.
Qed.

Lemma Inv_field f r s : (forall x, head (f x) = head x) -> Inv s -> Inv (store_field f r s).
Proof.
  intros Hf HI. pose proof HI as (_ & HS & HG).
  assert (forall r', head_of (store_field f r s) r' = head_of s r') as EH by (intros; by apply head_of_field).
  eapply Inv_stable; [done|done| | |].
  - constructor; try done.
    + intros b. apply bucket_ready_alter.
    + intros r'. by rewrite EH.
    + intros r' _ [Hi Hb]. split; [by rewrite EH|done].
  - constructor; try apply HS; [by apply tl_modify_wf, HS|]. intros r' t. rewrite EH. by apply (i_buffers _ _ HS).
  - by eapply GInv_eq.
Qed.

Lemma slot_free_below s t rest r : stack s t = rest -> slot_free s r -> unused_below s t rest r.
Proof.
  intros <- Hf t' d f Hd. apply (Hf t'). apply elem_of_frames. exists d.
  case_decide; [by subst|done].
Qed.

Lemma call_frames s o : legal_op o s ->
  exists f fs, call o = f :: fs /\ (fs = [] \/ fs = [FRet RUnit]) /\ frame_ok plat s f /\
    role_of f = RNone /\ forall r, uses f = Some r -> slot_free s r.
Proof.
  intros Hl. destruct o; simpl in Hl; try done; destruct_and?; eexists _, _;
    (split; [done|]); (split; [by auto|]); (split; [done|]); (split; [done|]); by intros r [= <-].
Qed.

Lemma Inv_call s t o : Inv s -> legal_op o s -> Inv (goto t (call o ++ stack s t) s).
Proof.
  intros (Hbs & HS & HG) Hl. split; [done|].
  destruct (call_frames s o Hl) as (f & fs & Ec & Hfs & Hf & Hr & Hu). rewrite Ec.
  assert (Forall (frame_ok plat s) (f :: fs) /\ Forall (fun f => role_of f = RNone) (f :: fs) /\
    (forall g r, g ∈ f :: fs -> uses g = Some r -> slot_free s r) /\
    (forall g, g ∈ fs -> uses g = None)) as (Hok & Hrn & Hu' & Htl).
  { assert (forall g, g ∈ fs -> g = FRet RUnit) as Hg.
    { intros g Hg. destruct Hfs as [-> | ->]; [by apply elem_of_nil in Hg|by apply list_elem_of_singleton in Hg]. }
    split_and!.
    - by destruct Hfs as [-> | ->]; frames.
    - by destruct Hfs as [-> | ->]; frames.
    - intros g r [->|Hx%Hg]%elem_of_cons; [apply Hu|by subst].
    - intros g Hx%Hg. by subst. }
  split.
  - apply (SInv_goto plat s s t [] (f :: fs) (stack s t) None); try done; try apply HS.
    + intros g Hg. by eapply Forall_forall in Hok.
    + intros g r Hg Hgr. apply slot_free_below; eauto.
  - eapply GInv_eq; [done| |done..]. intros t' d.
    rewrite (role_at_goto s s t [] (f :: fs) (stack s t)) by done.
    case_decide as E; [|done]. destruct E as [-> Hd]. rewrite role_at_above by done.
    destruct (frame_at (f :: fs) _) as [f'|] eqn:Ef; [|done]. simpl.
    assert (f' ∈ f :: fs) as Hin by (apply elem_of_frames; eauto).
    eapply Forall_forall in Hrn; [|done]. by rewrite Hrn.
Qed.

Lemma Inv_step l s s' ev :
  Inv s -> legal l s -> step plat batch_size l s = Some (s', ev) -> Inv s'.
Proof.
  intros HI Hl Hstep. destruct l as [t o|t|t|t|r|sys x86|r n|r|r]; simpl in *.
  - destruct (at_client _); [|done]. injection Hstep as <- <-. by apply Inv_call.
  - destruct (stack s t) as [|fr rest] eqn:Hs; [done|].
    destruct (at_client (fr :: rest)) eqn:Hc.
    { destruct fr; done. }
    destruct (run_frame_safe _ _ _ _ HI Hs Hc) as (s1 & ev1 & E & HI1). congruence.
  - destruct (stack s t) as [|fr rest] eqn:Hs; [done|]. destruct fr; try done. simpl in Hstep.
    destruct (step_cas_safe true _ _ _ _ _ _ _ _ _ HI Hs) as (s1 & ev1 & E & HI1). congruence.
  - destruct (stack s t) as [|fr rest] eqn:Hs; [done|]. destruct fr; try done.
    injection Hstep as <- <-. apply (Inv_pure _ _ s t (FReclaim p f) [] rest); try done.
    by intros [|[|d]].
  - injection Hstep as <- <-. by apply Inv_drain.
  - injection Hstep as <- <-. by apply Inv_detect.
  - injection Hstep as <- <-. by apply Inv_field.
  - destruct (lock_of s r) as [[]|]; try done. injection Hstep as <- <-. by apply Inv_field.
  - injection Hstep as <- <-. by apply Inv_field.
Qed.

Lemma Inv_steps s tr s' : Inv s -> steps plat batch_size s tr s' -> Inv s'.
Proof. intros HI Hst. induction Hst; [done|]. eapply IHHst, Inv_step; eauto. Qed.

Lemma Inv_new strat cap a0 a s :
  strategy_ok strat -> in_usize cap -> in_usize batch_size ->
  collector_new strat cap a0 = Ret (a, Ok s) -> Inv s.
Proof.
  intros Hstrat [Hcap _] Hbs. unfold collector_new.
  destruct (with_capacity_in cap a0) as [[a1 [res|]]|] eqn:E1; simpl; [|done..].
  destruct (with_capacity_in cap a1) as [[a2 [bat|]]|] eqn:E2; simpl; [| |done].
  2: { by destruct (tls_drop _ _). }
  intros [= <- <-].
  destruct (with_capacity_in_fresh _ _ _ _ Hcap E1) as [Hw1 Hg1].
  destruct (with_capacity_in_fresh _ _ _ _ Hcap E2) as [Hw2 Hg2].
  assert (forall t, stack (mkState strat ∅ res bat a2 ∅ ∅) t = []) as Hst by done.
  split; [done|]. split.
  - by constructor.
  - assert (forall r, head_of (mkState strat ∅ res bat a2 ∅ ∅) r = None) as EH
      by (intros; unfold head_of; simpl; by rewrite Hg1).
    assert (forall r, local_of (mkState strat ∅ res bat a2 ∅ ∅) r = None) as EL
      by (intros; unfold local_of; simpl; by rewrite Hg2).
    exists ∅, ∅. split; constructor; try done.
    + intros r. rewrite EH. by apply chain_null.
    + intros t d. by apply chain_null.
    + intros t d. change (pending ∅ t d RNone). intros x Hx. by rewrite lookup_empty in Hx.
    + intros x [? Hx]. done.
    + intros r. by rewrite EL.
Qed.

Lemma collector_new_heap strat cap a0 a s : collector_new strat cap a0 = Ret (a, Ok s) -> heap s = ∅.
Proof.
  unfold collector_new. destruct (with_capacity_in cap a0) as [[a1 [res|]]|]; simpl; [|done..].
  destruct (with_capacity_in cap a1) as [[a2 [bat|]]|]; simpl; [by intros [= _ <-]| |done].
  by destruct (tls_drop _ _).
Qed.

Lemma collector_new_threads strat cap a0 a s : collector_new strat cap a0 = Ret (a, Ok s) -> threads s = ∅.
Proof.
  unfold collector_new. destruct (with_capacity_in cap a0) as [[a1 [res|]]|]; simpl; [|done..].
  destruct (with_capacity_in cap a1) as [[a2 [bat|]]|]; simpl; [by intros [= _ <-]| |done].
  by destruct (tls_drop _ _).
Qed.

Lemma Inv_reachable s : reachable plat batch_size s -> Inv s.
Proof.
  intros (strat & cap & a0 & a & s0 & tr & Hs & Hc & Hbs & Hnew & Hst).
  eapply Inv_steps; [|done]. by apply (Inv_new strat cap a0 a).
Qed.

End Preserve.
