(* ===== verification/RawProtect.v ===== *)
(** * Guards protect retired objects

    The safety of the reclamation scheme: an object retired while a slot is
    active is not reclaimed before that slot leaves or is refreshed, in any
    interleaving, whatever the barrier strategy and its detection do, and even
    if the store that made the slot active is still in a store buffer. The
    proof follows one slot [rT] and one object [p] through the scan of the
    reservations, the insertion in the list of [rT] and the reference count. *)

From stdpp Require Import prelude list gmap.
From S2P Require Import Prelude Alloc ThreadId Membarrier Tls RawData RawStep RawGhost RawInv RawPreserve.

Open Scope Z_scope.

Section Protect.
Context {A : Type} `{Allocator A} `{BoxVec A} `{!BoxVecLaws A}.
Context `{EntryLayout Reservation} `{EntryLayout LocalBatch}.
Variables (plat : Platform) (batch_size : Z).

Abbreviation rstate := (raw_state A).
Abbreviation Inv := (Inv plat batch_size).
Abbreviation step := (step plat batch_size).
Abbreviation steps := (steps plat batch_size).
Implicit Types (s : rstate) (r : slot) (t d : nat) (rest fs : list frame).

(** [Collector::enter] was executed for slot [r]: its head is not [INACTIVE],
    or the store of null is pending. *)
Definition guarded s r : Prop :=
  exists hd, head_of s r = Some hd /\ (hd <> INACTIVE \/ is_Some (buffers s !! r)).

(** Entry [j] of batch [b] has not been given to its reclaimer. *)
Definition unreclaimed s (b : Z) (j : nat) : Prop :=
  forall t d i, frame_at (stack s t) d = Some (FFree b i) -> (i <= j)%nat.

(** Object [p] waits in batch [b], or in any batch. *)
Definition awaits s (p b : Z) : Prop :=
  exists j e, entry_at (heap s) b j = Some e /\ ptr e = p /\ unreclaimed s b j.

(** Batch [b] is still filling up: it is a local batch, and no scan of it has
    begun. *)
Definition filling s (b : Z) : Prop :=
  exists r, local_of s r = Some (BPtr b) /\
    forall t d pc, frame_at (stack s t) d = Some (FTry r pc) -> pc = TStrategy.

(** Object [p] is in no batch that is being or was taken out of its slot. *)
Definition unscanned s (p : Z) : Prop := forall b, awaits s p b -> filling s b.

Section Slot.
Variables (rT : slot) (p : Z).

Definition mem_active s : Prop := exists hd, head_of s rT = Some hd /\ hd <> INACTIVE.

Definition linked s (b : Z) : Prop := exists j, slot_link (head_of s) (heap s) rT (b, j).

(** An entry of [b] between [i] and [m] holds the location of [rT]'s list. *)
Definition marked_for s (b : Z) (i m : nat) : Prop :=
  exists j e, (i <= j < m)%nat /\ entry_at (heap s) b j = Some e /\ state e = SHead (Some rT).

Definition try_covers s (b : Z) (pc : try_pc) : Prop :=
  match pc with
  | TStrategy => True
  | TBarrier h => process_wide h = true \/ mem_active s
  | TBatch => mem_active s
  | TScan _ m _ it => mem_active s /\ (marked_for s b 0 m \/ not_passed it rT)
  | TMark _ m it r' => mem_active s /\ (marked_for s b 0 m \/ r' = rT \/ not_passed it rT)
  | TReset _ m => mem_active s /\ marked_for s b 0 m
  end.

Definition pends s (b : Z) (f : frame) : Prop :=
  match f with
  | FRetire b' m i _ => b' = b /\ marked_for s b i m
  | FCas b' m i _ r prev => b' = b /\ ((r = rT /\ prev <> INACTIVE) \/ marked_for s b (S i) m)
  | _ => False
  end.

(** Why batch [b] cannot be freed before [rT] leaves. *)
Inductive covered s (b : Z) : Prop :=
| CovLocal r :
    local_of s r = Some (BPtr b) ->
    (forall t d pc, frame_at (stack s t) d = Some (FTry r pc) -> try_covers s b pc) ->
    covered s b
| CovLinked : mem_active s -> linked s b -> covered s b
| CovPending t d f :
    mem_active s -> frame_at (stack s t) d = Some f -> pends s b f -> covered s b.

Definition Prot s : Prop :=
  guarded s rT /\ forall b, awaits s p b -> covered s b.

(** ** Frame rule *)

Lemma pends_role b f s : pends s b f -> retires (role_of f) b.
Proof. destruct f; simpl; try done; by intros [-> _]. Qed.

Lemma role_at_frame s t d f : frame_at (stack s t) d = Some f -> role_at s t d = role_of f.
Proof. intros Hf. unfold role_at. by rewrite Hf. Qed.

(** A covered batch is not being freed. *)
Lemma covered_not_free s b t d i :
  Inv s -> covered s b -> frame_at (stack s t) d <> Some (FFree b i).
Proof.
  intros (_ & _ & HG) Hc Hf. apply role_at_frame in Hf; simpl in Hf.
  assert (role_batch (role_at s t d) = Some b) as HRb by by rewrite Hf.
  destruct Hc as [r HL _|_ [j Hl]|t' d' f _ Hf' Hp].
  - by apply (G_local_no_role _ _ _ _ _ HG _ _ _ _ HL HRb).
  - destruct (slot_link_batch _ _ _ _ _ HG _ _ Hl) as (_ & _ & Hn & _). by eapply Hn.
  - apply role_at_frame in Hf'. apply pends_role in Hp. rewrite <-Hf' in Hp.
    pose proof Hp as [HRb' _]%retires_batch.
    destruct (G_role_inj _ _ _ _ _ HG _ _ _ _ _ HRb HRb') as [<- <-]. by rewrite Hf in Hp.
Qed.

Lemma linked_mono s s1 b :
  list_of (head_of s1 rT) = list_of (head_of s rT) ->
  (forall x, slot_link (head_of s) (heap s) rT x -> next_of (heap s1) x = next_of (heap s) x) ->
  linked s b -> linked s1 b.
Proof.
  intros Hh Hn [j (l & Hl & Hj)]. exists j, l. split; [|done]. rewrite Hh.
  eapply links_ext; [|done]. intros x Hx. apply Hn. by exists l.
Qed.

Lemma marked_for_mono s s1 b i m :
  (forall j, entry_at (heap s1) b j = entry_at (heap s) b j) ->
  marked_for s b i m -> marked_for s1 b i m.
Proof. intros He (j & e & Hj & Hje & Hst). exists j, e. by rewrite He. Qed.

Lemma pends_mono s s1 b f :
  (forall j, entry_at (heap s1) b j = entry_at (heap s) b j) -> pends s b f -> pends s1 b f.
Proof.
  intros He. destruct f; simpl; try done.
  - intros [-> ?]. split; [done|]. by eapply marked_for_mono.
  - intros [-> [?|?]]; (split; [done|]); [by left|right]. by eapply marked_for_mono.
Qed.

Lemma try_covers_mono s s1 b pc :
  (mem_active s -> mem_active s1) -> (forall j, entry_at (heap s1) b j = entry_at (heap s) b j) ->
  try_covers s b pc -> try_covers s1 b pc.
Proof.
  intros Hm He. destruct pc; simpl; try done; auto.
  - intros [?|?]; auto.
  - intros [? [?|?]]; (split; [auto|]); [left; by eapply marked_for_mono|by right].
  - intros [? [?|?]]; (split; [auto|]); [left; by eapply marked_for_mono|by right].
  - intros [? ?]; (split; [auto|]). by eapply marked_for_mono.
Qed.

Definition is_try (f : frame) : option slot :=
  match f with FTry r _ => Some r | _ => None end.

(** A step of [t] that replaces the frames [old] by [fs], and otherwise goes
    from [s] to [s1]; [F] are the batches it works on. *)
Record view (F : Z -> Prop) (old fs : list frame) s s1 : Prop := {
  v_threads : threads s1 = threads s;
  v_guarded : guarded s1 rT;
  v_active : mem_active s -> mem_active s1;
  v_linked b : linked s b -> linked s1 b;
  v_heap b j : ~ F b -> entry_at (heap s1) b j = entry_at (heap s) b j;
  v_free b i f : ~ F b -> f ∈ old \/ f ∈ fs -> f <> FFree b i;
  v_local r b : ~ F b -> local_of s r = Some (BPtr b) -> local_of s1 r = Some (BPtr b);
  v_try r b f : ~ F b -> local_of s r = Some (BPtr b) -> f ∈ fs -> is_try f <> Some r;
  v_pends b f : ~ F b -> f ∈ old -> ~ retires (role_of f) b
}.

Lemma covered_frame F old fs s s1 t rest b :
  view F old fs s s1 -> stack s t = old ++ rest -> ~ F b ->
  covered s b -> covered (goto t (fs ++ rest) s1) b.
Proof.
  intros HV Hs HF Hc. assert (forall t', stack s1 t' = stack s t') as Es
    by (intros; unfold stack; by rewrite (v_threads _ _ _ _ _ HV)).
  assert (forall j, entry_at (heap s1) b j = entry_at (heap s) b j) as He
    by (intros; by apply (v_heap _ _ _ _ _ HV)).
  destruct Hc as [r HL Htry|Ha Hl|t' d f Ha Hf Hp].
  - apply (CovLocal _ _ r); [by apply (v_local _ _ _ _ _ HV)|].
    intros t' d pc [(-> & _ & Hf)|[_ Hf]]%frame_at_goto.
    + exfalso. apply (v_try _ _ _ _ _ HV r b (FTry r pc)); try done. apply elem_of_frames. eauto.
    + rewrite Es in Hf. apply (frame_at_below _ _ _ _ _ _ _ Hs) in Hf.
      eapply (try_covers_mono s); [apply HV|done|by eapply Htry].
  - apply CovLinked; [by apply (v_active _ _ _ _ _ HV)|by apply (v_linked _ _ _ _ _ HV)].
  - apply (CovPending _ _ t' d f); [by apply (v_active _ _ _ _ _ HV)| |by eapply (pends_mono s)].
    rewrite stack_goto. case_decide as Ht; [subst t'|by rewrite Es].
    rewrite Hs, frame_at_app in Hf. rewrite frame_at_app. case_decide; [done|].
    exfalso. apply pends_role in Hp. apply (v_pends _ _ _ _ _ HV b f); try done.
    apply elem_of_frames. eauto.
Qed.

Lemma awaits_frame F old fs s s1 t rest b :
  view F old fs s s1 -> stack s t = old ++ rest -> ~ F b ->
  awaits (goto t (fs ++ rest) s1) p b -> awaits s p b.
Proof.
  intros HV Hs HF (j & e & He & Hp & Hu). exists j, e.
  change (entry_at (heap s1) b j = Some e) in He. rewrite (v_heap _ _ _ _ _ HV) in He by done.
  split_and!; try done. intros t' d i Hf. apply (Hu t' d). rewrite stack_goto.
  case_decide as Ht; [subst t'|unfold stack; by rewrite (v_threads _ _ _ _ _ HV)].
  rewrite Hs, frame_at_app in Hf. rewrite frame_at_app. case_decide; [done|].
  exfalso. eapply (v_free _ _ _ _ _ HV b i); [done| |done]. left. apply elem_of_frames. eauto.
Qed.

(** The step keeps [Prot] if it covers the batches it works on. *)
Lemma Prot_goto F old fs s s1 t rest :
  (forall b, F b \/ ~ F b) ->
  Prot s -> view F old fs s s1 -> stack s t = old ++ rest ->
  (forall b, F b -> awaits (goto t (fs ++ rest) s1) p b -> covered (goto t (fs ++ rest) s1) b) ->
  Prot (goto t (fs ++ rest) s1).
Proof.
  intros Hdec [_ HP] HV Hs HF. split; [apply (v_guarded _ _ _ _ _ HV)|].
  intros b Hb. destruct (Hdec b) as [|Hn]; [by apply HF|].
  eapply covered_frame; [done..|]. apply HP. by eapply awaits_frame.
Qed.

(** Frames that neither hold a batch nor start a scan. *)
Definition quiet (f : frame) : Prop :=
  match f with
  | FTry _ _ | FRetire _ _ _ _ | FCas _ _ _ _ _ _ | FFinish _ _ | FFree _ _ => False
  | _ => True
  end.

Definition quiet_old (f : frame) : Prop := match f with FTry _ _ => True | _ => quiet f end.

(** The step changes no head that matters, no entry and no local batch. *)
Lemma Prot_quiet s s1 t old fs rest :
  Prot s -> stack s t = old ++ rest -> threads s1 = threads s ->
  guarded s1 rT -> (mem_active s -> mem_active s1) -> (forall b, linked s b -> linked s1 b) ->
  (forall b j, entry_at (heap s1) b j = entry_at (heap s) b j) ->
  (forall r b, local_of s r = Some (BPtr b) -> local_of s1 r = Some (BPtr b)) ->
  Forall quiet_old old -> Forall quiet fs ->
  Prot (goto t (fs ++ rest) s1).
Proof.
  intros HP Hs Hth Hg Ha Hl He HL Hold Hfs.
  apply (Prot_goto (fun _ => False) old fs s); [right; by intros []|done| |done|intros ? []].
  rewrite Forall_forall in Hold, Hfs. constructor; try done; auto.
  - intros b i f _ [Hf%Hold|Hf%Hfs] ->; done.
  - intros r b f _ _ Hf%Hfs Hr. by destruct f.
  - intros b f _ Hf%Hold Hr. by destruct f.
Qed.

(** The head of [rT], the entries and the local batches stay as they are. *)
Lemma Prot_same s s1 t old fs rest :
  Prot s -> stack s t = old ++ rest -> threads s1 = threads s ->
  head_of s1 rT = head_of s rT -> buffers s1 !! rT = buffers s !! rT ->
  (forall b j, entry_at (heap s1) b j = entry_at (heap s) b j) ->
  (forall r b, local_of s r = Some (BPtr b) -> local_of s1 r = Some (BPtr b)) ->
  Forall quiet_old old -> Forall quiet fs ->
  Prot (goto t (fs ++ rest) s1).
Proof.
  intros HP Hs Hth Hh Hb He HL Hold Hfs. eapply Prot_quiet; try done.
  - destruct HP as [(hd & ? & ?) _]. exists hd. by rewrite Hh, Hb.
  - unfold mem_active. by rewrite Hh.
  - intros b. apply linked_mono; [by rewrite Hh|]. intros x _. unfold next_of. by rewrite He.
Qed.

Lemma guarded_head s : guarded s rT -> is_Some (head_of s rT).
Proof. intros (hd & -> & _). eauto. Qed.

Lemma Prot_load s t k th pc rest s' ev :
  Inv s -> Prot s -> stack s t = FLoad k th pc :: rest ->
  step_load t k th pc rest s = Some (s', ev) -> Prot s'.
Proof.
  intros HI HP Hs. destruct (Inv_top _ _ _ _ _ _ HI Hs) as [Hth Hpc]. pose proof HI as (_ & HS & HG).
  destruct (guarded_head _ (proj1 HP)) as [hd Hhd].
  unfold step_load. destruct k as [|q f|].
  1: destruct (load_step_ok Reservation_default th pc (reservations s) (alloc s) (i_res _ _ HS) Hth Hpc)
    as (a & tl & r & -> & (_ & _ & Hne & Hown) & _).
  2-3: destruct (load_step_ok LocalBatch_default th pc (batches s) (alloc s) (i_bat _ _ HS) Hth Hpc)
    as (a & tl & r & -> & (_ & _ & Hne & Hown) & _).
  1: assert (head_of (set_alloc a (set_reservations tl s)) rT = head_of s rT) as Hh.
  1: { unfold head_of in *; simpl. destruct (decide (rT = thread_slot th)) as [->|]; [|by rewrite Hne].
       destruct Hown as [->|[E _]]; [done|]. by rewrite E in Hhd. }
  2-3: assert (forall r' b, local_of s r' = Some (BPtr b) ->
    local_of (set_alloc a (set_batches tl s)) r' = Some (BPtr b)) as HL
    by (intros r' b; unfold local_of; simpl; destruct (decide (r' = thread_slot th)) as [->|];
        [by destruct Hown as [->|[-> _]]|by rewrite Hne]).
  all: destruct r; intros [= <- _]; eapply (Prot_same s _ t [_] [_]); try done; by frames.
Qed.

Lemma Prot_pure_quiet s t old fs rest :
  Prot s -> stack s t = old ++ rest -> Forall quiet_old old -> Forall quiet fs ->
  Prot (goto t (fs ++ rest) s).
Proof. intros. by eapply (Prot_same s s). Qed.

(** The links of a slot are not among the batches the owner of a slot works on. *)
Lemma owner_linked r s s1 b :
  Inv s -> owner_step plat r s s1 -> linked s b -> linked s1 b.
Proof.
  intros (_ & _ & HG) Ho. apply linked_mono; [unfold head_of; by rewrite (os_res _ _ _ _ Ho)|].
  intros x Hx. destruct (slot_link_batch _ _ _ _ _ HG _ _ Hx) as (Hbx & HL & _).
  unfold next_of, entry_at. rewrite (os_heap _ _ _ _ Ho); [done|]. intros HL1.
  destruct (os_new _ _ _ _ Ho _ HL1); [by eapply HL|done].
Qed.

(** The owner of slot [r], in frame [f0], works on its local batch. *)
Lemma Prot_owner r s s1 t f0 fs rest :
  Inv s -> Prot s -> stack s t = f0 :: rest -> uses f0 = Some r -> owner_step plat r s s1 ->
  quiet_old f0 -> (forall f, f ∈ fs -> quiet f \/ exists pc, f = FTry r pc) ->
  (forall b pc, local_of s1 r = Some (BPtr b) -> FTry r pc ∈ fs ->
     awaits (goto t (fs ++ rest) s1) p b -> try_covers s1 b pc) ->
  Prot (goto t (fs ++ rest) s1).
Proof.
  intros HI HP Hs Hu Ho Hq Hfs Htry. pose proof HI as (_ & HS & HG).
  assert (forall r, head_of s1 r = head_of s r) as EH
    by (intros; unfold head_of; by rewrite (os_res _ _ _ _ Ho)).
  apply (Prot_goto (fun b => local_of s1 r = Some (BPtr b)) [f0] fs s); [intros b|done| |done|].
  - destruct (decide (local_of s1 r = Some (BPtr b))); auto.
  - constructor.
    + apply Ho.
    + destruct HP as [(hd & ? & ?) _]. exists hd. by rewrite EH, (os_buf _ _ _ _ Ho).
    + unfold mem_active. by rewrite EH.
    + intros b. by eapply owner_linked.
    + intros b j Hb. unfold entry_at. by rewrite (os_heap _ _ _ _ Ho).
    + intros b i f _ [Hf|Hf] ->; [by apply list_elem_of_singleton in Hf as <-|].
      by destruct (Hfs _ Hf) as [|[pc ?]].
    + intros r' b _. by apply (os_keep _ _ _ _ Ho).
    + intros r' b f Hb HL Hf Hr'. destruct (Hfs _ Hf) as [Hqf|[pc ->]]; [by destruct f|].
      injection Hr' as <-. apply Hb. by apply (os_keep _ _ _ _ Ho).
    + intros b f _ Hf%list_elem_of_singleton Hr. subst f. by destruct f0.
  - intros b HL Ha. apply (CovLocal _ _ r); [done|].
    intros t' d pc [(-> & _ & Hf)|[_ Hf]]%frame_at_goto.
    + apply (Htry b pc); [done| |done]. apply elem_of_frames. eauto.
    + exfalso. eapply (unused_top plat s t f0 rest r HS Hs Hu t' d (FTry r pc)); [|done].
      case_decide; [done|]. unfold stack in *. by rewrite (os_threads _ _ _ _ Ho) in Hf.
Qed.

Lemma owner_refl r s : Inv s -> owner_step plat r s s.
Proof. intros HI. pose proof HI as (_ & HS & HG). apply (owner_intro plat batch_size); try done; [apply HS|by left]. Qed.

(** The old frame was not freeing [b]: what waits in [b] was waiting before. *)
Lemma awaits_goto s s1 t f0 fs rest b :
  stack s t = f0 :: rest -> threads s1 = threads s -> (forall i, f0 <> FFree b i) ->
  (forall j e, entry_at (heap s1) b j = Some e -> ptr e = p ->
     exists e', entry_at (heap s) b j = Some e' /\ ptr e' = p) ->
  awaits (goto t (fs ++ rest) s1) p b -> awaits s p b.
Proof.
  intros Hs Hth Hf0 He (j & e & Hje & Hp & Hu). destruct (He j e Hje Hp) as (e' & He' & Hp').
  exists j, e'. split_and!; try done. intros t' d i Hf. apply (Hu t' d). rewrite stack_goto.
  case_decide as Ht; [subst t'|unfold stack; by rewrite Hth].
  rewrite Hs, (frame_at_app [f0] rest) in Hf. rewrite frame_at_app. case_decide; [done|].
  rewrite frame_at_1 in Hf. case_decide; [|done]. by injection Hf as ->; destruct (Hf0 i).
Qed.

Lemma covered_local s b r t d pc :
  Inv s -> covered s b -> local_of s r = Some (BPtr b) ->
  frame_at (stack s t) d = Some (FTry r pc) -> try_covers s b pc.
Proof.
  intros (_ & _ & HG) Hc HL Hf. destruct Hc as [r' HL' Htry|_ [j Hl]|t' d' f _ Hf' Hp].
  - rewrite (G_local_inj _ _ _ _ _ HG _ _ _ HL' HL) in Htry. eauto.
  - destruct (slot_link_batch _ _ _ _ _ HG _ _ Hl) as (_ & Hn & _). by apply Hn in HL.
  - apply role_at_frame in Hf'. apply pends_role in Hp. rewrite <-Hf' in Hp.
    apply retires_batch in Hp as [HR _]. by apply (G_local_no_role _ _ _ _ _ HG _ _ _ _ HL) in HR.
Qed.

Lemma try_old s t r pc rest b :
  Inv s -> Prot s -> stack s t = FTry r pc :: rest -> local_of s r = Some (BPtr b) -> awaits s p b ->
  try_covers s b pc.
Proof.
  intros HI [_ HP] Hs HL Ha. eapply covered_local; [done|by apply HP|done|]. by apply frame_at_top.
Qed.

(** [try_retire]: a step that only changes the stack. *)
Lemma Prot_try_pure s t r pc fs rest :
  Inv s -> Prot s -> stack s t = FTry r pc :: rest ->
  (forall f, f ∈ fs -> exists pc', f = FTry r pc') ->
  (forall b pc', local_of s r = Some (BPtr b) -> try_covers s b pc -> FTry r pc' ∈ fs -> try_covers s b pc') ->
  Prot (goto t (fs ++ rest) s).
Proof.
  intros HI HP Hs Hfs Hc. eapply Prot_owner; try done; [by apply owner_refl|by right; apply Hfs|].
  intros b pc' HL Hin Ha. apply Hc; [done| |done]. eapply try_old; try done.
  eapply (awaits_goto s s); try done. intros j e He Hp. eauto.
Qed.

Lemma Prot_add s t r q f rest s' ev :
  Inv s -> Prot s -> stack s t = FAdd r q f :: rest ->
  step_add batch_size t r q f rest s = Some (s', ev) -> Prot s'.
Proof.
  intros HI HP Hs Hstep. pose proof (Inv_top _ _ _ _ _ _ HI Hs) as Hr. simpl in Hr.
  destruct (step_add_spec _ _ s t r q f rest HI Hr) as (s1 & fs & ev1 & E & Ho & Hcase).
  rewrite E in Hstep. injection Hstep as <- _.
  assert (fs = [FRet RErr] \/ fs = [FRet ROk] \/ fs = [FTry r TStrategy; FRet ROk]) as Hfs.
  { destruct Hcase as [(-> & _)|(b & _ & _ & _ & _ & ->)]; [auto|case_decide; auto]. }
  eapply Prot_owner; try done.
  - intros g Hg. destruct Hfs as [->|[->| ->]]; inlist Hg; subst; eauto; by left.
  - intros b pc _ Hg _. destruct Hfs as [->|[->| ->]]; inlist Hg; try done.
    by injection Hg as ->.
Qed.

Lemma Prot_reserve s t r rest s' ev :
  Inv s -> Prot s -> stack s t = FReserve r :: rest ->
  step_reserve batch_size t r rest s = Some (s', ev) -> Prot s'.
Proof.
  intros HI HP Hs Hstep. pose proof (Inv_top _ _ _ _ _ _ HI Hs) as Hr. simpl in Hr.
  destruct (step_reserve_spec _ _ s t r rest HI Hr) as (s1 & x & E & Ho & _).
  rewrite E in Hstep. injection Hstep as <- _.
  apply (Prot_owner r s s1 t (FReserve r) [FRet (if x then ROk else RErr)]); try done.
  - intros g ->%list_elem_of_singleton. by left.
  - by intros b pc _ ?%list_elem_of_singleton.
Qed.

Lemma Prot_flush s t th rest s' ev :
  Inv s -> Prot s -> stack s t = FFlush th :: rest -> step_flush t th rest s = Some (s', ev) -> Prot s'.
Proof.
  intros HI HP Hs. unfold step_flush. destruct (get _ th); intros [= <- _].
  - apply (Prot_owner (thread_slot th) s s t (FFlush th) [FTry (thread_slot th) TStrategy; FRet RUnit]); try done;
      [by apply owner_refl| |].
    + intros g Hg. inlist Hg; subst; eauto. by left.
    + intros b pc _ Hg. inlist Hg; [by injection Hg as ->|done].
  - apply (Prot_pure_quiet s t [FFlush th] [FRet RUnit]); try done; frames.
Qed.

(** ** Store buffers and barriers *)

Lemma drain_guarded P s : guarded s rT -> guarded (drain P s) rT.
Proof.
  intros (hd & Hhd & Hg). unfold guarded. rewrite head_of_drain, Hhd. simpl.
  destruct (drained P s rT) eqn:E; [by exists ENull; split; [|left]|].
  exists hd. split; [done|]. destruct Hg as [|[t Ht]]; [by left|right]. exists t.
  apply buffers_drain. split; [done|]. unfold drained in E. by rewrite Ht in E.
Qed.

Lemma drain_active P s : mem_active s -> mem_active (drain P s).
Proof.
  intros (hd & Hhd & Hn). unfold mem_active. rewrite head_of_drain, Hhd. simpl.
  destruct (drained P s rT); eauto.
Qed.

Lemma drain_list_of P s r : Inv s -> list_of (head_of (drain P s) r) = list_of (head_of s r).
Proof.
  intros (_ & HS & _). rewrite head_of_drain. destruct (drained P s r) eqn:E; [|done].
  apply drained_buffer in E as (t & Hb & _). by destruct (i_buffers _ _ HS _ _ Hb) as [-> _].
Qed.

Lemma drain_linked P s b : Inv s -> linked s b -> linked (drain P s) b.
Proof. intros HI. apply linked_mono; [by apply drain_list_of|done]. Qed.

(** After a process-wide barrier the head of a guarded slot is active. *)
Lemma barrier_active s t h : guarded s rT -> process_wide h = true \/ mem_active s -> mem_active (barrier t h s).
Proof.
  intros (hd & Hhd & Hg) Hh. destruct (decide (process_wide h = true)) as [E|E].
  - unfold mem_active, barrier. rewrite E, head_of_drain, Hhd. simpl. unfold drained.
    destruct (buffers s !! rT) as [t'|]; [by eexists|]. destruct Hg as [|[? ?]]; [eauto|done].
  - destruct Hh as [|Ha]; [done|]. destruct (barrier_drain t h s) as [P ->]. by apply drain_active.
Qed.

Lemma Prot_barrier s t r h rest :
  Inv s -> Prot s -> stack s t = FTry r (TBarrier h) :: rest ->
  Prot (goto t ([FTry r TBatch] ++ rest) (barrier t h s)).
Proof.
  intros HI HP Hs. pose proof HI as (_ & HS & HG).
  assert (exists P, barrier t h s = drain P s) as [P EP] by apply barrier_drain.
  apply (Prot_goto (fun b => local_of s r = Some (BPtr b)) [FTry r (TBarrier h)] [FTry r TBatch] s);
    [intros b|done| |done|].
  - destruct (decide (local_of s r = Some (BPtr b))); auto.
  - rewrite EP. constructor; try done.
    + apply drain_guarded, HP.
    + apply drain_active.
    + intros b. by apply drain_linked.
    + intros b i f _ [Hf|Hf]; inlist Hf; by subst.
    + intros r' b f Hb HL Hf. inlist Hf. subst. simpl. intros [= ->]. by apply Hb.
    + intros b f _ Hf. inlist Hf. subst f. by intros ?.
  - intros b HL Ha. apply (CovLocal _ _ r); [by rewrite EP|].
    assert (try_covers s b (TBarrier h)) as Hold.
    { eapply try_old; try done. eapply (awaits_goto s (barrier t h s)); try done.
      - by rewrite EP.
      - rewrite EP. eauto. }
    intros t' d pc [(-> & _ & Hf)|[_ Hf]]%frame_at_goto.
    + rewrite frame_at_1 in Hf. case_decide; [|done]. injection Hf as <-. simpl.
      apply barrier_active; [apply HP|done].
    + exfalso. eapply (unused_top plat s t _ rest r HS Hs eq_refl t' d (FTry r pc)); [|done].
      case_decide; [done|]. rewrite EP in Hf. exact Hf.
Qed.

Lemma Prot_stack_ext s s' :
  Prot s -> (forall t, stack s' t = stack s t) -> reservations s' = reservations s ->
  batches s' = batches s -> buffers s' = buffers s -> heap s' = heap s -> Prot s'.
Proof.
  intros [Hg HP] Es Er Eb Ebuf Eh.
  assert (forall r, head_of s' r = head_of s r) as EH by (intros; unfold head_of; by rewrite Er).
  assert (head_of s' = head_of s) as EH' by (unfold head_of; by rewrite Er).
  split; [destruct Hg as (hd & ? & ?); exists hd; by rewrite EH, Ebuf|].
  intros b (j & e & He & Hp & Hu). rewrite Eh in He.
  assert (covered s b) as Hc.
  { apply HP. exists j, e. split_and!; try done. intros t d i Hf. apply (Hu t d). by rewrite Es. }
  destruct Hc as [r HL Htry|Ha Hl|t d f Ha Hf Hp'].
  - apply (CovLocal _ _ r); [unfold local_of; by rewrite Eb|]. intros t d pc Hf. rewrite Es in Hf.
    eapply (try_covers_mono s); [unfold mem_active; by rewrite EH|by rewrite Eh|eauto].
  - apply CovLinked; [unfold mem_active; by rewrite EH|]. unfold linked. by rewrite EH', Eh.
  - apply (CovPending _ _ t d f); [unfold mem_active; by rewrite EH|by rewrite Es|].
    eapply pends_mono; [|done]. by rewrite Eh.
Qed.

Lemma stack_goto_same s t t' : stack (goto t ([] ++ stack s t) s) t' = stack s t'.
Proof. rewrite stack_goto. case_decide; [by subst|done]. Qed.

Lemma Prot_drain P s : Inv s -> Prot s -> Prot (drain P s).
Proof.
  intros HI HP. apply (Prot_stack_ext (goto 0 ([] ++ stack s 0) (drain P s))); try done.
  - eapply (Prot_quiet s); try done; frames.
    + apply drain_guarded, HP.
    + apply drain_active.
    + intros b. by apply drain_linked.
  - intros t. symmetry. apply (stack_goto_same (drain P s) 0 t).
Qed.

Lemma Prot_detect sys x86 s : Prot s -> Prot (set_strategy (detect plat sys x86 (strategy s)) s).
Proof. intros HP. by apply (Prot_stack_ext s). Qed.

Lemma Prot_field f r s : (forall x, head (f x) = head x) -> Prot s -> Prot (store_field f r s).
Proof.
  intros Hf HP. assert (forall r', head_of (store_field f r s) r' = head_of s r') as EH
    by (intros; by apply head_of_field).
  apply (Prot_stack_ext (goto 0 ([] ++ stack s 0) (store_field f r s))); try done.
  - apply (Prot_same s _ 0 []); try done; frames.
  - intros t. symmetry. apply (stack_goto_same (store_field f r s) 0 t).
Qed.

(** ** Marking and retiring *)

Lemma mem_active_head s r : mem_active s -> head_of s r = Some INACTIVE -> r <> rT.
Proof. intros (hd & Hhd & Hn) Hr ->. congruence. Qed.

Lemma Prot_scan s t r b m ipc it rest s' ev :
  Inv s -> Prot s -> stack s t = FTry r (TScan b m ipc it) :: rest ->
  step_try plat t r (TScan b m ipc it) rest s = Some (s', ev) -> Prot s'.
Proof.
  intros HI HP Hs. destruct (Inv_top _ _ _ _ _ _ HI Hs) as (_ & HL & _ & Hit & Hpc). pose proof HI as (_ & HS & HG).
  simpl. destruct (iter_step (reservations s) ipc it) as [res|] eqn:E; [|done]. simpl.
  assert (is_Some (tl_get (reservations s) rT)) as HrT.
  { destruct (guarded_head _ (proj1 HP)) as [hd Hhd]. unfold head_of in Hhd. by destruct (tl_get _ rT). }
  pose proof (iter_step_covers _ _ _ _ rT (i_res _ _ HS) Hit Hpc E HrT) as Hcov.
  destruct res as [ipc' it'|r' it'|]; intros [= <- _];
    eapply (Prot_try_pure s t r _ [_]); try done;
    try (intros f Hf; inlist Hf; by eexists);
    intros b' pc' HL' Htry Hf; inlist Hf; injection Hf as ->; simpl in *;
    destruct Htry as [Ha Hm]; (split; [done|]).
  - destruct Hm as [|Hn]; [by left|right]. by apply Hcov.
  - destruct Hm as [|Hn]; [by left|right]. by apply Hcov.
  - destruct Hm as [|Hn]; [done|]. by destruct (Hcov Hn).
Qed.

Lemma entry_at_set_state s b i st j :
  entry_at (heap (store_batch b (set_state i st) s)) b j =
    (fun e => if decide (i = j) then {| ptr := ptr e; reclaim := reclaim e; state := st; e_batch := e_batch e |} else e)
      <$> entry_at (heap s) b j.
Proof.
  unfold entry_at. simpl. rewrite lookup_alter_eq. destruct (heap s !! b) as [bt|]; simpl; [|done].
  destruct (decide (i = j)) as [->|].
  - by rewrite list_lookup_alter_eq.
  - rewrite list_lookup_alter_ne by done. by destruct (entries bt !! j).
Qed.

Lemma marked_for_set_state s b k st i m :
  (k < i)%nat \/ (m <= k)%nat \/ st = SHead (Some rT) ->
  marked_for s b i m -> marked_for (store_batch b (set_state k st) s) b i m.
Proof.
  intros Hk (j & e & Hj & He & Hst). exists j.
  eexists. split; [done|]. rewrite entry_at_set_state, He. split; [done|].
  destruct (decide (k = j)) as [->|]; [|done]. simpl. destruct Hk as [|[|]]; [lia|lia|done].
Qed.

(** Replacing a state keeps what waits in the batches. *)
Lemma awaits_set_state s t f0 fs rest b k st b' :
  stack s t = f0 :: rest -> (forall i, f0 <> FFree b' i) ->
  awaits (goto t (fs ++ rest) (store_batch b (set_state k st) s)) p b' -> awaits s p b'.
Proof.
  intros Hs Hf. eapply awaits_goto; try done. intros j e He Hp.
  destruct (decide (b' = b)) as [->|].
  - rewrite entry_at_set_state in He. destruct (entry_at (heap s) b j) as [e'|]; [|done].
    exists e'. split; [done|]. simpl in He. case_decide; by simplify_eq.
  - exists e. unfold entry_at in *. simpl in He. by rewrite lookup_alter_ne in He.
Qed.

Lemma Prot_mark s t r b m it r' rest s' ev :
  Inv s -> Prot s -> stack s t = FTry r (TMark b m it r') :: rest ->
  step_try plat t r (TMark b m it r') rest s = Some (s', ev) -> Prot s'.
Proof.
  intros HI HP Hs Hstep. pose proof Hstep as Hstep'.
  destruct (Inv_top _ _ _ _ _ _ HI Hs) as (_ & HL & Hm & Hit & [hd Hhd]). pose proof HI as (_ & HS & HG).
  simpl in Hstep. rewrite Hhd in Hstep. simpl in Hstep. case_decide as Hin.
  { injection Hstep as <- _. eapply (Prot_try_pure s t r _ [_]); try done.
    - intros f Hf; inlist Hf; by eexists.
    - intros b' pc' HL' [Ha Hc] Hf. inlist Hf. injection Hf as ->. split; [done|].
      destruct Hc as [|[->|]]; [by left| |by right]. subst. by destruct (mem_active_head _ _ Ha Hhd). }
  destruct (G_local_heap _ _ _ _ _ HG _ _ HL) as (bt & Hb & Hok & _). rewrite Hb in Hstep. simpl in Hstep.
  destruct (entries bt !! m) as [e|] eqn:He; injection Hstep as <- _.
  2: { apply (Prot_pure_quiet s t [FTry r (TMark b m it r')] []); try done; frames. }
  set (s1 := store_batch b (set_state m (SHead (Some r'))) s).
  eapply (Prot_owner r s s1 t _ [_]); try done.
  - by apply (mark_owner plat batch_size s t r b m it r' rest bt e).
  - intros f Hf. inlist Hf. right. by eexists.
  - intros b' pc HL' Hf Ha. inlist Hf. injection Hf as ->.
    change (local_of s r = Some (BPtr b')) in HL'. assert (b' = b) as -> by congruence.
    apply (awaits_set_state s t (FTry r (TMark b m it r'))) in Ha; try done.
    destruct (try_old _ _ _ _ _ _ HI HP Hs HL Ha) as [Hact Hc]. split; [done|].
    destruct Hc as [Hmk|[->|Hn]]; [left|left|by right].
    + apply (marked_for_set_state s b m (SHead (Some r')) 0 m) in Hmk; [|lia].
      destruct Hmk as (j & e' & Hj & Hj'). exists j, e'. split; [lia|done].
    + exists m. eexists. unfold s1. rewrite entry_at_set_state. unfold entry_at. rewrite Hb. simpl.
      rewrite He. simpl. split; [lia|]. split; [done|]. by rewrite decide_True.
Qed.

Lemma Prot_strategy s t r rest :
  Inv s -> Prot s -> stack s t = FTry r TStrategy :: rest ->
  Prot (goto t ([FTry r (TBarrier (heavy plat (strategy s)))] ++ rest) s).
Proof.
  intros HI HP Hs. pose proof HI as (_ & HS & _). eapply Prot_try_pure; try done.
  - intros f Hf. inlist Hf. by eexists.
  - intros b pc HL _ Hf. inlist Hf. injection Hf as ->. simpl.
    destruct (proj1 HP) as (hd & Hhd & [Hn|[t' Hb]]); [right; by exists hd|left].
    destruct (i_buffers _ _ HS _ _ Hb) as [_ Hfast].
    by apply (fast_heavy plat (strategy s) (i_strategy _ _ HS)).
Qed.

Lemma Prot_batch s t r rest s' ev :
  Inv s -> Prot s -> stack s t = FTry r TBatch :: rest ->
  step_try plat t r TBatch rest s = Some (s', ev) -> Prot s'.
Proof.
  intros HI HP Hs. simpl. destruct (local_of s r) as [[| |b]|] eqn:EL; intros [= <- _].
  1,2: by apply (Prot_pure_quiet s t [FTry r TBatch] []); try done; frames.
  eapply (Prot_try_pure s t r _ [_]); try done.
  - intros f Hf. inlist Hf. by eexists.
  - intros b' pc HL Ha Hf. inlist Hf. injection Hf as ->. simpl in *. split; [done|right].
    unfold not_passed; simpl. lia.
Qed.

(** The batch leaves the slot: the marked entries are now the pending ones. *)
Lemma Prot_reset s t r b m rest :
  Inv s -> Prot s -> stack s t = FTry r (TReset b m) :: rest ->
  Prot (goto t ([FRetire b m 0 0] ++ rest) (store_local r BNull s)).
Proof.
  intros HI HP Hs. destruct (Inv_top _ _ _ _ _ _ HI Hs) as (HLs & HL & _). pose proof HI as (_ & HS & HG).
  pose proof (local_of_set r BNull s HLs) as EL.
  apply (Prot_goto (fun b' => b' = b) [FTry r (TReset b m)] [FRetire b m 0 0] s); [|done| |done|].
  - intros b'. destruct (decide (b' = b)); auto.
  - constructor; try done.
    + apply HP.
    + intros b' i f _ [Hf|Hf]; inlist Hf; by subst.
    + intros r' b' Hb' HL'. rewrite EL. unfold set_fun. case_decide; [|done]. subst. congruence.
    + intros r' b' f _ _ Hf. inlist Hf. by subst.
    + intros b' f _ Hf. inlist Hf. subst f. by intros ?.
  - intros ? -> Ha. assert (awaits s p b) as Ha'.
    { eapply (awaits_goto s (store_local r BNull s)); try done. eauto. }
    destruct (try_old _ _ _ _ _ _ HI HP Hs HL Ha') as [Hact Hmk].
    eapply (CovPending _ _ t (length rest) (FRetire b m 0 0)); [done| |by split].
    apply frame_at_goto_1.
Qed.

(** The frame that retires [b] goes on, from [f0] to [f1]. *)
Lemma Prot_retiring s s1 t f0 f1 rest b :
  Inv s -> Prot s -> stack s t = f0 :: rest -> retires (role_of f0) b -> is_try f1 = None ->
  (forall b' i, f1 <> FFree b' i) ->
  threads s1 = threads s -> guarded s1 rT -> (mem_active s -> mem_active s1) ->
  (forall b', linked s b' -> linked s1 b') ->
  (forall b' j, b' <> b -> entry_at (heap s1) b' j = entry_at (heap s) b' j) ->
  (forall r b', local_of s r = Some (BPtr b') -> local_of s1 r = Some (BPtr b')) ->
  (awaits (goto t ([f1] ++ rest) s1) p b -> awaits s p b) ->
  (mem_active s -> pends s b f0 -> linked s1 b \/ pends s1 b f1) ->
  Prot (goto t ([f1] ++ rest) s1).
Proof.
  intros HI HP Hs Hret Htry Hnf Hth Hg Hact Hl He HL Haw Hp. pose proof HI as (_ & HS & HG).
  assert (role_at s t (length rest) = role_of f0) as HR by by apply role_at_top.
  apply (Prot_goto (fun b' => b' = b) [f0] [f1] s); [|done| |done|].
  - intros b'. destruct (decide (b' = b)); auto.
  - constructor; try done; eauto.
    + intros b' i f Hb' [Hf|Hf]; inlist Hf; subst; [|done]. intros ->. done.
    + intros r b' f _ _ Hf. inlist Hf. subst. by rewrite Htry.
    + intros b' f Hb' Hf Hr. inlist Hf. subst. apply Hb'. destruct f0; simpl in *; congruence || done.
  - intros ? -> Ha. specialize (Haw Ha). destruct (proj2 HP _ Haw) as [r HLr _|Ha' Hln|t' d f Ha' Hf Hpf].
    + apply retires_batch in Hret as [Hrb _]. rewrite <-HR in Hrb.
      by apply (G_local_no_role _ _ _ _ _ HG _ _ _ _ HLr) in Hrb.
    + apply CovLinked; [by apply Hact|by apply Hl].
    + pose proof (role_at_frame _ _ _ _ Hf) as HR'.
      pose proof (pends_role _ _ _ Hpf) as Hret'. rewrite <-HR in Hret. rewrite <-HR' in Hret'.
      apply retires_batch in Hret as [Hrb _], Hret' as [Hrb' _].
      destruct (G_role_inj _ _ _ _ _ HG _ _ _ _ _ Hrb Hrb') as [<- <-].
      rewrite (frame_at_top _ _ _ _ Hs) in Hf. injection Hf as <-.
      destruct (Hp Ha' Hpf) as [Hln|Hpf']; [apply CovLinked; [by apply Hact|done]|].
      eapply (CovPending _ _ t (length rest) f1); [by apply Hact| |done].
      apply frame_at_goto_1.
Qed.

Lemma marked_for_split s b i m :
  marked_for s b i m -> (exists e, entry_at (heap s) b i = Some e /\ state e = SHead (Some rT)) \/
    marked_for s b (S i) m.
Proof.
  intros (j & e & Hj & He & Hst). destruct (decide (j = i)) as [->|]; [left; eauto|right].
  exists j, e. split; [lia|done].
Qed.

Lemma Prot_retire s t b m i act rest s' ev :
  Inv s -> Prot s -> stack s t = FRetire b m i act :: rest ->
  step_retire t b m i act rest s = Some (s', ev) -> Prot s'.
Proof.
  intros HI HP Hs. unfold step_retire. case_decide as Him.
  - destruct (entry_at (heap s) b i) as [e|] eqn:He; simpl; [|done].
    destruct (state e) as [[r|]|] eqn:Hst; [|done..].
    destruct (head_of s r) as [prev|] eqn:Hr; simpl; [|done]. intros [= <- _].
    eapply (Prot_retiring s s t (FRetire b m i act)); try done; [apply HP| |].
    + eapply (awaits_goto s s); try done. eauto.
    + intros (hd & Hhd & Hn) [_ Hm]. right. split; [done|].
      destruct (marked_for_split _ _ _ _ Hm) as [(e' & He' & Hst')|]; [left|by right].
      assert (r = rT) as -> by congruence. split; [done|congruence].
  - intros [= <- _].
    eapply (Prot_retiring s s t (FRetire b m i act)); try done; [apply HP| |].
    + eapply (awaits_goto s s); try done. eauto.
    + intros _ [_ (j & e & Hj & _)]. lia.
Qed.

Lemma entry_at_store_ne s b f b' j :
  b' <> b -> entry_at (heap (store_batch b f s)) b' j = entry_at (heap s) b' j.
Proof. intros Hb. unfold entry_at; simpl. by rewrite lookup_alter_ne. Qed.

(** The entry about to be linked is in nobody's list. *)
Lemma set_next_links s t b m i act r prev st rest l :
  Inv s -> stack s t = FCas b m i act r prev :: rest ->
  links (heap s) (list_of (head_of s rT)) l ->
  links (heap (store_batch b (set_state i st) s)) (list_of (head_of s rT)) l.
Proof.
  intros (_ & _ & HG) Hs Hl. eapply links_ext; [|done]. intros [b1 j] Hx.
  assert (slot_link (head_of s) (heap s) rT (b1, j)) as Hsl by by exists l.
  destruct (slot_link_batch _ _ _ _ _ HG _ _ Hsl) as (_ & _ & _ & Hne). simpl in Hne.
  unfold next_of; simpl fst; simpl snd. destruct (decide (b1 = b)) as [->|Hb]; [|by rewrite entry_at_store_ne].
  assert (j <> i) as Hj by (eapply Hne; by rewrite (role_at_top _ _ _ _ Hs)).
  rewrite entry_at_set_state. destruct (entry_at (heap s) b j) as [e|]; [|done].
  simpl. by rewrite decide_False by congruence.
Qed.

Lemma set_next_linked s t b m i act r prev st rest b' :
  Inv s -> stack s t = FCas b m i act r prev :: rest ->
  linked s b' -> linked (store_batch b (set_state i st) s) b'.
Proof.
  intros HI Hs [j (l & Hl & Hj)]. exists j, l. split; [|done].
  exact (set_next_links _ _ _ _ _ _ _ _ _ _ _ HI Hs Hl).
Qed.

Lemma links_exist s : Inv s -> exists l, links (heap s) (list_of (head_of s rT)) l.
Proof.
  intros (_ & _ & own & ph & HC & _). destruct (c_slot _ _ _ _ HC rT) as (l & Hl & _). by exists l.
Qed.

(** The exchange failed: try again with the head that was found. *)
Lemma Prot_cas_retry s t b m i act r prev found rest :
  Inv s -> Prot s -> stack s t = FCas b m i act r prev :: rest -> head_of s r = Some found ->
  Prot (goto t ([FCas b m i act r found] ++ rest) (store_batch b (set_state i (SNext prev)) s)).
Proof.
  intros HI HP Hs Hr.
  eapply (Prot_retiring s (store_batch b (set_state i (SNext prev)) s) t (FCas b m i act r prev)); try done.
  - apply HP.
  - intros b'. by eapply set_next_linked.
  - intros b' j Hb'. by apply entry_at_store_ne.
  - by eapply awaits_set_state.
  - intros (hd & Hhd & Hn) [_ Hp]. right. split; [done|].
    destruct Hp as [[-> _]|Hm]; [left; split; [done|congruence]|right].
    apply marked_for_set_state; [lia|done].
Qed.

(** The exchange on an active head of another slot, or of [rT]. *)
Lemma store_head_guarded s r e : guarded s rT -> e <> INACTIVE -> is_Some (head_of s r) -> guarded (store_head r e s) rT.
Proof.
  intros (hd & Hhd & Hg) He Hr. unfold guarded. rewrite head_of_set by done. unfold set_fun.
  case_decide; eauto.
Qed.

Lemma store_head_active s r e : e <> INACTIVE -> is_Some (head_of s r) -> mem_active s -> mem_active (store_head r e s).
Proof.
  intros He Hr (hd & Hhd & Hn). unfold mem_active. rewrite head_of_set by done. unfold set_fun.
  case_decide; eauto.
Qed.

(** The entry becomes the head of the list of slot [r]. *)
Lemma linked_push s r b i prev b' l :
  head_of s r = Some prev -> prev <> INACTIVE -> next_of (heap s) (b, i) = Some prev ->
  links (heap s) (list_of (head_of s rT)) l ->
  linked s b' \/ (r = rT /\ b' = b) -> linked (store_head r (EPtr b i) s) b'.
Proof.
  intros Hr Hprev Hnext Hl Hb'.
  assert (forall r', head_of (store_head r (EPtr b i) s) r' = set_fun r (EPtr b i) (head_of s) r') as EH
    by (apply head_of_set; eauto).
  unfold linked, slot_link. rewrite EH. unfold set_fun. destruct (decide (rT = r)) as [<-|Hne].
  - assert (links (heap s) (EPtr b i) ((b, i) :: l)) as Hl2.
    { split; [done|]. exists prev. split; [done|]. rewrite Hr in Hl. by destruct prev. }
    destruct Hb' as [[j (l' & Hl' & Hj)]|[_ ->]].
    + rewrite (links_det _ _ _ _ Hl' Hl) in Hj. exists j, ((b, i) :: l). split; [done|by right].
    + exists i, ((b, i) :: l). split; [done|by left].
  - destruct Hb' as [[j (l' & Hl' & Hj)]|[-> _]]; [by exists j, l'|done].
Qed.

Lemma Prot_cas_link s t b m i act r prev rest :
  Inv s -> Prot s -> stack s t = FCas b m i act r prev :: rest -> prev <> INACTIVE ->
  head_of s r = Some prev -> is_Some (entry_at (heap s) b i) ->
  Prot (goto t ([FRetire b m (S i) (wadd act 1)] ++ rest)
    (store_head r (EPtr b i) (store_batch b (set_state i (SNext prev)) s))).
Proof.
  intros HI HP Hs Hprev Hr [en Hen]. set (s1 := store_batch b (set_state i (SNext prev)) s).
  set (s2 := store_head r (EPtr b i) s1).
  assert (head_of s1 r = Some prev) as Hr1 by done.
  assert (is_Some (head_of s1 r)) as Hsome by eauto.
  assert (forall b', linked s1 b' \/ (r = rT /\ b' = b) -> linked s2 b') as Hlink.
  { destruct (links_exist _ HI) as [l Hl]. intros b' Hb'. eapply (linked_push s1); try done.
    - unfold next_of; simpl fst; simpl snd. unfold s1. rewrite entry_at_set_state, Hen. simpl.
      by rewrite decide_True.
    - exact (set_next_links _ _ _ _ _ _ _ _ _ _ _ HI Hs Hl). }
  eapply (Prot_retiring s s2 t (FCas b m i act r prev)); try done.
  - apply store_head_guarded; [exact (proj1 HP)|done|done].
  - intros Hact. apply store_head_active; [done|done|exact Hact].
  - intros b' Hb'. apply Hlink. left. by eapply set_next_linked.
  - intros b' j Hb'. by apply entry_at_store_ne.
  - apply (awaits_set_state s t (FCas b m i act r prev) [FRetire b m (S i) (wadd act 1)] rest b i (SNext prev) b Hs).
    done.
  - intros Hact [_ [[-> _]|Hm]]; [left; by apply Hlink; right|right].
    split; [done|]. by apply marked_for_set_state; [lia|].
Qed.

Lemma Prot_cas sp s t b m i act r prev rest s' ev :
  Inv s -> Prot s -> stack s t = FCas b m i act r prev :: rest ->
  step_cas sp t b m i act r prev rest s = Some (s', ev) -> Prot s'.
Proof.
  intros HI HP Hs. destruct (Inv_top _ _ _ _ _ _ HI Hs) as [[hd Hhd] _].
  unfold step_cas. case_decide as Hprev.
  - intros [= <- _]. eapply (Prot_retiring s s t (FCas b m i act r prev)); try done; [apply HP| |].
    + eapply (awaits_goto s s); try done. eauto.
    + intros _ [_ [[_ ?]|Hm]]; [done|by right].
  - destruct (entry_at (heap s) b i) as [e|] eqn:He; simpl; [|done].
    change (head_of (store_batch b (set_state i (SNext prev)) s) r) with (head_of s r).
    rewrite Hhd. simpl. destruct sp; [|case_decide as Hcas]; intros [= <- _].
    + by apply Prot_cas_retry.
    + subst hd. apply Prot_cas_link; eauto.
    + by apply Prot_cas_retry.
Qed.

(** A step on a batch that stays covered only if it is linked. *)
Lemma covered_linked s b t d f :
  Inv s -> covered s b -> frame_at (stack s t) d = Some f -> retires (role_of f) b ->
  (forall s, ~ pends s b f) -> mem_active s /\ linked s b.
Proof.
  intros (_ & _ & HG) Hc Hf Hr Hnp. pose proof (role_at_frame _ _ _ _ Hf) as HR. rewrite <-HR in Hr.
  apply retires_batch in Hr as [Hrb _].
  destruct Hc as [r HL _|Ha Hl|t' d' f' _ Hf' Hp]; [|done|].
  - by apply (G_local_no_role _ _ _ _ _ HG _ _ _ _ HL) in Hrb.
  - pose proof (role_at_frame _ _ _ _ Hf') as HR'. pose proof (pends_role _ _ _ Hp) as Hr'.
    rewrite <-HR' in Hr'. apply retires_batch in Hr' as [Hrb' _].
    destruct (G_role_inj _ _ _ _ _ HG _ _ _ _ _ Hrb Hrb') as [<- <-].
    rewrite Hf in Hf'. injection Hf' as <-. by apply Hnp in Hp.
Qed.

Lemma entry_at_set_active s b n b' j :
  entry_at (heap (store_batch b (set_active n) s)) b' j = entry_at (heap s) b' j.
Proof.
  unfold entry_at; simpl. destruct (decide (b' = b)) as [->|]; [|by rewrite lookup_alter_ne].
  rewrite lookup_alter_eq. by destruct (heap s !! b).
Qed.

Lemma set_active_linked s b n b' : linked s b' -> linked (store_batch b (set_active n) s) b'.
Proof. apply linked_mono; [done|]. intros x _. unfold next_of. by rewrite entry_at_set_active. Qed.

Lemma Prot_finish s t b act rest s' ev :
  Inv s -> Prot s -> stack s t = FFinish b act :: rest ->
  step_finish t b act rest s = Some (s', ev) -> Prot s'.
Proof.
  intros HI HP Hs. pose proof HI as (_ & HS & HG). unfold step_finish.
  destruct (heap s !! b) as [bt|] eqn:Hb; simpl; [|done]. intros [= <- _].
  set (s1 := store_batch b _ s).
  assert (forall fs, awaits (goto t (fs ++ rest) s1) p b -> mem_active s /\ linked s b) as Haw.
  { intros fs Ha. eapply covered_linked; [done| |by eapply frame_at_top|done|by intros ? ?].
    apply HP. eapply (awaits_goto s s1); try done. unfold s1. intros j e.
    rewrite entry_at_set_active. eauto. }
  apply (Prot_goto (fun b' => b' = b) [FFinish b act] _ s); [|done| |done|].
  - intros b'. destruct (decide (b' = b)); auto.
  - constructor; try done.
    + apply HP.
    + intros b'. apply set_active_linked.
    + intros b' j _. apply entry_at_set_active.
    + intros b' i f Hb' [Hf|Hf]; [inlist Hf; by subst|]. case_decide; inlist Hf. subst. congruence.
    + intros r b' f _ _ Hf. case_decide; inlist Hf. by subst.
    + intros b' f Hb' Hf Hr. inlist Hf. subst. simpl in Hr. by apply Hb'.
  - intros ? -> Ha. destruct (Haw _ Ha) as [Hact Hl].
    apply CovLinked; [done|by apply set_active_linked].
Qed.

Lemma Prot_dec s t n b rest s' ev :
  Inv s -> Prot s -> stack s t = FDec n b :: rest -> step_dec t n b rest s = Some (s', ev) -> Prot s'.
Proof.
  intros HI HP Hs. pose proof HI as (_ & HS & HG). unfold step_dec.
  destruct (heap s !! b) as [bt|] eqn:Hb; simpl; [|done]. intros [= <- _].
  set (s1 := store_batch b _ s). pose proof (role_at_top _ _ _ _ Hs) as HR. simpl in HR.
  case_decide as Hlast.
  2: { apply (Prot_same s s1 t [FDec n b] [FTraverse n]); try done; frames.
       intros b' j. apply entry_at_set_active. }
  apply (Prot_goto (fun b' => b' = b) [FDec n b] [FFree b 0; FTraverse n] s); [|done| |done|].
  - intros b'. destruct (decide (b' = b)); auto.
  - constructor; try done.
    + apply HP.
    + intros b'. apply set_active_linked.
    + intros b' j _. apply entry_at_set_active.
    + intros b' i f Hb' [Hf|Hf]; inlist Hf; subst; [done| |done]. congruence.
    + intros r b' f _ _ Hf. inlist Hf; by subst.
    + intros b' f Hb' Hf Hr. inlist Hf. by subst.
  - intros ? -> Ha. exfalso. assert (awaits s p b) as Ha'.
    { eapply (awaits_goto s s1); try done. unfold s1. intros j e. rewrite entry_at_set_active. eauto. }
    destruct (proj2 HP _ Ha') as [r HL _|_ [j Hl]|t' d' f' _ Hf' Hp].
    + by eapply (G_dec_not_local _ _ _ _ _ HG).
    + by eapply (slot_link_dec _ _ _ _ _ HG).
    + pose proof (pends_role _ _ _ Hp) as Hr'. rewrite <-(role_at_frame _ _ _ _ Hf') in Hr'.
      by apply (G_dec_last_retire _ _ _ _ _ HG _ _ _ _ _ _ _ HR Hb Hlast Hr').
Qed.

(** The batch a frame frees has no entry left for [p]. *)
Lemma free_unreclaimed s t b i rest j :
  Inv s -> stack s t = FFree b i :: rest -> (i <= j)%nat -> unreclaimed s b j.
Proof.
  intros (_ & _ & HG) Hs Hij t' d i' Hf. pose proof (frame_at_top _ _ _ _ Hs) as Hft.
  assert (role_batch (role_at s t (length rest)) = Some b) as H1' by by rewrite (role_at_frame _ _ _ _ Hft).
  assert (role_batch (role_at s t' d) = Some b) as H2' by by rewrite (role_at_frame _ _ _ _ Hf).
  destruct (G_role_inj _ _ _ _ _ HG _ _ _ _ _ H1' H2') as [<- <-]. rewrite Hft in Hf. by simplify_eq.
Qed.

Lemma free_not_awaiting s t b i rest j e :
  Inv s -> Prot s -> stack s t = FFree b i :: rest ->
  entry_at (heap s) b j = Some e -> (i <= j)%nat -> ptr e <> p.
Proof.
  intros HI HP Hs He Hij Hp. apply (covered_not_free s b t (length rest) i HI); [|by apply frame_at_top].
  apply HP. exists j, e. split_and!; try done. by eapply free_unreclaimed.
Qed.

Lemma Prot_free s t b i rest s' ev :
  Inv s -> Prot s -> stack s t = FFree b i :: rest ->
  step_free_batch t b i rest s = Some (s', ev) -> Prot s' /\ forall f, EvReclaim t p f ∉ ev.
Proof.
  intros HI HP Hs. pose proof HI as (_ & HS & HG). unfold step_free_batch.
  pose proof (role_at_top _ _ _ _ Hs) as HR. simpl in HR.
  destruct (heap s !! b) as [bt|] eqn:Hb; simpl; [|done].
  destruct (entries bt !! i) as [e|] eqn:He.
  - assert (entry_at (heap s) b i = Some e) as Hei by (unfold entry_at; by rewrite Hb).
    intros [= <- <-]. split.
    2: { intros f Hf%list_elem_of_singleton. injection Hf as Hp _.
         by eapply (free_not_awaiting _ _ _ _ _ i). }
    apply (Prot_goto (fun b' => b' = b) [FFree b i] [FReclaim (ptr e) (reclaim e); FFree b (S i)] s); [|done| |done|].
    + intros b'. destruct (decide (b' = b)); auto.
    + constructor; try done; [apply HP|..].
      * intros b' i' f Hb' [Hf|Hf]; inlist Hf; subst; try done; congruence.
      * intros r b' f _ _ Hf. inlist Hf; by subst.
      * intros b' f Hb' Hf Hr. inlist Hf. by subst.
    + intros ? -> (j & e' & He' & Hp & Hu). exfalso.
      eapply (free_not_awaiting _ _ _ _ _ j); try done.
      assert (S i <= j)%nat as Hij; [|lia]. apply (Hu t (length rest)).
      apply frame_at_goto_2.
  - unfold LocalBatch_free. rewrite Hb. simpl. intros [= <- <-]. split; [|by intros f ?%elem_of_nil].
    set (s1 := set_alloc _ _).
    apply (Prot_goto (fun b' => b' = b) [FFree b i] [] s); [|done| |done|].
    + intros b'. destruct (decide (b' = b)); auto.
    + constructor; try done; [apply HP|..].
      * intros b'. apply linked_mono; [done|]. intros x Hx.
        destruct (slot_link_batch _ _ _ _ _ HG _ _ Hx) as (_ & _ & Hn & _).
        unfold next_of, entry_at; simpl. rewrite lookup_delete_ne; [done|]. intros ->. by eapply Hn.
      * intros b' j Hb'. unfold entry_at; simpl. by rewrite lookup_delete_ne.
      * intros b' i' f Hb' [Hf|Hf]; inlist Hf; subst; congruence.
      * intros r b' f _ _ Hf. inlist Hf.
      * intros b' f Hb' Hf Hr. inlist Hf. by subst.
    + intros ? -> (j & e' & He' & _). unfold entry_at in He'; simpl in He'.
      by rewrite lookup_delete_eq in He'.
Qed.

(** ** Other slots enter and leave *)

Lemma head_of_other s r e : r <> rT -> head_of (store_head r e s) rT = head_of s rT.
Proof. intros Hr. rewrite head_of_store. by rewrite decide_False. Qed.

Lemma Prot_enter_store s t r o rest s' ev :
  Inv s -> Prot s -> stack s t = FEnterStore r o :: rest ->
  step_enter_store t r o rest s = Some (s', ev) -> Prot s'.
Proof.
  intros HI HP Hs. destruct (Inv_top _ _ _ _ _ _ HI Hs) as [[Hi Hb] Ho].
  unfold step_enter_store. rewrite Hi. simpl. intros [= <- _].
  assert (r <> rT) as Hr.
  { intros ->. destruct (proj1 HP) as (hd & Hhd & [Hn|[t' Ht]]); congruence. }
  destruct Ho as [->|[-> _]].
  - apply (Prot_same s (store_head r ENull s) t [FEnterStore r SeqCst] []); try done; frames.
    by apply head_of_other.
  - apply (Prot_same s (store_null t r Relaxed s) t [FEnterStore r Relaxed] []); try done; frames.
    simpl. by rewrite lookup_insert_ne.
Qed.

Lemma Prot_swap s t r new f0 rest s' ev :
  Inv s -> Prot s -> stack s t = f0 :: rest -> quiet f0 ->
  step_swap t r new rest s = Some (s', ev) -> EvExit rT ∉ ev -> Prot s'.
Proof.
  intros HI HP Hs Hq. unfold step_swap.
  destruct (head_of (drain_slot r s) r) as [hd|] eqn:Hhd; simpl; [|done].
  intros [= <- <-] Hev. assert (r <> rT) as Hr by (intros ->; by apply Hev; left).
  assert (drained (fun r' _ => bool_decide (r' = r)) s rT = false) as Hd.
  { unfold drained. destruct (buffers s !! rT); [|done]. by rewrite bool_decide_false. }
  apply (Prot_same s (store_head r new (drain_slot r s)) t [f0] _); try done; [| | |by case_decide; frames].
  - rewrite head_of_other by done. unfold drain_slot. by rewrite head_of_drain, Hd.
  - simpl. apply option_eq. intros t'. rewrite map_lookup_filter_Some.
    rewrite bool_decide_false by done. by split; [intros []|].
  - frames. by destruct f0.
Qed.

(** ** All steps *)

Lemma no_reclaim_nil t f : ~ EvReclaim t p f ∈ [].
Proof. by intros ?%elem_of_nil. Qed.

Lemma Prot_try s t r pc rest s' ev :
  Inv s -> Prot s -> stack s t = FTry r pc :: rest ->
  step_try plat t r pc rest s = Some (s', ev) -> Prot s'.
Proof.
  intros HI HP Hs Hstep. destruct pc as [|h| |b m ipc it|b m it r'|b m].
  - injection Hstep as <- _. by apply Prot_strategy.
  - injection Hstep as <- _. by apply Prot_barrier.
  - by eapply Prot_batch.
  - by eapply Prot_scan.
  - by eapply Prot_mark.
  - injection Hstep as <- _. by apply Prot_reset.
Qed.

Lemma Prot_traverse s t l rest s' ev :
  Prot s -> stack s t = FTraverse l :: rest -> step_traverse t l rest s = Some (s', ev) -> Prot s'.
Proof.
  intros HP Hs. unfold step_traverse. destruct l as [| |b i]; [|done|].
  - intros [= <- _]. apply (Prot_pure_quiet s t [FTraverse ENull] []); try done; frames.
  - destruct (entry_at (heap s) b i) as [e|]; simpl; [|done]. destruct (state e); [done|].
    intros [= <- _]. apply (Prot_pure_quiet s t [FTraverse (EPtr b i)] [_]); try done; frames.
Qed.

Lemma Prot_run s t fr rest s' ev :
  Inv s -> Prot s -> stack s t = fr :: rest -> run_frame plat batch_size false t fr rest s = Some (s', ev) ->
  EvExit rT ∉ ev -> Prot s'.
Proof.
  intros HI HP Hs Hstep Hev.
  destruct fr as [k th pc|r q f|r|th|r pc|b m i act|b m i act r prev|b act|r|r o|r|r|l|n b|b i|q f|ipc it|r it|r it|x];
    simpl in Hstep; try done.
  - by eapply Prot_load.
  - by eapply Prot_add.
  - by eapply Prot_reserve.
  - by eapply Prot_flush.
  - by eapply Prot_try.
  - by eapply Prot_retire.
  - by eapply Prot_cas.
  - by eapply Prot_finish.
  - injection Hstep as <- _. apply (Prot_pure_quiet s t [FEnter r] [_]); try done; frames.
  - by eapply Prot_enter_store.
  - by eapply Prot_swap.
  - by eapply Prot_swap.
  - by eapply Prot_traverse.
  - by eapply Prot_dec.
  - by eapply Prot_free.
  - by destruct (Inv_top _ _ _ _ _ _ HI Hs).
  - by destruct (Inv_top _ _ _ _ _ _ HI Hs).
  - by destruct (Inv_top _ _ _ _ _ _ HI Hs).
  - injection Hstep as <- _. apply (Prot_pure_quiet s t [FRet x] []); try done; frames.
Qed.

(** Reclaimers are only called by [free_batch]. *)
Lemma run_reclaims s t fr rest s' ev t' f :
  Inv s -> stack s t = fr :: rest -> run_frame plat batch_size false t fr rest s = Some (s', ev) ->
  EvReclaim t' p f ∈ ev -> t' = t /\ exists b i, fr = FFree b i.
Proof.
  intros HI Hs Hstep Hev. assert (forall e, ev = [e] -> e = EvReclaim t' p f) as Hone
    by (intros e ->; by apply list_elem_of_singleton in Hev).
  assert (ev <> []) as Hnil by (intros ->; by apply elem_of_nil in Hev).
  destruct fr as [k th pc|r q g|r|th|r pc|b m i act|b m i act r prev|b act|r|r o|r|r|l|n b|b i|q g|ipc it|r it|r it|x];
    simpl in Hstep; try done; try (by destruct (Inv_top _ _ _ _ _ _ HI Hs)).
  2: { destruct (step_add_spec _ _ s t r q g rest HI (Inv_top _ _ _ _ _ _ HI Hs)) as (s1 & fs & ev1 & E & _ & Hc).
       rewrite E in Hstep. injection Hstep as _ <-.
       destruct Hc as [(_ & -> & _)|(b & -> & _)]; [done|]. by specialize (Hone _ eq_refl). }
  2: { destruct (step_reserve_spec _ _ s t r rest HI (Inv_top _ _ _ _ _ _ HI Hs)) as (s1 & y & E & _).
       rewrite E in Hstep. by injection Hstep as _ <-. }
  13: { unfold step_free_batch in Hstep. destruct (heap s !! b) as [bt|]; simpl in Hstep; [|done].
        destruct (entries bt !! i); [|destruct (LocalBatch_free _ _ _) as [[? ?]|]; simpl in Hstep; [|done]];
          injection Hstep as _ <-; [|done].
        specialize (Hone _ eq_refl). injection Hone as -> _ _. eauto. }
  all: exfalso.
  all: unfold step_load, step_flush, step_try, step_retire, step_cas, step_finish, step_enter, step_enter_store,
    step_leave, step_refresh, step_swap, step_traverse, step_dec, next, next_ev in Hstep.
  all: simplify_option_eq; repeat (case_match; simplify_option_eq); try done;
    by specialize (Hone _ eq_refl).
Qed.

Lemma call_quiet s o : legal_op o s -> Forall quiet (call o).
Proof. intros Hl. by destruct o; simpl in *; frames. Qed.

Lemma Prot_step l s s' ev :
  Inv s -> Prot s -> legal l s -> step l s = Some (s', ev) -> EvExit rT ∉ ev ->
  Prot s' /\ forall t f, EvReclaim t p f ∉ ev.
Proof.
  intros HI HP Hl Hstep Hev. destruct l as [t o|t|t|t|r|sys x86|r n|r|r]; simpl in Hstep.
  - destruct (at_client _); [|done]. injection Hstep as <- <-.
    split; [|by intros t' f ?%elem_of_nil].
    apply (Prot_pure_quiet s t [] (call o)); try done; frames. by eapply call_quiet.
  - destruct (stack s t) as [|fr rest] eqn:Hs; [done|].
    split; [by eapply Prot_run|]. intros t' f Hr.
    destruct (run_reclaims _ _ _ _ _ _ _ _ HI Hs Hstep Hr) as (-> & b & i & ->).
    simpl in Hstep. destruct (Prot_free _ _ _ _ _ _ _ HI HP Hs Hstep) as [_ Hn]. by eapply Hn.
  - destruct (stack s t) as [|fr rest] eqn:Hs; [done|]. destruct fr; try done. simpl in Hstep.
    split; [by eapply Prot_cas|]. intros t' f Hr. unfold step_cas, next, next_ev in Hstep.
    repeat (case_match; simplify_option_eq); by apply elem_of_nil in Hr.
  - destruct (stack s t) as [|fr rest] eqn:Hs; [done|]. destruct fr; try done.
    injection Hstep as <- <-. split; [|by intros t' f' ?%elem_of_nil].
    apply (Prot_pure_quiet s t [FReclaim p0 f] []); try done; frames.
  - injection Hstep as <- <-. split; [by apply Prot_drain|by intros t' f' ?%elem_of_nil].
  - injection Hstep as <- <-. split; [by apply Prot_detect|by intros t' f' ?%elem_of_nil].
  - injection Hstep as <- <-. split; [by apply Prot_field|by intros t' f' ?%elem_of_nil].
  - destruct (lock_of s r) as [[]|]; try done. injection Hstep as <- <-.
    split; [by apply Prot_field|by intros t' f' ?%elem_of_nil].
  - injection Hstep as <- <-. split; [by apply Prot_field|by intros t' f' ?%elem_of_nil].
Qed.

Lemma Prot_steps s tr s' :
  Inv s -> Prot s -> steps s tr s' -> EvExit rT ∉ tr ->
  Prot s' /\ forall t f, EvReclaim t p f ∉ tr.
Proof.
  intros HI HP Hst. revert HI HP. induction Hst as [s|s1 l s2 ev tr s3 Hl Hstep Hst IH]; intros HI HP Hn.
  - split; [done|]. by intros t f ?%elem_of_nil.
  - rewrite elem_of_app in Hn.
    destruct (Prot_step l s1 s2 ev HI HP Hl Hstep) as [HP2 He]; [tauto|].
    destruct IH as [HP3 Ht]; [by eapply Inv_step|done|tauto|].
    split; [done|]. intros t f. rewrite elem_of_app. intros [?|?]; [by eapply He|by eapply Ht].
Qed.

End Slot.

(** Protection starts at any state in which the slot is active. *)
Lemma Prot_intro s r p : Inv s -> guarded s r -> unscanned s p -> Prot r p s.
Proof.
  intros HI Hg Hn. split; [done|]. intros b Hb. destruct (Hn b Hb) as (r' & HL & Hpc). apply (CovLocal _ _ _ _ HL).
  intros t d pc Hf. by rewrite (Hpc t d pc Hf).
Qed.

(** C7. Guards protect. Take any reachable state in which slot [r] is active,
    be it that the store which made it active is still in a store buffer, and
    an object [p] that was not retired, or whose batch is still filling up. In
    every run from there, with any interleaving of any threads that keep to the
    contract, any failed exchanges, any allocation failures, any draining of
    store buffers, any (re-)detection of the barrier strategy and reclaimers
    that re-enter the collector: as long as [r] is neither left nor refreshed,
    no thread calls a reclaimer on [p], however often it is retired and its
    batch flushed meanwhile. *)
Theorem guard_protects s0 r p tr s1 :
  reachable plat batch_size s0 -> guarded s0 r -> unscanned s0 p ->
  steps s0 tr s1 -> EvExit r ∉ tr ->
  forall t f, EvReclaim t p f ∉ tr.
Proof.
  intros Hreach Hg Hn Hst Hex.
  pose proof (Inv_reachable _ _ _ Hreach) as HI.
  by apply (Prot_steps r p s0 tr s1); [|apply Prot_intro| |].
Qed.

(** C21. The two sides of the asymmetric barrier meet. In every reachable state,
    a retiring thread that reads the strategy and then executes the barrier it
    prescribes finds every slot active that entered before it read the
    strategy, even if the store of the entering thread had not reached memory;
    and the barrier makes no other head active. *)
Theorem heavy_sees_light_store s r t :
  reachable plat batch_size s ->
  let s' := barrier t (heavy plat (strategy s)) s in
  (guarded s r -> exists hd, head_of s' r = Some hd /\ hd <> INACTIVE) /\
  (forall hd, head_of s' r = Some hd -> hd <> INACTIVE -> guarded s r).
Proof.
  intros HI%Inv_reachable s'. pose proof HI as (_ & HS & _). split.
  - intros Hg. apply (barrier_active r); [done|]. destruct Hg as (hd & Hhd & [Hn|[t' Hb]]).
    + right. by exists hd.
    + left. apply (fast_heavy plat (strategy s) (i_strategy _ _ HS)). by eapply i_buffers.
  - intros hd Hhd Hn. unfold s' in Hhd. destruct (barrier_drain t (heavy plat (strategy s)) s) as [P E].
    rewrite E, head_of_drain in Hhd. destruct (drained P s r) eqn:Ed; [|exists hd; auto].
    apply drained_buffer in Ed as (t' & Hb & _). exists INACTIVE.
    destruct (i_buffers _ _ HS _ _ Hb) as [-> _]. eauto.
Qed.

End Protect.
