(* ===== verification/RawFacts.v ===== *)
(** * What the invariant of the raw collector says

    Memory safety of the collector's own accesses, the meaning of the
    reference counts, and the absence of leaks when nothing is going on. *)

From stdpp Require Import prelude list gmap.
From S2P Require Import Prelude Alloc ThreadId Membarrier Tls RawData RawStep RawGhost RawInv RawPreserve.

Open Scope Z_scope.

Section Facts.
Context {A : Type} `{Allocator A} `{BoxVec A} `{!BoxVecLaws A}.
Context `{EntryLayout Reservation} `{EntryLayout LocalBatch}.
Variables (plat : Platform) (batch_size : Z).

Abbreviation rstate := (raw_state A).
Abbreviation Inv := (Inv plat batch_size).
Implicit Types (s : rstate) (r : slot) (t d : nat).

(** The step a thread inside the collector takes next is defined, also if its
    exchange fails spuriously. *)
Definition can_step s t : Prop :=
  (exists s' ev, step plat batch_size (LRun t) s = Some (s', ev)) /\
  forall b m i act r prev rest, stack s t = FCas b m i act r prev :: rest ->
    exists s' ev, step plat batch_size (LSpurious t) s = Some (s', ev).

(** C11. No access of the collector goes wrong. In every state that clients which
    keep to the contract can reach, a thread that is inside the collector can
    take its next step: each access of [load], of the scan of the reservations,
    of [try_retire], [traverse] and [free_batch] is to a bucket, entry, batch or
    retired entry that is allocated, within bounds and in the expected state of
    its union, and no [unwrap], sentinel or freed batch is ever dereferenced. *)
Theorem no_dangling_access s t :
  reachable plat batch_size s -> at_client (stack s t) = false -> can_step s t.
Proof.
  intros HI%Inv_reachable Hc. split.
  - destruct (stack s t) as [|fr rest] eqn:Hs; [done|].
    destruct (run_frame_safe _ _ _ _ _ _ HI Hs Hc) as (s' & ev & E & _).
    exists s', ev. simpl. by rewrite Hs.
  - intros b m i act r prev rest Hs.
    destruct (step_cas_safe _ _ true _ _ _ _ _ _ _ _ _ HI Hs) as (s' & ev & E & _).
    exists s', ev. simpl. by rewrite Hs.
Qed.

(** ** Reference counts *)

(** Entry [x] is linked in the list of a slot. *)
Definition held_by_slot s (x : ref) : Prop := exists r, slot_link (head_of s) (heap s) r x.

(** Entry [x] is in the rest of a list that some frame traverses. *)
Definition held_by_frame s (x : ref) : Prop :=
  exists t d l, links (heap s) (trav_of (role_at s t d)) l /\ x ∈ l.

(** A frame is about to drop a reference to batch [b]. *)
Definition dropping s (t d : nat) (b : Z) : Prop := exists n, role_at s t d = RDec n b.

(** Nobody retires, frees or locally owns [b]. *)
Definition published s (b : Z) : Prop :=
  (forall r, local_of s r <> Some (BPtr b)) /\ (forall t d, role_batch (role_at s t d) <> Some b).

Lemma published_phase own ph R (HH : heads) L h bx b bt :
  Counts own ph R HH L h bx -> h !! b = Some bt ->
  (forall r, L r <> Some (BPtr b)) -> (forall t d, role_batch (R t d) <> Some b) ->
  active bt = Z.of_nat (refs own b) /\ refs own b <> 0%nat.
Proof.
  intros HK Hb HL HR. destruct (k_phase _ _ _ _ _ _ _ HK _ _ Hb) as ([r|t d| |t d] & Hf & Hok); simpl in Hok.
  - destruct Hok as [HLr _]. by destruct (HL r).
  - destruct (HR t d). destruct (R t d); try done; simpl in *; by destruct Hok as [-> _].
  - done.
  - destruct Hok as [HRf _]. destruct (HR t d). by rewrite HRf.
Qed.

(** C18. The counter of a published batch is positive and is exactly the number of
    references to it that are still to be dropped: its entries linked in the
    reservation list of a slot, or in the rest of a list that a thread is
    traversing, and one for each frame about to decrement the counter. No entry
    is in two of these places. *)
Theorem active_counts_references s b bt :
  reachable plat batch_size s -> heap s !! b = Some bt -> published s b ->
  exists (X : gset ref) (D : gmap ref (nat * nat)),
    active bt = Z.of_nat (size X) /\ 0 < active bt /\
    (forall x, x ∈ X -> x.1 = b /\ (held_by_slot s x \/ held_by_frame s x \/ is_Some (D !! x))) /\
    (forall x, x.1 = b -> held_by_slot s x \/ held_by_frame s x -> x ∈ X /\ D !! x = None) /\
    (forall t d, dropping s t d b -> exists x, x ∈ X /\ D !! x = Some (t, d)) /\
    (forall x, ~ (held_by_slot s x /\ held_by_frame s x)).
Proof.
  intros (_ & _ & own & ph & HC & HK)%Inv_reachable Hb [HL HR].
  destruct (published_phase _ _ _ _ _ _ _ _ _ HK Hb HL HR) as [Ha Hn0].
  assert (forall x, held_by_slot s x -> exists r, own !! x = Some (OwnSlot r)) as Hslot.
  { intros x [r Hx]. exists r. by eapply slot_link_own. }
  assert (forall x, held_by_frame s x -> exists t d, own !! x = Some (OwnTrav t d)) as Hframe.
  { intros x (t & d & l & Hl & Hx). exists t, d. destruct (c_trav _ _ _ _ HC t d) as (l' & Hl' & _ & Ho).
    apply Ho. by rewrite (links_det _ _ _ _ Hl' Hl). }
  exists (filter (fun x => x.1 = b) (dom own)),
    (omap (fun o => match o with OwnDec t d => Some (t, d) | _ => None end) own).
  split; [done|]. split; [lia|]. split; [|split; [|split]].
  - intros x [Hx [o Ho]%elem_of_dom]%elem_of_filter. split; [done|]. rewrite lookup_omap, Ho. simpl.
    destruct o as [r|t d|t d].
    + left. exists r. destruct (c_slot _ _ _ _ HC r) as (l & Hl & _ & Hin). exists l. by rewrite Hin.
    + right; left. exists t, d. destruct (c_trav _ _ _ _ HC t d) as (l & Hl & _ & Hin). exists l. by rewrite Hin.
    + right; right. eauto.
  - intros x Hx Hh. rewrite elem_of_filter, elem_of_dom, lookup_omap.
    destruct Hh as [[r ->]%Hslot|(t & d & ->)%Hframe]; simpl; eauto.
  - intros t d [n HRd]. destruct (Chains_dec _ _ _ _ _ _ _ _ HC HRd) as (i & Hi & _).
    exists (b, i). rewrite elem_of_filter, elem_of_dom, lookup_omap, Hi. simpl. eauto.
  - intros x [[r Hr]%Hslot (t & d & Ht)%Hframe]. congruence.
Qed.

(** ** No leak *)

(** No thread is in the collector or in a reclaimer, and no slot is active. *)
Definition quiescent s : Prop :=
  (forall t, stack s t = []) /\ (forall r hd, head_of s r = Some hd -> hd = INACTIVE).

(** At rest only local batches are left. *)
Lemma quiescent_batch s b bt :
  Inv s -> quiescent s -> heap s !! b = Some bt -> exists r, local_of s r = Some (BPtr b) /\ active bt = 0.
Proof.
  intros HI [Hst Hhd] Hb. pose proof HI as (_ & _ & HG).
  destruct HG as (own & ph & HC & HK).
  assert (forall t d, role_at s t d = RNone) as HR by (intros; unfold role_at; by rewrite Hst).
  destruct (k_phase _ _ _ _ _ _ _ HK _ _ Hb) as ([r|t d| |t d] & Hf & Hok); simpl in Hok.
  - destruct Hok as (HL & Ha & _). by exists r.
  - by rewrite HR in Hok.
  - destruct Hok as [_ Hn0]. exfalso. apply Hn0, refs_0. intros j. destruct (own !! (b, j)) as [o|] eqn:Ho; [|done].
    exfalso. destruct o as [r|t d|t d].
    + pose proof (c_slot _ _ _ _ HC r) as Hc. revert Ho. apply (chain_null_inv (heap s)).
      destruct (head_of s r) as [hd|] eqn:E; [|done]. by rewrite (Hhd _ _ E) in Hc.
    + pose proof (c_trav _ _ _ _ HC t d) as Hc. rewrite HR in Hc. by apply (chain_null_inv _ _ _ _ Hc) in Ho.
    + pose proof (c_dec _ _ _ _ HC t d) as Hd. rewrite HR in Hd. by apply Hd in Ho.
  - destruct Hok as [E _]. by rewrite HR in E.
Qed.

(** C19. Nothing leaks. When no thread is inside the collector and no slot is
    active, every batch that is still allocated is the local batch of exactly
    one slot: all batches that were taken out of their slot to be retired have
    been freed. *)
Theorem quiescent_no_leak s :
  reachable plat batch_size s -> quiescent s ->
  forall b bt, heap s !! b = Some bt ->
    exists r, local_of s r = Some (BPtr b) /\ active bt = 0 /\
      forall r', local_of s r' = Some (BPtr b) -> r' = r.
Proof.
  intros HI%Inv_reachable Hq b bt Hb. destruct (quiescent_batch s b bt HI Hq Hb) as (r & HL & Ha).
  exists r. split; [done|]. split; [done|]. intros r' HL'. by eapply (G_local_inj _ _ _ _ _ (proj2 (proj2 HI))).
Qed.

(** ** Reserving *)

(** There is room for one more entry in the local batch of slot [r]. *)
Definition room s r : Prop :=
  exists b bt, local_of s r = Some (BPtr b) /\ heap s !! b = Some bt /\
    Z.of_nat (length (entries bt)) + 1 <= capacity bt.

Lemma entries_try_reserve_room bt (a : A) :
  Z.of_nat (length (entries bt)) + 1 <= capacity bt -> entries_try_reserve bt a = (a, Ok bt).
Proof.
  intros Hr. unfold entries_try_reserve.
  destruct (vec_try_reserve a _ _ 1) as [a1 res] eqn:E.
  destruct (vec_try_reserve_ok _ _ _ _ _ _ E) as (_ & Hsame & _); [lia|].
  destruct Hsame as [-> ->]; [lia|]. by destruct bt.
Qed.

Lemma add_with_room s t r p f rest (a : A) :
  room s r ->
  exists s2 fs, step_add batch_size t r p f rest (set_alloc a s) =
      Some (goto t (fs ++ rest) s2, [EvRetire t p f]) /\
    alloc s2 = a /\ last fs = Some (FRet ROk).
Proof.
  intros (b & bt & HL & Hb & Hroom). unfold step_add, local_get_or_init.
  unfold local_of in HL. simpl. destruct (tl_get (batches s) r) as [lb|]; [|done].
  simpl in *. injection HL as HL. unfold get_or_init. rewrite HL. simpl. rewrite Hb. simpl.
  rewrite entries_try_reserve_room by done. eexists _, _. split; [done|]. split; [done|]. by case_decide.
Qed.

Lemma reserve_makes_room s t r rest s1 ev :
  Inv s -> stack s t = FReserve r :: rest -> step_reserve batch_size t r rest s = Some (s1, ev) ->
  stack s1 t = FRet ROk :: rest -> room s1 r.
Proof.
  intros HI Hs Hstep Hok. pose proof (Inv_top _ _ _ _ _ _ HI Hs) as Hr.
  destruct (local_get_or_init_safe _ _ r s HI Hr) as (s2 & res & Eg & Ho & _ & Hres).
  unfold step_reserve in Hstep. rewrite Eg in Hstep. simpl in Hstep.
  destruct res as [[| |b]|e]; [done..| |injection Hstep as <- _; by rewrite stack_goto, decide_True in Hok].
  destruct (G_local_heap _ _ _ _ _ (os_G _ _ _ _ Ho) _ _ Hres) as (bt & Hb & Hbok & _).
  rewrite Hb in Hstep. simpl in Hstep. destruct (entries_try_reserve bt (alloc s2)) as [a [bt'|e]] eqn:Et;
    destruct (entries_try_reserve_ok _ _ _ _ _ Hbok Et) as [_ Hbt']; injection Hstep as <- _;
    [|by rewrite stack_goto, decide_True in Hok].
  destruct Hbt' as (He & _ & Hc). exists b, bt'. split; [exact Hres|]. simpl.
  rewrite lookup_insert_eq, He. split; [done|lia].
Qed.

(** Reserving works. If [reserve] on slot [r] succeeded, the next [add] on
    that slot cannot fail and does not use the allocator, in whatever state it
    may be by then: it retires the object and returns [Ok]. *)
Theorem reserve_then_add s t r rest s1 ev :
  reachable plat batch_size s -> stack s t = FReserve r :: rest ->
  step plat batch_size (LRun t) s = Some (s1, ev) -> stack s1 t = FRet ROk :: rest ->
  forall t' p f rest' (a : A),
    exists s2 fs, step_add batch_size t' r p f rest' (set_alloc a s1) =
        Some (goto t' (fs ++ rest') s2, [EvRetire t' p f]) /\
      alloc s2 = a /\ last fs = Some (FRet ROk).
Proof.
  intros HI%Inv_reachable Hs Hstep Hok t' p f rest' a. apply add_with_room.
  simpl in Hstep. rewrite Hs in Hstep. by eapply reserve_makes_room.
Qed.

End Facts.
