(* ===== verification/RawConserve.v ===== *)
(** * Every retired object is reclaimed at most once, and none is lost

    The objects that wait in the batches of the heap account exactly for the
    difference between the objects retired and the objects given to their
    reclaimers. *)

From stdpp Require Import prelude list gmap.
From S2P Require Import Prelude Alloc ThreadId Membarrier Tls RawData RawStep RawGhost RawInv RawPreserve.

Open Scope Z_scope.

(** An object and its reclaimer. *)
Abbreviation object := (Z * Z)%type.

Definition obj (e : RawData.Entry) : object := (ptr e, reclaim e).

(** The calls of [defer_retire] that were accepted, and of reclaimers. *)
Definition evs_retired (tr : list event) : list object :=
  omap (fun e => match e with EvRetire _ p f => Some (p, f) | _ => None end) tr.

Definition evs_reclaimed (tr : list event) : list object :=
  omap (fun e => match e with EvReclaim _ p f => Some (p, f) | _ => None end) tr.

Section Conserve.
Context {A : Type} `{Allocator A} `{BoxVec A} `{!BoxVecLaws A}.
Context `{EntryLayout Reservation} `{EntryLayout LocalBatch}.
Variables (plat : Platform) (batch_size : Z).

Abbreviation rstate := (raw_state A).
Abbreviation Inv := (Inv plat batch_size).
Abbreviation step := (step plat batch_size).
Abbreviation steps := (steps plat batch_size).
Implicit Types (s : rstate) (r : slot) (t d : nat) (fs rest : list frame).

Definition all_frames s : list frame := map_to_list (threads s) ≫= snd.

(** How many entries of batch [b] were given to their reclaimers. *)
Definition frees (b : Z) (f : frame) : option nat :=
  match f with FFree b' i => if decide (b' = b) then Some i else None | _ => None end.

Definition freed s (b : Z) : nat := max_list (omap (frees b) (all_frames s)).

Lemma frees_Some b f i : frees b f = Some i <-> f = FFree b i.
Proof.
  unfold frees. destruct f; try (split; congruence). case_decide; [subst|]; split; congruence.
Qed.

Definition objs (h : gmap Z Batch) (b : Z) : list object := obj <$> from_option entries [] (h !! b).

(** The objects of the heap that are still to be reclaimed. *)
Definition pending s : list object :=
  map_flat (fun b bt => drop (freed s b) (obj <$> entries bt)) (heap s).

Definition pending_at s (b : Z) : list object := drop (freed s b) (objs (heap s) b).

Lemma elem_of_all_frames s f : f ∈ all_frames s <-> exists t d, frame_at (stack s t) d = Some f.
Proof.
  unfold all_frames. rewrite list_elem_of_bind. split.
  - intros ([t fs] & Hf & Ht%elem_of_map_to_list). simpl in Hf. apply elem_of_frames in Hf as [d Hd].
    exists t, d. unfold stack. by rewrite Ht.
  - intros (t & d & Hf). assert (f ∈ stack s t) as Hin by (apply elem_of_frames; eauto).
    unfold stack in Hin. destruct (threads s !! t) as [fs|] eqn:E; [|by apply elem_of_nil in Hin].
    exists (t, fs). split; [done|]. by apply elem_of_map_to_list.
Qed.

Lemma max_list_all (l : list nat) n : l <> [] -> (forall x, x ∈ l -> x = n) -> max_list l = n.
Proof.
  induction l as [|x l IH]; [done|]. intros _ Hx. rewrite (Hx x) by left. simpl.
  destruct l as [|y l]; [simpl; lia|]. rewrite IH; [lia|done|]. intros z Hz. apply Hx. by right.
Qed.

Lemma freed_free s t d b i : Inv s -> frame_at (stack s t) d = Some (FFree b i) -> freed s b = i.
Proof.
  intros (_ & _ & HG) Hf. apply max_list_all.
  - intros Hnil. assert (i ∈ @nil nat) as Hin; [|by apply elem_of_nil in Hin].
    rewrite <-Hnil. apply list_elem_of_omap. exists (FFree b i). split; [|by apply frees_Some].
    apply elem_of_all_frames. eauto.
  - intros x (f & (t' & d' & Hf')%elem_of_all_frames & Hx%frees_Some)%list_elem_of_omap. subst f.
    assert (role_batch (role_at s t d) = Some b) as R1 by (unfold role_at; by rewrite Hf).
    assert (role_batch (role_at s t' d') = Some b) as R2 by (unfold role_at; by rewrite Hf').
    destruct (G_role_inj _ _ _ _ _ HG _ _ _ _ _ R1 R2) as [<- <-]. congruence.
Qed.

(** Whether some frame frees batch [b]. *)
Lemma freeing_dec s b :
  (exists t d i, frame_at (stack s t) d = Some (FFree b i)) \/
  ((forall t d i, frame_at (stack s t) d <> Some (FFree b i)) /\ freed s b = 0%nat).
Proof.
  unfold freed. destruct (omap (frees b) (all_frames s)) as [|i l] eqn:E; [right|left].
  - split; [|done]. intros t d i Hf. assert (i ∈ @nil nat) as Hin; [|by apply elem_of_nil in Hin].
    rewrite <-E. apply list_elem_of_omap. exists (FFree b i). split; [|by apply frees_Some].
    apply elem_of_all_frames. eauto.
  - assert (i ∈ i :: l) as Hi by left. rewrite <-E in Hi.
    apply list_elem_of_omap in Hi as (f & (t & d & Hf)%elem_of_all_frames & Hx%frees_Some). subst. eauto.
Qed.

Lemma freed_none s b : (forall t d i, frame_at (stack s t) d <> Some (FFree b i)) -> freed s b = 0%nat.
Proof. intros Hn. destruct (freeing_dec s b) as [(t & d & i & Hf)|[_ ?]]; [by destruct (Hn t d i)|done]. Qed.

(** The counts after a step: a frame starts to free a batch from its first
    entry. *)
Lemma freed_goto s s1 t old fs rest b :
  Inv s -> Inv (goto t (fs ++ rest) s1) -> stack s t = old ++ rest -> threads s1 = threads s ->
  (forall i, ~ FFree b i ∈ old) -> (forall i, FFree b i ∈ fs -> i = 0%nat) ->
  freed (goto t (fs ++ rest) s1) b = freed s b.
Proof.
  intros HI HI' Hs Hth Hold Hfs. pose proof HI' as (_ & _ & HG').
  assert (forall t' d i, frame_at (stack s t') d = Some (FFree b i) ->
    frame_at (stack (goto t (fs ++ rest) s1) t') d = Some (FFree b i) /\ (t' = t -> (d < length rest)%nat)) as Hkeep.
  { intros t' d i Hf. rewrite stack_goto. case_decide as Ht.
    - subst. rewrite Hs, frame_at_app in Hf. rewrite frame_at_app. case_decide; [done|].
      destruct (Hold i). apply elem_of_frames. eauto.
    - unfold stack in *. by rewrite Hth. }
  destruct (freeing_dec (goto t (fs ++ rest) s1) b) as [(t' & d & i & Hf)|[Hn ->]].
  - rewrite (freed_free _ _ _ _ _ HI' Hf).
    pose proof Hf as [(-> & Hd & Hf')|[_ Hf']]%frame_at_goto.
    + assert (i = 0%nat) as -> by (apply Hfs, elem_of_frames; eauto).
      symmetry. apply freed_none. intros t' d' i Hold'. destruct (Hkeep _ _ _ Hold') as [Hk Hlt].
      assert (role_batch (role_at (goto t (fs ++ rest) s1) t d) = Some b) as R1 by (unfold role_at; by rewrite Hf).
      assert (role_batch (role_at (goto t (fs ++ rest) s1) t' d') = Some b) as R2 by (unfold role_at; by rewrite Hk).
      destruct (G_role_inj _ _ _ _ _ HG' _ _ _ _ _ R1 R2) as [<- <-]. specialize (Hlt eq_refl). lia.
    + symmetry. apply (freed_free _ t' d); [done|]. eapply (frame_at_below s t old rest); [done|].
      case_decide; [done|]. unfold stack in *. by rewrite Hth in Hf'.
  - symmetry. apply freed_none. intros t' d i Hf. by eapply Hn, Hkeep.
Qed.

Lemma pending_change s s' b :
  (forall b', b' <> b -> pending_at s b' = pending_at s' b') ->
  pending s ++ pending_at s' b ≡ₚ pending s' ++ pending_at s b.
Proof.
  intros Hne. assert (forall s b, pending_at s b =
    flat_at (fun b bt => drop (freed s b) (obj <$> entries bt)) (heap s) b) as Hat.
  { intros s1 b1. unfold pending_at, objs, flat_at. destruct (heap s1 !! b1); simpl; [done|apply drop_nil]. }
  rewrite !Hat. apply map_flat_change. intros b' Hb'. rewrite <-!Hat. by apply Hne.
Qed.

Lemma pending_same s s' :
  (forall b, pending_at s b = pending_at s' b) -> pending s ≡ₚ pending s'.
Proof.
  intros Hs. pose proof (pending_change s s' 0 (fun b _ => Hs b)) as Hp. rewrite Hs in Hp.
  by apply (inj (fun l => l ++ pending_at s' 0)) in Hp.
Qed.

(** Steps that neither add nor free entries. *)
Lemma pending_quiet s s1 t old fs rest :
  Inv s -> Inv (goto t (fs ++ rest) s1) -> stack s t = old ++ rest -> threads s1 = threads s ->
  (forall b, objs (heap s1) b = objs (heap s) b) ->
  (forall b i, ~ FFree b i ∈ old) -> (forall b i, FFree b i ∈ fs -> i = 0%nat) ->
  pending s ≡ₚ pending (goto t (fs ++ rest) s1).
Proof.
  intros HI HI' Hs Hth Ho Hold Hfs. apply pending_same. intros b. unfold pending_at. simpl.
  rewrite Ho. rewrite (freed_goto s s1 t old fs rest b); eauto.
Qed.

Lemma objs_store_batch s b f b' :
  (forall bt, obj <$> entries (f bt) = obj <$> entries bt) ->
  objs (heap (store_batch b f s)) b' = objs (heap s) b'.
Proof.
  intros Hf. unfold objs. simpl. destruct (decide (b' = b)) as [->|]; [|by rewrite lookup_alter_ne].
  rewrite lookup_alter_eq. destruct (heap s !! b); simpl; [apply Hf|done].
Qed.

Lemma obj_set_state i st bt : obj <$> entries (set_state i st bt) = obj <$> entries bt.
Proof.
  simpl. apply list_eq. intros j. rewrite !list_lookup_fmap. destruct (decide (i = j)) as [->|].
  - rewrite list_lookup_alter_eq. by destruct (entries bt !! j).
  - by rewrite list_lookup_alter_ne.
Qed.

Lemma objs_entries_of s s1 :
  (forall b, entries_of s1 b = entries_of s b) -> forall b, objs (heap s1) b = objs (heap s) b.
Proof. intros He b. unfold objs. specialize (He b). unfold entries_of in He. by rewrite He. Qed.

(** What a step contributes to the account. *)
Definition balanced s (ev : list event) s' : Prop :=
  evs_retired ev ++ pending s ≡ₚ evs_reclaimed ev ++ pending s'.

Lemma balanced_quiet s s1 t old fs rest ev :
  Inv s -> Inv (goto t (fs ++ rest) s1) -> stack s t = old ++ rest -> threads s1 = threads s ->
  (forall b, objs (heap s1) b = objs (heap s) b) ->
  (forall b i, ~ FFree b i ∈ old) -> (forall b i, FFree b i ∈ fs -> i = 0%nat) ->
  evs_retired ev = [] -> evs_reclaimed ev = [] ->
  balanced s ev (goto t (fs ++ rest) s1).
Proof.
  intros HI HI' Hs Hth Ho Hold Hfs Hev1 Hev2. unfold balanced. rewrite Hev1, Hev2.
  by eapply pending_quiet.
Qed.

Ltac frees_none := repeat intro; match goal with Hf : _ ∈ _ |- _ => inlist Hf end; congruence.

Lemma free_balanced s t b i rest s' ev :
  Inv s -> Inv s' -> stack s t = FFree b i :: rest ->
  step_free_batch t b i rest s = Some (s', ev) -> balanced s ev s'.
Proof.
  intros HI HI' Hs. unfold step_free_batch.
  destruct (heap s !! b) as [bt|] eqn:Hb; simpl; [|done].
  pose proof (freed_free _ _ _ _ _ HI (frame_at_top _ _ _ _ Hs)) as Hfreed.
  assert (pending_at s b = drop i (obj <$> entries bt)) as Hpb.
  { unfold pending_at, objs. by rewrite Hfreed, Hb. }
  destruct (entries bt !! i) as [e|] eqn:He.
  - intros [= <- <-]. unfold balanced. simpl.
    set (s' := goto t (FReclaim (ptr e) (reclaim e) :: FFree b (S i) :: rest) s) in *.
    assert (freed s' b = S i) as Hfreed'.
    { apply (freed_free s' t (length rest)); [done|]. apply frame_at_goto_2. }
    assert (pending_at s b = obj e :: pending_at s' b) as Hcons.
    { rewrite Hpb. unfold pending_at, objs. simpl. rewrite Hfreed', Hb. simpl.
      apply drop_S. by rewrite list_lookup_fmap, He. }
    pose proof (pending_change s s' b) as Hch. rewrite Hcons in Hch.
    apply (inj (fun l => l ++ pending_at s' b)). rewrite Hch; [solve_Permutation|].
    intros b' Hb'. unfold pending_at. assert (freed s' b' = freed s b') as ->; [|done].
    apply (freed_goto s s t [FFree b i] [FReclaim (ptr e) (reclaim e); FFree b (S i)] rest b'); try done; frees_none.
  - unfold LocalBatch_free. rewrite Hb. simpl. intros [= <- <-]. unfold balanced. simpl.
    apply lookup_ge_None in He. set (s' := goto t rest _) in *.
    pose proof (pending_change s s' b) as Hch.
    assert (pending_at s b = []) as E1 by (rewrite Hpb; apply drop_ge; by rewrite length_fmap).
    assert (pending_at s' b = []) as E2.
    { unfold pending_at, objs, s'. simpl. rewrite lookup_delete_eq. apply drop_nil. }
    rewrite E1, E2, !app_nil_r in Hch. apply Hch. intros b' Hb'. unfold pending_at.
    assert (freed s' b' = freed s b') as ->.
    { apply (freed_goto s _ t [FFree b i] [] rest b'); try done; frees_none. }
    unfold objs, s'. simpl. by rewrite lookup_delete_ne.
Qed.

Lemma add_balanced s t r p f rest s' ev :
  Inv s -> Inv s' -> stack s t = FAdd r p f :: rest ->
  step_add batch_size t r p f rest s = Some (s', ev) -> balanced s ev s'.
Proof.
  intros HI HI' Hs Hstep.
  destruct (step_add_spec _ _ s t r p f rest HI (Inv_top _ _ _ _ _ _ HI Hs)) as (s1 & fs & ev1 & E & Ho & Hc).
  rewrite E in Hstep. injection Hstep as <- <-. pose proof (os_threads _ _ _ _ Ho) as Hth.
  destruct Hc as [(-> & -> & He)|(b & -> & HL & He & Hne & Hfs)].
  - apply (balanced_quiet s s1 t [FAdd r p f] [FRet RErr] rest); try done;
      [by apply objs_entries_of|frees_none..].
  - assert (forall b i, ~ FFree b i ∈ fs) as Hnf.
    { intros b' i Hf. subst fs. case_decide; frees_none. }
    assert (forall b', freed (goto t (fs ++ rest) s1) b' = freed s b') as Hfr.
    { intros b'. apply (freed_goto s s1 t [FAdd r p f] fs rest b'); try done; [frees_none|].
      intros i Hi. by apply Hnf in Hi. }
    assert (freed s b = 0%nat) as Hz.
    { rewrite <-Hfr. apply freed_none. intros t' d i Hf. destruct HI' as (_ & _ & HG').
      apply (G_local_no_role _ _ _ _ _ HG' r b t' d HL). unfold role_at. by rewrite Hf. }
    unfold balanced. simpl. pose proof (pending_change s (goto t (fs ++ rest) s1) b) as Hch.
    assert (pending_at (goto t (fs ++ rest) s1) b = pending_at s b ++ [(p, f)]) as Hat.
    { unfold pending_at, objs. simpl. rewrite Hfr, Hz. simpl.
      change (from_option entries [] (heap s1 !! b)) with (entries_of s1 b). rewrite He.
      by rewrite fmap_app. }
    rewrite Hat in Hch. apply (inj (fun l => l ++ pending_at s b)).
    rewrite <-Hch; [solve_Permutation|]. intros b' Hb'. unfold pending_at, objs. simpl. rewrite Hfr.
    change (from_option entries [] (heap s1 !! b')) with (entries_of s1 b'). by rewrite Hne.
Qed.

(** A frame that neither adds nor frees entries. *)
Definition other_frame (f : frame) : Prop :=
  match f with FAdd _ _ _ | FReserve _ | FFree _ _ | FReclaim _ _ => False | _ => True end.

(** Close the account of a step that leads to [goto t stk s1]. *)
Ltac quiet_step s fr rest :=
  match goal with |- balanced _ _ (goto ?t ?stk ?s1) =>
    let fs := match stk with
              | rest => constr:(@nil frame)
              | ?f :: rest => constr:([f])
              | ?f :: ?g :: rest => constr:([f; g])
              end in
    apply (balanced_quiet s s1 t [fr] fs rest); try done;
    try (intros; by frees_none); try (by frees_none); try (intros b'; first [done
      | apply objs_store_batch; intros; done
      | apply objs_store_batch; intros; by rewrite obj_set_state])
  end.

Lemma other_balanced sp s t fr rest s' ev :
  Inv s -> Inv s' -> stack s t = fr :: rest -> other_frame fr ->
  run_frame plat batch_size sp t fr rest s = Some (s', ev) -> balanced s ev s'.
Proof.
  intros HI HI' Hs Ho Hstep. pose proof (Inv_top _ _ _ _ _ _ HI Hs) as Hok.
  destruct fr as [k th pc|r q g|r|th|r pc|b m i act|b m i act r prev|b act|r|r o|r|r|l|n b|b i|q g|ipc it|r it|r it|x];
    try done; clear Hok;
    unfold run_frame, step_load, step_flush, step_try, step_retire, step_cas, step_finish, step_enter,
      step_enter_store, step_leave, step_refresh, step_swap, step_traverse, step_dec, next, next_ev in Hstep.
  all: simplify_option_eq; repeat (case_match; simplify_option_eq).
  all: match type of Hs with _ = ?fr :: _ => quiet_step s fr rest end.
  - by destruct (barrier_drain t h s) as [P ->].
  - by destruct (barrier_drain t h s) as [P ->].
  - by destruct o.
  - by destruct o.
Qed.

Lemma reserve_balanced s t r rest s' ev :
  Inv s -> Inv s' -> stack s t = FReserve r :: rest ->
  step_reserve batch_size t r rest s = Some (s', ev) -> balanced s ev s'.
Proof.
  intros HI HI' Hs Hstep.
  destruct (step_reserve_spec _ _ s t r rest HI (Inv_top _ _ _ _ _ _ HI Hs)) as (s1 & x & E & Ho & He).
  rewrite E in Hstep. injection Hstep as <- <-.
  apply (balanced_quiet s s1 t [FReserve r] [FRet (if x then ROk else RErr)] rest); try done;
    [apply (os_threads _ _ _ _ Ho)|by apply objs_entries_of|frees_none..].
Qed.

Lemma call_balanced s t o : Inv s -> legal_op o s -> balanced s [] (goto t (call o ++ stack s t) s).
Proof.
  intros HI Hl. apply (balanced_quiet s s t [] (call o)); try done.
  - by apply Inv_call.
  - frees_none.
  - intros b i Hf. destruct o; simpl in *; try done; frees_none.
Qed.

Lemma step_balanced l s s' ev :
  Inv s -> legal l s -> step l s = Some (s', ev) -> balanced s ev s'.
Proof.
  intros HI Hl Hstep. pose proof (Inv_step _ _ _ _ _ _ HI Hl Hstep) as HI'.
  destruct l as [t o|t|t|t|r|sys x86|r n|r|r]; simpl in Hstep.
  - destruct (at_client _); [|done]. injection Hstep as <- <-. by apply call_balanced.
  - destruct (stack s t) as [|fr rest] eqn:Hs; [done|].
    destruct fr; try done; try (by eapply (other_balanced false)).
    + by eapply add_balanced.
    + by eapply reserve_balanced.
    + by eapply free_balanced.
  - destruct (stack s t) as [|fr rest] eqn:Hs; [done|]. destruct fr; try done.
    by eapply (other_balanced true).
  - destruct (stack s t) as [|fr rest] eqn:Hs; [done|]. destruct fr; try done.
    injection Hstep as <- <-. apply (balanced_quiet s s t [FReclaim p f] [] rest); try done; frees_none.
  - injection Hstep as <- <-. by apply pending_same.
  - injection Hstep as <- <-. by apply pending_same.
  - injection Hstep as <- <-. by apply pending_same.
  - destruct (lock_of s r) as [[]|]; try done. injection Hstep as <- <-. by apply pending_same.
  - injection Hstep as <- <-. by apply pending_same.
Qed.

Lemma evs_retired_app tr1 tr2 : evs_retired (tr1 ++ tr2) = evs_retired tr1 ++ evs_retired tr2.
Proof. apply omap_app. Qed.

Lemma evs_reclaimed_app tr1 tr2 : evs_reclaimed (tr1 ++ tr2) = evs_reclaimed tr1 ++ evs_reclaimed tr2.
Proof. apply omap_app. Qed.

Lemma steps_balanced s tr s' : Inv s -> steps s tr s' -> balanced s tr s'.
Proof.
  intros HI Hst. induction Hst as [s|s1 l s2 ev tr s3 Hl Hstep Hst IH]; [by apply pending_same|].
  pose proof (step_balanced _ _ _ _ HI Hl Hstep) as H1'.
  specialize (IH (Inv_step _ _ _ _ _ _ HI Hl Hstep)). unfold balanced in *.
  rewrite evs_retired_app, evs_reclaimed_app.
  transitivity (evs_retired tr ++ (evs_retired ev ++ pending s1)); [solve_Permutation|].
  rewrite H1'. transitivity (evs_reclaimed ev ++ (evs_retired tr ++ pending s2)); [solve_Permutation|].
  rewrite IH. solve_Permutation.
Qed.

(** C14. Nothing is lost and nothing is reclaimed twice. Over any run from any
    reachable state, the objects that were waiting and those accepted by
    [defer_retire] are, as multisets of pointers with their reclaimers, exactly
    those given to their reclaimers and those still waiting in a batch. *)
Theorem retired_is_reclaimed_or_pending s tr s' :
  reachable plat batch_size s -> steps s tr s' ->
  evs_retired tr ++ pending s ≡ₚ evs_reclaimed tr ++ pending s'.
Proof. intros HI%Inv_reachable Hst. by apply steps_balanced. Qed.

End Conserve.
