(* ===== verification/RawReclaim.v ===== *)
(** * Reclaiming everything ([reclaim_all])

    [reclaim_all], which [Drop for Collector] calls too, asks for the collector
    to be at rest, so it is outside the concurrent contract. From rest, and with
    reclaimers that do not use the collector, it ends, having called the
    reclaimer of every object that was waiting and freed every batch. *)

From stdpp Require Import prelude list gmap.
From S2P Require Import Prelude Alloc ThreadId Membarrier Tls RawData RawStep RawExec RawGhost RawInv RawPreserve RawFacts RawConserve.

Open Scope Z_scope.

Section Reclaim.
Context {A : Type} `{Allocator A} `{BoxVec A} `{!BoxVecLaws A}.
Context `{EntryLayout Reservation} `{EntryLayout LocalBatch}.
Variables (plat : Platform) (batch_size : Z).

Abbreviation rstate := (raw_state A).
Abbreviation step := (step plat batch_size).
Abbreviation settle := (settle plat batch_size).
Implicit Types (s : rstate) (r : slot) (t d : nat) (rest : list frame).

(** Thread [t] alone runs from [s] until its stack is empty. *)
Definition settles t s (tr : list event) s' : Prop := exists fuel, settle fuel t s = Some (s', tr).

Lemma settles_nil t s : stack s t = [] -> settles t s [] s.
Proof. intros Hs. exists 0%nat. simpl. by rewrite Hs. Qed.

Lemma settles_step t s fr rest s1 ev tr s' :
  stack s t = fr :: rest -> step (match fr with FReclaim _ _ => LReturn t | _ => LRun t end) s = Some (s1, ev) ->
  settles t s1 tr s' -> settles t s (ev ++ tr) s'.
Proof.
  intros Hs Hst [fuel Hf]. exists (S fuel). simpl settle. rewrite Hs, Hst. simpl. by rewrite Hf.
Qed.

Lemma goto_goto t fs1 fs2 s : goto t fs2 (goto t fs1 s) = goto t fs2 s.
Proof. unfold goto, set_threads. simpl. by rewrite insert_insert_eq. Qed.

Lemma stack_goto_eq t fs s : stack (goto t fs s) t = fs.
Proof. by rewrite stack_goto, decide_True. Qed.

(** ** Freeing a batch *)

Definition reclaims t (es : list RawData.Entry) : list event := map (fun e => EvReclaim t (ptr e) (reclaim e)) es.

Lemma reclaims_events t es : evs_reclaimed (reclaims t es) = obj <$> es /\ evs_retired (reclaims t es) = [].
Proof. induction es as [|e es [IH1 IH2]]; [done|]. simpl. by rewrite IH1. Qed.

Lemma settles_free t b bt i rest s tr s' :
  stack s t = FFree b i :: rest -> heap s !! b = Some bt ->
  settles t (goto t rest (set_alloc (box_drop (vec_drop (alloc s) (capacity bt)) b) (set_heap (delete b (heap s)) s))) tr s' ->
  settles t s (reclaims t (drop i (entries bt)) ++ tr) s'.
Proof.
  remember (length (entries bt) - i)%nat as n eqn:Hn. revert i s Hn.
  induction n as [|n IH]; intros i s Hn Hs Hb Htr.
  - assert (entries bt !! i = None) as He by (apply lookup_ge_None; lia).
    rewrite drop_ge by lia. eapply (settles_step _ _ _ _ _ []); [done| |done].
    simpl. rewrite Hs. simpl. unfold step_free_batch, LocalBatch_free. rewrite Hb. simpl. rewrite He. done.
  - destruct (lookup_lt_is_Some_2 (entries bt) i) as [e He]; [lia|].
    rewrite (drop_S _ _ _ He). simpl.
    eapply (settles_step _ _ _ _ (goto t (FReclaim (ptr e) (reclaim e) :: FFree b (S i) :: rest) s) [_]); [done| |].
    { simpl. rewrite Hs. simpl. unfold step_free_batch. rewrite Hb. simpl. rewrite He. done. }
    eapply (settles_step _ _ _ _ (goto t (FFree b (S i) :: rest) s) []); [apply stack_goto_eq| |].
    { simpl. rewrite stack_goto_eq. unfold next. simpl. by rewrite goto_goto. }
    apply IH; [lia|apply stack_goto_eq|done|]. by rewrite <-(goto_goto t (FFree b (S i) :: rest)) in Htr.
Qed.

(** ** The loop *)

(** Everything that waits is in the local batch of a slot that the iterator has
    still to reach. *)
Record at_rest (it : Iter) s : Prop := {
  ar_wf : tl_wf (batches s);
  ar_iter : iter_ok it;
  ar_local r : local_of s r <> Some DROP;
  ar_batch r b : local_of s r = Some (BPtr b) -> is_Some (heap s !! b);
  ar_inj r r' b : local_of s r = Some (BPtr b) -> local_of s r' = Some (BPtr b) -> r = r';
  ar_heap b : is_Some (heap s !! b) -> exists r, local_of s r = Some (BPtr b) /\ not_passed it r
}.

Definition objects (h : gmap Z Batch) : list object := map_flat (fun _ bt => obj <$> entries bt) h.

(** What [reclaim_all] leaves. *)
Definition reclaimed t s (tr : list event) s' : Prop :=
  settles t s tr s' /\ stack s' t = [] /\ (forall t', t' <> t -> stack s' t' = stack s t') /\
  heap s' = ∅ /\ boxes (alloc s') = boxes (alloc s) ∖ dom (heap s) /\
  (forall r, is_Some (local_of s' r) <-> is_Some (local_of s r)) /\ (forall r b, local_of s' r <> Some (BPtr b)) /\
  (forall r, local_of s' r <> Some DROP) /\ tl_wf (batches s') /\
  reservations s' = reservations s /\ buffers s' = buffers s /\ strategy s' = strategy s /\
  evs_reclaimed tr ≡ₚ objects (heap s) /\ evs_retired tr = [].

(** A part of the run before. *)
Lemma reclaimed_after t s s1 ev tr s' :
  (forall tr s', settles t s1 tr s' -> settles t s (ev ++ tr) s') ->
  (forall t', t' <> t -> stack s1 t' = stack s t') ->
  (forall r, is_Some (local_of s1 r) <-> is_Some (local_of s r)) ->
  boxes (alloc s1) ∖ dom (heap s1) = boxes (alloc s) ∖ dom (heap s) ->
  reservations s1 = reservations s -> buffers s1 = buffers s -> strategy s1 = strategy s ->
  evs_retired ev = [] -> evs_reclaimed ev ++ objects (heap s1) ≡ₚ objects (heap s) ->
  reclaimed t s1 tr s' -> reclaimed t s (ev ++ tr) s'.
Proof.
  intros Hst Hne Hl Ebx Er Ebf Estr E1 E2 (H1' & H2' & H3' & H4' & H5' & H6' & H7' & H8' & H9' & H10 & H11 & H12 & H13 & H14).
  split; [by apply Hst|]. split; [done|].
  split; [intros t' Ht; by rewrite H3', Hne|]. split; [done|]. split; [by rewrite H5'|].
  split; [intros r; by rewrite H6'|]. split; [done|]. split; [done|]. split; [done|].
  split; [congruence|]. split; [congruence|]. split; [congruence|].
  rewrite evs_reclaimed_app, evs_retired_app, E1, H13, H14. done.
Qed.

Lemma stack_goto_ne t fs s t' : t' <> t -> stack (goto t fs s) t' = stack s t'.
Proof. intros Ht. by rewrite stack_goto, decide_False. Qed.

(** A step that only changes the stack. *)
Lemma reclaimed_goto t s fr rest fs tr s' :
  stack s t = fr :: rest -> run_frame plat batch_size false t fr rest s = Some (goto t fs s, []) ->
  match fr with FReclaim _ _ => False | _ => True end ->
  reclaimed t (goto t fs s) tr s' -> reclaimed t s tr s'.
Proof.
  intros Hs Hst Hfr. apply (reclaimed_after t s (goto t fs s) []); try done.
  - intros tr' s2. eapply (settles_step _ _ _ _ _ []); [done|]. destruct fr; try done; simpl; by rewrite Hs.
  - intros t' Ht. by apply stack_goto_ne.
Qed.

(** The end of the loop. *)
Lemma at_rest_done t it s :
  at_rest it s -> iter_step (batches s) IBucket it = Some IDone ->
  stack s t = [FAll IBucket it; FRet RUnit] -> exists tr s', reclaimed t s tr s'.
Proof.
  intros HR Hst Hs.
  assert (heap s = ∅) as Hh.
  { apply map_eq. intros b. rewrite lookup_empty. destruct (heap s !! b) as [bt|] eqn:Hb; [|done]. exfalso.
    destruct (ar_heap _ _ HR b) as (r & Hr & Hp); [by eexists|]. unfold local_of in Hr.
    apply fmap_Some in Hr as (lb & Hlb & _).
    apply (iter_step_covers _ IBucket _ _ r (ar_wf _ _ HR) (ar_iter _ _ HR) I Hst); [by eexists|done]. }
  exists [EvRet t RUnit], (goto t [] (goto t [FRet RUnit] s)).
  apply (reclaimed_goto t s _ [FRet RUnit] [FRet RUnit] _ _ Hs); [simpl; unfold step_all; by rewrite Hst|done|].
  split; [|split; [apply stack_goto_eq|]].
  - eapply (settles_step _ _ _ _ _ [_] []); [apply stack_goto_eq|simpl; by rewrite stack_goto_eq|].
    apply settles_nil, stack_goto_eq.
  - split_and!; try done.
    + intros t' Ht. by rewrite !stack_goto_ne.
    + simpl. by rewrite Hh, dom_empty_L, difference_empty_L.
    + intros r b Hr. destruct (ar_batch _ _ HR r b Hr) as [bt Hbt]. by rewrite Hh in Hbt.
    + apply HR.
    + apply HR.
    + simpl. rewrite Hh. unfold objects. by rewrite map_flat_empty.
Qed.

(** The state after the batch [b] of slot [r] was reclaimed. *)
Definition after_batch t r (it : Iter) b (bt : Batch) s : rstate :=
  goto t [FAll IBucket it; FRet RUnit]
    (store_local r BNull
       (set_alloc (box_drop (vec_drop (alloc s) (capacity bt)) b) (set_heap (delete b (heap s)) (store_local r DROP s)))).

Lemma local_of_after t r it b bt s r' :
  local_of (after_batch t r it b bt s) r' = if decide (r = r') then (fun _ => BNull) <$> local_of s r' else local_of s r'.
Proof.
  unfold local_of, after_batch, store_local. simpl. rewrite !tl_get_modify. case_decide; [|done]. by destruct (tl_get _ r').
Qed.

Lemma after_batch_rest t r it it' b bt s :
  at_rest it s -> iter_ok it' -> local_of s r = Some (BPtr b) -> heap s !! b = Some bt ->
  (forall r', is_Some (local_of s r') -> not_passed it r' -> r = r' \/ not_passed it' r') ->
  at_rest it' (after_batch t r it' b bt s).
Proof.
  intros HR Hit Hr Hb Hcov. constructor; try done.
  - simpl. apply tl_modify_wf, tl_modify_wf, HR.
  - intros r'. rewrite local_of_after. case_decide; [by destruct (local_of s r')|apply HR].
  - intros r' b'. rewrite local_of_after. case_decide as Hn; [by destruct (local_of s r')|]. intros Hr'.
    destruct (ar_batch _ _ HR r' b' Hr') as [bt' Hbt']. exists bt'. simpl. rewrite lookup_delete_ne; [done|].
    intros <-. by apply Hn, (ar_inj _ _ HR r r' b).
  - intros r1 r2 b'. rewrite !local_of_after. repeat case_decide; try (by destruct (local_of s r1));
      try (by destruct (local_of s r2)). by apply (ar_inj _ _ HR).
  - intros b'. simpl. intros [bt' Hb']. apply lookup_delete_Some in Hb' as [Hne Hb'].
    destruct (ar_heap _ _ HR b') as (r' & Hr' & Hp); [by eexists|]. exists r'.
    assert (r <> r') as Hn by (intros <-; congruence).
    split; [by rewrite local_of_after, decide_False|]. destruct (Hcov r') as [|]; [by rewrite Hr'; eexists|done..].
Qed.

(** One round of the loop. *)
Lemma settles_batch t r it b bt s tr s' :
  stack s t = [FAllBatch r it; FRet RUnit] -> local_of s r = Some (BPtr b) -> heap s !! b = Some bt ->
  settles t (after_batch t r it b bt s) tr s' -> settles t s (reclaims t (entries bt) ++ tr) s'.
Proof.
  intros Hs Hr Hb Hset.
  set (s1 := goto t [FFree b 0; FAllReset r it; FRet RUnit] (store_local r DROP s)).
  eapply (settles_step _ _ _ _ s1 []); [done| |].
  { simpl. rewrite Hs. simpl. unfold step_all_batch. by rewrite Hr. }
  rewrite <-(drop_0 (entries bt)). eapply (settles_free t b bt 0 [FAllReset r it; FRet RUnit]);
    [apply stack_goto_eq|done|].
  eapply (settles_step _ _ _ _ _ []); [apply stack_goto_eq|simpl; rewrite stack_goto_eq; done|].
  assert (forall fs1 fs2 s2 x, goto t fs2 (store_local r x (goto t fs1 s2)) = goto t fs2 (store_local r x s2)) as E.
  { intros. unfold goto, set_threads. simpl. by rewrite insert_insert_eq. }
  rewrite E. unfold s1. unfold after_batch in Hset. unfold goto, set_threads in *. simpl in *. by rewrite insert_insert_eq.
Qed.

Lemma objects_delete (h : gmap Z Batch) b bt : h !! b = Some bt -> (obj <$> entries bt) ++ objects (delete b h) ≡ₚ objects h.
Proof. intros Hb. unfold objects. symmetry. by apply (map_flat_delete (fun _ bt => obj <$> entries bt)). Qed.

Lemma at_rest_move t fs it it' s :
  at_rest it s -> iter_ok it' ->
  (forall r b, local_of s r = Some (BPtr b) -> not_passed it r -> not_passed it' r) -> at_rest it' (goto t fs s).
Proof.
  intros HR Hit Hn. constructor; try done; try apply HR. intros b Hb.
  destruct (ar_heap _ _ HR b Hb) as (r & Hr & Hp). exists r. split; [done|by eapply Hn].
Qed.

Lemma local_get s r lb : local_of s r = Some lb -> is_Some (tl_get (batches s) r).
Proof. unfold local_of. destruct (tl_get _ r); [by eexists|done]. Qed.

Lemma at_rest_yield t r it it' s :
  at_rest it s -> iter_ok it' -> is_Some (tl_get (batches s) r) ->
  (forall r', is_Some (tl_get (batches s) r') -> not_passed it r' -> r = r' \/ not_passed it' r') ->
  stack s t = [FAllBatch r it'; FRet RUnit] ->
  (forall s1, at_rest it' s1 -> stack s1 t = [FAll IBucket it'; FRet RUnit] -> exists tr s', reclaimed t s1 tr s') ->
  exists tr s', reclaimed t s tr s'.
Proof.
  intros HR Hit [lb Hlb] Hcov Hs Hnext. assert (local_of s r = Some (batch lb)) as Hr by (unfold local_of; by rewrite Hlb).
  destruct (batch lb) as [| |b].
  - destruct (Hnext (goto t [FAll IBucket it'; FRet RUnit] s)) as (tr & s' & Hrec); [|apply stack_goto_eq|].
    + eapply at_rest_move; [done..|]. intros r' b' Hr' Hp.
      destruct (Hcov r') as [<-|]; [by eapply local_get|done|congruence|done].
    + exists tr, s'. eapply reclaimed_goto; [done| |done|done]. simpl. unfold step_all_batch. by rewrite Hr.
  - by destruct (ar_local _ _ HR r).
  - destruct (ar_batch _ _ HR r b Hr) as [bt Hb].
    destruct (Hnext (after_batch t r it' b bt s)) as (tr & s' & Hrec); [|apply stack_goto_eq|].
    + eapply after_batch_rest; try done. intros r' [x Hx]. by apply Hcov, (local_get _ _ x).
    + exists (reclaims t (entries bt) ++ tr), s'. eapply (reclaimed_after t s); [by intros; eapply settles_batch|..];
        try done.
      * intros t' Ht. unfold after_batch. by rewrite stack_goto_ne.
      * intros r'. rewrite local_of_after. case_decide; [by rewrite fmap_is_Some|done].
      * simpl. rewrite box_drop_ok, vec_drop_ok, dom_delete_L.
        assert (b ∈ dom (heap s)) by (apply elem_of_dom; by eexists).
        apply set_eq. intros x. rewrite !elem_of_difference, elem_of_singleton. destruct (decide (x = b)); [subst|]; tauto.
      * apply reclaims_events.
      * rewrite (proj1 (reclaims_events t (entries bt))). by apply objects_delete.
Qed.

Lemma at_rest_loop n t pc it s :
  at_rest it s -> iter_pc_ok (batches s) pc it -> stack s t = [FAll pc it; FRet RUnit] ->
  (Z.to_nat (iter_measure pc it) < n)%nat -> exists tr s', reclaimed t s tr s'.
Proof.
  revert pc it s. induction n as [|n IH]; intros pc it s HR Hpc Hs Hn; [lia|].
  destruct (iter_step_ok _ _ _ (ar_wf _ _ HR) (ar_iter _ _ HR) Hpc) as (res & E & Hres).
  pose proof (iter_step_measure _ _ _ _ (ar_wf _ _ HR) (ar_iter _ _ HR) Hpc E) as Hm.
  pose proof (iter_measure_nonneg pc it (ar_iter _ _ HR)) as Hpos.
  pose proof (fun r => iter_step_covers _ _ _ _ r (ar_wf _ _ HR) (ar_iter _ _ HR) Hpc E) as Hcov.
  destruct res as [pc' it'|r it'|].
  - destruct Hres as [Hit Hpc'].
    destruct (IH pc' it' (goto t [FAll pc' it'; FRet RUnit] s)) as (tr & s' & Hrec); [|done|apply stack_goto_eq| |].
    + eapply at_rest_move; [done..|]. intros r b Hr Hp. apply Hcov; [by eapply local_get|done].
    + pose proof (iter_measure_nonneg pc' it' Hit) as Hpos'. assert (pc' = IEntry -> it_bucket it' < BUCKETS) as Hb'
        by (intros ->; apply Hpc').
      specialize (Hpos' Hb'). lia.
    + exists tr, s'. eapply reclaimed_goto; [done| |done|done]. simpl. unfold step_all. by rewrite E.
  - destruct Hres as (Hit & -> & Hsome).
    destruct (at_rest_yield t (iter_slot it) it it' (goto t [FAllBatch (iter_slot it) it'; FRet RUnit] s)) as (tr & s' & Hrec); try done.
    + by apply (at_rest_move _ _ _ _ _ HR (ar_iter _ _ HR)).
    + apply stack_goto_eq.
    + intros s1 HR1 Hs1. apply (IH IBucket it'); [done|done|done|].
      pose proof (iter_measure_nonneg IBucket it' Hit ltac:(done)). lia.
    + exists tr, s'. eapply reclaimed_goto; [done| |done|done]. simpl. unfold step_all. by rewrite E.
  - destruct pc; [by eapply at_rest_done|]. simpl in E. case_decide; [|done]. by destruct (tl_entry _ _); simplify_eq; case_match.
Qed.

(** ** From rest *)

Lemma quiescent_at_rest s : reachable plat batch_size s -> quiescent s -> at_rest iter_init s.
Proof.
  intros Hreach Hq. pose proof (Inv_reachable _ _ _ Hreach) as HI. pose proof HI as (_ & HS & HG). constructor.
  - apply HS.
  - apply iter_init_ok.
  - intros r Hr. destruct HG as (own & ph & _ & HK). pose proof (k_local _ _ _ _ _ _ _ HK r) as Hl. by rewrite Hr in Hl.
  - intros r b Hr. destruct (G_local_heap _ _ _ _ _ HG _ _ Hr) as (bt & Hb & _). by exists bt.
  - intros r r' b. apply (G_local_inj _ _ _ _ _ HG).
  - intros b [bt Hb]. destruct (quiescent_batch plat batch_size s b bt HI Hq Hb) as (r & Hr & _). exists r. split; [done|].
    unfold not_passed. simpl. lia.
Qed.

Lemma quiescent_objects s : (forall t, stack s t = []) -> pending s = objects (heap s).
Proof.
  intros Hst. unfold pending, objects, map_flat. apply list_bind_ext; [|done]. intros [b bt]. simpl.
  rewrite (freed_none s b); [apply drop_0|]. intros t d i. by rewrite Hst.
Qed.

(** The outcome of [reclaim_all] from rest. *)
Definition all_reclaimed t s s1 fuel (tr : list event) s' : Prop :=
  step (LCall t OpReclaimAll) s = Some (s1, []) /\ settle fuel t s1 = Some (s', tr) /\
  evs_reclaimed tr ≡ₚ pending s /\ evs_retired tr = [] /\
  (forall t', stack s' t' = []) /\ heap s' = ∅ /\ boxes (alloc s') = boxes (alloc s) ∖ dom (heap s) /\
  (forall r, local_of s' r = (fun _ => BNull) <$> local_of s r) /\ (forall r, head_of s' r = head_of s r).

Lemma reclaim_all_settles s t :
  reachable plat batch_size s -> quiescent s -> exists s1 fuel s' tr, all_reclaimed t s s1 fuel tr s'.
Proof.
  intros Hreach Hq. pose proof (quiescent_at_rest s Hreach Hq) as HR. destruct Hq as [Hst _].
  set (s1 := goto t [FAll IBucket iter_init; FRet RUnit] s).
  destruct (at_rest_loop (S (Z.to_nat (iter_measure IBucket iter_init))) t IBucket iter_init s1) as (tr & s' & Hrec);
    [|done|apply stack_goto_eq|lia|].
  - by apply (at_rest_move _ _ _ _ _ HR (ar_iter _ _ HR)).
  - destruct Hrec as ([fuel Hf] & H2' & H3' & H4' & H5' & H6' & H7' & H8' & _ & H10 & _ & _ & H13 & H14).
    exists s1, fuel, s', tr. split; [simpl; by rewrite Hst|]. split; [done|].
    split; [by rewrite H13, (quiescent_objects s Hst)|]. split; [done|].
    split; [intros t'; destruct (decide (t' = t)) as [->|Ht]; [done|rewrite H3' by done; unfold s1; by rewrite stack_goto_ne]|].
    split; [done|]. split; [done|]. split; [|intros r; unfold head_of; by rewrite H10].
    intros r. change (local_of s r) with (local_of s1 r). specialize (H6' r). specialize (H7' r). specialize (H8' r).
    destruct (local_of s1 r) as [lb|]; destruct (local_of s' r) as [x|]; simpl; try done.
    + by destruct x as [| |b]; [|destruct H8'|destruct (H7' b)].
    + destruct (proj2 H6') as [? [=]]. by exists lb.
    + destruct (proj1 H6') as [? [=]]. by exists x.
Qed.


End Reclaim.
