(* ===== verification/RawMemory.v ===== *)
(** * The memory of a collector

    Every block that the collector allocates in its allocator is at each moment
    a bucket of one of its two tables, or in the hands of a thread between the
    allocation of a bucket and the exchange that installs it; every box is a
    batch of the heap. Dropping the collector gives all of it back. *)

From stdpp Require Import prelude list gmap.
From S2P Require Import Prelude Alloc ThreadId Membarrier Tls RawData RawStep RawExec RawGhost RawInv RawPreserve RawFacts RawConserve RawReclaim.

Open Scope Z_scope.

(** ** The blocks of a table *)

(** A block is an address with its layout; a layout that does not exist could
    not have been allocated. *)
Abbreviation block := (Z * result Layout)%type.

Definition live_blocks (m : gmap Z Layout) : list block := (fun kv => (kv.1, Ok kv.2)) <$> map_to_list m.

Section Blocks.
Context {T : Type} `{EntryLayout T}.
Implicit Types (tl : ThreadLocal T).

Definition bucket_block (i : nat) (p : option Z) : list block :=
  match p with Some p => [(p, bucket_layout (T:=T) (bucket_capacity (Z.of_nat i)))] | None => [] end.

Definition addr_of (ob : option (Bucket T)) : option Z :=
  match ob with Some bk => Some (b_addr bk) | None => None end.

Definition addrs tl : list (option Z) := addr_of <$> buckets tl.

Fixpoint addr_blocks (j : nat) (ps : list (option Z)) : list block :=
  match ps with [] => [] | p :: ps => bucket_block j p ++ addr_blocks (S j) ps end.

Definition tl_blocks tl : list block := addr_blocks 0 (addrs tl).

Lemma addrs_alter_entry f (s : slot) tl : addrs (alter_entry f s tl) = addrs tl.
Proof.
  unfold addrs, alter_entry. simpl. apply list_eq. intros i. rewrite !list_lookup_fmap.
  destruct (decide (i = s.1)) as [->|].
  - rewrite list_lookup_alter_eq. destruct (buckets tl !! s.1) as [[bk|]|]; done.
  - by rewrite list_lookup_alter_ne.
Qed.

Lemma addrs_tl_imap g tl : addrs (tl_imap g tl) = addrs tl.
Proof.
  unfold addrs, tl_imap. simpl. apply list_eq. intros i. rewrite !list_lookup_fmap, list_lookup_imap.
  destruct (buckets tl !! i) as [[bk|]|]; done.
Qed.

Lemma addr_blocks_insert j ps i p :
  ps !! i = Some None ->
  addr_blocks j (<[i := Some p]> ps) ≡ₚ bucket_block (j + i) (Some p) ++ addr_blocks j ps.
Proof.
  revert j i. induction ps as [|q ps IH]; intros j [|i] Hi; [done..| |]; simplify_eq/=.
  - by rewrite Nat.add_0_r.
  - rewrite IH by done. rewrite <-Nat.add_succ_comm. simpl. solve_Permutation.
Qed.

Lemma live_blocks_insert m p l : m !! p = None -> live_blocks (<[p := l]> m) ≡ₚ (p, Ok l) :: live_blocks m.
Proof. intros Hp. unfold live_blocks. by rewrite map_to_list_insert. Qed.

Lemma live_blocks_lookup m p r : (p, r) ∈ live_blocks m -> exists l, r = Ok l /\ m !! p = Some l.
Proof.
  intros ([q l] & [= -> ->] & Hl%elem_of_map_to_list)%list_elem_of_fmap. eauto.
Qed.

Lemma live_blocks_delete m p l rest :
  live_blocks m ≡ₚ (p, Ok l) :: rest -> m !! p = Some l /\ live_blocks (delete p m) ≡ₚ rest.
Proof.
  intros Hm. assert (m !! p = Some l) as Hp.
  { destruct (live_blocks_lookup m p (Ok l)) as (l' & [= <-] & ?); [rewrite Hm; by left|done]. }
  split; [done|]. rewrite <-(insert_delete_id m p l), live_blocks_insert in Hm by (done || apply lookup_delete_eq).
  by apply (inj (cons _)) in Hm.
Qed.

Lemma live_blocks_inj m1 m2 : live_blocks m1 ≡ₚ live_blocks m2 -> m1 = m2.
Proof.
  set (g := fun b : block => (b.1, match b.2 with Ok l => l | Err _ => mkLayout 0 0 end)).
  assert (forall m, g <$> live_blocks m = map_to_list m) as Hg.
  { intros m. unfold live_blocks. induction (map_to_list m) as [|[p l] ls IH]; [done|]. by rewrite !fmap_cons, IH. }
  intros Hp. apply map_to_list_inj. rewrite <-!Hg. by rewrite Hp.
Qed.

(** The account agrees with the ownership of the tables. *)
Lemma owned_blocks j (bs : list (option (Bucket T))) m0 m :
  owned j bs m0 m <-> live_blocks m ≡ₚ addr_blocks j (addr_of <$> bs) ++ live_blocks m0.
Proof.
  revert j m. induction bs as [|[b|] bs IH]; intros j m; cbn -[bucket_block].
  - split; [by intros ->|apply live_blocks_inj].
  - simpl. split.
    + intros (l & -> & Hb & Hown). apply IH in Hown.
      rewrite <-(insert_delete_id m (b_addr b) l), live_blocks_insert by (done || apply lookup_delete_eq).
      by rewrite Hown.
    + intros Hm. destruct (live_blocks_lookup m (b_addr b) (bucket_layout (T:=T) (bucket_capacity (Z.of_nat j)))) as (l & El & Hl).
      { rewrite Hm. by left. }
      rewrite El in Hm |- *. apply live_blocks_delete in Hm as [Hb Hm]. exists l. split; [done|].
      split; [done|]. by apply IH.
  - apply IH.
Qed.

(** ** The accesses of [load] *)

(** The block that a thread holds between the allocation of a bucket and the
    exchange that installs it. *)
Definition pc_block (th : Thread) (pc : load_pc) : list block :=
  match pc with LCas p => [(p, bucket_layout (T:=T) (bucket_capacity (bucket th)))] | _ => [] end.

Definition res_block (th : Thread) (r : load_res) : list block :=
  match r with LMore pc => pc_block th pc | _ => [] end.

Context {A : Type} `{AllocatorLaws A}.

Lemma tl_blocks_cas tl (i : nat) bk tl' :
  bucket_cas tl i bk = Some (tl', None) -> tl_blocks tl' ≡ₚ bucket_block i (Some (b_addr bk)) ++ tl_blocks tl.
Proof.
  unfold bucket_cas, tl_blocks, addrs. destruct (buckets tl !! i) as [[|]|] eqn:E; [done| |done].
  intros [= <-]. simpl. rewrite list_fmap_insert. apply (addr_blocks_insert 0). by rewrite list_lookup_fmap, E.
Qed.

Lemma load_step_blocks create th pc tl (a : A) a' tl' r others :
  0 <= bucket th -> load_step create th pc tl a = Some (a', tl', r) ->
  live_blocks (live a) ≡ₚ tl_blocks tl ++ pc_block th pc ++ others ->
  live_blocks (live a') ≡ₚ tl_blocks tl' ++ res_block th r ++ others.
Proof.
  intros Hth. destruct pc as [| |p|]; simpl.
  - destruct (bucket_load _ _) as [[|]|]; by intros [= <- <- <-].
  - destruct (allocate_bucket a _) as [a1 [bk|e]] eqn:Ea; intros [= <- <- <-] Ha;
      apply allocate_bucket_owned in Ea; simpl; [|by rewrite Ea].
    destruct Ea as (l & -> & Hn & ->). rewrite live_blocks_insert, Ha by done. solve_Permutation.
  - destruct (bucket_cas tl _ _) as [[tl1 [old|]]|] eqn:Ec; [| |done].
    + assert (tl1 = tl) as -> by (unfold bucket_cas in Ec; by repeat case_match; simplify_eq).
      unfold free_bucket. destruct (bucket_layout _) as [l|e] eqn:El; [|done]. intros [= <- <- <-] Ha. simpl.
      assert (live_blocks (live a) ≡ₚ (p, Ok l) :: tl_blocks tl ++ others) as [Hp Hd]%live_blocks_delete
        by (rewrite Ha; solve_Permutation).
      unfold deallocate. by rewrite deallocate_ok.
    + intros [= <- <- <-] Ha. rewrite (tl_blocks_cas _ _ _ _ Ec), Ha. simpl. rewrite Z2Nat.id by done. solve_Permutation.
  - unfold load_entry. destruct (tl_entry _ _) as [e|]; [|done]. intros [= <- <- <-] Ha. rewrite Ha. simpl.
    destruct (present e); [done|]. unfold tl_blocks, tl_write. by rewrite addrs_alter_entry.
Qed.

Context `{BoxVec A} `{!BoxVecLaws A}.

Lemma load_step_boxes create th pc tl (a : A) a' tl' r :
  load_step create th pc tl a = Some (a', tl', r) -> boxes a' = boxes a.
Proof.
  destruct pc as [| |p|]; simpl.
  - destruct (bucket_load _ _) as [[|]|]; by intros [= <- <- <-].
  - unfold allocate_bucket, allocate. destruct (bucket_layout _) as [l|e]; [|by intros [= <- <- <-]].
    destruct (al_allocate a l) as [a1 [q|e]] eqn:Ea; intros [= <- <- <-]; by eapply allocate_boxes.
  - destruct (bucket_cas _ _ _) as [[tl1 [old|]]|]; [|by intros [= <- <- <-]|done].
    unfold free_bucket. destruct (bucket_layout _) as [l|e]; [|done]. intros [= <- <- <-]. apply deallocate_boxes.
  - unfold load_entry. destruct (tl_entry _ _); [|done]. by intros [= <- <- <-].
Qed.

(** ** Construction and destruction of a table *)

Lemma free_bucket_boxes (a : A) (bk : Bucket T) n a' vs : free_bucket a bk n = Ret (a', vs) -> boxes a' = boxes a.
Proof. unfold free_bucket. destruct (bucket_layout n); [|done]. intros [= <- _]. apply deallocate_boxes. Qed.

Lemma drop_buckets_boxes (bs : list (option (Bucket T))) j (a a' : A) vs :
  drop_buckets j bs a = Ret (a', vs) -> boxes a' = boxes a.
Proof.
  revert j a a' vs. induction bs as [|[bk|] bs IH]; intros j a a' vs; simpl; [by intros [= <- _]| |apply IH].
  destruct (free_bucket a bk _) as [[a1 vs1]|] eqn:E; [|done]. simpl.
  destruct (drop_buckets (S j) bs a1) as [[a2 vs2]|] eqn:E2; [|done]. intros [= <- _].
  rewrite (IH _ _ _ _ E2). by eapply free_bucket_boxes.
Qed.

Lemma init_buckets_boxes n (bs bs' : list (Bucket T)) (a a' : A) :
  init_buckets n bs a = Ret (a', Ok bs') -> boxes a' = boxes a.
Proof.
  revert bs a. induction n as [|n IH]; intros bs a; simpl; [by intros [= <- _]|].
  destruct (allocate_bucket a _) as [a1 [bk|e]] eqn:E; [|by destruct (free_buckets 0 bs a1)].
  intros E2%IH. rewrite E2. by eapply allocate_bucket_boxes.
Qed.

Lemma with_capacity_in_account cap (a a' : A) tl :
  with_capacity_in (T:=T) cap a = Ret (a', Ok tl) ->
  live_blocks (live a') ≡ₚ tl_blocks tl ++ live_blocks (live a) /\ boxes a' = boxes a.
Proof.
  unfold with_capacity_in. destruct (if decide (cap = 0) then _ else _) as [n|]; [|done]. simpl.
  destruct (init_buckets_spec (T:=T) (Z.to_nat (n + 1)) [] a (live a)) as (a1 & res & E & Hr); [done|by intros ??|].
  rewrite E. destruct res as [bs|e]; [|done]. intros [= <- <-]. split; [|by eapply init_buckets_boxes].
  apply owned_blocks, owned_Nones, Hr.
Qed.

Lemma drop_buckets_account (bs : list (option (Bucket T))) j (a : A) others :
  live_blocks (live a) ≡ₚ addr_blocks j (addr_of <$> bs) ++ others ->
  exists a', drop_buckets j bs a = Ret (a', bs ≫= bucket_values) /\ live_blocks (live a') ≡ₚ others.
Proof.
  revert j a. induction bs as [|[bk|] bs IH]; intros j a Ha; [by exists a| |by apply IH]. simpl in *.
  destruct (live_blocks_lookup (live a) (b_addr bk) (bucket_layout (T:=T) (bucket_capacity (Z.of_nat j)))) as (l & El & _).
  { rewrite Ha. by left. }
  rewrite El in Ha. apply live_blocks_delete in Ha as [Hb Ha]. unfold free_bucket. rewrite El. simpl.
  destruct (IH (S j) (deallocate a (b_addr bk) l)) as (a' & -> & Ha').
  { unfold deallocate. by rewrite deallocate_ok. }
  simpl. by exists a'.
Qed.

Lemma tls_drop_account tl (a : A) others :
  live_blocks (live a) ≡ₚ tl_blocks tl ++ others ->
  exists a', tls_drop tl a = Ret (a', all_values tl) /\ live_blocks (live a') ≡ₚ others /\ boxes a' = boxes a.
Proof.
  intros Hown. destruct (drop_buckets_account (buckets tl) 0 a others Hown) as (a' & E & Hl).
  exists a'. split; [done|]. split; [done|]. by eapply drop_buckets_boxes.
Qed.
End Blocks.

(** ** The account of the machine *)

Section Memory.
Context {A : Type} `{Allocator A} `{!AllocatorLaws A} `{BoxVec A} `{!BoxVecLaws A} `{!MemLaws A}.
Context `{EntryLayout Reservation} `{EntryLayout LocalBatch}.
Variables (plat : Platform) (batch_size : Z) (Hbatch : 0 <= batch_size).

Abbreviation rstate := (raw_state A).
Abbreviation step := (step plat batch_size).
Abbreviation steps := (steps plat batch_size).
Abbreviation settle := (settle plat batch_size).
Implicit Types (s : rstate) (r : slot) (t : nat) (fs rest : list frame).

Definition frame_block (f : frame) : list block :=
  match f with
  | FLoad KReservation th pc => pc_block (T:=Reservation) th pc
  | FLoad _ th pc => pc_block (T:=LocalBatch) th pc
  | _ => []
  end.

Definition frame_wf (f : frame) : Prop := match f with FLoad _ th _ => 0 <= bucket th | _ => True end.

Definition no_load (f : frame) : Prop := match f with FLoad _ _ _ => False | _ => True end.

(** The blocks in the hands of threads. *)
Definition held s : list block := map_flat (fun _ fs => fs ≫= frame_block) (threads s).

Record accounted (m0 : gmap Z Layout) (b0 : gset Z) s : Prop := {
  ac_blocks : live_blocks (live (alloc s)) ≡ₚ tl_blocks (reservations s) ++ tl_blocks (batches s) ++ held s ++ live_blocks m0;
  ac_boxes : boxes (alloc s) = b0 ∪ dom (heap s) /\ b0 ## dom (heap s);
  ac_loads : forall t, Forall frame_wf (stack s t)
}.

Lemma no_load_blocks fs : Forall no_load fs -> fs ≫= frame_block = [].
Proof. induction 1 as [|f fs Hf _ IH]; [done|]. rewrite bind_cons, IH. by destruct f. Qed.

Lemma no_load_wf fs : Forall no_load fs -> Forall frame_wf fs.
Proof. intros Hf. eapply Forall_impl; [exact Hf|]. by intros []. Qed.

Lemma held_goto s s1 t old fs rest :
  stack s t = old ++ rest -> threads s1 = threads s ->
  held (goto t (fs ++ rest) s1) ++ (old ≫= frame_block) ≡ₚ held s ++ (fs ≫= frame_block).
Proof.
  intros Hs Hth. set (g := fun (_ : nat) (fs : list frame) => fs ≫= frame_block).
  pose proof (map_flat_change g g (threads (goto t (fs ++ rest) s1)) (threads s) t) as Hc.
  assert (flat_at g (threads s) t = (old ++ rest) ≫= frame_block) as E1.
  { unfold flat_at. unfold stack in Hs. rewrite <-Hs. by destruct (threads s !! t). }
  assert (flat_at g (threads (goto t (fs ++ rest) s1)) t = (fs ++ rest) ≫= frame_block) as E2.
  { unfold flat_at. simpl. by rewrite lookup_insert_eq. }
  rewrite E1, E2, !bind_app in Hc. unfold held. apply (inj (fun l => l ++ (rest ≫= frame_block))).
  rewrite <-!app_assoc. apply Hc. intros t' Ht. unfold flat_at. simpl. by rewrite Hth, lookup_insert_ne.
Qed.

(** [s1] differs from [s] by nothing that the account sees. *)
Record kept s s1 : Prop := {
  k_threads : threads s1 = threads s;
  k_live : live (alloc s1) = live (alloc s);
  k_res : addrs (reservations s1) = addrs (reservations s);
  k_bat : addrs (batches s1) = addrs (batches s);
  k_boxes b0 : boxes (alloc s) = b0 ∪ dom (heap s) /\ b0 ## dom (heap s) ->
    boxes (alloc s1) = b0 ∪ dom (heap s1) /\ b0 ## dom (heap s1)
}.

#[local] Instance kept_preorder : PreOrder kept.
Proof.
  split; [by constructor|]. intros s1 s2 s3 H1' H2'. constructor.
  - by rewrite (k_threads _ _ H2'), (k_threads _ _ H1').
  - by rewrite (k_live _ _ H2'), (k_live _ _ H1').
  - by rewrite (k_res _ _ H2'), (k_res _ _ H1').
  - by rewrite (k_bat _ _ H2'), (k_bat _ _ H1').
  - intros b0 Hb. by apply (k_boxes _ _ H2'), (k_boxes _ _ H1').
Qed.

Lemma accounted_kept m0 b0 s s1 : accounted m0 b0 s -> kept s s1 -> accounted m0 b0 s1.
Proof.
  intros [Hb Hx Hl] [Ht El Er Eb Kx]. constructor.
  - unfold tl_blocks, held in *. by rewrite El, Er, Eb, Ht.
  - by apply Kx.
  - intros t. unfold stack in *. by rewrite Ht.
Qed.

Lemma accounted_goto m0 b0 s s1 t old fs rest :
  accounted m0 b0 s -> stack s t = old ++ rest -> kept s s1 ->
  old ≫= frame_block = [] -> fs ≫= frame_block = [] -> Forall frame_wf fs ->
  accounted m0 b0 (goto t (fs ++ rest) s1).
Proof.
  intros Hac Hs Hk Ho Hf Hw. pose proof (accounted_kept _ _ _ _ Hac Hk) as [Hb Hx Hl].
  pose proof (held_goto s s1 t old fs rest Hs (k_threads _ _ Hk)) as Hh. rewrite Ho, Hf, !app_nil_r in Hh.
  constructor; [|exact Hx|].
  - assert (held s1 = held s) as E by (unfold held; by rewrite (k_threads _ _ Hk)).
    rewrite E, <-Hh in Hb. exact Hb.
  - intros t'. rewrite stack_goto. case_decide; [|by apply Hl].
    apply Forall_app. split; [done|]. pose proof (ac_loads _ _ _ Hac t) as Hw'. rewrite Hs in Hw'.
    by apply Forall_app in Hw' as [_ ?].
Qed.

(** *** Writes that the account does not see *)

Ltac keeps := constructor; simpl; rewrite ?addrs_alter_entry, ?addrs_tl_imap; try done.

Lemma kept_reservations s x : addrs x = addrs (reservations s) -> kept s (set_reservations x s).
Proof. by keeps. Qed.

Lemma kept_batches s x : addrs x = addrs (batches s) -> kept s (set_batches x s).
Proof. by keeps. Qed.

Lemma kept_buffers s x : kept s (set_buffers x s).
Proof. by keeps. Qed.

Lemma kept_strategy s x : kept s (set_strategy x s).
Proof. by keeps. Qed.

Lemma kept_store_head s r e : kept s (store_head r e s).
Proof. apply kept_reservations, addrs_alter_entry. Qed.

Lemma kept_store_field s f r : kept s (store_field f r s).
Proof. apply kept_reservations, addrs_alter_entry. Qed.

Lemma kept_store_local s r b : kept s (store_local r b s).
Proof. apply kept_batches, addrs_alter_entry. Qed.

Lemma kept_store_batch s b f : kept s (store_batch b f s).
Proof. keeps. by rewrite dom_alter_L. Qed.

Lemma kept_drain s P : kept s (drain P s).
Proof. unfold drain. etrans; [apply kept_reservations, addrs_tl_imap|apply kept_buffers]. Qed.

Lemma kept_barrier s t h : kept s (barrier t h s).
Proof. unfold barrier. case_match; apply kept_drain. Qed.

Lemma kept_store_null s t r o : kept s (store_null t r o s).
Proof. unfold store_null. case_match; try apply kept_buffers. apply kept_store_head. Qed.

Lemma kept_alloc s a : live a = live (alloc s) -> boxes a = boxes (alloc s) -> kept s (set_alloc a s).
Proof. intros El Eb. keeps. by rewrite Eb. Qed.

Lemma try_reserve_kept s b bt bt' a res :
  heap s !! b = Some bt -> entries_try_reserve bt (alloc s) = (a, res) ->
  kept s (set_alloc a s) /\ kept s (set_alloc a (set_heap (<[b := bt']> (heap s)) s)).
Proof.
  intros Hb. unfold entries_try_reserve.
  destruct (vec_try_reserve _ _ _ _) as [a1 [c|e]] eqn:E; intros [= <- <-];
    pose proof (vec_try_reserve_live _ _ _ _ _ _ E) as El; apply vec_try_reserve_ok in E as [Eb _]; try lia;
    (split; [by apply kept_alloc|]); keeps; intros b0; rewrite Eb, dom_insert_lookup_L; done.
Qed.

Lemma box_kept s p bt a :
  live a = live (alloc s) -> boxes a = {[p]} ∪ boxes (alloc s) -> (p ∉ boxes (alloc s)) ->
  kept s (set_alloc a (set_heap (<[p := bt]> (heap s)) s)).
Proof. intros El Eb Hp. keeps. intros b0 [Hx Hd]. rewrite dom_insert_L. set_solver. Qed.

Lemma get_or_init_kept s r s1 res : local_get_or_init batch_size r s = Some (s1, res) -> kept s s1.
Proof.
  unfold local_get_or_init, get_or_init, Batch_new. destruct (tl_get (batches s) r) as [lb|]; [|done]. simpl.
  destruct (batch lb).
  2,3: intros [= <- <-]; etrans; [|apply kept_store_local]; by keeps.
  destruct (vec_try_reserve_exact _ _ _ _) as [a1 [c|e]] eqn:E1;
    pose proof (vec_try_reserve_exact_live _ _ _ _ _ _ E1) as El1; apply vec_try_reserve_exact_ok in E1 as [Eb1 _]; try done.
  - destruct (box_try_new_in a1) as [a2 [p|e]] eqn:E2; pose proof (box_try_new_live _ _ _ E2) as El2; apply box_try_new_ok in E2;
      intros [= <- <-]; (etrans; [|apply kept_store_local]).
    + destruct E2 as [Hp Eb2]. rewrite Eb1 in *. apply box_kept; [congruence|done..].
    + refine (kept_alloc s _ _ _); [rewrite vec_drop_live; congruence|rewrite vec_drop_ok; congruence].
  - intros [= <- <-]. etrans; [|apply kept_store_local]. by refine (kept_alloc s _ _ _).
Qed.

Lemma free_kept s b h a : LocalBatch_free b (heap s) (alloc s) = Some (h, a) -> kept s (set_alloc a (set_heap h s)).
Proof.
  unfold LocalBatch_free. destruct (heap s !! b) as [bt|] eqn:Hb; [|done]. intros [= <- <-]. keeps.
  - by rewrite box_drop_live, vec_drop_live.
  - intros b0 [Hx Hd]. rewrite box_drop_ok, vec_drop_ok, dom_delete_L, Hx.
    assert (b ∈ dom (heap s)) by (by apply elem_of_dom_2 in Hb). set_solver.
Qed.

(** *** Steps *)

(** A step of a frame other than a load. *)
Definition keeping s t rest (res : option (rstate * list event)) : Prop :=
  forall s' ev, res = Some (s', ev) ->
    exists s1 fs, s' = goto t (fs ++ rest) s1 /\ kept s s1 /\ Forall no_load fs.

Lemma keeping_next_ev s s1 t fs rest ev :
  kept s s1 -> Forall no_load fs -> keeping s t rest (next_ev t fs rest ev s1).
Proof. intros Hk Hf s' ev' [= <- <-]. eauto. Qed.

Lemma keeping_next s s1 t fs rest : kept s s1 -> Forall no_load fs -> keeping s t rest (next t fs rest s1).
Proof. apply keeping_next_ev. Qed.

Lemma keeping_None s t rest : keeping s t rest None.
Proof. done. Qed.

Lemma keeping_bind {X} s t rest (o : option X) k :
  (forall x, o = Some x -> keeping s t rest (k x)) -> keeping s t rest (o ≫= k).
Proof. intros Hk. destruct o as [x|]; [by apply Hk|done]. Qed.

Ltac keeping_frames := repeat case_decide; repeat constructor.

Ltac keeping_state :=
  first [ reflexivity | eassumption
        | apply kept_store_head | apply kept_store_local | apply kept_store_batch | apply kept_barrier
        | apply kept_store_null | apply kept_drain | apply kept_store_field
        | (etrans; [eassumption|]; keeping_state)
        | (etrans; [|apply kept_store_head]; keeping_state)
        | (etrans; [|apply kept_store_batch]; keeping_state) ].

Ltac keeping_step :=
  repeat first
    [ apply keeping_None
    | apply keeping_next; [keeping_state|keeping_frames]
    | apply keeping_next_ev; [keeping_state|keeping_frames]
    | apply keeping_bind; intros ? ?
    | case_match ].

Lemma step_try_keeping t r pc rest s : keeping s t rest (step_try plat t r pc rest s).
Proof. unfold step_try. keeping_step. Qed.

Lemma step_retire_keeping t b m i act rest s : keeping s t rest (step_retire t b m i act rest s).
Proof. unfold step_retire. keeping_step. Qed.

Lemma step_cas_keeping sp t b m i act r prev rest s : keeping s t rest (step_cas sp t b m i act r prev rest s).
Proof. unfold step_cas. keeping_step. Qed.

Lemma step_finish_keeping t b act rest s : keeping s t rest (step_finish t b act rest s).
Proof. unfold step_finish. keeping_step. Qed.

Lemma step_dec_keeping t n b rest s : keeping s t rest (step_dec t n b rest s).
Proof. unfold step_dec. keeping_step. Qed.

Lemma step_traverse_keeping t l rest s : keeping s t rest (step_traverse t l rest s).
Proof. unfold step_traverse. keeping_step. Qed.

Lemma step_swap_keeping t r e rest s : keeping s t rest (step_swap t r e rest s).
Proof.
  unfold step_swap. apply keeping_bind. intros hd _. apply keeping_next_ev.
  - etrans; [apply kept_drain|apply kept_store_head].
  - case_decide; keeping_frames.
Qed.

Lemma step_add_keeping t r p f rest s : keeping s t rest (step_add batch_size t r p f rest s).
Proof.
  unfold step_add. apply keeping_bind. intros [s1 res] Hk%get_or_init_kept. destruct res as [[| |b]|e]; try by keeping_step.
  apply keeping_bind. intros bt Hb. destruct (entries_try_reserve bt (alloc s1)) as [a [bt'|e]] eqn:E.
  - destruct (try_reserve_kept s1 b bt (push_entry b p f bt') a (Ok bt') Hb E) as [_ Hk2].
    apply keeping_next_ev; [by etrans|]. case_decide; keeping_frames.
  - destruct (try_reserve_kept s1 b bt bt a (Err e) Hb E) as [Hk2 _].
    apply keeping_next; [by etrans|keeping_frames].
Qed.

Lemma step_reserve_keeping t r rest s : keeping s t rest (step_reserve batch_size t r rest s).
Proof.
  unfold step_reserve. apply keeping_bind. intros [s1 res] Hk%get_or_init_kept. destruct res as [[| |b]|e]; try by keeping_step.
  apply keeping_bind. intros bt Hb. destruct (entries_try_reserve bt (alloc s1)) as [a [bt'|e]] eqn:E.
  - destruct (try_reserve_kept s1 b bt bt' a (Ok bt') Hb E) as [_ Hk2].
    apply keeping_next; [by etrans|keeping_frames].
  - destruct (try_reserve_kept s1 b bt bt a (Err e) Hb E) as [Hk2 _].
    apply keeping_next; [by etrans|keeping_frames].
Qed.

Lemma step_free_keeping t b i rest s : keeping s t rest (step_free_batch t b i rest s).
Proof.
  unfold step_free_batch. apply keeping_bind. intros bt Hb. case_match; [by keeping_step|].
  apply keeping_bind. intros [h a] Hk%free_kept. by keeping_step.
Qed.

Lemma run_frame_keeping sp t fr rest s :
  no_load fr -> keeping s t rest (run_frame plat batch_size sp t fr rest s).
Proof.
  intros Hn. destruct fr; simpl; try done.
  - apply step_add_keeping.
  - apply step_reserve_keeping.
  - unfold step_flush. keeping_step.
  - apply step_try_keeping.
  - apply step_retire_keeping.
  - apply step_cas_keeping.
  - apply step_finish_keeping.
  - unfold step_enter. keeping_step.
  - unfold step_enter_store. keeping_step.
  - apply step_swap_keeping.
  - apply step_swap_keeping.
  - apply step_traverse_keeping.
  - apply step_dec_keeping.
  - apply step_free_keeping.
  - unfold step_all. keeping_step.
  - unfold step_all_batch. keeping_step.
  - unfold step_all_reset. keeping_step.
  - keeping_step.
Qed.

(** A step of a load: its block goes from the frame to the table or back. *)
Lemma held_split s s1 t old fs rest :
  stack s t = old ++ rest -> threads s1 = threads s ->
  held s ≡ₚ (old ≫= frame_block) ++ held (goto t rest s) /\
  held (goto t (fs ++ rest) s1) ≡ₚ (fs ≫= frame_block) ++ held (goto t rest s).
Proof.
  intros Hs Hth. pose proof (held_goto s s t old [] rest Hs eq_refl) as E1.
  pose proof (held_goto s s1 t old fs rest Hs Hth) as E2. rewrite app_nil_r in E1.
  assert (held s ≡ₚ (old ≫= frame_block) ++ held (goto t rest s)) as E3 by (rewrite <-E1; solve_Permutation).
  split; [done|]. apply (inj (fun l => l ++ (old ≫= frame_block))). rewrite E2, E3. solve_Permutation.
Qed.

Lemma accounted_load m0 b0 s s1 t old fs rest :
  accounted m0 b0 s -> stack s t = old ++ rest -> threads s1 = threads s ->
  live_blocks (live (alloc s1)) ≡ₚ
    tl_blocks (reservations s1) ++ tl_blocks (batches s1) ++ (fs ≫= frame_block) ++ held (goto t rest s) ++ live_blocks m0 ->
  boxes (alloc s1) = boxes (alloc s) -> heap s1 = heap s -> Forall frame_wf fs ->
  accounted m0 b0 (goto t (fs ++ rest) s1).
Proof.
  intros [Hb Hx Hl] Hs Hth Hb1 Ex Eh Hw. destruct (held_split s s1 t old fs rest Hs Hth) as [_ E]. constructor.
  - rewrite E, <-app_assoc. exact Hb1.
  - simpl. by rewrite Ex, Eh.
  - intros t'. rewrite stack_goto. case_decide; [|unfold stack; rewrite Hth; by apply Hl].
    apply Forall_app. split; [done|]. specialize (Hl t). rewrite Hs in Hl. by apply Forall_app in Hl as [_ ?].
Qed.

Lemma load_accounted m0 b0 s t k th pc rest s' ev :
  accounted m0 b0 s -> stack s t = FLoad k th pc :: rest -> step_load t k th pc rest s = Some (s', ev) ->
  accounted m0 b0 s'.
Proof.
  intros Hac Hs Hstep. pose proof (ac_loads _ _ _ Hac t) as Hw. rewrite Hs in Hw. apply Forall_cons in Hw as [Hth Hw].
  destruct (held_split s s t [FLoad k th pc] [] rest Hs eq_refl) as [Eh _]. rewrite bind_singleton in Eh.
  pose proof (ac_blocks _ _ _ Hac) as Hb. rewrite Eh in Hb.
  assert (forall tl a lr, k = KReservation -> load_step Reservation_default th pc (reservations s) (alloc s) = Some (a, tl, lr) ->
    live_blocks (live a) ≡ₚ tl_blocks tl ++ tl_blocks (batches s) ++ res_block (T:=Reservation) th lr ++ held (goto t rest s) ++ live_blocks m0 /\
    boxes a = boxes (alloc s)) as Hres.
  { intros tl a lr -> E. split; [|exact (load_step_boxes _ _ _ _ _ _ _ _ E)].
    rewrite (load_step_blocks _ _ _ _ _ _ _ _ (tl_blocks (batches s) ++ held (goto t rest s) ++ live_blocks m0) Hth E); [solve_Permutation|].
    rewrite Hb. simpl. solve_Permutation. }
  assert (forall tl a lr, k <> KReservation -> load_step LocalBatch_default th pc (batches s) (alloc s) = Some (a, tl, lr) ->
    live_blocks (live a) ≡ₚ tl_blocks (reservations s) ++ tl_blocks tl ++ res_block (T:=LocalBatch) th lr ++ held (goto t rest s) ++ live_blocks m0 /\
    boxes a = boxes (alloc s)) as Hbat.
  { intros tl a lr Hk E. split; [|exact (load_step_boxes _ _ _ _ _ _ _ _ E)].
    rewrite (load_step_blocks _ _ _ _ _ _ _ _ (tl_blocks (reservations s) ++ held (goto t rest s) ++ live_blocks m0) Hth E); [solve_Permutation|].
    rewrite Hb. destruct k; [done|..]; simpl; solve_Permutation. }
  destruct k as [|p f|]; unfold step_load in Hstep.
  1: destruct (load_step _ _ _ (reservations s) _) as [[[a tl] r]|]; [|done]; destruct (Hres tl a r) as [Hl Hx]; try done.
  2,3: destruct (load_step _ _ _ (batches s) _) as [[[a tl] r]|]; [|done]; destruct (Hbat tl a r) as [Hl Hx]; try done.
  all: destruct r as [pc'|r|]; injection Hstep as <- <-;
    eapply (accounted_load _ _ s _ t [_] [_] rest); try done; try (by repeat constructor);
    rewrite bind_singleton; exact Hl.
Qed.

(** Every step keeps the account, whatever the contract says; the thread of a
    call is one that [Thread::new] can make. *)
Definition label_wf (l : label) : Prop :=
  match l with LCall _ o => Forall frame_wf (call o) | _ => True end.

Lemma no_load_case fr : no_load fr \/ exists k th pc, fr = FLoad k th pc.
Proof. destruct fr; first [by left | right; by eexists _, _, _]. Qed.

Lemma keeping_accounted m0 b0 s t old rest res s' ev :
  accounted m0 b0 s -> stack s t = old ++ rest -> old ≫= frame_block = [] -> keeping s t rest res -> res = Some (s', ev) ->
  accounted m0 b0 s'.
Proof.
  intros Hac Hs Ho Hk E. destruct (Hk _ _ E) as (s1 & fs & -> & Hk1 & Hf).
  eapply accounted_goto; eauto using no_load_blocks, no_load_wf.
Qed.

Lemma frame_accounted sp m0 b0 s t fr rest s' ev :
  accounted m0 b0 s -> stack s t = fr :: rest -> run_frame plat batch_size sp t fr rest s = Some (s', ev) ->
  accounted m0 b0 s'.
Proof.
  intros Hac Hs Hstep. destruct (no_load_case fr) as [Hn|(k & th & pc & ->)]; [|by eapply load_accounted].
  eapply (keeping_accounted _ _ s t [fr] rest); [done..| |by apply run_frame_keeping|done].
  by destruct fr.
Qed.

Lemma step_accounted l m0 b0 s s' ev :
  label_wf l -> accounted m0 b0 s -> step l s = Some (s', ev) -> accounted m0 b0 s'.
Proof.
  intros Hl Hac. destruct l as [t o|t|t|t|r|sys x86|r n|r|r]; simpl.
  - destruct (at_client _); [|done]. intros [= <- <-].
    apply (accounted_goto _ _ s s t [] (call o) (stack s t)); try done. by destruct o.
  - destruct (stack s t) as [|fr rest] eqn:Hs; [done|]. by eapply frame_accounted.
  - destruct (stack s t) as [|fr rest] eqn:Hs; [done|]. destruct fr; try done. by apply (frame_accounted true _ _ s t (FCas b marked i act r prev) rest).
  - destruct (stack s t) as [|fr rest] eqn:Hs; [done|]. destruct fr; try done. intros [= <- <-].
    by apply (accounted_goto _ _ s s t [FReclaim p f] [] rest).
  - intros [= <- <-]. eapply accounted_kept; [done|apply kept_drain].
  - intros [= <- <-]. eapply accounted_kept; [done|apply kept_strategy].
  - intros [= <- <-]. eapply accounted_kept; [done|apply kept_store_field].
  - destruct (lock_of s r) as [[]|]; try done. intros [= <- <-]. eapply accounted_kept; [done|apply kept_store_field].
  - intros [= <- <-]. eapply accounted_kept; [done|apply kept_store_field].
Qed.

Lemma new_accounted strat cap a0 a s :
  collector_new strat cap a0 = Ret (a, Ok s) -> accounted (live a0) (boxes a0) s.
Proof.
  unfold collector_new. destruct (with_capacity_in cap a0) as [[a1 [res|e]]|] eqn:E1; [|done..]. simpl.
  destruct (with_capacity_in cap a1) as [[a2 [bat|e]]|] eqn:E2; simpl; [|by destruct (tls_drop res a2)|done].
  intros [= <- <-]. apply with_capacity_in_account in E1 as [Hb1 Hx1], E2 as [Hb2 Hx2]. constructor; simpl.
  - rewrite Hb2, Hb1. unfold held. simpl. rewrite map_flat_empty. solve_Permutation.
  - rewrite dom_empty_L. split; [rewrite Hx2, Hx1|]; set_solver.
  - intros t. constructor.
Qed.

Lemma legal_label_wf l s : legal l s -> label_wf l.
Proof.
  destruct l as [t o| | | | | | | |]; simpl; try done. destruct o; simpl; intros Hl; repeat (apply Forall_cons; split);
    try apply Forall_nil; try done; simpl; destruct Hl as [(_ & Hb & _) _]; lia.
Qed.

Lemma steps_accounted m0 b0 s tr s' : accounted m0 b0 s -> steps s tr s' -> accounted m0 b0 s'.
Proof.
  intros Hac Hst. induction Hst as [s|s1 l s2 ev tr s3 Hl Hstep Hst IH]; [done|].
  apply IH. by eapply step_accounted; [eapply legal_label_wf| |].
Qed.

Lemma settle_accounted m0 b0 fuel t s s' tr : accounted m0 b0 s -> settle fuel t s = Some (s', tr) -> accounted m0 b0 s'.
Proof.
  revert s tr. induction fuel as [|fuel IH]; intros s tr Hac; simpl.
  - destruct (stack s t); intros; by simplify_eq.
  - destruct (stack s t) as [|fr rest]; [by intros [= <- _]|].
    intros ([s1 ev] & E1 & ([s2 tr2] & E2 & [= -> <-])%bind_Some)%bind_Some.
    apply (IH s1 tr2); [|done]. eapply step_accounted; [|exact Hac|exact E1]. by destruct fr.
Qed.

(** C15. Memory is accounted for. In every state of a collector that was made
    with the allocator in state [a0], the blocks allocated since are exactly the
    buckets of the two tables and the buckets that threads have allocated and
    not yet installed or given back, and the boxes made since are exactly the
    batches of the heap. No block is leaked, freed twice or shared, whichever
    threads race to install buckets and whichever allocations fail. *)
Theorem memory_accounted strat cap a0 a s tr s' :
  collector_new strat cap a0 = Ret (a, Ok s) -> steps s tr s' ->
  live_blocks (live (alloc s')) ≡ₚ tl_blocks (reservations s') ++ tl_blocks (batches s') ++ held s' ++ live_blocks (live a0) /\
  boxes (alloc s') = boxes a0 ∪ dom (heap s') /\ boxes a0 ## dom (heap s').
Proof.
  intros Hnew Hst. destruct (steps_accounted _ _ _ _ _ (new_accounted _ _ _ _ _ Hnew) Hst) as [Hb Hx _]. done.
Qed.

(** ** [Drop for Collector] *)

(** [reclaim_all] on thread [t], then the fields are dropped: the batches, and
    the reservations. *)
Definition collector_drop (fuel t : nat) s : option (outcome A * list event) :=
  '(s1, ev) ← step (LCall t OpReclaimAll) s;
  '(s2, tr) ← settle fuel t s1;
  Some (out_bind (tls_drop (batches s2) (alloc s2)) (fun '(a, _) =>
        out_bind (tls_drop (reservations s2) a) (fun '(a, _) => Ret a)), ev ++ tr).

Lemma drop_accounted m0 b0 s t :
  reachable plat batch_size s -> accounted m0 b0 s -> quiescent s ->
  exists fuel a' tr, collector_drop fuel t s = Some (Ret a', tr) /\
    evs_reclaimed tr ≡ₚ pending s /\ evs_retired tr = [] /\ live a' = m0 /\ boxes a' = b0.
Proof.
  intros Hreach Hac Hq.
  destruct (reclaim_all_settles plat batch_size s t Hreach Hq) as (s1 & fuel & s2 & tr' & E1 & E2 & Hrec & Hret & Hstk & Hheap & _).
  assert (accounted m0 b0 s2) as [Hb [Hx _] _].
  { eapply settle_accounted; [|done]. by eapply (step_accounted (LCall t OpReclaimAll)); [by repeat constructor| |]. }
  assert (held s2 ≡ₚ []) as Hh.
  { apply map_flat_nil. intros t'. unfold flat_at. specialize (Hstk t'). unfold stack in Hstk.
    destruct (threads s2 !! t'); simpl in *; [by subst|done]. }
  rewrite Hh, Hheap, dom_empty_L in *.
  destruct (tls_drop_account (batches s2) (alloc s2) (tl_blocks (reservations s2) ++ live_blocks m0))
    as (a1 & D1 & Hl1 & Hx1); [rewrite Hb; solve_Permutation|].
  destruct (tls_drop_account (reservations s2) a1 (live_blocks m0) Hl1) as (a2 & D2 & Hl2 & Hx2).
  exists fuel, a2, tr'. unfold collector_drop. rewrite E1. simpl. rewrite E2. simpl. rewrite D1. simpl. rewrite D2.
  split; [done|]. split; [done|]. split; [done|]. split; [by apply live_blocks_inj|]. rewrite Hx2, Hx1, Hx. set_solver.
Qed.

(** Dropping a collector gives everything back. When no thread is in the
    collector and no guard is alive, and with reclaimers that return without
    using the collector, the drop ends; it calls the reclaimer of every object
    that was still waiting exactly once, and leaves the allocator with the
    blocks and boxes that it had before the collector was made. *)
Theorem drop_returns_memory strat cap a0 a s0 tr s t :
  strategy_ok strat -> in_usize cap -> in_usize batch_size ->
  collector_new strat cap a0 = Ret (a, Ok s0) -> steps s0 tr s -> quiescent s ->
  exists fuel a' tr', collector_drop fuel t s = Some (Ret a', tr') /\
    evs_reclaimed tr' ≡ₚ pending s /\ live a' = live a0 /\ boxes a' = boxes a0.
Proof.
  intros Hstr Hcap Hbs Hnew Hst Hq.
  destruct (drop_accounted (live a0) (boxes a0) s t) as (fuel & a' & tr' & E & Hrec & _ & Hl & Hx); [|  |done|by exists fuel, a', tr'].
  - by exists strat, cap, a0, a, s0, tr.
  - eapply steps_accounted; [by eapply new_accounted|done].
Qed.

End Memory.
