(* ===== verification/RawSolo.v ===== *)
(** * Every operation ends

    A thread inside the collector that runs alone gets back to its client code:
    the scan of the reservations, the retry loop of [try_retire], the traversal
    of a reservation list and the freeing of batches all end. Other threads can
    only make the retry loop take longer, by winning its exchanges. *)

From stdpp Require Import prelude list gmap.
From S2P Require Import Prelude Alloc ThreadId Membarrier Tls RawData RawStep RawExec RawGhost RawInv RawPreserve RawReclaim.

Open Scope Z_scope.

(** The accesses of [load] that are still to come. *)
Definition load_rank (pc : load_pc) : nat :=
  match pc with LBucket => 3 | LAllocate => 2 | LCas _ => 1 | LEntry => 0 end.

Lemma load_step_rank {T A} `{EntryLayout T} `{Allocator A} create th pc (tl : ThreadLocal T) (a a' : A) tl' pc' :
  load_step create th pc tl a = Some (a', tl', LMore pc') -> (load_rank pc' < load_rank pc)%nat.
Proof. destruct pc; simpl; repeat case_match; intros [=]; subst; simpl; lia. Qed.

Lemma next_of_set_active h b n x :
  next_of (alter (set_active n) b h) x = next_of h x.
Proof.
  unfold next_of, entry_at. destruct (decide (x.1 = b)) as [->|]; [|by rewrite lookup_alter_ne].
  rewrite lookup_alter_eq. by destruct (h !! b).
Qed.

Section Solo.
Context {A : Type} `{Allocator A} `{BoxVec A} `{!BoxVecLaws A}.
Context `{EntryLayout Reservation} `{EntryLayout LocalBatch}.
Variables (plat : Platform) (batch_size : Z) (t : nat).

Abbreviation rstate := (raw_state A).
Abbreviation Inv := (Inv plat batch_size).
Abbreviation step := (step plat batch_size).
Abbreviation run_until := (run_until plat batch_size).
Implicit Types (s : rstate) (r : slot) (fs rest : list frame).

(** Thread [t], running alone, gets to its client code or to the stack [rest]. *)
Inductive pops rest : rstate -> Prop :=
| pops_here s : stack s t = rest -> pops rest s
| pops_client s : at_client (stack s t) = true -> pops rest s
| pops_step s s1 ev :
    at_client (stack s t) = false -> step (LRun t) s = Some (s1, ev) -> pops rest s1 -> pops rest s.

Lemma pops_run rest s fr below :
  Inv s -> stack s t = fr :: below ->
  (forall s1 ev, run_frame plat batch_size false t fr below s = Some (s1, ev) -> Inv s1 -> pops rest s1) ->
  pops rest s.
Proof.
  intros HI Hs Hk. destruct (at_client (stack s t)) eqn:Hc; [by apply pops_client|].
  rewrite Hs in Hc. destruct (run_frame_safe _ _ _ _ _ _ HI Hs Hc) as (s1 & ev & E & HI1).
  apply (pops_step _ _ s1 ev); [by rewrite Hs|simpl; by rewrite Hs|by eapply Hk].
Qed.

Lemma pops_trans rest1 rest2 s :
  Inv s -> pops rest1 s -> (forall s', Inv s' -> stack s' t = rest1 -> pops rest2 s') -> pops rest2 s.
Proof.
  intros HI Hp Hk. induction Hp as [s Hs|s Hc|s s1 ev Hc Hstep _ IH]; [by apply Hk|by apply pops_client|].
  apply (pops_step _ _ s1 ev); [done..|]. apply IH. by eapply (Inv_step _ _ (LRun t)).
Qed.

(** A frame whose steps lead to the frames below it. *)
Definition frame_pops (fr : frame) : Prop :=
  forall s rest, Inv s -> stack s t = fr :: rest -> pops rest s.

Lemma pops_goto_here rest s : pops rest (goto t rest s).
Proof. apply pops_here, stack_goto_eq. Qed.

Lemma pops_goto fr rest s : frame_pops fr -> Inv (goto t (fr :: rest) s) -> pops rest (goto t (fr :: rest) s).
Proof. intros Hf HI. apply Hf; [done|apply stack_goto_eq]. Qed.

Lemma pops_goto_2 f g rest s :
  frame_pops f -> frame_pops g -> Inv (goto t (f :: g :: rest) s) -> pops rest (goto t (f :: g :: rest) s).
Proof.
  intros Hf Hg HI. eapply pops_trans; [done|by apply pops_goto|]. intros s' HI' Hs'. by apply Hg.
Qed.

(** *** Frames that pop at once, or reach the client *)

Lemma pops_ret x : frame_pops (FRet x).
Proof. intros s rest HI Hs. eapply pops_run; [done..|]. intros s1 ev [= <- <-] _. apply pops_goto_here. Qed.

Lemma pops_free b i : frame_pops (FFree b i).
Proof.
  intros s rest HI Hs. eapply pops_run; [done..|]. intros s1 ev. simpl. unfold step_free_batch, LocalBatch_free.
  destruct (heap s !! b) as [bt|]; [simpl|done]. destruct (entries bt !! i); intros [= <- <-] _.
  - apply pops_client. by rewrite stack_goto_eq.
  - apply pops_goto_here.
Qed.

Lemma pops_finish b act : frame_pops (FFinish b act).
Proof.
  intros s rest HI Hs. eapply pops_run; [done..|]. intros s1 ev. simpl. unfold step_finish.
  destruct (heap s !! b); [simpl|done]. intros [= <- <-] HI1. case_decide; [|apply pops_goto_here].
  apply pops_goto; [apply pops_free|done].
Qed.

Lemma pops_enter_store r o : frame_pops (FEnterStore r o).
Proof.
  intros s rest HI Hs. eapply pops_run; [done..|]. intros s1 ev. simpl. unfold step_enter_store.
  destruct (head_of s r); [simpl|done]. intros [= <- <-] _. apply pops_goto_here.
Qed.

Lemma pops_enter r : frame_pops (FEnter r).
Proof.
  intros s rest HI Hs. eapply pops_run; [done..|]. intros s1 ev [= <- <-] HI1.
  apply pops_goto; [apply pops_enter_store|done].
Qed.

(** *** Traversal: the list gets shorter *)

Lemma pops_links xs l s rest :
  Inv s -> stack s t = FTraverse l :: rest -> links (heap s) l xs -> pops rest s.
Proof.
  revert l s. induction xs as [|[b i] xs IH]; intros l s HI Hs Hl; simpl in Hl.
  - subst l. eapply pops_run; [done..|]. intros s1 ev [= <- <-] _. apply pops_goto_here.
  - destruct Hl as (-> & n & Hn & Hl). unfold next_of in Hn. simpl in Hn.
    destruct (entry_at (heap s) b i) as [e|] eqn:He; [|done]. simpl in Hn. destruct (state e) as [|n'] eqn:Est; simplify_eq.
    assert (e_batch e = b) as Heb.
    { unfold entry_at in He. apply bind_Some in He as (bt & Hb & He). destruct HI as (_ & _ & HG).
      destruct (G_batch _ _ _ _ _ HG _ _ Hb) as (_ & Hall & _). by apply (Forall_lookup_1 _ _ _ _ Hall He). }
    eapply pops_run; [done..|]. intros s1 ev. simpl. rewrite He. simpl. rewrite Est, Heb. intros [= <- <-] HI1.
    eapply pops_run; [done|apply stack_goto_eq|]. intros s2 ev2. simpl. unfold step_dec. simpl.
    unfold entry_at in He. apply bind_Some in He as (bt & Hb & He). rewrite Hb. simpl.
    intros [= <- <-] HI2. case_decide.
    + eapply pops_run; [done|apply stack_goto_eq|]. intros s3 ev3. simpl. unfold step_free_batch. simpl.
      rewrite lookup_alter_eq, Hb. simpl. destruct (entries bt !! 0%nat) eqn:E0.
      * intros [= <- <-] _. apply pops_client. by rewrite stack_goto_eq.
      * apply lookup_ge_None in E0. apply lookup_lt_Some in He. lia.
    + eapply IH; [done|apply stack_goto_eq|]. simpl. eapply links_ext; [|done].
      intros x _. apply next_of_set_active.
Qed.

Lemma pops_traverse l : frame_pops (FTraverse l).
Proof.
  intros s rest HI Hs. pose proof HI as (_ & _ & HG). destruct HG as (own & ph & HC & _).
  destruct (c_trav _ _ _ _ HC t (length rest)) as (xs & Hl & _).
  assert (role_at s t (length rest) = RTrav l) as HR.
  { unfold role_at. by rewrite (frame_at_top _ _ _ _ Hs). }
  rewrite HR in Hl. by eapply pops_links.
Qed.

Lemma pops_dec n b : frame_pops (FDec n b).
Proof.
  intros s rest HI Hs. eapply pops_run; [done..|]. intros s1 ev. simpl. unfold step_dec.
  destruct (heap s !! b); [simpl|done]. intros [= <- <-] HI1. case_decide.
  - apply pops_goto_2; [apply pops_free|apply pops_traverse|done].
  - apply pops_goto; [apply pops_traverse|done].
Qed.

Lemma pops_swap r e s rest s1 ev :
  step_swap t r e rest s = Some (s1, ev) -> Inv s1 -> pops rest s1.
Proof.
  unfold step_swap. destruct (head_of _ r) as [hd|]; [simpl|done]. intros [= <- <-] HI1.
  case_decide; [apply pops_goto_here|]. apply pops_goto; [apply pops_traverse|done].
Qed.

Lemma pops_leave r : frame_pops (FLeave r).
Proof. intros s rest HI Hs. eapply pops_run; [done..|]. intros s1 ev. apply pops_swap. Qed.

Lemma pops_refresh r : frame_pops (FRefresh r).
Proof. intros s rest HI Hs. eapply pops_run; [done..|]. intros s1 ev. apply pops_swap. Qed.

(** *** [try_retire]: each exchange succeeds at the latest the second time *)

Lemma pops_next f rest s s1 ev :
  (next t [f] rest s : option (rstate * list event)) = Some (s1, ev) -> Inv s1 -> frame_pops f -> pops rest s1.
Proof. intros [= <- <-] HI1 Hf. by apply pops_goto. Qed.

Lemma pops_cas_fresh b m i act r prev s rest :
  frame_pops (FRetire b m (S i) act) -> frame_pops (FRetire b m (S i) (wadd act 1)) ->
  Inv s -> stack s t = FCas b m i act r prev :: rest -> head_of s r = Some prev -> pops rest s.
Proof.
  intros Hf1 Hf2 HI Hs Hr. eapply pops_run; [done..|]. intros s1 ev. simpl. unfold step_cas.
  case_decide; [intros E HI1; by eapply pops_next|].
  destruct (entry_at (heap s) b i); [simpl|done].
  assert (head_of (store_batch b (set_state i (SNext prev)) s) r = Some prev) as -> by done. simpl.
  rewrite decide_True by done. intros E HI1. by eapply pops_next.
Qed.

Lemma pops_cas b m i act r prev :
  frame_pops (FRetire b m (S i) act) -> frame_pops (FRetire b m (S i) (wadd act 1)) ->
  frame_pops (FCas b m i act r prev).
Proof.
  intros Hf1 Hf2 s rest HI Hs. eapply pops_run; [done..|]. intros s1 ev. simpl. unfold step_cas.
  case_decide; [intros E HI1; by eapply pops_next|].
  destruct (entry_at (heap s) b i); [simpl|done].
  destruct (head_of (store_batch b (set_state i (SNext prev)) s) r) as [found|] eqn:Hr; [simpl|done].
  case_decide; intros [= <- <-] HI1; [by apply pops_goto|].
  apply (pops_cas_fresh b m i act r found); [exact Hf1|exact Hf2|exact HI1|apply stack_goto_eq|exact Hr].
Qed.

Lemma pops_retire b m i act : frame_pops (FRetire b m i act).
Proof.
  remember (m - i)%nat as n eqn:Hn. revert i act Hn. induction n as [|n IH]; intros i act Hn s rest HI Hs.
  - eapply pops_run; [done..|]. intros s1 ev. simpl. unfold step_retire. case_decide; [lia|].
    intros E HI1. eapply pops_next; [done..|apply pops_finish].
  - eapply pops_run; [done..|]. intros s1 ev. simpl. unfold step_retire. case_decide; [|lia].
    destruct (entry_at (heap s) b i) as [e|]; [simpl|done]. destruct (state e) as [[r|]|]; try done.
    destruct (head_of s r) as [prev|]; [simpl|done]. intros E HI1.
    eapply pops_next; [done..|]. apply pops_cas; apply IH; lia.
Qed.

Lemma pops_reset r b m : frame_pops (FTry r (TReset b m)).
Proof.
  intros s rest HI Hs. eapply pops_run; [done..|]. intros s1 ev E HI1.
  eapply pops_next; [exact E|done|apply pops_retire].
Qed.

(** The scan ends, because the iterator does. *)
Lemma pops_scan r n b m ipc it s rest :
  Inv s -> stack s t = FTry r (TScan b m ipc it) :: rest -> (Z.to_nat (iter_measure ipc it) < n)%nat -> pops rest s.
Proof.
  revert m ipc it s. induction n as [|n IH]; intros m ipc it s HI Hs Hn; [lia|].
  destruct (Inv_top _ _ _ _ _ _ HI Hs) as (_ & _ & _ & Hit & Hpc). pose proof HI as (_ & HS & _).
  eapply pops_run; [done..|]. intros s1 ev. simpl. destruct (iter_step (reservations s) ipc it) as [res|] eqn:E; [simpl|done].
  pose proof (iter_step_measure _ _ _ _ (i_res _ _ HS) Hit Hpc E) as Hm.
  assert (forall pc' it', iter_measure pc' it' < iter_measure ipc it -> 0 <= iter_measure pc' it' ->
    (Z.to_nat (iter_measure pc' it') < n)%nat) as Hlt by lia.
  destruct res as [ipc' it'|r' it'|]; intros [= <- <-] HI1.
  - destruct (Inv_top _ _ _ _ _ _ HI1 (stack_goto_eq _ _ _)) as (_ & _ & _ & Hit' & Hpc').
    eapply IH; [done|apply stack_goto_eq|]. apply Hlt; [done|]. apply iter_measure_nonneg; [done|]. intros ->. apply Hpc'.
  - destruct (Inv_top _ _ _ _ _ _ HI1 (stack_goto_eq _ _ _)) as (_ & _ & _ & Hit' & _).
    eapply pops_run; [done|apply stack_goto_eq|]. intros s2 ev2. simpl.
    assert (Z.to_nat (iter_measure IBucket it') < n)%nat as Hn' by (apply Hlt; [done|by apply iter_measure_nonneg]).
    destruct (head_of _ r') as [hd|]; [simpl|done]. case_decide.
    { intros [= <- <-] HI2. eapply IH; [done|apply stack_goto_eq|done]. }
    destruct (heap s !! b) as [bt|]; [simpl|done]. destruct (entries bt !! m); intros [= <- <-] HI2.
    + eapply IH; [done|apply stack_goto_eq|done].
    + apply pops_goto_here.
  - apply pops_goto; [apply pops_reset|done].
Qed.

Lemma pops_mark r b m it r' : frame_pops (FTry r (TMark b m it r')).
Proof.
  intros s rest HI Hs. eapply pops_run; [done..|]. intros s1 ev. simpl.
  destruct (head_of s r') as [hd|]; [simpl|done]. case_decide.
  { intros [= <- <-] HI1. by eapply pops_scan; [done|apply stack_goto_eq|apply Nat.lt_succ_diag_r]. }
  destruct (heap s !! b) as [bt|]; [simpl|done]. destruct (entries bt !! m); intros [= <- <-] HI1.
  - by eapply pops_scan; [done|apply stack_goto_eq|apply Nat.lt_succ_diag_r].
  - apply pops_goto_here.
Qed.

Lemma pops_batch r : frame_pops (FTry r TBatch).
Proof.
  intros s rest HI Hs. eapply pops_run; [done..|]. intros s1 ev. simpl.
  destruct (local_of s r) as [[| |b]|]; [simpl..|done]; intros [= <- <-] HI1; try apply pops_goto_here.
  by eapply pops_scan; [done|apply stack_goto_eq|apply Nat.lt_succ_diag_r].
Qed.

Lemma pops_try r pc : frame_pops (FTry r pc).
Proof.
  destruct pc as [|h| |b m ipc it|b m it r'|b m].
  - intros s rest HI Hs. eapply pops_run; [done..|]. intros s1 ev [= <- <-] HI1.
    eapply pops_run; [done|apply stack_goto_eq|]. intros s2 ev2 [= <- <-] HI2. apply pops_goto; [apply pops_batch|done].
  - intros s rest HI Hs. eapply pops_run; [done..|]. intros s1 ev [= <- <-] HI1. apply pops_goto; [apply pops_batch|done].
  - apply pops_batch.
  - intros s rest HI Hs. by eapply pops_scan; [done..|apply Nat.lt_succ_diag_r].
  - apply pops_mark.
  - apply pops_reset.
Qed.

(** *** [add], [reserve], [try_retire_batch] and [load] *)

Lemma pops_add r p f : frame_pops (FAdd r p f).
Proof.
  intros s rest HI Hs. eapply pops_run; [done..|]. intros s1 ev E HI1. simpl in E.
  destruct (step_add_spec _ _ s t r p f rest HI (Inv_top _ _ _ _ _ _ HI Hs)) as (s2 & fs & ev' & E' & _ & Hc).
  rewrite E' in E. injection E as <- <-.
  destruct Hc as [(-> & _)|(b & _ & _ & _ & _ & ->)]; [by apply pops_goto; [apply pops_ret|]|].
  case_decide; [apply pops_goto_2; [apply pops_try|apply pops_ret|done]|by apply pops_goto; [apply pops_ret|]].
Qed.

Lemma pops_reserve r : frame_pops (FReserve r).
Proof.
  intros s rest HI Hs. eapply pops_run; [done..|]. intros s1 ev E HI1. simpl in E.
  destruct (step_reserve_spec _ _ s t r rest HI (Inv_top _ _ _ _ _ _ HI Hs)) as (s2 & x & E' & _).
  rewrite E' in E. injection E as <- <-. by apply pops_goto; [apply pops_ret|].
Qed.

Lemma pops_flush th : frame_pops (FFlush th).
Proof.
  intros s rest HI Hs. eapply pops_run; [done..|]. intros s1 ev. simpl. unfold step_flush.
  destruct (get (batches s) th); intros [= <- <-] HI1.
  - apply pops_goto_2; [apply pops_try|apply pops_ret|done].
  - by apply pops_goto; [apply pops_ret|].
Qed.

Lemma pops_load k th pc : frame_pops (FLoad k th pc).
Proof.
  remember (load_rank pc) as n eqn:Hn. revert pc Hn. induction n as [n IH] using lt_wf_ind. intros pc -> s rest HI Hs.
  assert (forall pc', (load_rank pc' < load_rank pc)%nat -> frame_pops (FLoad k th pc')) as IH'
    by (intros pc' Hlt; by apply (IH _ Hlt)).
  eapply pops_run; [done..|]. intros s1 ev. simpl. unfold step_load. destruct k as [|p f|].
  1: destruct (load_step _ _ _ (reservations s) _) as [[[a tl] res]|] eqn:E; [|done].
  2,3: destruct (load_step _ _ _ (batches s) _) as [[[a tl] res]|] eqn:E; [|done].
  all: destruct res; intros [= <- <-] HI1; apply pops_goto; try done; try (apply IH'; first [exact (load_step_rank (T:=Reservation) _ _ _ _ _ _ _ _ E)|exact (load_step_rank (T:=LocalBatch) _ _ _ _ _ _ _ _ E)]).
  all: eauto using pops_ret, pops_add, pops_reserve.
Qed.

Lemma frame_pops_all fr s rest : Inv s -> stack s t = fr :: rest -> pops rest s.
Proof.
  intros HI Hs. pose proof (Inv_top _ _ _ _ _ _ HI Hs) as Hok. revert HI Hs.
  destruct fr; try done.
  - apply pops_load.
  - apply pops_add.
  - apply pops_reserve.
  - apply pops_flush.
  - apply pops_try.
  - apply pops_retire.
  - apply pops_cas; apply pops_retire.
  - apply pops_finish.
  - apply pops_enter.
  - apply pops_enter_store.
  - apply pops_leave.
  - apply pops_refresh.
  - apply pops_traverse.
  - apply pops_dec.
  - apply pops_free.
  - intros HI Hs. apply pops_client. by rewrite Hs.
  - apply pops_ret.
Qed.

Lemma pops_all s : Inv s -> pops [] s.
Proof.
  remember (stack s t) as fs eqn:Hs. revert s Hs. induction fs as [|fr fs IH]; intros s Hs HI; [by apply pops_here|].
  eapply pops_trans; [done|by apply (frame_pops_all fr)|]. intros s' HI' Hs'. by apply IH.
Qed.

Lemma pops_run_until s : pops [] s -> exists fuel s' tr, run_until fuel t s = Some (s', tr) /\ at_client (stack s' t) = true.
Proof.
  induction 1 as [s Hs|s Hc|s s1 ev Hc Hstep _ (fuel & s' & tr & Hrun & Hc')].
  - exists 0%nat, s, []. simpl. by rewrite Hs.
  - exists 0%nat, s, []. simpl. by rewrite Hc.
  - exists (S fuel), s', (ev ++ tr). split; [|done]. cbn [RawStep.run_until]. by rewrite Hc, Hstep; simpl; rewrite Hrun.
Qed.

Lemma run_until_steps fuel s s' tr : run_until fuel t s = Some (s', tr) -> steps plat batch_size s tr s'.
Proof.
  revert s tr. induction fuel as [|fuel IH]; intros s tr; simpl; (case_match; [by intros [= <- <-]; constructor|]); [done|].
  intros ([s1 ev] & E1 & ([s2 tr2] & E2 & [= -> <-])%bind_Some)%bind_Some.
  by apply (steps_cons _ _ s (LRun t) s1); [..|apply IH].
Qed.

Lemma reachable_steps s tr s' : reachable plat batch_size s -> steps plat batch_size s tr s' -> reachable plat batch_size s'.
Proof.
  intros (strat & cap & a0 & a & s0 & tr0 & Hs & Hc & Hb & Hnew & Hst) Hst'.
  exists strat, cap, a0, a, s0, (tr0 ++ tr). do 4 (split; [done|]). by eapply steps_trans.
Qed.

(** C16. Every operation ends. In every reachable state, whatever the other
    threads were doing when they stopped, a thread that runs alone gets back to
    client code after finitely many steps: to the caller of the operation, or to
    a reclaimer that the operation calls, and again after that has returned. No
    loop waits for another thread. *)
Theorem operations_end s :
  reachable plat batch_size s ->
  exists fuel s' tr, run_until fuel t s = Some (s', tr) /\ at_client (stack s' t) = true /\
    reachable plat batch_size s'.
Proof.
  intros Hreach. destruct (pops_run_until s) as (fuel & s' & tr & Hrun & Hc); [by apply pops_all, Inv_reachable|].
  exists fuel, s', tr. split; [done|]. split; [done|]. by eapply reachable_steps, run_until_steps.
Qed.
End Solo.
