(* ===== verification/RawScenario.v ===== *)
(** * Histories of the raw collector

    Concrete histories, evaluated: the hypotheses of the theorems hold in them,
    and the behaviours of [src/tests/lib.rs] and of [reclaim_all] can be seen. *)

From stdpp Require Import prelude list gmap.
From S2P Require Import Prelude Alloc ThreadId Membarrier Tls RawData RawStep RawExec RawGhost RawInv RawPreserve RawProtect RawFacts RawConserve RawReclaim RawSolo.

Open Scope Z_scope.

(** Reservations and local batches are padded to 128 bytes on x86-64. *)
#[export] Instance reservation_layout : EntryLayout Reservation := {| entry_size := 256; entry_align := 128 |}.
#[export] Instance local_batch_layout : EntryLayout LocalBatch := {| entry_size := 256; entry_align := 128 |}.

Abbreviation state := (raw_state Bump).

Definition no_state : state := mkState 0 ∅ (mkThreadLocal []) (mkThreadLocal []) bump_init ∅ ∅.

(** A new collector with room for four threads. *)
Definition start (strat : Z) : state :=
  match collector_new strat 4 bump_init with Ret (_, Ok s) => s | _ => no_state end.

Definition history := option (state * list event).
Definition state_of (h : history) : state := from_option fst no_state h.
Definition trace_of (h : history) : list event := from_option snd [] h.

(** Thread [i] of the examples has ID [i]. *)
Definition th (i : Z) : Thread := match Thread_new i with Ret t => t | Panic => mkThread 0 0 0 end.

Definition script (plat : Platform) (strat batch_size : Z) (cs : list command) : history :=
  script_run plat batch_size 400 cs (start strat).

Lemma script_reachable plat strat bs cs s tr :
  strategy_ok strat -> in_usize bs -> (exists a, collector_new strat 4 bump_init = Ret (a, Ok (start strat))) ->
  script plat strat bs cs = Some (s, tr) -> reachable plat bs s.
Proof.
  intros Hs Hbs [a Ha] Hrun. exists strat, 4, bump_init, a, (start strat), tr.
  split; [done|]. split; [usize|]. split; [done|]. split; [done|]. by apply (script_run_steps _ _ 400 cs).
Qed.

Definition s00 : slot := (0, 0)%nat.
Definition s01 : slot := (0, 1)%nat.

(** Thread 1 enters; its store of null stays in the store buffer. *)
Definition reader : list command := [Call 1 (OpReservation (th 1)); Call 1 (OpEnter s01)].

(** Thread 0 retires two objects in a batch of size 2 and leaves. *)
Definition writer : list command :=
  [Call 0 (OpReservation (th 0)); Call 0 (OpEnter s00); Call 0 (OpAdd 100 7 (th 0));
   Call 0 (OpAdd 101 7 (th 0)); Call 0 (OpLeave s00)].


(** ** Witnesses *)

(** The state after the reader entered, and the run of the writer. *)
Definition s_reader : state := state_of (script PLinux MEMBARRIER 2 reader).
Definition h_writer : history := script_run PLinux 2 400 writer s_reader.

Lemma start_new strat : strategy_ok strat ->
  exists a, collector_new strat 4 bump_init = Ret (a, Ok (start strat)).
Proof. intros [->|[->| ->]]; eexists; vm_compute; reflexivity. Qed.

Lemma membarrier_ok : strategy_ok MEMBARRIER.
Proof. by left. Qed.

Lemma script_state_reachable plat strat bs cs :
  strategy_ok strat -> in_usize bs -> is_Some (script plat strat bs cs) ->
  reachable plat bs (state_of (script plat strat bs cs)).
Proof.
  intros Hs Hbs [[s tr] E]. eapply script_reachable; [done..|by apply start_new|by rewrite E].
Qed.

Lemma s_reader_reachable : reachable PLinux 2 s_reader.
Proof.
  apply script_state_reachable; [apply membarrier_ok|usize|]. vm_compute. by eexists.
Qed.

Lemma writer_steps : steps PLinux 2 s_reader (trace_of h_writer) (state_of h_writer).
Proof. apply (script_run_steps _ _ 400 writer). vm_compute. reflexivity. Qed.

Lemma s_reader_guarded : guarded s_reader s01.
Proof. exists INACTIVE. split; [vm_compute; reflexivity|right]. vm_compute. by eexists. Qed.

Lemma heap_empty_unscanned (s : state) p : heap s = ∅ -> unscanned s p.
Proof. intros Hh b (j & e & He & _). unfold entry_at in He. by rewrite Hh, lookup_empty in He. Qed.

(** The reader's store is still buffered, the writer retires object 100 and
    leaves, and the object is not reclaimed. *)
Lemma guard_protects_witness :
  buffers s_reader !! s01 = Some 1%nat /\ EvRetire 0 100 7 ∈ trace_of h_writer /\
  forall t f, EvReclaim t 100 f ∉ trace_of h_writer.
Proof.
  split; [vm_compute; reflexivity|]. split.
  - apply (bool_decide_unpack _). vm_compute. exact I.
  - eapply (guard_protects PLinux 2 s_reader s01 100 _ (state_of h_writer)).
    + exact s_reader_reachable.
    + exact s_reader_guarded.
    + apply heap_empty_unscanned. vm_compute. reflexivity.
    + exact writer_steps.
    + apply (bool_decide_unpack _). vm_compute. exact I.
Defined.

(** ... until the reader leaves. *)
Example reader_leaves :
  evs_reclaimed (trace_of (script PLinux MEMBARRIER 2 (reader ++ writer ++ [Call 1 (OpLeave s01)]))) =
    [(100, 7); (101, 7)].
Proof. vm_compute. reflexivity. Qed.

(** A thread in the middle of [try_retire]. *)
Definition s_middle : state :=
  state_of (script PLinux MEMBARRIER 2
    (reader ++ [Call 0 (OpReservation (th 0)); Call 0 (OpAdd 100 7 (th 0)); Step (LCall 0 (OpAdd 101 7 (th 0)));
                Step (LRun 0); Step (LRun 0); Step (LRun 0); Step (LRun 0); Step (LRun 0); Step (LRun 0)])).

Lemma no_dangling_access_witness :
  at_client (stack s_middle 0) = false /\ can_step PLinux 2 s_middle 0.
Proof.
  assert (at_client (stack s_middle 0) = false) as Hc by (vm_compute; reflexivity).
  split; [exact Hc|]. apply (no_dangling_access PLinux 2 s_middle 0); [|exact Hc].
  apply script_state_reachable; [apply membarrier_ok|usize|]. vm_compute. by eexists.
Defined.

(** After the writer, its batch is published and held by the reader only. *)
Definition s_writer : state := state_of (script PLinux MEMBARRIER 2 (reader ++ writer)).

Lemma s_writer_reachable : reachable PLinux 2 s_writer.
Proof. apply script_state_reachable; [apply membarrier_ok|usize|]. vm_compute. by eexists. Qed.

Lemma no_stacks (s : state) :
  bool_decide (map_Forall (fun _ fs => fs = []) (threads s)) = true -> forall t, stack s t = [].
Proof.
  intros Hs%bool_decide_eq_true t. unfold stack. destruct (threads s !! t) as [fs|] eqn:E; [|done].
  by apply (Hs t).
Qed.

Lemma all_locals (s : state) (P : bptr -> Prop) :
  Forall (fun lb => P (batch lb)) (all_values (batches s)) -> forall r b, local_of s r = Some b -> P b.
Proof.
  intros HF r b (lb & Hlb & ->)%fmap_Some. rewrite Forall_forall in HF.
  by eapply HF, tl_get_values.
Qed.

Lemma all_heads (s : state) (P : eptr -> Prop) :
  Forall (fun x => P (head x)) (all_values (reservations s)) -> forall r hd, head_of s r = Some hd -> P hd.
Proof.
  intros HF r hd (x & Hx & ->)%fmap_Some. rewrite Forall_forall in HF.
  by eapply HF, tl_get_values.
Qed.

Lemma active_counts_references_witness :
  exists bt X, heap s_writer !! 3 = Some bt /\ active bt = 1 /\ active bt = Z.of_nat (size (X : gset ref)) /\
    forall x, x ∈ X -> x.1 = 3.
Proof.
  assert (exists bt, heap s_writer !! 3 = Some bt /\ active bt = 1) as (bt & Hb & Ha)
    by (vm_compute; by eexists).
  destruct (active_counts_references PLinux 2 s_writer 3 bt) as (X & D & HX & _ & Hin & _).
  - exact s_writer_reachable.
  - exact Hb.
  - split.
    + intros r HL. refine (all_locals s_writer (fun b => b <> BPtr 3) _ r (BPtr 3) HL eq_refl).
      apply (bool_decide_unpack _). vm_compute. exact I.
    + intros t d. unfold role_at. rewrite no_stacks by (vm_compute; reflexivity). done.
  - exists bt, X. split; [exact Hb|]. split; [exact Ha|]. split; [exact HX|]. intros x Hx. by apply Hin.
Defined.

(** Everybody left; one object waits in the local batch of slot 0. *)
Definition s_quiet : state :=
  state_of (script PLinux MEMBARRIER 2
    (reader ++ writer ++ [Call 1 (OpLeave s01); Call 0 (OpAdd 102 7 (th 0))])).

Lemma s_quiet_reachable : reachable PLinux 2 s_quiet.
Proof. apply script_state_reachable; [apply membarrier_ok|usize|]. vm_compute. by eexists. Qed.

Lemma quiescent_no_leak_witness :
  exists b bt, heap s_quiet !! b = Some bt /\ exists r, local_of s_quiet r = Some (BPtr b).
Proof.
  assert (exists b bt, heap s_quiet !! b = Some bt) as (b & bt & Hb).
  { exists 3. vm_compute. by eexists. }
  exists b, bt. split; [exact Hb|].
  destruct (quiescent_no_leak PLinux 2 s_quiet) with (b := b) (bt := bt) as (r & HL & _).
  - exact s_quiet_reachable.
  - split; [apply no_stacks; vm_compute; reflexivity|].
    apply (all_heads s_quiet (fun hd => hd = INACTIVE)). apply (bool_decide_unpack _). vm_compute. exact I.
  - exact Hb.
  - by exists r.
Defined.


Lemma retired_is_reclaimed_or_pending_witness :
  evs_retired (trace_of h_writer) = [(100, 7); (101, 7)] /\
  evs_retired (trace_of h_writer) ++ pending s_reader ≡ₚ
    evs_reclaimed (trace_of h_writer) ++ pending (state_of h_writer).
Proof.
  split; [vm_compute; reflexivity|].
  exact (retired_is_reclaimed_or_pending PLinux 2 s_reader _ _ s_reader_reachable writer_steps).
Defined.

Lemma heavy_sees_light_store_witness :
  head_of s_reader s01 = Some INACTIVE /\
  exists hd, head_of (barrier 0 (heavy PLinux (strategy s_reader)) s_reader) s01 = Some hd /\ hd <> INACTIVE.
Proof.
  split; [vm_compute; reflexivity|].
  exact (proj1 (heavy_sees_light_store PLinux 2 s_reader s01 0 s_reader_reachable) s_reader_guarded).
Defined.

(** Thread 0 reserves, then allocation starts to fail. *)
Definition s_reserving : state :=
  state_of (script PLinux MEMBARRIER 2
    [Step (LCall 0 (OpReserve (th 0))); Step (LRun 0); Step (LRun 0)]).

Lemma reserve_then_add_witness :
  exists s1 s2 fs, step PLinux 2 (LRun 0) s_reserving = Some (s1, []) /\
    step_add 2 0 s00 100 7 [] (set_alloc (bump_set_failing true (alloc s1)) s1) =
      Some (goto 0 (fs ++ []) s2, [EvRetire 0 100 7]) /\ last fs = Some (FRet ROk).
Proof.
  set (h := step PLinux 2 (LRun 0) s_reserving).
  assert (h = Some (state_of h, [])) as Hh by (vm_compute; reflexivity).
  destruct (reserve_then_add PLinux 2 s_reserving 0 s00 [] (state_of h) []) with
    (t' := 0%nat) (p := 100) (f := 7) (rest' := @nil frame) (a := bump_set_failing true (alloc (state_of h)))
    as (s2 & fs & E & _ & Hl).
  - apply script_state_reachable; [apply membarrier_ok|usize|]. vm_compute. by eexists.
  - vm_compute. reflexivity.
  - exact Hh.
  - vm_compute. reflexivity.
  - exists (state_of h), s2, fs. split; [exact Hh|]. split; [exact E|exact Hl].
Defined.

(** Thread 0 has filled its batch and is about to scan the reservations, the
    reader being active. *)
Definition s_retiring : state :=
  state_of (script PLinux MEMBARRIER 2 (reader ++
    [Call 0 (OpReservation (th 0)); Call 0 (OpEnter s00); Call 0 (OpAdd 100 7 (th 0));
     Step (LCall 0 (OpAdd 101 7 (th 0))); Step (LRun 0); Step (LRun 0); Step (LRun 0); Step (LRun 0)])).

Lemma operations_end_witness :
  at_client (stack s_retiring 0) = false /\
  exists fuel s' tr, run_until PLinux 2 fuel 0 s_retiring = Some (s', tr) /\ at_client (stack s' 0) = true.
Proof.
  split; [vm_compute; reflexivity|].
  destruct (operations_end PLinux 2 0 s_retiring) as (fuel & s' & tr & E & Hc & _).
  - apply script_state_reachable; [apply membarrier_ok|usize|]. vm_compute. by eexists.
  - exists fuel, s', tr. split; [exact E|exact Hc].
Defined.

(** ** [reclaim_all] and re-entrant reclaimers

    [reclaim_all] is outside the concurrent contract; these runs are of one
    thread, with nobody else in the collector. *)

(** Run thread 0 until a reclaimer runs, call [o] from it, let everything
    return. *)
Definition reclaiming (batch_size : Z) (s : state) (o : op) : history :=
  '(s1, tr1) ← step PLinux batch_size (LCall 0 OpReclaimAll) s;
  '(s2, tr2) ← run_until PLinux batch_size 400 0 s1;
  '(s3, tr3) ← step PLinux batch_size (LCall 0 o) s2;
  '(s4, tr4) ← run_until PLinux batch_size 400 0 s3;
  '(s5, tr5) ← settle PLinux batch_size 400 0 s4;
  Some (s5, tr1 ++ tr2 ++ tr3 ++ tr4 ++ tr5).

Definition leftover (t : nat) (i : Z) : state :=
  state_of (script PLinux MEMBARRIER 64 [Call t (OpAdd 200 7 (th i))]).


(** On the slot being reclaimed it is reclaimed at once, during the call. *)
Lemma reclaim_all_recursive_retire :
  let h := reclaiming 64 (leftover 0 0) (OpAdd 201 8 (th 0)) in
  stack (state_of h) 0 = [] /\ evs_reclaimed (trace_of h) = [(200, 7); (201, 8)] /\
  pending (state_of h) = [] /\ heap (state_of h) = ∅.
Proof. vm_compute. split_and!; reflexivity. Qed.

(** So is an object retired through a guard that the reclaimer still holds. *)
Definition guarded_leftover : state :=
  state_of (script PLinux MEMBARRIER 64
    [Call 0 (OpReservation (th 0)); Call 0 (OpEnter s00); Call 0 (OpLeave s00); Call 0 (OpAdd 200 7 (th 0))]).

Definition reclaiming_guarded : history :=
  '(s1, tr1) ← step PLinux 64 (LCall 0 OpReclaimAll) guarded_leftover;
  '(s2, tr2) ← run_until PLinux 64 400 0 s1;
  '(s3, tr3) ← step PLinux 64 (LCall 0 (OpEnter s00)) s2;
  '(s4, tr4) ← run_until PLinux 64 400 0 s3;
  '(s5, tr5) ← step PLinux 64 (LCall 0 (OpAdd 201 8 (th 0))) s4;
  '(s6, tr6) ← run_until PLinux 64 400 0 s5;
  Some (s6, tr1 ++ tr2 ++ tr3 ++ tr4 ++ tr5 ++ tr6).

Lemma reclaim_all_ignores_guard :
  trace_of reclaiming_guarded =
    [EvReclaim 0 200 7; EvEnter s00; EvRet 0 RUnit; EvRetire 0 201 8; EvReclaim 0 201 8] /\
  guarded (state_of reclaiming_guarded) s00.
Proof.
  split; [vm_compute; reflexivity|]. exists INACTIVE. split; [vm_compute; reflexivity|right].
  vm_compute. by eexists.
Qed.
