(* ===== verification/MemoryScenario.v ===== *)
(** * Memory in concrete histories

    Two threads race to install a bucket, and a collector is dropped: the
    hypotheses about memory hold. *)

From stdpp Require Import prelude list gmap.
From S2P Require Import Prelude Alloc ThreadId Membarrier Tls RawData RawStep RawExec RawGhost RawInv RawPreserve RawFacts RawConserve RawReclaim RawMemory RawScenario.

Open Scope Z_scope.

(** Threads 40 and 41 need the second bucket, which a collector for four
    threads has not allocated. Both allocate it; thread 0 installs its own, and
    thread 1 still has the other. *)
Definition h_race_both : history :=
  script PLinux MEMBARRIER 2
    [Step (LCall 0 (OpReservation (th 40))); Step (LRun 0);
     Step (LCall 1 (OpReservation (th 41))); Step (LRun 1); Step (LRun 1); Step (LRun 0); Step (LRun 0)].

Example race_held : length (held (state_of h_race_both)) = 1%nat.
Proof. vm_compute. reflexivity. Qed.

Lemma history_steps cs s tr :
  script PLinux MEMBARRIER 2 cs = Some (s, tr) -> steps PLinux 2 (start MEMBARRIER) tr s.
Proof. apply script_run_steps. Qed.

Lemma history_some (h : history) : is_Some h -> h = Some (state_of h, trace_of h).
Proof. by intros [[s tr] ->]. Qed.

Lemma memory_accounted_witness :
  exists tr, steps PLinux 2 (start MEMBARRIER) tr (state_of h_race_both) /\
    live_blocks (live (alloc (state_of h_race_both))) ≡ₚ
      tl_blocks (reservations (state_of h_race_both)) ++ tl_blocks (batches (state_of h_race_both)) ++
      held (state_of h_race_both) ++ live_blocks (live bump_init).
Proof.
  assert (steps PLinux 2 (start MEMBARRIER) (trace_of h_race_both) (state_of h_race_both)) as Hst.
  { eapply history_steps, history_some. vm_compute. by eexists. }
  exists (trace_of h_race_both). split; [exact Hst|].
  destruct (start_new MEMBARRIER membarrier_ok) as [a Ha].
  destruct (memory_accounted PLinux 2 ltac:(lia) MEMBARRIER 4 bump_init a (start MEMBARRIER) _ _ Ha Hst) as [Hb _].
  exact Hb.
Defined.

(** The collector of [s_quiet], in which an object waits, is dropped. *)
Lemma drop_returns_memory_witness :
  live (alloc s_quiet) <> ∅ /\ boxes (alloc s_quiet) <> ∅ /\
  exists fuel a tr, collector_drop PLinux 2 fuel 0 s_quiet = Some (Ret a, tr) /\
    evs_reclaimed tr ≡ₚ pending s_quiet /\ live a = ∅ /\ boxes a = ∅.
Proof.
  split; [vm_compute; discriminate|]. split; [vm_compute; discriminate|].
  destruct (start_new MEMBARRIER membarrier_ok) as [a Ha].
  destruct (drop_returns_memory PLinux 2 ltac:(lia) MEMBARRIER 4 bump_init a (start MEMBARRIER)
    (trace_of (script PLinux MEMBARRIER 2 (reader ++ writer ++ [Call 1 (OpLeave s01); Call 0 (OpAdd 102 7 (th 0))])))
    s_quiet 0) as (fuel & a' & tr & E & Hr & Hl & Hx).
  - exact membarrier_ok.
  - usize.
  - usize.
  - exact Ha.
  - eapply history_steps, history_some. vm_compute. by eexists.
  - split; [apply no_stacks; vm_compute; reflexivity|].
    apply (all_heads s_quiet (fun hd => hd = INACTIVE)). apply (bool_decide_unpack _). vm_compute. exact I.
  - exists fuel, a', tr. split; [exact E|]. split; [exact Hr|]. split; [exact Hl|exact Hx].
Defined.
