(* ===== verification/RawEffect.v ===== *)
(** * What a step of the raw collector does to stacks and reservations

    Facts about single steps, for the layer of guards: the shape of the stack
    of a call, which frames follow which, and when a slot becomes active or
    inactive. *)

From stdpp Require Import prelude list gmap.
From S2P Require Import Prelude Alloc ThreadId Membarrier Tls RawData RawStep RawGhost RawInv RawPreserve RawProtect.

Open Scope Z_scope.

(** ** Sections

    The frames of one call of the raw collector: a single frame that will
    return by itself, or frames above the one that returns. *)

Definition is_ret (f : frame) : bool := match f with FRet _ => true | _ => false end.

Definition starts (f : frame) : bool :=
  match f with FLoad _ _ _ | FAdd _ _ _ | FReserve _ | FFlush _ => true | _ => false end.

Definition inner (f : frame) : Prop := is_ret f = false /\ starts f = false.

(** Only the frame on top uses a slot. *)
Definition section (fs : list frame) : Prop :=
  Forall (fun f => uses f = None) (tail fs) /\
  ((exists f, fs = [f] /\ starts f = true) \/
   (exists fs' r, fs = fs' ++ [FRet r] /\ Forall inner fs')).

(** The new frames of a step of [f]. *)
Definition replaces (f : frame) (fs : list frame) : Prop :=
  if is_ret f then fs = []
  else if starts f then section fs
  else Forall inner fs /\ Forall (fun f => uses f = None) (tail fs).

Lemma section_start f : starts f = true -> section [f].
Proof. intros Hf. split; [by constructor|]. left. eauto. Qed.

Lemma section_ret r : section [FRet r].
Proof. split; [by constructor|]. right. by exists [], r. Qed.

Lemma section_inner_ret f r : inner f -> section [f; FRet r].
Proof. intros Hf. split; [by repeat constructor|]. right. exists [f], r. split; [done|]. by constructor. Qed.

Lemma section_replace f fs fs' : section (f :: fs) -> is_ret f = false -> replaces f fs' -> section (fs' ++ fs).
Proof.
  unfold replaces. intros [Hu [(f' & [= -> ->] & Hf)|(gs & r & E & HF)]] Hr; rewrite Hr.
  - rewrite Hf, app_nil_r. done.
  - destruct gs as [|g gs]; [by injection E as -> ->|]. injection E as -> ->.
    apply Forall_cons in HF as [[_ Hs] HF]. rewrite Hs. intros [HF' Hu']. split.
    + destruct fs' as [|f' fs']; simpl in *; [|by apply Forall_app].
      apply Forall_app in Hu as [Hu _]. destruct gs; simpl in *; [done|]. apply Forall_cons in Hu as [_ Hu].
      apply Forall_app. split; [done|]. by repeat constructor.
    + right. exists (fs' ++ gs), r. rewrite <-(assoc_L (++)). split; [done|]. by apply Forall_app.
Qed.

Lemma section_ret_inv r fs : section (FRet r :: fs) -> fs = [].
Proof.
  intros [_ [(f & [= <- ->] & _)|(gs & r' & E & HF)]]; [done|]. destruct gs as [|g gs]; [by injection E|].
  injection E as <- _. by apply Forall_cons in HF as [[? _] _].
Qed.

(** ** Successors of frames *)

(** [f'] may replace [f]; constructors that use no slot may follow anything. *)
Definition follows (f f' : frame) : Prop :=
  match f' with
  | FLoad k th _ => match f with FLoad k0 th0 _ => k0 = k /\ th0 = th | _ => False end
  | FAdd r _ _ => match f with FLoad (KAdd _ _) th _ => r = thread_slot th | _ => False end
  | FReserve r => match f with FLoad KReserve th _ => r = thread_slot th | _ => False end
  | FTry r _ =>
      match f with FAdd r0 _ _ | FTry r0 _ => r0 = r | FFlush th => r = thread_slot th | _ => False end
  | FEnterStore r _ => f = FEnter r
  | FRet (RReservation r) =>
      match f with FLoad KReservation th _ => r = thread_slot th | _ => False end
  | FRet RErr => starts f = true
  | FRet _ => match f with FLoad _ _ _ => False | _ => starts f = true end
  | FFlush _ | FEnter _ | FLeave _ | FRefresh _ | FAll _ _ | FAllBatch _ _ | FAllReset _ _ => False
  | _ => match f with FLoad _ _ _ | FEnter _ | FEnterStore _ _ | FRet _ => False | _ => True end
  end.

Section Effect.
Context {A : Type} `{Allocator A} `{BoxVec A} `{!BoxVecLaws A}.
Context `{EntryLayout Reservation} `{EntryLayout LocalBatch}.
Variables (plat : Platform) (batch_size : Z).

Abbreviation rstate := (raw_state A).
Abbreviation Inv := (Inv plat batch_size).
Abbreviation run_frame := (run_frame plat batch_size).
Implicit Types (s : rstate) (r : slot) (t d : nat) (rest fs : list frame).

(** The frame is none of the [reclaim_all] frames, which no legal run has. *)
Definition concurrent (f : frame) : Prop :=
  match f with FAll _ _ | FAllBatch _ _ | FAllReset _ _ => False | _ => True end.

(** A return is visible. *)
Definition returns (t : nat) (f : frame) (ev : list event) : Prop :=
  match f with
  | FRet x => ev = [EvRet t x]
  | _ => forall t' x, EvRet t' x ∉ ev
  end.

(** A step of [f]: its stack, and the slots it exits. *)
Definition steps_to t f rest s (o : option (rstate * list event)) : Prop :=
  forall s' ev, o = Some (s', ev) ->
    exists fs s1, s' = goto t (fs ++ rest) s1 /\ threads s1 = threads s /\
      replaces f fs /\ Forall (follows f) fs /\ returns t f ev /\
      forall r, EvExit r ∈ ev -> f = FLeave r \/ f = FRefresh r.

Lemma steps_to_next t f rest s fs ev s1 :
  threads s1 = threads s -> replaces f fs -> Forall (follows f) fs -> returns t f ev ->
  (forall r, EvExit r ∈ ev -> f = FLeave r \/ f = FRefresh r) ->
  steps_to t f rest s (next_ev t fs rest ev s1).
Proof. intros Hth Hr Hf Hret Hex s' ev' [= <- <-]. by exists fs, s1. Qed.

Lemma steps_to_None t f rest s : steps_to t f rest s None.
Proof. by intros ? ? [=]. Qed.

Lemma steps_to_bind {B} t f rest s (m : option B) k :
  (forall x, m = Some x -> steps_to t f rest s (k x)) -> steps_to t f rest s (m ≫= k).
Proof. destruct m as [x|]; simpl; [by intros Hk; apply Hk|intros _; apply steps_to_None]. Qed.

Lemma load_step_done {T} `{EntryLayout T} (create : T) th pc tl (a : A) a' tl' r :
  load_step create th pc tl a = Some (a', tl', LDone r) -> r = thread_slot th.
Proof. destruct pc; simpl; intros; repeat (case_match; simplify_eq); done. Qed.

Lemma local_get_or_init_threads r s s1 res :
  local_get_or_init batch_size r s = Some (s1, res) -> threads s1 = threads s.
Proof.
  unfold local_get_or_init. destruct (tl_get (batches s) r) as [lb|]; simpl; [|done].
  by destruct (get_or_init _ _ _ _) as [[[a h] lb'] res']; intros [= <- _].
Qed.

Lemma barrier_threads t h s : threads (barrier t h s) = threads s.
Proof. by destruct (barrier_drain t h s) as [P ->]. Qed.

Lemma store_null_threads t r o s : threads (store_null t r o s) = threads s.
Proof. by destruct o. Qed.

End Effect.

Create HintDb raw_effect.
#[export] Hint Resolve barrier_threads store_null_threads local_get_or_init_threads : raw_effect.
#[export] Hint Resolve section_start section_ret : raw_effect.
#[export] Hint Extern 1 (section [_; FRet _]) => (apply section_inner_ret; split; reflexivity) : raw_effect.
#[export] Hint Extern 1 (inner _) => (split; reflexivity) : raw_effect.
#[export] Hint Extern 1 (_ = thread_slot _) => 
  (first [eapply (load_step_done (T:=Reservation)); eassumption
         |eapply (load_step_done (T:=LocalBatch)); eassumption]) : raw_effect.

(** The observations of a step that are not of the kind looked for. *)
Ltac no_event :=
  intros;
  repeat match goal with
  | |- _ ∉ _ => intros ?
  | H : _ ∈ [] |- _ => by apply elem_of_nil in H
  | H : _ ∈ _ :: _ |- _ => apply elem_of_cons in H as [H|H]; [try discriminate H|]
  end.

Ltac step_next :=
  apply steps_to_next;
  [simpl; eauto with raw_effect
  |unfold replaces; simpl; try match goal with |- _ /\ _ => split end; frames; auto with raw_effect
  |frames; simplify_eq; simpl; eauto with raw_effect
  |simpl; try done; no_event
  |no_event; simplify_eq; auto].

Section Stacks.
Context {A : Type} `{Allocator A} `{BoxVec A} `{!BoxVecLaws A}.
Context `{EntryLayout Reservation} `{EntryLayout LocalBatch}.
Variables (plat : Platform) (batch_size : Z).

Lemma run_frame_stack sp t f rest (s : raw_state A) :
  concurrent f -> steps_to t f rest s (run_frame plat batch_size sp t f rest s).
Proof.
  intros Hc. destruct f as [k th pc|r p f|r|th|r pc|b m i act|b m i act r prev|b act|r|r o|r|r|l|n b|b i|p f|ipc it|r it|r it|x];
    try done; simpl;
    unfold step_load, step_add, step_reserve, step_flush, step_try, step_retire, step_cas, step_finish,
      step_enter, step_enter_store, step_leave, step_refresh, step_swap, step_traverse, step_dec,
      step_free_batch; cbv zeta.
  all: repeat first [apply steps_to_None | apply steps_to_bind; intros | case_match | step_next].
Qed.

(** A step shows at most one event. *)
Definition brief (o : option (raw_state A * list event)) : Prop :=
  forall s' ev, o = Some (s', ev) -> (length ev <= 1)%nat.

Lemma brief_next t fs rest ev (s : raw_state A) : (length ev <= 1)%nat -> brief (next_ev t fs rest ev s).
Proof. by intros Hev s' ev' [= _ <-]. Qed.

Lemma brief_None : brief None.
Proof. by intros ? ? [=]. Qed.

Lemma brief_bind {B} (m : option B) k : (forall x, m = Some x -> brief (k x)) -> brief (m ≫= k).
Proof. destruct m as [x|]; simpl; [by intros Hk; apply Hk|intros _; apply brief_None]. Qed.

Lemma run_frame_brief sp t f rest (s : raw_state A) :
  Inv plat batch_size s -> stack s t = f :: rest -> brief (run_frame plat batch_size sp t f rest s).
Proof.
  intros HI Hs. pose proof (Inv_top _ _ _ _ _ _ HI Hs) as Hok.
  destruct f as [k th pc|r p f|r|th|r pc|b m i act|b m i act r prev|b act|r|r o|r|r|l|n b|b i|p f|ipc it|r it|r it|x]; simpl.
  2: { destruct (step_add_spec _ _ s t r p f rest HI Hok) as (s1 & fs & ev & E & _ & Hc). rewrite E.
       apply brief_next. destruct Hc as [(_ & -> & _)|(b & -> & _)]; simpl; lia. }
  all: unfold step_load, step_reserve, step_flush, step_try, step_retire, step_cas, step_finish,
      step_enter, step_enter_store, step_leave, step_refresh, step_swap, step_traverse, step_dec,
      step_free_batch, step_all, step_all_batch, step_all_reset; cbv zeta.
  all: repeat first [apply brief_None | apply brief_bind; intros | case_match | apply brief_next; simpl; lia].
Qed.

Lemma step_brief l (s : raw_state A) : Inv plat batch_size s -> brief (step plat batch_size l s).
Proof.
  intros HI. destruct l as [t o|t|t|t|r|sys x86|r n|r|r]; simpl;
    try (destruct (stack s t) as [|f st] eqn:Hs; [apply brief_None|]).
  - case_match; [|apply brief_None]. apply brief_next. simpl; lia.
  - by apply run_frame_brief.
  - destruct f; try apply brief_None. by apply (run_frame_brief true _ _ _ _ HI Hs).
  - destruct f; try apply brief_None. apply brief_next. simpl; lia.
  - intros s' ev [= _ <-]. simpl; lia.
  - intros s' ev [= _ <-]. simpl; lia.
  - intros s' ev [= _ <-]. simpl; lia.
  - repeat case_match; try apply brief_None. intros s' ev [= _ <-]. simpl; lia.
  - intros s' ev [= _ <-]. simpl; lia.
Qed.
End Stacks.

(** ** Reservations

    Only the exchange of [leave] makes a slot inactive, and only the store of
    [enter] and the exchange of [refresh] make one active; the collector never
    writes the fields of the guards. *)

Section Reservations.
Context {A : Type} `{Allocator A} `{BoxVec A} `{!BoxVecLaws A}.
Context `{EntryLayout Reservation} `{EntryLayout LocalBatch}.
Variables (plat : Platform) (batch_size : Z).

Abbreviation rstate := (raw_state A).
Abbreviation Inv := (Inv plat batch_size).
Implicit Types (s : rstate) (r : slot) (t d : nat) (rest fs : list frame).

(** Reservations keep their guards' fields; new ones are default. *)
Definition fields_kept s s' : Prop :=
  forall r, match tl_get (reservations s) r with
  | Some x => exists x', tl_get (reservations s') r = Some x' /\ guards x' = guards x /\ lock x' = lock x
  | None => forall x', tl_get (reservations s') r = Some x' -> x' = Reservation_default
  end.

(** What a step of frame [f] does to the activity of slot [r]. *)
Definition activity f r s s' : Prop :=
  match f with
  | FEnterStore r0 _ | FRefresh r0 =>
      if decide (r0 = r) then guarded s' r else guarded s' r <-> guarded s r
  | FLeave r0 => if decide (r0 = r) then ~ guarded s' r else guarded s' r <-> guarded s r
  | _ => guarded s' r <-> guarded s r
  end.

Lemma activity_on f r s s' : activity f r s s' -> guarded s r -> f <> FLeave r -> guarded s' r.
Proof. destruct f; simpl; try tauto; case_decide; subst; tauto. Qed.

Lemma activity_off f r s s' : activity f r s s' -> guarded s' r ->
  guarded s r \/ f = FRefresh r \/ exists o, f = FEnterStore r o.
Proof. destruct f; simpl; try tauto; case_decide; subst; eauto; tauto. Qed.

Lemma activity_leave r s s' : activity (FLeave r) r s s' -> ~ guarded s' r.
Proof. simpl. by rewrite decide_True. Qed.

Lemma activity_enter r o s s' : activity (FEnterStore r o) r s s' -> guarded s' r.
Proof. simpl. by rewrite decide_True. Qed.

Definition effect f s s' : Prop := fields_kept s s' /\ forall r, activity f r s s'.

Definition quiet_effect s s' : Prop := fields_kept s s' /\ forall r, guarded s' r <-> guarded s r.

Lemma quiet_effect_any f s s' :
  match f with FEnterStore _ _ | FRefresh _ | FLeave _ => False | _ => True end ->
  quiet_effect s s' -> effect f s s'.
Proof. intros Hf [HF HG]. split; [done|]. intros r. destruct f; first [done|apply HG]. Qed.

Lemma fields_kept_refl s s' : reservations s' = reservations s -> fields_kept s s'.
Proof. intros E r. rewrite E. destruct (tl_get _ r); [by eexists|by intros ? [=]]. Qed.

Lemma fields_kept_trans s1 s2 s3 :
  (forall r, is_Some (tl_get (reservations s2) r) -> is_Some (tl_get (reservations s1) r)) ->
  fields_kept s1 s2 -> fields_kept s2 s3 ->
  (forall r, is_Some (tl_get (reservations s3) r) -> is_Some (tl_get (reservations s2) r)) ->
  fields_kept s1 s3.
Proof.
  intros Hb1 H12 H23 Hb2 r. specialize (H12 r). specialize (H23 r).
  destruct (tl_get (reservations s1) r) as [x|] eqn:E1.
  - destruct H12 as (x2 & E2 & ? & ?). rewrite E2 in H23. destruct H23 as (x3 & E3 & ? & ?).
    exists x3. split; [done|]. split; congruence.
  - intros x' E3. exfalso. destruct (Hb2 r) as [y Ey]; [by rewrite E3|].
    destruct (Hb1 r) as [z Ez]; [by rewrite Ey|]. congruence.
Qed.

Lemma quiet_same s s' : reservations s' = reservations s -> buffers s' = buffers s -> quiet_effect s s'.
Proof.
  intros Er Eb. split; [by apply fields_kept_refl|]. intros r. unfold guarded, head_of. by rewrite Er, Eb.
Qed.

Lemma tl_get_store_head r e s r' :
  tl_get (reservations (store_head r e s)) r' =
    if decide (r = r') then set_head e <$> tl_get (reservations s) r' else tl_get (reservations s) r'.
Proof. unfold store_head; simpl. apply tl_get_modify. Qed.

Lemma store_head_fields r e s : fields_kept s (store_head r e s).
Proof.
  intros r'. rewrite tl_get_store_head. case_decide; destruct (tl_get _ r') as [x|]; simpl; eauto; by intros ? [=].
Qed.

Lemma drain_fields P s : fields_kept s (drain P s).
Proof.
  intros r. simpl. rewrite tl_get_imap. destruct (tl_get _ r) as [x|]; simpl; [|by intros ? [=]].
  eexists; split; [done|]. by case_match.
Qed.

Lemma guarded_drain P s r : guarded (drain P s) r <-> guarded s r.
Proof.
  split; [|by apply drain_guarded]. intros (hd & Hhd & Hg). rewrite head_of_drain in Hhd.
  destruct (drained P s r) eqn:E.
  - apply drained_buffer in E as (t & Hb & _). destruct (head_of s r) as [hd0|] eqn:Eh; [|done].
    exists hd0. rewrite Hb. eauto.
  - exists hd. split; [done|]. destruct Hg as [|[t Ht]]; [by left|right]. apply buffers_drain in Ht as [? _]. eauto.
Qed.

Lemma quiet_drain P s : quiet_effect s (drain P s).
Proof. split; [apply drain_fields|]. intros r. apply guarded_drain. Qed.

Lemma guarded_store_head_ne r e s r' : r <> r' -> guarded (store_head r e s) r' <-> guarded s r'.
Proof. intros Hr. unfold guarded. by rewrite head_of_other. Qed.

Lemma guarded_store_head r e s :
  is_Some (head_of s r) -> e <> INACTIVE -> guarded (store_head r e s) r.
Proof.
  intros Hr He. exists e. rewrite head_of_set by done. unfold set_fun. rewrite decide_True by done. auto.
Qed.

(** Linking an entry in an active list. *)
Lemma quiet_link r b i s hd :
  head_of s r = Some hd -> hd <> INACTIVE -> quiet_effect s (store_head r (EPtr b i) s).
Proof.
  intros Hr Hn. split; [apply store_head_fields|]. intros r'.
  destruct (decide (r = r')) as [<-|]; [|by apply guarded_store_head_ne].
  split; intros _; [exists hd; auto|]. apply guarded_store_head; [eauto|done].
Qed.

Lemma quiet_load th pc s a tl x :
  Inv s -> thread_wf th -> load_pc_ok (reservations s) th pc ->
  load_step Reservation_default th pc (reservations s) (alloc s) = Some (a, tl, x) ->
  quiet_effect s (set_alloc a (set_reservations tl s)).
Proof.
  intros (_ & HS & _) Hth Hpc E.
  destruct (load_step_ok Reservation_default th pc (reservations s) (alloc s) (i_res _ _ HS) Hth Hpc)
    as (a' & tl' & x' & E' & (_ & _ & Hne & Heq) & _).
  rewrite E in E'. injection E' as <- <- <-.
  assert (forall r, tl_get tl r = tl_get (reservations s) r \/
    (tl_get (reservations s) r = None /\ tl_get tl r = Some Reservation_default)) as Hg.
  { intros r. destruct (decide (r = thread_slot th)) as [->|]; [done|left; by apply Hne]. }
  split.
  - intros r. simpl. destruct (Hg r) as [-> |[-> ->]]; [|by intros ? [= <-]].
    destruct (tl_get _ r); [by eexists|by intros ? [=]].
  - intros r. unfold guarded, head_of; simpl. destruct (Hg r) as [-> |[E1 ->]]; [done|]. rewrite E1. simpl.
    split; [|by intros (? & [=] & _)]. intros (hd & [= <-] & [|[t Hb]]); [done|].
    destruct (i_buffers _ _ HS _ _ Hb) as [Hh _]. unfold head_of in Hh. by rewrite E1 in Hh.
Qed.

Lemma local_get_or_init_quiet r s s1 res :
  local_get_or_init batch_size r s = Some (s1, res) ->
  reservations s1 = reservations s /\ buffers s1 = buffers s.
Proof.
  unfold local_get_or_init. destruct (tl_get (batches s) r) as [lb|]; simpl; [|done].
  by destruct (get_or_init _ _ _ _) as [[[a h] lb'] res']; intros [= <- _].
Qed.

Lemma effect_enter_store t r o s : Inv s -> idle s r -> effect (FEnterStore r o) s (store_null t r o s).
Proof.
  intros HI [Hi Hb]. split; [destruct o; try (by apply fields_kept_refl); apply store_head_fields|].
  intros r'. simpl. case_decide as Hr.
  - subst r'. destruct o; try (exists INACTIVE; split; [done|right; simpl; rewrite lookup_insert_eq; by eexists]).
    apply guarded_store_head; [eauto|done].
  - destruct o; try (unfold guarded, head_of; simpl; by rewrite lookup_insert_ne by done).
    by apply guarded_store_head_ne.
Qed.

(** The exchange of [leave] and [refresh]. *)
Lemma effect_swap r e s r' :
  is_Some (head_of s r) ->
  fields_kept s (store_head r e (drain_slot r s)) /\
  (r <> r' -> guarded (store_head r e (drain_slot r s)) r' <-> guarded s r') /\
  (guarded (store_head r e (drain_slot r s)) r <-> e <> INACTIVE).
Proof.
  intros Hr. assert (is_Some (head_of (drain_slot r s) r)) as Hd.
  { unfold drain_slot. rewrite head_of_drain. by case_match; rewrite ?fmap_is_Some. }
  split; [|split].
  - apply (fields_kept_trans _ (drain_slot r s)); [|apply drain_fields|apply store_head_fields|].
    + intros r0. simpl. by rewrite tl_get_imap, fmap_is_Some.
    + intros r0. rewrite tl_get_store_head. case_decide; [by rewrite fmap_is_Some|done].
  - intros Hn. rewrite guarded_store_head_ne by done. apply guarded_drain.
  - split; [|by intros; apply guarded_store_head].
    intros (hd & Hhd & Hg) ->. rewrite head_of_set in Hhd by done. unfold set_fun in Hhd.
    rewrite decide_True in Hhd by done. injection Hhd as <-. destruct Hg as [|[t Ht]]; [done|].
    apply (buffers_drain _ s) in Ht as [_ Ht]. simpl in Ht. by rewrite bool_decide_eq_true_2 in Ht.
Qed.

(** ** All steps *)

Definition effects f s (o : option (rstate * list event)) : Prop :=
  forall s' ev, o = Some (s', ev) -> effect f s s'.

Lemma effects_next f s t fs rest ev s1 : effect f s s1 -> effects f s (next_ev t fs rest ev s1).
Proof. intros He s' ev' [= <- <-]. exact He. Qed.

Lemma effects_bind {B} f s (m : option B) k :
  (forall x, m = Some x -> effects f s (k x)) -> effects f s (m ≫= k).
Proof. destruct m as [x|]; simpl; [by intros Hk; apply Hk|by intros _ ? ? [=]]. Qed.

Lemma effects_None f s : effects f s None.
Proof. by intros ? ? [=]. Qed.

Lemma effect_same f s s' :
  match f with FEnterStore _ _ | FRefresh _ | FLeave _ => False | _ => True end ->
  reservations s' = reservations s -> buffers s' = buffers s -> effect f s s'.
Proof. intros Hf Er Eb. by apply quiet_effect_any, quiet_same. Qed.

Lemma effects_swap t r e rest s f :
  is_Some (head_of s r) -> f = FLeave r /\ e = INACTIVE \/ f = FRefresh r /\ e = ENull ->
  effects f s (step_swap t r e rest s).
Proof.
  intros Hr Hf. destruct (effect_swap r e s r Hr) as (HF & _ & Hg).
  unfold step_swap. cbv zeta. apply effects_bind; intros hd _. apply effects_next. split; [done|].
  intros r'. destruct (effect_swap r e s r' Hr) as (_ & Hne & _).
  destruct Hf as [[-> ->]|[-> ->]]; simpl; case_decide as Hd; subst; auto; rewrite Hg; auto.
Qed.

Lemma effects_load t k th pc rest s :
  Inv s -> stack s t = FLoad k th pc :: rest -> effects (FLoad k th pc) s (step_load t k th pc rest s).
Proof.
  intros HI Hs. destruct (Inv_top _ _ _ _ _ _ HI Hs) as [Hth Hpc].
  unfold step_load. destruct k as [|p f|]; destruct (load_step _ _ _ _ _) as [[[a tl] x]|] eqn:E;
    try apply effects_None; cbv zeta; simpl in Hpc.
  1: pose proof (quiet_load _ _ _ _ _ _ HI Hth Hpc E) as Hq.
  all: destruct x; apply effects_next; try (by apply effect_same); by apply quiet_effect_any.
Qed.

Lemma run_frame_effect sp t f rest s s' ev :
  Inv s -> stack s t = f :: rest -> concurrent f ->
  run_frame plat batch_size sp t f rest s = Some (s', ev) -> effect f s s'.
Proof.
  intros HI Hs Hc. pose proof (Inv_top _ _ _ _ _ _ HI Hs) as Hok. revert s' ev.
  change (effects f s (run_frame plat batch_size sp t f rest s)).
  destruct f as [k th pc|r p f|r|th|r pc|b m i act|b m i act r prev|b act|r|r o|r|r|l|n b|b i|p f|ipc it|r it|r it|x];
    try done; simpl;
    try (by apply effects_load); try (apply effects_swap; [done|auto]);
    unfold step_add, step_reserve, step_flush, step_try, step_retire, step_cas, step_finish,
      step_enter, step_enter_store, step_traverse, step_dec, step_free_batch; cbv zeta.
  all: repeat first [apply effects_None | apply effects_bind; intros | case_match
    | apply effects_next; first [by apply effect_same | idtac]].
  all: try (match goal with E : local_get_or_init _ _ _ = Some _ |- _ =>
    destruct (local_get_or_init_quiet _ _ _ _ E); by apply effect_same end).
  - apply quiet_effect_any; [done|]. destruct (barrier_drain t h s) as [P ->]. apply quiet_drain.
  - apply quiet_effect_any; [done|]. subst.
    by apply (quiet_link r b i (store_batch b (set_state i (SNext prev)) s) prev).
  - apply effect_enter_store; [done|]. by destruct Hok.
Qed.

End Reservations.
