(* ===== verification/RawReserve.v ===== *)
(** * A reservation lasts

    [reserve] leaves room for an entry in the local batch of its slot. Only
    [add], and the retirement of the batch, take the room away again: it is
    kept by every step of the machine that does not work on the batch of that
    slot, and a retirement that finds it does not fail. *)

From stdpp Require Import prelude list gmap.
From S2P Require Import Prelude Alloc ThreadId Membarrier Tls RawData RawStep RawGhost RawInv RawPreserve RawFacts RawEffect.

Open Scope Z_scope.

(** The slot whose local batch a frame fills, or takes to retire it, now or
    when it goes on. *)
Definition spends (fr : frame) : option slot :=
  match fr with
  | FLoad (KAdd _ _) th _ | FFlush th => Some (thread_slot th)
  | FAdd r _ _ | FTry r _ => Some r
  | _ => None
  end.

(** A load of a local batch that is there: it finds it without allocating. *)
Definition finds (fr : frame) : Prop :=
  match fr with
  | FLoad _ _ pc => pc = LBucket \/ pc = LEntry
  | _ => True
  end.

Lemma spends_uses fr r : spends fr = Some r -> uses fr = Some r.
Proof. by destruct fr as [[] | | | | | | | | | | | | | | | | | | |]. Qed.

Lemma follows_spends fr fr' r : follows fr fr' -> spends fr' = Some r -> spends fr = Some r.
Proof.
  destruct fr' as [k th pc|r0 p f|r0|th|r0 pc|b m i act|b m i act r0 prev|b act|r0|r0 o|r0|r0|l|n b|b i|p f|ipc it|r0 it|r0 it|x];
    try (by intros _ [=]); simpl.
  - destruct fr as [k0 th0 pc0| | | | | | | | | | | | | | | | | | |]; try done. by intros [-> ->].
  - destruct fr as [[] th0 pc0| | | | | | | | | | | | | | | | | | |]; try done. by intros ->.
  - done.
  - destruct fr as [[] th0 pc0| | | | | | | | | | | | | | | | | | |]; try done; by intros ->.
Qed.

Section RawReserve.
Context {A : Type} `{Allocator A} `{BoxVec A} `{!BoxVecLaws A}.
Context `{EntryLayout Reservation} `{EntryLayout LocalBatch}.
Variables (plat : Platform) (batch_size : Z).

Abbreviation rstate := (raw_state A).
Abbreviation Inv := (Inv plat batch_size).
Implicit Types (s : rstate) (r : slot) (t d : nat) (rest fs : list frame).

(** Entries and capacity of a batch. *)
Definition filled s (b : Z) : option (nat * Z) :=
  (fun bt => (length (entries bt), capacity bt)) <$> heap s !! b.

(** The local batch of [r] is left alone. *)
Definition batch_kept r s s' : Prop :=
  forall b, local_of s r = Some (BPtr b) -> local_of s' r = Some (BPtr b) /\ filled s' b = filled s b.

Lemma batch_kept_room r s s' : batch_kept r s s' -> room s r -> room s' r.
Proof.
  intros Hk (b & bt & HL & Hb & Hr). destruct (Hk b HL) as [HL' Hf]. unfold filled in Hf. rewrite Hb in Hf.
  destruct (heap s' !! b) as [bt'|] eqn:Hb'; [|done]. injection Hf as El Ec. exists b, bt'. by rewrite El, Ec.
Qed.

Lemma batch_kept_same r s s' : batches s' = batches s -> heap s' = heap s -> batch_kept r s s'.
Proof. intros Eb Eh b. unfold local_of, filled. by rewrite Eb, Eh. Qed.

Lemma filled_store_batch b0 f s b :
  (forall bt, length (entries (f bt)) = length (entries bt) /\ capacity (f bt) = capacity bt) ->
  filled (store_batch b0 f s) b = filled s b.
Proof.
  intros Hf. unfold filled. simpl. destruct (decide (b0 = b)) as [->|]; [|by rewrite lookup_alter_ne].
  rewrite lookup_alter_eq. destruct (heap s !! b) as [bt|]; [|done]. simpl. by destruct (Hf bt) as [-> ->].
Qed.

Lemma batch_kept_store r b0 f s s' :
  (forall bt, length (entries (f bt)) = length (entries bt) /\ capacity (f bt) = capacity bt) ->
  batches s' = batches s -> heap s' = heap (store_batch b0 f s) -> batch_kept r s s'.
Proof.
  intros Hf Eb Eh b. unfold local_of. rewrite Eb. split; [done|].
  transitivity (filled (store_batch b0 f s) b); [unfold filled; by rewrite Eh|by apply filled_store_batch].
Qed.

Lemma set_state_filled i st bt :
  length (entries (set_state i st bt)) = length (entries bt) /\ capacity (set_state i st bt) = capacity bt.
Proof. split; [apply length_alter|done]. Qed.

(** The owner of another slot works on its own batch. *)
Lemma batch_kept_owner r r0 s s' : r <> r0 -> owner_step plat r0 s s' -> batch_kept r s s'.
Proof.
  intros Hr Ho b HL. pose proof (os_keep _ _ _ _ Ho _ _ HL) as HL'. split; [done|]. unfold filled.
  rewrite (os_heap _ _ _ _ Ho); [done|]. intros HL0. apply Hr.
  by eapply (G_local_inj _ _ _ _ _ (os_G _ _ _ _ Ho)).
Qed.

(** ** Steps *)

Definition keeps r s (o : option (rstate * list event)) : Prop :=
  forall s' ev, o = Some (s', ev) -> batch_kept r s s'.

Lemma keeps_None r s : keeps r s None.
Proof. by intros ? ? [=]. Qed.

Lemma keeps_next r s t fs rest ev s1 : batch_kept r s s1 -> keeps r s (next_ev t fs rest ev s1).
Proof. intros Hk s' ev' [= <- <-]. exact Hk. Qed.

Lemma keeps_bind {B} r s (m : option B) k : (forall x, m = Some x -> keeps r s (k x)) -> keeps r s (m ≫= k).
Proof. destruct m as [x|]; simpl; [by intros Hk; apply Hk|by intros _ ? ? [=]]. Qed.

Lemma keeps_load r s t k th pc rest :
  Inv s -> stack s t = FLoad k th pc :: rest -> keeps r s (step_load t k th pc rest s).
Proof.
  intros HI Hs. destruct (Inv_top _ _ _ _ _ _ HI Hs) as [Hth Hpc]. pose proof HI as (_ & HS & _).
  unfold step_load. destruct k as [|p f|]; simpl in Hpc.
  1: destruct (load_step _ _ _ _ _) as [[[a tl] x]|]; [|apply keeps_None]; cbv zeta;
    destruct x; apply keeps_next; by apply batch_kept_same.
  all: destruct (load_step_ok LocalBatch_default th pc (batches s) (alloc s) (i_bat _ _ HS) Hth Hpc)
      as (a & tl & x & -> & (_ & _ & Hne & Hown) & _); cbv zeta.
  all: assert (batch_kept r s (set_alloc a (set_batches tl s))) as Hk by
    (intros b; unfold local_of; simpl; split; [|done]; destruct (decide (r = thread_slot th)) as [->|Hr];
      [by destruct Hown as [->|[E _]]; [|rewrite E in *]|by rewrite Hne]).
  all: destruct x; by apply keeps_next.
Qed.

Lemma keeps_add r s t r0 p f rest :
  Inv s -> r <> r0 -> is_Some (local_of s r0) -> keeps r s (step_add batch_size t r0 p f rest s).
Proof.
  intros HI Hr HL. destruct (step_add_spec _ _ s t r0 p f rest HI HL) as (s1 & fs & ev & -> & Ho & _).
  apply keeps_next. by eapply batch_kept_owner.
Qed.

Lemma keeps_free r s t b i rest :
  Inv s -> stack s t = FFree b i :: rest -> keeps r s (step_free_batch t b i rest s).
Proof.
  intros (_ & _ & HG) Hs. pose proof (role_at_top _ _ _ _ Hs) as HR. simpl in HR.
  unfold step_free_batch. apply keeps_bind; intros bt Hb. destruct (entries bt !! i) as [e|].
  - apply keeps_next. by apply batch_kept_same.
  - unfold LocalBatch_free. rewrite Hb. apply keeps_next. intros b' HL. split; [done|]. unfold filled; simpl.
    rewrite lookup_delete_ne; [done|]. intros <-.
    apply (G_local_no_role _ _ _ _ _ HG _ _ t (length rest) HL). by rewrite HR.
Qed.

Lemma keeps_try r s t r0 pc rest : r <> r0 -> keeps r s (step_try plat t r0 pc rest s).
Proof.
  intros Hr. destruct pc as [|h| |b m ipc it|b m it r'|b m]; simpl.
  - apply keeps_next. by apply batch_kept_same.
  - apply keeps_next. destruct (barrier_drain t h s) as [P ->]. by apply batch_kept_same.
  - apply keeps_bind; intros lb _. destruct lb; apply keeps_next; by apply batch_kept_same.
  - apply keeps_bind; intros res _. destruct res; apply keeps_next; by apply batch_kept_same.
  - apply keeps_bind; intros hd _. case_decide; [apply keeps_next; by apply batch_kept_same|].
    apply keeps_bind; intros bt _. destruct (entries bt !! m); apply keeps_next; [|by apply batch_kept_same].
    eapply batch_kept_store; [|done|done]. intros; apply set_state_filled.
  - apply keeps_next. intros b'. rewrite local_of_store, decide_False by congruence. done.
Qed.

(** [reserve] on a slot that has room leaves its batch as it is. *)
Lemma reserve_with_room s t r rest :
  room s r -> exists s1, step_reserve batch_size t r rest s = Some (goto t (FRet ROk :: rest) s1, []) /\ batch_kept r s s1.
Proof.
  intros (b & bt & HL & Hb & Hroom). unfold step_reserve, local_get_or_init.
  pose proof HL as HL0. unfold local_of in HL. destruct (tl_get (batches s) r) as [lb|]; [|done].
  simpl in HL. injection HL as HL. simpl. unfold get_or_init. rewrite HL. simpl. rewrite Hb. simpl.
  rewrite entries_try_reserve_room by done. eexists. split; [done|]. intros b' HL'. rewrite HL0 in HL'. injection HL' as <-.
  split.
  - change (local_of (store_local r (batch lb) s) r = Some (BPtr b)). rewrite local_of_store, decide_True, HL0 by done.
    simpl. by rewrite HL.
  - unfold filled. simpl. by rewrite lookup_insert_eq, Hb.
Qed.

(** A step that does not fill or take the batch of [r] keeps the room in it. *)
Lemma run_frame_room sp s t fr rest r s' ev :
  Inv s -> stack s t = fr :: rest -> concurrent fr -> (forall p f, fr <> FAdd r p f) -> (forall pc, fr <> FTry r pc) ->
  run_frame plat batch_size sp t fr rest s = Some (s', ev) -> room s r -> room s' r.
Proof.
  intros HI Hs Hc Ha Ht E Hroom.
  assert (fr = FReserve r \/ fr <> FReserve r) as [->|Hres].
  { destruct fr as [| |r0| | | | | | | | | | | | | | | | |]; try (by right).
    destruct (decide (r0 = r)) as [->|]; [by left|right; congruence]. }
  { simpl in E. destruct (reserve_with_room s t r rest Hroom) as (s1 & E' & Hk). rewrite E in E'. injection E' as -> _.
    by apply (batch_kept_room r s). }
  apply (batch_kept_room r s); [|done]. revert s' ev E. change (keeps r s (run_frame plat batch_size sp t fr rest s)).
  pose proof (Inv_top _ _ _ _ _ _ HI Hs) as Hok.
  destruct fr as [k th pc|r0 p f|r0|th|r0 pc|b m i act|b m i act r0 prev|b act|r0|r0 o|r0|r0|l|n b|b i|p f|ipc it|r0 it|r0 it|x];
    try done; simpl.
  - by apply keeps_load.
  - apply keeps_add; [done| |done]. intros <-. by apply (Ha p f).
  - destruct (step_reserve_spec _ _ s t r0 rest HI Hok) as (s1 & y & -> & Ho & _).
    intros s' ev [= <- _]. change (batch_kept r s s1). eapply batch_kept_owner; [|done]. by intros <-.
  - unfold step_flush. destruct (get _ _); apply keeps_next; by apply batch_kept_same.
  - apply keeps_try. intros <-. by apply (Ht pc).
  - unfold step_retire. case_decide; [|apply keeps_next; by apply batch_kept_same].
    apply keeps_bind; intros e _. destruct (state e) as [[]|]; try apply keeps_None.
    apply keeps_bind; intros hd _. apply keeps_next. by apply batch_kept_same.
  - unfold step_cas. case_decide; [apply keeps_next; by apply batch_kept_same|]. apply keeps_bind; intros e _. cbv zeta.
    apply keeps_bind; intros found _. repeat case_match; apply keeps_next;
      apply (batch_kept_store r b (set_state i (SNext prev))); try done; intros; apply set_state_filled.
  - unfold step_finish. apply keeps_bind; intros bt _. apply keeps_next.
    by apply (batch_kept_store r b (set_active (wadd (active bt) act))).
  - apply keeps_next. by apply batch_kept_same.
  - apply keeps_bind; intros hd _. apply keeps_next. destruct o; by apply batch_kept_same.
  - unfold step_leave, step_swap. apply keeps_bind; intros hd _. apply keeps_next. by apply batch_kept_same.
  - unfold step_refresh, step_swap. apply keeps_bind; intros hd _. apply keeps_next. by apply batch_kept_same.
  - unfold step_traverse. destruct l; [apply keeps_next; by apply batch_kept_same|apply keeps_None|].
    apply keeps_bind; intros e _. destruct (state e); [apply keeps_None|]. apply keeps_next. by apply batch_kept_same.
  - unfold step_dec. apply keeps_bind; intros bt _. apply keeps_next.
    by apply (batch_kept_store r b (set_active (wsub (active bt) 1))).
  - by apply keeps_free.
  - apply keeps_next. by apply batch_kept_same.
Qed.

(** ** A retirement that finds room *)

Lemma room_slot s r : room s r -> is_Some (tl_get (batches s) r).
Proof. intros (b & bt & HL & _). unfold local_of in HL. destruct (tl_get _ r); [by eexists|done]. Qed.

(** It loads the local batch and does not fail. *)
Lemma load_with_room s t p f th pc rest s' ev :
  room s (thread_slot th) -> finds (FLoad (KAdd p f) th pc) ->
  step_load t (KAdd p f) th pc rest s = Some (s', ev) ->
  exists fr s1, s' = goto t ([fr] ++ rest) s1 /\ ev = [] /\ finds fr /\
    (fr = FLoad (KAdd p f) th LEntry \/ fr = FAdd (thread_slot th) p f).
Proof.
  intros Hroom [->| ->] E; simpl in E.
  - unfold bucket_load in E. destruct (room_slot _ _ Hroom) as [x Hx]. unfold tl_get, tl_entry in Hx. simpl in Hx.
    destruct (buckets (batches s) !! Z.to_nat (bucket th)) as [[bk|]|]; try done.
    injection E as <- <-. eexists _, _. split; [done|]. split; [done|]. split; [by right|by left].
  - destruct (load_entry _ _ _); [|done]. injection E as <- <-. eexists _, _. split; [done|]. split; [done|]. split; [done|by right].
Qed.

Lemma add_step_with_room s t r p f rest s' ev :
  room s r -> step_add batch_size t r p f rest s = Some (s', ev) ->
  exists fs s1, s' = goto t (fs ++ rest) s1 /\ last fs = Some (FRet ROk).
Proof.
  intros Hroom E. destruct (add_with_room batch_size s t r p f rest (alloc s) Hroom) as (s2 & fs & E' & _ & Hl).
  assert (set_alloc (alloc s) s = s) as Es by (by destruct s). rewrite Es, E in E'. injection E' as -> _. eauto.
Qed.

(** No other frame uses the slot of the frame on top. *)
Lemma uses_once s t fr rest r t' fr' :
  Inv s -> stack s t = fr :: rest -> uses fr = Some r ->
  fr' ∈ (if decide (t' = t) then rest else stack s t') -> uses fr' <> Some r.
Proof.
  intros (_ & HS & _) Hs Hu [d Hf]%elem_of_frames. by apply (unused_top plat s t fr rest r HS Hs Hu t' d).
Qed.

(** The frames of [reserve] lead to each other. *)
Definition reserving (fr : frame) : Prop :=
  match fr with
  | FLoad KReserve _ _ | FReserve _ | FRet ROk | FRet RErr => True
  | _ => False
  end.

Lemma run_reserving sp s t fr rest s' ev :
  Inv s -> stack s t = fr :: rest -> reserving fr -> is_ret fr = false ->
  run_frame plat batch_size sp t fr rest s = Some (s', ev) ->
  exists fr', stack s' t = fr' :: rest /\ reserving fr' /\
    (fr' = FRet ROk -> exists r, fr = FReserve r /\ room s' r).
Proof.
  intros HI Hs Hf Hr E. destruct fr as [[| |] th pc| |r| | | | | | | | | | | | | | | | |[]]; try done; simpl in E.
  - destruct (load_step _ _ _ _ _) as [[[a tl] x]|]; [|done]. cbv zeta in E.
    destruct x; injection E as <- _; (eexists; rewrite stack_goto, decide_True by done; split; [done|]; done).
  - destruct (step_reserve_spec _ _ s t r rest HI (Inv_top _ _ _ _ _ _ HI Hs)) as (s1 & x & E' & _).
    assert (stack s' t = FRet (if x then ROk else RErr) :: rest) as Hs'
      by (rewrite E in E'; injection E' as -> _; by rewrite stack_goto, decide_True).
    eexists. split; [exact Hs'|]. destruct x; [|done]. split; [done|]. intros _. exists r. split; [done|].
    by eapply reserve_makes_room.
Qed.

End RawReserve.
