(* ===== verification/Guard.v ===== *)
(** * Guards and the public collector ([src/src/guard.rs], [src/src/collector.rs])

    The layer clients use, on top of the machine of RawStep and of the registry
    of thread IDs: the two kinds of guards with the counter and the lock of
    their reservation, and the operations of [Collector]. A handler runs from
    the call of a client to its first call into the raw collector, where it
    leaves a continuation, or to its return; it is resumed when the raw
    collector returns. Reclaimers are client code, so handlers nest. *)

From stdpp Require Import prelude list gmap.
From S2P Require Import Prelude Alloc ThreadId Membarrier Tls RawData RawStep.

Open Scope Z_scope.

(** [LocalGuard]; [l_os] is the OS thread it is tied to, being [!Send]. *)
Record LocalGuard := mkLocalGuard { l_os : nat; l_thread : Thread; l_reservation : slot }.

Record OwnedGuard := mkOwnedGuard { o_thread : Thread; o_reservation : slot }.

(** Names of guards. *)
Inductive gref := LG (g : nat) | OG (g : nat).

#[export] Instance gref_eq_dec : EqDecision gref.
Proof. solve_decision. Defined.

(** ** Operations of clients *)

(** [mem] is whether the free list of IDs could grow, if the operation frees a
    thread ID. *)
Inductive gop :=
| CEnter (g : nat)                     (* Collector::enter *)
| CEnterOwned (mem : bool) (g : nat)   (* Collector::enter_owned *)
| CRetire (p f : Z)                    (* Collector::retire *)
| CReserve                             (* Collector::reserve_retire *)
| GRefresh (g : gref)
| GFlush (g : gref)
| GReserve (g : gref)
| GDefer (g : gref) (p f : Z)
| GThreadId (g : gref)
| GDrop (mem : bool) (g : gref)        (* Drop for LocalGuard and OwnedGuard *)
| TExit (mem : bool).                  (* the thread runs the destructor of its ThreadGuard *)

(** What a handler returns to the client. *)
Inductive gret :=
| GRet (r : ret)
| GGuard (g : gref)
| GId (i : Z)
| GPanic.

(** Where a handler continues when the raw collector returns. *)
Inductive kont :=
| KReturn                              (* return the same value *)
| KUnlock (r : slot)                   (* drop the lock guard, then return *)
| KLocalEnter                          (* LocalGuard::enter, after [reservation] *)
| KOwnedEnter                          (* OwnedGuard::enter, after [reservation] *)
| KEntered (g : gref)                  (* after [enter]: return the guard *)
| KOwnedFree.                          (* OwnedGuard::drop: Thread::free *)

(** A handler that waits: its operation, its continuation, and its thread
    ([thread], or [self.thread]). *)
Record waiter := mkWaiter { w_op : gop; w_kont : kont; w_thread : Thread }.

Inductive action :=
| AReturn (r : gret)
| ACall (o : op) (k : kont) (th : Thread).

Inductive gevent :=
| GCall (t : nat) (o : gop)
| GRaw (e : event)
| GDone (t : nat) (r : gret).

#[export] Instance gop_eq_dec : EqDecision gop.
Proof. solve_decision. Defined.

#[export] Instance gret_eq_dec : EqDecision gret.
Proof. solve_decision. Defined.

#[export] Instance gevent_eq_dec : EqDecision gevent.
Proof. solve_decision. Defined.

(** ** State

    A guard is in its table from the point where its reservation is counted or
    entered until its [Drop] starts. *)
Record guard_state (A : Type) := mkGuardState {
  raw : raw_state A;
  registry : Registry;
  locals : gmap nat LocalGuard;
  owneds : gmap nat OwnedGuard;
  waits : gmap nat (list waiter)
}.
Arguments mkGuardState {A} _ _ _ _ _.
Arguments raw {A} _.
Arguments registry {A} _.
Arguments locals {A} _.
Arguments owneds {A} _.
Arguments waits {A} _.

Section Guards.
Context {A : Type} `{Allocator A} `{BoxVec A}.
Context `{EntryLayout Reservation} `{EntryLayout LocalBatch}.
Variables (plat : Platform) (batch_size : Z).

Abbreviation gstate := (guard_state A).

Definition set_raw x (s : gstate) : gstate :=
  mkGuardState x (registry s) (locals s) (owneds s) (waits s).
Definition set_registry x (s : gstate) : gstate :=
  mkGuardState (raw s) x (locals s) (owneds s) (waits s).
Definition set_locals x (s : gstate) : gstate :=
  mkGuardState (raw s) (registry s) x (owneds s) (waits s).
Definition set_owneds x (s : gstate) : gstate :=
  mkGuardState (raw s) (registry s) (locals s) x (waits s).
Definition set_waits x (s : gstate) : gstate :=
  mkGuardState (raw s) (registry s) (locals s) (owneds s) x.

Definition waiting (s : gstate) (t : nat) : list waiter := default [] (waits s !! t).

(** A handler's step, from a state to an action. *)
Abbreviation handled := (option (gstate * action)).

(** A write to a field of a reservation: one silent step of the machine. *)
Definition raw_write (l : label) (s : gstate) : option gstate :=
  '(r, _) ← step plat batch_size l (raw s); Some (set_raw r s).

(** [Thread::current()] *)
Definition with_current (t : nat) (s : gstate) (f : Thread -> gstate -> handled) : handled :=
  match Thread_current t (registry s) with
  | (Ret th, reg) => f th (set_registry reg s)
  | (Panic, reg) => Some (set_registry reg s, AReturn GPanic)
  end.

(** ** The [Guard] trait

    The receiver is passed by value; [t] is the OS thread that calls. *)
Class Guard (G : Type) := {
  refresh : G -> gstate -> handled;
  flush : G -> gstate -> handled;
  thread_id : nat -> G -> gstate -> handled;
  reserve_retire : G -> gstate -> handled;
  defer_retire : Z -> Z -> G -> gstate -> handled
}.

(** ** [LocalGuard] *)

(** [LocalGuard::enter], to the call of [reservation] and from there. *)
Definition LocalGuard_enter (t : nat) (s : gstate) : handled :=
  with_current t s (fun thread s => Some (s, ACall (OpReservation thread) KLocalEnter thread)).

Definition LocalGuard_entered (t g : nat) (thread : Thread) (r : ret) (s : gstate) : handled :=
  match r with
  | RReservation reservation =>
      guards ← guards_of (raw s) reservation;
      s ← raw_write (LGuards reservation (wadd guards 1)) s;
      let s := set_locals (<[g := mkLocalGuard t thread reservation]> (locals s)) s in
      Some (s, if decide (guards = 0) then ACall (OpEnter reservation) (KEntered (LG g)) thread
               else AReturn (GGuard (LG g)))
  | _ => Some (s, AReturn (GRet r))
  end.

Definition LocalGuard_refresh (self : LocalGuard) (s : gstate) : handled :=
  guards ← guards_of (raw s) (l_reservation self);
  Some (s, if decide (guards = 1) then ACall (OpRefresh (l_reservation self)) KReturn (l_thread self)
           else AReturn (GRet RUnit)).

Definition LocalGuard_drop (g : nat) (self : LocalGuard) (s : gstate) : handled :=
  guards ← guards_of (raw s) (l_reservation self);
  s ← raw_write (LGuards (l_reservation self) (wsub guards 1)) s;
  let s := set_locals (delete g (locals s)) s in
  Some (s, if decide (guards = 1) then ACall (OpLeave (l_reservation self)) KReturn (l_thread self)
           else AReturn (GRet RUnit)).

#[export] Instance LocalGuard_Guard : Guard LocalGuard := {|
  refresh := LocalGuard_refresh;
  flush := fun self s => Some (s, ACall (OpFlush (l_thread self)) KReturn (l_thread self));
  thread_id := fun _ self s => Some (s, AReturn (GId (id (l_thread self))));
  reserve_retire := fun self s => Some (s, ACall (OpReserve (l_thread self)) KReturn (l_thread self));
  defer_retire := fun p f self s =>
    Some (s, ACall (OpAdd p f (l_thread self)) KReturn (l_thread self))
|}.

(** ** [OwnedGuard] *)

Definition OwnedGuard_enter (g : nat) (s : gstate) : handled :=
  match owned_create g (registry s) with
  | (Ret thread, reg) => Some (set_registry reg s, ACall (OpReservation thread) KOwnedEnter thread)
  | (Panic, reg) => Some (set_registry reg s, AReturn GPanic)
  end.

(** [Thread::free], then return [r]. *)
Definition OwnedGuard_free (mem : bool) (g : nat) (r : ret) (s : gstate) : handled :=
  match owned_free mem g (registry s) with
  | (Ret _, reg) => Some (set_registry reg s, AReturn (GRet r))
  | (Panic, reg) => Some (set_registry reg s, AReturn GPanic)
  end.

Definition OwnedGuard_entered (mem : bool) (g : nat) (thread : Thread) (r : ret) (s : gstate) : handled :=
  match r with
  | RReservation reservation =>
      let s := set_owneds (<[g := mkOwnedGuard thread reservation]> (owneds s)) s in
      Some (s, ACall (OpEnter reservation) (KEntered (OG g)) thread)
  | _ => OwnedGuard_free mem g r s
  end.

(** [let _lock = reservation.lock.lock().unwrap();] around a raw call; the
    thread blocks while the lock is held. *)
Definition with_lock (self : OwnedGuard) (o : op) (s : gstate) : handled :=
  s ← raw_write (LLock (o_reservation self)) s;
  Some (s, ACall o (KUnlock (o_reservation self)) (o_thread self)).

Definition OwnedGuard_drop (g : nat) (self : OwnedGuard) (s : gstate) : handled :=
  let s := set_owneds (delete g (owneds s)) s in
  Some (s, ACall (OpLeave (o_reservation self)) KOwnedFree (o_thread self)).

Definition OwnedGuard_thread_id (t : nat) (s : gstate) : handled :=
  with_current t s (fun th s => Some (s, AReturn (GId (id th)))).

#[export] Instance OwnedGuard_Guard : Guard OwnedGuard := {|
  refresh := fun self s => Some (s, ACall (OpRefresh (o_reservation self)) KReturn (o_thread self));
  flush := fun self s => with_lock self (OpFlush (o_thread self)) s;
  thread_id := fun t _ s => OwnedGuard_thread_id t s;
  reserve_retire := fun self s => with_lock self (OpReserve (o_thread self)) s;
  defer_retire := fun p f self s => with_lock self (OpAdd p f (o_thread self)) s
|}.

(** ** [Collector] *)

Definition Collector_retire (t : nat) (p f : Z) (s : gstate) : handled :=
  with_current t s (fun th s => Some (s, ACall (OpAdd p f th) KReturn th)).

Definition Collector_reserve_retire (t : nat) (s : gstate) : handled :=
  with_current t s (fun th s => Some (s, ACall (OpReserve th) KReturn th)).

(** The end of OS thread [t]. *)
Definition thread_exit (mem : bool) (t : nat) (s : gstate) : handled :=
  match ThreadGuard_drop mem t (registry s) with
  | (Ret _, reg) => Some (set_registry reg s, AReturn (GRet RUnit))
  | (Panic, reg) => Some (set_registry reg s, AReturn GPanic)
  end.

(** A method of the [Guard] trait on a named guard. *)
Definition on_guard (g : gref) (s : gstate)
    (method : forall G, Guard G -> G -> gstate -> handled) : handled :=
  match g with
  | LG g => self ← locals s !! g; method LocalGuard _ self s
  | OG g => self ← owneds s !! g; method OwnedGuard _ self s
  end.

(** Client code of thread [t] calls an operation. *)
Definition handle (t : nat) (o : gop) (s : gstate) : handled :=
  match o with
  | CEnter _ => LocalGuard_enter t s
  | CEnterOwned _ g => OwnedGuard_enter g s
  | CRetire p f => Collector_retire t p f s
  | CReserve => Collector_reserve_retire t s
  | GRefresh g => on_guard g s (fun _ _ self => refresh self)
  | GFlush g => on_guard g s (fun _ _ self => flush self)
  | GReserve g => on_guard g s (fun _ _ self => reserve_retire self)
  | GDefer g p f => on_guard g s (fun _ _ self => defer_retire p f self)
  | GThreadId g => on_guard g s (fun _ _ self => thread_id t self)
  | GDrop _ (LG g) => self ← locals s !! g; LocalGuard_drop g self s
  | GDrop _ (OG g) => self ← owneds s !! g; OwnedGuard_drop g self s
  | TExit mem => thread_exit mem t s
  end.

(** The raw collector returned [r] to a waiting handler. *)
Definition resume (t : nat) (w : waiter) (r : ret) (s : gstate) : handled :=
  match w_kont w, w_op w with
  | KReturn, _ => Some (s, AReturn (GRet r))
  | KUnlock reservation, _ => s ← raw_write (LUnlock reservation) s; Some (s, AReturn (GRet r))
  | KLocalEnter, CEnter g => LocalGuard_entered t g (w_thread w) r s
  | KOwnedEnter, CEnterOwned mem g => OwnedGuard_entered mem g (w_thread w) r s
  | KEntered g, _ => Some (s, AReturn (GGuard g))
  | KOwnedFree, GDrop mem (OG g) => OwnedGuard_free mem g r s
  | _, _ => None
  end.

(** ** The machine *)

(** What a handler asked for is done. *)
Definition perform (t : nat) (o : gop) (h : handled) : option (gstate * list gevent) :=
  match h with
  | None => None
  | Some (s, AReturn r) => Some (s, [GDone t r])
  | Some (s, ACall ro k th) =>
      '(r, ev) ← step plat batch_size (LCall t ro) (raw s);
      Some (set_waits (<[t := mkWaiter o k th :: waiting s t]> (waits s)) (set_raw r s), map GRaw ev)
  end.

(** The call of the raw collector that returned in a step, if any. *)
Definition returned (ev : list event) : option (nat * ret) :=
  match ev with [EvRet t r] => Some (t, r) | _ => None end.

Inductive glabel :=
| GOp (t : nat) (o : gop)              (* client code of thread t calls o *)
| GRun (t : nat)                       (* as LRun, LSpurious, LReturn, LDrain, LDetect *)
| GSpurious (t : nat)
| GReturn (t : nat)
| GDrain (r : slot)
| GDetect (sys : Z -> Z) (x86 : bool)
| GOther (o : reg_op).                 (* another collector uses the registry *)

Definition raw_label (l : glabel) : option label :=
  match l with
  | GOp _ _ | GOther _ => None
  | GRun t => Some (LRun t)
  | GSpurious t => Some (LSpurious t)
  | GReturn t => Some (LReturn t)
  | GDrain r => Some (LDrain r)
  | GDetect sys x86 => Some (LDetect sys x86)
  end.

Definition gstep (l : glabel) (s : gstate) : option (gstate * list gevent) :=
  match l, raw_label l with
  | GOp t o, _ =>
      if at_client (stack (raw s) t) then
        '(s, ev) ← perform t o (handle t o s); Some (s, GCall t o :: ev)
      else None
  | GOther o, _ => Some (set_registry (reg_step o (registry s)) s, [])
  | _, Some rl =>
      '(r, ev) ← step plat batch_size rl (raw s);
      let s := set_raw r s in
      match returned ev with
      | None => Some (s, map GRaw ev)
      | Some (t, v) =>
          match waiting s t with
          | [] => None
          | w :: ws =>
              let s := set_waits (<[t := ws]> (waits s)) s in
              '(s, ev') ← perform t (w_op w) (resume t w v s); Some (s, (map GRaw ev) ++ ev')
          end
      end
  | _, None => None
  end.

(** ** The contract of clients *)

Definition gop_guard (o : gop) : option gref :=
  match o with
  | CEnter g => Some (LG g)
  | CEnterOwned _ g => Some (OG g)
  | GRefresh g | GFlush g | GReserve g | GDefer g _ _ | GThreadId g | GDrop _ g => Some g
  | CRetire _ _ | CReserve | TExit _ => None
  end.

(** Operations that need the guard for themselves: its constructor,
    [refresh(&mut self)] and [drop(&mut self)]. *)
Definition exclusive (o : gop) : bool :=
  match o with
  | CEnter _ | CEnterOwned _ _ | GRefresh _ | GDrop _ _ => true
  | _ => false
  end.

(** A call that is in progress on guard [g]. *)
Definition borrowed (s : gstate) (g : gref) (o : gop) : Prop :=
  exists t w, w ∈ waiting s t /\ w_op w = o /\ gop_guard o = Some g.

(** The borrow rules for a call of [o] on [g]. *)
Definition may_borrow (s : gstate) (g : gref) (o : gop) : Prop :=
  forall o', borrowed s g o' -> exclusive o = false /\ exclusive o' = false.

(** Thread [t] can name guard [g]: a local guard does not leave its thread. *)
Definition can_name (t : nat) (s : gstate) (g : gref) : Prop :=
  match g with
  | LG g => exists lg, locals s !! g = Some lg /\ l_os lg = t
  | OG g => is_Some (owneds s !! g)
  end.

(** What safe Rust and the documentation ask of a client: guards are used
    under the borrow rules, local guards on their thread only, and a thread
    ends after its calls and its local guards. Names of new guards are fresh. *)
Definition glegal (t : nat) (o : gop) (s : gstate) : Prop :=
  match o with
  | CEnter g => locals s !! g = None /\ may_borrow s (LG g) o
  | CEnterOwned _ g => owneds s !! g = None /\ ThreadId.owned (registry s) !! g = None /\ may_borrow s (OG g) o
  | GRefresh g | GFlush g | GReserve g | GDefer g _ _ | GThreadId g | GDrop _ g =>
      can_name t s g /\ may_borrow s g o
  | CRetire _ _ | CReserve => True
  | TExit _ => waiting s t = [] /\ forall g lg, locals s !! g = Some lg -> l_os lg <> t
  end.

(** What the other collectors of the process may do to the registry: they take
    IDs for threads, and take and free IDs for owned guards of their own. The
    end of a thread is a step of every collector. *)
Definition foreign (o : reg_op) (s : gstate) : Prop :=
  match o with
  | RCurrent _ => True
  | RExit _ _ => False
  | ROwned g => glegal 0 (CEnterOwned true g) s
  | ROwnedDrop mem g => owneds s !! g = None /\ may_borrow s (OG g) (CEnterOwned mem g)
  end.

(** A step that clients may take; there are fewer local guards than the counter
    of a reservation can hold. *)
Definition glegal_label (l : glabel) (s : gstate) : Prop :=
  match l with GOp t o => glegal t o s | GOther o => foreign o s | _ => True end /\
  Z.of_nat (size (locals s)) < usize_max.

Inductive gsteps : gstate -> list gevent -> gstate -> Prop :=
| gsteps_nil s : gsteps s [] s
| gsteps_cons s1 l s2 ev tr s3 :
    glegal_label l s1 -> gstep l s1 = Some (s2, ev) -> gsteps s2 tr s3 -> gsteps s1 (ev ++ tr) s3.

(** A new collector in a new process. *)
Definition gstate_new (r : raw_state A) : gstate := mkGuardState r registry_init ∅ ∅ ∅.

Definition greachable (s : gstate) : Prop :=
  exists strat cap a0 a r0 tr, strategy_ok strat /\ in_usize cap /\ in_usize batch_size /\
    collector_new strat cap a0 = Ret (a, Ok r0) /\ gsteps (gstate_new r0) tr s.

(** What an observer of the raw collector sees. *)
Definition raw_events (tr : list gevent) : list event :=
  omap (fun e => match e with GRaw e => Some e | _ => None end) tr.

(** Executable runs. *)
Fixpoint grun (ls : list glabel) (s : gstate) : option (gstate * list gevent) :=
  match ls with
  | [] => Some (s, [])
  | l :: ls =>
      '(s1, ev) ← gstep l s;
      '(s2, tr) ← grun ls s1;
      Some (s2, ev ++ tr)
  end.

(** Run the handlers of one thread until its client code is in control. *)
Fixpoint grun_until (fuel : nat) (t : nat) (s : gstate) : option (gstate * list gevent) :=
  if at_client (stack (raw s) t) then Some (s, [])
  else
    match fuel with
    | O => None
    | S fuel =>
        '(s1, ev) ← gstep (GRun t) s;
        '(s2, tr) ← grun_until fuel t s1;
        Some (s2, ev ++ tr)
    end.

End Guards.
