(* ===== verification/GuardExec.v ===== *)
(** * Running guards

    Executable runs of the machine of guards that check the contract of every
    call, and that they are runs in the sense of the theorems. *)

From stdpp Require Import prelude list gmap.
From S2P Require Import Prelude Alloc ThreadId Membarrier Tls RawData RawStep Guard.

Open Scope Z_scope.

Section GuardExec.
Context {A : Type} `{Allocator A} `{BoxVec A}.
Context `{EntryLayout Reservation} `{EntryLayout LocalBatch}.
Variables (plat : Platform) (batch_size : Z).

Abbreviation gstate := (guard_state A).
Abbreviation gstep := (gstep plat batch_size).
Abbreviation gsteps := (gsteps plat batch_size).
Implicit Types (s : gstate) (t g : nat).

Definition borrow_ok (x : gref) (o : gop) (w : waiter) : Prop :=
  gop_guard (w_op w) = Some x -> exclusive o = false /\ exclusive (w_op w) = false.

Lemma may_borrow_waits s x o :
  may_borrow s x o <-> map_Forall (fun _ ws => Forall (borrow_ok x o) ws) (waits s).
Proof.
  unfold may_borrow, borrowed, waiting. split.
  - intros Hb t ws Hws. apply Forall_forall. intros w Hw Hg. apply Hb.
    exists t, w. by rewrite Hws.
  - intros HF o' (t & w & Hw & <- & Hg). destruct (waits s !! t) as [ws|] eqn:E; simpl in Hw;
      [|by apply elem_of_nil in Hw].
    specialize (HF _ _ E). rewrite Forall_forall in HF. by apply (HF w).
Qed.

#[export] Instance may_borrow_dec s x o : Decision (may_borrow s x o).
Proof.
  refine (cast_if (decide (map_Forall (fun _ ws => Forall (borrow_ok x o) ws) (waits s))));
    by rewrite may_borrow_waits.
Defined.

#[export] Instance can_name_dec t s x : Decision (can_name t s x).
Proof.
  destruct x as [g|g]; simpl; [|apply _]. destruct (locals s !! g) as [lg|] eqn:E.
  - destruct (decide (l_os lg = t)); [left; eauto|right]. intros (? & [= <-] & ?). done.
  - right. by intros (? & ? & ?).
Defined.

#[export] Instance no_local_dec t s :
  Decision (forall g lg, locals s !! g = Some lg -> l_os lg <> t).
Proof.
  refine (cast_if (decide (map_Forall (fun _ lg => l_os lg <> t) (locals s)))); done.
Defined.

#[export] Instance no_waiting_dec t s : Decision (waiting s t = []).
Proof. destruct (waiting s t); [by left|by right]. Defined.

#[export] Instance glegal_dec t o s : Decision (glegal t o s).
Proof. destruct o; simpl; apply _. Defined.

#[export] Instance foreign_dec o s : Decision (foreign o s).
Proof. destruct o; unfold foreign; apply _. Defined.

#[export] Instance glegal_label_dec l s : Decision (glegal_label l s).
Proof. destruct l; unfold glegal_label; apply _. Defined.

(** A step; [check] is whether to check the contract. *)
Definition gchecked (check : bool) (l : glabel) s : option (gstate * list gevent) :=
  if decide (check = true -> glegal_label l s) then gstep l s else None.

(** Run one thread until its stack is empty; reclaimers return at once. *)
Fixpoint gsettle (check : bool) (fuel t : nat) s : option (gstate * list gevent) :=
  match stack (raw s) t with
  | [] => Some (s, [])
  | fr :: _ =>
      match fuel with
      | O => None
      | S fuel =>
          '(s1, ev) ← gchecked check (match fr with FReclaim _ _ => GReturn t | _ => GRun t end) s;
          '(s2, tr) ← gsettle check fuel t s1;
          Some (s2, ev ++ tr)
      end
  end.

(** A script: calls run to completion, or single steps. *)
Inductive gcommand :=
| GCallTo (t : nat) (o : gop)
| GStep (l : glabel).

Definition gcommand_run (check : bool) (fuel : nat) (c : gcommand) s : option (gstate * list gevent) :=
  match c with
  | GCallTo t o =>
      '(s1, ev) ← gchecked check (GOp t o) s;
      '(s2, tr) ← gsettle check fuel t s1;
      Some (s2, ev ++ tr)
  | GStep l => gchecked check l s
  end.

Fixpoint gscript (check : bool) (fuel : nat) (cs : list gcommand) s : option (gstate * list gevent) :=
  match cs with
  | [] => Some (s, [])
  | c :: cs =>
      '(s1, ev) ← gcommand_run check fuel c s;
      '(s2, tr) ← gscript check fuel cs s1;
      Some (s2, ev ++ tr)
  end.

Lemma gsteps_trans s1 tr1 s2 tr2 s3 :
  gsteps s1 tr1 s2 -> gsteps s2 tr2 s3 -> gsteps s1 (tr1 ++ tr2) s3.
Proof.
  intros H12 H23. induction H12 as [s|s1 l s2 ev tr s4 Hl Hs H12 IH]; [done|].
  rewrite <-(assoc_L (++)). econstructor; eauto.
Qed.

Lemma gsteps_one l s s' ev : glegal_label l s -> gstep l s = Some (s', ev) -> gsteps s ev s'.
Proof. intros Hl Hs. rewrite <-(app_nil_r ev). econstructor; [done..|constructor]. Qed.

Lemma gchecked_steps l s s' ev : gchecked true l s = Some (s', ev) -> gsteps s ev s'.
Proof. unfold gchecked. case_decide as Hl; [|done]. apply gsteps_one. by apply Hl. Qed.

Lemma gsettle_steps fuel t s s' tr : gsettle true fuel t s = Some (s', tr) -> gsteps s tr s'.
Proof.
  revert s tr. induction fuel as [|fuel IH]; intros s tr; simpl.
  - destruct (stack (raw s) t); intros; simplify_eq; constructor.
  - destruct (stack (raw s) t) as [|fr rest]; [intros [= -> <-]; constructor|].
    intros ([s1 ev] & E1 & ([s2 tr2] & E2 & [= -> <-])%bind_Some)%bind_Some.
    eapply gsteps_trans; [by eapply gchecked_steps|by apply IH].
Qed.

Lemma gscript_steps fuel cs s s' tr : gscript true fuel cs s = Some (s', tr) -> gsteps s tr s'.
Proof.
  revert s tr. induction cs as [|c cs IH]; intros s tr; simpl; [intros [= -> <-]; constructor|].
  intros ([s1 ev] & E1 & ([s2 tr2] & E2 & [= -> <-])%bind_Some)%bind_Some.
  eapply gsteps_trans; [|by apply IH]. destruct c as [t o|l]; [|by eapply gchecked_steps].
  simpl in E1. apply bind_Some in E1 as ([s3 ev3] & E3 & ([s4 tr4] & E4 & [= -> <-])%bind_Some).
  eapply gsteps_trans; [by eapply gchecked_steps|by eapply gsettle_steps].
Qed.

End GuardExec.
