(* ===== verification/GuardInv.v ===== *)
(** * The invariant of the guards

    Which frames run for which handler, that the slots in use belong to the
    thread or the owned guard that uses them, that the counter of a reservation
    counts its local guards, that locks are exclusive, and that a slot is
    active exactly when a guard wants it. *)

From stdpp Require Import prelude list gmap.
From S2P Require Import Prelude Alloc ThreadId Membarrier Tls RawData RawStep RawGhost RawInv RawPreserve RawProtect RawEffect Guard.

Open Scope Z_scope.

(** ** Handlers and their frames *)

(** Who owns the slot of a handler on OS thread [t]. *)
Definition holder (t : nat) (w : waiter) : nat + nat :=
  match gop_guard (w_op w) with Some (OG g) => inr g | _ => inl t end.

(** The handler waits for [reservation]. *)
Definition loading (w : waiter) : bool :=
  match w_kont w with KLocalEnter | KOwnedEnter => true | _ => false end.

(** The guard of the handler is not there yet, or not any more. *)
Definition absent (w : waiter) : bool :=
  match w_kont w with KLocalEnter | KOwnedEnter | KOwnedFree => true | _ => false end.

(** The handler may wait while reclaimers run. *)
Definition working (w : waiter) : bool :=
  match w_kont w with KReturn | KUnlock _ | KOwnedFree => true | _ => false end.

(** Frame [f] may run for handler [w]. *)
Definition serves (w : waiter) (f : frame) : Prop :=
  match f with
  | FLoad KReservation th _ => loading w = true /\ th = w_thread w
  | FLoad _ th _ | FFlush th => working w = true /\ th = w_thread w
  | FAdd r _ _ | FReserve r | FTry r _ => working w = true /\ r = thread_slot (w_thread w)
  | FEnter r | FEnterStore r _ =>
      (exists x, w_kont w = KEntered x) /\ r = thread_slot (w_thread w)
  | FLeave r => (working w = true /\ exists mem x, w_op w = GDrop mem x) /\ r = thread_slot (w_thread w)
  | FRefresh r => (working w = true /\ exists x, w_op w = GRefresh x) /\ r = thread_slot (w_thread w)
  | FRet (RReservation r) => loading w = true /\ r = thread_slot (w_thread w)
  | FRet RErr => loading w = true \/ working w = true
  | FRet _ => loading w = false
  | FAll _ _ | FAllBatch _ _ | FAllReset _ _ => False
  | _ => working w = true
  end.

(** The continuation fits the operation. *)
Definition waiter_ok (w : waiter) : Prop :=
  match w_kont w with
  | KReturn => forall x, gop_guard (w_op w) = Some x -> match x, w_op w with
      | OG _, GRefresh _ => True
      | OG _, _ => False
      | LG _, CEnter _ => False
      | LG _, _ => True
      end
  | KUnlock r => r = thread_slot (w_thread w) /\ exclusive (w_op w) = false /\
      exists g, gop_guard (w_op w) = Some (OG g)
  | KLocalEnter => exists g, w_op w = CEnter g
  | KEntered (LG g) => w_op w = CEnter g
  | KOwnedEnter => exists mem g, w_op w = CEnterOwned mem g
  | KEntered (OG g) => exists mem, w_op w = CEnterOwned mem g
  | KOwnedFree => exists mem g, w_op w = GDrop mem (OG g)
  end.

(** A stack is a pile of sections, one for each waiting handler; below a
    section client code has called. *)
Inductive sectioned : list frame -> list waiter -> Prop :=
| sec_nil : sectioned [] []
| sec_cons fs rest w ws :
    section fs -> Forall (serves w) fs -> at_client rest = true -> sectioned rest ws ->
    sectioned (fs ++ rest) (w :: ws).

Lemma serves_slot w f r : serves w f -> uses f = Some r -> r = thread_slot (w_thread w).
Proof.
  destruct f as [k th pc|r0 p f|r0|th|r0 pc|b m i act|b m i act r0 prev|b act|r0|r0 o|r0|r0|l|n b|b i|p f|ipc it|r0 it|r0 it|x];
    simpl; intros Hs [= <-]; try destruct k; try by destruct Hs as [_ ->].
Qed.

Lemma serves_concurrent w f : serves w f -> concurrent f.
Proof. by destruct f. Qed.

Lemma loading_absent w : loading w = true -> absent w = true.
Proof. unfold loading, absent. by destruct (w_kont w). Qed.

Lemma working_loading w : working w = true -> loading w = false.
Proof. unfold working, loading. by destruct (w_kont w). Qed.

Lemma section_cons fs : section fs -> exists f fs', fs = f :: fs'.
Proof.
  intros [_ [(f & -> & _)|(gs & r & -> & _)]]; [eauto|]. destruct gs; simpl; eauto.
Qed.

Lemma sectioned_inv f st ws :
  sectioned (f :: st) ws -> exists w ws' fs rest, ws = w :: ws' /\ st = fs ++ rest /\
    section (f :: fs) /\ Forall (serves w) (f :: fs) /\ at_client rest = true /\ sectioned rest ws'.
Proof.
  intros Hsec. inversion Hsec as [|fs rest w ws' Hfs HF Hc Hrest E E']; subst.
  destruct (section_cons _ Hfs) as (g & gs & ->). simpl in E. injection E as -> <-.
  exists w, ws', gs, rest. done.
Qed.

(** Only the top frame uses a slot, the one of the handler on top. *)
Lemma sectioned_uses st ws f r :
  sectioned st ws -> f ∈ st -> uses f = Some r ->
  exists st' w ws', st = f :: st' /\ ws = w :: ws' /\ serves w f.
Proof.
  induction 1 as [|fs rest w ws Hfs HF Hc Hrest IH]; [by intros ?%elem_of_nil|].
  destruct (section_cons _ Hfs) as (g & gs & ->). rewrite elem_of_app. intros [Hf|Hf] Hu.
  - apply elem_of_cons in Hf as [->|Hf]; [|by eapply Forall_forall in Hf as ?; [|apply Hfs]; simpl in *; congruence].
    exists (gs ++ rest), w, ws. split; [done|]. split; [done|]. by apply Forall_cons in HF as [? _].
  - destruct (IH Hf Hu) as (st' & w' & ws' & -> & -> & _). by destruct f.
Qed.

Lemma serves_follows w f f' : serves w f -> follows f f' -> serves w f'.
Proof.
  intros Hs Hf.
  destruct f' as [k th pc|r p g|r|th|r pc|b m i act|b m i act r prev|b act|r|r o|r|r|l|n b|b i|p g|ipc it|r it|r it|[]];
    destruct f as [[] ? ?| | | | | | | | | | | | | | | | | | |]; simpl in *; try done;
    try (by destruct Hs as [? ?]); try (by destruct Hs as [[? ?] ?]);
    try (destruct Hf; by subst); try (by simplify_eq); try (by destruct Hs as [? ->]; simplify_eq; eauto);
    try (by apply working_loading, Hs); eauto.
Qed.

Lemma section_call ro : ro <> OpReclaimAll -> section (call ro).
Proof. destruct ro; intros Hr; try done; simpl; auto with raw_effect. Qed.

(** ** Guards and slots *)

Definition locks (ws : list waiter) : list slot :=
  omap (fun w => match w_kont w with KUnlock r => Some r | _ => None end) ws.

(** The number of local guards of slot [r]. *)
Definition count (ls : gmap nat LocalGuard) (r : slot) : Z :=
  Z.of_nat (size (filter (fun '(_, lg) => l_reservation lg = r) ls)).

Lemma elem_of_locks ws r : r ∈ locks ws <-> exists w, w ∈ ws /\ w_kont w = KUnlock r.
Proof.
  unfold locks. rewrite list_elem_of_omap. split.
  - intros (w & Hw & E). exists w. split; [done|]. destruct (w_kont w); simplify_eq; done.
  - intros (w & Hw & E). exists w. by rewrite E.
Qed.

Lemma count_insert ls g lg r : ls !! g = None ->
  count (<[g := lg]> ls) r = count ls r + (if decide (l_reservation lg = r) then 1 else 0).
Proof.
  intros Hg. unfold count. case_decide as Hr.
  - rewrite map_filter_insert_True by done. rewrite map_size_insert_None; [lia|].
    apply map_lookup_filter_None. by left.
  - rewrite map_filter_insert_False by done. rewrite delete_id by done. lia.
Qed.

Lemma count_delete ls g lg r : ls !! g = Some lg ->
  count (delete g ls) r = count ls r - (if decide (l_reservation lg = r) then 1 else 0).
Proof.
  intros Hg. rewrite <-(insert_delete_id ls g lg Hg) at 2.
  rewrite count_insert by (by rewrite lookup_delete_eq). lia.
Qed.

Lemma count_pos ls g lg r : ls !! g = Some lg -> l_reservation lg = r -> 1 <= count ls r.
Proof.
  intros Hg Hr. rewrite <-(insert_delete_id ls g lg Hg). rewrite count_insert by (by rewrite lookup_delete_eq).
  rewrite decide_True by done. unfold count. lia.
Qed.

Lemma count_0 ls r : (forall g lg, ls !! g = Some lg -> l_reservation lg <> r) -> count ls r = 0.
Proof.
  intros Hn. unfold count. rewrite map_empty_filter_2; [done|].
  intros g lg Hg E. by apply (Hn g lg).
Qed.

Lemma count_witness ls r : count ls r <> 0 -> exists g lg, ls !! g = Some lg /\ l_reservation lg = r.
Proof.
  unfold count. intros Hc. destruct (map_choose (filter (fun '(_, lg) => l_reservation lg = r) ls)) as (g & lg & E).
  - intros E. by rewrite E in Hc.
  - apply map_lookup_filter_Some in E as [? ?]. eauto.
Qed.

Lemma count_1 ls r g lg g' lg' : count ls r = 1 ->
  ls !! g = Some lg -> l_reservation lg = r -> ls !! g' = Some lg' -> l_reservation lg' = r -> g' = g.
Proof.
  intros Hc Hg Hr Hg' Hr'. destruct (decide (g' = g)) as [|Hne]; [done|].
  assert (1 <= count (delete g ls) r); [|erewrite count_delete in * by done; rewrite decide_True in *; [lia|done]].
  apply (count_pos _ g' lg'); [|done]. by rewrite lookup_delete_ne.
Qed.

Section GuardInv.
Context {A : Type} `{Allocator A} `{BoxVec A} `{!BoxVecLaws A}.
Context `{EntryLayout Reservation} `{EntryLayout LocalBatch}.
Variables (plat : Platform) (batch_size : Z).

Abbreviation gstate := (guard_state A).
Abbreviation Inv := (Inv plat batch_size).
Implicit Types (s : gstate) (r : slot) (t g : nat) (x : gref) (w : waiter).

(** The holder of a guard's thread, its thread and its reservation. *)
Definition guard_info s x : option ((nat + nat) * Thread * slot) :=
  match x with
  | LG g => (fun lg => (inl (l_os lg), l_thread lg, l_reservation lg)) <$> locals s !! g
  | OG g => (fun og => (inr g, o_thread og, o_reservation og)) <$> owneds s !! g
  end.

Definition has_slot s x r : Prop := exists h th, guard_info s x = Some (h, th, r).

(** Some guard wants the slot to be active. *)
Definition wants s r : Prop := exists x, has_slot s x r.

Definition sole s r x : Prop := has_slot s x r /\ forall y, has_slot s y r -> y = x.

(** The guards of a slot that is being entered, refreshed or left. *)
Definition top_ok s t : Prop :=
  match stack (raw s) t with
  | (FEnter r | FEnterStore r _ | FRefresh r) :: _ =>
      exists w ws x, waiting s t = w :: ws /\ gop_guard (w_op w) = Some x /\ sole s r x
  | FLeave r :: _ => ~ wants s r
  | _ => True
  end.

Definition entering s r : Prop :=
  exists t f st, stack (raw s) t = f :: st /\ (f = FEnter r \/ exists o, f = FEnterStore r o).

Definition leaving s r : Prop := exists t st, stack (raw s) t = FLeave r :: st.

(** The activity of slot [r] is what the guards want, or is about to be. *)
Definition active_ok s r : Prop :=
  (wants s r -> guarded (raw s) r \/ entering s r) /\
  (guarded (raw s) r -> wants s r \/ leaving s r).

(** The invariant; the activity of slot [X] is unsettled. *)
Record GI (X : option slot) s : Prop := {
  gi_raw : Inv (raw s);
  gi_reg : reg_inv (registry s);
  gi_stacks t : sectioned (stack (raw s) t) (waiting s t);
  gi_waits t w : w ∈ waiting s t -> holds (registry s) (holder t w) (w_thread w) /\ waiter_ok w;
  gi_guards x h th r : guard_info s x = Some (h, th, r) ->
    holds (registry s) h th /\ r = thread_slot th /\ is_Some (head_of (raw s) r);
  gi_load t w x : w ∈ waiting s t -> absent w = true -> gop_guard (w_op w) = Some x -> guard_info s x = None;
  gi_borrow t1 t2 i j w1 w2 x : waiting s t1 !! i = Some w1 -> waiting s t2 !! j = Some w2 ->
    exclusive (w_op w1) = true -> gop_guard (w_op w1) = Some x -> gop_guard (w_op w2) = Some x ->
    t1 = t2 /\ i = j;
  gi_count r n : guards_of (raw s) r = Some n -> n = count (locals s) r;
  gi_few : Z.of_nat (size (locals s)) <= usize_max;
  gi_lock t r : r ∈ locks (waiting s t) -> lock_of (raw s) r = Some true;
  gi_nodup t : NoDup (locks (waiting s t));
  gi_excl t1 t2 r : r ∈ locks (waiting s t1) -> r ∈ locks (waiting s t2) -> t1 = t2;
  gi_active r : Some r <> X -> active_ok s r;
  gi_top t : top_ok s t
}.

End GuardInv.
