(* ===== verification/GuardPreserve.v ===== *)
(** * The guards keep their invariant

    Every step of the raw collector, every write to a reservation, every change
    of the tables and every call of a handler keeps the invariant of GuardInv;
    the calls respect the contract of the raw collector. *)

From stdpp Require Import prelude list gmap.
From S2P Require Import Prelude Alloc ThreadId Membarrier Tls RawData RawStep RawGhost RawInv RawPreserve RawProtect RawEffect Guard GuardInv.

Open Scope Z_scope.

Section GuardPreserve.
Context {A : Type} `{Allocator A} `{BoxVec A} `{!BoxVecLaws A}.
Context `{EntryLayout Reservation} `{EntryLayout LocalBatch}.
Variables (plat : Platform) (batch_size : Z).

Abbreviation gstate := (guard_state A).
Abbreviation Inv := (Inv plat batch_size).
Abbreviation GI := (GI plat batch_size).
Implicit Types (s : gstate) (r : slot) (t g : nat) (x : gref) (w : waiter) (X : option slot).

(** ** Steps of the raw collector *)

Lemma fields_kept_head (rs rs' : raw_state A) r : fields_kept rs rs' -> is_Some (head_of rs r) -> is_Some (head_of rs' r).
Proof.
  intros HF. specialize (HF r). unfold head_of. destruct (tl_get (reservations rs) r) as [y|]; [|by intros [? [=]]].
  destruct HF as (y' & -> & _). simpl. eauto.
Qed.

Lemma GI_raw_change X s raw' :
  GI X s -> Inv raw' -> fields_kept (raw s) raw' ->
  (forall t, sectioned (stack raw' t) (waiting s t)) ->
  (forall r, Some r <> X -> active_ok (set_raw raw' s) r) ->
  (forall t, top_ok (set_raw raw' s) t) -> GI X (set_raw raw' s).
Proof.
  intros HI HI' HF Hst Ha Ht. constructor; try done; try apply HI.
  - intros x h th r Hx. destruct (gi_guards _ _ _ _ HI x h th r Hx) as (? & ? & ?).
    split; [done|]. split; [done|]. by eapply fields_kept_head.
  - intros r n Hn. simpl in *. unfold guards_of in Hn. specialize (HF r).
    destruct (tl_get (reservations (raw s)) r) as [y|] eqn:E.
    + destruct HF as (y' & E' & Hg & _). rewrite E' in Hn. injection Hn as <-.
      rewrite Hg. apply (gi_count _ _ _ _ HI). unfold guards_of. by rewrite E.
    + destruct (tl_get (reservations raw') r) as [y'|]; [|done]. specialize (HF y' eq_refl). subst y'.
      injection Hn as <-. symmetry. apply count_0. intros g lg Hg Hr.
      destruct (gi_guards _ _ _ _ HI (LG g) (inl (l_os lg)) (l_thread lg) r) as (_ & _ & [hd Hhd]).
      { simpl. rewrite Hg. simpl. by rewrite Hr. }
      unfold head_of in Hhd. by rewrite E in Hhd.
  - intros t r Hr. apply (gi_lock _ _ _ _ HI) in Hr. simpl. unfold lock_of in *. specialize (HF r).
    destruct (tl_get (reservations (raw s)) r) as [y|]; [|done]. destruct HF as (y' & -> & _ & Hl).
    simpl in *. congruence.
Qed.

Lemma top_ok_quiet s t f st : stack (raw s) t = f :: st -> uses f = None -> top_ok s t.
Proof. unfold top_ok. intros ->. by destruct f. Qed.

Lemma top_ok_client s t : at_client (stack (raw s) t) = true -> top_ok s t.
Proof. unfold top_ok. destruct (stack (raw s) t) as [|f st]; [done|]. by destruct f. Qed.

(** Below a frame, nothing uses a slot. *)
Lemma top_ok_below s t (fs rest : list frame) :
  stack (raw s) t = fs ++ rest -> Forall (fun f => uses f = None) fs -> at_client rest = true -> top_ok s t.
Proof.
  intros Hs HF Hc. destruct fs as [|f fs].
  - apply top_ok_client. by rewrite Hs.
  - apply Forall_cons in HF as [Hf _]. by eapply top_ok_quiet.
Qed.

Lemma top_ok_same s s' t :
  stack (raw s') t = stack (raw s) t -> waiting s' t = waiting s t ->
  (forall x, guard_info s' x = guard_info s x) -> top_ok s t -> top_ok s' t.
Proof.
  intros Es Ew Eg. unfold top_ok, sole, wants, has_slot. rewrite Es, Ew.
  destruct (stack (raw s) t) as [|f st]; [done|]. destruct f; try done.
  1,2,4: intros (w & ws & x & ? & ? & (h & th & Hx) & Hy); exists w, ws, x; (split; [done|]); (split; [done|]);
    (split; [exists h, th; by rewrite Eg|]); intros y (h' & th' & Hy'); apply Hy; rewrite Eg in Hy'; eauto.
  intros Hn (x & h & th & Hx). apply Hn. rewrite Eg in Hx. exists x, h, th. exact Hx.
Qed.

(** The stack of [t] after its top frame became [fs]. *)
Lemma stack_set_goto t fs (rs : raw_state A) s t' :
  stack (raw (set_raw (goto t fs rs) s)) t' = if decide (t' = t) then fs else stack rs t'.
Proof. apply stack_goto. Qed.

Lemma sectioned_run t f st fs s :
  sectioned (f :: st) (waiting s t) -> is_ret f = false -> replaces f fs -> Forall (follows f) fs ->
  sectioned (fs ++ st) (waiting s t).
Proof.
  intros Hsec Hr Hrep Hfol. destruct (sectioned_inv _ _ _ Hsec) as (w & ws & gs & rest & -> & -> & Hs & HF & Hc & Hrest).
  rewrite (assoc_L (++)). apply Forall_cons in HF as [Hf HF]. constructor; try done; [by eapply section_replace|].
  apply Forall_app. split; [|done]. eapply Forall_impl; [done|]. intros f'. by apply serves_follows.
Qed.

(** The frame that runs keeps the activity of the slots in order. *)
Lemma active_ok_run s t f st fs rs r :
  top_ok s t -> active_ok s r -> stack (raw s) t = f :: st -> threads rs = threads (raw s) ->
  (f = FEnter r -> exists o, fs = [FEnterStore r o]) ->
  activity f r (raw s) rs -> active_ok (set_raw (goto t (fs ++ st) rs) s) r.
Proof.
  intros Ht [Hon Hoff] Hs Hth Hent Hact. set (s' := set_raw (goto t (fs ++ st) rs) s).
  assert (forall t', t' <> t -> stack (raw s') t' = stack (raw s) t') as Hother.
  { intros t' Hne. unfold s'. rewrite stack_set_goto, decide_False by done. unfold stack. by rewrite Hth. }
  assert (stack (raw s') t = fs ++ st) as Hnew by (unfold s'; by rewrite stack_set_goto, decide_True).
  unfold top_ok in Ht. rewrite Hs in Ht. split.
  - intros Hw. change (wants s r) in Hw. destruct (Hon Hw) as [Hg|(t0 & f0 & st0 & Hs0 & Hf0)].
    + left. apply (activity_on _ _ _ _ Hact Hg). by intros ->.
    + destruct (decide (t0 = t)) as [->|Hne]; [|right; exists t0, f0, st0; by rewrite Hother].
      rewrite Hs in Hs0. injection Hs0 as <- <-. destruct Hf0 as [->|[o ->]].
      * right. destruct (Hent eq_refl) as [o ->]. exists t, (FEnterStore r o), st. eauto.
      * left. by apply (activity_enter _ _ _ _ Hact).
  - intros Hg. change (guarded rs r) in Hg.
    destruct (activity_off _ _ _ _ Hact Hg) as [Hg0|[->|[o ->]]].
    + destruct (Hoff Hg0) as [Hw|(t0 & st0 & Hs0)]; [by left|right]. exists t0, st0.
      rewrite Hother; [done|]. intros ->. rewrite Hs in Hs0. injection Hs0 as -> _.
      by apply activity_leave in Hact.
    + left. destruct Ht as (w & ws & x & _ & _ & Hx & _). by exists x.
    + left. destruct Ht as (w & ws & x & _ & _ & Hx & _). by exists x.
Qed.

Lemma top_ok_run s t f st fs rs :
  top_ok s t -> sectioned (f :: st) (waiting s t) -> stack (raw s) t = f :: st -> Forall (follows f) fs ->
  top_ok (set_raw (goto t (fs ++ st) rs) s) t.
Proof.
  intros Ht Hsec Hs Hfol. assert (stack (raw (set_raw (goto t (fs ++ st) rs) s)) t = fs ++ st) as Hnew
    by (by rewrite stack_set_goto, decide_True).
  destruct fs as [|f' fs].
  - destruct (sectioned_inv _ _ _ Hsec) as (w & ws & gs & rest & _ & -> & [Hu _] & _ & Hc & _).
    by apply (top_ok_below _ _ gs rest).
  - apply Forall_cons in Hfol as [Hf _]. destruct (uses f') as [r|] eqn:Hu; [|by eapply top_ok_quiet].
    unfold top_ok in *. rewrite Hnew. rewrite Hs in Ht. destruct f'; try done. simpl in Hf. by subst f.
Qed.

Lemma GI_run X s t f st fs rs :
  GI X s -> stack (raw s) t = f :: st -> is_ret f = false -> Inv (goto t (fs ++ st) rs) ->
  threads rs = threads (raw s) -> replaces f fs -> Forall (follows f) fs ->
  (forall r, f = FEnter r -> exists o, fs = [FEnterStore r o]) ->
  effect f (raw s) rs -> GI X (set_raw (goto t (fs ++ st) rs) s).
Proof.
  intros HI Hs Hret HI' Hth Hrep Hfol Hent [HF Hact].
  pose proof (gi_stacks _ _ _ _ HI t) as Hsec. rewrite Hs in Hsec.
  apply GI_raw_change; try done.
  - intros t'. rewrite stack_goto. case_decide as E; [subst t'; by eapply sectioned_run|].
    unfold stack. rewrite Hth. apply (gi_stacks _ _ _ _ HI).
  - intros r Hr. eapply active_ok_run; eauto. + apply HI. + by apply HI.
  - intros t'. destruct (decide (t' = t)) as [->|Hne]; [eapply top_ok_run; eauto; apply HI|].
    apply (top_ok_same s); try done; [|apply HI]. rewrite stack_set_goto, decide_False by done.
    unfold stack. by rewrite Hth.
Qed.

(** Steps that run no frame. *)
Lemma GI_quiet X s rs : GI X s -> Inv rs -> threads rs = threads (raw s) -> quiet_effect (raw s) rs ->
  GI X (set_raw rs s).
Proof.
  intros HI HI' Hth [HF Hact]. assert (forall t, stack rs t = stack (raw s) t) as Es by (intros; unfold stack; by rewrite Hth).
  apply GI_raw_change; try done.
  - intros t. rewrite Es. apply HI.
  - intros r Hr. destruct (gi_active _ _ _ _ HI r Hr) as [Hon Hoff]. split.
    + intros Hw. destruct (Hon Hw) as [Hg|(t0 & f0 & st0 & ? & ?)]; [left; by apply Hact|right].
      exists t0, f0, st0. simpl. by rewrite Es.
    + intros Hg%Hact. destruct (Hoff Hg) as [Hw|(t0 & st0 & ?)]; [by left|right]. exists t0, st0. simpl. by rewrite Es.
  - intros t. apply (top_ok_same s); try done; apply HI.
Qed.

(** A call of the raw collector returns, and its handler with it. *)
Definition popped t st ws s : gstate :=
  set_waits (<[t := ws]> (waits s)) (set_raw (goto t st (raw s)) s).

Lemma waiting_set t ws s t' :
  waiting (set_waits (<[t := ws]> (waits s)) s) t' = if decide (t' = t) then ws else waiting s t'.
Proof.
  unfold waiting; simpl. case_decide; [by subst; rewrite lookup_insert_eq|by rewrite lookup_insert_ne].
Qed.

Lemma waiting_popped t st ws s t' :
  waiting (popped t st ws s) t' = if decide (t' = t) then ws else waiting s t'.
Proof. apply (waiting_set t ws (set_raw (goto t st (raw s)) s)). Qed.

Lemma stack_popped t st ws s t' :
  stack (raw (popped t st ws s)) t' = if decide (t' = t) then st else stack (raw s) t'.
Proof. apply stack_goto. Qed.

Lemma popped_waiting t st w ws s t' w' :
  waiting s t = w :: ws -> w' ∈ waiting (popped t st ws s) t' -> w' ∈ waiting s t'.
Proof. rewrite waiting_popped. intros Hw. case_decide; [subst; rewrite Hw; by right|done]. Qed.

Lemma popped_lookup t st w ws s t' i w' :
  waiting s t = w :: ws -> waiting (popped t st ws s) t' !! i = Some w' ->
  waiting s t' !! (if decide (t' = t) then S i else i) = Some w'.
Proof. rewrite waiting_popped. intros Hw. case_decide; [subst; by rewrite Hw|done]. Qed.

Lemma popped_locks t st w ws s t' :
  waiting s t = w :: ws -> locks (waiting (popped t st ws s) t') ⊆ locks (waiting s t').
Proof.
  intros Hw r (w' & Hw' & Hk)%elem_of_locks. apply elem_of_locks. exists w'. split; [|done]. by eapply popped_waiting.
Qed.

Lemma GI_pop X s t v st w ws :
  GI X s -> stack (raw s) t = FRet v :: st -> waiting s t = w :: ws -> GI X (popped t st ws s).
Proof.
  intros HI Hs Hw. pose proof (gi_stacks _ _ _ _ HI t) as Hsec. rewrite Hs in Hsec.
  destruct (sectioned_inv _ _ _ Hsec) as (w0 & ws0 & gs & rest & Ew & -> & Hgs & _ & Hc & Hrest).
  rewrite Hw in Ew. injection Ew as <- <-. pose proof (section_ret_inv _ _ Hgs) as ->. simpl in Hs.
  assert (forall t', t' <> t -> stack (raw (popped t rest ws s)) t' = stack (raw s) t') as Hne
    by (intros; by rewrite stack_popped, decide_False).
  constructor; try apply HI.
  - apply (Inv_pure _ _ (raw s) t (FRet v) [] rest); try done; [apply HI|by intros [|[|d]]].
  - intros t'. rewrite stack_popped, waiting_popped. case_decide; [done|apply HI].
  - intros t' w' Hw'. eapply (gi_waits _ _ _ _ HI), popped_waiting; eauto.
  - intros t' w' x Hw'. eapply (gi_load _ _ _ _ HI), popped_waiting; eauto.
  - intros t1 t2 i j w1 w2 x H1' H2' He Hx1 Hx2.
    apply (popped_lookup _ _ _ _ _ _ _ _ Hw) in H1', H2'.
    destruct (gi_borrow _ _ _ _ HI _ _ _ _ _ _ _ H1' H2' He Hx1 Hx2) as [<- E]. split; [done|]. by case_decide; lia.
  - intros t' r Hr. eapply (gi_lock _ _ _ _ HI), popped_locks; eauto.
  - intros t'. rewrite waiting_popped. case_decide; [|apply HI]. pose proof (gi_nodup _ _ _ _ HI t) as Hn.
    rewrite Hw in Hn. unfold locks in *. simpl in Hn. destruct (w_kont w); try done. by apply NoDup_cons in Hn as [_ ?].
  - intros t1 t2 r H1' H2'. eapply (gi_excl _ _ _ _ HI); eapply popped_locks; eauto.
  - intros r Hr. destruct (gi_active _ _ _ _ HI r Hr) as [Hon Hoff]. split.
    + intros Hwn. destruct (Hon Hwn) as [Hg|(t0 & f0 & st0 & Hs0 & Hf0)]; [by left|right].
      exists t0, f0, st0. rewrite Hne; [done|]. intros ->. rewrite Hs in Hs0. injection Hs0 as <- _.
      by destruct Hf0 as [|[o ?]].
    + intros Hg. destruct (Hoff Hg) as [Hwn|(t0 & st0 & Hs0)]; [by left|right].
      exists t0, st0. rewrite Hne; [done|]. intros ->. by rewrite Hs in Hs0.
  - intros t'. destruct (decide (t' = t)) as [->|Ht]; [apply top_ok_client; by rewrite stack_popped, decide_True|].
    apply (top_ok_same s); try done; [by apply Hne|by rewrite waiting_popped, decide_False|apply HI].
Qed.

(** ** Writes to reservations, and the registry *)

Lemma field_effect f r (rs : raw_state A) : (forall y, head (f y) = head y) ->
  forall r', guarded (store_field f r rs) r' <-> guarded rs r'.
Proof. intros Hf r'. unfold guarded. by rewrite head_of_field. Qed.

Lemma guards_of_field f r (rs : raw_state A) r' :
  guards_of (store_field f r rs) r' = if decide (r = r') then (fun y => guards (f y)) <$> tl_get (reservations rs) r'
    else guards_of rs r'.
Proof. unfold guards_of, store_field; simpl. rewrite tl_get_modify. case_decide; [|done]. by destruct (tl_get _ r'). Qed.

Lemma lock_of_field f r (rs : raw_state A) r' :
  lock_of (store_field f r rs) r' = if decide (r = r') then (fun y => lock (f y)) <$> tl_get (reservations rs) r'
    else lock_of rs r'.
Proof. unfold lock_of, store_field; simpl. rewrite tl_get_modify. case_decide; [|done]. by destruct (tl_get _ r'). Qed.

(** Everything but the reservations' fields, the tables and the registry is
    the same: what a handler does before its next call. *)
Lemma GI_write X s b r :
  GI X s -> (b = false -> forall t, r ∉ locks (waiting s t)) ->
  GI X (set_raw (store_field (set_lock b) r (raw s)) s).
Proof.
  intros HI Hb. constructor; try apply HI.
  - by apply Inv_field, HI.
  - intros x h th r' Hx. destruct (gi_guards _ _ _ _ HI x h th r' Hx) as (? & ? & ?).
    split; [done|]. split; [done|]. simpl. by rewrite head_of_field.
  - intros r' n Hn. apply (gi_count _ _ _ _ HI). simpl in Hn. rewrite guards_of_field in Hn.
    case_decide; [subst|done]. unfold guards_of. by destruct (tl_get _ r').
  - intros t r' Hr. pose proof (gi_lock _ _ _ _ HI _ _ Hr) as Hl. simpl. rewrite lock_of_field.
    case_decide; [subst|done]. unfold lock_of in Hl. destruct (tl_get _ r'); [|done]. simpl.
    destruct b; [done|]. by destruct (Hb eq_refl t).
  - intros r' Hr. destruct (gi_active _ _ _ _ HI r' Hr) as [Hon Hoff]. split.
    + intros Hw. destruct (Hon Hw); [left; by apply field_effect|by right].
    + intros Hg%field_effect; [|done]. auto.
Qed.

Lemma GI_registry X s reg :
  GI X s -> reg_inv reg ->
  (forall t w th, w ∈ waiting s t -> holds (registry s) (holder t w) th -> holds reg (holder t w) th) ->
  (forall x h th r, guard_info s x = Some (h, th, r) -> holds (registry s) h th -> holds reg h th) ->
  GI X (set_registry reg s).
Proof.
  intros HI Hreg Hw Hx. constructor; try apply HI; try done.
  - intros t w Hin. destruct (gi_waits _ _ _ _ HI t w Hin) as [? ?]. split; [|done]. by apply (Hw t w).
  - intros x h th r Hi. destruct (gi_guards _ _ _ _ HI x h th r Hi) as (? & ? & ?).
    split; [|done]. by apply (Hx x h th r).
Qed.

(** ** Slots are used by their holder *)

Lemma holds_slot_inj reg h1 h2 th1 th2 :
  reg_inv reg -> holds reg h1 th1 -> holds reg h2 th2 -> thread_slot th1 = thread_slot th2 -> h1 = h2.
Proof.
  intros Hinv H1' H2' E. pose proof (holds_wf _ _ _ Hinv H1') as Hw1. pose proof (holds_wf _ _ _ Hinv H2') as Hw2.
  pose proof (thread_slot_inj _ _ Hw1 Hw2 E) as ->. by apply (ri_inj _ Hinv _ _ th2 th2).
Qed.

Lemma slot_user X s t f r :
  GI X s -> f ∈ stack (raw s) t -> uses f = Some r ->
  exists st w ws, stack (raw s) t = f :: st /\ waiting s t = w :: ws /\ r = thread_slot (w_thread w) /\
    holds (registry s) (holder t w) (w_thread w).
Proof.
  intros HI Hf Hu. destruct (sectioned_uses _ _ _ _ (gi_stacks _ _ _ _ HI t) Hf Hu) as (st & w & ws & Es & Ew & Hs).
  exists st, w, ws. split; [done|]. split; [done|]. split; [by eapply serves_slot|].
  apply (gi_waits _ _ _ _ HI). rewrite Ew. by left.
Qed.

Lemma client_unused t f st r (rs : raw_state A) : stack rs t = f :: st -> uses f = Some r -> at_client (stack rs t) <> true.
Proof. intros -> Hu. by destruct f. Qed.

Lemma slot_free_local X s t th :
  GI X s -> THREAD (registry s) !! t = Some th -> at_client (stack (raw s) t) = true ->
  slot_free (raw s) (thread_slot th).
Proof.
  intros HI Hth Hc t' f Hf Hu. destruct (slot_user _ _ _ _ _ HI Hf Hu) as (st & w & ws & Es & Ew & E & Hh).
  pose proof (holds_slot_inj _ (inl t) _ th _ (gi_reg _ _ _ _ HI) Hth Hh E) as Eh.
  assert (t' = t) as -> by (unfold holder in Eh; by repeat case_match; simplify_eq).
  by eapply client_unused.
Qed.

Lemma slot_free_owned X s g th :
  GI X s -> ThreadId.owned (registry s) !! g = Some th ->
  (forall t w, w ∈ waiting s t -> gop_guard (w_op w) = Some (OG g) -> at_client (stack (raw s) t) = true) ->
  slot_free (raw s) (thread_slot th).
Proof.
  intros HI Hth Hc t' f Hf Hu. destruct (slot_user _ _ _ _ _ HI Hf Hu) as (st & w & ws & Es & Ew & E & Hh).
  pose proof (holds_slot_inj _ (inr g) _ th _ (gi_reg _ _ _ _ HI) Hth Hh E) as Eh.
  eapply client_unused; [done..|]. apply (Hc t' w); [rewrite Ew; by left|].
  unfold holder in Eh. by repeat case_match; simplify_eq.
Qed.

(** ** Tables of guards *)

Lemma active_ok_settle s r : GI (Some r) s -> active_ok s r -> GI None s.
Proof.
  intros [] Ha. constructor; try done. intros r' _. destruct (decide (r' = r)) as [->|]; [done|].
  apply gi_active. congruence.
Qed.

(** The guard [x0] of the free slot [r] appears or disappears. *)
Lemma GI_change s s' x0 r :
  GI None s -> slot_free (raw s) r -> Inv (raw s') ->
  (forall t, stack (raw s') t = stack (raw s) t) -> (forall t, waiting s' t = waiting s t) ->
  registry s' = registry s -> (forall r', head_of (raw s') r' = head_of (raw s) r') ->
  buffers (raw s') = buffers (raw s) -> (forall r', lock_of (raw s') r' = lock_of (raw s) r') ->
  (forall x, x <> x0 -> guard_info s' x = guard_info s x) -> (forall r', has_slot s x0 r' -> r' = r) ->
  (forall h th r', guard_info s' x0 = Some (h, th, r') ->
    r' = r /\ holds (registry s) h th /\ r' = thread_slot th /\ is_Some (head_of (raw s) r')) ->
  (forall t w, w ∈ waiting s t -> absent w = true -> gop_guard (w_op w) = Some x0 -> guard_info s' x0 = None) ->
  (forall r' n, guards_of (raw s') r' = Some n -> n = count (locals s') r') ->
  Z.of_nat (size (locals s')) <= usize_max -> GI (Some r) s'.
Proof.
  intros HI Hfree HI' Es Ew Ereg EH Ebuf EL Hx Hold Hnew Hload Hcount Hfew.
  assert (forall r', guarded (raw s') r' <-> guarded (raw s) r') as Hg
    by (intros r'; unfold guarded; by rewrite EH, Ebuf).
  assert (forall x r', r' <> r -> has_slot s' x r' <-> has_slot s x r') as Hslot.
  { intros x r' Hr. destruct (decide (x = x0)) as [->|Hne]; [|unfold has_slot; by rewrite Hx].
    split; [intros (h & th & E); by destruct (Hnew _ _ _ E)|intros Hs; by destruct Hr; apply Hold]. }
  assert (forall r', r' <> r -> wants s' r' <-> wants s r') as Hw.
  { intros r' Hr. unfold wants. split; intros (x & ?); exists x; by apply Hslot. }
  constructor; try done.
  - rewrite Ereg. apply HI.
  - intros t. rewrite Es, Ew. apply HI.
  - intros t w. rewrite Ew, Ereg. apply HI.
  - intros x h th r'. rewrite Ereg, EH. destruct (decide (x = x0)) as [->|Hne].
    + intros E. by destruct (Hnew _ _ _ E) as (_ & ?).
    + rewrite Hx by done. apply HI.
  - intros t w x. rewrite Ew. destruct (decide (x = x0)) as [->|Hne]; [apply Hload|].
    rewrite Hx by done. apply HI.
  - intros t1 t2 i j w1 w2 x. rewrite !Ew. apply HI.
  - intros t r'. rewrite Ew, EL. apply HI.
  - intros t. rewrite Ew. apply HI.
  - intros t1 t2 r'. rewrite !Ew. apply HI.
  - intros r' Hr. destruct (gi_active _ _ _ _ HI r') as [Hon Hoff]; [done|]. assert (r' <> r) as Hr' by congruence.
    unfold active_ok. rewrite Hw, Hg by done. split.
    + intros Hwn. destruct (Hon Hwn) as [?|(t0 & f0 & st0 & ? & ?)]; [by left|right]. exists t0, f0, st0. by rewrite Es.
    + intros Hgd. destruct (Hoff Hgd) as [?|(t0 & st0 & ?)]; [by left|right]. exists t0, st0. by rewrite Es.
  - intros t. pose proof (gi_top _ _ _ _ HI t) as Ht. unfold top_ok in *. rewrite Es, Ew.
    destruct (stack (raw s) t) as [|f st] eqn:Hs; [done|].
    assert (forall r', uses f = Some r' -> r' <> r) as Hne.
    { intros r' Hu ->. apply (Hfree t f); [rewrite Hs; by left|done]. }
    destruct f; try done; specialize (Hne _ eq_refl).
    1,2,4: destruct Ht as (w & ws & x & ? & ? & Hsx & Hy); exists w, ws, x; (split; [done|]); (split; [done|]);
      (split; [by apply Hslot|]); intros y Hsy; by apply Hy, Hslot.
    by rewrite Hw.
Qed.

(** ** Calls of the raw collector *)

(** Handler [w] of thread [t] may call [ro] and wait. *)
Record callable X s t w (ro : op) : Prop := {
  c_client : at_client (stack (raw s) t) = true;
  c_legal : legal_op ro (raw s);
  c_serves : Forall (serves w) (call ro);
  c_holds : holds (registry s) (holder t w) (w_thread w);
  c_ok : waiter_ok w;
  c_load x : absent w = true -> gop_guard (w_op w) = Some x -> guard_info s x = None;
  c_borrow x t' w' : gop_guard (w_op w) = Some x -> w' ∈ waiting s t' -> gop_guard (w_op w') = Some x ->
    exclusive (w_op w) = false /\ exclusive (w_op w') = false;
  c_lock r : w_kont w = KUnlock r -> lock_of (raw s) r = Some true /\ forall t', r ∉ locks (waiting s t');
  c_top : match ro with
    | OpEnter r | OpRefresh r => exists x, gop_guard (w_op w) = Some x /\ sole s r x
    | OpLeave r => ~ wants s r
    | _ => True
    end;
  c_settles r : X = Some r -> ro = OpEnter r \/ ro = OpLeave r
}.

Definition pushed t w (ro : op) s : gstate :=
  set_waits (<[t := w :: waiting s t]> (waits s))
    (set_raw (goto t (call ro ++ stack (raw s) t) (raw s)) s).

Lemma waiting_pushed t w ro s t' :
  waiting (pushed t w ro s) t' = if decide (t' = t) then w :: waiting s t else waiting s t'.
Proof. apply (waiting_set t (w :: waiting s t) (set_raw _ s)). Qed.

Lemma stack_pushed t w ro s t' :
  stack (raw (pushed t w ro s)) t' = if decide (t' = t) then call ro ++ stack (raw s) t else stack (raw s) t'.
Proof. apply stack_goto. Qed.

Lemma elem_of_pushed t w ro s t' w' :
  w' ∈ waiting (pushed t w ro s) t' -> (t' = t /\ w' = w) \/ w' ∈ waiting s t'.
Proof.
  rewrite waiting_pushed. case_decide; [subst|by right].
  intros [->|?]%elem_of_cons; [by left|by right].
Qed.

Lemma elem_of_pushed_locks t w ro s t' r :
  r ∈ locks (waiting (pushed t w ro s) t') -> (t' = t /\ w_kont w = KUnlock r) \/ r ∈ locks (waiting s t').
Proof.
  intros (w' & [[-> ->]|Hw']%elem_of_pushed & Hk)%elem_of_locks; [by left|right]. apply elem_of_locks. eauto.
Qed.

(** A call moves its slot towards what the guards want. *)
Lemma pushed_active X s t w ro r :
  GI X s -> callable X s t w ro -> active_ok (pushed t w ro s) r.
Proof.
  intros HI HC. destruct (decide (Some r = X)) as [Hr|Hr].
  - destruct (c_settles _ _ _ _ _ HC r (eq_sym Hr)) as [-> | ->]; pose proof (c_top _ _ _ _ _ HC) as Ht; simpl in Ht.
    + destruct Ht as (x & _ & Hx & _). split.
      * intros _. right. exists t, (FEnter r), (FRet RUnit :: stack (raw s) t).
        rewrite stack_pushed, decide_True by done. eauto.
      * intros _. left. by exists x.
    + split; [done|]. intros _. right. exists t, (FRet RUnit :: stack (raw s) t).
      by rewrite stack_pushed, decide_True.
  - destruct (gi_active _ _ _ _ HI r Hr) as [Hon Hoff]. pose proof (c_client _ _ _ _ _ HC) as Hc. split.
    + intros Hw. destruct (Hon Hw) as [Hg|(t0 & f0 & st0 & Hs0 & Hf0)]; [by left|right]. exists t0, f0, st0.
      rewrite stack_pushed. rewrite decide_False; [done|]. intros ->. rewrite Hs0 in Hc.
      by destruct Hf0 as [->|[o ->]].
    + intros Hg. destruct (Hoff Hg) as [Hw|(t0 & st0 & Hs0)]; [by left|right]. exists t0, st0.
      rewrite stack_pushed. rewrite decide_False; [done|]. intros ->. by rewrite Hs0 in Hc.
Qed.

Lemma pushed_top X s t w ro t' : GI X s -> callable X s t w ro -> top_ok (pushed t w ro s) t'.
Proof.
  intros HI HC. destruct (decide (t' = t)) as [->|Ht].
  - unfold top_ok. rewrite stack_pushed, waiting_pushed, !decide_True by done.
    pose proof (c_top _ _ _ _ _ HC) as Hx. destruct ro; simpl in *; try done;
      destruct Hx as (x & ? & ?); exists w, (waiting s t), x; done.
  - apply (top_ok_same s); try done; [by rewrite stack_pushed, decide_False|by rewrite waiting_pushed, decide_False|apply HI].
Qed.

Lemma pushed_lookup t w ro s t' i w' :
  waiting (pushed t w ro s) t' !! i = Some w' ->
  (t' = t /\ i = 0%nat /\ w' = w) \/
  exists j, waiting s t' !! j = Some w' /\ i = if decide (t' = t) then S j else j.
Proof.
  rewrite waiting_pushed. case_decide; [subst|by right; exists i].
  destruct i as [|i]; simpl; [intros [= <-]; by left|right; by exists i].
Qed.

Lemma pushed_borrow X s t w ro t1 t2 i j w1 w2 x :
  GI X s -> callable X s t w ro -> waiting (pushed t w ro s) t1 !! i = Some w1 ->
  waiting (pushed t w ro s) t2 !! j = Some w2 -> exclusive (w_op w1) = true ->
  gop_guard (w_op w1) = Some x -> gop_guard (w_op w2) = Some x -> t1 = t2 /\ i = j.
Proof.
  intros HI HC H1' H2' He Hx1 Hx2.
  destruct (pushed_lookup _ _ _ _ _ _ _ H1') as [(-> & -> & ->)|(i' & Hi & ->)];
    destruct (pushed_lookup _ _ _ _ _ _ _ H2') as [(-> & -> & ->)|(j' & Hj & ->)]; [done|..].
  - apply list_elem_of_lookup_2 in Hj. destruct (c_borrow _ _ _ _ _ HC x t2 w2); congruence.
  - apply list_elem_of_lookup_2 in Hi. destruct (c_borrow _ _ _ _ _ HC x t1 w1); congruence.
  - by destruct (gi_borrow _ _ _ _ HI _ _ _ _ _ _ _ Hi Hj He Hx1 Hx2) as [<- <-].
Qed.

Lemma legal_concurrent ro (rs : raw_state A) : legal_op ro rs -> ro <> OpReclaimAll.
Proof. by intros Hl ->. Qed.

Lemma GI_push X s t w ro : GI X s -> callable X s t w ro -> GI None (pushed t w ro s).
Proof.
  intros HI HC. constructor; try apply HI.
  - apply Inv_call; [apply HI|apply HC].
  - intros t'. rewrite stack_pushed, waiting_pushed. case_decide; [|apply HI].
    constructor; [eapply section_call, legal_concurrent, HC|apply HC|apply HC|apply HI].
  - intros t' w' [[-> ->]|Hw]%elem_of_pushed; [split; apply HC|by apply (gi_waits _ _ _ _ HI)].
  - intros t' w' x [[-> ->]|Hw]%elem_of_pushed; [apply HC|by apply (gi_load _ _ _ _ HI t')].
  - intros t1 t2 i j w1 w2 x H1' H2' He Hx1 Hx2. by eapply pushed_borrow.
  - intros t' r [[-> Hk]|Hr]%elem_of_pushed_locks; [by apply (c_lock _ _ _ _ _ HC)|by apply (gi_lock _ _ _ _ HI t')].
  - intros t'. rewrite waiting_pushed. case_decide; [|apply HI]. unfold locks; simpl.
    pose proof (gi_nodup _ _ _ _ HI t) as Hn. destruct (w_kont w) eqn:Hk; try done.
    constructor; [|done]. by apply (c_lock _ _ _ _ _ HC).
  - intros t1 t2 r [[-> Hk1]|H1']%elem_of_pushed_locks [[-> Hk2]|H2']%elem_of_pushed_locks; [done|..].
    + by destruct (proj2 (c_lock _ _ _ _ _ HC r Hk1) t2).
    + by destruct (proj2 (c_lock _ _ _ _ _ HC r Hk2) t1).
    + by apply (gi_excl _ _ _ _ HI t1 t2 r).
  - intros r _. by eapply pushed_active.
  - intros t'. by eapply pushed_top.
Qed.

End GuardPreserve.
