(* ===== verification/GuardHandle.v ===== *)
(** * The handlers of the guards

    Every handler, from the call of a client or from the return of the raw
    collector, keeps the invariant and calls the raw collector within its
    contract. *)

From stdpp Require Import prelude list gmap.
From S2P Require Import Prelude Alloc ThreadId Membarrier Tls RawData RawStep RawExec RawGhost RawInv RawPreserve RawProtect RawEffect Guard GuardInv GuardPreserve.

Open Scope Z_scope.

Section GuardHandle.
Context {A : Type} `{Allocator A} `{BoxVec A} `{!BoxVecLaws A}.
Context `{EntryLayout Reservation} `{EntryLayout LocalBatch}.
Variables (plat : Platform) (batch_size : Z).

Abbreviation gstate := (guard_state A).
Abbreviation Inv := (Inv plat batch_size).
Abbreviation GI := (GI plat batch_size).
Abbreviation callable := (callable (A:=A)).
Abbreviation steps := (steps plat batch_size).
Implicit Types (s : gstate) (r : slot) (t g : nat) (x : gref) (w : waiter) (X : option slot).

(** What a handler hands to the machine: a return in order, or a call it may
    make; writes to reservations on the way are steps of the raw collector. *)
Definition good t o s (h : option (gstate * action)) : Prop :=
  forall s1 a, h = Some (s1, a) -> steps (raw s) [] (raw s1) /\
    match a with
    | AReturn _ => GI None s1
    | ACall ro k th => exists X, GI X s1 /\ callable X s1 t (mkWaiter o k th) ro
    end.

Lemma good_return t o s (r : gret) : GI None s -> good t o s (Some (s, AReturn r)).
Proof. intros HI s1 a [= <- <-]. split; [constructor|done]. Qed.

Lemma good_call t o s ro k th X : GI X s -> callable X s t (mkWaiter o k th) ro -> good t o s (Some (s, ACall ro k th)).
Proof. intros HI HC s1 a [= <- <-]. split; [constructor|by exists X]. Qed.

(** A prefix of the handler that the raw collector sees as silent. *)
Lemma good_after t o s s0 h : steps (raw s) [] (raw s0) -> good t o s0 h -> good t o s h.
Proof.
  intros Hst Hg s1 a E. destruct (Hg s1 a E) as [Hst' ?]. split; [|done].
  by apply (steps_trans _ _ _ [] _ [] _ Hst).
Qed.

Lemma good_bind {B} t o s (m : option B) k : (forall y, m = Some y -> good t o s (k y)) -> good t o s (m ≫= k).
Proof. destruct m as [y|]; simpl; [by intros Hk; apply Hk|by intros _ ? ? [=]]. Qed.

(** ** Borrowing *)

Lemma may_borrow_exclusive s x o t w :
  may_borrow s x o -> exclusive o = true -> w ∈ waiting s t -> gop_guard (w_op w) = Some x -> False.
Proof. intros Hb He Hw Hx. destruct (Hb (w_op w)) as [? _]; [by exists t, w|congruence]. Qed.

(** A shared call on an owned guard whose lock is free finds no other. *)
Lemma may_borrow_locked s g o t w th r :
  GI None s -> may_borrow s (OG g) o -> exclusive o = false -> ThreadId.owned (registry s) !! g = Some th ->
  r = thread_slot th -> lock_of (raw s) r = Some false -> w ∈ waiting s t -> gop_guard (w_op w) = Some (OG g) -> False.
Proof.
  intros HI Hb He Hth -> Hl Hw Hx. destruct (Hb (w_op w)) as [_ He']; [by exists t, w|].
  destruct (gi_waits _ _ _ _ HI t w Hw) as [Hh Hok]. unfold waiter_ok in Hok.
  destruct (w_kont w) as [|r| | |[|]|] eqn:Ek; try (by destruct Hok as (? & E); rewrite E in *);
    try (by destruct Hok as (? & ? & E); rewrite E in *); try (by rewrite Hok in *).
  - specialize (Hok _ Hx). by destruct (w_op w).
  - destruct Hok as (-> & _ & _). unfold holder in Hh. rewrite Hx in Hh. simpl in Hh.
    rewrite Hth in Hh. injection Hh as ->. assert (lock_of (raw s) (thread_slot (w_thread w)) = Some true) as E; [|congruence].
    apply (gi_lock _ _ _ _ HI t), elem_of_locks. eauto.
Qed.

(** ** Calls on a thread's own slot *)

Lemma local_wf s t th : GI None s -> THREAD (registry s) !! t = Some th -> thread_wf th.
Proof. intros HI Hth. by apply (holds_wf (registry s) (inl t) th), Hth; apply HI. Qed.

(** The operations that take a thread. *)
Definition thread_op (ro : op) (th : Thread) : Prop :=
  match ro with OpAdd _ _ th' | OpReserve th' | OpFlush th' => th' = th | _ => False end.

Lemma callable_thread s t o th ro k :
  GI None s -> at_client (stack (raw s) t) = true -> slot_free (raw s) (thread_slot th) ->
  holds (registry s) (holder t (mkWaiter o k th)) th -> waiter_ok (mkWaiter o k th) -> k = KReturn \/ k = KUnlock (thread_slot th) ->
  thread_op ro th -> (forall x, gop_guard o = Some x -> may_borrow s x o) ->
  (forall r, k = KUnlock r -> lock_of (raw s) r = Some true /\ forall t', r ∉ locks (waiting s t')) ->
  callable None s t (mkWaiter o k th) ro.
Proof.
  intros HI Hc Hfree Hh Hok Hk Hro Hb Hl. pose proof (holds_wf _ _ _ (gi_reg _ _ _ _ HI) Hh) as Hwf.
  constructor; try done.
  - destruct ro; try done; simpl in Hro; subst; by split.
  - destruct ro; try done; simpl in Hro; subst; repeat constructor; by destruct Hk as [-> | ->].
  - intros x Hload. by destruct Hk as [-> | ->].
  - intros x t' w' Hx Hw' Hx'. apply (Hb x Hx). by exists t', w'.
  - by destruct ro.
Qed.

Lemma good_current t o s f :
  GI None s ->
  (forall th reg, GI None (set_registry reg s) -> THREAD reg !! t = Some th -> good t o (set_registry reg s) (f th (set_registry reg s))) ->
  good t o s (with_current t s f).
Proof.
  intros HI Hf. unfold with_current. destruct (Thread_current t (registry s)) as [oc reg] eqn:E.
  destruct (Thread_current_inv _ _ _ _ (gi_reg _ _ _ _ HI) E) as [Hreg Hth].
  assert (GI None (set_registry reg s)) as HI'.
  { apply GI_registry; try done; intros; by eapply (Thread_current_holds t (registry s)); try done; apply HI. }
  destruct oc as [th|].
  - apply (good_after _ _ _ (set_registry reg s)); [constructor|]. by apply Hf; [|apply Hth].
  - apply (good_after _ _ _ (set_registry reg s)); [constructor|]. by apply good_return.
Qed.

(** ** Guards come and go *)

Definition with_guards (r : slot) (n : Z) s : gstate := set_raw (store_field (set_guards n) r (raw s)) s.

Lemma guards_step s r n s1 : raw_write plat batch_size (LGuards r n) s = Some s1 ->
  s1 = with_guards r n s /\ steps (raw s) [] (raw s1).
Proof. intros [= <-]. split; [done|]. by apply (steps_one _ _ (LGuards r n)). Qed.

Lemma count_size ls r : 0 <= count ls r <= Z.of_nat (size ls).
Proof. unfold count. split; [lia|]. apply inj_le, map_subseteq_size, map_filter_subseteq. Qed.

Lemma guards_head (rs : raw_state A) r n : guards_of rs r = Some n -> is_Some (head_of rs r).
Proof. unfold guards_of, head_of. destruct (tl_get _ r); [by eexists|done]. Qed.

(** The counter after a guard of slot [r] came or went. *)
Lemma counts_ok s r n n' ls :
  GI None s -> guards_of (raw s) r = Some n -> count ls r = n' ->
  (forall r', r' <> r -> count ls r' = count (locals s) r') ->
  forall r' m, guards_of (raw (with_guards r n' s)) r' = Some m -> m = count ls r'.
Proof.
  intros HI Hn Hr Hne r' m. unfold with_guards. simpl. rewrite guards_of_field. case_decide as E.
  - subst r'. unfold guards_of in Hn. destruct (tl_get _ r); [|done]. by intros [= <-].
  - intros Hm. rewrite Hne by congruence. by apply (gi_count _ _ _ _ HI).
Qed.

Lemma GI_insert_local s t g th n :
  GI None s -> THREAD (registry s) !! t = Some th -> at_client (stack (raw s) t) = true ->
  guards_of (raw s) (thread_slot th) = Some n -> locals s !! g = None -> Z.of_nat (size (locals s)) < usize_max ->
  (forall t' w, w ∈ waiting s t' -> gop_guard (w_op w) = Some (LG g) -> False) ->
  GI (Some (thread_slot th)) (set_locals (<[g := mkLocalGuard t th (thread_slot th)]> (locals s))
    (with_guards (thread_slot th) (wadd n 1) s)).
Proof.
  intros HI Hth Hc Hn Hg Hsz Hnl. set (r := thread_slot th) in *.
  pose proof (gi_count _ _ _ _ HI _ _ Hn) as En. pose proof (count_size (locals s) r).
  rewrite (wadd_id n 1) by usize.
  apply (GI_change _ _ s _ (LG g) r); try done.
  - by eapply slot_free_local.
  - apply Inv_field; [done|apply HI].
  - intros r'. by apply head_of_field.
  - intros r'. simpl. rewrite lock_of_field. case_decide; [subst|done]. unfold lock_of. by destruct (tl_get _ _).
  - intros [g'|g'] Hx; [|done]. simpl. rewrite lookup_insert_ne; [done|congruence].
  - intros r' (h & th' & E). simpl in E. by rewrite Hg in E.
  - intros h th' r'. simpl. rewrite lookup_insert_eq. intros [= <- <- <-].
    split; [done|]. split; [done|]. split; [done|]. by eapply guards_head.
  - intros t' w Hw Hl Hx. by destruct (Hnl t' w).
  - apply (counts_ok s r n); try done.
    + cbn [locals set_locals]. rewrite count_insert by done. rewrite decide_True by done. lia.
    + intros r' Hr'. cbn [locals set_locals]. rewrite count_insert by done. rewrite decide_False; [lia|]. simpl. congruence.
  - simpl. rewrite map_size_insert_None by done. lia.
Qed.

Lemma GI_delete_local s t g lg n :
  GI None s -> locals s !! g = Some lg -> l_os lg = t -> at_client (stack (raw s) t) = true ->
  guards_of (raw s) (l_reservation lg) = Some n ->
  1 <= n /\ GI (Some (l_reservation lg)) (set_locals (delete g (locals s)) (with_guards (l_reservation lg) (wsub n 1) s)).
Proof.
  intros HI Hg <- Hc Hn. destruct (gi_guards _ _ _ _ HI (LG g) (inl (l_os lg)) (l_thread lg) (l_reservation lg)) as (Hh & Er & Hhd).
  { simpl. by rewrite Hg. }
  pose proof (gi_count _ _ _ _ HI _ _ Hn) as En. pose proof (count_size (locals s) (l_reservation lg)).
  pose proof (gi_few _ _ _ _ HI). pose proof (count_pos _ _ _ _ Hg eq_refl).
  split; [lia|]. rewrite (wsub_id n 1) by usize.
  apply (GI_change _ _ s _ (LG g) (l_reservation lg)); try done.
  - rewrite Er. by eapply slot_free_local.
  - apply Inv_field; [done|apply HI].
  - intros r'. by apply head_of_field.
  - intros r'. simpl. rewrite lock_of_field. case_decide; [subst|done]. unfold lock_of. by destruct (tl_get _ _).
  - intros [g'|g'] Hx; [|done]. simpl. rewrite lookup_delete_ne; [done|congruence].
  - intros r' (h & th' & E). simpl in E. rewrite Hg in E. by injection E as _ _ <-.
  - intros h th' r'. simpl. by rewrite lookup_delete_eq.
  - intros t' w _ _ _. simpl. by rewrite lookup_delete_eq.
  - apply (counts_ok s (l_reservation lg) n); try done.
    + cbn [locals set_locals]. erewrite count_delete by done. rewrite decide_True by done. lia.
    + intros r' Hr'. cbn [locals set_locals]. erewrite count_delete by done. rewrite decide_False; [lia|congruence].
  - simpl. rewrite map_size_delete_Some by eauto. lia.
Qed.

Lemma GI_insert_owned s g th :
  GI None s -> ThreadId.owned (registry s) !! g = Some th -> slot_free (raw s) (thread_slot th) ->
  is_Some (head_of (raw s) (thread_slot th)) -> owneds s !! g = None ->
  (forall t' w, w ∈ waiting s t' -> gop_guard (w_op w) = Some (OG g) -> False) ->
  GI (Some (thread_slot th)) (set_owneds (<[g := mkOwnedGuard th (thread_slot th)]> (owneds s)) s).
Proof.
  intros HI Hth Hfree Hhd Hg Hnl. apply (GI_change _ _ s _ (OG g)); try done; try apply HI.
  - intros [g'|g'] Hx; [done|]. simpl. rewrite lookup_insert_ne; [done|congruence].
  - intros r' (h & th' & E). simpl in E. by rewrite Hg in E.
  - intros h th' r'. simpl. rewrite lookup_insert_eq. by intros [= <- <- <-].
  - intros t' w Hw Hl Hx. by destruct (Hnl t' w).
Qed.

Lemma GI_delete_owned s g og :
  GI None s -> owneds s !! g = Some og -> slot_free (raw s) (o_reservation og) ->
  GI (Some (o_reservation og)) (set_owneds (delete g (owneds s)) s).
Proof.
  intros HI Hg Hfree. apply (GI_change _ _ s _ (OG g)); try done; try apply HI.
  - intros [g'|g'] Hx; [done|]. simpl. rewrite lookup_delete_ne; [done|congruence].
  - intros r' (h & th' & E). simpl in E. rewrite Hg in E. by injection E as _ _ <-.
  - intros h th' r'. simpl. by rewrite lookup_delete_eq.
  - intros t' w _ _ _. simpl. by rewrite lookup_delete_eq.
Qed.

(** ** Entering and leaving *)

Lemma unguarded_idle (rs : raw_state A) r :
  is_Some (head_of rs r) -> ~ guarded rs r -> head_of rs r = Some INACTIVE /\ buffers rs !! r = None.
Proof.
  intros [hd Hhd] Hg. assert (hd = INACTIVE) as ->.
  { destruct (decide (hd = INACTIVE)) as [|Hn]; [done|]. destruct Hg. exists hd. auto. }
  split; [done|]. destruct (buffers rs !! r) as [t|] eqn:E; [|done]. destruct Hg. exists INACTIVE. rewrite E. eauto.
Qed.

(** Nobody is entering or leaving a free slot. *)
Lemma free_not_entering s r : slot_free (raw s) r -> ~ entering s r.
Proof.
  intros Hf (t & f & st & Hs & Hf'). apply (Hf t f); [rewrite Hs; by left|]. by destruct Hf' as [->|[o ->]].
Qed.

Lemma free_not_leaving s r : slot_free (raw s) r -> ~ leaving s r.
Proof. intros Hf (t & st & Hs). apply (Hf t (FLeave r)); [rewrite Hs; by left|done]. Qed.

(** So its activity is settled. *)
Lemma free_settled s r : GI None s -> slot_free (raw s) r -> guarded (raw s) r <-> wants s r.
Proof.
  intros HI Hf. destruct (gi_active _ _ _ _ HI r) as [Hon Hoff]; [done|]. split.
  - intros Hg. destruct (Hoff Hg); [done|]. by destruct (free_not_leaving s r Hf).
  - intros Hw. destruct (Hon Hw); [done|]. by destruct (free_not_entering s r Hf).
Qed.

Lemma callable_enter X s t x o th :
  GI X s -> X = None \/ X = Some (thread_slot th) -> at_client (stack (raw s) t) = true ->
  slot_free (raw s) (thread_slot th) -> is_Some (head_of (raw s) (thread_slot th)) -> ~ guarded (raw s) (thread_slot th) ->
  gop_guard o = Some x -> sole s (thread_slot th) x -> holds (registry s) (holder t (mkWaiter o (KEntered x) th)) th ->
  waiter_ok (mkWaiter o (KEntered x) th) ->
  (forall t' w', w' ∈ waiting s t' -> gop_guard (w_op w') = Some x -> False) ->
  callable X s t (mkWaiter o (KEntered x) th) (OpEnter (thread_slot th)).
Proof.
  intros HI HX Hc Hfree Hhd Hg Hx Hsole Hh Hok Hn. destruct (unguarded_idle _ _ Hhd Hg) as [Hi Hb].
  constructor; try done.
  - apply Forall_cons_2; [|by repeat constructor]. split; [by exists x|done].
  - intros y t' w' Hy Hw' Hy'. simpl in Hy. rewrite Hx in Hy. injection Hy as <-. by destruct (Hn t' w').
  - by exists x.
  - intros r ->. left. destruct HX as [|[= ->]]; [done|done].
Qed.

(** [leave] and [refresh] are called by exclusive operations, on an active slot. *)
Lemma callable_exit X s t x o th k ro :
  GI X s -> (exists s0, GI None s0 /\ may_borrow s0 x o /\ (forall t', waiting s t' = waiting s0 t')) ->
  at_client (stack (raw s) t) = true -> slot_free (raw s) (thread_slot th) -> is_Some (head_of (raw s) (thread_slot th)) ->
  gop_guard o = Some x -> holds (registry s) (holder t (mkWaiter o k th)) th ->
  waiter_ok (mkWaiter o k th) -> k = KReturn \/ (k = KOwnedFree /\ guard_info s x = None) ->
  (ro = OpLeave (thread_slot th) /\ (X = None \/ X = Some (thread_slot th)) /\ ~ wants s (thread_slot th) /\
     (exists mem, o = GDrop mem x)) \/
  (ro = OpRefresh (thread_slot th) /\ X = None /\ sole s (thread_slot th) x /\ o = GRefresh x) ->
  callable X s t (mkWaiter o k th) ro.
Proof.
  intros HI (s0 & HI0 & Hb & Ew) Hc Hfree Hhd Hx Hh Hok Hk Hro.
  assert (exclusive o = true) as He by (destruct Hro as [(_ & _ & _ & mem & ->)|(_ & _ & _ & ->)]; done).
  assert (working (mkWaiter o k th) = true) as Hwk by (by destruct Hk as [-> |[-> _]]).
  pose proof (working_loading _ Hwk) as Hl. constructor; try done.
  - destruct Hro as [(-> & _)|(-> & _)]; done.
  - destruct Hro as [(-> & _ & _ & mem & ->)|(-> & _ & _ & ->)];
      (apply Forall_cons_2; [|by repeat constructor]); simpl; eauto.
  - intros y Ha Hy. simpl in Hy. rewrite Hx in Hy. injection Hy as <-. by destruct Hk as [-> |[_ ?]].
  - intros y t' w' Hy Hw' Hy'. simpl in Hy. rewrite Hx in Hy. injection Hy as <-. rewrite Ew in Hw'.
    by destruct (may_borrow_exclusive _ _ _ _ _ Hb He Hw' Hy').
  - intros r E. simpl in E. by destruct Hk as [-> |[-> _]].
  - destruct Hro as [(-> & _ & ? & _)|(-> & _ & ? & _)]; [done|by exists x].
  - intros r ->. destruct Hro as [(-> & [|[= ->]] & _)|(_ & ? & _)]; [done|by right|done].
Qed.

End GuardHandle.
