(* ===== verification/GuardOps.v ===== *)
(** * The operations of clients keep the contract

    Each handler of [Guard.handle] and [Guard.resume], from a state in order and
    a call within the contract of clients. *)

From stdpp Require Import prelude list gmap.
From S2P Require Import Prelude Alloc ThreadId Membarrier Tls RawData RawStep RawExec RawGhost RawInv RawPreserve RawProtect RawEffect Guard GuardInv GuardPreserve GuardHandle.

Open Scope Z_scope.

Section GuardOps.
Context {A : Type} `{Allocator A} `{BoxVec A} `{!BoxVecLaws A}.
Context `{EntryLayout Reservation} `{EntryLayout LocalBatch}.
Variables (plat : Platform) (batch_size : Z).

Abbreviation gstate := (guard_state A).
Abbreviation GI := (GI plat batch_size).
Abbreviation steps := (steps plat batch_size).
Abbreviation good := (good plat batch_size).
Implicit Types (s : gstate) (r : slot) (t g : nat) (x : gref) (w : waiter) (X : option slot).

(** ** Guards of a slot *)

Lemma local_info X s g lg : GI X s -> locals s !! g = Some lg ->
  THREAD (registry s) !! l_os lg = Some (l_thread lg) /\ l_reservation lg = thread_slot (l_thread lg) /\
  is_Some (head_of (raw s) (l_reservation lg)).
Proof.
  intros HI Hg. apply (gi_guards _ _ _ _ HI (LG g) (inl (l_os lg))). simpl. by rewrite Hg.
Qed.

Lemma owned_info X s g og : GI X s -> owneds s !! g = Some og ->
  ThreadId.owned (registry s) !! g = Some (o_thread og) /\ o_reservation og = thread_slot (o_thread og) /\
  is_Some (head_of (raw s) (o_reservation og)).
Proof.
  intros HI Hg. apply (gi_guards _ _ _ _ HI (OG g) (inr g)). simpl. by rewrite Hg.
Qed.

Lemma has_slot_holder X s y h th : GI X s -> holds (registry s) h th -> has_slot s y (thread_slot th) ->
  exists th', guard_info s y = Some (h, th', thread_slot th).
Proof.
  intros HI Hh (h' & th' & E). destruct (gi_guards _ _ _ _ HI _ _ _ _ E) as (Hh' & Er & _).
  exists th'. by rewrite (holds_slot_inj _ h h' th th' (gi_reg _ _ _ _ HI) Hh Hh' Er).
Qed.

Lemma has_slot_local X s y t th : GI X s -> THREAD (registry s) !! t = Some th -> has_slot s y (thread_slot th) ->
  exists g lg, y = LG g /\ locals s !! g = Some lg /\ l_os lg = t /\ l_reservation lg = thread_slot th.
Proof.
  intros HI Hth Hs. destruct (has_slot_holder X s y (inl t) th HI Hth Hs) as (th' & E).
  destruct y as [g|g]; simpl in E.
  - destruct (locals s !! g) as [lg|] eqn:Eg; [|done]. injection E as E1 _ E2. by exists g, lg.
  - by destruct (owneds s !! g).
Qed.

Lemma has_slot_owned X s y g th : GI X s -> ThreadId.owned (registry s) !! g = Some th ->
  has_slot s y (thread_slot th) -> y = OG g.
Proof.
  intros HI Hth Hs. destruct (has_slot_holder X s y (inr g) th HI Hth Hs) as (th' & E).
  destruct y as [g'|g']; simpl in E; [by destruct (locals s !! g')|]. destruct (owneds s !! g'); [|done]. by injection E as -> _ _.
Qed.

Lemma sole_local X s g lg : GI X s -> locals s !! g = Some lg -> count (locals s) (l_reservation lg) = 1 ->
  sole s (l_reservation lg) (LG g).
Proof.
  intros HI Hg Hc. destruct (local_info _ _ _ _ HI Hg) as (Hth & Er & _). split.
  - exists (inl (l_os lg)), (l_thread lg). simpl. by rewrite Hg.
  - intros y Hy. rewrite Er in Hy. destruct (has_slot_local _ _ _ _ _ HI Hth Hy) as (g' & lg' & -> & Hg' & _ & Er').
    f_equal. rewrite <-Er in Er'. by eapply count_1.
Qed.

Lemma sole_owned X s g og : GI X s -> owneds s !! g = Some og -> sole s (o_reservation og) (OG g).
Proof.
  intros HI Hg. destruct (owned_info _ _ _ _ HI Hg) as (Hth & Er & _). split.
  - exists (inr g), (o_thread og). simpl. by rewrite Hg.
  - intros y Hy. rewrite Er in Hy. by eapply has_slot_owned.
Qed.

Lemma no_locals_unwanted X s t th : GI X s -> THREAD (registry s) !! t = Some th ->
  count (locals s) (thread_slot th) = 0 -> ~ wants s (thread_slot th).
Proof.
  intros HI Hth Hc (y & Hy). destruct (has_slot_local _ _ _ _ _ HI Hth Hy) as (g & lg & _ & Hg & _ & Er).
  pose proof (count_pos _ _ _ _ Hg Er). lia.
Qed.

(** ** Shared operations *)

Lemma good_local_op t o s g lg ro :
  GI None s -> at_client (stack (raw s) t) = true -> gop_guard o = Some (LG g) -> exclusive o = false ->
  locals s !! g = Some lg -> l_os lg = t -> may_borrow s (LG g) o -> thread_op ro (l_thread lg) ->
  good t o s (Some (s, ACall ro KReturn (l_thread lg))).
Proof.
  intros HI Hc Ho He Hg <- Hb Hro. destruct (local_info _ _ _ _ HI Hg) as (Hth & Er & _).
  apply (good_call _ _ _ _ _ _ _ _ None HI). apply (callable_thread _ _ _ _ _ _ _ _ HI Hc); try done.
  - by eapply slot_free_local.
  - unfold holder; simpl. by rewrite Ho.
  - unfold waiter_ok; simpl. rewrite Ho. intros y [= <-]. by destruct o.
  - by left.
  - rewrite Ho. by intros y [= <-].
Qed.

Lemma good_owned_op t o s g og ro :
  GI None s -> gop_guard o = Some (OG g) -> exclusive o = false -> at_client (stack (raw s) t) = true ->
  owneds s !! g = Some og -> may_borrow s (OG g) o -> thread_op ro (o_thread og) ->
  good t o s (with_lock plat batch_size og ro s).
Proof.
  intros HI Ho He Hc Hg Hb Hro. destruct (owned_info _ _ _ _ HI Hg) as (Hth & Er & _).
  unfold with_lock. apply good_bind. intros s1. unfold raw_write; simpl.
  destruct (lock_of (raw s) (o_reservation og)) as [[]|] eqn:El; simpl; try done. intros [= <-].
  apply (good_after _ _ _ _ _ (set_raw (store_field (set_lock true) (o_reservation og) (raw s)) s)).
  { apply (steps_one _ _ (LLock (o_reservation og))); simpl; [done|by rewrite El]. }
  assert (forall t' w, w ∈ waiting s t' -> gop_guard (w_op w) = Some (OG g) -> False) as Hno.
  { intros t' w Hw Hx. by eapply (may_borrow_locked plat batch_size). }
  assert (forall t', o_reservation og ∉ locks (waiting s t')) as Hnl.
  { intros t' Hin. pose proof (gi_lock _ _ _ _ HI _ _ Hin). congruence. }
  assert (slot_free (raw s) (o_reservation og)) as Hfree.
  { rewrite Er. eapply slot_free_owned; [done..|]. intros t' w Hw Hx. by destruct (Hno t' w). }
  pose proof (GI_write _ _ None s true (o_reservation og) HI ltac:(done)) as HI1.
  apply (good_call _ _ _ _ _ _ _ _ None HI1). rewrite Er in *. apply (callable_thread plat batch_size); try done.
  - unfold holder; simpl. by rewrite Ho.
  - unfold waiter_ok; simpl. eauto.
  - by right.
  - rewrite Ho. by intros y [= <-].
  - intros r [= <-]. split; [|done]. simpl. rewrite lock_of_field, decide_True by done.
    unfold lock_of in El. by destruct (tl_get _ _).
Qed.

(** ** Exclusive operations *)

Lemma good_local_refresh t s g lg :
  GI None s -> at_client (stack (raw s) t) = true -> locals s !! g = Some lg -> l_os lg = t ->
  may_borrow s (LG g) (GRefresh (LG g)) -> good t (GRefresh (LG g)) s (LocalGuard_refresh lg s).
Proof.
  intros HI Hc Hg <- Hb. destruct (local_info _ _ _ _ HI Hg) as (Hth & Er & Hhd).
  unfold LocalGuard_refresh. apply good_bind. intros n Hn. case_decide as E; [|by apply good_return]. subst n.
  pose proof (gi_count _ _ _ _ HI _ _ Hn) as Ec. pose proof (sole_local _ _ _ _ HI Hg (eq_sym Ec)) as Hs.
  apply (good_call _ _ _ _ _ _ _ _ None HI). rewrite Er in *.
  apply (callable_exit plat batch_size _ _ _ (LG g)); try done;
    [by exists s|by eapply slot_free_local|by intros y [= <-]|by left|by right].
Qed.

Lemma good_owned_refresh t s g og :
  GI None s -> at_client (stack (raw s) t) = true -> owneds s !! g = Some og ->
  may_borrow s (OG g) (GRefresh (OG g)) ->
  good t (GRefresh (OG g)) s (Some (s, ACall (OpRefresh (o_reservation og)) KReturn (o_thread og))).
Proof.
  intros HI Hc Hg Hb. destruct (owned_info _ _ _ _ HI Hg) as (Hth & Er & Hhd).
  pose proof (sole_owned _ _ _ _ HI Hg) as Hs. apply (good_call _ _ _ _ _ _ _ _ None HI). rewrite Er in *.
  apply (callable_exit plat batch_size _ _ _ (OG g)); try done;
    [by exists s| |by intros y [= <-]|by left|by right].
  eapply slot_free_owned; [done..|]. intros t' w Hw Hx. by destruct (may_borrow_exclusive _ _ _ _ _ Hb eq_refl Hw Hx).
Qed.

Lemma good_local_drop mem t s g lg :
  GI None s -> at_client (stack (raw s) t) = true -> locals s !! g = Some lg -> l_os lg = t ->
  may_borrow s (LG g) (GDrop mem (LG g)) -> good t (GDrop mem (LG g)) s (LocalGuard_drop plat batch_size g lg s).
Proof.
  intros HI Hc Hg Ht Hb. destruct (local_info _ _ _ _ HI Hg) as (Hth & Er & Hhd).
  unfold LocalGuard_drop. apply good_bind. intros n Hn. apply good_bind. intros s1 Hs1.
  apply guards_step in Hs1 as [-> Hst]. cbv zeta. eapply good_after; [exact Hst|].
  destruct (GI_delete_local _ _ _ _ _ _ _ HI Hg Ht Hc Hn) as [Hpos HI1]. cbn [locals with_guards set_raw].
  set (s2 := set_locals _ _) in *. pose proof (gi_count _ _ _ _ HI _ _ Hn) as Ec.
  rewrite Ht in Hth. pose proof (slot_free_local _ _ _ _ _ _ HI Hth Hc) as Hfree. rewrite <-Er in Hfree.
  assert (count (locals s2) (l_reservation lg) = n - 1) as Ec2.
  { unfold s2; simpl. erewrite count_delete by done. rewrite decide_True by done. lia. }
  assert (forall r', guarded (raw s2) r' <-> guarded (raw s) r') as Hgd by (intros; by apply field_effect).
  apply (good_after _ _ _ _ _ s2); [constructor|]. case_decide as E.
  - subst n. apply (good_call _ _ _ _ _ _ _ _ _ HI1). rewrite Er in *.
    apply (callable_exit plat batch_size _ _ _ (LG g)); try done; [by exists s| |by intros y [= <-]|by left|].
    + simpl. by rewrite head_of_field.
    + left. split; [done|]. split; [by right|]. split; [|by exists mem].
      apply (no_locals_unwanted _ s2 t _ HI1 Hth). lia.
  - apply good_return, (active_ok_settle _ _ _ _ HI1).
    assert (wants s2 (l_reservation lg)) as Hw2.
    { destruct (count_witness (locals s2) (l_reservation lg)) as (g' & lg' & Hg' & Er'); [lia|].
      exists (LG g'), (inl (l_os lg')), (l_thread lg'). simpl in *. by rewrite Hg', <-Er'. }
    split; [intros _; left; apply Hgd|by left]. apply (free_settled _ _ _ _ HI Hfree).
    exists (LG g), (inl (l_os lg)), (l_thread lg). simpl. by rewrite Hg.
Qed.

(** An exclusive call finds no other call on its guard. *)
Lemma owned_exclusive_free s g o th :
  GI None s -> ThreadId.owned (registry s) !! g = Some th -> may_borrow s (OG g) o -> exclusive o = true ->
  slot_free (raw s) (thread_slot th).
Proof.
  intros HI Hth Hb He. eapply slot_free_owned; [done..|]. intros t' w Hw Hx.
  by destruct (may_borrow_exclusive _ _ _ _ _ Hb He Hw Hx).
Qed.

Lemma good_owned_drop mem t s g og :
  GI None s -> at_client (stack (raw s) t) = true -> owneds s !! g = Some og ->
  may_borrow s (OG g) (GDrop mem (OG g)) -> good t (GDrop mem (OG g)) s (OwnedGuard_drop g og s).
Proof.
  intros HI Hc Hg Hb. destruct (owned_info _ _ _ _ HI Hg) as (Hth & Er & Hhd).
  pose proof (owned_exclusive_free _ _ _ _ HI Hth Hb eq_refl) as Hfree. rewrite <-Er in Hfree.
  pose proof (GI_delete_owned _ _ _ _ _ HI Hg Hfree) as HI1. unfold OwnedGuard_drop. cbv zeta.
  set (s1 := set_owneds _ _) in *. apply (good_after _ _ _ _ _ s1); [constructor|].
  apply (good_call _ _ _ _ _ _ _ _ _ HI1). rewrite Er in *.
  apply (callable_exit plat batch_size _ _ _ (OG g)); try done; [by exists s|by exists mem, g|right; split; [done|simpl; by rewrite lookup_delete_eq]|].
  left. split; [done|]. split; [by right|]. split; [|by exists mem].
  intros (y & Hy). pose proof (has_slot_owned _ s1 y g _ HI1 Hth Hy) as ->.
  destruct Hy as (h & th & E). simpl in E. by rewrite lookup_delete_eq in E.
Qed.

(** ** Constructors *)

(** The call of [reservation]. *)
Lemma callable_reservation s t o x k th :
  GI None s -> at_client (stack (raw s) t) = true -> slot_free (raw s) (thread_slot th) ->
  gop_guard o = Some x -> may_borrow s x o -> exclusive o = true -> guard_info s x = None ->
  holds (registry s) (holder t (mkWaiter o k th)) th -> waiter_ok (mkWaiter o k th) ->
  loading (mkWaiter o k th) = true -> callable None s t (mkWaiter o k th) (OpReservation th).
Proof.
  intros HI Hc Hfree Hx Hb He Hn Hh Hok Hl. constructor; try done.
  - split; [|done]. by apply (holds_wf (registry s) _ _ (gi_reg _ _ _ _ HI) Hh).
  - by repeat constructor.
  - intros y _ Hy. simpl in Hy. rewrite Hx in Hy. by injection Hy as <-.
  - intros y t' w' Hy Hw' Hy'. simpl in Hy. rewrite Hx in Hy. injection Hy as <-.
    by destruct (may_borrow_exclusive _ _ _ _ _ Hb He Hw' Hy').
  - intros r E. unfold loading in Hl. simpl in *. by rewrite E in Hl.
Qed.

Lemma good_enter t s g :
  GI None s -> at_client (stack (raw s) t) = true -> glegal t (CEnter g) s -> good t (CEnter g) s (LocalGuard_enter t s).
Proof.
  intros HI Hc [Hg Hb]. unfold LocalGuard_enter. apply good_current; [done|]. intros th reg HI' Hth.
  apply (good_call _ _ _ _ _ _ _ _ None HI'). apply (callable_reservation _ _ _ (LG g)); try done.
  - by apply (slot_free_local plat batch_size None (set_registry reg s) t).
  - simpl. by rewrite Hg.
  - by exists g.
Qed.

Lemma good_enter_owned t s mem g :
  GI None s -> at_client (stack (raw s) t) = true -> glegal t (CEnterOwned mem g) s ->
  good t (CEnterOwned mem g) s (OwnedGuard_enter g s).
Proof.
  intros HI Hc (Hg & Ho & Hb). unfold OwnedGuard_enter.
  destruct (owned_create g (registry s)) as [oc reg] eqn:E.
  destruct (owned_create_inv _ _ _ _ (gi_reg _ _ _ _ HI) Ho E) as [Hreg Hth].
  assert (GI None (set_registry reg s)) as HI'.
  { apply GI_registry; try done; intros; by eapply (owned_create_holds g (registry s)); try done; apply HI. }
  destruct oc as [th|]; (eapply (good_after _ _ _ _ _ (set_registry reg s)); [constructor|]); [|by apply good_return].
  specialize (Hth th eq_refl). apply (good_call _ _ _ _ _ _ _ _ None HI').
  apply (callable_reservation _ _ _ (OG g)); try done.
  - by apply (owned_exclusive_free (set_registry reg s) g (CEnterOwned mem g)).
  - simpl. by rewrite Hg.
  - by exists mem, g.
Qed.

Lemma good_exit t s mem :
  GI None s -> at_client (stack (raw s) t) = true -> glegal t (TExit mem) s ->
  good t (TExit mem) s (thread_exit mem t s).
Proof.
  intros HI Hc (Hw & Hl). unfold thread_exit. destruct (ThreadGuard_drop mem t (registry s)) as [oc reg] eqn:E.
  pose proof (ThreadGuard_drop_inv _ _ _ _ _ (gi_reg _ _ _ _ HI) E) as Hreg.
  assert (GI None (set_registry reg s)) as HI'.
  { apply GI_registry; try done.
    - intros t' w th Hin. apply (ThreadGuard_drop_holds _ _ _ _ _ _ _ E). intros Eh.
      unfold holder in Eh. assert (t' = t) as -> by (by repeat case_match; simplify_eq).
      rewrite Hw in Hin. by apply elem_of_nil in Hin.
    - intros x h th r Hx. apply (ThreadGuard_drop_holds _ _ _ _ _ _ _ E). intros ->.
      destruct x as [g|g]; simpl in Hx; [|by destruct (owneds s !! g)].
      destruct (locals s !! g) as [lg|] eqn:Eg; [|done]. injection Hx as Ho _ _. by apply (Hl g lg). }
  destruct oc; (eapply (good_after _ _ _ _ _ (set_registry reg s)); [constructor|]); by apply good_return.
Qed.

(** ** Every call *)

Lemma good_on_guard t o s x (m : forall G, Guard (A:=A) G -> G -> gstate -> option (gstate * action)) :
  (forall g lg, x = LG g -> locals s !! g = Some lg -> good t o s (m LocalGuard _ lg s)) ->
  (forall g og, x = OG g -> owneds s !! g = Some og -> good t o s (m OwnedGuard (OwnedGuard_Guard plat batch_size) og s)) ->
  good t o s (on_guard plat batch_size x s m).
Proof.
  intros HL HO. destruct x as [g|g]; simpl; apply good_bind; intros self Hg; [by apply (HL g)|by apply (HO g)].
Qed.

Lemma can_name_os t s g lg : can_name t s (LG g) -> locals s !! g = Some lg -> l_os lg = t.
Proof. intros (lg' & E & <-) Hg. congruence. Qed.

Lemma handle_good t o s :
  GI None s -> at_client (stack (raw s) t) = true -> glegal t o s ->
  good t o s (handle plat batch_size t o s).
Proof.
  intros HI Hc Hl. destruct o as [g|mem g|p f| |x|x|x|x p f|x|mem x|mem]; simpl.
  - by apply good_enter.
  - by eapply good_enter_owned.
  - apply good_current; [done|]. intros th reg HI' Hth. apply (good_call _ _ _ _ _ _ _ _ None HI').
    apply (callable_thread plat batch_size); try done; [by eapply slot_free_local|by left].
  - apply good_current; [done|]. intros th reg HI' Hth. apply (good_call _ _ _ _ _ _ _ _ None HI').
    apply (callable_thread plat batch_size); try done; [by eapply slot_free_local|by left].
  - destruct Hl as [Hn Hb]. apply good_on_guard.
    + intros g lg -> Hg. apply good_local_refresh; try done. by eapply can_name_os.
    + intros g og -> Hg. by apply good_owned_refresh.
  - destruct Hl as [Hn Hb]. apply good_on_guard.
    + intros g lg -> Hg. eapply good_local_op; try done. by eapply can_name_os.
    + intros g og -> Hg. by eapply good_owned_op.
  - destruct Hl as [Hn Hb]. apply good_on_guard.
    + intros g lg -> Hg. eapply good_local_op; try done. by eapply can_name_os.
    + intros g og -> Hg. by eapply good_owned_op.
  - destruct Hl as [Hn Hb]. apply good_on_guard.
    + intros g lg -> Hg. eapply good_local_op; try done. by eapply can_name_os.
    + intros g og -> Hg. by eapply good_owned_op.
  - destruct Hl as [Hn Hb]. apply good_on_guard.
    + intros g lg -> Hg. by apply good_return.
    + intros g og -> Hg. unfold OwnedGuard_thread_id. apply good_current; [done|]. intros th reg HI' Hth. by apply good_return.
  - destruct Hl as [Hn Hb]. destruct x as [g|g]; apply good_bind; intros self Hg.
    + apply good_local_drop; try done. by eapply can_name_os.
    + by apply good_owned_drop.
  - by apply good_exit.
Qed.

End GuardOps.
