(* ===== verification/GuardRefine.v ===== *)
(** * Guards refine the contract of the raw collector

    Resumed handlers, whole steps and runs of the machine of guards: every step
    that clients may take keeps the invariant, and what the raw collector sees
    of it are steps within its contract. *)

From stdpp Require Import prelude list gmap.
From S2P Require Import Prelude Alloc ThreadId Membarrier Tls RawData RawStep RawExec RawGhost RawInv RawPreserve RawProtect RawEffect Guard GuardInv GuardPreserve GuardHandle GuardOps.

Open Scope Z_scope.

Section GuardRefine.
Context {A : Type} `{Allocator A} `{BoxVec A} `{!BoxVecLaws A}.
Context `{EntryLayout Reservation} `{EntryLayout LocalBatch}.
Variables (plat : Platform) (batch_size : Z).

Abbreviation gstate := (guard_state A).
Abbreviation GI := (GI plat batch_size).
Abbreviation steps := (steps plat batch_size).
Abbreviation good := (good plat batch_size).
Abbreviation gstep := (gstep plat batch_size).
Abbreviation gsteps := (gsteps plat batch_size).
Implicit Types (s : gstate) (r : slot) (t g : nat) (x : gref) (w : waiter) (X : option slot).

(** ** Returns of the raw collector *)

(** Handler [w] is resumed with [v] on thread [t]. *)
Record resumable s t w (v : ret) : Prop := {
  rs_client : at_client (stack (raw s) t) = true;
  rs_holds : holds (registry s) (holder t w) (w_thread w);
  rs_ok : waiter_ok w;
  rs_serves : serves w (FRet v);
  rs_load x : absent w = true -> gop_guard (w_op w) = Some x -> guard_info s x = None;
  rs_alone x t' w' : exclusive (w_op w) = true -> gop_guard (w_op w) = Some x ->
    w' ∈ waiting s t' -> gop_guard (w_op w') = Some x -> False;
  rs_unlock r t' : w_kont w = KUnlock r -> r ∉ locks (waiting s t');
  rs_present r : v = RReservation r -> is_Some (head_of (raw s) r)
}.

Lemma pop_resumable s t v st w ws :
  GI None s -> stack (raw s) t = FRet v :: st -> waiting s t = w :: ws -> resumable (popped t st ws s) t w v.
Proof.
  intros HI Hs Hw. pose proof (gi_stacks _ _ _ _ HI t) as Hsec. rewrite Hs in Hsec.
  destruct (sectioned_inv _ _ _ Hsec) as (w0 & ws0 & gs & rest & Ew & -> & Hgs & HF & Hc & _).
  rewrite Hw in Ew. injection Ew as <- <-. pose proof (section_ret_inv _ _ Hgs) as ->.
  assert (w ∈ waiting s t) as Hin by (rewrite Hw; by left).
  destruct (gi_waits _ _ _ _ HI t w Hin) as [Hh Hok]. constructor; try done.
  - by rewrite stack_popped, decide_True.
  - by apply Forall_cons in HF as [? _].
  - intros x. by apply (gi_load _ _ _ _ HI t).
  - intros x t' w' He Hx [i Hi]%list_elem_of_lookup Hx'. apply (popped_lookup _ _ _ _ _ _ _ _ Hw) in Hi.
    assert (waiting s t !! 0%nat = Some w) as H0' by (by rewrite Hw).
    destruct (gi_borrow _ _ _ _ HI _ _ _ _ _ _ _ H0' Hi He Hx Hx') as [-> E]. by rewrite decide_True in E.
  - intros r t' Hk Hr. pose proof (popped_locks _ _ _ _ _ _ Hw _ Hr) as Hr'.
    assert (r ∈ locks (waiting s t)) as Hrw by (apply elem_of_locks; eauto).
    pose proof (gi_excl _ _ _ _ HI _ _ _ Hrw Hr') as <-. pose proof (gi_nodup _ _ _ _ HI t) as Hn.
    rewrite waiting_popped, decide_True in Hr by done. rewrite Hw in Hn. unfold locks in *. simpl in Hn.
    rewrite Hk in Hn. by apply NoDup_cons in Hn as [? _].
  - intros r ->. change (is_Some (head_of (raw s) r)).
    apply (Inv_top _ _ _ _ _ _ (gi_raw _ _ _ _ HI) Hs).
Qed.

Lemma good_owned_free mem t o s g (r : ret) :
  GI None s -> (forall t' w, w ∈ waiting s t' -> gop_guard (w_op w) = Some (OG g) -> False) ->
  owneds s !! g = None -> good t o s (OwnedGuard_free mem g r s).
Proof.
  intros HI Hn Hg. unfold OwnedGuard_free. destruct (owned_free mem g (registry s)) as [oc reg] eqn:E.
  pose proof (owned_free_inv _ _ _ _ _ (gi_reg _ _ _ _ HI) E) as Hreg.
  assert (GI None (set_registry reg s)) as HI'.
  { apply GI_registry; try done.
    - intros t' w th Hin. apply (owned_free_holds _ _ _ _ _ _ _ E). intros Eh. apply (Hn t' w Hin).
      unfold holder in Eh. by repeat case_match; simplify_eq.
    - intros x h th r' Hx. apply (owned_free_holds _ _ _ _ _ _ _ E). intros ->.
      destruct x as [g'|g']; simpl in Hx; [by destruct (locals s !! g')|].
      destruct (owneds s !! g') eqn:Eg; [|done]. injection Hx as -> _ _. congruence. }
  destruct oc; (eapply (good_after _ _ _ _ _ (set_registry reg s)); [constructor|]); by apply good_return.
Qed.

Lemma good_local_entered t s w v g :
  GI None s -> resumable s t w v -> Z.of_nat (size (locals s)) < usize_max -> w_op w = CEnter g ->
  w_kont w = KLocalEnter -> good t (w_op w) s (LocalGuard_entered plat batch_size t g (w_thread w) v s).
Proof.
  intros HI HR Hsz Ho Hk. pose proof (rs_serves _ _ _ _ HR) as Hv. pose proof (rs_holds _ _ _ _ HR) as Hth.
  unfold holder in Hth. rewrite Ho in Hth. simpl in Hth. unfold LocalGuard_entered.
  destruct v as [| | |r]; try by apply good_return. destruct Hv as [Hl ->].
  apply good_bind. intros n Hn. apply good_bind. intros s1 Hs1.
  apply guards_step in Hs1 as [-> Hst]. eapply good_after; [exact Hst|]. cbv zeta. cbn [locals with_guards set_raw].
  pose proof (rs_client _ _ _ _ HR) as Hc. pose proof (slot_free_local _ _ _ _ _ _ HI Hth Hc) as Hfree.
  assert (gop_guard (w_op w) = Some (LG g)) as Hx by (by rewrite Ho).
  assert (forall t' w', w' ∈ waiting s t' -> gop_guard (w_op w') = Some (LG g) -> False) as Halone.
  { intros t' w'. apply (rs_alone _ _ _ _ HR); [by rewrite Ho|done]. }
  assert (locals s !! g = None) as Hg.
  { pose proof (rs_load _ _ _ _ HR _ (loading_absent _ Hl) Hx) as E. simpl in E. by destruct (locals s !! g). }
  pose proof (GI_insert_local _ _ _ _ _ _ _ HI Hth Hc Hn Hg Hsz Halone) as HI1.
  set (s2 := set_locals _ _) in *. pose proof (gi_count _ _ _ _ HI _ _ Hn) as Ec.
  apply (good_after _ _ _ _ _ s2); [constructor|].
  assert (locals s2 !! g = Some (mkLocalGuard t (w_thread w) (thread_slot (w_thread w)))) as Hg2 by (simpl; by rewrite lookup_insert_eq).
  assert (forall r', guarded (raw s2) r' <-> guarded (raw s) r') as Hgd by (intros; by apply field_effect).
  case_decide as E.
  - subst n. apply (good_call _ _ _ _ _ _ _ _ _ HI1).
    assert (~ guarded (raw s) (thread_slot (w_thread w))) as Hng.
    { rewrite (free_settled _ _ _ _ HI Hfree). by apply (no_locals_unwanted plat batch_size None s t). }
    apply (callable_enter plat batch_size _ _ _ (LG g)); try done; [by right|simpl| | |].
    + rewrite head_of_field by done. by apply (rs_present _ _ _ _ HR).
    + by rewrite Hgd.
    + apply (sole_local plat batch_size _ s2 g _ HI1 Hg2). simpl. rewrite count_insert by done.
      rewrite decide_True by done. lia.
    + simpl. unfold holder; simpl. by rewrite Ho.
  - apply good_return, (active_ok_settle _ _ _ _ HI1).
    split; intros _; [left; apply Hgd, (free_settled _ _ _ _ HI Hfree)|left].
    + destruct (count_witness (locals s) (thread_slot (w_thread w))) as (g' & lg' & Hg' & Er'); [lia|].
      exists (LG g'), (inl (l_os lg')), (l_thread lg'). simpl. by rewrite Hg', <-Er'.
    + exists (LG g), (inl t), (w_thread w). cbn [guard_info]. by rewrite Hg2.
Qed.

Lemma good_owned_entered t s w v mem g :
  GI None s -> resumable s t w v -> w_op w = CEnterOwned mem g ->
  w_kont w = KOwnedEnter -> good t (w_op w) s (OwnedGuard_entered mem g (w_thread w) v s).
Proof.
  intros HI HR Ho Hk. pose proof (rs_serves _ _ _ _ HR) as Hv. pose proof (rs_holds _ _ _ _ HR) as Hth.
  unfold holder in Hth. rewrite Ho in Hth. simpl in Hth. unfold OwnedGuard_entered.
  assert (gop_guard (w_op w) = Some (OG g)) as Hx by (by rewrite Ho).
  assert (forall t' w', w' ∈ waiting s t' -> gop_guard (w_op w') = Some (OG g) -> False) as Halone.
  { intros t' w'. apply (rs_alone _ _ _ _ HR); [by rewrite Ho|done]. }
  assert (owneds s !! g = None) as Hg.
  { pose proof (rs_load _ _ _ _ HR (OG g)) as E. unfold absent in E. rewrite Hk in E. specialize (E eq_refl Hx).
    simpl in E. by destruct (owneds s !! g). }
  destruct v as [| | |r]; try by apply good_owned_free. destruct Hv as [Hl ->]. cbv zeta.
  assert (slot_free (raw s) (thread_slot (w_thread w))) as Hfree.
  { eapply slot_free_owned; [done..|]. intros t' w' Hw' Hx'. by destruct (Halone t' w'). }
  pose proof (GI_insert_owned _ _ _ _ _ HI Hth Hfree (rs_present _ _ _ _ HR _ eq_refl) Hg Halone) as HI1.
  set (s2 := set_owneds _ _) in *. apply (good_after _ _ _ _ _ s2); [constructor|].
  apply (good_call _ _ _ _ _ _ _ _ _ HI1).
  assert (owneds s2 !! g = Some (mkOwnedGuard (w_thread w) (thread_slot (w_thread w)))) as Hg2 by (simpl; by rewrite lookup_insert_eq).
  apply (callable_enter plat batch_size _ _ _ (OG g)); try done; [by right|apply HR|by apply (rs_present _ _ _ _ HR)| | | |by exists mem].
  - change (~ guarded (raw s) (thread_slot (w_thread w))). rewrite (free_settled _ _ _ _ HI Hfree).
    intros (y & Hy). pose proof (has_slot_owned plat batch_size None s y g _ HI Hth Hy) as ->.
    destruct Hy as (h & th & E). simpl in E. by rewrite Hg in E.
  - apply (sole_owned plat batch_size _ s2 g _ HI1 Hg2).
  - simpl. unfold holder; simpl. by rewrite Ho.
Qed.

Lemma resume_good t s w v :
  GI None s -> resumable s t w v -> Z.of_nat (size (locals s)) < usize_max ->
  good t (w_op w) s (resume plat batch_size t w v s).
Proof.
  intros HI HR Hsz. pose proof (rs_ok _ _ _ _ HR) as Hok. unfold resume, waiter_ok in *.
  destruct (w_kont w) as [|r| | |x|] eqn:Hk; try by apply good_return.
  - apply good_bind. intros s1 [= <-].
    apply (good_after _ _ _ _ _ (set_raw (store_field (set_lock false) r (raw s)) s)); [by apply (steps_one _ _ (LUnlock r))|].
    apply good_return, GI_write; [done|].
    intros _ t'. by apply (rs_unlock _ _ _ _ HR).
  - destruct Hok as [g Ho]. rewrite Ho at 2. by apply good_local_entered.
  - destruct Hok as (mem & g & Ho). rewrite Ho at 2. by apply good_owned_entered.
  - destruct Hok as (mem & g & Ho). rewrite Ho at 2.
    assert (gop_guard (w_op w) = Some (OG g)) as Hx by (by rewrite Ho).
    apply good_owned_free; [done| |].
    + intros t' w'. apply (rs_alone _ _ _ _ HR); [by rewrite Ho|done].
    + pose proof (rs_load _ _ _ _ HR (OG g)) as E. unfold absent in E. rewrite Hk in E. specialize (E eq_refl Hx).
      simpl in E. by destruct (owneds s !! g).
Qed.

(** ** Steps and runs *)

Lemma raw_events_app tr1 tr2 : raw_events (tr1 ++ tr2) = raw_events tr1 ++ raw_events tr2.
Proof. apply omap_app. Qed.

Lemma raw_events_map (ev : list event) : raw_events (map GRaw ev) = ev.
Proof. induction ev as [|e ev IH]; [done|]. simpl. by f_equal. Qed.

(** A handler's step, and what the raw collector saw of it. *)
Definition refined s ev s' : Prop := GI None s' /\ steps (raw s) (raw_events ev) (raw s').

Lemma perform_good t o s h s' ev :
  good t o s h -> perform plat batch_size t o h = Some (s', ev) -> refined s ev s'.
Proof.
  intros Hg. unfold perform. destruct h as [[s1 [v|ro k th]]|]; [|cbn [step]|done].
  - intros [= <- <-]. by destruct (Hg _ _ eq_refl).
  - destruct (Hg _ _ eq_refl) as (Hst & X & HI & HC). rewrite (c_client _ _ _ _ _ HC). intros [= <- <-].
    split; [by apply (GI_push _ _ X)|]. apply (steps_trans _ _ _ [] _ [] _ Hst).
    apply (steps_one _ _ (LCall t ro)); [apply HC|]. simpl. by rewrite (c_client _ _ _ _ _ HC).
Qed.

(** A frame of the raw collector, by [LRun] or [LSpurious]. *)
Lemma run_good sp t f st s rs ev :
  GI None s -> stack (raw s) t = f :: st -> is_ret f = false -> Inv plat batch_size rs ->
  run_frame plat batch_size sp t f st (raw s) = Some (rs, ev) ->
  returned ev = None /\ GI None (set_raw rs s).
Proof.
  intros HI Hs Hr HI' E. pose proof (gi_stacks _ _ _ _ HI t) as Hsec. rewrite Hs in Hsec.
  destruct (sectioned_inv _ _ _ Hsec) as (w & ws & gs & rest & _ & _ & _ & HF & _).
  apply Forall_cons in HF as [Hc%serves_concurrent _].
  destruct (run_frame_stack plat batch_size sp t f st (raw s) Hc _ _ E) as (fs & s1 & -> & Hth & Hrep & Hfol & Hret & _).
  pose proof (run_frame_effect _ _ _ _ _ _ _ _ _ (gi_raw _ _ _ _ HI) Hs Hc E) as Heff.
  split.
  - destruct f; try done; destruct ev as [|[t' x| | | |] [|]]; try done; by destruct (Hret t' x); left.
  - apply (GI_run _ _ _ _ _ f); try done. intros r ->. exists (light_store plat (strategy (raw s))).
    apply (f_equal (from_option (fun y => stack y.1 t) [])) in E. simpl in E. rewrite !stack_goto, !decide_True in E by done.
    symmetry in E. by apply (app_inv_tail st fs [_]) in E.
Qed.

(** A reclaimer returns. *)
Lemma return_good t p f st s rs :
  GI None s -> stack (raw s) t = FReclaim p f :: st -> Inv plat batch_size rs -> rs = goto t st (raw s) ->
  GI None (set_raw rs s).
Proof.
  intros HI Hs HI' ->. apply (GI_run _ _ _ _ _ (FReclaim p f) st [] (raw s)); try done.
  by apply effect_same.
Qed.

(** The steps of the raw collector that no handler waits for. *)
Lemma raw_label_legal l rl (rs : raw_state A) : raw_label l = Some rl -> legal rl rs.
Proof. by destruct l; intros [= <-]. Qed.

Lemma raw_good l rl s rs ev :
  GI None s -> raw_label l = Some rl -> step plat batch_size rl (raw s) = Some (rs, ev) ->
  (exists t v st, stack (raw s) t = FRet v :: st /\ rs = goto t st (raw s) /\ ev = [EvRet t v] /\ l = GRun t) \/
  (returned ev = None /\ GI None (set_raw rs s)).
Proof.
  intros HI Hl Hst. pose proof (raw_label_legal l rl (raw s) ltac:(done)) as Hlegal.
  pose proof (Inv_step _ _ _ _ _ _ (gi_raw _ _ _ _ HI) Hlegal Hst) as HI'.
  destruct l as [t o|t|t|t|r|sys x86|o]; simpl in Hl; simplify_eq; simpl in Hst.
  - destruct (stack (raw s) t) as [|f st] eqn:Hs; [done|]. destruct (is_ret f) eqn:Hr.
    + left. destruct f as [| | | | | | | | | | | | | | | | | | |v]; try done. injection Hst as <- <-. by exists t, v, st.
    + right. by eapply run_good.
  - destruct (stack (raw s) t) as [|f st] eqn:Hs; [done|]. right.
    destruct f; try done. by eapply run_good.
  - destruct (stack (raw s) t) as [|f st] eqn:Hs; [done|]. right. destruct f; try done.
    injection Hst as <- <-. split; [done|]. by eapply return_good.
  - injection Hst as <- <-. right. split; [done|]. by apply GI_quiet, quiet_drain.
  - injection Hst as <- <-. right. split; [done|]. by apply GI_quiet, quiet_same.
Qed.

Lemma gstep_raw l rl s s' ev : raw_label l = Some rl -> gstep l s = Some (s', ev) ->
  exists rs ev0, step plat batch_size rl (raw s) = Some (rs, ev0) /\
    match returned ev0 with
    | None => s' = set_raw rs s /\ ev = map GRaw ev0
    | Some (t, v) => exists w ws ev', waiting s t = w :: ws /\ ev = map GRaw ev0 ++ ev' /\
        perform plat batch_size t (w_op w) (resume plat batch_size t w v
          (set_waits (<[t := ws]> (waits s)) (set_raw rs s))) = Some (s', ev')
    end.
Proof.
  intros Hl Hst. assert ((let s0 := s in '(r, ev) ← step plat batch_size rl (raw s);
    let s := set_raw r s in
    match returned ev with
    | None => Some (s, map GRaw ev)
    | Some (t, v) =>
        match waiting s0 t with
        | [] => None
        | w :: ws =>
            let s := set_waits (<[t := ws]> (waits s)) s in
            '(s, ev') ← perform plat batch_size t (w_op w) (resume plat batch_size t w v s); Some (s, (map GRaw ev) ++ ev')
        end
    end) = Some (s', ev)) as E by (by destruct l; simpl in Hl; simplify_eq).
  cbv zeta in E. apply bind_Some in E as ([rs ev0] & Est & E). exists rs, ev0. split; [done|].
  destruct (returned ev0) as [[t v]|]; [|by injection E as <- <-].
  destruct (waiting s t) as [|w ws]; [done|]. apply bind_Some in E as ([s2 ev'] & Ep & [= <- <-]). by exists w, ws, ev'.
Qed.

(** Another collector uses the registry: nobody here loses its thread ID. *)
Lemma foreign_holds o s h th :
  GI None s -> foreign o s ->
  (forall mem g, o = ROwnedDrop mem g -> h <> inr g) ->
  holds (registry s) h th -> holds (reg_step o (registry s)) h th.
Proof.
  intros HI Hf Hn Hh. pose proof (gi_reg _ _ _ _ HI) as Hreg. destruct o as [t|mem t|g|mem g]; simpl; [|done| |].
  - destruct (Thread_current t (registry s)) as [oc reg] eqn:E. by apply (Thread_current_holds t (registry s) oc reg).
  - destruct Hf as (_ & Ho & _). rewrite decide_False by (rewrite Ho; by intros [? ?]).
    destruct (owned_create g (registry s)) as [oc reg] eqn:E. by apply (owned_create_holds g (registry s) oc reg).
  - destruct (owned_free mem g (registry s)) as [oc reg] eqn:E. apply (owned_free_holds mem g (registry s) oc reg); auto.
    by eapply Hn.
Qed.

Lemma foreign_waiter o s t w :
  foreign o s -> w ∈ waiting s t -> forall mem g, o = ROwnedDrop mem g -> holder t w <> inr g.
Proof.
  intros Hf Hw mem g -> E. destruct Hf as [_ Hb]. unfold holder in E.
  apply (may_borrow_exclusive s (OG g) (CEnterOwned mem g) t w Hb); try done. by repeat case_match; simplify_eq.
Qed.

Lemma foreign_guard o s x h th r :
  foreign o s -> guard_info s x = Some (h, th, r) -> forall mem g, o = ROwnedDrop mem g -> h <> inr g.
Proof.
  intros Hf Hx mem g -> ->. destruct Hf as [Hg _]. destruct x as [g'|g']; simpl in Hx; [by destruct (locals s !! g')|].
  destruct (owneds s !! g') eqn:E; [|done]. injection Hx as <- _ _. by rewrite Hg in E.
Qed.

Lemma GI_foreign o s : GI None s -> foreign o s -> GI None (set_registry (reg_step o (registry s)) s).
Proof.
  intros HI Hf. apply GI_registry; [done|by apply reg_step_inv, HI| |].
  - intros t w th Hw. apply foreign_holds; [done|done|]. by apply (foreign_waiter o s t w).
  - intros x h th r Hx. apply foreign_holds; [done|done|]. by apply (foreign_guard o s x h th r).
Qed.

Lemma gstep_good l s s' ev :
  GI None s -> glegal_label l s -> gstep l s = Some (s', ev) -> refined s ev s'.
Proof.
  intros HI [Hl Hsz] Hst. destruct (raw_label l) as [rl|] eqn:Erl.
  - destruct (gstep_raw _ _ _ _ _ Erl Hst) as (rs & ev0 & E & Hr).
    assert (steps (raw s) ev0 rs) as Hone by (eapply steps_one; [by eapply raw_label_legal|done]).
    destruct (raw_good l rl s rs ev0 HI Erl E) as [(t & v & st & Hs & -> & -> & _)|[Hn HI']].
    + destruct Hr as (w & ws & ev' & Hw & -> & Ep). change (set_waits _ _) with (popped t st ws s) in Ep.
      apply (perform_good _ _ (popped t st ws s)) in Ep as [HI' Hst'].
      * split; [done|]. rewrite raw_events_app, raw_events_map. by apply (steps_trans _ _ _ _ _ _ _ Hone).
      * apply resume_good; [by eapply GI_pop|by eapply pop_resumable|done].
    + rewrite Hn in Hr. destruct Hr as [-> ->]. split; [done|]. by rewrite raw_events_map.
  - destruct l as [t o|t|t|t|r|sys x86|o]; try done; simpl in Hst.
    2: { injection Hst as <- <-. split; [by apply GI_foreign|constructor]. }
    destruct (at_client _) eqn:Hc; [|done].
    apply bind_Some in Hst as ([s1 ev1] & Ep & [= <- <-]).
    by apply (perform_good _ _ _ _ _ _ (handle_good _ _ t o s HI Hc Hl)) in Ep.
Qed.

Lemma gsteps_good s tr s' : GI None s -> gsteps s tr s' -> refined s tr s'.
Proof.
  intros HI Hst. revert HI. induction Hst as [s|s1 l s2 ev tr s3 Hl Hs Hst IH]; intros HI; [by split; [|constructor]|].
  destruct (gstep_good _ _ _ _ HI Hl Hs) as [HI2 H12]. destruct (IH HI2) as [HI3 H23].
  split; [done|]. rewrite raw_events_app. by eapply steps_trans.
Qed.

Lemma GI_new strat cap (a0 a : A) (r0 : raw_state A) :
  strategy_ok strat -> in_usize cap -> in_usize batch_size ->
  collector_new strat cap a0 = Ret (a, Ok r0) -> GI None (gstate_new r0).
Proof.
  intros Hs Hc Hb E. assert ((forall r, guards_of r0 r = None) /\ (forall r, head_of r0 r = None) /\
    threads r0 = ∅ /\ buffers r0 = ∅) as (Hg & Hh & Ht & Hbf).
  { unfold collector_new in E. destruct (with_capacity_in cap a0) as [[a1 [res|]]|] eqn:E1; simpl in E; [|done..].
    destruct (with_capacity_in cap a1) as [[a2 [bat|]]|] eqn:E2; simpl in E; [| |done]; [|by destruct (tls_drop _ _)].
    injection E as <- <-. destruct Hc as [Hc _]. destruct (with_capacity_in_fresh _ _ _ _ Hc E1) as [_ Hg].
    split; [intros r; unfold guards_of; simpl; by rewrite Hg|].
    split; [intros r; unfold head_of; simpl; by rewrite Hg|]. done. }
  assert (forall t, stack r0 t = []) as Es by (intros t; unfold stack; by rewrite Ht, lookup_empty).
  assert (forall t, waiting (gstate_new r0) t = []) as Ew by done.
  constructor; try done.
  - by apply (Inv_new _ _ strat cap a0 a).
  - apply reg_inv_init.
  - intros t. simpl. rewrite Es. constructor.
  - by intros t w ?%elem_of_nil.
  - by intros [g|g] h th r.
  - by intros t w x ?%elem_of_nil.
  - intros r n. simpl. by rewrite Hg.
  - by intros t r ?%elem_of_nil.
  - constructor.
  - by intros t1 t2 r ?%elem_of_nil.
  - intros r _. split.
    + by intros ([g|g] & h & th & [=]).
    + intros (hd & Hhd & _). simpl in Hhd. by rewrite Hh in Hhd.
  - intros t. unfold top_ok. simpl. by rewrite Es.
Qed.

Lemma GI_greachable s : greachable plat batch_size s -> GI None s.
Proof.
  intros (strat & cap & a0 & a & r0 & tr & Hs & Hc & Hb & E & Hst).
  apply (gsteps_good (gstate_new r0) tr); [by apply (GI_new strat cap a0 a)|done].
Qed.

End GuardRefine.
