(* ===== verification/GuardSafe.v ===== *)
(** * What guards give to their clients

    A guard that is alive keeps its slot active, so it protects every object
    that was not yet taken out of a batch; the counters and locks of the
    reservations are what the guards make of them. *)

From stdpp Require Import prelude list gmap.
From S2P Require Import Prelude Alloc ThreadId Membarrier Tls RawData RawStep RawExec RawGhost RawInv RawPreserve RawProtect RawEffect Guard GuardInv GuardPreserve GuardHandle GuardOps GuardRefine.

Open Scope Z_scope.

(** Locks are taken at most once by a thread. *)
Lemma locks_lookup_inj ws i j w1 w2 r : NoDup (locks ws) -> ws !! i = Some w1 -> ws !! j = Some w2 ->
  w_kont w1 = KUnlock r -> w_kont w2 = KUnlock r -> i = j.
Proof.
  revert i j. induction ws as [|w ws IH]; intros i j Hn H1' H2' E1 E2; [done|].
  unfold locks in *. simpl in Hn.
  assert (forall k u, ws !! k = Some u -> w_kont u = KUnlock r -> w_kont w = KUnlock r -> False) as Hc.
  { intros k u Hk Hu Hw. rewrite Hw in Hn. apply NoDup_cons in Hn as [Hn _]. apply Hn, elem_of_locks.
    exists u. split; [by eapply list_elem_of_lookup_2|done]. }
  destruct i as [|i], j as [|j]; simplify_eq/=; [done|by destruct (Hc j w2)|by destruct (Hc i w1)|].
  f_equal. apply IH; try done. destruct (w_kont w); try done. by apply NoDup_cons in Hn as [_ ?].
Qed.

Section GuardSafe.
Context {A : Type} `{Allocator A} `{BoxVec A} `{!BoxVecLaws A}.
Context `{EntryLayout Reservation} `{EntryLayout LocalBatch}.
Variables (plat : Platform) (batch_size : Z).

Abbreviation gstate := (guard_state A).
Abbreviation GI := (GI plat batch_size).
Abbreviation steps := (steps plat batch_size).
Abbreviation gstep := (gstep plat batch_size).
Abbreviation gsteps := (gsteps plat batch_size).
Abbreviation handle := (handle plat batch_size).
Abbreviation resume := (resume plat batch_size).
Abbreviation perform := (perform plat batch_size).
Implicit Types (s : gstate) (r : slot) (t g : nat) (x : gref) (w : waiter) (X : option slot).

(** Guard [x] exists, and no call that needs it for itself is in progress. *)
Definition alive s x : Prop :=
  is_Some (guard_info s x) /\
  forall t w, w ∈ waiting s t -> gop_guard (w_op w) = Some x -> exclusive (w_op w) = false.

(** Operations that end the protection of guard [x]. *)
Definition gives_up x (o : gop) : Prop := o = GRefresh x \/ exists mem, o = GDrop mem x.

(** ** What handlers leave alone *)

(** A handler changes no wait and no stack, and of the guards only its own. *)
Definition frames x o s (h : option (gstate * action)) : Prop :=
  forall s1 a, h = Some (s1, a) -> waits s1 = waits s /\ threads (raw s1) = threads (raw s) /\
    (guard_info s1 x = guard_info s x \/ (gop_guard o = Some x /\ exclusive o = true)).

Lemma frames_return x o s s1 a : waits s1 = waits s -> threads (raw s1) = threads (raw s) -> locals s1 = locals s -> owneds s1 = owneds s ->
  frames x o s (Some (s1, a)).
Proof.
  intros Ew Et El Eo s2 a' [= <- <-]. split; [done|]. split; [done|]. left. destruct x; simpl; by rewrite ?El, ?Eo.
Qed.

Lemma frames_own x o s s1 a x0 : gop_guard o = Some x0 -> exclusive o = true -> waits s1 = waits s ->
  threads (raw s1) = threads (raw s) -> (forall x, x <> x0 -> guard_info s1 x = guard_info s x) -> frames x o s (Some (s1, a)).
Proof.
  intros Hx He Ew Et Hi s2 a' [= <- <-]. split; [done|]. split; [done|]. destruct (decide (x = x0)) as [->|]; [by right|left; auto].
Qed.

Lemma frames_bind {B} x o s (m : option B) k : (forall y, m = Some y -> frames x o s (k y)) -> frames x o s (m ≫= k).
Proof. destruct m as [y|]; simpl; [by intros Hk; apply Hk|by intros _ ? ? [=]]. Qed.

Lemma frames_current x o s t f : (forall th reg, frames x o s (f th (set_registry reg s))) -> frames x o s (with_current t s f).
Proof. intros Hf. unfold with_current. destruct (Thread_current _ _) as [[th|] reg]; [apply Hf|by apply frames_return]. Qed.

Lemma frames_write l x o s k : match l with LGuards _ _ | LLock _ | LUnlock _ => True | _ => False end ->
  (forall rs, threads rs = threads (raw s) -> frames x o s (k (set_raw rs s))) ->
  frames x o s (raw_write plat batch_size l s ≫= k).
Proof.
  intros Hl Hk. apply frames_bind. intros s1. unfold raw_write. intros ([rs ev] & E & [= <-])%bind_Some. apply Hk.
  destruct l as [| | | | | |r n|r|r]; try done; simpl in E; [by injection E as <- _| |by injection E as <- _].
  destruct (lock_of (raw s) r) as [[]|]; try done. by injection E as <- _.
Qed.

Lemma handle_frames x t o s : frames x o s (handle t o s).
Proof.
  destruct o as [g|mem g|p f| |[g|g]|[g|g]|[g|g]|[g|g] p f|[g|g]|mem [g|g]|mem]; simpl;
    try (apply frames_bind; intros self Hself);
    try (apply frames_current; intros th reg); try (by apply frames_return);
    try (unfold with_lock; apply frames_write; [done|]; intros rs Hrs; by apply frames_return).
  - unfold OwnedGuard_enter. destruct (owned_create _ _) as [[th|] reg]; by apply frames_return.
  - unfold LocalGuard_refresh. apply frames_bind; intros n _. by apply frames_return.
  - unfold LocalGuard_drop. apply frames_bind; intros n _. apply frames_write; [done|]; intros rs Hrs. cbv zeta.
    apply (frames_own _ _ _ _ _ (LG g)); try done. intros [g'|g'] Hx; [|done]. simpl. rewrite lookup_delete_ne; [done|congruence].
  - apply (frames_own _ _ _ _ _ (OG g)); try done. intros [g'|g'] Hx; [done|]. simpl. rewrite lookup_delete_ne; [done|congruence].
  - unfold thread_exit. destruct (ThreadGuard_drop _ _ _) as [[th|] reg]; by apply frames_return.
Qed.

Lemma resume_frames x t w v s : frames x (w_op w) s (resume t w v s).
Proof.
  unfold Guard.resume. destruct (w_kont w) as [|r| | |x0|]; try (by apply frames_return).
  - destruct (w_op w) as [g|mem g|p f| |x0|x0|x0|x0 p f|x0|mem x0|mem]; try (by intros ? ? [=]).
    unfold LocalGuard_entered. destruct v as [| | |r]; try (by apply frames_return).
    apply frames_bind; intros n _. apply frames_write; [done|]; intros rs Hrs. cbv zeta.
    apply (frames_own _ _ _ _ _ (LG g)); try done. intros [g'|g'] Hx; [|done]. simpl. rewrite lookup_insert_ne; [done|congruence].
  - destruct (w_op w) as [g|mem g|p f| |x0|x0|x0|x0 p f|x0|mem x0|mem]; try (by intros ? ? [=]).
    assert (frames x (CEnterOwned mem g) s (OwnedGuard_free mem g v s)) as Hf
      by (unfold OwnedGuard_free; destruct (owned_free _ _ _) as [[th|] reg]; by apply frames_return).
    destruct v as [| | |r]; try done.
    apply (frames_own _ _ _ _ _ (OG g)); try done. intros [g'|g'] Hx; [done|]. simpl. rewrite lookup_insert_ne; [done|congruence].
  - destruct (w_op w) as [g|mem g|p f| |x0|x0|x0|x0 p f|x0|mem [g|g]|mem]; try (by intros ? ? [=]).
    unfold OwnedGuard_free. destruct (owned_free _ _ _) as [[th|] reg]; by apply frames_return.
Qed.

(** What is done for a handler of [o] with the result: at most a new wait. *)
Lemma perform_inv t o h s' ev :
  perform t o h = Some (s', ev) -> exists s1 a, h = Some (s1, a) /\
    (forall x, guard_info s' x = guard_info s1 x) /\ raw_events ev = [] /\
    ((exists r : gret, ev = [GDone t r] /\ a = AReturn r /\ waits s' = waits s1) \/
     (exists ro k th, ev = [] /\ a = ACall ro k th /\
        waits s' = <[t := mkWaiter o k th :: waiting s1 t]> (waits s1))).
Proof.
  unfold Guard.perform. destruct h as [[s1 [r|ro k th]]|]; [| |done].
  - intros [= <- <-]. exists s1, (AReturn r). split; [done|]. split; [done|]. split; [done|]. left. by exists r.
  - cbn [step]. destruct (at_client _); [|done]. intros [= <- <-]. exists s1, (ACall ro k th).
    split; [done|]. split; [done|]. split; [done|]. right. by exists ro, k, th.
Qed.

Lemma waiting_insert s s' t ws t' : waits s' = <[t := ws]> (waits s) ->
  waiting s' t' = if decide (t' = t) then ws else waiting s t'.
Proof.
  unfold waiting. intros ->. case_decide; [by subst; rewrite lookup_insert_eq|by rewrite lookup_insert_ne].
Qed.

(** The waits after a handler of [o]. *)
Lemma perform_waits t o x s h s' ev :
  frames x o s h -> perform t o h = Some (s', ev) ->
  (guard_info s' x = guard_info s x \/ (gop_guard o = Some x /\ exclusive o = true)) /\
  raw_events ev = [] /\ (forall t' w, w ∈ waiting s' t' -> w ∈ waiting s t' \/ w_op w = o).
Proof.
  intros Hf Hp. destruct (perform_inv _ _ _ _ _ Hp) as (s1 & a & Eh & Hg & Hev & Hw).
  destruct (Hf _ _ Eh) as (Ew & _ & Hx). split; [by rewrite Hg|]. split; [done|]. intros t' w Hin.
  destruct Hw as [(r & _ & _ & Ew')|(ro & k & th & _ & _ & Ew')].
  - left. unfold waiting in *. congruence.
  - rewrite (waiting_insert s1 s' t _ t' Ew') in Hin. assert (forall u, waiting s1 u = waiting s u) as E
      by (intros u; unfold waiting; by rewrite Ew).
    rewrite !E in Hin. case_decide; [subst|by left]. apply elem_of_cons in Hin as [->|]; [by right|by left].
Qed.

(** ** A guard stays alive *)

Lemma alive_exclusive s x t w : alive s x -> w ∈ waiting s t -> gop_guard (w_op w) = Some x -> exclusive (w_op w) = true -> False.
Proof. intros [_ Ha] Hw Hx He. specialize (Ha t w Hw Hx). congruence. Qed.

(** A slot that a guard wants is not left, and refreshed only for the guard. *)
Lemma alive_no_exit s x r t f st :
  GI None s -> alive s x -> has_slot s x r -> stack (raw s) t = f :: st -> f = FLeave r \/ f = FRefresh r -> False.
Proof.
  intros HI Ha Hx Hs Hf. pose proof (gi_top _ _ _ _ HI t) as Ht. unfold top_ok in Ht. rewrite Hs in Ht.
  destruct Hf as [-> | ->]; [apply Ht; by exists x|].
  destruct Ht as (w & ws & y & Ew & Hy & _ & Hsole). rewrite (Hsole x Hx) in *.
  pose proof (gi_stacks _ _ _ _ HI t) as Hsec. rewrite Hs, Ew in Hsec.
  destruct (sectioned_inv _ _ _ Hsec) as (w0 & ws0 & gs & rest & [= <- <-] & _ & _ & HF & _).
  apply Forall_cons in HF as [((_ & z & Hz) & _) _]. apply (alive_exclusive s y t w); try done; [rewrite Ew; by left|by rewrite Hz].
Qed.

(** An alive guard protects: its slot is active. *)
Lemma alive_guarded s x r : GI None s -> alive s x -> has_slot s x r -> guarded (raw s) r.
Proof.
  intros HI Ha Hx. destruct (gi_active _ _ _ _ HI r) as [Hon _]; [done|].
  destruct Hon as [Hg|(t & f & st & Hs & Hf)]; [by exists x|done|]. exfalso.
  pose proof (gi_top _ _ _ _ HI t) as Ht. unfold top_ok in Ht. rewrite Hs in Ht.
  assert (exists w ws y, waiting s t = w :: ws /\ gop_guard (w_op w) = Some y /\ sole s r y) as (w & ws & y & Ew & Hy & _ & Hsole)
    by (by destruct Hf as [->|[o ->]]).
  rewrite (Hsole x Hx) in *. assert (w ∈ waiting s t) as Hin by (rewrite Ew; by left).
  destruct (gi_waits _ _ _ _ HI t w Hin) as [_ Hok].
  pose proof (gi_stacks _ _ _ _ HI t) as Hsec. rewrite Hs, Ew in Hsec.
  destruct (sectioned_inv _ _ _ Hsec) as (w0 & ws0 & gs & rest & [= <- <-] & _ & _ & HF & _).
  apply Forall_cons in HF as [Hsv _]. assert (exists z, w_kont w = KEntered z) as [z Hz] by (by destruct Hf as [->|[o ->]], Hsv).
  apply (alive_exclusive s y t w); try done. unfold waiter_ok in Hok. rewrite Hz in Hok.
  destruct z; [by rewrite Hok|by destruct Hok as [? ->]].
Qed.

(** What a step of the raw collector without a return shows. *)
Lemma raw_step_exits l rl s rs ev x r :
  GI None s -> raw_label l = Some rl -> step plat batch_size rl (raw s) = Some (rs, ev) ->
  alive s x -> has_slot s x r -> EvExit r ∉ ev.
Proof.
  intros HI Hl Hst Ha Hx He.
  assert (forall sp t f st, stack (raw s) t = f :: st -> run_frame plat batch_size sp t f st (raw s) = Some (rs, ev) -> False) as Hrun.
  { intros sp t f st Hs E. pose proof (gi_stacks _ _ _ _ HI t) as Hsec. rewrite Hs in Hsec.
    destruct (sectioned_inv _ _ _ Hsec) as (w & ws & gs & rest & _ & _ & _ & HF & _).
    apply Forall_cons in HF as [Hc%serves_concurrent _].
    destruct (run_frame_stack plat batch_size sp t f st (raw s) Hc _ _ E) as (fs & s1 & _ & _ & _ & _ & _ & Hex).
    apply (alive_no_exit s x r t f st); eauto. }
  destruct l as [t o|t|t|t|r'|sys x86|ro]; simpl in Hl; simplify_eq; simpl in Hst.
  - destruct (stack (raw s) t) as [|f st] eqn:Hs; [done|]. by eapply Hrun.
  - destruct (stack (raw s) t) as [|f st] eqn:Hs; [done|]. destruct f; try done. by apply (Hrun true) in Hs.
  - destruct (stack (raw s) t) as [|f st] eqn:Hs; [done|]. destruct f; try done. injection Hst as <- <-. by apply elem_of_nil in He.
  - injection Hst as <- <-. by apply elem_of_nil in He.
  - injection Hst as <- <-. by apply elem_of_nil in He.
Qed.

(** It is also the same guard. *)
Lemma alive_gstep_info l s s' ev x r :
  GI None s -> glegal_label l s -> gstep l s = Some (s', ev) -> alive s x -> has_slot s x r ->
  (forall t o, GCall t o ∈ ev -> ~ gives_up x o) ->
  alive s' x /\ guard_info s' x = guard_info s x /\ EvExit r ∉ raw_events ev.
Proof.
  intros HI [Hl _] Hst Ha Hx Hno. assert (forall s1, guard_info s1 x = guard_info s x ->
    (forall t w, w ∈ waiting s1 t -> gop_guard (w_op w) = Some x -> exclusive (w_op w) = false) ->
    alive s1 x /\ guard_info s1 x = guard_info s x) as Hkeep.
  { intros s1 E Hw. split; [split; [rewrite E; apply Ha|done]|done]. }
  destruct (raw_label l) as [rl|] eqn:Erl.
  - destruct (gstep_raw _ _ _ _ _ _ _ Erl Hst) as (rs & ev0 & E & Hr).
    pose proof (raw_step_exits _ _ _ _ _ _ _ HI Erl E Ha Hx) as Hex.
    destruct (returned ev0) as [[t v]|].
    + destruct Hr as (w & ws & ev' & Hw & -> & Ep).
      destruct (perform_waits _ _ x _ _ _ _ (resume_frames x t w v _) Ep) as (Hg & Hev & Hws).
      assert (w ∈ waiting s t) as Hin by (rewrite Hw; by left).
      assert (forall t' w', w' ∈ waiting s' t' -> w' ∈ waiting s t' \/ w_op w' = w_op w) as Hws'.
      { intros t' w' [Hin'|?]%Hws; [|by right]. left. rewrite (waiting_insert s (set_waits (<[t := ws]> (waits s)) (set_raw rs s)) t ws t' eq_refl) in Hin'. case_decide; [subst|done]. rewrite Hw. by right. }
      rewrite raw_events_app, raw_events_map, Hev, app_nil_r. apply and_assoc. split; [|done].
      apply Hkeep; [destruct Hg as [|[Hg He]]; [done|by destruct (alive_exclusive s x t w)]|].
      intros t' w' [Hin'|Ho]%Hws' Hx'; [by apply (proj2 Ha t')|]. rewrite Ho in *. by apply (proj2 Ha t).
    + destruct Hr as [-> ->]. rewrite raw_events_map. apply and_assoc. split; [|done]. by apply Hkeep; [|apply Ha].
  - destruct l as [t o|t|t|t|r'|sys x86|ro]; try done; simpl in Hst.
    2: { injection Hst as <- <-. apply and_assoc. split; [|by apply not_elem_of_nil]. by apply Hkeep; [|apply Ha]. }
    destruct (at_client _) eqn:Hc; [|done]. apply bind_Some in Hst as ([s1 ev1] & Ep & [= <- <-]).
    destruct (perform_waits _ _ x _ _ _ _ (handle_frames x t o s) Ep) as (Hg & Hev & Hws).
    assert (gop_guard o = Some x -> exclusive o = true -> False) as Hne.
    { intros Hxo He. assert (~ gives_up x o) as Hn by (apply (Hno t); by left). destruct Ha as [[i Hi] _].
      destruct o as [g|mem g|p f| |y|y|y|y p f|y|mem y|mem]; try done; simpl in Hxo; injection Hxo as <-; simpl in Hi.
      - destruct Hl as [Hl _]. by rewrite Hl in Hi.
      - destruct Hl as [Hl _]. by rewrite Hl in Hi.
      - apply Hn. by left.
      - apply Hn. right. by exists mem. }
    simpl. rewrite Hev. apply and_assoc. split; [|by apply not_elem_of_nil].
    apply Hkeep; [destruct Hg as [|[Hg He]]; [done|by destruct Hne]|].
    intros t' w' [Hin'|Ho]%Hws Hx'; [by apply (proj2 Ha t')|]. rewrite Ho in *.
    destruct (exclusive o) eqn:He; [by destruct Hne|done].
Qed.

Lemma alive_gstep l s s' ev x r :
  GI None s -> glegal_label l s -> gstep l s = Some (s', ev) -> alive s x -> has_slot s x r ->
  (forall t o, GCall t o ∈ ev -> ~ gives_up x o) ->
  alive s' x /\ has_slot s' x r /\ EvExit r ∉ raw_events ev.
Proof.
  intros HI Hl Hst Ha Hx Hno. destruct (alive_gstep_info l s s' ev x r HI Hl Hst Ha Hx Hno) as (Ha' & Ei & He).
  split; [done|]. split; [|done]. unfold has_slot. by rewrite Ei.
Qed.

Lemma alive_gsteps s tr s' x r :
  GI None s -> gsteps s tr s' -> alive s x -> has_slot s x r ->
  (forall t o, GCall t o ∈ tr -> ~ gives_up x o) ->
  alive s' x /\ has_slot s' x r /\ EvExit r ∉ raw_events tr.
Proof.
  intros HI Hst. revert HI. induction Hst as [s|s1 l s2 ev tr s3 Hl Hs Hst IH]; intros HI Ha Hx Hno.
  - split; [done|]. split; [done|]. apply not_elem_of_nil.
  - destruct (gstep_good _ _ _ _ _ _ HI Hl Hs) as [HI2 _].
    destruct (alive_gstep _ _ _ _ x r HI Hl Hs Ha Hx) as (Ha2 & Hx2 & He).
    { intros t o Ho. apply (Hno t). apply elem_of_app. by left. }
    destruct (IH HI2 Ha2 Hx2) as (Ha3 & Hx3 & He').
    { intros t o Ho. apply (Hno t). apply elem_of_app. by right. }
    split; [done|]. split; [done|]. rewrite raw_events_app, elem_of_app. tauto.
Qed.

Lemma elem_of_raw_events (e : event) tr : e ∈ raw_events tr <-> GRaw e ∈ tr.
Proof.
  unfold raw_events. rewrite list_elem_of_omap. split.
  - intros ([t o|e'|t r] & Hin & [= ->]). done.
  - intros Hin. by exists (GRaw e).
Qed.

Lemma alive_slot s x : alive s x -> exists r, has_slot s x r.
Proof. intros [[[[h th] r] E] _]. by exists r, h, th. Qed.

(** ** Theorems *)

(** C9. Guards implement the contract of the raw collector. Whatever clients do
    with guards and with the collector, from any number of threads and from
    inside reclaimers, as long as they keep to the rules of safe Rust, each call
    that the guards make into the raw collector satisfies the safety contract
    of that call, and the run is a run of the raw collector; so everything that
    is proved of the raw collector holds of it. *)
Theorem guards_keep_contract s tr s' :
  greachable plat batch_size s -> gsteps s tr s' ->
  reachable plat batch_size (raw s') /\ steps (raw s) (raw_events tr) (raw s').
Proof.
  intros Hr Hst. pose proof (gsteps_good _ _ _ _ _ (GI_greachable _ _ _ Hr) Hst) as [_ H12]. split; [|done].
  destruct Hr as (strat & cap & a0 & a & r0 & tr0 & Hs & Hc & Hb & E & Hst0).
  destruct (gsteps_good _ _ _ _ _ (GI_new _ _ _ _ _ _ _ Hs Hc Hb E) Hst0) as [_ H01].
  exists strat, cap, a0, a, r0, (raw_events tr0 ++ raw_events tr). split_and!; try done. by eapply steps_trans.
Qed.

(** C8. A guard protects. While a guard is alive (it was returned to the client,
    and is not being refreshed or dropped), no reclaimer is called on an object
    that was not retired, or whose batch was still filling up, at some point of
    its life, whatever other threads and reclaimers do. *)
Theorem alive_guard_protects s0 x p tr s1 :
  greachable plat batch_size s0 -> alive s0 x -> unscanned (raw s0) p -> gsteps s0 tr s1 ->
  (forall t o, GCall t o ∈ tr -> ~ gives_up x o) ->
  forall t f, GRaw (EvReclaim t p f) ∉ tr.
Proof.
  intros HI%GI_greachable Ha Hp Hst Hno t f. destruct (alive_slot _ _ Ha) as [r Hx].
  destruct (alive_gsteps _ _ _ _ _ HI Hst Ha Hx Hno) as (_ & _ & Hex).
  destruct (gsteps_good _ _ _ _ _ HI Hst) as [_ H12]. pose proof (gi_raw _ _ _ _ HI) as HIr.
  rewrite <-elem_of_raw_events. revert t f. eapply (Prot_steps plat batch_size r p (raw s0) _ (raw s1)); try done.
  apply (Prot_intro plat batch_size); try done. by eapply alive_guarded.
Qed.

(** C22. The state of a reservation is what its guards make of it. In every
    reachable state the counter of a reservation is the number of local guards
    on it, also while guards nest, and reclaimers create and drop guards; and
    unless a call is working on the reservation, it is active exactly if it has
    a guard. *)
Theorem reservations_follow_guards s r :
  greachable plat batch_size s ->
  (forall n, guards_of (raw s) r = Some n -> n = count (locals s) r) /\
  (slot_free (raw s) r -> guarded (raw s) r <-> exists x, has_slot s x r).
Proof. intros HI%GI_greachable. split; [intros n; apply HI|intros Hf; by eapply free_settled]. Qed.

(** Reservations are not shared. Two guards with the same reservation are
    local guards of the same OS thread; so an owned guard has its reservation
    for itself wherever it is moved. *)
Theorem reservations_unshared s x y r :
  greachable plat batch_size s -> has_slot s x r -> has_slot s y r ->
  x = y \/ exists g g' lg lg', x = LG g /\ y = LG g' /\ locals s !! g = Some lg /\ locals s !! g' = Some lg' /\
    l_os lg = l_os lg'.
Proof.
  intros HI%GI_greachable Hx Hy. pose proof Hx as (h & th & E). destruct (gi_guards _ _ _ _ HI _ _ _ _ E) as (Hh & -> & _).
  destruct x as [g|g]; simpl in E.
  - destruct (locals s !! g) as [lg|] eqn:Eg; [|done]. injection E as <- _ _. right.
    destruct (has_slot_local _ _ _ _ _ _ _ HI Hh Hy) as (g' & lg' & -> & Eg' & Eos & _). by exists g, g', lg, lg'.
  - destruct (owneds s !! g) as [og|] eqn:Eg; [|done]. injection E as <- _ _. left. symmetry.
    by apply (has_slot_owned _ _ _ _ _ _ _ HI Hh Hy).
Qed.

(** C23. The lock of an owned guard works. Two handlers that hold the lock of the
    same reservation are the same handler, and while one holds it the lock
    reads as taken; so no two calls of [flush], [reserve_retire] and
    [defer_retire] on one owned guard run at once, from any threads. *)
Theorem owned_calls_exclusive s t1 t2 i j w1 w2 r :
  greachable plat batch_size s -> waiting s t1 !! i = Some w1 -> waiting s t2 !! j = Some w2 ->
  w_kont w1 = KUnlock r -> w_kont w2 = KUnlock r ->
  t1 = t2 /\ i = j /\ lock_of (raw s) r = Some true.
Proof.
  intros HI%GI_greachable H1' H2' E1 E2. pose proof (list_elem_of_lookup_2 _ _ _ H1') as Hin1.
  pose proof (list_elem_of_lookup_2 _ _ _ H2') as Hin2.
  assert (r ∈ locks (waiting s t1)) as Hr1 by (apply elem_of_locks; eauto).
  assert (r ∈ locks (waiting s t2)) as Hr2 by (apply elem_of_locks; eauto).
  pose proof (gi_excl _ _ _ _ HI _ _ _ Hr1 Hr2) as <-. split; [done|].
  split; [|by apply (gi_lock _ _ _ _ HI t1)]. by eapply (locks_lookup_inj (waiting s t1)); [apply HI|..].
Qed.

End GuardSafe.
