(* ===== verification/GuardRetire.v ===== *)
(** * The results of calls

    Every call returns a result of its own kind, and [retire] and [defer_retire]
    return whether they took the object: a ledger
    notes for each call in progress whether its object was retired, and the
    machine of guards keeps it. Also when reclaimers are active: the frames in
    which client code runs as one are those whose object was given to it and
    that did not return. *)

From stdpp Require Import prelude list gmap.
From S2P Require Import Prelude Alloc ThreadId Membarrier Tls RawData RawStep RawGhost RawInv RawPreserve RawProtect RawEffect Guard GuardInv GuardPreserve GuardHandle GuardOps GuardRefine GuardSafe.

Open Scope Z_scope.

(** ** The ledger *)

(** The object that an operation of clients retires. *)
Definition retires (o : gop) : option (Z * Z) :=
  match o with CRetire p f | GDefer _ p f => Some (p, f) | _ => None end.

(** The calls in progress of each thread, and whether they retired their object. *)
Definition ledger := nat -> list (gop * bool).

Definition ledger_init : ledger := fun _ => [].

Definition ledger_set (t : nat) (l : list (gop * bool)) (L : ledger) : ledger :=
  fun t' => if decide (t' = t) then l else L t'.

(** What a call of [o] may return. [retire] returns [Ok] if it retired the
    object; otherwise an error, or it panics before it reaches the collector.
    Entering returns the guard; only calls that may need a new thread ID, or give
    one back, panic, and only those that may allocate return an error. *)
Definition answers (o : gop) (retired : bool) (r : gret) : Prop :=
  match o with
  | CRetire _ _ | GDefer _ _ _ => if retired then r = GRet ROk else r = GRet RErr \/ r = GPanic
  | CEnter g => r = GGuard (LG g) \/ r = GRet RErr \/ r = GPanic
  | CEnterOwned _ g => r = GGuard (OG g) \/ r = GRet RErr \/ r = GPanic
  | CReserve => r = GRet ROk \/ r = GRet RErr \/ r = GPanic
  | GReserve _ => r = GRet ROk \/ r = GRet RErr
  | GRefresh _ | GFlush _ | GDrop _ (LG _) => r = GRet RUnit
  | GDrop _ (OG _) | TExit _ => r = GRet RUnit \/ r = GPanic
  | GThreadId (LG _) => exists i, r = GId i
  | GThreadId (OG _) => (exists i, r = GId i) \/ r = GPanic
  end.

Lemma answers_retires o ob b r :
  retires o = Some ob -> answers o b r <-> if b then r = GRet ROk else r = GRet RErr \/ r = GPanic.
Proof. by destruct o. Qed.

Inductive ledger_step (L : ledger) : gevent -> ledger -> Prop :=
| ledger_call t o : ledger_step L (GCall t o) (ledger_set t ((o, false) :: L t) L)
| ledger_retire t p f o os :
    L t = (o, false) :: os -> retires o = Some (p, f) ->
    ledger_step L (GRaw (EvRetire t p f)) (ledger_set t ((o, true) :: os) L)
| ledger_done t r o b os :
    L t = (o, b) :: os -> answers o b r -> ledger_step L (GDone t r) (ledger_set t os L)
| ledger_other e :
    match e with EvRetire _ _ _ => False | _ => True end -> ledger_step L (GRaw e) L.

Inductive ledger_steps : ledger -> list gevent -> ledger -> Prop :=
| ledger_nil L : ledger_steps L [] L
| ledger_cons L1 e L2 tr L3 : ledger_step L1 e L2 -> ledger_steps L2 tr L3 -> ledger_steps L1 (e :: tr) L3.

Lemma ledger_steps_app L1 tr1 L2 tr2 L3 :
  ledger_steps L1 tr1 L2 -> ledger_steps L2 tr2 L3 -> ledger_steps L1 (tr1 ++ tr2) L3.
Proof. induction 1; [done|]. intros. simpl. econstructor; eauto. Qed.

Lemma ledger_one L e L' : ledger_step L e L' -> ledger_steps L [e] L'.
Proof. intros. econstructor; [done|constructor]. Qed.

(** Steps that retire nothing. *)
Lemma ledger_quiet L ev : (forall t p f, EvRetire t p f ∉ ev) -> ledger_steps L (map GRaw ev) L.
Proof.
  induction ev as [|e ev IH]; intros Hno; [constructor|]. simpl. eapply ledger_cons; [apply ledger_other|].
  - destruct e as [| t p f| | |]; try done. by destruct (Hno t p f); left.
  - apply IH. intros t p f Hin. apply (Hno t p f). by right.
Qed.

Lemma ledger_set_eq t l L : ledger_set t l L t = l.
Proof. unfold ledger_set. by rewrite decide_True. Qed.

Lemma ledger_set_ne t t' l L : t' <> t -> ledger_set t l L t' = L t'.
Proof. intros. unfold ledger_set. by rewrite decide_False. Qed.

(** ** Frames *)

(** The frame is about to add an object. *)
Definition adds (fr : frame) : option (Z * Z) :=
  match fr with FLoad (KAdd p f) _ _ | FAdd _ p f => Some (p, f) | _ => None end.

Definition no_add (fr : frame) : Prop := adds fr = None.

(** What the frame returns to the handler that waits, if it is the last one of
    its call. *)
Definition yields (fr : frame) (r : ret) : Prop :=
  match fr with
  | FLoad KReservation _ _ => r = RErr \/ exists sl, r = RReservation sl
  | FLoad _ _ _ | FAdd _ _ _ | FReserve _ => r = ROk \/ r = RErr
  | FRet r' => r = r'
  | _ => r = RUnit
  end.

(** The calls of [o] to the collector return it no other results than these. *)
Definition raw_ok (o : gop) (r : ret) : Prop :=
  match o with
  | CEnter _ | CEnterOwned _ _ => r <> ROk
  | CReserve | GReserve _ => r = ROk \/ r = RErr
  | GThreadId _ | TExit _ => False
  | _ => r = RUnit
  end.

(** The frames end with a result that [P] allows. *)
Definition ends_with (P : ret -> Prop) (fs : list frame) : Prop :=
  forall fr r, last fs = Some fr -> yields fr r -> P r.

(** The reclaimers that run on a stack. *)
Definition reclaiming (fs : list frame) : list (Z * Z) :=
  omap (fun fr => match fr with FReclaim p f => Some (p, f) | _ => None end) fs.

Definition given (t : nat) (ev : list event) : list (Z * Z) :=
  omap (fun e => match e with EvReclaim t' p f => if decide (t' = t) then Some (p, f) else None | _ => None end) ev.

(** A step of frame [fr] to the frames [fs]: an [add] goes on, fails without an
    effect, or retires its object; nothing else retires. The results that it may
    end with do not become more. *)
Definition add_effect (t : nat) (fr : frame) (fs : list frame) (ev : list event) : Prop :=
  reclaiming fs = given t ev /\ (forall t', t' <> t -> given t' ev = []) /\
  ends_with (yields fr) fs /\
  match adds fr with
  | None => Forall no_add fs /\ forall t' p f, EvRetire t' p f ∉ ev
  | Some (p, f) =>
      (ev = [] /\ ((exists fr', fs = [fr'] /\ adds fr' = Some (p, f)) \/ fs = [FRet RErr])) \/
      (exists ev', ev = EvRetire t p f :: ev' /\ (forall t' p' f', EvRetire t' p' f' ∉ ev') /\
        last fs = Some (FRet ROk) /\ Forall no_add fs)
  end.

Section Frames.
Context {A : Type} `{Allocator A} `{BoxVec A} `{!BoxVecLaws A}.
Context `{EntryLayout Reservation} `{EntryLayout LocalBatch}.
Variables (plat : Platform) (batch_size : Z).

Definition adds_to t fr rest (o : option (raw_state A * list event)) : Prop :=
  forall s' ev, o = Some (s', ev) ->
    exists fs s1, s' = goto t (fs ++ rest) s1 /\ add_effect t fr fs ev.

Lemma adds_to_next t fr rest fs ev (s : raw_state A) :
  add_effect t fr fs ev -> adds_to t fr rest (next_ev t fs rest ev s).
Proof. intros Ha s' ev' [= <- <-]. eauto. Qed.

Lemma adds_to_None t fr rest : adds_to t fr rest None.
Proof. by intros ? ? [=]. Qed.

Lemma adds_to_bind {B} t fr rest (m : option B) k :
  (forall x, m = Some x -> adds_to t fr rest (k x)) -> adds_to t fr rest (m ≫= k).
Proof. destruct m as [x|]; simpl; [by intros Hk; apply Hk|intros _; apply adds_to_None]. Qed.

Ltac add_next :=
  apply adds_to_next; split; [by repeat (simpl; rewrite ?decide_True by done)|];
  split; [by intros; repeat (simpl; rewrite ?decide_False by done)|];
  split; [by intros ? ? [= <-]; simpl; eauto|]; simpl;
  first [ split; [by repeat constructor|no_event]
        | left; split; [done|]; first [by right|left; eexists; split; [reflexivity|done]]
        | right; eexists; split; [reflexivity|]; split; [no_event|]; split; [done|by repeat constructor]].

Lemma run_frame_adds sp t fr rest (s : raw_state A) :
  concurrent fr -> adds_to t fr rest (run_frame plat batch_size sp t fr rest s).
Proof.
  intros Hc. destruct fr as [k th pc|r p f|r|th|r pc|b m i act|b m i act r prev|b act|r|r o|r|r|l|n b|b i|p f|ipc it|r it|r it|x];
    try done; simpl;
    unfold step_load, step_add, step_reserve, step_flush, step_try, step_retire, step_cas, step_finish,
      step_enter, step_enter_store, step_leave, step_refresh, step_swap, step_traverse, step_dec,
      step_free_batch; cbv zeta.
  all: repeat first [apply adds_to_None | apply adds_to_bind; intros | case_match | add_next].
Qed.
End Frames.

(** ** Sections and their calls *)

(** The frames [fs] of a call of [o] whose object is retired or not. *)
Definition entry_ok (o : gop) (b : bool) (fs : list frame) : Prop :=
  match retires o with
  | None => b = false /\ Forall no_add fs /\ ends_with (raw_ok o) fs
  | Some ob =>
      if b then last fs = Some (FRet ROk) /\ Forall no_add fs
      else (exists fr, fs = [fr] /\ adds fr = Some ob) \/ fs = [FRet RErr]
  end.

(** A stack with the calls in progress: [entry] relates each call, with what
    is noted about it, to its frames. *)
Inductive kept (entry : gop -> bool -> list frame -> Prop) : list frame -> list waiter -> list (gop * bool) -> Prop :=
| kept_nil : kept entry [] [] []
| kept_cons fs rest w ws b l :
    section fs -> entry (w_op w) b fs -> kept entry rest ws l ->
    kept entry (fs ++ rest) (w :: ws) ((w_op w, b) :: l).

Lemma kept_inv entry fr st ws l :
  kept entry (fr :: st) ws l -> exists w ws' b l' gs rest, ws = w :: ws' /\ l = (w_op w, b) :: l' /\ st = gs ++ rest /\
    section (fr :: gs) /\ entry (w_op w) b (fr :: gs) /\ kept entry rest ws' l'.
Proof.
  intros Hk. inversion Hk as [|fs rest w ws' b l' Hfs Hok Hrest E Ew El]; subst.
  destruct (section_cons _ Hfs) as (g & gs & ->). simpl in E. injection E as -> <-.
  exists w, ws', b, l', gs, rest. done.
Qed.

(** The call of the collector that [o] may make: [add] if it retires, and
    otherwise one that returns what it expects. *)
Definition asked (o : gop) (ro : op) : Prop :=
  match retires o with
  | Some (p, f) => exists th, ro = OpAdd p f th
  | None => match ro with OpAdd _ _ _ | OpReclaimAll => False | _ => ends_with (raw_ok o) (call ro) end
  end.

Lemma asked_not_all o : ~ asked o OpReclaimAll.
Proof. unfold asked. destruct (retires o) as [[p f]|]; [by intros [th E]|tauto]. Qed.

(** The frame of a call that starts. *)
Lemma entry_call o ro : asked o ro -> entry_ok o false (call ro).
Proof.
  unfold asked, entry_ok. destruct (retires o) as [[p f]|].
  - intros [th ->]. left. by eexists.
  - intros Hro. split; [done|]. destruct ro; try done; (split; [by repeat constructor|exact Hro]).
Qed.

(** The last frame of a call decides on its result. *)
Lemma ends_with_step P fr fs gs :
  ends_with P (fr :: gs) -> ends_with (yields fr) fs -> ends_with P (fs ++ gs).
Proof.
  intros HP Hf g r Hl Hr. rewrite last_app in Hl. destruct (last gs) as [g'|] eqn:E.
  - apply (HP g r); [by rewrite last_cons, E|done].
  - apply last_None in E as ->. by apply (HP fr r), (Hf g r).
Qed.

(** A frame that is not its call's return runs. *)
Lemma entry_run t fr gs fs ev o b :
  section (fr :: gs) -> entry_ok o b (fr :: gs) -> is_ret fr = false -> add_effect t fr fs ev ->
  ((forall t' p f, EvRetire t' p f ∉ ev) /\ entry_ok o b (fs ++ gs)) \/
  (exists p f ev', ev = EvRetire t p f :: ev' /\ (forall t' p' f', EvRetire t' p' f' ∉ ev') /\
     b = false /\ retires o = Some (p, f) /\ entry_ok o true (fs ++ gs)).
Proof.
  intros Hs Hok Hr (_ & _ & Hy & Ha). unfold entry_ok in *. destruct (retires o) as [[p f]|] eqn:Eo; [destruct b|].
  - destruct Hok as [Hl [Hn HF]%Forall_cons]. unfold no_add in Hn. rewrite Hn in Ha. destruct Ha as [HF' Hno].
    left. split; [done|]. destruct gs as [|g gs]; [simpl in Hl; by injection Hl as ->|]. split; [|by apply Forall_app].
    rewrite last_app. rewrite last_cons in Hl. by rewrite last_cons in Hl |- *; destruct (last gs).
  - destruct Hok as [(fr' & [= <- ->] & Hf)|[= -> ->]]; [|done]. rewrite Hf in Ha. rewrite app_nil_r.
    destruct Ha as [[-> Hfs]|(ev' & -> & Hno & Hl & HF)].
    + left. split; [by intros ? ? ? ?%elem_of_nil|done].
    + right. exists p, f, ev'. done.
  - destruct Hok as (-> & [Hn HF]%Forall_cons & He). unfold no_add in Hn. rewrite Hn in Ha. destruct Ha as [HF' Hno].
    left. split; [done|]. split; [done|]. split; [by apply Forall_app|by eapply ends_with_step].
Qed.

Section Ledger.
Context {A : Type} `{Allocator A} `{BoxVec A} `{!BoxVecLaws A}.
Context `{EntryLayout Reservation} `{EntryLayout LocalBatch}.
Variables (plat : Platform) (batch_size : Z).

Abbreviation gstate := (guard_state A).
Abbreviation GI := (GI plat batch_size).
Abbreviation gstep := (gstep plat batch_size).
Abbreviation gsteps := (gsteps plat batch_size).
Implicit Types (s : gstate) (t g : nat) (x : gref) (w : waiter) (L : ledger).

(** ** Handlers *)

(** The handler of [o] calls what it may; what it returns by itself is right
    for an object that is not retired. *)
Definition asks o (h : option (gstate * action)) : Prop :=
  forall s1 act, h = Some (s1, act) ->
    match act with AReturn v => answers o false v | ACall ro k th => asked o ro end.

Lemma asks_some o s1 act :
  asks o (Some (s1, act)) <-> match act with AReturn v => answers o false v | ACall ro k th => asked o ro end.
Proof. unfold asks. split; [intros Ha; by apply (Ha s1 act)|]. by intros ? ? ? [= <- <-]. Qed.

Lemma asks_bind {B} o (m : option B) k : (forall y, m = Some y -> asks o (k y)) -> asks o (m ≫= k).
Proof. destruct m as [y|]; simpl; [by intros Hk; apply Hk|by intros _ ? ? [=]]. Qed.

Lemma asks_current o s t f :
  answers o false GPanic -> (forall th s', asks o (f th s')) -> asks o (with_current t s f).
Proof.
  intros Hp Hf. unfold with_current. destruct (Thread_current _ _) as [[th|] reg]; [apply Hf|by apply asks_some].
Qed.

(** What is asked for or answered is known. *)
Ltac asking :=
  first [ by unfold asked; simpl; eauto
        | intros ? ? [= <-]; simpl; first [done | by intros -> | by intros [->|[? ->]]]].

Lemma handle_asks t o s : asks o (handle plat batch_size t o s).
Proof.
  destruct o as [g|mem g|p f| |[g|g]|[g|g]|[g|g]|[g|g] p f|[g|g]|mem [g|g]|mem]; simpl;
    unfold LocalGuard_enter, OwnedGuard_enter, Collector_retire, Collector_reserve_retire, thread_exit,
      LocalGuard_refresh, LocalGuard_drop, OwnedGuard_drop, OwnedGuard_thread_id, with_lock;
    repeat first [apply asks_bind; intros | apply asks_current; intros | case_match | apply asks_some; simpl; eauto].
  all: asking.
Qed.

Lemma raw_ok_last o v : ends_with (raw_ok o) [FRet v] -> raw_ok o v.
Proof. intros He. by apply (He (FRet v)). Qed.

(** A handler that does not retire goes on with a result that it expects. *)
Lemma resume_quiet t w v s :
  waiter_ok w -> serves w (FRet v) -> retires (w_op w) = None -> raw_ok (w_op w) v ->
  asks (w_op w) (resume plat batch_size t w v s).
Proof.
  intros Hok Hv Er Hr.
  unfold resume, waiter_ok, serves, loading in *. destruct (w_kont w) as [|r| | |[g|g]|] eqn:Ek.
  - apply asks_some. destruct (w_op w) as [g|mem g|p f| |[g|g]|[g|g]|[g|g]|[g|g] p f|[g|g]|mem [g|g]|mem];
      simpl in *; naive_solver.
  - destruct Hok as (_ & He & g & Hx). apply asks_bind; intros s2 _. apply asks_some.
    destruct (w_op w) as [g'|mem g'|p f| |[g'|g']|[g'|g']|[g'|g']|[g'|g'] p f|[g'|g']|mem [g'|g']|mem]; simpl in *; naive_solver.
  - destruct Hok as [g Eo]. rewrite Eo in *. unfold LocalGuard_entered. destruct v; try (apply asks_some; naive_solver).
    repeat first [apply asks_bind; intros | case_match | apply asks_some; asking].
  - destruct Hok as (mem & g & Eo). rewrite Eo in *. unfold OwnedGuard_entered, OwnedGuard_free.
    destruct v; try (destruct (owned_free _ _ _) as [[|] reg]); apply asks_some; asking || naive_solver.
  - rewrite Hok. apply asks_some. by left.
  - destruct Hok as [mem Eo]. rewrite Eo. apply asks_some. by left.
  - destruct Hok as (mem & g & Eo). rewrite Eo in *. unfold OwnedGuard_free.
    destruct (owned_free _ _ _) as [[|] reg]; apply asks_some; naive_solver.
Qed.

Lemma resume_asks t w v s :
  waiter_ok w -> serves w (FRet v) ->
  (forall b, entry_ok (w_op w) b [FRet v] ->
    forall s1 act, resume plat batch_size t w v s = Some (s1, act) ->
    match act with
    | AReturn r => answers (w_op w) b r
    | ACall ro k th => b = false /\ entry_ok (w_op w) false (call ro) /\ ro <> OpReclaimAll
    end).
Proof.
  intros Hok Hv b Hb s1 act E. destruct (retires (w_op w)) as [[p f]|] eqn:Er.
  - unfold resume, waiter_ok in *.
    assert (answers (w_op w) b (GRet v)) as Hans.
    { apply (answers_retires _ _ _ _ Er). unfold entry_ok in Hb. rewrite Er in Hb. destruct b; [by destruct Hb as [[= ->] _]|].
      destruct Hb as [(fr & [= <-] & ?)|[= ->]]; [done|by left]. }
    destruct (w_kont w) as [|r| | |[|]|]; try (by destruct Hok as (? & E'); rewrite E' in Er);
      try (by destruct Hok as (? & ? & E'); rewrite E' in Er); try (by rewrite Hok in Er).
    + by injection E as <- <-.
    + apply bind_Some in E as (s2 & _ & [= <- <-]). done.
  - unfold entry_ok in Hb. rewrite Er in Hb. destruct Hb as (-> & _ & Hr%raw_ok_last).
    pose proof (resume_quiet t w v s Hok Hv Er Hr s1 act E) as Ha. destruct act as [r|ro k th]; [done|].
    split; [done|]. split; [by apply entry_call|]. intros ->. by apply asked_not_all in Ha.
Qed.

(** ** Steps *)

Definition ledgered s L : Prop := forall t, kept entry_ok (stack (raw s) t) (waiting s t) (L t).

(** The handler of [o] runs, on top of the calls [l] of its thread. *)
Lemma ledger_perform t o b l s h s' ev L :
  (forall t', t' <> t -> kept entry_ok (stack (raw s) t') (waiting s t') (L t')) ->
  L t = (o, b) :: l -> kept entry_ok (stack (raw s) t) (waiting s t) l ->
  frames (LG 0) o s h ->
  (forall s1 act, h = Some (s1, act) -> match act with
    | AReturn r => answers o b r
    | ACall ro k th => b = false /\ entry_ok o false (call ro) /\ ro <> OpReclaimAll
    end) ->
  perform plat batch_size t o h = Some (s', ev) -> exists L', ledger_steps L ev L' /\ ledgered s' L'.
Proof.
  intros Hne Ht Hk Hf Ha Hp. unfold perform in Hp. destruct h as [[s1 [r|ro k th]]|]; [|cbn [step] in Hp|done].
  - injection Hp as <- <-. specialize (Ha _ _ eq_refl). destruct (Hf _ _ eq_refl) as (Ew & Eth & _).
    exists (ledger_set t l L). split; [by eapply ledger_one, ledger_done|]. intros t'. unfold waiting, stack.
    rewrite Ew, Eth. destruct (decide (t' = t)) as [->|Hn]; [by rewrite ledger_set_eq|]. rewrite ledger_set_ne by done. by apply Hne.
  - destruct (at_client _); [|done]. injection Hp as <- <-. specialize (Ha _ _ eq_refl) as (-> & Hok & Hro).
    destruct (Hf _ _ eq_refl) as (Ew & Eth & _). exists L. split; [constructor|]. intros t'.
    change (kept entry_ok (stack (raw (pushed t (mkWaiter o k th) ro s1)) t') (waiting (pushed t (mkWaiter o k th) ro s1) t') (L t')).
    rewrite stack_pushed, waiting_pushed.
    assert (forall u, waiting s1 u = waiting s u) as E1 by (intros u; unfold waiting; by rewrite Ew).
    assert (forall u, stack (raw s1) u = stack (raw s) u) as E2 by (intros u; unfold stack; by rewrite Eth).
    rewrite !E1, !E2. case_decide as Hd; [subst|by apply Hne]. rewrite Ht.
    apply (kept_cons _ (call ro) _ (mkWaiter o k th) _ false); [by apply section_call|done|done].
Qed.

Lemma ledgered_same s s' L : ledgered s L -> (forall t, stack (raw s') t = stack (raw s) t) ->
  (forall t, waiting s' t = waiting s t) -> ledgered s' L.
Proof. intros HL Es Ew t. by rewrite Es, Ew. Qed.

(** A frame runs that is not a return. *)
Lemma ledger_run sp t fr st s rs ev L :
  concurrent fr -> stack (raw s) t = fr :: st -> is_ret fr = false ->
  run_frame plat batch_size sp t fr st (raw s) = Some (rs, ev) -> ledgered s L ->
  exists L', ledger_steps L (map GRaw ev) L' /\ ledgered (set_raw rs s) L'.
Proof.
  intros Hc Hs Hr E HL. destruct (run_frame_adds plat batch_size sp t fr st (raw s) Hc _ _ E) as (fs & s1 & E1 & Ha).
  destruct (run_frame_stack plat batch_size sp t fr st (raw s) Hc _ _ E) as (fs' & s2 & E2 & Hth & Hrep & _).
  assert (fs' = fs) as ->.
  { assert (stack rs t = fs ++ st /\ stack rs t = fs' ++ st) as [E3 E4]
      by (split; [rewrite E1|rewrite E2]; by rewrite stack_goto, decide_True).
    rewrite E3 in E4. by apply app_inv_tail in E4. }
  clear E1 s1. subst rs. pose proof (HL t) as Hk. rewrite Hs in Hk.
  destruct (kept_inv _ _ _ _ _ Hk) as (w & ws & b & l & gs & rest & Ew & El & -> & Hsec & Hok & Hrest).
  pose proof (section_replace _ _ _ Hsec Hr Hrep) as Hsec'.
  assert (forall L' b', L' t = (w_op w, b') :: l -> (forall t', t' <> t -> L' t' = L t') -> entry_ok (w_op w) b' (fs ++ gs) ->
    ledgered (set_raw (goto t (fs ++ gs ++ rest) s2) s) L') as Hdone.
  { intros L' b' Et Hne Hok' t'. change (waiting (set_raw _ s) t') with (waiting s t'). rewrite (stack_set_goto t).
    case_decide as Hd; [subst t'; rewrite Ew, Et, (assoc_L (++)); by constructor|].
    unfold stack. rewrite Hth, Hne by done. apply HL. }
  destruct (entry_run _ _ _ _ _ _ _ Hsec Hok Hr Ha) as [[Hno Hok']|(p & f & ev' & -> & Hno & -> & Hret & Hok')].
  - exists L. split; [by apply ledger_quiet|by eapply Hdone].
  - exists (ledger_set t ((w_op w, true) :: l) L). split.
    + simpl. eapply ledger_cons; [by eapply ledger_retire|by apply ledger_quiet].
    + apply (Hdone _ true); [by rewrite ledger_set_eq|intros; by apply ledger_set_ne|done].
Qed.

Lemma ledger_gstep l s s' ev L :
  GI None s -> glegal_label l s -> gstep l s = Some (s', ev) -> ledgered s L ->
  exists L', ledger_steps L ev L' /\ ledgered s' L'.
Proof.
  intros HI [Hl Hsz] Hst HL. destruct (raw_label l) as [rl|] eqn:Erl.
  - destruct (gstep_raw _ _ _ _ _ _ _ Erl Hst) as (rs & ev0 & E & Hr).
    destruct (raw_good _ _ l rl s rs ev0 HI Erl E) as [(t & v & st & Hs & -> & -> & _)|[Hn HI']].
    + destruct Hr as (w & ws & ev' & Hw & -> & Ep). change (set_waits _ _) with (popped t st ws s) in Ep.
      pose proof (pop_resumable _ _ _ _ _ _ _ _ HI Hs Hw) as HR.
      pose proof (HL t) as Hk. rewrite Hs, Hw in Hk.
      destruct (kept_inv _ _ _ _ _ Hk) as (w0 & ws0 & b & l0 & gs & rest & [= <- <-] & El & -> & Hsec & Hok & Hrest).
      pose proof (section_ret_inv _ _ Hsec) as ->. simpl in *.
      destruct (ledger_perform t (w_op w) b l0 (popped t rest ws s) (resume plat batch_size t w v (popped t rest ws s)) s' ev' L)
        as (L' & Hst' & HL'); [| |by rewrite stack_popped, waiting_popped, !decide_True| | |exact Ep|].
      * intros t' Ht. rewrite stack_popped, waiting_popped, !decide_False by done. apply HL.
      * done.
      * apply resume_frames.
      * intros s1 act Ha. pose proof (resume_asks t w v _ (rs_ok _ _ _ _ HR) (rs_serves _ _ _ _ HR) b Hok s1 act Ha) as Hres.
        by destruct act.
      * exists L'. split; [|done]. eapply ledger_cons; [by apply ledger_other|done].
    + rewrite Hn in Hr. destruct Hr as [-> ->].
      assert (forall sp t fr st, stack (raw s) t = fr :: st ->
        run_frame plat batch_size sp t fr st (raw s) = Some (rs, ev0) -> is_ret fr = false ->
        exists L', ledger_steps L (map GRaw ev0) L' /\ ledgered (set_raw rs s) L') as Hrun.
      { intros sp t fr st Hs E' Hret. pose proof (gi_stacks _ _ _ _ HI t) as Hsec. rewrite Hs in Hsec.
        destruct (sectioned_inv _ _ _ Hsec) as (w & ws & gs & rest & _ & _ & _ & HF & _).
        apply Forall_cons in HF as [Hc%serves_concurrent _]. by eapply ledger_run. }
      destruct l as [t o|t|t|t|r'|sys x86|ro]; simpl in Erl; simplify_eq; simpl in E.
      * destruct (stack (raw s) t) as [|fr st] eqn:Hs; [done|]. destruct (is_ret fr) eqn:Hret; [|by eapply Hrun].
        destruct fr; try done. by injection E as <- <-.
      * destruct (stack (raw s) t) as [|fr st] eqn:Hs; [done|]. destruct fr; try done. by eapply Hrun.
      * destruct (stack (raw s) t) as [|fr st] eqn:Hs; [done|]. destruct fr as [| | | | | | | | | | | | | | |p f| | | |]; try done. injection E as <- <-.
        exists L. split; [constructor|]. intros t'. rewrite (stack_set_goto t). change (waiting (set_raw _ s) t') with (waiting s t').
        case_decide; [subst t'|apply HL]. pose proof (HL t) as Hk. rewrite Hs in Hk.
        destruct (kept_inv _ _ _ _ _ Hk) as (w & ws & b & l0 & gs & rest & Ew & El & -> & Hsec & Hok & Hrest).
        rewrite Ew, El. simpl. constructor; [by apply (section_replace (FReclaim p f) gs [])| |done].
        destruct (entry_run t (FReclaim p f) gs [] [] _ _ Hsec Hok) as [[_ ?]|(? & ? & ? & ? & _)]; try done.
        split; [done|]. split; [done|]. split; [done|]. split; [done|]. by intros ? ? ? ?%elem_of_nil.
      * injection E as <- <-. exists L. split; [constructor|]. by eapply ledgered_same.
      * injection E as <- <-. exists L. split; [constructor|]. by eapply ledgered_same.
  - destruct l as [t o|t|t|t|r|sys x86|ro]; try done; simpl in Hst.
    2: { injection Hst as <- <-. exists L. split; [constructor|by eapply ledgered_same]. }
    destruct (at_client _) eqn:Hc; [|done]. apply bind_Some in Hst as ([s1 ev1] & Ep & [= <- <-]).
    destruct (ledger_perform t o false (L t) s (handle plat batch_size t o s) s1 ev1 (ledger_set t ((o, false) :: L t) L))
      as (L' & Hst' & HL'); [|by rewrite ledger_set_eq|apply HL|apply handle_frames| |exact Ep|].
    + intros t' Ht. rewrite ledger_set_ne by done. apply HL.
    + intros s2 act Ha. pose proof (handle_asks t o s _ _ Ha) as Hask. destruct act as [r|ro k th]; [done|].
      split; [done|]. split; [by apply entry_call|]. intros ->. by apply asked_not_all in Hask.
    + exists L'. split; [|done]. eapply ledger_cons; [apply ledger_call|done].
Qed.

Lemma ledger_gsteps s tr s' L :
  GI None s -> gsteps s tr s' -> ledgered s L -> exists L', ledger_steps L tr L' /\ ledgered s' L'.
Proof.
  intros HI Hst. revert L HI. induction Hst as [s|s1 l s2 ev tr s3 Hl Hs Hst IH]; intros L HI HL.
  - exists L. split; [constructor|done].
  - destruct (ledger_gstep _ _ _ _ _ HI Hl Hs HL) as (L2 & H12 & HL2).
    destruct (gstep_good _ _ _ _ _ _ HI Hl Hs) as [HI2 _].
    destruct (IH L2 HI2 HL2) as (L3 & H23 & HL3). exists L3. split; [by eapply ledger_steps_app|done].
Qed.

Lemma kept_ops entry st ws l : kept entry st ws l -> l.*1 = map w_op ws.
Proof. induction 1; [done|]. simpl. by f_equal. Qed.

(** ** Reclaimers *)

(** The reclaimers of thread [t'] after a step. *)
Definition reclaimers_after (l : glabel) t' (ev : list event) (before : list (Z * Z)) : list (Z * Z) :=
  match l with
  | GReturn t => if decide (t' = t) then tail before else before
  | _ => given t' ev ++ before
  end.

Lemma perform_stack t o s h s' ev : frames (LG 0) o s h -> perform plat batch_size t o h = Some (s', ev) ->
  forall t', reclaiming (stack (raw s') t') = reclaiming (stack (raw s) t').
Proof.
  intros Hf Hp t'. unfold perform in Hp. destruct h as [[s1 [r|ro k th]]|]; [|cbn [step] in Hp|done];
    destruct (Hf _ _ eq_refl) as (_ & Eth & _).
  - injection Hp as <- _. unfold stack. by rewrite Eth.
  - destruct (at_client _); [|done]. injection Hp as <- _. change (raw (set_waits _ ?x)) with (raw x).
    rewrite (stack_set_goto t). unfold stack. rewrite Eth. case_decide; [subst t'|done].
    unfold reclaiming. rewrite omap_app. by destruct ro.
Qed.

Lemma reclaimers_run sp t fr st s rs ev :
  GI None s -> stack (raw s) t = fr :: st -> (forall p f, fr <> FReclaim p f) ->
  run_frame plat batch_size sp t fr st (raw s) = Some (rs, ev) ->
  forall t', reclaiming (stack rs t') = given t' ev ++ reclaiming (stack (raw s) t').
Proof.
  intros HI Hs Hnr E t'. pose proof (gi_stacks _ _ _ _ HI t) as Hsec. rewrite Hs in Hsec.
  destruct (sectioned_inv _ _ _ Hsec) as (w & ws & gs & rest & _ & _ & _ & HF & _).
  apply Forall_cons in HF as [Hc%serves_concurrent _].
  destruct (run_frame_adds plat batch_size sp t fr st (raw s) Hc _ _ E) as (fs & s1 & E1 & Ha & Hne & _).
  destruct (run_frame_stack plat batch_size sp t fr st (raw s) Hc _ _ E) as (fs' & s2 & E2 & Hth & _).
  destruct (decide (t' = t)) as [->|Ht].
  - rewrite E1, stack_goto, decide_True, Hs by done. unfold reclaiming in *. rewrite omap_app, Ha. by destruct fr.
  - rewrite Hne, E2, stack_goto, decide_False by done. unfold stack. by rewrite Hth.
Qed.

Lemma reclaimers_gstep l s s' ev :
  GI None s -> glegal_label l s -> gstep l s = Some (s', ev) -> forall t',
  reclaiming (stack (raw s') t') = reclaimers_after l t' (raw_events ev) (reclaiming (stack (raw s) t')).
Proof.
  intros HI [Hl Hsz] Hst t'. destruct (raw_label l) as [rl|] eqn:Erl.
  - destruct (gstep_raw _ _ _ _ _ _ _ Erl Hst) as (rs & ev0 & E & Hr).
    destruct (raw_good _ _ l rl s rs ev0 HI Erl E) as [(t & v & st & Hs & -> & -> & ->)|[Hn HI']].
    + destruct Hr as (w & ws & ev' & Hw & -> & Ep). change (set_waits _ _) with (popped t st ws s) in Ep.
      rewrite (perform_stack _ _ _ _ _ _ (resume_frames _ _ _ t w v _) Ep), stack_popped.
      destruct (perform_inv _ _ _ _ _ _ _ Ep) as (_ & _ & _ & _ & Hev & _). rewrite raw_events_app, Hev. simpl.
      case_decide; [subst t'|done]. by rewrite Hs.
    + rewrite Hn in Hr. destruct Hr as [-> ->]. rewrite raw_events_map.
      destruct l as [t o|t|t|t|r'|sys x86|ro]; simpl in Erl; simplify_eq; simpl in E.
      * destruct (stack (raw s) t) as [|fr st] eqn:Hs; [done|]. by eapply (reclaimers_run false t fr st); try done; destruct fr.
      * destruct (stack (raw s) t) as [|fr st] eqn:Hs; [done|]. destruct fr; try done. by eapply reclaimers_run.
      * destruct (stack (raw s) t) as [|fr st] eqn:Hs; [done|]. destruct fr; try done. injection E as <- <-. simpl.
        rewrite (stack_goto t). case_decide; [subst t'; by rewrite Hs|done].
      * by injection E as <- <-.
      * by injection E as <- <-.
  - destruct l as [t o|t|t|t|r|sys x86|ro]; try done; simpl in Hst; [|by injection Hst as <- <-].
    destruct (at_client _) eqn:Hc; [|done]. apply bind_Some in Hst as ([s1 ev1] & Ep & [= <- <-]). simpl.
    destruct (perform_inv _ _ _ _ _ _ _ Ep) as (_ & _ & _ & _ & Hev & _). rewrite Hev. simpl.
    by apply (perform_stack _ _ _ _ _ _ (handle_frames _ _ _ t o s) Ep).
Qed.

Lemma ledgered_init (r0 : raw_state A) : threads r0 = ∅ -> ledgered (gstate_new r0) ledger_init.
Proof. intros Eth t. simpl. unfold stack. rewrite Eth, lookup_empty. constructor. Qed.

(** C12. What calls return is true. In every run of a new collector under
    clients that keep to the rules, an object is retired only during a call of
    [retire] or [defer_retire] that asks for it, once in that call; the call
    returns [Ok] exactly if it retired the object, and otherwise returns an error
    or panics with the object left to the caller. Every other call returns what
    its type allows, and errors and panics only where the source can fail: a
    constructor returns the guard that it made, an error, or a panic; refreshing,
    flushing and dropping a local guard always succeed. *)
Theorem retire_results strat cap (a0 a1 : A) (r0 : raw_state A) tr s :
  strategy_ok strat -> in_usize cap -> in_usize batch_size ->
  collector_new strat cap a0 = Ret (a1, Ok r0) -> gsteps (gstate_new r0) tr s ->
  exists L, ledger_steps ledger_init tr L /\ forall t, (L t).*1 = map w_op (waiting s t).
Proof.
  intros Hs Hc Hb E Hst. pose proof (GI_new plat _ _ _ _ _ _ Hs Hc Hb E) as HI.
  destruct (ledger_gsteps _ _ _ ledger_init HI Hst) as (L & HL & Hk).
  - apply ledgered_init. by eapply collector_new_threads.
  - exists L. split; [done|]. intros t. by eapply kept_ops.
Qed.

End Ledger.
