(* ===== verification/GuardReserve.v ===== *)
(** * What a reservation promises

    After [reserve_retire] returned [Ok], the next retirement of the same guard
    or thread does not fail, whatever other threads do meanwhile, unless a
    retirement or a flush of that guard or thread came first. A monitor reads
    the calls and results of a run: it notes which guards and threads have a
    reservation, and which calls in progress rely on one. *)

From stdpp Require Import prelude list gmap.
From S2P Require Import Prelude Alloc ThreadId Membarrier Tls RawData RawStep RawGhost RawInv RawPreserve RawFacts RawEffect RawReserve Guard GuardInv GuardPreserve GuardHandle GuardOps GuardRefine GuardSafe GuardRetire.

Open Scope Z_scope.

(** ** The monitor *)

(** Whose batch a call of [o] on thread [t] works with: that of an owned guard,
    or that of the thread. *)
Definition party (t : nat) (o : gop) : nat + nat :=
  match gop_guard o with Some (OG g) => inr g | _ => inl t end.

Definition reserves (o : gop) : bool :=
  match o with CReserve | GReserve _ => true | _ => false end.

(** Calls that may use a reservation: the retirements, and [flush]. *)
Definition spending (o : gop) : bool :=
  match o with CRetire _ _ | GDefer _ _ _ | GFlush _ => true | _ => false end.

(** Calls that work with a batch. *)
Definition batch_op (o : gop) : bool := spending o || reserves o.

(** The calls that give the thread ID back. *)
Definition closes (t : nat) (o : gop) : option (nat + nat) :=
  match o with
  | GDrop _ (OG g) => Some (inr g)
  | TExit _ => Some (inl t)
  | _ => None
  end.

(** The reservation a call ends. *)
Definition ends (t : nat) (o : gop) : option (nat + nat) :=
  if spending o then Some (party t o) else closes t o.

Definition retiring (o : gop) : bool := bool_decide (is_Some (retires o)).

(** The calls in progress, and whether they rely on a reservation; and the
    parties that have one. *)
Record tickets := mkTickets {
  calls : ledger;
  reserved : nat + nat -> bool
}.

Definition tickets_init : tickets := mkTickets ledger_init (fun _ => false).

Definition gain (h : nat + nat) (R : nat + nat -> bool) : nat + nat -> bool :=
  fun h' => if decide (h' = h) then true else R h'.

Definition lose (h : option (nat + nat)) (R : nat + nat -> bool) : nat + nat -> bool :=
  fun h' => if decide (h = Some h') then false else R h'.

(** A call of a retirement that finds a reservation relies on it, and it has
    to return [Ok]. *)
Definition ticket_event (M : tickets) (e : gevent) : option tickets :=
  match e with
  | GCall t o =>
      let b := retiring o && reserved M (party t o) in
      Some (mkTickets (ledger_set t ((o, b) :: calls M t) (calls M)) (lose (ends t o) (reserved M)))
  | GDone t r =>
      match calls M t with
      | (o, b) :: os =>
          if b && negb (bool_decide (r = GRet ROk)) then None
          else Some (mkTickets (ledger_set t os (calls M))
                 (if reserves o && bool_decide (r = GRet ROk) then gain (party t o) (reserved M) else reserved M))
      | [] => None
      end
  | GRaw _ => Some M
  end.

Fixpoint ticket_run (tr : list gevent) (M : tickets) : option tickets :=
  match tr with
  | [] => Some M
  | e :: tr => M ← ticket_event M e; ticket_run tr M
  end.

Lemma ticket_run_app tr1 tr2 M : ticket_run (tr1 ++ tr2) M = ticket_run tr1 M ≫= ticket_run tr2.
Proof.
  revert M. induction tr1 as [|e tr1 IH]; intros M; [done|]. simpl. destruct (ticket_event M e); [apply IH|done].
Qed.

Lemma ticket_run_raw ev M : ticket_run (map GRaw ev) M = Some M.
Proof. induction ev as [|e ev IH]; [done|]. exact IH. Qed.

(** ** Calls and their frames *)

(** The frames [fs] of a call of [o] that relies on a reservation or not. *)
Definition fits (o : gop) (b : bool) (fs : list frame) : Prop :=
  (reserves o = true -> exists fr, fs = [fr] /\ reserving fr) /\
  (b = true -> retiring o = true /\
    ((exists fr, fs = [fr] /\ is_Some (adds fr) /\ finds fr) \/
     (last fs = Some (FRet ROk) /\ Forall no_add fs))).

Lemma fits_plain o fs : reserves o = false -> fits o false fs.
Proof. intros Hr. split; [by rewrite Hr|done]. Qed.

Section GuardReserve.
Context {A : Type} `{Allocator A} `{BoxVec A} `{!BoxVecLaws A}.
Context `{EntryLayout Reservation} `{EntryLayout LocalBatch}.
Variables (plat : Platform) (batch_size : Z).

Abbreviation gstate := (guard_state A).
Abbreviation GI := (GI plat batch_size).
Abbreviation gstep := (gstep plat batch_size).
Abbreviation gsteps := (gsteps plat batch_size).
Abbreviation handle := (handle plat batch_size).
Abbreviation resume := (resume plat batch_size).
Abbreviation perform := (perform plat batch_size).
Implicit Types (s : gstate) (r : slot) (t g : nat) (x : gref) (w : waiter) (M : tickets) (h : nat + nat).

(** ** Reservations in a state *)

(** Room in the batch of [r], and nobody about to take it. *)
Definition secure s r : Prop :=
  room (raw s) r /\ forall t fr, fr ∈ stack (raw s) t -> spends fr <> Some r.

(** Party [h] works with thread ID [th]. *)
Definition owns s h (th : Thread) : Prop :=
  match h with
  | inl t => THREAD (registry s) !! t = Some th
  | inr g => exists og, owneds s !! g = Some og /\ o_thread og = th
  end.

Lemma owns_holds X s h th : GI X s -> owns s h th -> holds (registry s) h th.
Proof.
  destruct h as [t|g]; simpl; [done|]. intros HI (og & Hg & <-). by destruct (owned_info _ _ _ _ _ _ HI Hg).
Qed.

Lemma holds_det reg h th1 th2 : holds reg h th1 -> holds reg h th2 -> th1 = th2.
Proof. destruct h; simpl; congruence. Qed.

(** The memory that [reserve] works with. *)
Definition same_batches s s' : Prop := batches (raw s') = batches (raw s) /\ heap (raw s') = heap (raw s).

Lemma room_same s s' r : same_batches s s' -> room (raw s) r -> room (raw s') r.
Proof. intros [Eb Eh]. apply batch_kept_room. by apply batch_kept_same. Qed.

Lemma secure_same s s' r : same_batches s s' ->
  (forall t fr, fr ∈ stack (raw s') t -> spends fr = Some r -> fr ∈ stack (raw s) t) ->
  secure s r -> secure s' r.
Proof.
  intros Hs Hst [Hroom Hno]. split; [by eapply room_same|]. intros t fr Hf E. by apply (Hno t fr); [apply Hst|].
Qed.

(** ** The invariant *)

Definition top_fits s M t : Prop :=
  forall fr st w ws o b l, stack (raw s) t = fr :: st -> waiting s t = w :: ws -> calls M t = (o, b) :: l ->
    (reserves o = true -> owns s (party t o) (w_thread w) /\
       (fr = FRet ROk -> secure s (thread_slot (w_thread w)))) /\
    (b = true -> is_Some (adds fr) -> room (raw s) (thread_slot (w_thread w))).

Definition covered s (R : nat + nat -> bool) : Prop :=
  forall h, R h = true -> exists th, owns s h th /\ secure s (thread_slot th).

Definition ticketed s M : Prop :=
  (forall t, kept fits (stack (raw s) t) (waiting s t) (calls M t)) /\
  covered s (reserved M) /\ forall t, top_fits s M t.

(** ** Handlers *)

(** A handler leaves the batches alone, and takes nobody's thread ID away but
    that of [c]. *)
Definition gentle (c : option (nat + nat)) s (h : option (gstate * action)) : Prop :=
  forall s1 a, h = Some (s1, a) -> same_batches s s1 /\
    forall h0 th, owns s h0 th -> c <> Some h0 -> owns s1 h0 th.

Lemma gentle_some c s s1 a : batches (raw s1) = batches (raw s) -> heap (raw s1) = heap (raw s) ->
  (forall h th, owns s h th -> c <> Some h -> owns s1 h th) -> gentle c s (Some (s1, a)).
Proof. intros Eb Eh Ho s2 a' [= <- <-]. done. Qed.

Lemma gentle_same c s s1 a : batches (raw s1) = batches (raw s) -> heap (raw s1) = heap (raw s) ->
  registry s1 = registry s -> owneds s1 = owneds s -> gentle c s (Some (s1, a)).
Proof. intros Eb Eh Er Eo. apply gentle_some; try done. intros [t|g] th; simpl; by rewrite ?Er, ?Eo. Qed.

Lemma gentle_bind {B} c s (m : option B) k : (forall y, m = Some y -> gentle c s (k y)) -> gentle c s (m ≫= k).
Proof. destruct m as [y|]; simpl; [by intros Hk; apply Hk|by intros _ ? ? [=]]. Qed.

Lemma gentle_write c l s k : match l with LGuards _ _ | LLock _ | LUnlock _ => True | _ => False end ->
  (forall rs, batches rs = batches (raw s) -> heap rs = heap (raw s) -> gentle c s (k (set_raw rs s))) ->
  gentle c s (raw_write plat batch_size l s ≫= k).
Proof.
  intros Hl Hk. apply gentle_bind. intros s1. unfold raw_write. intros ([rs ev] & E & [= <-])%bind_Some.
  destruct l as [| | | | | |r n|r|r]; try done; simpl in E; [by injection E as <- _; apply Hk| |by injection E as <- _; apply Hk].
  destruct (lock_of (raw s) r) as [[]|]; try done. injection E as <- _. by apply Hk.
Qed.

Lemma current_kept t (reg : Registry) t' th :
  THREAD reg !! t' = Some th -> THREAD (snd (Thread_current t reg)) !! t' = Some th.
Proof.
  intros Ht. unfold Thread_current. destruct (THREAD reg !! t) as [th0|] eqn:E; [done|].
  assert (t <> t') as Hne by congruence. unfold init_slow, Thread_create. repeat case_match; simplify_eq/=; try done;
    by rewrite lookup_insert_ne.
Qed.

Lemma gentle_current c s t f :
  (forall th reg, (forall t' th', THREAD (registry s) !! t' = Some th' -> THREAD reg !! t' = Some th') ->
     gentle c s (f th (set_registry reg s))) -> gentle c s (with_current t s f).
Proof.
  intros Hf. unfold with_current. pose proof (current_kept t (registry s)) as Hk.
  destruct (Thread_current _ _) as [[th|] reg]; [by apply Hf|].
  apply gentle_some; [done..|]. intros [t'|g] th' Ho _; simpl in *; auto.
Qed.

Lemma gentle_registry c s reg a : THREAD reg = THREAD (registry s) -> gentle c s (Some (set_registry reg s, a)).
Proof. intros E. apply gentle_some; [done..|]. intros [t'|g] th' Ho _; simpl in *; by rewrite ?E. Qed.

Lemma gentle_owned_free c mem g s (r : ret) : gentle c s (OwnedGuard_free mem g r s).
Proof.
  unfold OwnedGuard_free. destruct (owned_free mem g (registry s)) as [x reg] eqn:E.
  assert (THREAD reg = THREAD (registry s)) as Eth.
  { unfold owned_free, Thread_free in E. repeat case_match; by simplify_eq. }
  destruct x; by apply gentle_registry.
Qed.

Lemma handle_gentle t o s : gentle (closes t o) s (handle t o s).
Proof.
  destruct o as [g|mem g|p f| |[g|g]|[g|g]|[g|g]|[g|g] p f|[g|g]|mem [g|g]|mem]; simpl;
    try (apply gentle_bind; intros self Hself);
    try (apply gentle_current; intros th reg Hreg; apply gentle_some; [done..|]; by intros [t'|g'] th' Ho _; simpl in *; auto);
    try (by apply gentle_same);
    try (unfold with_lock; apply gentle_write; [done|]; intros rs Hb Hh; by apply gentle_same).
  - unfold OwnedGuard_enter. destruct (owned_create g (registry s)) as [x reg] eqn:E.
    assert (THREAD reg = THREAD (registry s)) as Eth.
    { unfold owned_create, Thread_create in E. repeat case_match; by simplify_eq. }
    destruct x; by apply gentle_registry.
  - unfold LocalGuard_refresh. apply gentle_bind; intros n _. by apply gentle_same.
  - unfold LocalGuard_drop. apply gentle_bind; intros n _. apply gentle_write; [done|]; intros rs Hb Hh. by apply gentle_same.
  - apply gentle_some; [done..|]. intros [t'|g'] th Ho Hn; simpl in *; [done|]. rewrite lookup_delete_ne; [done|congruence].
  - unfold thread_exit. destruct (ThreadGuard_drop mem t (registry s)) as [x reg] eqn:E.
    assert (forall t', t' <> t -> THREAD reg !! t' = THREAD (registry s) !! t') as Eth.
    { intros t' Ht. unfold ThreadGuard_drop, Thread_free in E. repeat case_match; simplify_eq/=; try done; by rewrite lookup_delete_ne. }
    destruct x; (apply gentle_some; [done..|]); intros [t'|g'] th' Ho Hn; simpl in *; try done; rewrite Eth; try done; congruence.
Qed.

Lemma resume_gentle t w v s :
  (forall x, absent w = true -> gop_guard (w_op w) = Some x -> guard_info s x = None) -> gentle None s (resume t w v s).
Proof.
  intros Hnew. unfold Guard.resume. destruct (w_kont w) as [|r| | |x0|] eqn:Ek; try (by apply gentle_same).
  - destruct (w_op w) as [g|mem g|p f| |x0|x0|x0|x0 p f|x0|mem x0|mem]; try (by intros ? ? [=]).
    unfold LocalGuard_entered. destruct v as [| | |r]; try (by apply gentle_same).
    apply gentle_bind; intros n _. apply gentle_write; [done|]; intros rs Hb Hh. by apply gentle_same.
  - destruct (w_op w) as [g|mem g|p f| |x0|x0|x0|x0 p f|x0|mem x0|mem] eqn:Eo; try (by intros ? ? [=]).
    destruct v as [| | |r]; try apply gentle_owned_free.
    assert (guard_info s (OG g) = None) as Hg by (apply Hnew; [unfold absent; by rewrite Ek|done]). simpl in Hg.
    apply gentle_some; [done..|]. intros [t'|g'] th Ho _; simpl in *; [done|]. destruct Ho as (og & Hog & Eog).
    exists og. rewrite lookup_insert_ne; [done|]. intros ->. by rewrite Hog in Hg.
  - destruct (w_op w) as [g|mem g|p f| |x0|x0|x0|x0 p f|x0|mem [g|g]|mem]; try (by intros ? ? [=]). apply gentle_owned_free.
Qed.

(** What the handler of [o] asks the raw collector for, or answers. *)
Definition asks_for t o s (h : option (gstate * action)) : Prop :=
  forall s1 act, h = Some (s1, act) ->
    match act with
    | AReturn r => (reserves o = true -> r <> GRet ROk) /\
        (retiring o = true -> forall th, ~ owns s (party t o) th)
    | ACall ro k th =>
        (forall fr r, fr ∈ call ro -> spends fr = Some r -> spending o = true) /\
        (reserves o = true -> ro = OpReserve th /\
           forall g, o = GReserve (OG g) -> exists og, owneds s1 !! g = Some og /\ o_thread og = th) /\
        (retiring o = true -> exists p f, ro = OpAdd p f th)
    end.

Lemma asks_for_bind {B} t o s (m : option B) k :
  (forall y, m = Some y -> asks_for t o s (k y)) -> asks_for t o s (m ≫= k).
Proof. destruct m as [y|]; simpl; [by intros Hk; apply Hk|by intros _ ? ? [=]]. Qed.

Lemma asks_for_write t o s l s0 k :
  (forall rs, asks_for t o s (k (set_raw rs s0))) -> asks_for t o s (raw_write plat batch_size l s0 ≫= k).
Proof.
  intros Hk. apply asks_for_bind. intros s1. unfold raw_write. intros ([rs ev] & _ & [= <-])%bind_Some. apply Hk.
Qed.

Lemma asks_for_current t o s f : (retiring o = true -> party t o = inl t) ->
  (forall th reg, asks_for t o s (f th (set_registry reg s))) -> asks_for t o s (with_current t s f).
Proof.
  intros Hp Hf. unfold with_current. destruct (Thread_current t (registry s)) as [[th|] reg] eqn:E; [apply Hf|].
  intros s1 act [= <- <-]. split; [done|]. intros Hr th. rewrite (Hp Hr). simpl. intros Ht.
  unfold Thread_current in E. by rewrite Ht in E.
Qed.

Ltac asked := intros ? ? [= <- <-]; split; [|split];
  [by intros fr r Hf; repeat (apply elem_of_cons in Hf as [->|Hf]; [simpl; try done|]); apply elem_of_nil in Hf
  |try done|by eauto].

Lemma handle_asks_for t o s : asks_for t o s (handle t o s).
Proof.
  destruct o as [g|mem g|p f| |[g|g]|[g|g]|[g|g]|[g|g] p f|[g|g]|mem [g|g]|mem]; simpl;
    unfold Collector_retire, Collector_reserve_retire, LocalGuard_enter;
    try (apply asks_for_bind; intros self Hself);
    try (apply asks_for_current; [done|]; intros th reg); unfold with_lock; try (apply asks_for_write; intros rs).
  all: try (asked; fail).
  - unfold OwnedGuard_enter. destruct (owned_create _ _) as [[th|] reg]; [asked|by intros ? ? [= <- <-]].
  - unfold LocalGuard_refresh. apply asks_for_bind; intros n _. case_decide; [asked|by intros ? ? [= <- <-]].
  - asked. intros _. split; [done|]. intros g' [= <-]. by exists self.
  - by intros ? ? [= <- <-].
  - by intros ? ? [= <- <-].
  - unfold LocalGuard_drop. apply asks_for_bind; intros n _. apply asks_for_write; intros rs.
    case_decide; [asked|by intros ? ? [= <- <-]].
  - unfold thread_exit. destruct (ThreadGuard_drop _ _ _) as [[th|] reg]; by intros ? ? [= <- <-].
Qed.

(** What a resumed handler asks for, or answers. *)
Lemma resume_asks_for t w v s s1 act :
  waiter_ok w -> resume t w v s = Some (s1, act) ->
  match act with
  | AReturn r => reserves (w_op w) || retiring (w_op w) = true -> r = GRet v
  | ACall ro k th => batch_op (w_op w) = false /\ retiring (w_op w) = false /\ exists r, ro = OpEnter r
  end.
Proof.
  intros Hok E. unfold Guard.resume, waiter_ok in *. destruct (w_kont w) as [|r| | |x|].
  - by injection E as <- <-.
  - apply bind_Some in E as (s2 & _ & [= <- <-]). done.
  - destruct Hok as [g Eo]. rewrite Eo in *. unfold LocalGuard_entered in E. destruct v as [| | |r]; try by injection E as <- <-.
    apply bind_Some in E as (n & _ & (s2 & _ & [= _ <-])%bind_Some). case_decide; [|done].
    split; [done|]. split; [done|]. by eexists.
  - destruct Hok as (mem & g & Eo). rewrite Eo in *. unfold OwnedGuard_entered, OwnedGuard_free in E.
    destruct v as [| | |r]; try by destruct (owned_free _ _ _) as [[] ?]; injection E as <- <-. injection E as _ <-.
    split; [done|]. split; [done|]. by eexists.
  - injection E as <- <-. by destruct x; [rewrite Hok|destruct Hok as [? ->]].
  - destruct Hok as (mem & g & Eo). rewrite Eo in *. unfold OwnedGuard_free in E.
    by destruct (owned_free _ _ _) as [[] ?]; injection E as <- <-.
Qed.

(** ** Exclusion

    Two calls that work with the batch of one slot are on one thread: the
    calls of an owned guard hold its lock. *)

Lemma batch_op_locked w g : waiter_ok w -> batch_op (w_op w) = true -> gop_guard (w_op w) = Some (OG g) ->
  w_kont w = KUnlock (thread_slot (w_thread w)).
Proof.
  unfold waiter_ok. intros Hok Hb Hg. destruct (w_kont w) as [|r| | |[y|y]|].
  - specialize (Hok _ Hg). simpl in Hok. by destruct (w_op w).
  - by destruct Hok as [-> _].
  - destruct Hok as [? E]. by rewrite E in Hb.
  - destruct Hok as (? & ? & E). by rewrite E in Hb.
  - by rewrite Hok in Hb.
  - destruct Hok as [? E]. by rewrite E in Hb.
  - destruct Hok as (? & ? & E). by rewrite E in Hb.
Qed.

Lemma batch_ops_exclusive X s t1 t2 w1 w2 :
  GI X s -> w1 ∈ waiting s t1 -> w2 ∈ waiting s t2 -> batch_op (w_op w1) = true -> batch_op (w_op w2) = true ->
  thread_slot (w_thread w1) = thread_slot (w_thread w2) -> t1 = t2.
Proof.
  intros HI H1' H2' Hb1 Hb2 E. destruct (gi_waits _ _ _ _ HI _ _ H1') as [Hh1 Hok1].
  destruct (gi_waits _ _ _ _ HI _ _ H2') as [Hh2 Hok2].
  pose proof (holds_slot_inj _ _ _ _ _ (gi_reg _ _ _ _ HI) Hh1 Hh2 E) as Eh. unfold holder in Eh.
  destruct (gop_guard (w_op w1)) as [[g1|g1]|] eqn:Eg1; destruct (gop_guard (w_op w2)) as [[g2|g2]|] eqn:Eg2;
    try discriminate Eh; injection Eh as Eg; try done. subst g2.
  apply (gi_excl _ _ _ _ HI t1 t2 (thread_slot (w_thread w1))); apply elem_of_locks.
  - exists w1. split; [done|]. by eapply batch_op_locked.
  - exists w2. split; [done|]. rewrite E. by eapply batch_op_locked.
Qed.

(** ** Handlers and the monitor *)

(** The handler of call [o] of thread [t] runs, which may take the thread ID
    of [c] away; below it are the calls [l]. *)
Record between c t o (b : bool) l s M : Prop := {
  bw_calls : calls M t = (o, b) :: l;
  bw_client : at_client (stack (raw s) t) = true;
  bw_kept : kept fits (stack (raw s) t) (waiting s t) l;
  bw_others t' : t' <> t -> kept fits (stack (raw s) t') (waiting s t') (calls M t');
  bw_covered h : reserved M h = true -> c <> Some h /\ exists th, owns s h th /\ secure s (thread_slot th);
  bw_tops t' : t' <> t -> top_fits s M t';
  bw_open t' o' b' l' : t' <> t -> calls M t' = (o', b') :: l' -> reserves o' = true -> c <> Some (party t' o')
}.

(** A stack on top of which client code runs. *)
Lemma client_fits s M t l : at_client (stack (raw s) t) = true -> kept fits (stack (raw s) t) (waiting s t) l ->
  calls M t = l -> top_fits s M t.
Proof.
  intros Hc Hk El fr st w ws o b l' Hs Hw Hl. rewrite Hs, Hw, <-El, Hl in Hk. rewrite Hs in Hc.
  destruct (kept_inv _ _ _ _ _ Hk) as (w0 & ws0 & b0 & l0 & gs & rest & _ & [= -> -> ->] & _ & _ & [Hr Hb] & _).
  destruct fr; try done. split; [|by intros _ [? [=]]]. intros Ho. by destruct (Hr Ho) as (fr & [= <- _] & []).
Qed.

(** The top of another thread. *)
Lemma top_fits_other c t o b l s s' M M' t' :
  between c t o b l s M -> t' <> t -> same_batches s s' ->
  (forall h th, owns s h th -> c <> Some h -> owns s' h th) ->
  stack (raw s') t' = stack (raw s) t' -> waiting s' t' = waiting s t' -> calls M' t' = calls M t' ->
  (forall w ws o' b' l', waiting s t' = w :: ws -> calls M t' = (o', b') :: l' -> reserves o' = true ->
     forall t0 fr, fr ∈ stack (raw s') t0 -> spends fr = Some (thread_slot (w_thread w)) -> fr ∈ stack (raw s) t0) ->
  top_fits s' M' t'.
Proof.
  intros HB Ht Hsame Hown Es Ew Ec Hno fr st w ws o' b' l' Hs Hw Hl. rewrite Es in Hs. rewrite Ew in Hw. rewrite Ec in Hl.
  destruct (bw_tops _ _ _ _ _ _ _ HB t' Ht _ _ _ _ _ _ _ Hs Hw Hl) as [Hr Hb]. split.
  - intros Ho. destruct (Hr Ho) as [Hown' Hsec]. split; [apply Hown; [done|by eapply (bw_open _ _ _ _ _ _ _ HB)]|].
    intros Hret. eapply secure_same; [done| |by apply Hsec]. by eapply Hno.
  - intros Hb' Ha. eapply room_same; [done|]. by apply Hb.
Qed.

(** The handler returns [r] to its client. *)
Lemma ticket_return c t o b l s s1 M (r : gret) :
  between c t o b l s M -> waits s1 = waits s -> threads (raw s1) = threads (raw s) ->
  same_batches s s1 -> (forall h th, owns s h th -> c <> Some h -> owns s1 h th) ->
  (b = true -> r = GRet ROk) ->
  (reserves o = true -> r = GRet ROk -> exists th, owns s1 (party t o) th /\ secure s1 (thread_slot th)) ->
  exists M', ticket_run [GDone t r] M = Some M' /\ ticketed s1 M'.
Proof.
  intros HB Ew Eth Hsame Hown Hb Hr.
  assert (forall u, stack (raw s1) u = stack (raw s) u) as Est by (intros u; unfold stack; by rewrite Eth).
  assert (forall u, waiting s1 u = waiting s u) as Ewt by (intros u; unfold waiting; by rewrite Ew).
  simpl. rewrite (bw_calls _ _ _ _ _ _ _ HB).
  assert (b && negb (bool_decide (r = GRet ROk)) = false) as ->.
  { destruct b; [|done]. by rewrite bool_decide_eq_true_2 by auto. }
  eexists. split; [done|].
  set (R' := if reserves o && bool_decide (r = GRet ROk) then _ else _).
  assert (forall u, u <> t -> ledger_set t l (calls M) u = calls M u) as Ene by (intros; by apply ledger_set_ne).
  assert (forall u, kept fits (stack (raw s1) u) (waiting s1 u) (ledger_set t l (calls M) u)) as Hk.
  { intros u. rewrite Est, Ewt. destruct (decide (u = t)) as [->|Hu].
    - rewrite ledger_set_eq. apply (bw_kept _ _ _ _ _ _ _ HB).
    - rewrite Ene by done. by apply (bw_others _ _ _ _ _ _ _ HB). }
  split; [done|]. split.
  - assert (forall h, reserved M h = true -> exists th, owns s1 h th /\ secure s1 (thread_slot th)) as Hold.
    { intros h Hh. destruct (bw_covered _ _ _ _ _ _ _ HB h Hh) as (Hc & th & Ho & Hsec). exists th. split; [by apply Hown|].
      eapply secure_same; [done| |done]. intros u fr. by rewrite Est. }
    intros h. simpl. unfold R'. destruct (reserves o) eqn:Ho; [|apply Hold]. simpl.
    case_bool_decide as Hok; [|apply Hold]. unfold gain. case_decide as Hh; [subst h; intros _; by apply Hr|apply Hold].
  - intros u. destruct (decide (u = t)) as [->|Hu].
    + apply (client_fits s1 _ t l); [by rewrite Est; apply (bw_client _ _ _ _ _ _ _ HB)| |simpl; by rewrite ledger_set_eq].
      specialize (Hk t). by rewrite ledger_set_eq in Hk.
    + eapply (top_fits_other c t o b l s s1 M); try done; [by simpl; apply Ene|]. intros ? ? ? ? ? _ _ _ t0 fr. by rewrite Est.
Qed.

(** The handler calls the raw collector and waits. *)
Lemma ticket_call c t o b l s s1 M ro k th :
  between c t o b l s M -> waits s1 = waits s -> threads (raw s1) = threads (raw s) ->
  same_batches s s1 -> (forall h th, owns s h th -> c <> Some h -> owns s1 h th) ->
  let s' := pushed t (mkWaiter o k th) ro s1 in
  GI None s' -> section (call ro) -> fits o b (call ro) ->
  (forall fr r, fr ∈ call ro -> spends fr = Some r -> spending o = true) ->
  (spending o = true -> reserved M (party t o) = false) ->
  (reserves o = true -> ro = OpReserve th /\ owns s1 (party t o) th) ->
  (b = true -> exists th, owns s1 (party t o) th /\ room (raw s1) (thread_slot th)) ->
  ticketed s' M.
Proof.
  intros HB Ew Eth Hsame Hown s' HI Hsec Hfits Hsp Hused Hres Hb.
  assert (forall u, stack (raw s') u = if decide (u = t) then call ro ++ stack (raw s) t else stack (raw s) u) as Est
    by (intros u; unfold s'; rewrite stack_pushed; unfold stack; by rewrite Eth).
  assert (forall u, waiting s' u = if decide (u = t) then mkWaiter o k th :: waiting s t else waiting s u) as Ewt
    by (intros u; unfold s'; rewrite waiting_pushed; unfold waiting; by rewrite Ew).
  assert (same_batches s s') as Hsame' by done.
  assert (forall h th, owns s1 h th -> owns s' h th) as Hos by (by intros []).
  assert (forall h th, owns s h th -> c <> Some h -> owns s' h th) as Hown' by (intros; by apply Hos, Hown).
  assert (mkWaiter o k th ∈ waiting s' t) as Hin by (rewrite Ewt, decide_True by done; by left).
  destruct (gi_waits _ _ _ _ HI _ _ Hin) as [Hh _]. change (holder t (mkWaiter o k th)) with (party t o) in Hh. simpl in Hh.
  (* a frame of the call does not spend the slot of another party *)
  assert (forall r, (spending o = true -> thread_slot th = r -> False) ->
    forall u fr, fr ∈ stack (raw s') u -> spends fr = Some r -> fr ∈ stack (raw s) u) as Hnew.
  { intros r Hr u fr. rewrite Est. case_decide as Hu; [subst u|done]. rewrite elem_of_app. intros [Hf|Hf] Efr; [|done].
    exfalso. apply Hr; [by eapply Hsp|]. apply spends_uses in Efr as Eu.
    assert (fr ∈ stack (raw s') t) as Hf' by (rewrite Est, decide_True, elem_of_app by done; by left).
    destruct (slot_user _ _ _ _ _ _ _ HI Hf' Eu) as (st & w & ws & _ & Ew' & -> & _).
    rewrite Ewt, decide_True in Ew' by done. by injection Ew' as <- _. }
  split; [|split].
  - intros u. rewrite Est, Ewt. case_decide as Hu; [subst u|by apply (bw_others _ _ _ _ _ _ _ HB)].
    rewrite (bw_calls _ _ _ _ _ _ _ HB).
    apply (kept_cons fits (call ro) _ (mkWaiter o k th)); [done|done|apply (bw_kept _ _ _ _ _ _ _ HB)].
  - intros h Eh. destruct (bw_covered _ _ _ _ _ _ _ HB h Eh) as (Hc & th' & Ho & Hs'). exists th'.
    split; [by apply Hown'|]. eapply secure_same; [done| |done]. apply Hnew. intros Hso Esl.
    assert (party t o = h) as Ep.
    { eapply holds_slot_inj; [apply (gi_reg _ _ _ _ HI)|exact Hh| |exact Esl]. apply (owns_holds None s'); [exact HI|by apply Hown']. }
    rewrite <-Ep, Hused in Eh; done.
  - intros u. destruct (decide (u = t)) as [->|Hu].
    + intros fr st w ws o' b' l' Hs Hw Hl. rewrite (bw_calls _ _ _ _ _ _ _ HB) in Hl. injection Hl as <- <- <-.
      rewrite Ewt, decide_True in Hw by done. injection Hw as <- <-. simpl. rewrite Est, decide_True in Hs by done. split.
      * intros Ho. destruct (Hres Ho) as [-> Ho']. split; [by apply Hos|]. injection Hs as <- _. done.
      * intros Hb' _. destruct (Hb Hb') as (th' & Ho' & Hroom).
        assert (th' = th) as -> by (eapply holds_det; [|exact Hh]; apply (owns_holds None s'); [exact HI|by apply Hos]). done.
    + eapply (top_fits_other c t o b l s s' M M u); try done; [by rewrite Est, decide_False|by rewrite Ewt, decide_False|].
      intros w ws o' b' l' Hw Hl Ho'. apply Hnew. intros Hso Esl.
      assert (w ∈ waiting s' u) as Hin' by (rewrite Ewt, decide_False, Hw by done; by left).
      pose proof (bw_others _ _ _ _ _ _ _ HB u Hu) as Hk. rewrite Hw, Hl in Hk.
      assert (w_op w = o') as <- by (by inversion Hk).
      apply Hu. symmetry. eapply (batch_ops_exclusive None s' t u); [done|exact Hin|exact Hin'| | |exact Esl];
        unfold batch_op; simpl; [by rewrite Hso|by rewrite Ho', orb_true_r].
Qed.

(** ** Frames and the monitor *)

Lemma fits_ret o b v : fits o b [FRet v] -> b = true -> v = ROk.
Proof.
  intros [_ Hb] Eb. destruct (Hb Eb) as (_ & [(fr & [= <-] & [? [=]] & _)|[[= ->] _]]). done.
Qed.

(** A frame of a call that relies on a reservation runs. *)
Lemma relied_run sp (rs : raw_state A) t fr gs rest rs' ev fs (s1 : raw_state A) o :
  Inv plat batch_size rs -> section (fr :: gs) -> fits o true (fr :: gs) -> is_ret fr = false ->
  (is_Some (adds fr) -> forall r, uses fr = Some r -> room rs r) ->
  run_frame plat batch_size sp t fr (gs ++ rest) rs = Some (rs', ev) -> rs' = goto t (fs ++ gs ++ rest) s1 ->
  add_effect t fr fs ev ->
  (exists fr', fs ++ gs = [fr'] /\ is_Some (adds fr') /\ finds fr' /\
     exists k th pc, fr = FLoad k th pc /\ is_Some (adds fr)) \/
  (last (fs ++ gs) = Some (FRet ROk) /\ Forall no_add (fs ++ gs)).
Proof.
  intros HI Hsec [_ Hb] Hr Hroom E -> (_ & _ & _ & Ha). destruct (Hb eq_refl) as (_ & Hf). clear Hb.
  assert (forall fs', stack (goto t (fs ++ gs ++ rest) s1) t = fs' ++ gs ++ rest -> fs' = fs) as Huniq.
  { intros fs' Es. rewrite stack_goto, decide_True in Es by done. by apply app_inv_tail in Es. }
  destruct Hf as [(fr' & [= <- ->] & Hadd & Hfind)|[Hl [Hn HF]%Forall_cons]].
  - rewrite app_nil_r. specialize (Hroom Hadd). destruct Hadd as [pf Hadd].
    destruct fr as [[|p f|] th pc|r p f| | | | | | | | | | | | | | | | | |]; try done; cbn [run_frame app] in *.
    + destruct (load_with_room rs t p f th pc rest _ _ (Hroom _ eq_refl) Hfind E) as (fr' & s2 & E' & _ & Hf' & Hcase).
      left. exists fr'. split; [symmetry; apply (Huniq [fr']); by rewrite E', stack_goto, decide_True|].
      split; [destruct Hcase as [-> | ->]; by eexists|]. split; [done|]. eauto 10.
    + destruct (add_step_with_room batch_size rs t r p f rest _ _ (Hroom _ eq_refl) E) as (fs' & s2 & E' & Hl).
      assert (fs' = fs) as -> by (apply Huniq; by rewrite E', stack_goto, decide_True).
      right. split; [done|]. injection Hadd as <-. simpl in Ha.
      destruct Ha as [[_ [(fr' & -> & Hf')| ->]]|(ev' & _ & _ & _ & HF)]; [|done..].
      simpl in Hl. by injection Hl as ->.
  - unfold no_add in Hn. rewrite Hn in Ha. destruct Ha as [HF' _]. right. split; [|by apply Forall_app].
    destruct gs as [|g gs]; [simpl in Hl; by injection Hl as ->|]. rewrite last_app. rewrite last_cons in Hl.
    by rewrite last_cons in Hl |- *; destruct (last gs).
Qed.

(** The room of a retirement on another thread stays. *)
Lemma relied_other sp s t fr st rs ev u fu su r :
  GI None s -> stack (raw s) t = fr :: st -> concurrent fr -> u <> t ->
  run_frame plat batch_size sp t fr st (raw s) = Some (rs, ev) ->
  stack (raw s) u = fu :: su -> uses fu = Some r -> room (raw s) r -> room rs r.
Proof.
  intros HI Hs Hc Hu E Hsu Huse. pose proof (gi_raw _ _ _ _ HI) as HR.
  assert (uses fr <> Some r) as Hno.
  { eapply (uses_once _ _ _ _ _ _ _ t fr HR Hsu Huse). rewrite decide_False by congruence. rewrite Hs. by left. }
  eapply (run_frame_room plat batch_size sp (raw s) t fr st r); try done; [by intros p f ->|by intros pc ->].
Qed.

(** Thread [t] ran the frame [fr], on top of [gs] in its call [w], and got the
    frames [fs] for it. *)
Record ran sp s t fr gs rest fs rs ev w ws b l M : Prop := {
  rn_stack : stack (raw s) t = fr :: gs ++ rest;
  rn_wait : waiting s t = w :: ws;
  rn_calls : calls M t = (w_op w, b) :: l;
  rn_section : section (fr :: gs);
  rn_fits : fits (w_op w) b (fr :: gs);
  rn_kept : kept fits rest ws l;
  rn_serves : serves w fr;
  rn_ret : is_ret fr = false;
  rn_run : run_frame plat batch_size sp t fr (gs ++ rest) (raw s) = Some (rs, ev);
  rn_goto : exists s1 : raw_state A, rs = goto t (fs ++ gs ++ rest) s1 /\ threads s1 = threads (raw s);
  rn_replaces : replaces fr fs;
  rn_follows : Forall (follows fr) fs;
  rn_adds : add_effect t fr fs ev
}.

Lemma ran_intro sp s t fr st rs ev M :
  GI None s -> stack (raw s) t = fr :: st -> is_ret fr = false ->
  run_frame plat batch_size sp t fr st (raw s) = Some (rs, ev) -> ticketed s M ->
  exists gs rest fs w ws b l, ran sp s t fr gs rest fs rs ev w ws b l M.
Proof.
  intros HI Hs Hr E (Hk & _). pose proof (gi_stacks _ _ _ _ HI t) as Hsec. rewrite Hs in Hsec.
  destruct (sectioned_inv _ _ _ Hsec) as (w0 & ws0 & gs0 & rest0 & Ew0 & -> & _ & HF & _ & _).
  apply Forall_cons in HF as [Hserves _]. pose proof (serves_concurrent _ _ Hserves) as Hc.
  pose proof (Hk t) as Hkt. rewrite Hs in Hkt.
  destruct (kept_inv _ _ _ _ _ Hkt) as (w & ws & b & l & gs & rest & Ew & El & Est & Hgs & Hfits & Hrest).
  rewrite Ew in Ew0. injection Ew0 as <- <-. rewrite Est in Hs, E.
  destruct (run_frame_stack plat batch_size sp t fr _ (raw s) Hc _ _ E) as (fs & s1 & Ers & Hth & Hrep & Hfol & _).
  destruct (run_frame_adds plat batch_size sp t fr _ (raw s) Hc _ _ E) as (fs' & s2 & Ers' & Ha).
  assert (fs' = fs) as ->.
  { apply (app_inv_tail (gs ++ rest)). transitivity (stack rs t); [rewrite Ers'|rewrite Ers]; by rewrite stack_goto, decide_True. }
  exists gs, rest, fs, w, ws, b, l. by constructor; eauto.
Qed.

Section Ran.
Context sp s t fr gs rest fs rs ev w ws b l M (HI : GI None s) (HR : ran sp s t fr gs rest fs rs ev w ws b l M).

Lemma ran_concurrent : concurrent fr.
Proof using HR. by eapply serves_concurrent, rn_serves. Qed.

Lemma ran_stack u : stack (raw (set_raw rs s)) u = if decide (u = t) then fs ++ gs ++ rest else stack (raw s) u.
Proof using HR.
  destruct (rn_goto _ _ _ _ _ _ _ _ _ _ _ _ _ _ HR) as (s1 & Ers & Hth).
  change (raw (set_raw rs s)) with rs. rewrite Ers, stack_goto. unfold stack. by rewrite Hth.
Qed.

(** Slots that the frame does not spend stay secure. *)
Lemma ran_secure r : secure s r -> secure (set_raw rs s) r.
Proof using HI HR.
  intros [Hroom Hno]. pose proof (rn_stack _ _ _ _ _ _ _ _ _ _ _ _ _ _ HR) as Hs.
  assert (spends fr <> Some r) as Hfr by (apply (Hno t); rewrite Hs; by left). split.
  - eapply (run_frame_room plat batch_size sp (raw s) t fr); try done;
      [apply (gi_raw _ _ _ _ HI)|apply ran_concurrent|by intros p f ->|by intros pc ->|by eapply rn_run].
  - intros u f. rewrite ran_stack. case_decide as Hu; [subst u|apply (Hno u)].
    rewrite elem_of_app. intros [Hf|Hf] Ef.
    + pose proof (rn_follows _ _ _ _ _ _ _ _ _ _ _ _ _ _ HR) as Hfol. eapply Forall_forall in Hfol; [|done].
      apply Hfr. by eapply follows_spends.
    + apply (Hno t f); [|done]. rewrite Hs. by right.
Qed.

(** [reserve] goes on, and when it succeeds there is room. *)
Lemma ran_reserving : reserves (w_op w) = true -> exists fr', fs ++ gs = [fr'] /\ reserving fr' /\
  (fr' = FRet ROk -> secure (set_raw rs s) (thread_slot (w_thread w))).
Proof using HI HR.
  intros Ho. pose proof (gi_raw _ _ _ _ HI) as HI'. destruct HR as [Hs _ _ _ [Hf _] _ Hserves Hret E _ _ _ _].
  destruct (Hf Ho) as (fr0 & [= <- Egs] & Hfr). pose proof ran_stack as Hstk. rewrite Egs in *. rewrite app_nil_r.
  destruct (run_reserving plat batch_size sp (raw s) t fr rest rs ev HI' Hs Hfr Hret E) as (fr' & Es' & Hfr' & Hok).
  assert (fs = [fr']) as Efs.
  { specialize (Hstk t). rewrite decide_True in Hstk by done. change (raw (set_raw rs s)) with rs in Hstk.
    rewrite Es' in Hstk. by apply (app_inv_tail rest fs [fr']). }
  exists fr'. split; [done|]. split; [done|]. intros ->. destruct (Hok eq_refl) as (r & Er & Hroom). subst fr.
  pose proof (serves_slot _ _ _ Hserves eq_refl) as ->. split; [done|]. intros u f. rewrite Hstk, Efs. intros Hf0 Ef.
  apply spends_uses in Ef. case_decide as Hu; [subst u; apply elem_of_cons in Hf0 as [->|Hf0]; [done|]|];
    eapply (uses_once _ _ _ _ _ _ _ _ f HI' Hs); try done; [by rewrite decide_True|by rewrite decide_False].
Qed.

(** A retirement that relies on a reservation goes on, and does not fail. *)
Lemma ran_relied : top_fits s M t -> b = true ->
  (exists fr', fs ++ gs = [fr'] /\ is_Some (adds fr') /\ finds fr' /\ room rs (thread_slot (w_thread w))) \/
  (last (fs ++ gs) = Some (FRet ROk) /\ Forall no_add (fs ++ gs)).
Proof using HI HR.
  intros Htop Hb. pose proof (gi_raw _ _ _ _ HI) as HI'. pose proof ran_concurrent as Hc.
  destruct HR as [Hs Ew El Hsec Hfits _ Hserves Hret E (s1 & Ers & _) _ _ Ha]. rewrite Hb in *.
  destruct (Htop _ _ _ _ _ _ _ Hs Ew El) as [_ Hrel].
  destruct (relied_run sp (raw s) t fr gs rest rs ev fs s1 (w_op w)) as [(fr' & Ef & Hadd & Hfind & k & th & pc & Efr & Hadd0)|]; try done.
  - intros Hadd r Hu. rewrite (serves_slot _ _ _ Hserves Hu). by apply Hrel.
  - left. exists fr'. split; [done|]. split; [done|]. split; [done|]. subst fr.
    eapply (run_frame_room plat batch_size sp (raw s) t (FLoad k th pc)); try done. by apply Hrel.
  - by right.
Qed.

Lemma ran_top : top_fits s M t -> top_fits (set_raw rs s) M t.
Proof using HI HR.
  intros Htop f su w' ws' o' b' l' Hs' Hw' Hl'. change (waiting s t = w' :: ws') in Hw'.
  pose proof (ran_reserving) as Hres. pose proof (ran_relied Htop) as Hrel. rewrite ran_stack, decide_True in Hs' by done.
  destruct HR as [Hs Ew El _ _ _ _ _ _ _ _ _ _]. rewrite Ew in Hw'. injection Hw' as <- <-. rewrite El in Hl'. injection Hl' as <- <- <-.
  rewrite (assoc_L (++)) in Hs'. split.
  - intros Ho. destruct (Hres Ho) as (fr' & Ef & _ & Hsec). rewrite Ef in Hs'. injection Hs' as <- _.
    destruct (Htop _ _ _ _ _ _ _ Hs Ew El) as [Hres0 _]. destruct (Hres0 Ho) as [Hown _].
    split; [by destruct (party t (w_op w))|done].
  - intros Hb Hadd. destruct (Hrel Hb) as [(fr' & _ & _ & _ & Hroom)|[Hl HF]]; [done|].
    exfalso. destruct (fs ++ gs) as [|f0 fs0]; [done|]. injection Hs' as <- _.
    apply Forall_cons in HF as [Hn _]. unfold no_add in Hn. rewrite Hn in Hadd. by destruct Hadd.
Qed.

Lemma ran_other u : u <> t -> top_fits s M u -> top_fits (set_raw rs s) M u.
Proof using HI HR.
  intros Hu Htop f su w' ws' o' b' l' Hs' Hw' Hl'. change (waiting s u = w' :: ws') in Hw'.
  rewrite ran_stack, decide_False in Hs' by done. destruct (Htop _ _ _ _ _ _ _ Hs' Hw' Hl') as [Hres Hrel]. split.
  - intros Ho. destruct (Hres Ho) as [Hown Hsec]. split; [by destruct (party u o')|]. intros Hf. by apply ran_secure, Hsec.
  - intros Hb Hadd. pose proof (gi_stacks _ _ _ _ HI u) as Hsu. rewrite Hs', Hw' in Hsu.
    destruct (sectioned_inv _ _ _ Hsu) as (w2 & ws2 & gs2 & rest2 & [= <- <-] & _ & _ & HF & _).
    apply Forall_cons in HF as [Hsf _].
    assert (uses f = Some (thread_slot (w_thread w'))) as Huse.
    { destruct Hadd as [[p q] Hadd]. destruct f as [[] th pc|r p0 f0| | | | | | | | | | | | | | | | | |]; try done; simpl in *;
        by destruct Hsf as [_ ->]. }
    eapply (relied_other sp s t fr); try done; [by eapply rn_stack|apply ran_concurrent|by eapply rn_run|by apply Hrel].
Qed.

Lemma ran_ticketed : ticketed s M -> ticketed (set_raw rs s) M.
Proof using HI HR.
  intros (Hk & Hcov & Htop). split; [|split].
  - intros u. change (waiting (set_raw rs s) u) with (waiting s u). rewrite ran_stack. case_decide as Hu; [subst u|apply Hk].
    pose proof ran_reserving as Hres. pose proof (ran_relied (Htop t)) as Hrel.
    destruct HR as [_ -> -> Hsec [_ Hb0] Hrest _ Hret _ _ Hrep _ _]. rewrite (assoc_L (++)).
    constructor; [by eapply section_replace| |done]. split.
    + intros Ho. destruct (Hres Ho) as (fr' & -> & ? & _). eauto.
    + intros Hb. split; [by apply Hb0|]. destruct (Hrel Hb) as [(fr' & -> & ? & ? & _)|]; [left; eauto|by right].
  - intros h Hh. destruct (Hcov h Hh) as (th & Ho & Hsc). exists th. split; [by destruct h|by apply ran_secure].
  - intros u. destruct (decide (u = t)) as [->|Hu]; [by apply ran_top|by apply ran_other].
Qed.

End Ran.

(** ** Steps *)

(** Steps of the raw collector that run no frame. *)
Lemma ticketed_quiet s rs M :
  ticketed s M -> threads rs = threads (raw s) -> batches rs = batches (raw s) -> heap rs = heap (raw s) ->
  ticketed (set_raw rs s) M.
Proof.
  intros (Hk & Hcov & Htop) Eth Eb Eh. assert (forall u, stack rs u = stack (raw s) u) as Es by (intros u; unfold stack; by rewrite Eth).
  assert (forall r, secure s r -> secure (set_raw rs s) r) as Hsec.
  { intros r. apply secure_same; [done|]. intros u fr. simpl. by rewrite Es. }
  split; [|split].
  - intros u. simpl. rewrite Es. apply Hk.
  - intros h Hh. destruct (Hcov h Hh) as (th & Ho & ?). exists th. split; [by destruct h|by apply Hsec].
  - intros u fr st w ws o b l Hs Hw Hl. simpl in Hs. rewrite Es in Hs. destruct (Htop u _ _ _ _ _ _ _ Hs Hw Hl) as [Hr Hb]. split.
    + intros Ho. destruct (Hr Ho) as [Hown Hret]. split; [by destruct (party u o)|auto].
    + intros Hb' Ha. apply (room_same s (set_raw rs s)); [done|auto].
Qed.

(** A reclaimer returns. *)
Lemma ticketed_reclaimed s t p f st M :
  stack (raw s) t = FReclaim p f :: st -> ticketed s M -> ticketed (set_raw (goto t st (raw s)) s) M.
Proof.
  intros Hs (Hk & Hcov & Htop). pose proof (Hk t) as Hkt. rewrite Hs in Hkt.
  destruct (kept_inv _ _ _ _ _ Hkt) as (w & ws & b & l & gs & rest & Ew & El & -> & Hsec & [Hr Hb] & Hrest). clear Hkt.
  assert (reserves (w_op w) = false) as Ho.
  { destruct (reserves (w_op w)); [|done]. by destruct (Hr eq_refl) as (? & [= <- _] & []). }
  assert (b = true -> retiring (w_op w) = true /\ last gs = Some (FRet ROk) /\ Forall no_add gs) as Hb'.
  { intros Eb. destruct (Hb Eb) as (Hret & [(fr & [= <- _] & [? [=]] & _)|[Hl [_ HF]%Forall_cons]]). split; [done|]. split; [|done].
    by destruct gs as [|g gs]; [|rewrite last_cons in Hl; rewrite last_cons in Hl |- *; destruct (last gs)]. }
  assert (forall u, stack (raw (set_raw (goto t (gs ++ rest) (raw s)) s)) u =
    if decide (u = t) then gs ++ rest else stack (raw s) u) as Est by (intros u; apply (stack_set_goto t)).
  assert (forall r, secure s r -> secure (set_raw (goto t (gs ++ rest) (raw s)) s) r) as Hsecure.
  { intros r. apply secure_same; [done|]. intros u fr. rewrite Est. case_decide; [subst u|done]. rewrite Hs. by right. }
  split; [|split].
  - intros u. change (waiting (set_raw _ s) u) with (waiting s u). rewrite Est. case_decide; [subst u|apply Hk].
    rewrite Ew, El. constructor; [by apply (section_replace (FReclaim p f) gs [])| |done].
    split; [by rewrite Ho|]. intros Eb. destruct (Hb' Eb) as (? & ? & ?). auto.
  - intros h Hh. destruct (Hcov h Hh) as (th & Hown & ?). exists th. split; [by destruct h|by apply Hsecure].
  - intros u fr su w' ws' o' b' l' Hs' Hw' Hl'. change (waiting s u = w' :: ws') in Hw'. rewrite Est in Hs'. case_decide as Hu.
    + subst u. rewrite El in Hl'. injection Hl' as <- <- _. split; [by rewrite Ho|]. intros Eb [pf Ha].
      destruct (Hb' Eb) as (_ & Hl & HF). destruct gs as [|g gs]; [done|]. injection Hs' as <- _.
      apply Forall_cons in HF as [Hn _]. unfold no_add in Hn. by rewrite Hn in Ha.
    + destruct (Htop u _ _ _ _ _ _ _ Hs' Hw' Hl') as [Hr' Hb2]. split; [|done].
      intros Ho'. destruct (Hr' Ho') as [Hown Hret]. split; [by destruct (party u o')|auto].
Qed.

(** The raw collector returns to a handler. *)
Lemma between_popped s t v st w ws b l M :
  GI None s -> stack (raw s) t = FRet v :: st -> waiting s t = w :: ws -> calls M t = (w_op w, b) :: l -> kept fits st ws l ->
  ticketed s M -> between None t (w_op w) b l (popped t st ws s) M.
Proof.
  intros HI Hs Hw Hl Hkept (Hk & Hcov & Htop). pose proof (pop_resumable _ _ _ _ _ _ _ _ HI Hs Hw) as HR.
  assert (forall r, secure s r -> secure (popped t st ws s) r) as Hsecure.
  { intros r. apply secure_same; [done|]. intros u fr. rewrite stack_popped. case_decide; [subst u|done]. rewrite Hs. by right. }
  constructor; try done.
  - apply (rs_client _ _ _ _ HR).
  - by rewrite stack_popped, waiting_popped, !decide_True.
  - intros u Hu. rewrite stack_popped, waiting_popped, !decide_False by done. apply Hk.
  - intros h Hh. split; [done|]. destruct (Hcov h Hh) as (th & Ho & ?). exists th. split; [by destruct h|auto].
  - intros u Hu fr su w' ws' o' b' l' Hs' Hw' Hl'. rewrite stack_popped, decide_False in Hs' by done.
    rewrite waiting_popped, decide_False in Hw' by done. destruct (Htop u _ _ _ _ _ _ _ Hs' Hw' Hl') as [Hr' Hb']. split; [|done].
    intros Ho'. destruct (Hr' Ho') as [Hown Hret]. split; [by destruct (party u o')|auto].
Qed.

(** Client code calls [o]. *)
Definition called t o M : tickets :=
  mkTickets (ledger_set t ((o, retiring o && reserved M (party t o)) :: calls M t) (calls M)) (lose (ends t o) (reserved M)).

Lemma between_called s t o M :
  at_client (stack (raw s) t) = true -> glegal t o s -> ticketed s M ->
  between (closes t o) t o (retiring o && reserved M (party t o)) (calls M t) s (called t o M).
Proof.
  intros Hc Hl (Hk & Hcov & Htop). constructor; simpl; try done.
  - by rewrite ledger_set_eq.
  - intros u Hu. rewrite ledger_set_ne by done. apply Hk.
  - intros h. unfold lose. case_decide as He; [done|]. intros Hh. split; [|by apply Hcov].
    unfold ends in He. intros Ec. apply He. destruct (spending o) eqn:Eo; [by destruct o|done].
  - intros u Hu fr su w ws o' b' l' Hs Hw Hl'. simpl in Hl'. rewrite ledger_set_ne in Hl' by done.
    exact (Htop u _ _ _ _ _ _ _ Hs Hw Hl').
  - intros u o' b' l' Hu Hl' Hr. rewrite ledger_set_ne in Hl' by done.
    destruct o as [| | | | | | | | |mem [g|g]|mem]; try done; simpl; unfold party; intros [= E].
    + destruct Hl as [_ Hborrow]. specialize (Hk u). rewrite Hl' in Hk. inversion Hk as [|fs rest w ws b l Hsec Hf Hk' Es Ew]; subst.
      destruct (gop_guard (w_op w)) as [[g'|g']|] eqn:Eg; try done. injection E as <-.
      by destruct (Hborrow (w_op w)) as [? _]; [exists u, w; rewrite <-Ew; split; [left|]|].
    + destruct (gop_guard o') as [[g'|g']|]; by simplify_eq.
Qed.

Lemma ticket_resume s t v st w ws M s' ev :
  GI None s -> stack (raw s) t = FRet v :: st -> waiting s t = w :: ws -> GI None s' ->
  perform t (w_op w) (resume t w v (popped t st ws s)) = Some (s', ev) -> ticketed s M ->
  exists M', ticket_run ev M = Some M' /\ ticketed s' M'.
Proof.
  intros HI Hs Hw HI' Hp HT. pose proof HT as (Hk & _ & Htop). pose proof (pop_resumable _ _ _ _ _ _ _ _ HI Hs Hw) as HR.
  pose proof (Hk t) as Hkt. rewrite Hs, Hw in Hkt.
  destruct (kept_inv _ _ _ _ _ Hkt) as (w0 & ws0 & b & l & gs & rest & [= <- <-] & El & -> & Hsec & Hfits & Hrest).
  pose proof (section_ret_inv _ _ Hsec) as ->. simpl in Hs, Hp, HR. clear Hkt.
  pose proof (between_popped s t v rest w ws b l M HI Hs Hw El Hrest HT) as HB.
  assert (gentle None (popped t rest ws s) (resume t w v (popped t rest ws s))) as Hg
    by (apply resume_gentle; intros x; apply (rs_load _ _ _ _ HR)).
  pose proof (resume_frames plat batch_size (LG 0) t w v (popped t rest ws s)) as Hf.
  destruct (Htop t _ _ _ _ _ _ _ Hs Hw El) as [Hres _].
  unfold Guard.perform in Hp. destruct (resume t w v (popped t rest ws s)) as [[s1 act]|] eqn:Er; [|done].
  destruct (Hg _ _ eq_refl) as [Hsame Hown]. destruct (Hf _ _ eq_refl) as (Ew & Eth & _).
  pose proof (resume_asks_for t w v _ _ _ (rs_ok _ _ _ _ HR) Er) as Hask. destruct act as [r|ro k th].
  - injection Hp as <- <-. eapply (ticket_return None t (w_op w) b l); try done.
    + intros ->. rewrite Hask; [by rewrite (fits_ret _ _ _ Hfits eq_refl)|]. destruct Hfits as [_ Hb].
      destruct (Hb eq_refl) as [-> _]. apply orb_true_r.
    + intros Ho ->. assert (v = ROk) as -> by (symmetry; specialize (Hask ltac:(by rewrite Ho)); congruence).
      destruct (Hres Ho) as [Hown' Hsc]. exists (w_thread w). split; [apply Hown; [by destruct (party t (w_op w))|done]|].
      apply (secure_same s); [exact Hsame| |by apply Hsc]. intros u fr Hin Hsp.
      assert (stack (raw s1) u = stack (raw (popped t rest ws s)) u) as E by (unfold stack; by rewrite Eth). rewrite E, stack_popped in Hin.
      case_decide; [subst u; rewrite Hs; by right|done].
  - cbn [step] in Hp. destruct (at_client _); [|done]. injection Hp as <- <-. exists M. split; [done|].
    destruct Hask as (Hbo & Hret & r & ->). apply orb_false_iff in Hbo as [Hsp Hrs].
    eapply (ticket_call None t (w_op w) b l (popped t rest ws s)); try done.
    + by apply section_call.
    + assert (b = false) as -> by (destruct b, Hfits as [_ Hb]; [destruct (Hb eq_refl); congruence|done]). by apply fits_plain.
    + intros fr r' Hin Efr. simpl in Hin. by rewrite !elem_of_cons, elem_of_nil in Hin; destruct Hin as [->|[->|]].
    + by rewrite Hsp.
    + by rewrite Hrs.
    + intros ->. destruct Hfits as [_ Hb]. destruct (Hb eq_refl). congruence.
Qed.

Lemma ticket_handle s t o M s' ev :
  GI None s -> at_client (stack (raw s) t) = true -> glegal t o s -> GI None s' ->
  perform t o (handle t o s) = Some (s', ev) -> ticketed s M ->
  exists M', ticket_run ev (called t o M) = Some M' /\ ticketed s' M'.
Proof.
  intros HI Hc Hl HI' Hp HT. pose proof (between_called s t o M Hc Hl HT) as HB. destruct HT as (_ & Hcov & _).
  pose proof (handle_gentle t o s) as Hg. pose proof (handle_frames plat batch_size (LG 0) t o s) as Hf.
  pose proof (handle_asks_for t o s) as Hask. pose proof (handle_asks plat batch_size t o s) as Hro.
  unfold Guard.perform in Hp. destruct (handle t o s) as [[s1 act]|] eqn:Er; [|done].
  destruct (Hg _ _ eq_refl) as [Hsame Hown]. destruct (Hf _ _ eq_refl) as (Ew & Eth & _).
  specialize (Hask _ _ eq_refl). specialize (Hro _ _ eq_refl).
  assert (forall R : Prop, retiring o && reserved M (party t o) = true ->
    (retiring o = true -> closes t o = None -> spending o = true -> forall th, owns s (party t o) th -> secure s (thread_slot th) -> R) -> R) as Hrely.
  { intros R [Hr Hres]%andb_true_iff HR. destruct (Hcov _ Hres) as (th & Ho & Hsc). apply (HR Hr) with th; try done; by destruct o. }
  destruct act as [r|ro k th].
  - injection Hp as <- <-. destruct Hask as [Hok Hret]. eapply (ticket_return (closes t o) t o); try done.
    + intros Hb. apply (Hrely _ Hb). intros Hr _ _ th Ho _. by destruct (Hret Hr th).
    + intros Ho ->. by destruct (Hok Ho).
  - cbn [step] in Hp. destruct (at_client (stack (raw s1) t)); [|done]. injection Hp as <- <-. exists (called t o M). split; [done|].
    destruct Hask as (Hsp & Hres & Hret).
    eapply (ticket_call (closes t o) t o _ (calls M t) s); try done.
    + apply section_call. intros ->. by apply asked_not_all in Hro.
    + split; [intros Ho; destruct (Hres Ho) as [-> _]; by eexists|]. intros [Hr _]%andb_true_iff.
      split; [done|]. left. destruct (Hret Hr) as (p & f & ->). eexists. split; [done|]. split; [by eexists|by left].
    + intros Hso. simpl. unfold lose, ends. rewrite Hso. by rewrite decide_True.
    + intros Ho. destruct (Hres Ho) as [-> Hog]. split; [done|]. unfold party.
      destruct (gop_guard o) as [[g|g]|] eqn:Eg; [|simpl; apply Hog; destruct o; simplify_eq/=; done|];
      (assert (mkWaiter o k th ∈ waiting (pushed t (mkWaiter o k th) (OpReserve th) s1) t) as Hin
        by (rewrite waiting_pushed, decide_True by done; by left);
      destruct (gi_waits _ _ _ _ HI' _ _ Hin) as [Hh _]; unfold holder in Hh; simpl in Hh; by rewrite Eg in Hh).
    + intros Hb. apply (Hrely _ Hb). intros _ Ec _ th' Ho [Hroom _]. exists th'. split; [apply Hown; [done|by rewrite Ec]|].
      by eapply room_same.
Qed.

(** Another collector uses the registry. *)
Lemma ticketed_foreign o s M :
  GI None s -> foreign o s -> ticketed s M -> ticketed (set_registry (reg_step o (registry s)) s) M.
Proof.
  intros HI Hf (Hk & Hcov & Htop).
  assert (forall h th, owns s h th -> owns (set_registry (reg_step o (registry s)) s) h th) as Hown.
  { intros [t|g] th Ho; [|done]. by apply (foreign_holds plat batch_size o s (inl t)). }
  split; [done|]. split.
  - intros h Hh. destruct (Hcov h Hh) as (th & Ho & Hs). eauto.
  - intros t fr st w ws o' b l Hs Hw Hl. destruct (Htop t _ _ _ _ _ _ _ Hs Hw Hl) as [Hr Hb]. split; [|done].
    intros Ho. destruct (Hr Ho) as [? ?]. auto.
Qed.

Lemma ticket_gstep l s s' ev M :
  GI None s -> glegal_label l s -> gstep l s = Some (s', ev) -> ticketed s M ->
  exists M', ticket_run ev M = Some M' /\ ticketed s' M'.
Proof.
  intros HI Hlab Hst HT. destruct (gstep_good _ _ _ _ _ _ HI Hlab Hst) as [HI' _]. destruct Hlab as [Hl _].
  destruct (raw_label l) as [rl|] eqn:Erl.
  - destruct (gstep_raw _ _ _ _ _ _ _ Erl Hst) as (rs & ev0 & E & Hr).
    destruct (raw_good _ _ l rl s rs ev0 HI Erl E) as [(t & v & st & Hs & -> & -> & _)|[Hn _]].
    + destruct Hr as (w & ws & ev' & Hw & -> & Ep). change (set_waits _ _) with (popped t st ws s) in Ep.
      destruct (ticket_resume s t v st w ws M s' ev' HI Hs Hw HI' Ep HT) as (M' & HM & HT'). by exists M'.
    + rewrite Hn in Hr. destruct Hr as [-> ->]. exists M. split; [apply ticket_run_raw|].
      assert (forall sp t fr st, stack (raw s) t = fr :: st ->
        run_frame plat batch_size sp t fr st (raw s) = Some (rs, ev0) -> is_ret fr = false -> ticketed (set_raw rs s) M) as Hrun.
      { intros sp t fr st Hs E' Hret. destruct (ran_intro sp s t fr st rs ev0 M HI Hs Hret E' HT) as (gs & rest & fs & w & ws & b & l0 & HR).
        by eapply ran_ticketed. }
      destruct l as [t o|t|t|t|r'|sys x86|ro]; simpl in Erl; simplify_eq; simpl in E.
      * destruct (stack (raw s) t) as [|fr st] eqn:Hs; [done|]. destruct (is_ret fr) eqn:Hret; [|by eapply Hrun].
        destruct fr; try done. by injection E as <- <-.
      * destruct (stack (raw s) t) as [|fr st] eqn:Hs; [done|]. destruct fr; try done. by eapply Hrun.
      * destruct (stack (raw s) t) as [|fr st] eqn:Hs; [done|]. destruct fr; try done. injection E as <- <-.
        by eapply ticketed_reclaimed.
      * injection E as <- <-. by apply ticketed_quiet.
      * injection E as <- <-. by apply ticketed_quiet.
  - destruct l as [t o|t|t|t|r|sys x86|ro]; try done; simpl in Hst.
    2: { injection Hst as <- <-. exists M. split; [done|by apply ticketed_foreign]. }
    destruct (at_client _) eqn:Hc; [|done]. apply bind_Some in Hst as ([s1 ev1] & Ep & [= <- <-]).
    destruct (ticket_handle s t o M s1 ev1 HI Hc Hl HI' Ep HT) as (M' & HM & HT'). by exists M'.
Qed.

Lemma ticket_gsteps s tr s' M :
  GI None s -> gsteps s tr s' -> ticketed s M -> exists M', ticket_run tr M = Some M' /\ ticketed s' M'.
Proof.
  intros HI Hst. revert M HI. induction Hst as [s|s1 l s2 ev tr s3 Hl Hs Hst IH]; intros M HI HT; [by exists M|].
  destruct (ticket_gstep _ _ _ _ _ HI Hl Hs HT) as (M2 & H12 & HT2).
  destruct (gstep_good _ _ _ _ _ _ HI Hl Hs) as [HI2 _].
  destruct (IH M2 HI2 HT2) as (M3 & H23 & HT3). exists M3. split; [|done]. by rewrite ticket_run_app, H12.
Qed.

Lemma ticketed_init (r0 : raw_state A) : threads r0 = ∅ -> ticketed (gstate_new r0) tickets_init.
Proof.
  intros Eth. assert (forall t, stack (raw (gstate_new r0)) t = []) as Es by (intros t; unfold stack; simpl; by rewrite Eth, lookup_empty).
  split; [|split].
  - intros t. rewrite Es. constructor.
  - by intros h.
  - intros t fr st w ws o b l Hs. by rewrite Es in Hs.
Qed.

(** C13. A reservation is worth something. Read the calls and results of a run
    of a new collector under clients that keep to the rules, and note that a
    guard or thread has a reservation when [reserve_retire] returns [Ok] to it,
    until it next retires or flushes, or ends. Then a call of [retire] or
    [defer_retire] that starts while there is a reservation does not fail: if
    it returns, it returns [Ok], whatever other threads did in between, and
    whatever the allocator does. *)
Theorem reservation_kept strat cap (a0 a1 : A) (r0 : raw_state A) tr s :
  strategy_ok strat -> in_usize cap -> in_usize batch_size ->
  collector_new strat cap a0 = Ret (a1, Ok r0) -> gsteps (gstate_new r0) tr s ->
  exists M, ticket_run tr tickets_init = Some M.
Proof.
  intros Hs Hc Hb E Hst. pose proof (GI_new plat _ _ _ _ _ _ Hs Hc Hb E) as HI.
  destruct (ticket_gsteps _ _ _ tickets_init HI Hst) as (M & HM & _); [|by exists M].
  apply ticketed_init. by eapply collector_new_threads.
Qed.

End GuardReserve.
