(* ===== verification/GuardSpec.v ===== *)
(** * Guards implement safe memory reclamation

    The abstract specification that a client of [seize] relies on, and the
    simulation that shows that the guards, the registry of thread IDs and the
    raw collector together implement it. The specification knows no slots,
    batches, counters, barriers or memory: it has the calls in progress, the
    guards that are alive, and the retired objects with the guards each has to
    wait for. *)

From stdpp Require Import prelude list gmap.
From S2P Require Import Prelude Alloc ThreadId Membarrier Tls RawData RawStep RawExec RawGhost RawInv RawPreserve RawProtect RawConserve RawEffect Guard GuardInv GuardPreserve GuardHandle GuardOps GuardRefine GuardSafe.

Open Scope Z_scope.

#[export] Instance gref_countable : Countable gref.
Proof.
  refine (inj_countable' (fun x => match x with LG g => inl g | OG g => inr g end)
    (fun y => match y with inl g => LG g | inr g => OG g end) _). by intros [g|g].
Defined.

(** ** The specification *)

Record smr := mkSmr {
  s_calls : gmap nat (list gop);               (* the calls in progress, by thread *)
  s_live : gset gref;                          (* the guards that are alive *)
  s_pending : list (object * gset gref)        (* retired objects, and the guards that protect them *)
}.

Definition smr_init : smr := mkSmr ∅ ∅ [].

Definition calls_of (a : smr) (t : nat) : list gop := default [] (s_calls a !! t).

(** The guard that a call gives up when it starts, and the one it gives to the
    client when it returns. *)
Definition released (o : gop) : gset gref :=
  match o with GRefresh x | GDrop _ x => {[x]} | _ => ∅ end.

Definition gained (o : gop) (r : gret) : gset gref :=
  match o, r with
  | CEnter g, GGuard _ => {[LG g]}
  | CEnterOwned _ g, GGuard _ => {[OG g]}
  | GRefresh x, _ => {[x]}
  | _, _ => ∅
  end.

Definition on_call (t : nat) (o : gop) (a : smr) : smr :=
  mkSmr (<[t := o :: calls_of a t]> (s_calls a)) (s_live a ∖ released o)
    (map (fun ox => (ox.1, ox.2 ∖ released o)) (s_pending a)).

Definition on_done (t : nat) (o : gop) (os : list gop) (r : gret) (a : smr) : smr :=
  mkSmr (<[t := os]> (s_calls a)) (s_live a ∪ gained o r) (s_pending a).

(** Address [p] is retired and not reclaimed yet. *)
Definition waits_for (a : smr) (p : Z) : Prop := exists f, (p, f) ∈ (s_pending a).*1.

#[export] Instance waits_for_dec a p : Decision (waits_for a p).
Proof.
  refine (cast_if (decide (p ∈ (s_pending a).*1.*1))); unfold waits_for.
  - match goal with Hp : _ ∈ _ |- _ => apply list_elem_of_fmap in Hp as ([q f] & -> & ?) end. eauto.
  - intros (f & Hf). match goal with Hp : _ ∉ _ |- _ => apply Hp end. apply list_elem_of_fmap. by exists (p, f).
Defined.

(** A retired object waits for every guard that is alive, unless its address is
    waiting already: retiring an object twice protects nothing. *)
Definition on_retire (o : object) (a : smr) : smr :=
  mkSmr (s_calls a) (s_live a) ((o, if decide (waits_for a o.1) then ∅ else s_live a) :: s_pending a).

Inductive smr_step : smr -> gevent -> smr -> Prop :=
| smr_call t o a : smr_step a (GCall t o) (on_call t o a)
| smr_done t r o os a : calls_of a t = o :: os -> smr_step a (GDone t r) (on_done t o os r a)
| smr_retire t p f a : smr_step a (GRaw (EvRetire t p f)) (on_retire (p, f) a)
| smr_reclaim t p f a l :
    s_pending a ≡ₚ ((p, f), ∅) :: l ->
    smr_step a (GRaw (EvReclaim t p f)) (mkSmr (s_calls a) (s_live a) l)
| smr_other e a :
    match e with EvRetire _ _ _ | EvReclaim _ _ _ => False | _ => True end ->
    smr_step a (GRaw e) a.

Inductive smr_steps : smr -> list gevent -> smr -> Prop :=
| smr_nil a : smr_steps a [] a
| smr_cons a1 e a2 tr a3 : smr_step a1 e a2 -> smr_steps a2 tr a3 -> smr_steps a1 (e :: tr) a3.

Lemma smr_steps_app a1 tr1 a2 tr2 a3 : smr_steps a1 tr1 a2 -> smr_steps a2 tr2 a3 -> smr_steps a1 (tr1 ++ tr2) a3.
Proof. induction 1; [done|]. intros. simpl. econstructor; eauto. Qed.

Lemma smr_one a e a' : smr_step a e a' -> smr_steps a [e] a'.
Proof. intros. econstructor; [done|constructor]. Qed.

Lemma calls_of_insert t os (cs : gmap nat (list gop)) L P t' :
  calls_of (mkSmr (<[t := os]> cs) L P) t' = if decide (t' = t) then os else default [] (cs !! t').
Proof. unfold calls_of; simpl. case_decide; [by subst; rewrite lookup_insert_eq|by rewrite lookup_insert_ne]. Qed.

(** ** The simulation *)

(** A handler of [o] that waits at [k] has its guard in the tables. *)
Definition owns (o : gop) (k : kont) : Prop :=
  match o, k with
  | GRefresh _, _ | CEnter _, KEntered _ | CEnterOwned _ _, KEntered _ => True
  | _, _ => False
  end.

Section GuardSpec.
Context {A : Type} `{Allocator A} `{BoxVec A} `{!BoxVecLaws A}.
Context `{EntryLayout Reservation} `{EntryLayout LocalBatch}.
Variables (plat : Platform) (batch_size : Z).

Abbreviation gstate := (guard_state A).
Abbreviation GI := (GI plat batch_size).
Abbreviation steps := (steps plat batch_size).
Abbreviation gstep := (gstep plat batch_size).
Abbreviation gsteps := (gsteps plat batch_size).
Abbreviation Prot := (Prot (A:=A)).
Implicit Types (s : gstate) (r : slot) (t g : nat) (x : gref) (w : waiter) (a : smr).

(** The part about calls and guards: [held] are the calls that are handled at
    the moment, on top of the waits. *)
Record Calls (held : nat -> list gop) s a : Prop := {
  cl_calls t : calls_of a t = held t ++ map w_op (waiting s t);
  cl_live x : x ∈ s_live a <-> alive s x /\
    forall t o, o ∈ held t -> gop_guard o = Some x -> exclusive o = false;
  cl_waits t w x : w ∈ waiting s t -> gop_guard (w_op w) = Some x -> exclusive (w_op w) = true ->
    is_Some (guard_info s x) <-> owns (w_op w) (w_kont w)
}.

Definition nothing : nat -> list gop := fun _ => [].
Definition only t (o : gop) : nat -> list gop := fun t' => if decide (t' = t) then [o] else [].

(** The part about retired objects. *)
Record Pending s a : Prop := {
  pd_objects : (s_pending a).*1 ≡ₚ pending (raw s);
  pd_blocked o X x : (o, X) ∈ s_pending a -> x ∈ X -> x ∈ s_live a /\ exists r, has_slot s x r /\ Prot r o.1 (raw s)
}.

Definition sim s a : Prop := Calls nothing s a /\ Pending s a.

(** ** Handlers keep account of their guard *)

Definition settled o s1 (act : action) : Prop :=
  forall x, gop_guard o = Some x -> exclusive o = true ->
    is_Some (guard_info s1 x) <-> match act with AReturn v => x ∈ gained o v | ACall _ k _ => owns o k end.

Lemma settled_not o s1 act x :
  gop_guard o = Some x -> guard_info s1 x = None ->
  match act with AReturn v => gained o v = ∅ | ACall _ k _ => ~ owns o k end -> settled o s1 act.
Proof.
  intros Hx Hn Ha y Hy _. rewrite Hx in Hy. injection Hy as <-. rewrite Hn.
  split; [by intros [? [=]]|]. destruct act as [v|? k ?]; [|done]. rewrite Ha. set_solver.
Qed.

Lemma settled_has o s1 act x :
  gop_guard o = Some x -> is_Some (guard_info s1 x) ->
  match act with AReturn v => gained o v = {[x]} | ACall _ k _ => owns o k end -> settled o s1 act.
Proof.
  intros Hx Hn Ha y Hy _. rewrite Hx in Hy. injection Hy as <-.
  split; [|done]. intros _. destruct act as [v|? k ?]; [|done]. rewrite Ha. set_solver.
Qed.

Lemma settled_shared o s1 act : exclusive o = false -> settled o s1 act.
Proof. intros He x _ He'. congruence. Qed.

Lemma can_name_info t s x : can_name t s x -> is_Some (guard_info s x).
Proof. destruct x as [g|g]; simpl; [intros (lg & -> & _)|intros [og ->]]; by eexists. Qed.

Lemma handle_settled t o s s1 act :
  glegal t o s -> handle plat batch_size t o s = Some (s1, act) -> settled o s1 act.
Proof.
  intros Hl. destruct o as [g|mem g|p f| |x|x|x|x p f|x|mem x|mem]; simpl; try (by intros; apply settled_shared).
  - destruct Hl as [Hg _]. unfold LocalGuard_enter, with_current.
    destruct (Thread_current t (registry s)) as [[th|] reg]; intros [= <- <-]; apply (settled_not _ _ _ (LG g)); simpl;
      rewrite ?Hg; auto.
  - destruct Hl as (Hg & _). unfold OwnedGuard_enter.
    destruct (owned_create g (registry s)) as [[th|] reg]; intros [= <- <-]; apply (settled_not _ _ _ (OG g)); simpl;
      rewrite ?Hg; auto.
  - destruct Hl as [Hn _]. apply can_name_info in Hn. destruct x as [g|g]; intros (self & _ & E)%bind_Some; simpl in E.
    + unfold LocalGuard_refresh in E. apply bind_Some in E as (n & _ & [= <- <-]).
      apply (settled_has _ _ _ (LG g)); [done..|]. by case_decide.
    + injection E as <- <-. by apply (settled_has _ _ _ (OG g)).
  - destruct x as [g|g]; intros (self & _ & E)%bind_Some.
    + unfold LocalGuard_drop in E. apply bind_Some in E as (n & _ & (s2 & E2 & [= <- <-])%bind_Some).
      apply (settled_not _ _ _ (LG g)); [done|simpl; by rewrite lookup_delete_eq|]. case_decide; simpl; tauto.
    + injection E as <- <-. apply (settled_not _ _ _ (OG g)); [done|simpl; by rewrite lookup_delete_eq|]. simpl. tauto.
Qed.

Lemma owned_free_settled mem o g (v : ret) s s1 act :
  gop_guard o = Some (OG g) -> (forall v, gained o (GRet v) = ∅) -> gained o GPanic = ∅ -> owneds s !! g = None ->
  OwnedGuard_free mem g v s = Some (s1, act) -> settled o s1 act.
Proof.
  intros Hx Ho Hp Hg. unfold OwnedGuard_free.
  destruct (owned_free mem g (registry s)) as [[th|] reg]; intros [= <- <-];
    (apply (settled_not _ _ _ (OG g)); [done|simpl; by rewrite Hg|done]).
Qed.

Lemma resume_settled t w v s s1 act :
  waiter_ok w ->
  (forall x, gop_guard (w_op w) = Some x -> exclusive (w_op w) = true ->
     is_Some (guard_info s x) <-> owns (w_op w) (w_kont w)) ->
  resume plat batch_size t w v s = Some (s1, act) -> settled (w_op w) s1 act.
Proof.
  intros Hok Hw E. destruct w as [o k th]. unfold waiter_ok, Guard.resume in *. simpl in *.
  destruct k as [|r| | |x|].
  - injection E as <- <-. intros x Hx He. rewrite (Hw x Hx He). specialize (Hok x Hx).
    destruct o as [g|mem g|p f| |y|y|y|y p f|y|mem y|mem]; try done; simpl in *.
    injection Hx as <-. set_solver.
  - destruct Hok as (_ & He & _). by apply settled_shared.
  - destruct Hok as [g ->]. unfold LocalGuard_entered in E. specialize (Hw _ eq_refl eq_refl). simpl in Hw.
    assert (locals s !! g = None) as Hg by (destruct (locals s !! g); [destruct Hw as [Hw _]; by destruct Hw|done]).
    destruct v as [| | |r]; try (injection E as <- <-; apply (settled_not _ _ _ (LG g)); simpl; by rewrite ?Hg).
    apply bind_Some in E as (n & _ & (s2 & E2 & [= <- <-])%bind_Some).
    apply (settled_has _ _ _ (LG g)); [done|simpl; by rewrite lookup_insert_eq|]. by case_decide.
  - destruct Hok as (mem & g & ->). specialize (Hw _ eq_refl eq_refl). simpl in Hw.
    assert (owneds s !! g = None) as Hg by (destruct (owneds s !! g); [destruct Hw as [Hw _]; by destruct Hw|done]).
    destruct v as [| | |r];
      try (by eapply owned_free_settled).
    injection E as <- <-. apply (settled_has _ _ _ (OG g)); [done|simpl; by rewrite lookup_insert_eq|done].
  - injection E as <- <-. intros y Hy He. rewrite (Hw y Hy He).
    destruct x as [g|g]; [rewrite Hok in *|destruct Hok as [mem Eo]; rewrite Eo in *]; simpl in *; injection Hy as <-; set_solver.
  - destruct Hok as (mem & g & ->). specialize (Hw _ eq_refl eq_refl). simpl in Hw.
    assert (owneds s !! g = None) as Hg by (destruct (owneds s !! g); [destruct Hw as [Hw _]; by destruct Hw|done]).
    by eapply owned_free_settled.
Qed.

(** ** Calls *)

(** The handler of [o] is the only call on a guard that it has for itself. *)
Definition alone o s : Prop :=
  forall x t w, exclusive o = true -> gop_guard o = Some x -> w ∈ waiting s t -> gop_guard (w_op w) = Some x -> False.

Lemma gained_guard o v x : x ∈ gained o v -> gop_guard o = Some x /\ exclusive o = true.
Proof. destruct o, v; simpl; set_solver. Qed.

Lemma alive_same s s' x :
  guard_info s' x = guard_info s x ->
  (forall t w, gop_guard (w_op w) = Some x -> exclusive (w_op w) = true -> w ∈ waiting s' t <-> w ∈ waiting s t) ->
  alive s' x <-> alive s x.
Proof.
  intros Hi Hw. unfold alive. rewrite Hi. split; intros [? Ha]; (split; [done|]); intros t w Hin Hx;
    (destruct (exclusive (w_op w)) eqn:He; [|done]); rewrite <-He; apply (Ha t); try done; by apply Hw.
Qed.

(** The guards that are not for the handler of [o] alone. *)
Lemma calls_others t o s s1 s' a x :
  Calls (only t o) s a -> (forall x t' w, gop_guard (w_op w) = Some x -> exclusive (w_op w) = true ->
    (gop_guard o = Some x -> exclusive o = false) -> w ∈ waiting s' t' <-> w ∈ waiting s t') ->
  (gop_guard o = Some x -> exclusive o = false) -> guard_info s' x = guard_info s x ->
  x ∈ s_live a <-> alive s' x.
Proof.
  intros HC Hw Hne Hi. rewrite (cl_live _ _ _ HC), (alive_same s s'); [|done|by intros; eapply Hw].
  split; [by intros [? _]|]. intros Ha. split; [done|]. intros t' o' Ho'. unfold only in Ho'.
  case_decide; [|by apply elem_of_nil in Ho']. apply list_elem_of_singleton in Ho' as ->. done.
Qed.

Lemma excl_dec o x : (gop_guard o = Some x /\ exclusive o = true) \/ (gop_guard o = Some x -> exclusive o = false).
Proof. destruct (decide (gop_guard o = Some x)), (exclusive o); auto. right. done. Qed.

Lemma calls_live_own t o s a x : Calls (only t o) s a -> gop_guard o = Some x -> exclusive o = true -> x ∉ s_live a.
Proof.
  intros HC Hx He Hin. apply (cl_live _ _ _ HC) in Hin as [_ Ha]. specialize (Ha t o). unfold only in Ha.
  rewrite decide_True in Ha by done. specialize (Ha ltac:(by left) Hx). congruence.
Qed.

Lemma calls_done t o s s' (v : gret) a :
  Calls (only t o) s a -> alone o s -> waits s' = waits s ->
  (forall x, guard_info s' x = guard_info s x \/ (gop_guard o = Some x /\ exclusive o = true)) ->
  settled o s' (AReturn v) ->
  Calls nothing s' (on_done t o (map w_op (waiting s t)) v a).
Proof.
  intros HC Hal Ew Hf Hs. assert (forall u, waiting s' u = waiting s u) as E by (intros u; unfold waiting; by rewrite Ew).
  pose proof (cl_calls _ _ _ HC) as Hcs. constructor.
  - intros t'. unfold on_done. rewrite calls_of_insert, E. simpl. case_decide as Ht; [by subst|].
    specialize (Hcs t'). unfold only in Hcs. rewrite decide_False in Hcs by done. apply Hcs.
  - intros x. simpl. rewrite elem_of_union. destruct (excl_dec o x) as [[Hx He]|Hne].
    + pose proof (calls_live_own _ _ _ _ _ HC Hx He) as Hn. rewrite <-(Hs x Hx He). split.
      * intros [?|Hi]; [done|]. split; [|by intros ? ? ?%elem_of_nil]. split; [done|]. intros t' w Hw Hx'. rewrite E in Hw.
        by destruct (Hal x t' w).
      * intros [[? _] _]. by right.
    + assert (guard_info s' x = guard_info s x) as Hi by (destruct (Hf x) as [|[Hx He]]; [done|rewrite Hne in He; done]).
      rewrite <-(calls_others t o s s s' a x HC); [|by intros; rewrite E|done|done].
      split; [intros [?|[Hx He]%gained_guard]; [|rewrite Hne in He; done]|intros [? _]; by left].
      split; [done|]. by intros ? ? ?%elem_of_nil.
  - intros t' w x Hw Hx He. rewrite E in Hw. rewrite <-(cl_waits _ _ _ HC t' w x Hw Hx He).
    destruct (Hf x) as [-> |[Hxo Heo]]; [done|by destruct (Hal x t' w)].
Qed.

Lemma calls_wait t o k th s s' ro a :
  Calls (only t o) s a -> alone o s -> waits s' = <[t := mkWaiter o k th :: waiting s t]> (waits s) ->
  (forall x, guard_info s' x = guard_info s x \/ (gop_guard o = Some x /\ exclusive o = true)) ->
  settled o s' (ACall ro k th) -> Calls nothing s' a.
Proof.
  intros HC Hal Ew Hf Hs. pose proof (fun u => waiting_insert s s' t _ u Ew) as E.
  pose proof (cl_calls _ _ _ HC) as Hcs. constructor.
  - intros t'. rewrite Hcs, E. unfold only. by case_decide; [subst|].
  - intros x. transitivity (alive s' x); [|split; [intros; split; [done|by intros ? ? ?%elem_of_nil]|by intros [? _]]].
    destruct (excl_dec o x) as [[Hx He]|Hne].
    + pose proof (calls_live_own _ _ _ _ _ HC Hx He) as Hn. split; [done|]. intros [_ Ha].
      specialize (Ha t (mkWaiter o k th)). rewrite E, decide_True in Ha by done. specialize (Ha ltac:(by left) Hx).
      simpl in Ha. congruence.
    + assert (guard_info s' x = guard_info s x) as Hi by (destruct (Hf x) as [|[Hx He]]; [done|rewrite Hne in He; done]).
      apply (calls_others t o s s s' a x HC); [|done|done]. intros y t' w Hy He Hney. rewrite E.
      case_decide; [subst|done]. rewrite elem_of_cons. split; [|by right]. intros [->|]; [|done]. simpl in *.
      rewrite Hney in He; done.
  - intros t' w x Hw Hx He. rewrite E in Hw.
    assert (w ∈ waiting s t' \/ w = mkWaiter o k th) as [Hw'| ->] by (case_decide; [subst; apply elem_of_cons in Hw as [->|]; auto|auto]).
    + rewrite <-(cl_waits _ _ _ HC t' w x Hw' Hx He).
      destruct (Hf x) as [-> |[Hxo Heo]]; [done|by destruct (Hal x t' w)].
    + by apply Hs.
Qed.

Lemma calls_perform t o s s' h ev a :
  Calls (only t o) s a -> alone o s -> (forall x, frames x o s h) ->
  (forall s1 act, h = Some (s1, act) -> settled o s1 act) ->
  perform plat batch_size t o h = Some (s', ev) ->
  exists a', smr_steps a ev a' /\ Calls nothing s' a' /\ s_live a ⊆ s_live a' /\ s_pending a' = s_pending a.
Proof.
  intros HC Hal Hf Hs Hp. destruct (perform_inv _ _ _ _ _ _ _ Hp) as (s1 & act & Eh & Hg & _ & Hw).
  assert (waits s1 = waits s) as Ew1 by (by destruct (Hf (LG 0) _ _ Eh)).
  assert (forall x, guard_info s' x = guard_info s x \/ (gop_guard o = Some x /\ exclusive o = true)) as Hi.
  { intros x. rewrite Hg. by apply (Hf x _ _ Eh). }
  assert (settled o s' act) as Hs' by (intros x; rewrite Hg; by apply (Hs _ _ Eh)).
  destruct Hw as [(v & -> & -> & Ew)|(ro & k & th & -> & -> & Ew)].
  - exists (on_done t o (map w_op (waiting s t)) v a). split; [|split; [|split; [|done]]].
    + apply smr_one. constructor. rewrite (cl_calls _ _ _ HC). unfold only. by rewrite decide_True.
    + apply (calls_done t o s s' v a HC Hal); [congruence|done..].
    + simpl. set_solver.
  - exists a. split; [constructor|]. split; [|done]. apply (calls_wait t o k th s s' ro a HC Hal); [|done..].
    rewrite Ew. unfold waiting. by rewrite Ew1.
Qed.

(** ** Retired objects *)

(** What blocks an object goes on to block it, and it is not reclaimed. *)
Lemma blocked_keep l s s' ev x r p :
  GI None s -> glegal_label l s -> gstep l s = Some (s', ev) -> alive s x -> has_slot s x r -> Prot r p (raw s) ->
  (forall t o, GCall t o ∈ ev -> ~ gives_up x o) ->
  has_slot s' x r /\ Prot r p (raw s') /\ forall t f, EvReclaim t p f ∉ raw_events ev.
Proof.
  intros HI Hl Hst Ha Hx HP Hno. destruct (alive_gstep _ _ _ _ _ _ x r HI Hl Hst Ha Hx Hno) as (_ & Hx' & Hex).
  destruct (gstep_good _ _ _ _ _ _ HI Hl Hst) as [_ Hsteps].
  split; [done|]. by eapply (Prot_steps plat batch_size); [apply HI|..].
Qed.

Lemma gives_up_released x o : gives_up x o <-> x ∈ released o.
Proof.
  unfold gives_up. split.
  - intros [->|[mem ->]]; simpl; set_solver.
  - destruct o; simpl; try set_solver; rewrite elem_of_singleton; intros ->; eauto.
Qed.

(** The objects after a step that retires and reclaims nothing. *)
Lemma pending_quiet_step l s s' ev a a' :
  GI None s -> glegal_label l s -> gstep l s = Some (s', ev) ->
  evs_retired (raw_events ev) = [] -> evs_reclaimed (raw_events ev) = [] ->
  Pending s a -> (forall x, x ∈ s_live a -> alive s x) -> (s_pending a').*1 = (s_pending a).*1 ->
  (forall o X x, (o, X) ∈ s_pending a' -> x ∈ X -> x ∈ s_live a' /\
    (exists X0, (o, X0) ∈ s_pending a /\ x ∈ X0) /\ forall t o, GCall t o ∈ ev -> ~ gives_up x o) ->
  Pending s' a'.
Proof.
  intros HI Hl Hst E1 E2 HP Hlive Ef Hb. destruct (gstep_good _ _ _ _ _ _ HI Hl Hst) as [_ Hsteps]. constructor.
  - rewrite Ef, (pd_objects _ _ HP). apply steps_balanced in Hsteps; [|apply HI].
    unfold balanced in Hsteps. by rewrite E1, E2 in Hsteps.
  - intros o X x Hin Hx. destruct (Hb o X x Hin Hx) as (Hl' & (X0 & Hin0 & Hx0) & Hno). split; [done|].
    destruct (pd_blocked _ _ HP _ _ _ Hin0 Hx0) as [Hxl (r & Hs & Hpr)].
    destruct (blocked_keep _ _ _ _ x r o.1 HI Hl Hst (Hlive x Hxl) Hs Hpr Hno) as (? & ? & _). eauto.
Qed.

(** An object that is not waiting anywhere is not protected yet by anything. *)
Lemma not_pending_unscanned (rs : raw_state A) p : Inv plat batch_size rs ->
  (forall f, (p, f) ∉ pending rs) -> unscanned rs p.
Proof.
  intros HI Hn b (j & e & He & <- & Hr). exfalso. apply (Hn (reclaim e)). unfold entry_at in He.
  destruct (heap rs !! b) as [bt|] eqn:Hb; simpl in He; [|done].
  apply (elem_of_map_flat _ _ b bt); [done|].
  assert (freed rs b <= j)%nat as Hj.
  { destruct (freeing_dec rs b) as [(t & d & i & Hf)|[_ ->]]; [|lia].
    rewrite (freed_free _ _ _ _ _ _ _ HI Hf). by eapply Hr. }
  apply list_elem_of_lookup. exists (j - freed rs b)%nat. rewrite lookup_drop.
  rewrite Nat.add_comm, Nat.sub_add by done. rewrite list_lookup_fmap, He. by destruct e.
Qed.

(** ** Every step *)

Lemma released_guard o x : x ∈ released o -> gop_guard o = Some x /\ exclusive o = true.
Proof. destruct o; simpl; set_solver. Qed.

Lemma elem_of_only t t' o o' : o' ∈ only t o t' <-> t' = t /\ o' = o.
Proof.
  unfold only. case_decide; [rewrite list_elem_of_singleton; tauto|]. split; [by intros ?%elem_of_nil|by intros [? _]].
Qed.

(** A guard that a legal call needs for itself is alive only if the call gives
    it up. *)
Lemma legal_exclusive t o s x : glegal t o s -> gop_guard o = Some x -> exclusive o = true -> alive s x -> x ∈ released o.
Proof.
  intros Hl Hx He [[i Hi] _]. destruct o as [g|mem g|p f| |y|y|y|y p f|y|mem y|mem]; try done; simpl in *;
    injection Hx as <-; simpl in Hi.
  - destruct Hl as [Hl _]. by rewrite Hl in Hi.
  - destruct Hl as [Hl _]. by rewrite Hl in Hi.
  - set_solver.
  - set_solver.
Qed.

Lemma calls_on_call t o s a : glegal t o s -> Calls nothing s a -> Calls (only t o) s (on_call t o a).
Proof.
  intros Hl HC. constructor.
  - intros t'. unfold on_call. rewrite calls_of_insert. pose proof (cl_calls _ _ _ HC) as Hcs. unfold only.
    case_decide; [subst; by rewrite Hcs|apply Hcs].
  - intros x. simpl. rewrite elem_of_difference, (cl_live _ _ _ HC). split.
    + intros [[Ha _] Hn]. split; [done|]. intros t' o' [-> ->]%elem_of_only Hx.
      destruct (exclusive o) eqn:He; [|done]. destruct Hn. by eapply legal_exclusive.
    + intros [Ha Ho]. split; [split; [done|by intros ? ? ?%elem_of_nil]|]. intros [Hx He]%released_guard.
      rewrite (Ho t o) in He; [done|by apply elem_of_only|done].
  - apply HC.
Qed.

Lemma sim_call t o s s' ev a :
  GI None s -> glegal_label (GOp t o) s -> gstep (GOp t o) s = Some (s', ev) -> sim s a ->
  exists a', smr_steps a ev a' /\ sim s' a'.
Proof.
  intros HI Hl Hst [HC HP]. pose proof Hst as E. simpl in E. destruct (at_client _) eqn:Hc; [|done].
  apply bind_Some in E as ([s1 ev1] & Ep & [= -> <-]). pose proof Hl as [Hl1 _].
  pose proof (calls_on_call t o s a Hl1 HC) as HC1.
  destruct (calls_perform t o s s' (handle plat batch_size t o s) ev1 _ HC1)
    as (a' & Hst' & HC' & Hlive & Hpend); [| | |exact Ep|].
  - intros x t' w He Hx Hw Hx'. destruct o as [g|mem g|p f| |y|y|y|y p f|y|mem y|mem]; try done; simpl in Hx;
      injection Hx as <-; (eapply may_borrow_exclusive; [apply Hl1|done|apply Hw|done]).
  - intros x. apply handle_frames.
  - intros s2 act. by apply handle_settled.
  - exists a'. split; [eapply smr_cons; [apply smr_call|done]|]. split; [done|].
    destruct (perform_waits _ _ _ _ (LG 0) _ _ _ _ (handle_frames _ _ (LG 0) t o s) Ep) as (_ & Hev & _).
    apply (pending_quiet_step _ _ _ _ a a' HI Hl Hst); try done.
    + simpl. by rewrite Hev.
    + simpl. by rewrite Hev.
    + intros x [Hx _]%(cl_live _ _ _ HC). done.
    + rewrite Hpend. simpl. rewrite <-list_fmap_compose. done.
    + intros ob X x. rewrite Hpend. simpl. intros ([ob0 X0] & [= -> ->] & Hin)%list_elem_of_fmap Hx. simpl in Hx.
      apply elem_of_difference in Hx as [Hx Hnr]. split; [apply Hlive; simpl; apply elem_of_difference; split;
        [by eapply pd_blocked|done]|]. split; [by exists X0|].
      intros t' o' [[= <- <-]|Hin']%elem_of_cons; [by rewrite gives_up_released|].
      destruct (perform_inv _ _ _ _ _ _ _ Ep) as (s2 & act & _ & _ & _ & [(v & -> & _)|(ro & k & th & -> & _)]);
        [by apply list_elem_of_singleton in Hin'|by apply elem_of_nil in Hin'].
Qed.

Lemma calls_popped t st s w ws a :
  waiting s t = w :: ws -> Calls nothing s a -> alone (w_op w) (popped t st ws s) ->
  Calls (only t (w_op w)) (popped t st ws s) a.
Proof.
  intros Hw HC Hal. pose proof (waiting_popped t st ws s) as E. constructor.
  - intros t'. rewrite E, (cl_calls _ _ _ HC). unfold only. case_decide; [subst; by rewrite Hw|done].
  - intros x. rewrite (cl_live _ _ _ HC). split.
    + intros [[Hi Ha] _]. split; [split; [done|]|].
      * intros t' w' Hw'. apply (Ha t'). by eapply popped_waiting.
      * intros t' o [-> ->]%elem_of_only Hx. apply (Ha t); [rewrite Hw; by left|done].
    + intros [[Hi Ha] Ho]. split; [split; [done|]|by intros ? ? ?%elem_of_nil]. intros t' w' Hw' Hx.
      destruct (decide (t' = t)) as [->|Ht].
      * rewrite Hw in Hw'. apply elem_of_cons in Hw' as [->|Hw']; [by apply (Ho t); [apply elem_of_only|]|].
        apply (Ha t); [by rewrite E, decide_True|done].
      * apply (Ha t'); [by rewrite E, decide_False|done].
  - intros t' w' x Hw'. apply (cl_waits _ _ _ HC t'). by eapply popped_waiting.
Qed.

Lemma sim_return t v st s s' w ws ev a :
  GI None s -> stack (raw s) t = FRet v :: st -> waiting s t = w :: ws -> Calls nothing s a ->
  perform plat batch_size t (w_op w) (resume plat batch_size t w v (popped t st ws s)) = Some (s', ev) ->
  exists a', smr_steps a (GRaw (EvRet t v) :: ev) a' /\ Calls nothing s' a' /\
    s_live a ⊆ s_live a' /\ s_pending a' = s_pending a.
Proof.
  intros HI Hs Hw HC Ep. pose proof (pop_resumable _ _ _ _ _ _ _ _ HI Hs Hw) as HR.
  assert (alone (w_op w) (popped t st ws s)) as Hal by (intros x t' w' He Hx; by apply (rs_alone _ _ _ _ HR)).
  destruct (calls_perform t (w_op w) (popped t st ws s) s' (resume plat batch_size t w v (popped t st ws s)) ev a)
    as (a' & Hst & ?); [by apply calls_popped|done| | |exact Ep|].
  - intros x. apply resume_frames.
  - intros s1 act. apply resume_settled; [apply HR|]. intros x Hx He.
    apply (cl_waits _ _ _ HC t w x); [rewrite Hw; by left|done..].
  - exists a'. split; [|done]. eapply smr_cons; [by apply smr_other|done].
Qed.

(** Steps that change no call and no guard. *)
Lemma calls_same s s' a a' :
  Calls nothing s a -> waits s' = waits s -> (forall x, guard_info s' x = guard_info s x) ->
  s_calls a' = s_calls a -> s_live a' = s_live a -> Calls nothing s' a'.
Proof.
  intros HC Ew Hi Ec El. assert (forall u, waiting s' u = waiting s u) as E by (intros u; unfold waiting; by rewrite Ew).
  constructor.
  - intros t. unfold calls_of. rewrite Ec, E. apply HC.
  - intros x. rewrite El, (cl_live _ _ _ HC). apply and_iff_compat_r. symmetry. apply alive_same; [done|]. intros. by rewrite E.
  - intros t w x. rewrite E, Hi. apply HC.
Qed.

Lemma sim_retire l s s' t p f a :
  GI None s -> glegal_label l s -> gstep l s = Some (s', [GRaw (EvRetire t p f)]) -> waits s' = waits s ->
  (forall x, guard_info s' x = guard_info s x) -> sim s a -> sim s' (on_retire (p, f) a).
Proof.
  intros HI Hl Hst Ew Hi [HC HP]. split; [by eapply calls_same|].
  destruct (gstep_good _ _ _ _ _ _ HI Hl Hst) as [_ Hsteps]. constructor.
  - simpl. rewrite (pd_objects _ _ HP). by apply (steps_balanced plat batch_size) in Hsteps; [|apply HI].
  - intros o X x Hin Hx. assert (x ∈ s_live a /\ exists r, has_slot s x r /\ Prot r o.1 (raw s)) as (Hxl & r & Hs & Hpr).
    { simpl in Hin. apply elem_of_cons in Hin as [[= -> ->]|Hin]; [|by eapply pd_blocked].
      case_decide as Hn; [set_solver|]. split; [done|]. apply (cl_live _ _ _ HC) in Hx as [Ha _].
      destruct (alive_slot _ _ Ha) as [r Hr]. exists r. split; [done|].
      apply (Prot_intro plat batch_size); [apply HI|by eapply alive_guarded|].
      apply not_pending_unscanned; [apply HI|]. intros f' Hf'. apply Hn. exists f'. by rewrite (pd_objects _ _ HP). }
    split; [done|]. pose proof Hxl as [Ha _]%(cl_live _ _ _ HC).
    destruct (blocked_keep _ _ _ _ x r o.1 HI Hl Hst Ha Hs Hpr) as (? & ? & _); [|eauto].
    intros t' o' Ho'. apply list_elem_of_singleton in Ho'. done.
Qed.

Lemma sim_reclaim l s s' t p f a :
  GI None s -> glegal_label l s -> gstep l s = Some (s', [GRaw (EvReclaim t p f)]) -> waits s' = waits s ->
  (forall x, guard_info s' x = guard_info s x) -> sim s a ->
  exists a', smr_step a (GRaw (EvReclaim t p f)) a' /\ sim s' a'.
Proof.
  intros HI Hl Hst Ew Hi [HC HP]. destruct (gstep_good _ _ _ _ _ _ HI Hl Hst) as [_ Hsteps].
  apply (steps_balanced plat batch_size) in Hsteps; [|apply HI]. unfold balanced in Hsteps. simpl in Hsteps.
  rewrite <-(pd_objects _ _ HP) in Hsteps.
  assert (forall o X x, (o, X) ∈ s_pending a -> x ∈ X -> exists r, alive s x /\ has_slot s x r /\ Prot r o.1 (raw s) /\
    has_slot s' x r /\ Prot r o.1 (raw s') /\ o.1 <> p) as Hb.
  { intros o X x Hin Hx. destruct (pd_blocked _ _ HP _ _ _ Hin Hx) as ([Ha _]%(cl_live _ _ _ HC) & r & Hs & Hpr).
    destruct (blocked_keep _ _ _ _ x r o.1 HI Hl Hst Ha Hs Hpr) as (? & ? & Hno).
    - intros t' o' Ho'. apply list_elem_of_singleton in Ho'. done.
    - exists r. split_and!; try done. intros <-. apply (Hno t f). by left. }
  assert ((p, f) ∈ (s_pending a).*1) as Hin by (rewrite Hsteps; by left).
  apply list_elem_of_fmap in Hin as ([o X] & E & Hin). simpl in E. subst o.
  assert (X = ∅) as ->.
  { apply set_eq. intros x. split; [|set_solver]. intros Hx. destruct (Hb _ _ x Hin Hx) as (r & ? & ? & ? & ? & ? & Hne). done. }
  apply elem_of_Permutation in Hin as [rest Hrest].
  exists (mkSmr (s_calls a) (s_live a) rest). split; [by apply smr_reclaim|].
  split; [by eapply calls_same|]. constructor.
  - simpl. rewrite Hrest in Hsteps. simpl in Hsteps. by apply (inj (cons (p, f))) in Hsteps.
  - intros o X x Hin Hx. simpl in *. assert ((o, X) ∈ s_pending a) as Hin' by (rewrite Hrest; by right).
    destruct (Hb _ _ _ Hin' Hx) as (r & Ha & _ & _ & ? & ? & _). split; [by eapply pd_blocked|eauto].
Qed.

Lemma sim_gstep l s s' ev a :
  GI None s -> glegal_label l s -> gstep l s = Some (s', ev) -> sim s a ->
  exists a', smr_steps a ev a' /\ sim s' a'.
Proof.
  intros HI Hl Hst Hsim. destruct (raw_label l) as [rl|] eqn:Erl.
  2: { destruct l as [t o| | | | | |o]; try done; [by eapply sim_call|]. injection Hst as <- <-. destruct Hsim as [HC HP].
       exists a. split; [constructor|]. split; [by eapply calls_same|]. destruct HP as [Ho Hb]. by constructor. }
  pose proof Hsim as [HC HP].
  assert (forall x, x ∈ s_live a -> alive s x) as Hal by (by intros x [? _]%(cl_live _ _ _ HC)).
  assert (forall o X x, (o, X) ∈ s_pending a -> x ∈ X -> x ∈ s_live a /\ (exists X0, (o, X0) ∈ s_pending a /\ x ∈ X0))
    as Hb by (intros o X x Hin Hx; split; [by eapply pd_blocked|eauto]).
  destruct (gstep_raw _ _ _ _ _ _ _ Erl Hst) as (rs & ev0 & E & Hr).
  destruct (raw_good _ _ l rl s rs ev0 HI Erl E) as [(t & v & st & Hs & -> & -> & _)|[Hn HI']].
  - destruct Hr as (w & ws & ev' & Hw & -> & Ep).
    destruct (sim_return _ _ _ _ _ _ _ _ _ HI Hs Hw HC Ep) as (a' & Hst' & HC' & Hlive & Hpend).
    exists a'. split; [done|]. split; [done|].
    assert (forall t0 o0, (GCall t0 o0 ∉ map GRaw [EvRet t v] ++ ev') /\ raw_events ev' = []) as Hno.
    { intros t0 o0. destruct (perform_inv _ _ _ _ _ _ _ Ep) as (s2 & act & _ & _ & Hev & Hev'). split; [|done].
      intros [Hin|Hin]%elem_of_app; [by apply list_elem_of_singleton in Hin|].
      destruct Hev' as [(u & -> & _)|(ro & k & th & -> & _)]; [by apply list_elem_of_singleton in Hin|by apply elem_of_nil in Hin]. }
    apply (pending_quiet_step _ _ _ _ a a' HI Hl Hst); try done.
    + rewrite raw_events_app. by rewrite (proj2 (Hno 0%nat CReserve)).
    + rewrite raw_events_app. by rewrite (proj2 (Hno 0%nat CReserve)).
    + by rewrite Hpend.
    + intros o X x. rewrite Hpend. intros Hin Hx. destruct (Hb o X x Hin Hx) as [Hxl ?].
      split; [by apply Hlive|]. split; [done|]. intros t0 o0 H0'. by destruct (Hno t0 o0).
  - rewrite Hn in Hr. destruct Hr as [-> ->].
    assert (quiet_run : (evs_retired ev0 = [] /\ evs_reclaimed ev0 = []) -> smr_steps a (map GRaw ev0) a ->
      exists a', smr_steps a (map GRaw ev0) a' /\ sim (set_raw rs s) a').
    { intros [E1 E2] Hsm. exists a. split; [done|]. split; [by eapply calls_same|].
      apply (pending_quiet_step _ _ _ _ a a HI Hl Hst); rewrite ?raw_events_map; try done.
      intros o X x Hin Hx. destruct (Hb o X x Hin Hx) as [? ?]. split; [done|]. split; [done|].
      intros t0 o0 Hin0. apply list_elem_of_fmap in Hin0 as (e & [=] & _). }
    pose proof (step_brief plat batch_size rl (raw s) (gi_raw _ _ _ _ HI) _ _ E) as Hlen.
    destruct ev0 as [|e [|e' ev0]]; [apply quiet_run; [done|constructor]| |simpl in Hlen; lia].
    destruct e as [t v|t p f|t p f|r|r]; try (apply quiet_run; [done|]; by apply smr_one, smr_other).
    + exists (on_retire (p, f) a). split; [apply smr_one, smr_retire|]. by apply (sim_retire _ _ _ t p f a HI Hl Hst).
    + destruct (sim_reclaim _ _ _ _ _ _ a HI Hl Hst) as (a' & ? & ?); try done. exists a'. split; [by apply smr_one|done].
Qed.

Lemma sim_gsteps s tr s' a : GI None s -> gsteps s tr s' -> sim s a -> exists a', smr_steps a tr a' /\ sim s' a'.
Proof.
  intros HI Hst. revert a HI. induction Hst as [s|s1 l s2 ev tr s3 Hl Hs Hst IH]; intros a HI Hsim.
  - exists a. split; [constructor|done].
  - destruct (sim_gstep _ _ _ _ _ HI Hl Hs Hsim) as (a2 & H12 & Hsim2).
    destruct (gstep_good _ _ _ _ _ _ HI Hl Hs) as [HI2 _].
    destruct (IH a2 HI2 Hsim2) as (a3 & H23 & Hsim3). exists a3. split; [by eapply smr_steps_app|done].
Qed.

Lemma sim_init (r0 : raw_state A) : heap r0 = ∅ -> sim (gstate_new r0) smr_init.
Proof.
  intros Hh. split; constructor; simpl.
  - done.
  - intros x. split; [set_solver|]. intros [[[i Hi] _] _]. by destruct x.
  - by intros t w x ?%elem_of_nil.
  - unfold pending. by rewrite Hh, map_flat_empty.
  - by intros o X x ?%elem_of_nil.
Qed.

(** C1. The whole crate implements safe memory reclamation. Every run of a new
    collector under clients that keep to the rules is, call by call and event by
    event, a run of the specification: a retired object is given to its
    reclaimer at most once, and only when every guard that was alive when it was
    retired has been refreshed or dropped since; and at every point the guards
    that are alive and the objects that wait are those of the specification. *)
Theorem guards_implement_smr strat cap (a0 a1 : A) (r0 : raw_state A) tr s :
  strategy_ok strat -> in_usize cap -> in_usize batch_size ->
  collector_new strat cap a0 = Ret (a1, Ok r0) -> gsteps (gstate_new r0) tr s ->
  exists a, smr_steps smr_init tr a /\ (forall t, calls_of a t = map w_op (waiting s t)) /\
    (forall x, x ∈ s_live a <-> alive s x) /\ (s_pending a).*1 ≡ₚ pending (raw s).
Proof.
  intros Hs Hc Hb E Hst. pose proof (GI_new plat _ _ _ _ _ _ Hs Hc Hb E) as HI.
  destruct (sim_gsteps _ _ _ smr_init HI Hst) as (a & Hsm & HC & HP).
  - apply sim_init. by eapply collector_new_heap.
  - exists a. split; [done|]. split; [apply HC|]. split; [|apply HP].
    intros x. rewrite (cl_live _ _ _ HC). split; [by intros [? _]|]. intros Ha. split; [done|]. by intros ? ? ?%elem_of_nil.
Qed.

End GuardSpec.
