(* ===== verification/GuardEnter.v ===== *)
(** * Entering is wait-free

    A thread that creates a guard has it, or an allocation error, after a fixed
    number of its own steps, whatever the others do meanwhile. *)

From stdpp Require Import prelude list gmap.
From S2P Require Import Prelude Alloc ThreadId Membarrier Tls RawData RawStep RawExec RawGhost RawInv RawPreserve RawProtect RawEffect Guard GuardInv GuardPreserve GuardHandle GuardOps GuardRefine GuardSafe.

Open Scope Z_scope.

Section GuardEnter.
Context {A : Type} `{Allocator A} `{BoxVec A} `{!BoxVecLaws A}.
Context `{EntryLayout Reservation} `{EntryLayout LocalBatch}.
Variables (plat : Platform) (batch_size : Z).

Abbreviation gstate := (guard_state A).
Abbreviation GI := (GI plat batch_size).
Abbreviation gstep := (gstep plat batch_size).
Abbreviation resume := (resume plat batch_size).
Abbreviation perform := (perform plat batch_size).
Implicit Types (s : gstate) (r : slot) (t g : nat) (x : gref) (w : waiter).

(** ** The other threads *)

Definition label_thread (l : glabel) : option nat :=
  match l with GOp t _ | GRun t | GSpurious t | GReturn t => Some t | GDrain _ | GDetect _ _ | GOther _ => None end.

Lemma perform_other t o x s h s' ev t' :
  frames x o s h -> perform t o h = Some (s', ev) -> t' <> t ->
  stack (raw s') t' = stack (raw s) t' /\ waiting s' t' = waiting s t'.
Proof.
  intros Hf. unfold Guard.perform. destruct h as [[s1 a]|]; [|done].
  destruct (Hf _ _ eq_refl) as (Ew & Et & _).
  assert (stack (raw s1) t' = stack (raw s) t' /\ waiting s1 t' = waiting s t') as [Es1 Ew1]
    by (unfold stack, waiting; by rewrite Et, Ew).
  destruct a as [v|ro k th]; [intros [= <- <-]; done|]. cbn [step]. destruct (at_client _); [|done].
  intros [= <- <-] Ht. split.
  - rewrite <-Es1. simpl. by rewrite stack_goto, decide_False.
  - rewrite <-Ew1. unfold waiting; simpl. by rewrite lookup_insert_ne.
Qed.

Lemma step_other l rl s rs ev t :
  GI None s -> raw_label l = Some rl -> step plat batch_size rl (raw s) = Some (rs, ev) ->
  label_thread l <> Some t -> stack rs t = stack (raw s) t.
Proof.
  intros HI Hl Hst Ht.
  assert (forall sp t0 f st, t0 <> t -> stack (raw s) t0 = f :: st ->
    run_frame plat batch_size sp t0 f st (raw s) = Some (rs, ev) -> stack rs t = stack (raw s) t) as Hrun.
  { intros sp t0 f st Hne Hs E. pose proof (gi_stacks _ _ _ _ HI t0) as Hsec. rewrite Hs in Hsec.
    destruct (sectioned_inv _ _ _ Hsec) as (w & ws & gs & rest & _ & _ & _ & HF & _).
    apply Forall_cons in HF as [Hc%serves_concurrent _].
    destruct (run_frame_stack plat batch_size sp t0 f st (raw s) Hc _ _ E) as (fs & s1 & -> & Hth & _).
    rewrite stack_goto, decide_False by done. unfold stack. by rewrite Hth. }
  destruct l as [t0 o|t0|t0|t0|r|sys x86|ro]; simpl in Hl; simplify_eq; simpl in Hst;
    try (assert (t0 <> t) as Hne by (simpl in Ht; congruence); destruct (stack (raw s) t0) as [|f st] eqn:Hs; [done|]).
  - by eapply Hrun.
  - destruct f; try done. by apply (Hrun true) in Hs.
  - destruct f; try done. injection Hst as <- <-. by rewrite stack_goto, decide_False.
  - by injection Hst as <- <-.
  - by injection Hst as <- <-.
Qed.

Lemma gstep_other l s s' ev t :
  GI None s -> gstep l s = Some (s', ev) -> label_thread l <> Some t ->
  stack (raw s') t = stack (raw s) t /\ waiting s' t = waiting s t.
Proof.
  intros HI Hst Ht. destruct (raw_label l) as [rl|] eqn:Erl.
  - destruct (gstep_raw _ _ _ _ _ _ _ Erl Hst) as (rs & ev0 & E & Hr).
    pose proof (step_other _ _ _ _ _ t HI Erl E Ht) as Es.
    destruct (raw_good _ _ l rl s rs ev0 HI Erl E) as [(t0 & v & st & Hs & -> & -> & ->)|[Hn _]].
    + destruct Hr as (w & ws & ev' & Hw & -> & Ep). change (set_waits _ _) with (popped t0 st ws s) in Ep.
      assert (t <> t0) as Hne by (simpl in Ht; congruence).
      destruct (perform_other _ _ (LG 0) _ _ _ _ t (resume_frames _ _ (LG 0) t0 w v _) Ep Hne) as [-> ->].
      by rewrite stack_popped, waiting_popped, !decide_False.
    + rewrite Hn in Hr. by destruct Hr as [-> _].
  - destruct l as [t0 o|t0|t0|t0|r|sys x86|ro]; try done; simpl in Hst; [|by injection Hst as <- _].
    destruct (at_client _); [|done]. apply bind_Some in Hst as ([s1 ev1] & Ep & [= <- <-]).
    apply (perform_other _ _ (LG 0) _ _ _ _ t (handle_frames _ _ (LG 0) t0 o s) Ep). simpl in Ht. congruence.
Qed.

(** ** The steps left *)

Definition enters (o : gop) : bool := match o with CEnter _ | CEnterOwned _ _ => true | _ => false end.

Definition load_left (pc : load_pc) : nat :=
  match pc with LBucket => 4 | LAllocate => 3 | LCas _ => 2 | LEntry => 1 end.

(** Steps of its thread that an entering call is still to take, from its top
    frame: through [load], [reservation] and [enter]. *)
Definition steps_left (f : frame) : nat :=
  match f with
  | FLoad _ _ pc => load_left pc + 4
  | FRet (RReservation _) => 4
  | FEnter _ => 3
  | FEnterStore _ _ => 2
  | _ => 1
  end.

(** A call of [o] is in progress on [t], above the waits [ws], with at most [n]
    steps to go. *)
Definition within (n : nat) t (o : gop) (ws : list waiter) s : Prop :=
  exists w f st, waiting s t = w :: ws /\ w_op w = o /\ stack (raw s) t = f :: st /\ (steps_left f <= n)%nat.

Lemma enters_kont w : waiter_ok w -> enters (w_op w) = true ->
  working w = false /\ (loading w = true \/ exists x, w_kont w = KEntered x).
Proof.
  unfold waiter_ok, working, loading. intros Hok He. destruct (w_kont w) as [|r| | |x|]; try (split; [done|]; eauto; fail).
  - destruct (w_op w) as [g|mem g|p f| |y|y|y|y p f|y|mem y|mem]; try done; [by specialize (Hok _ eq_refl)|by specialize (Hok _ eq_refl)].
  - destruct Hok as (_ & Hx & _). by destruct (w_op w).
  - destruct Hok as (mem & g & E). by rewrite E in He.
Qed.

(** The frames of an entering call. *)
Lemma enters_frame w f : waiter_ok w -> enters (w_op w) = true -> serves w f ->
  (loading w = true /\ ((exists th pc, f = FLoad KReservation th pc) \/ (exists r, f = FRet (RReservation r)) \/ f = FRet RErr)) \/
  ((exists x, w_kont w = KEntered x) /\ ((exists r, f = FEnter r) \/ (exists r o, f = FEnterStore r o) \/ exists v, f = FRet v /\ forall r, v <> RReservation r)).
Proof.
  intros Hok He Hs. destruct (enters_kont w Hok He) as [Hw Hk].
  assert (forall x, w_kont w = KEntered x -> loading w = false) as Hl by (unfold loading; by intros x ->).
  destruct f as [k th pc|r p f|r|th|r pc|b m i act|b m i act r prev|b act|r|r o|r|r|l|n b|b i|p f|ipc it|r it|r it|v];
    simpl in Hs; try (destruct Hs; congruence); try congruence; try done.
  all: try (destruct k; destruct Hs as [Hs ->]; try congruence; left; split; eauto; fail).
  - destruct Hs as [? ->]. right. eauto.
  - destruct Hs as [? ->]. right. eauto 6.
  - destruct Hs as [[? _] _]; congruence.
  - destruct Hs as [[? _] _]; congruence.
  - destruct v as [| | |r]; try (destruct Hk as [Hk|Hk]; [congruence|right; split; [done|right; right; eexists; by split]]).
    + destruct Hk as [Hk|Hk]; [by left; auto|right; split; [done|right; right; by exists RErr]].
    + left. destruct Hs as [? ->]. eauto 6.
Qed.

Lemma load_left_dec {T} `{EntryLayout T} (create : T) th pc tl (a : A) a' tl' pc' :
  load_step create th pc tl a = Some (a', tl', LMore pc') -> (load_left pc' < load_left pc)%nat.
Proof. destruct pc; simpl; intros; repeat (case_match; simplify_eq); simpl; lia. Qed.

Lemma load_left_pos pc : (1 <= load_left pc)%nat.
Proof. destruct pc; simpl; lia. Qed.

(** Below the store of [enter] is its return. *)
Lemma enter_store_below w r o (fs : list frame) :
  waiter_ok w -> enters (w_op w) = true -> section (FEnterStore r o :: fs) -> Forall (serves w) (FEnterStore r o :: fs) ->
  exists v, fs = [FRet v] /\ forall r, v <> RReservation r.
Proof.
  intros Hok He Hsec HF. apply Forall_cons in HF as [Hs HF]. destruct Hsec as [Hu [(f & E & Hst)|(gs & v & E & Hin)]]; [by injection E as <- ->|].
  destruct Hs as [[x Hx] _]. assert (loading w = false) as Hl by (unfold loading; by rewrite Hx).
  destruct gs as [|g gs]; [done|]. injection E as <- ->. simpl in Hu. apply Forall_app in Hu as [Hu _].
  apply Forall_cons in Hin as [_ Hin]. apply Forall_app in HF as [HF Hv].
  destruct gs as [|g gs].
  - exists v. split; [done|]. intros r' ->. apply Forall_cons in Hv as [[? _] _]. congruence.
  - exfalso. apply Forall_cons in Hu as [Hu _]. apply Forall_cons in Hin as [[Hr Hst] _]. apply Forall_cons in HF as [Hg _].
    destruct (enters_frame w g Hok He Hg) as [[? _]|(_ & [[r' ->]|[(r' & o' & ->)|(v' & -> & _)]])]; try done; congruence.
Qed.

Abbreviation entering_within n t o ws s ev := ((exists v : gret, GDone t v ∈ ev) \/ within n t o ws s).

Lemma enter_called n t o s1 r k th s' ev :
  (3 <= n)%nat -> perform t o (Some (s1, ACall (OpEnter r) k th)) = Some (s', ev) -> within n t o (waiting s1 t) s'.
Proof.
  intros Hn. unfold Guard.perform. cbn [step]. destruct (at_client _); [|done]. intros [= <- <-].
  exists (mkWaiter o k th), (FEnter r), (FRet RUnit :: stack (raw s1) t).
  split; [unfold waiting; simpl; by rewrite lookup_insert_eq|]. split; [done|].
  split; [simpl; by rewrite stack_goto, decide_True|done].
Qed.

Lemma waiting_popped_t t st ws s s1 : waits s1 = waits (popped t st ws s) -> waiting s1 t = ws.
Proof. unfold waiting. intros ->. simpl. by rewrite lookup_insert_eq. Qed.

(** The reservation is there, or is not. *)
Lemma enter_loaded n t w ws st s s' (v : ret) ev :
  waiter_ok w -> enters (w_op w) = true -> loading w = true -> (v = RErr \/ exists r, v = RReservation r /\ (4 <= S n)%nat) ->
  perform t (w_op w) (resume t w v (popped t st ws s)) = Some (s', ev) -> entering_within n t (w_op w) ws s' ev.
Proof.
  intros Hok He Hl Hv. unfold loading, waiter_ok, Guard.resume in *. destruct (w_kont w) as [|r| | |x|]; try done.
  - destruct Hok as [g ->]. unfold LocalGuard_entered. destruct Hv as [-> |(r & -> & Hn)].
    + intros [= <- <-]. left. eexists. by left.
    + intros Hp. destruct (guards_of _ r) as [m|]; [|done]. cbn -[Guard.perform] in Hp. case_decide.
      * right. apply (enter_called n) in Hp; [|lia]. by rewrite (waiting_popped_t t st ws s) in Hp.
      * injection Hp as <- <-. left. eexists. by left.
  - destruct Hok as (mem & g & ->). unfold OwnedGuard_entered. destruct Hv as [-> |(r & -> & Hn)].
    + unfold OwnedGuard_free. destruct (owned_free _ _ _) as [[th|] reg]; intros [= <- <-]; left; eexists; by left.
    + intros Hp. right. apply (enter_called n) in Hp; [|lia]. by rewrite (waiting_popped_t t st ws s) in Hp.
Qed.

(** A frame that is replaced, with no return. *)
Lemma within_goto n t w ws f st s rs :
  waiting s t = w :: ws -> (steps_left f <= n)%nat -> within n t (w_op w) ws (set_raw (goto t (f :: st) rs) s).
Proof.
  intros Hw Hn. exists w, f, st. split; [done|]. split; [done|]. split; [simpl; by rewrite stack_goto, decide_True|done].
Qed.

Lemma enter_own n t o ws s s' ev :
  GI None s -> enters o = true -> within (S n) t o ws s -> gstep (GRun t) s = Some (s', ev) -> entering_within n t o ws s' ev.
Proof.
  intros HI He (w & f & st & Hw & <- & Hs & Hn) Hst.
  destruct (gstep_raw _ _ (GRun t) (LRun t) _ _ _ eq_refl Hst) as (rs & ev0 & E & Hr).
  pose proof E as Erun. simpl in Erun. rewrite Hs in Erun.
  assert (w ∈ waiting s t) as Hin by (rewrite Hw; by left). destruct (gi_waits _ _ _ _ HI t w Hin) as [_ Hok].
  pose proof (gi_stacks _ _ _ _ HI t) as Hsec. rewrite Hs, Hw in Hsec.
  destruct (sectioned_inv _ _ _ Hsec) as (w0 & ws0 & gs & rest & [= <- <-] & -> & Hfs & HF & _).
  pose proof HF as [Hsv _]%Forall_cons.
  assert (forall v, f = FRet v -> (v = RErr \/ exists r, v = RReservation r /\ (4 <= S n)%nat) -> loading w = true ->
    entering_within n t (w_op w) ws s' ev) as Hret.
  { intros v -> Hv Hl. injection Erun as <- <-. destruct Hr as (w1 & ws1 & ev' & Hw1 & -> & Ep).
    rewrite Hw in Hw1. injection Hw1 as <- <-. change (set_waits _ _) with (popped t (gs ++ rest) ws s) in Ep.
    destruct (enter_loaded n _ _ _ _ _ _ _ _ Hok He Hl Hv Ep) as [[u Hu]|]; [left|by right].
    exists u. apply elem_of_app. by right. }
  destruct (enters_frame w f Hok He Hsv) as [[Hl [(th & pc & ->)|[[r ->]| ->]]]|[[x Hx] [[r ->]|[(r & o & ->)|(v & -> & Hv)]]]].
  - simpl in Hn, Erun. unfold step_load in Erun.
    destruct (load_step Reservation_default th pc (reservations (raw s)) (alloc (raw s))) as [[[a tl] x]|] eqn:El; [|done]. cbv zeta in Erun.
    pose proof (load_left_pos pc). right.
    destruct x as [pc'|r|]; injection Erun as <- <-; destruct Hr as [-> _]; apply within_goto; try done; simpl; [|lia..].
    apply (load_left_dec (T:=Reservation)) in El. lia.
  - eapply Hret; [done|right; by exists r|done].
  - eapply Hret; [done|by left|done].
  - injection Erun as <- <-. destruct Hr as [-> _]. right. apply within_goto; [done|]. simpl in *. lia.
  - destruct (enter_store_below w r o gs Hok He Hfs HF) as (v & -> & Hv). simpl in Erun. unfold step_enter_store in Erun.
    apply bind_Some in Erun as (hd & _ & [= <- <-]). destruct Hr as [-> _]. right. apply within_goto; [done|].
    simpl in *. destruct v as [| | |r']; simpl; try lia. by destruct (Hv r').
  - injection Erun as <- <-. destruct Hr as (w1 & ws1 & ev' & Hw1 & -> & Ep). rewrite Hw in Hw1. injection Hw1 as <- <-.
    unfold Guard.resume in Ep. rewrite Hx in Ep. injection Ep as <- <-. left. eexists. right. by left.
Qed.

Lemma within_positive t o ws s : ~ within 0 t o ws s.
Proof. intros (w & f & st & _ & _ & _ & Hn). destruct f as [k th pc| | | | | | | | | | | | | | | | | | |[]]; simpl in Hn; lia. Qed.

Lemma within_le n m t o ws s : (n <= m)%nat -> within n t o ws s -> within m t o ws s.
Proof. intros Hle (w & f & st & ? & ? & ? & ?). exists w, f, st. split_and!; try done. lia. Qed.

(** The other labels of the thread itself are not enabled meanwhile. *)
Lemma enter_other n t o ws s s' l ev :
  GI None s -> enters o = true -> within n t o ws s -> gstep l s = Some (s', ev) -> l <> GRun t -> within n t o ws s'.
Proof.
  intros HI He (w & f & st & Hw & <- & Hs & Hn) Hst Hl.
  assert (label_thread l <> Some t -> within n t (w_op w) ws s') as Hother.
  { intros Ht. destruct (gstep_other _ _ _ _ _ HI Hst Ht) as [Es Ew]. exists w, f, st. by rewrite Es, Ew. }
  destruct (decide (label_thread l = Some t)) as [Ht|Ht]; [exfalso|by apply Hother].
  assert (w ∈ waiting s t) as Hin by (rewrite Hw; by left). destruct (gi_waits _ _ _ _ HI t w Hin) as [_ Hok].
  pose proof (gi_stacks _ _ _ _ HI t) as Hsec. rewrite Hs, Hw in Hsec.
  destruct (sectioned_inv _ _ _ Hsec) as (w0 & ws0 & gs & rest & [= <- <-] & _ & _ & [Hsv _]%Forall_cons & _).
  destruct (enters_frame w f Hok He Hsv) as [[_ [(th & pc & ->)|[[r ->]| ->]]]|[_ [[r ->]|[(r & o & ->)|(v & -> & _)]]]];
    destruct l as [t0 o0|t0|t0|t0|r0|sys x86|ro]; simpl in Ht; simplify_eq; simpl in Hst; by rewrite Hs in Hst.
Qed.

(** ** Runs *)

(** A run, with the number of steps that thread [t] takes in it. *)
Inductive gruns (t : nat) : gstate -> nat -> list gevent -> gstate -> Prop :=
| gruns_nil s : gruns t s 0 [] s
| gruns_own s1 s2 ev n tr s3 :
    glegal_label (GRun t) s1 -> gstep (GRun t) s1 = Some (s2, ev) -> gruns t s2 n tr s3 -> gruns t s1 (S n) (ev ++ tr) s3
| gruns_other s1 l s2 ev n tr s3 :
    l <> GRun t -> glegal_label l s1 -> gstep l s1 = Some (s2, ev) -> gruns t s2 n tr s3 -> gruns t s1 n (ev ++ tr) s3.

Lemma enter_run m t o ws s n tr s' :
  GI None s -> enters o = true -> within m t o ws s -> gruns t s n tr s' -> (m <= n)%nat -> exists v : gret, GDone t v ∈ tr.
Proof.
  intros HI He Hw Hr. revert m HI Hw. induction Hr as [s|s1 s2 ev n tr s3 Hl Hst Hr IH|s1 l s2 ev n tr s3 Hne Hl Hst Hr IH]; intros m HI Hw Hm.
  - assert (m = 0%nat) as -> by lia. by apply within_positive in Hw.
  - apply (within_le m (S n)) in Hw; [|done].
    destruct (enter_own _ _ _ _ _ _ _ HI He Hw Hst) as [[v Hv]|Hw']; [exists v; apply elem_of_app; by left|].
    destruct (gstep_good _ _ _ _ _ _ HI Hl Hst) as [HI2 _].
    destruct (IH n HI2 Hw') as [v Hv]; [done|]. exists v. apply elem_of_app. by right.
  - destruct (gstep_good _ _ _ _ _ _ HI Hl Hst) as [HI2 _].
    destruct (IH m HI2) as [v Hv]; [by apply (enter_other m t o ws s1 s2 l ev)|done|]. exists v. apply elem_of_app. by right.
Qed.


End GuardEnter.
