(* ===== verification/GuardProgress.v ===== *)
(** * Handlers do not get stuck

    A call within the rules never panics for a reason of its own, never finds a
    reservation, a counter or a guard missing, and waits only for the lock of an
    owned guard. *)

From stdpp Require Import prelude list gmap.
From S2P Require Import Prelude Alloc ThreadId Membarrier Tls RawData RawStep RawExec RawGhost RawInv RawPreserve RawProtect RawEffect Guard GuardInv GuardPreserve GuardHandle GuardOps GuardRefine.

Open Scope Z_scope.

Section GuardProgress.
Context {A : Type} `{Allocator A} `{BoxVec A} `{!BoxVecLaws A}.
Context `{EntryLayout Reservation} `{EntryLayout LocalBatch}.
Variables (plat : Platform) (batch_size : Z).

Abbreviation gstate := (guard_state A).
Abbreviation GI := (GI plat batch_size).
Abbreviation good := (good plat batch_size).
Abbreviation gstep := (gstep plat batch_size).
Abbreviation handle := (handle plat batch_size).
Abbreviation resume := (resume plat batch_size).
Abbreviation perform := (perform plat batch_size).
Implicit Types (s : gstate) (r : slot) (t g : nat) (x : gref) (w : waiter).

(** ** Handlers are defined *)

Lemma fields_present (rs : raw_state A) r : is_Some (head_of rs r) -> is_Some (guards_of rs r) /\ is_Some (lock_of rs r).
Proof. unfold head_of, guards_of, lock_of. destruct (tl_get _ r); [by split; eexists|by intros [? [=]]]. Qed.

Lemma current_some t s f :
  (forall th s1, is_Some (f th s1)) -> is_Some (with_current (A:=A) t s f).
Proof. intros Hf. unfold with_current. destruct (Thread_current _ _) as [[th|] reg]; [apply Hf|by eexists]. Qed.

Lemma resume_some t s w v : GI None s -> resumable s t w v -> is_Some (resume t w v s).
Proof.
  intros HI HR. pose proof (rs_ok _ _ _ _ HR) as Hok. unfold Guard.resume, waiter_ok in *.
  destruct (w_kont w) as [|r| | |x|] eqn:Hk; try (by eexists).
  - destruct Hok as [g ->]. unfold LocalGuard_entered. destruct v as [| | |r]; try (by eexists).
    destruct (fields_present _ _ (rs_present _ _ _ _ HR r eq_refl)) as [[n ->] _]. by eexists.
  - destruct Hok as (mem & g & ->). unfold OwnedGuard_entered, OwnedGuard_free.
    destruct v as [| | |r]; try (by eexists); destruct (owned_free _ _ _) as [[th|] reg]; by eexists.
  - destruct Hok as (mem & g & ->). unfold OwnedGuard_free. destruct (owned_free _ _ _) as [[th|] reg]; by eexists.
Qed.

(** The lock that call [o] waits for is taken. *)
Definition blocked s (o : gop) : Prop :=
  exists g og, gop_guard o = Some (OG g) /\ exclusive o = false /\ owneds s !! g = Some og /\
    lock_of (raw s) (o_reservation og) = Some true.

Lemma with_lock_some s o g og ro :
  GI None s -> gop_guard o = Some (OG g) -> exclusive o = false -> owneds s !! g = Some og ->
  is_Some (with_lock plat batch_size og ro s) \/ blocked s o.
Proof.
  intros HI Ho He Hg. destruct (owned_info _ _ _ _ _ _ HI Hg) as (_ & _ & Hhd).
  destruct (fields_present _ _ Hhd) as [_ [b Hb]]. unfold with_lock, raw_write. cbn [step]. rewrite Hb.
  destruct b; [right; by exists g, og|left; by eexists].
Qed.

Lemma local_guards s g lg : GI None s -> locals s !! g = Some lg -> is_Some (guards_of (raw s) (l_reservation lg)).
Proof. intros HI Hg. destruct (local_info _ _ _ _ _ _ HI Hg) as (_ & _ & Hhd). by apply fields_present. Qed.

Lemma handle_some t o s : GI None s -> glegal t o s -> is_Some (handle t o s) \/ blocked s o.
Proof.
  intros HI Hl.
  assert (forall x (m : forall G, Guard (A:=A) G -> G -> gstate -> option (gstate * action)), gop_guard o = Some x -> can_name t s x ->
    (forall g lg, x = LG g -> locals s !! g = Some lg -> is_Some (m LocalGuard _ lg s) \/ blocked s o) ->
    (forall g og, x = OG g -> owneds s !! g = Some og -> is_Some (m OwnedGuard (OwnedGuard_Guard plat batch_size) og s) \/ blocked s o) ->
    is_Some (on_guard plat batch_size x s m) \/ blocked s o) as Hon.
  { intros x m Hx Hn HL HO. destruct x as [g|g]; simpl in *.
    - destruct Hn as (lg & Hg & _). rewrite Hg. simpl. by apply (HL g).
    - destruct Hn as [og Hg]. rewrite Hg. simpl. by apply (HO g). }
  destruct o as [g|mem g|p f| |x|x|x|x p f|x|mem x|mem]; simpl.
  - left. apply current_some. by eexists.
  - left. unfold OwnedGuard_enter. destruct (owned_create _ _) as [[th|] reg]; by eexists.
  - left. apply current_some. by eexists.
  - left. apply current_some. by eexists.
  - destruct Hl as [Hn _]. apply Hon; [done..| |by left; eexists].
    intros g lg _ Hg. left. simpl. unfold LocalGuard_refresh. destruct (local_guards _ _ _ HI Hg) as [n ->]. by eexists.
  - destruct Hl as [Hn _]. apply Hon; [done..|by left; eexists|]. intros g og -> Hg. by eapply with_lock_some.
  - destruct Hl as [Hn _]. apply Hon; [done..|by left; eexists|]. intros g og -> Hg. by eapply with_lock_some.
  - destruct Hl as [Hn _]. apply Hon; [done..|by left; eexists|]. intros g og -> Hg. by eapply with_lock_some.
  - destruct Hl as [Hn _]. apply Hon; [done..|by left; eexists|]. intros g og _ _. left. apply current_some. by eexists.
  - left. destruct Hl as [Hn _]. destruct x as [g|g]; simpl in Hn.
    + destruct Hn as (lg & Hg & _). rewrite Hg. simpl. unfold LocalGuard_drop.
      destruct (local_guards _ _ _ HI Hg) as [n ->]. by eexists.
    + destruct Hn as [og ->]. by eexists.
  - left. unfold thread_exit. destruct (ThreadGuard_drop _ _ _) as [[th|] reg]; by eexists.
Qed.

Lemma perform_some t o s h : good t o s h -> is_Some h -> is_Some (perform t o h).
Proof.
  intros Hg [[s1 a] ->]. unfold Guard.perform. destruct a as [v|ro k th]; [by eexists|].
  destruct (Hg _ _ eq_refl) as (_ & X & _ & HC). cbn [step]. rewrite (c_client _ _ _ _ _ HC). by eexists.
Qed.

(** C25. Calls on guards never go wrong and never wait for one another, but for
    the lock. A call within the rules is taken, unless it is a shared call on an
    owned guard whose lock is held; and a thread inside a call can always take
    its next step, from the first access to the return of the handler: no
    handler meets a missing reservation, counter, guard or continuation. *)
Theorem guards_never_stuck s t :
  greachable plat batch_size s -> Z.of_nat (size (locals s)) < usize_max ->
  (at_client (stack (raw s) t) = false -> exists s' ev, gstep (GRun t) s = Some (s', ev)) /\
  (forall o, at_client (stack (raw s) t) = true -> glegal t o s ->
    (exists s' ev, gstep (GOp t o) s = Some (s', ev)) \/ blocked s o).
Proof.
  intros HI%GI_greachable Hsz. split.
  - intros Hc. destruct (stack (raw s) t) as [|f st] eqn:Hs; [done|].
    destruct (run_frame_safe _ _ _ _ _ _ (gi_raw _ _ _ _ HI) Hs Hc) as (rs & ev & E & _).
    assert (step plat batch_size (LRun t) (raw s) = Some (rs, ev)) as Est by (simpl; by rewrite Hs).
    simpl. rewrite Hs, E. simpl. destruct (raw_good _ _ (GRun t) (LRun t) s rs ev HI eq_refl Est) as
      [(t0 & v & st0 & Hs0 & -> & -> & _)|[-> _]]; [|by eexists _, _].
    cbn [returned]. change (waiting (set_raw _ s) t0) with (waiting s t0).
    pose proof (gi_stacks _ _ _ _ HI t0) as Hsec. rewrite Hs0 in Hsec.
    destruct (sectioned_inv _ _ _ Hsec) as (w & ws & gs & rest & Hw & _). rewrite Hw.
    change (set_waits _ _) with (popped t0 st0 ws s).
    pose proof (GI_pop _ _ _ _ _ _ _ _ _ HI Hs0 Hw) as HI'. pose proof (pop_resumable _ _ _ _ _ _ _ _ HI Hs0 Hw) as HR.
    destruct (perform_some t0 (w_op w) (popped t0 st0 ws s) (resume t0 w v (popped t0 st0 ws s))) as [[s' ev'] Ep];
      [by apply resume_good|by apply resume_some|]. rewrite Ep. by eexists _, _.
  - intros o Hc Hl. destruct (handle_some t o s HI Hl) as [Hh|Hb]; [left|by right].
    destruct (perform_some t o s (handle t o s)) as [[s' ev'] Ep]; [by apply handle_good|done|].
    simpl. rewrite Hc, Ep. by eexists _, _.
Qed.

End GuardProgress.
