(* ===== verification/GuardSolo.v ===== *)
(** * Every call on guards and collectors ends

    A thread inside a call of [enter], [refresh], [flush], [defer_retire], a
    drop, or any other operation of clients that runs alone gets back to client
    code: the operations of the raw collector end (RawSolo), and a handler calls
    it at most twice. *)

From stdpp Require Import prelude list gmap.
From S2P Require Import Prelude Alloc ThreadId Membarrier Tls RawData RawStep RawExec RawGhost RawInv RawPreserve RawProtect RawEffect RawSolo Guard GuardExec GuardInv GuardPreserve GuardHandle GuardOps GuardRefine GuardSafe GuardProgress.

Open Scope Z_scope.

Section GuardSolo.
Context {A : Type} `{Allocator A} `{BoxVec A} `{!BoxVecLaws A}.
Context `{EntryLayout Reservation} `{EntryLayout LocalBatch}.
Variables (plat : Platform) (batch_size : Z) (t : nat).

Abbreviation gstate := (guard_state A).
Abbreviation GI := (GI plat batch_size).
Abbreviation gstep := (gstep plat batch_size).
Abbreviation gsteps := (gsteps plat batch_size).
Abbreviation grun_until := (grun_until plat batch_size).
Implicit Types (s : gstate) (r : slot) (g : nat) (x : gref) (w : waiter).

(** There is room for [n] more local guards. *)
Definition room (n : Z) s : Prop := Z.of_nat (size (locals s)) + n < usize_max.

(** Steps of thread [t], each taken inside a call. *)
Inductive solo : gstate -> list gevent -> gstate -> Prop :=
| solo_nil s : solo s [] s
| solo_cons s1 ev s2 tr s3 :
    at_client (stack (raw s1) t) = false -> room 0 s1 -> gstep (GRun t) s1 = Some (s2, ev) ->
    solo s2 tr s3 -> solo s1 (ev ++ tr) s3.

Lemma solo_trans s1 tr1 s2 tr2 s3 : solo s1 tr1 s2 -> solo s2 tr2 s3 -> solo s1 (tr1 ++ tr2) s3.
Proof. induction 1; [done|]. intros. rewrite <-(assoc_L (++)). econstructor; eauto. Qed.

Lemma solo_one s ev s' : at_client (stack (raw s) t) = false -> room 0 s -> gstep (GRun t) s = Some (s', ev) -> solo s ev s'.
Proof. intros. rewrite <-(app_nil_r ev). econstructor; [done..|constructor]. Qed.

Lemma solo_gsteps s tr s' : solo s tr s' -> gsteps s tr s'.
Proof.
  induction 1 as [s|s1 ev s2 tr s3 Hc Hr Hst _ IH]; [constructor|]. econstructor; [|done|done].
  split; [done|]. unfold room in Hr. lia.
Qed.

Lemma solo_run_until s tr s' : solo s tr s' -> at_client (stack (raw s') t) = true ->
  exists fuel, grun_until fuel t s = Some (s', tr).
Proof.
  induction 1 as [s|s1 ev s2 tr s3 Hc Hr Hst _ IH]; intros Hc'.
  - exists 0%nat. simpl. by rewrite Hc'.
  - destruct (IH Hc') as [fuel Hf]. exists (S fuel). cbn [Guard.grun_until]. rewrite Hc, Hst. simpl. by rewrite Hf.
Qed.

(** ** In the raw collector *)

(** The raw collector runs until it returns to its handler or calls a
    reclaimer. *)
Lemma solo_raw (rs : raw_state A) s :
  pops plat batch_size t [] rs -> raw s = rs -> GI None s -> room 0 s ->
  exists tr s', solo s tr s' /\ GI None s' /\ locals s' = locals s /\ waiting s' t = waiting s t /\
    (at_client (stack (raw s') t) = true \/ exists v st, stack (raw s') t = FRet v :: st).
Proof.
  intros Hp. revert s. induction Hp as [rs Hs|rs Hc|rs rs1 ev Hc Hst _ IH]; intros s <- HI Hr.
  - exists [], s. split; [constructor|]. split; [done|]. split; [done|]. split; [done|]. left. by rewrite Hs.
  - exists [], s. split; [constructor|]. auto.
  - destruct (stack (raw s) t) as [|fr st] eqn:Es; [done|]. destruct (is_ret fr) eqn:Hret.
    { destruct fr as [| | | | | | | | | | | | | | | | | | |v]; try done. exists [], s. split; [constructor|].
      split; [done|]. split; [done|]. split; [done|]. right. eauto. }
    destruct (raw_good plat batch_size (GRun t) (LRun t) s rs1 ev HI eq_refl Hst) as
      [(t0 & v & st0 & Hs0 & _ & _ & [= <-])|[Hn HI1]].
    { rewrite Es in Hs0. by injection Hs0 as -> _. }
    destruct (IH (set_raw rs1 s) eq_refl HI1 Hr) as (tr & s' & Hsolo & ?). exists (map GRaw ev ++ tr), s'. split; [|done].
    econstructor; [by rewrite Es|done| |done]. simpl in Hst |- *. rewrite Es in Hst |- *. rewrite Hst. simpl. by rewrite Hn.
Qed.

(** ** In the handlers *)

(** The calls into the raw collector that the handler makes when resumed. *)
Definition more (w : waiter) : bool := loading w.

(** A handler that is resumed returns, or calls once more to enter. *)
Lemma resume_less w v s s1 act : waiter_ok w -> resume plat batch_size t w v s = Some (s1, act) ->
  (size (locals s1) <= S (size (locals s)))%nat /\ (more w = false -> locals s1 = locals s) /\
  match act with
  | AReturn _ => True
  | ACall _ k th => more w = true /\ more (mkWaiter (w_op w) k th) = false
  end.
Proof.
  intros Hok E. unfold resume, more, loading in *. destruct (w_kont w) as [|r| | |x|].
  - injection E as <- <-. split; [lia|done].
  - apply bind_Some in E as (s2 & E2 & [= <- <-]). apply bind_Some in E2 as ([rs ev] & _ & [= <-]). split; [simpl; lia|done].
  - destruct (w_op w) as [g| | | | | | | | | |]; try done. unfold LocalGuard_entered in E.
    destruct v as [| | |r]; try (injection E as <- <-; split; [lia|done]).
    apply bind_Some in E as (n & _ & (s2 & E2 & [= <- <-])%bind_Some). apply bind_Some in E2 as ([rs ev] & _ & [= <-]).
    split; [|split; [done|by case_decide]]. simpl. destruct (locals s !! g) eqn:Eg;
      [rewrite map_size_insert_Some by eauto; lia|by rewrite map_size_insert_None].
  - destruct (w_op w) as [|mem g| | | | | | | | |]; try done. unfold OwnedGuard_entered, OwnedGuard_free in E.
    destruct v as [| | |r]; [..|injection E as <- <-; split; [simpl; lia|done]];
      destruct (owned_free _ _ _) as [[th|] reg]; injection E as <- <-; (split; [simpl; lia|done]).
  - injection E as <- <-. split; [lia|done].
  - destruct (w_op w) as [| | | | | | | | |mem [g|g]|]; try done. unfold OwnedGuard_free in E.
    destruct (owned_free _ _ _) as [[th|] reg]; injection E as <- <-; (split; [simpl; lia|done]).
Qed.

(** The call in progress on thread [t] returned, or its thread runs a
    reclaimer. *)
Definition settled_call s (tr : list gevent) s' : Prop :=
  (exists v : gret, GDone t v ∈ tr) \/ exists p f st, stack (raw s') t = FReclaim p f :: st.

Lemma client_reclaims s w ws : GI None s -> waiting s t = w :: ws -> at_client (stack (raw s) t) = true ->
  exists p f st, stack (raw s) t = FReclaim p f :: st.
Proof.
  intros HI Hw Hc. pose proof (gi_stacks _ _ _ _ HI t) as Hsec. rewrite Hw in Hsec. inversion Hsec as [|fs rest w' ws' Hfs HF Hc' Hrest E Ew]; subst.
  destruct (section_cons _ Hfs) as (g & gs & ->). simpl in E. destruct (stack (raw s) t) as [|fr st]; [done|].
  destruct fr; try done. eauto.
Qed.

(** The raw collector returned: the handler returns or calls again. *)
Lemma solo_resume s v st w ws :
  GI None s -> room 0 s -> stack (raw s) t = FRet v :: st -> waiting s t = w :: ws ->
  exists tr s', solo s tr s' /\ GI None s' /\ (size (locals s') <= S (size (locals s)))%nat /\
    (more w = false -> locals s' = locals s) /\
    (((exists v' : gret, GDone t v' ∈ tr) /\ at_client (stack (raw s') t) = true) \/
     (more w = true /\ exists w', waiting s' t = w' :: ws /\ more w' = false)).
Proof.
  intros HI Hr Hs Hw. pose proof (pop_resumable _ _ _ _ _ _ _ _ HI Hs Hw) as HR.
  pose proof (GI_pop _ _ _ _ _ _ _ _ _ HI Hs Hw) as HI1. unfold room in Hr.
  destruct (resume_some plat batch_size t (popped t st ws s) w v HI1 HR) as [[s1 act] E].
  pose proof (resume_good plat batch_size t (popped t st ws s) w v HI1 HR ltac:(simpl; lia)) as Hgood.
  destruct (perform_some plat batch_size t (w_op w) (popped t st ws s) (resume plat batch_size t w v (popped t st ws s)))
    as [[s' ev] Ep]; [done|by rewrite E|].
  destruct (perform_good plat batch_size _ _ _ _ _ _ Hgood Ep) as [HI' _].
  destruct (resume_less w v _ s1 act (rs_ok _ _ _ _ HR) E) as (Hsz & Hsame & Hact). simpl in Hsz, Hsame.
  destruct (resume_frames plat batch_size (LG 0) t w v _ _ _ E) as (Ew & Eth & _).
  exists (GRaw (EvRet t v) :: ev), s'.
  assert (gstep (GRun t) s = Some (s', GRaw (EvRet t v) :: ev)) as Est.
  { simpl. rewrite Hs. simpl. change (waiting (set_raw _ s) t) with (waiting s t). rewrite Hw.
    change (set_waits _ _) with (popped t st ws s). by rewrite Ep. }
  split; [apply solo_one; [by rewrite Hs|unfold room; lia|done]|]. split; [done|].
  rewrite E in Ep. unfold perform in Ep. destruct act as [r|ro k th].
  - injection Ep as <- <-. split; [done|]. split; [done|]. left. split; [exists r; right; by left|].
    pose proof (rs_client _ _ _ _ HR) as Hc. unfold stack in *. by rewrite Eth.
  - cbn [step] in Ep. destruct (at_client _); [|done]. injection Ep as <- <-. split; [done|]. split; [done|].
    right. destruct Hact as [Hm Hm']. split; [done|]. exists (mkWaiter (w_op w) k th). split; [|done].
    change (waiting (pushed t (mkWaiter (w_op w) k th) ro s1) t = mkWaiter (w_op w) k th :: ws).
    rewrite waiting_pushed, decide_True by done. f_equal. unfold waiting. rewrite Ew. simpl. by rewrite lookup_insert_eq.
Qed.

Lemma solo_last s w ws :
  GI None s -> room 0 s -> waiting s t = w :: ws -> more w = false ->
  exists tr s', solo s tr s' /\ at_client (stack (raw s') t) = true /\ settled_call s tr s'.
Proof.
  intros HI Hr Hw Hm. destruct (solo_raw (raw s) s) as (tr1 & s1 & Hs1 & HI1 & El & Ew1 & Hend); [by apply pops_all, HI|done..|].
  destruct Hend as [Hc|(v & st & Hs)].
  - exists tr1, s1. split; [done|]. split; [done|]. right. eapply client_reclaims; [done| |done]. by rewrite Ew1.
  - rewrite Hw in Ew1. assert (room 0 s1) as Hr1 by (unfold room in *; by rewrite El).
    destruct (solo_resume s1 v st w ws HI1 Hr1 Hs Ew1) as (tr2 & s2 & Hs2 & HI2 & _ & _ & [[[v' Hv] Hc]|[Hm' _]]); [|congruence].
    exists (tr1 ++ tr2), s2. split; [by eapply solo_trans|]. split; [done|]. left. exists v'. apply elem_of_app. by right.
Qed.

Lemma solo_call s w ws :
  GI None s -> room 1 s -> waiting s t = w :: ws ->
  exists tr s', solo s tr s' /\ at_client (stack (raw s') t) = true /\ settled_call s tr s'.
Proof.
  intros HI Hr Hw. destruct (more w) eqn:Hm; [|apply (solo_last s w ws); try done; unfold room in *; lia].
  assert (room 0 s) as Hr0 by (unfold room in *; lia).
  destruct (solo_raw (raw s) s) as (tr1 & s1 & Hs1 & HI1 & El & Ew1 & Hend); [by apply pops_all, HI|done..|].
  destruct Hend as [Hc|(v & st & Hs)].
  - exists tr1, s1. split; [done|]. split; [done|]. right. eapply client_reclaims; [done| |done]. by rewrite Ew1.
  - rewrite Hw in Ew1. assert (room 0 s1) as Hr1 by (unfold room in *; by rewrite El).
    destruct (solo_resume s1 v st w ws HI1 Hr1 Hs Ew1) as (tr2 & s2 & Hs2 & HI2 & Hsz & _ & [[[v' Hv] Hc]|(_ & w' & Ew2 & Hm2)]).
    + exists (tr1 ++ tr2), s2. split; [by eapply solo_trans|]. split; [done|]. left. exists v'. apply elem_of_app. by right.
    + destruct (solo_last s2 w' ws HI2) as (tr3 & s3 & Hs3 & Hc3 & Hset); [|done|done|].
      { unfold room in *. rewrite El in Hsz. lia. }
      exists (tr1 ++ tr2 ++ tr3), s3. split; [eapply solo_trans; [done|by eapply solo_trans]|]. split; [done|].
      destruct Hset as [[v' Hv]|?]; [left|by right]. exists v'. rewrite !elem_of_app. auto.
Qed.

End GuardSolo.
