(* ===== verification/Collector.v ===== *)
(** * The public collector ([src/src/collector.rs]) and guarded atomics

    The constructors with the statics they share, the batch size, the identity
    of collectors, and the methods of [Guard] that access the client's own
    atomic pointers. The operations that run on the machine ([enter],
    [enter_owned], [retire], [reserve_retire]) are in Guard. *)

From stdpp Require Import prelude list gmap.
From S2P Require Import Prelude Alloc ThreadId Membarrier Tls RawData RawStep Guard.

Open Scope Z_scope.

(** ** [usize::next_power_of_two] (standard library)

    [usize::MAX >> (n - 1).leading_zeros()], plus one. *)
Definition one_less_than_next_power_of_two (n : Z) : Z :=
  if decide (n <= 1) then 0 else Z.shiftr usize_max (leading_zeros (n - 1)).

Definition next_power_of_two (n : Z) : Z := wadd (one_less_than_next_power_of_two n) 1.

Lemma next_power_of_two_val n :
  2 <= n <= 2 ^ 63 -> next_power_of_two n = 2 ^ (Z.log2 (n - 1) + 1).
Proof.
  intros Hn. unfold next_power_of_two, one_less_than_next_power_of_two. rewrite decide_False by lia.
  unfold leading_zeros. rewrite decide_False by lia.
  assert (0 <= Z.log2 (n - 1) < 63) as Hl.
  { split; [apply Z.log2_nonneg|]. apply Z.log2_lt_pow2; lia. }
  set (k := Z.log2 (n - 1)) in *. change BITS with 64.
  replace (Z.shiftr usize_max (64 - 1 - k)) with (2 ^ (k + 1) - 1).
  - pose proof (Z.pow_le_mono_r 2 (k + 1) 63). rewrite wadd_id; [lia|].
    pose proof (Z.pow_pos_nonneg 2 (k + 1)). change (2 ^ 63) with 9223372036854775808 in *. usize.
  - unfold usize_max. change BITS with 64. rewrite Z.shiftr_div_pow2 by lia.
    replace (2 ^ 64) with (2 ^ (64 - 1 - k) * 2 ^ (k + 1)) by (rewrite <-Z.pow_add_r by lia; f_equal; lia).
    pose proof (Z.pow_pos_nonneg 2 (64 - 1 - k)). pose proof (Z.pow_pos_nonneg 2 (k + 1)).
    apply Z.div_unique with (2 ^ (64 - 1 - k) - 1); nia.
Qed.

(** It is the least power of two from [n] on. *)
Lemma next_power_of_two_spec n :
  2 <= n <= 2 ^ 63 ->
  exists k, 0 <= k <= 63 /\ next_power_of_two n = 2 ^ k /\ n <= 2 ^ k < 2 * n /\ in_usize (2 ^ k).
Proof.
  intros Hn. rewrite next_power_of_two_val by done.
  assert (0 <= Z.log2 (n - 1) < 63) as Hl.
  { split; [apply Z.log2_nonneg|]. apply Z.log2_lt_pow2; lia. }
  pose proof (Z.log2_spec (n - 1) ltac:(lia)) as [H1 H2].
  exists (Z.log2 (n - 1) + 1). split; [lia|]. split; [done|].
  rewrite Z.add_1_r, Z.pow_succ_r in * by lia. split; [lia|].
  pose proof (Z.pow_le_mono_r 2 (Z.log2 (n - 1)) 62 ltac:(lia) ltac:(lia)) as H3.
  change (2 ^ 62) with 4611686018427387904 in H3. usize.
Qed.

(** ** Construction *)

Definition DEFAULT_BATCH_SIZE : Z := 32.

(** The statics of the process: the strategy of [membarrier], the cell [CPUS],
    and the counter [ID] of [raw::Collector::new]. *)
Record Process := mkProcess { STRATEGY : Z; CPUS : option Z; ID : Z }.

Definition process_init : Process := mkProcess STRATEGY_init None 0.

(** [Collector]; its allocator and tables are in the state of the machine. *)
Record Collector (A : Type) := mkCollector { c_state : raw_state A; c_id : Z; c_batch_size : Z }.
Arguments mkCollector {A} _ _ _.
Arguments c_state {A} _.
Arguments c_id {A} _.
Arguments c_batch_size {A} _.

Section Collector.
Context {A : Type} `{Allocator A} `{BoxVec A}.
Context `{EntryLayout Reservation} `{EntryLayout LocalBatch}.
Variables (plat : Platform).

(** [raw::Collector::new]. The ID is taken first, also if an allocation fails. *)
Definition raw_Collector_new (threads batch_size : Z) (p : Process) (a : A)
    : Process * outcome (A * result (Collector A)) :=
  let id := ID p in
  let p := mkProcess (STRATEGY p) (CPUS p) (wadd (ID p) 1) in
  (p, out_bind (collector_new (STRATEGY p) threads a) (fun '(a, r) =>
        Ret (a, res_bind r (fun s => Ok (mkCollector s id (next_power_of_two batch_size)))))).

(** [Collector::new_erased]. [par] is what [available_parallelism] returns, if
    it succeeds; [sys] and [x86] are the system calls and the architecture. *)
Definition new_erased (sys : Z -> Z) (x86 : bool) (par : option Z) (p : Process) (a : A)
    : Process * outcome (A * result (Collector A)) :=
  let strategy := detect plat sys x86 (STRATEGY p) in
  let cpus := default (default 1 par) (CPUS p) in
  let p := mkProcess strategy (Some cpus) (ID p) in
  let batch_size := cpus `max` DEFAULT_BATCH_SIZE in
  raw_Collector_new cpus batch_size p a.

(** [Collector::batch_size], the setter. *)
Definition batch_size (c : Collector A) (n : Z) : Collector A := mkCollector (c_state c) (c_id c) n.

(** [PartialEq for Collector] *)
Definition Collector_eq (c1 c2 : Collector A) : bool := bool_decide (c_id c1 = c_id c2).

(** ** What a new collector is *)

(** The theorems about runs apply to [c]. *)
Definition ready (c : Collector A) : Prop := greachable plat (c_batch_size c) (gstate_new (c_state c)).

Definition process_ok (p : Process) : Prop :=
  strategy_ok (STRATEGY p) /\ (forall n, CPUS p = Some n -> 1 <= n) /\ in_usize (ID p).

Lemma new_erased_inv sys x86 par p (a a' : A) p' c :
  new_erased sys x86 par p a = (p', Ret (a', Ok c)) ->
  exists s, collector_new (detect plat sys x86 (STRATEGY p)) (default (default 1 par) (CPUS p)) a = Ret (a', Ok s) /\
    c = mkCollector s (ID p) (next_power_of_two (default (default 1 par) (CPUS p) `max` DEFAULT_BATCH_SIZE)).
Proof.
  unfold new_erased, raw_Collector_new. cbv zeta. simpl.
  destruct (collector_new _ _ a) as [[a1 [s|e]]|]; simpl; intros [= <- <- <-]. eauto.
Qed.

(** C32. A constructor that succeeds returns a collector that is ready for use.
    With [cpus] the number of CPUS that the first constructor of the process
    saw, the batch size is a power of two, at least 32 and [cpus] and less than
    twice the larger of both, so it did not overflow; the collector is one that
    all theorems about runs apply to, with this batch size and with any that is
    set instead. The statics stay in order, also if the constructor fails: each
    call takes an ID, and [CPUS] is written once. *)
Theorem new_erased_spec sys x86 par p (a a' : A) p' r :
  process_ok p -> (forall n, par = Some n -> 1 <= n) -> default (default 1 par) (CPUS p) <= 2 ^ 63 ->
  new_erased sys x86 par p a = (p', Ret (a', r)) ->
  process_ok p' /\ ID p' = wadd (ID p) 1 /\ CPUS p' = Some (default (default 1 par) (CPUS p)) /\
  forall c, r = Ok c ->
    c_id c = ID p /\ ready c /\
    (exists k, c_batch_size c = 2 ^ k /\ 0 <= k) /\
    32 <= c_batch_size c /\ default (default 1 par) (CPUS p) <= c_batch_size c /\
    c_batch_size c < 2 * (default (default 1 par) (CPUS p) `max` 32) /\
    forall n, in_usize n -> ready (batch_size c n) /\ c_batch_size (batch_size c n) = n /\ Collector_eq c (batch_size c n) = true.
Proof.
  intros (Hs & Hcpu & Hid) Hpar Hmax E. set (cpus := default (default 1 par) (CPUS p)) in *.
  assert (1 <= cpus) as Hc1 by (unfold cpus; destruct (CPUS p) as [n|]; simpl; [by apply Hcpu|destruct par; simpl; [by apply Hpar|lia]]).
  assert (p' = mkProcess (detect plat sys x86 (STRATEGY p)) (Some cpus) (wadd (ID p) 1)) as -> by (by injection E as <- _).
  split; [split; [by apply detect_ok|split; [by intros n [= <-]|apply wrap_range]]|].
  split; [done|]. split; [done|].
  { intros c ->. destruct (new_erased_inv _ _ _ _ _ _ _ _ E) as (s & Enew & ->). fold cpus in Enew |- *.
    unfold DEFAULT_BATCH_SIZE. destruct (next_power_of_two_spec (cpus `max` 32)) as (k & Hk & E2 & Hb & Hu); [lia|].
    assert (forall n, in_usize n -> greachable plat n (gstate_new s)) as Hready.
    { intros n Hn. exists (detect plat sys x86 (STRATEGY p)), cpus, a, a', s, [].
      split; [by apply detect_ok|]. split; [change (2 ^ 63) with 9223372036854775808 in *; usize|]. split; [done|].
      split; [done|constructor]. }
    simpl. rewrite E2. split; [done|]. split; [by apply Hready|].
    split; [exists k; split; [done|lia]|]. split; [lia|]. split; [lia|]. split; [lia|].
    intros n Hn. split; [by apply Hready|]. split; [done|]. by apply bool_decide_eq_true. }
Qed.

(** ** Identity *)

(** The collectors that a sequence of calls of constructors makes, each call
    with its own environment and allocator. *)
Fixpoint created (calls : list ((Z -> Z) * bool * option Z * A)) (p : Process) : list (Collector A) :=
  match calls with
  | [] => []
  | (sys, x86, par, a) :: calls =>
      let '(p, r) := new_erased sys x86 par p a in
      match r with Ret (_, Ok c) => [c] | _ => [] end ++ created calls p
  end.

Lemma new_erased_id sys x86 par p (a : A) : ID (new_erased sys x86 par p a).1 = wadd (ID p) 1.
Proof. done. Qed.

Lemma created_ids calls p c :
  in_usize (ID p) -> ID p + Z.of_nat (length calls) <= usize_max -> c ∈ created calls p ->
  ID p <= c_id c < ID p + Z.of_nat (length calls).
Proof.
  revert p. induction calls as [|[[[sys x86] par] a] calls IH]; intros p Hp Hn; cbn [created length] in *; [by intros ?%elem_of_nil|]. destruct (new_erased sys x86 par p a) as [p' r] eqn:E.
  assert (ID p' = ID p + 1) as Hid.
  { pose proof (new_erased_id sys x86 par p a) as Eid. rewrite E in Eid. simpl in Eid. rewrite Eid, wadd_id; [done|usize]. }
  intros [Hc|Hc]%elem_of_app.
  - destruct r as [[a' [c'|]]|]; [|by apply elem_of_nil in Hc..]. apply list_elem_of_singleton in Hc as ->.
    apply new_erased_inv in E as (s & _ & ->). simpl. lia.
  - apply IH in Hc; [lia|rewrite Hid; usize|rewrite Hid; lia].
Qed.

(** C33. Collectors are told apart. Of the collectors that a process creates, by
    fewer than [2 ^ 64] calls of constructors, no two have the same ID, so two
    references are equal only if they refer to the same one; the batch size does
    not matter. *)
Theorem collectors_distinct calls p i j c1 c2 :
  in_usize (ID p) -> ID p + Z.of_nat (length calls) <= usize_max ->
  created calls p !! i = Some c1 -> created calls p !! j = Some c2 ->
  Collector_eq c1 c2 = true <-> i = j.
Proof.
  intros Hp Hn Hi Hj. unfold Collector_eq. rewrite bool_decide_eq_true. split; [|by intros ->; simplify_eq].
  revert p i j Hp Hn Hi Hj. induction calls as [|[[[sys x86] par] a] calls IH]; intros p i j Hp Hn Hi Hj E; cbn [created length] in *; [done|].
  destruct (new_erased sys x86 par p a) as [p' r] eqn:Enew.
  assert (ID p' = ID p + 1) as Hid.
  { pose proof (new_erased_id sys x86 par p a) as Eid. rewrite Enew in Eid. simpl in Eid. rewrite Eid, wadd_id; [done|usize]. }
  assert (in_usize (ID p')) as Hp' by (rewrite Hid; usize).
  assert (ID p' + Z.of_nat (length calls) <= usize_max) as Hn' by (rewrite Hid; lia).
  destruct r as [[a' [c'|]]|]; simpl in *; try (by apply (IH p' i j)).
  apply new_erased_inv in Enew as (s & _ & ->).
  assert (forall k c, created calls p' !! k = Some c -> c_id c <> ID p) as Hne.
  { intros k c Hk%list_elem_of_lookup_2. apply created_ids in Hk; [lia|done..]. }
  destruct i as [|i], j as [|j]; simplify_eq/=; [done|by destruct (Hne j c2)|by destruct (Hne i c1)|].
  f_equal. by apply (IH p').
Qed.

End Collector.

(** ** Guarded atomic pointers *)

(** An access of an [AtomicPtr] with the orderings it is given (standard
    library): loads with [Release] or [AcqRel], also by a failed exchange,
    panic. [spurious] is whether a weak exchange fails although it could
    succeed. The result is the new value, and what the access returns. *)
Inductive access :=
| ALoad (order : Ordering)
| ASwap (value : Z) (order : Ordering)
| ACompareExchange (weak : bool) (current new : Z) (success failure : Ordering).

Definition load_ordering (o : Ordering) : bool :=
  match o with Release | AcqRel => false | _ => true end.

Definition atomic_run (spurious : bool) (x : access) (v : Z) : outcome (Z * (Z + Z)) :=
  match x with
  | ALoad o => if load_ordering o then Ret (v, inl v) else Panic
  | ASwap value _ => Ret (value, inl v)
  | ACompareExchange weak current new _ failure =>
      if load_ordering failure then
        if decide (v = current /\ (weak = true -> spurious = false)) then Ret (new, inl v)
        else Ret (v, inr v)
      else Panic
  end.

(** [raw::Collector::protect] *)
Definition protect_ordering (_order : Ordering) : Ordering := SeqCst.

(** [Guard::protect], [swap], [compare_exchange], [compare_exchange_weak]: the
    access that is made. *)
Definition protect (order : Ordering) : access := ALoad (protect_ordering order).
Definition swap (value : Z) (order : Ordering) : access := ASwap value (protect_ordering order).
Definition compare_exchange (current new : Z) (success failure : Ordering) : access :=
  ACompareExchange false current new (protect_ordering success) (protect_ordering failure).
Definition compare_exchange_weak (current new : Z) (success failure : Ordering) : access :=
  ACompareExchange true current new (protect_ordering success) (protect_ordering failure).

(** The orderings of an access. *)
Definition orderings (x : access) : list Ordering :=
  match x with ALoad o | ASwap _ o => [o] | ACompareExchange _ _ _ o1 o2 => [o1; o2] end.

(** The same access with the orderings of the caller. *)
Definition asked (x : access) : access -> Prop := fun y =>
  match x, y with
  | ALoad _, ALoad _ => True
  | ASwap v _, ASwap w _ => v = w
  | ACompareExchange b c n _ _, ACompareExchange b' c' n' _ _ => b = b' /\ c = c' /\ n = n'
  | _, _ => False
  end.

