(* ===== verification/Erasure.v ===== *)
(** * Erasing the allocator ([src/src/alloc.rs], [src/src/collector.rs])

    [Collector::new] and [Collector::new_in], which hide the allocator in a
    [DynAlloc], and the proof that hiding it changes nothing: the constructors
    commute with every map of allocators that answers all calls alike. *)

From stdpp Require Import prelude list gmap.
From S2P Require Import Prelude Alloc ThreadId Membarrier Tls RawData RawStep Guard Collector.

Open Scope Z_scope.

(** ** The constructors of the crate *)

Section Constructors.
Context {G D : Type} `{Allocator G} `{Allocator D} `{BoxVec (DynAlloc G D)}.
Context `{EntryLayout Reservation} `{EntryLayout LocalBatch}.
Variables (plat : Platform).

(** [Collector::new]: [g] is the state of the global allocator. *)
Definition Collector_new (sys : Z -> Z) (x86 : bool) (par : option Z) (p : Process) (g : G)
    : Process * outcome (DynAlloc G D * result (Collector (DynAlloc G D))) :=
  new_erased plat sys x86 par p (Global g).

(** [Collector::new_in] *)
Definition new_in (sys : Z -> Z) (x86 : bool) (par : option Z) (p : Process) (alloc : D)
    : Process * outcome (DynAlloc G D * result (Collector (DynAlloc G D))) :=
  new_erased plat sys x86 par p (DynAlloc_new alloc).
End Constructors.

(** ** Maps of allocators *)

Definition out_map {S T} (f : S -> T) (r : outcome S) : outcome T :=
  match r with Ret x => Ret (f x) | Panic => Panic end.

Definition on_fst {S T U} (f : S -> T) (r : S * U) : T * U := (f (fst r), snd r).

Definition res_map {S T} (f : S -> T) (r : result S) : result T :=
  match r with Ok x => Ok (f x) | Err e => Err e end.

Definition state_map {A B} (h : A -> B) (s : raw_state A) : raw_state B :=
  mkState (strategy s) (buffers s) (reservations s) (batches s) (h (alloc s)) (heap s) (threads s).

Definition collector_map {A B} (h : A -> B) (c : Collector A) : Collector B :=
  mkCollector (state_map h (c_state c)) (c_id c) (c_batch_size c).

(** ** The tables *)

Section Tables.
Context {A B T : Type} `{Allocator A} `{Allocator B} (h : A -> B) `{!AllocHom h}.
Context `{EntryLayout T}.

Lemma hom_allocate a l : al_allocate (h a) l = (h (fst (al_allocate a l)), snd (al_allocate a l)).
Proof.
  pose proof (alloc_hom (h:=h) (CAllocate l) a) as E. simpl in E.
  destruct (al_allocate (h a) l). by injection E as -> ->.
Qed.

Lemma hom_deallocate a p l : al_deallocate (h a) p l = h (al_deallocate a p l).
Proof. pose proof (alloc_hom (h:=h) (CDeallocate p l) a) as E. by injection E. Qed.

Lemma hom_allocate_bucket a n :
  allocate_bucket (T:=T) (h a) n = (h (fst (allocate_bucket (T:=T) a n)), snd (allocate_bucket (T:=T) a n)).
Proof.
  unfold allocate_bucket, allocate. destruct (bucket_layout n) as [l|e]; [|done]. rewrite hom_allocate.
  by destruct (al_allocate a l) as [a' [p|e]].
Qed.

Lemma hom_free_bucket a (bk : Bucket T) n :
  free_bucket (h a) bk n = out_map (on_fst h) (free_bucket a bk n).
Proof.
  unfold free_bucket, deallocate. destruct (bucket_layout n) as [l|e]; [|done]. by rewrite hom_deallocate.
Qed.

Lemma hom_free_buckets (bs : list (Bucket T)) j a :
  free_buckets j bs (h a) = out_map h (free_buckets j bs a).
Proof.
  revert j a. induction bs as [|bk bs IH]; intros j a; [done|]. simpl. rewrite hom_free_bucket.
  destruct (free_bucket a bk _) as [[a' vs]|]; [|done]. apply IH.
Qed.

Lemma hom_init_buckets n (done : list (Bucket T)) a :
  init_buckets n done (h a) = out_map (on_fst h) (init_buckets n done a).
Proof.
  revert done a. induction n as [|n IH]; intros bs a; [done|]. simpl. rewrite hom_allocate_bucket.
  destruct (allocate_bucket a _) as [a' [bk|e]]; simpl; [apply IH|]. rewrite hom_free_buckets.
  by destruct (free_buckets 0 bs a').
Qed.

Lemma hom_with_capacity_in n a :
  with_capacity_in (T:=T) n (h a) = out_map (on_fst h) (with_capacity_in n a).
Proof.
  unfold with_capacity_in. destruct (if decide (n = 0) then _ else _) as [i|]; [|done]. simpl.
  rewrite hom_init_buckets. by destruct (init_buckets _ [] a) as [[a' [bs|e]]|].
Qed.

Lemma hom_drop_buckets (bs : list (option (Bucket T))) i a :
  drop_buckets i bs (h a) = out_map (on_fst h) (drop_buckets i bs a).
Proof.
  revert i a. induction bs as [|[bk|] bs IH]; intros i a; [done| |apply IH]. simpl. rewrite hom_free_bucket.
  destruct (free_bucket a bk _) as [[a' vs]|]; [|done]. simpl. rewrite IH.
  by destruct (drop_buckets (S i) bs a') as [[a'' ws]|].
Qed.
End Tables.

(** ** The constructors *)

Section Erasure.
Context {A B : Type} `{Allocator A} `{Allocator B} (h : A -> B) `{!AllocHom h}.
Context `{BoxVec A} `{BoxVec B}.
Context `{EntryLayout Reservation} `{EntryLayout LocalBatch}.
Variables (plat : Platform).

Definition hom_result (r : A * result (Collector A)) : B * result (Collector B) :=
  (h (fst r), res_map (collector_map h) (snd r)).

Lemma hom_collector_new strat n a :
  collector_new strat n (h a) = out_map (fun r => (h (fst r), res_map (state_map h) (snd r))) (collector_new strat n a).
Proof.
  unfold collector_new. rewrite (hom_with_capacity_in h).
  destruct (with_capacity_in n a) as [[a1 [res|e]]|]; [|done..]. simpl. rewrite (hom_with_capacity_in h).
  destruct (with_capacity_in n a1) as [[a2 [bat|e]]|]; [done| |done]. simpl. unfold tls_drop.
  rewrite (hom_drop_buckets h). by destruct (drop_buckets _ _ a2) as [[a3 vs]|].
Qed.

Lemma hom_new_erased sys x86 par p a :
  new_erased plat sys x86 par p (h a) =
    ((new_erased plat sys x86 par p a).1, out_map hom_result (new_erased plat sys x86 par p a).2).
Proof.
  unfold new_erased, raw_Collector_new. cbv zeta. simpl. rewrite (hom_collector_new).
  by destruct (collector_new _ _ a) as [[a' [s|e]]|].
Qed.
End Erasure.

Section Properties.
Context {G D : Type} `{Allocator G} `{Allocator D} `{BoxVec G} `{BoxVec D} `{BoxVec (DynAlloc G D)}.
Context `{EntryLayout Reservation} `{EntryLayout LocalBatch}.
Variables (plat : Platform).

Fixpoint alloc_calls_run {A} `{Allocator A} (cs : list alloc_call) (a : A) : A * list (option (result Z)) :=
  match cs with
  | [] => (a, [])
  | c :: cs =>
      let '(a, r) := alloc_call_run c a in
      let '(a, rs) := alloc_calls_run cs a in (a, r :: rs)
  end.

Lemma hom_calls {A B} `{Allocator A} `{Allocator B} (h : A -> B) `{!AllocHom h} cs a :
  alloc_calls_run cs (h a) = (h (alloc_calls_run cs a).1, (alloc_calls_run cs a).2).
Proof.
  revert a. induction cs as [|c cs IH]; intros a; [done|]. simpl. rewrite (alloc_hom (h:=h)).
  destruct (alloc_call_run c a) as [a' r]. simpl. rewrite IH. by destruct (alloc_calls_run cs a').
Qed.

(** C35. Erasing the allocator is transparent. A collector made by [new] or by
    [new_in] takes the same ID, has the same tables and batch size, and fails or
    panics in the same cases as one that is made directly with the global or the
    given allocator, which it leaves in the same state; and whatever is called on
    the erased allocator after that, it never turns into another one and answers
    as the allocator it holds. *)
Theorem erasure_transparent sys x86 par p (g : G) (d : D) cs :
  new_in plat sys x86 par p d = ((new_erased plat sys x86 par p d).1, out_map (hom_result (Dyn (G:=G))) (new_erased plat sys x86 par p d).2) /\
  Collector_new plat sys x86 par p g = ((new_erased plat sys x86 par p g).1, out_map (hom_result (Global (D:=D))) (new_erased plat sys x86 par p g).2) /\
  alloc_calls_run cs (DynAlloc_new (G:=G) d) = (Dyn (alloc_calls_run cs d).1, (alloc_calls_run cs d).2) /\
  alloc_calls_run cs (Global (D:=D) g) = (Global (alloc_calls_run cs g).1, (alloc_calls_run cs g).2).
Proof.
  split; [apply (hom_new_erased Dyn)|]. split; [apply (hom_new_erased Global)|].
  split; [apply (hom_calls Dyn)|apply (hom_calls Global)].
Qed.
End Properties.
