(* ===== verification/Lifetime.v ===== *)
(** * The life of a collector

    The parts put together: a collector that was made by the public constructor,
    used through guards by any clients, and dropped. *)

From stdpp Require Import prelude list gmap.
From S2P Require Import Prelude Alloc ThreadId Membarrier Tls RawData RawStep RawExec RawGhost RawInv RawPreserve RawProtect RawFacts RawConserve RawReclaim RawMemory RawEffect Guard GuardInv GuardPreserve GuardHandle GuardOps GuardRefine Collector.

Open Scope Z_scope.

Section Lifetime.
Context {A : Type} `{Allocator A} `{!AllocatorLaws A} `{BoxVec A} `{!BoxVecLaws A} `{!MemLaws A}.
Context `{EntryLayout Reservation} `{EntryLayout LocalBatch}.
Variables (plat : Platform) (n : Z).

Abbreviation gstate := (guard_state A).
Implicit Types (s : gstate).

(** No guard is left and no thread is in the collector. *)
Definition unused s : Prop :=
  locals s = ∅ /\ owneds s = ∅ /\ forall t, stack (raw s) t = [].

Lemma unused_no_slots s r : unused s -> ~ wants s r.
Proof. intros (Hl & Ho & _) ([g|g] & h & th & E); simpl in E; [rewrite Hl in E|rewrite Ho in E]; by rewrite lookup_empty in E. Qed.

(** Dropping the guards makes the collector quiet. *)
Lemma unused_quiescent s : GI plat n None s -> unused s -> quiescent (raw s).
Proof.
  intros HI Hu. pose proof Hu as (_ & _ & Hst). split; [done|]. intros r hd Hr.
  destruct (decide (hd = INACTIVE)); [done|]. exfalso. apply (unused_no_slots s r Hu).
  apply (free_settled plat n s r HI); [|by exists hd; auto].
  intros t fr Hin. rewrite Hst in Hin. by apply elem_of_nil in Hin.
Qed.

Lemma new_pending strat cap a0 a (s : raw_state A) : collector_new strat cap a0 = Ret (a, Ok s) -> pending s = [].
Proof. intros E%collector_new_heap. unfold pending. by rewrite E, map_flat_empty. Qed.

(** When a collector that was used is dropped, all objects are reclaimed and all
    memory is given back. *)
Lemma drop_ends strat cap (a0 a : A) (r0 : raw_state A) tr s t :
  strategy_ok strat -> in_usize cap -> in_usize n ->
  collector_new strat cap a0 = Ret (a, Ok r0) -> gsteps plat n (gstate_new r0) tr s -> unused s ->
  exists fuel a' tr', collector_drop plat n fuel t (raw s) = Some (Ret a', tr') /\
    evs_reclaimed (raw_events tr ++ tr') ≡ₚ evs_retired (raw_events tr ++ tr') /\
    live a' = live a0 /\ boxes a' = boxes a0.
Proof.
  intros Hd Hcap Hn E Hst Hu. pose proof (GI_new plat n _ _ _ _ _ Hd Hcap Hn E) as HI0.
  destruct (gsteps_good plat n _ _ _ HI0 Hst) as [HI Hraw].
  assert (reachable plat n (raw s)) as Hreach by (eexists _, _, a0, a, r0, _; eauto).
  destruct Hn as [Hn0 _].
  pose proof (steps_accounted plat n Hn0 _ _ _ _ _ (new_accounted n Hn0 _ _ _ _ _ E) Hraw) as Hac.
  destruct (drop_accounted plat n Hn0 _ _ (raw s) t Hreach Hac (unused_quiescent s HI Hu)) as (fuel & a' & tr' & Ed & Hrec & Hret & Hl & Hx).
  exists fuel, a', tr'. split; [done|]. split; [|done].
  pose proof (steps_balanced plat n _ _ _ (gi_raw _ _ _ _ HI0) Hraw) as Hb. unfold balanced in Hb. simpl in Hb.
  rewrite (new_pending _ _ _ _ _ E), app_nil_r in Hb.
  by rewrite evs_reclaimed_app, evs_retired_app, Hret, Hrec, app_nil_r, Hb.
Qed.

(** The capacity that the constructor asks for. *)
Lemma cpus_usize p par :
  process_ok p -> (forall m, par = Some m -> 1 <= m) -> default (default 1 par) (CPUS p) <= 2 ^ 63 ->
  in_usize (default (default 1 par) (CPUS p)).
Proof.
  intros (_ & Hcpu & _) Hpar Hmax. change (2 ^ 63) with 9223372036854775808 in Hmax.
  destruct (CPUS p) as [m|]; simpl in *; [specialize (Hcpu m eq_refl); usize|].
  destruct par as [m|]; simpl in *; [specialize (Hpar m eq_refl); usize|usize].
Qed.

End Lifetime.
