(* ===== verification/World.v ===== *)
(** * Several collectors in a process

    A process may have any number of collectors. Each has its own tables,
    batches, guards, allocator and batch size, but the registry of thread IDs
    and the strategy of [membarrier] are statics that they share: a thread uses
    its ID with all of them, an owned guard of one takes an ID that the others
    cannot take, and the end of a thread is the end for all. Collectors are
    created and dropped while others run. The thread that takes a step is part
    of its label, and a thread may be in several collectors, as a reclaimer of
    one may use another. *)

From stdpp Require Import prelude list gmap.
From S2P Require Import Prelude Alloc ThreadId Membarrier Tls RawData RawStep RawExec RawGhost RawInv RawPreserve RawConserve RawMemory RawEffect Guard GuardExec GuardInv GuardPreserve GuardHandle GuardOps GuardRefine GuardSafe GuardSpec Collector Lifetime.

Open Scope Z_scope.

(** A collector with its guards and calls; its registry and its strategy are
    those of the world. *)
Record member (A : Type) := mkMember { m_id : Z; m_batch : Z; m_state : guard_state A }.
Arguments mkMember {A} _ _ _.
Arguments m_id {A} _.
Arguments m_batch {A} _.
Arguments m_state {A} _.

(** The statics, and the collectors by name: [None] when it was dropped. *)
Record world (A : Type) := mkWorld { statics : Process; ids : Registry; members : gmap nat (option (member A)) }.
Arguments mkWorld {A} _ _ _.
Arguments statics {A} _.
Arguments ids {A} _.
Arguments members {A} _.

Inductive wlabel (A : Type) :=
| WNew (c : nat) (sys : Z -> Z) (x86 : bool) (par : option Z) (n : option Z) (a : A)  (* Collector::new, batch_size *)
| WStep (c : nat) (l : glabel)         (* a call of, or a step in, collector c *)
| WExit (mem : bool) (t : nat)         (* thread t ends *)
| WDrop (c t fuel : nat).              (* drop(collector c) on thread t *)
Arguments WNew {A} _ _ _ _ _ _.
Arguments WStep {A} _ _.
Arguments WExit {A} _ _.
Arguments WDrop {A} _ _ _.

Inductive wevent :=
| WIn (c : nat) (e : gevent)
| WEnd (t : nat) (mem : bool) (r : gret).

Definition world_init {A} : world A := mkWorld process_init registry_init ∅.

(** What collector [c] sees of a run: its own events, and threads that end. *)
Definition seen (c : nat) (e : wevent) : list gevent :=
  match e with
  | WIn c' e => if decide (c' = c) then [e] else []
  | WEnd t mem r => [GCall t (TExit mem); GDone t r]
  end.

Definition trace_of (c : nat) (tr : list wevent) : list gevent := tr ≫= seen c.

(** What a collector that does not exist yet sees. *)
Definition exits (tr : list wevent) : list gevent :=
  tr ≫= (fun e => match e with WIn _ _ => [] | WEnd t mem r => [GCall t (TExit mem); GDone t r] end).

Section World.
Context {A : Type} `{Allocator A} `{BoxVec A}.
Context `{EntryLayout Reservation} `{EntryLayout LocalBatch}.
Variables (plat : Platform).

Abbreviation world := (world A).
Abbreviation member := (member A).
Abbreviation wlabel := (wlabel A).
Implicit Types (w : world) (m : member) (c t g : nat).

(** Collector [m] in world [w]. *)
Definition view w m : guard_state A :=
  set_registry (ids w) (set_raw (set_strategy (STRATEGY (statics w)) (raw (m_state m))) (m_state m)).

Definition member_at w c : option member := default None (members w !! c).

(** [TExit] is a step of the whole world; the strategy is only changed by
    constructors, and the other collectors are there themselves. *)
Definition own_label (l : glabel) : bool :=
  match l with GOp _ (TExit _) | GDetect _ _ | GOther _ => false | _ => true end.

Definition wstep (l : wlabel) w : option (world * list wevent) :=
  match l with
  | WNew c sys x86 par n a =>
      match members w !! c with
      | Some _ => None
      | None =>
          let '(p, r) := new_erased plat sys x86 par (statics w) a in
          match r with
          | Ret (_, Ok col) =>
              let col := match n with Some n => batch_size col n | None => col end in
              Some (mkWorld p (ids w)
                (<[c := Some (mkMember (c_id col) (c_batch_size col) (gstate_new (c_state col)))]> (members w)), [])
          | _ => Some (mkWorld p (ids w) (members w), [])
          end
      end
  | WStep c l =>
      if own_label l then
        m ← member_at w c;
        '(s, ev) ← gstep plat (m_batch m) l (view w m);
        Some (mkWorld (statics w) (registry s) (<[c := Some (mkMember (m_id m) (m_batch m) s)]> (members w)), map (WIn c) ev)
      else None
  | WExit mem t =>
      let '(o, reg) := ThreadGuard_drop mem t (ids w) in
      Some (mkWorld (statics w) reg (members w),
        [WEnd t mem (match o with Ret _ => GRet RUnit | Panic => GPanic end)])
  | WDrop c t fuel =>
      m ← member_at w c;
      '(o, ev) ← collector_drop plat (m_batch m) fuel t (raw (view w m));
      match o with
      | Ret _ => Some (mkWorld (statics w) (ids w) (<[c := None]> (members w)), map (fun e => WIn c (GRaw e)) ev)
      | Panic => None
      end
  end.

(** Names of owned guards are not used for two collectors. *)
Definition name_free (g : nat) (s : guard_state A) : Prop :=
  owneds s !! g = None /\ may_borrow s (OG g) (CEnterOwned true g).

(** There are fewer local guards than the counter of a reservation can hold. *)
Definition few w : Prop :=
  forall c m, member_at w c = Some m -> Z.of_nat (size (locals (m_state m))) < usize_max.

(** The rules: those of the guards in each collector; a thread ends when it has
    no calls and no local guards in any of them; a collector is dropped when it
    is not used any more. *)
Definition wlegal (l : wlabel) w : Prop :=
  few w /\
  match l with
  | WNew c sys x86 par n a =>
      (forall k, par = Some k -> 1 <= k) /\ default (default 1 par) (CPUS (statics w)) <= 2 ^ 63 /\
      (forall k, n = Some k -> in_usize k)
  | WStep c l => forall m, member_at w c = Some m ->
      glegal_label l (view w m) /\
      forall t mem g, l = GOp t (CEnterOwned mem g) ->
        forall c' m', c' <> c -> member_at w c' = Some m' -> name_free g (view w m')
  | WExit mem t => forall c m, member_at w c = Some m -> glegal t (TExit mem) (view w m)
  | WDrop c t fuel => forall m, member_at w c = Some m -> unused (view w m)
  end.

Inductive wsteps : world -> list wevent -> world -> Prop :=
| wsteps_nil w : wsteps w [] w
| wsteps_cons w1 l w2 ev tr w3 :
    wlegal l w1 -> wstep l w1 = Some (w2, ev) -> wsteps w2 tr w3 -> wsteps w1 (ev ++ tr) w3.

End World.
