(* ===== verification/WorldSafe.v ===== *)
(** * Several collectors are as many single ones

    What the other collectors of a process do to the registry and to the
    strategy are steps that a collector on its own allows for, so every
    collector of a process runs as the theorems about one say. *)

From stdpp Require Import prelude list gmap.
From S2P Require Import Prelude Alloc ThreadId Membarrier Tls RawData RawStep RawExec RawGhost RawInv RawPreserve RawConserve RawReclaim RawMemory RawEffect Guard GuardExec GuardInv GuardPreserve GuardHandle GuardOps GuardRefine GuardSafe GuardSpec Collector Lifetime World.

Open Scope Z_scope.

(** ** The strategy *)

Section Strategy.
Context {A : Type} `{Allocator A} `{BoxVec A}.
Context `{EntryLayout Reservation} `{EntryLayout LocalBatch}.
Variables (plat : Platform) (n : Z).

Abbreviation rstate := (raw_state A).
Abbreviation gstate := (guard_state A).

Definition same_strategy (s : rstate) (o : option (rstate * list event)) : Prop :=
  forall s' ev, o = Some (s', ev) -> strategy s' = strategy s.

Lemma same_strategy_None s : same_strategy s None.
Proof. by intros ? ? [=]. Qed.

Lemma same_strategy_next t fs rest ev (s s1 : rstate) : strategy s1 = strategy s -> same_strategy s (next_ev t fs rest ev s1).
Proof. intros E s' ev' [= <- _]. exact E. Qed.

Lemma same_strategy_bind {B} s (m : option B) k : (forall x, m = Some x -> same_strategy s (k x)) -> same_strategy s (m ≫= k).
Proof. destruct m as [x|]; simpl; [by intros Hk; apply Hk|by intros _ ? ? [=]]. Qed.

Lemma local_get_or_init_strategy r (s s1 : rstate) res :
  local_get_or_init n r s = Some (s1, res) -> strategy s1 = strategy s.
Proof.
  unfold local_get_or_init. destruct (tl_get (batches s) r) as [lb|]; simpl; [|done].
  by destruct (get_or_init _ _ _ _) as [[[a h] lb'] res']; intros [= <- _].
Qed.

Lemma step_strategy l (s : rstate) :
  match l with LDetect _ _ => False | _ => True end -> same_strategy s (step plat n l s).
Proof.
  intros Hl. destruct l as [t o|t|t|t|r|sys x86|r k|r|r]; try done; simpl; try (by intros ? ? [= <- _]).
  1: case_match; [by apply same_strategy_next|apply same_strategy_None].
  4: repeat case_match; [apply same_strategy_None|by intros ? ? [= <- _]|apply same_strategy_None].
  all: destruct (stack s t) as [|fr st]; [apply same_strategy_None|];
    destruct fr as [k th pc|r p f|r|th|r pc|b m i act|b m i act r prev|b act|r|r o|r|r|l|x b|b i|p f|ipc it|r it|r it|x];
    try apply same_strategy_None; simpl;
    unfold step_load, step_add, step_reserve, step_flush, step_try, step_retire, step_cas, step_finish,
      step_enter, step_enter_store, step_leave, step_refresh, step_swap, step_traverse, step_dec,
      step_free_batch, step_all, step_all_batch, step_all_reset; cbv zeta.
  all: repeat first [apply same_strategy_None | apply same_strategy_bind; intros | case_match
    | apply same_strategy_next; first [reflexivity | by eapply local_get_or_init_strategy | idtac]].
  all: try (change (strategy r0 = strategy s); by eapply local_get_or_init_strategy).
  - by destruct (barrier_drain t h s) as [P ->].
  - by destruct o.
Qed.

End Strategy.

(** ** What a step does to the statics *)

(** [r'] is [r] after at most one operation, which [P] allows. *)
Definition reg_moves (P : reg_op -> Prop) (r r' : Registry) : Prop :=
  r' = r \/ exists o, P o /\ r' = reg_step o r.

Lemma reg_moves_mono (P Q : reg_op -> Prop) r r' : (forall o, P o -> Q o) -> reg_moves P r r' -> reg_moves Q r r'.
Proof. intros HPQ [->|(o & HP & ->)]; [by left|right; eauto]. Qed.

Section Moves.
Context {A : Type} `{Allocator A} `{BoxVec A} `{!BoxVecLaws A}.
Context `{EntryLayout Reservation} `{EntryLayout LocalBatch}.
Variables (plat : Platform) (n : Z).

Abbreviation gstate := (guard_state A).
Abbreviation gstep := (gstep plat n).
Abbreviation handle := (handle plat n).
Abbreviation resume := (resume plat n).
Abbreviation perform := (perform plat n).
Implicit Types (s : gstate) (t g : nat) (o : gop) (w : waiter).

(** A handler moves the registry as [P] allows, and keeps the strategy. *)
Definition moves (P : reg_op -> Prop) s (h : option (gstate * action)) : Prop :=
  forall s1 a, h = Some (s1, a) -> strategy (raw s1) = strategy (raw s) /\ reg_moves P (registry s) (registry s1).

Lemma moves_none P s s1 a : raw s1 = raw s -> registry s1 = registry s -> moves P s (Some (s1, a)).
Proof. intros Er Eg s2 a' [= <- _]. rewrite Er, Eg. split; [done|by left]. Qed.

Lemma moves_by (P : reg_op -> Prop) s s1 a ro : raw s1 = raw s -> P ro -> registry s1 = reg_step ro (registry s) -> moves P s (Some (s1, a)).
Proof. intros Er HP Eg s2 a' [= <- _]. rewrite Er. split; [done|right; eauto]. Qed.

Lemma moves_bind {B} P s (m : option B) k : (forall y, m = Some y -> moves P s (k y)) -> moves P s (m ≫= k).
Proof. destruct m as [y|]; simpl; [by intros Hk; apply Hk|by intros _ ? ? [=]]. Qed.

Lemma moves_write P l s k : match l with LGuards _ _ | LLock _ | LUnlock _ => True | _ => False end ->
  (forall s1, strategy (raw s1) = strategy (raw s) -> registry s1 = registry s -> moves P s1 (k s1)) ->
  moves P s (raw_write plat n l s ≫= k).
Proof.
  intros Hl Hk. apply moves_bind. intros s1. unfold raw_write. intros ([rs ev] & E & [= <-])%bind_Some.
  assert (strategy rs = strategy (raw s)) as Es by (eapply (step_strategy plat n l (raw s)); [by destruct l|done]).
  intros s2 a E2. destruct (Hk (set_raw rs s) Es eq_refl _ _ E2) as [Es2 Hm]. split; [by rewrite Es2|done].
Qed.

Lemma moves_current (P : reg_op -> Prop) s t f : P (RCurrent t) ->
  (forall th s1, raw s1 = raw s -> exists s2 a, f th s1 = Some (s2, a) /\ raw s2 = raw s1 /\ registry s2 = registry s1) ->
  moves P s (with_current t s f).
Proof.
  intros HP Hf. unfold with_current. destruct (Thread_current t (registry s)) as [[th|] reg] eqn:E.
  - destruct (Hf th (set_registry reg s) eq_refl) as (s2 & a & -> & Er & Eg).
    apply (moves_by _ _ _ _ (RCurrent t)); [done|done|]. rewrite Eg. simpl. by rewrite E.
  - apply (moves_by _ _ _ _ (RCurrent t)); [done|done|]. simpl. by rewrite E.
Qed.

(** The operations on the registry of the handler of [o]. *)
Definition called_op o (ro : reg_op) : Prop :=
  match ro with
  | RCurrent _ => True
  | RExit mem t => o = TExit mem
  | ROwned g => exists mem, o = CEnterOwned mem g
  | ROwnedDrop _ _ => False
  end.

Lemma handle_moves t o s : (forall mem g, o = CEnterOwned mem g -> ThreadId.owned (registry s) !! g = None) ->
  moves (called_op o) s (handle t o s).
Proof.
  intros Hnew. destruct o as [g|mem g|p f| |[g|g]|[g|g]|[g|g]|[g|g] p f|[g|g]|mem [g|g]|mem]; simpl;
    try (apply moves_bind; intros self _);
    try (apply moves_current; [done|]; intros th s1 _; by eexists _, _);
    try (by apply moves_none);
    try (unfold with_lock; apply moves_write; [done|]; intros s1 _ _; by apply moves_none).
  - unfold OwnedGuard_enter. specialize (Hnew mem g eq_refl).
    assert (reg_step (ROwned g) (registry s) = (owned_create g (registry s)).2) as E
      by (simpl; rewrite decide_False by (rewrite Hnew; by intros [? ?]); done).
    destruct (owned_create g (registry s)) as [[th|] reg]; (apply (moves_by _ _ _ _ (ROwned g)); [done|by exists mem|by rewrite E]).
  - unfold LocalGuard_refresh. apply moves_bind; intros k _. by apply moves_none.
  - unfold LocalGuard_drop. apply moves_bind; intros k _. apply moves_write; [done|]; intros s1 _ _. by apply moves_none.
  - unfold thread_exit. assert (reg_step (RExit mem t) (registry s) = (ThreadGuard_drop mem t (registry s)).2) as E by done.
    destruct (ThreadGuard_drop mem t (registry s)) as [[u|] reg]; (apply (moves_by _ _ _ _ (RExit mem t)); [done|done|by rewrite E]).
Qed.

(** A resumed handler of [o] frees at most the ID of its own owned guard. *)
Definition freed_op o (ro : reg_op) : Prop :=
  match ro with ROwnedDrop _ g => gop_guard o = Some (OG g) | _ => False end.

Lemma free_moves o mem g s (r : ret) : gop_guard o = Some (OG g) -> moves (freed_op o) s (OwnedGuard_free mem g r s).
Proof.
  intros Ho. unfold OwnedGuard_free. assert (reg_step (ROwnedDrop mem g) (registry s) = (owned_free mem g (registry s)).2) as E by done.
  destruct (owned_free mem g (registry s)) as [[u|] reg]; (apply (moves_by _ _ _ _ (ROwnedDrop mem g)); [done|done|by rewrite E]).
Qed.

Lemma resume_moves t w v s : moves (freed_op (w_op w)) s (resume t w v s).
Proof.
  unfold Guard.resume. destruct (w_kont w) as [|r| | |x0|]; try (by apply moves_none).
  - apply moves_write; [done|]; intros s1 _ _. by apply moves_none.
  - destruct (w_op w) as [g|mem g|p f| |x0|x0|x0|x0 p f|x0|mem x0|mem]; try (by intros ? ? [=]).
    unfold LocalGuard_entered. destruct v as [| | |r]; try (by apply moves_none).
    apply moves_bind; intros k _. apply moves_write; [done|]; intros s1 _ _. by apply moves_none.
  - destruct (w_op w) as [g|mem g|p f| |x0|x0|x0|x0 p f|x0|mem x0|mem]; try (by intros ? ? [=]).
    destruct v as [| | |r]; try (by apply free_moves). by apply moves_none.
  - destruct (w_op w) as [g|mem g|p f| |x0|x0|x0|x0 p f|x0|mem [g|g]|mem]; try (by intros ? ? [=]). by apply free_moves.
Qed.

Lemma perform_moves P t o s h s' ev :
  moves P s h -> perform t o h = Some (s', ev) -> strategy (raw s') = strategy (raw s) /\ reg_moves P (registry s) (registry s').
Proof.
  intros Hm Hp. unfold Guard.perform in Hp. destruct h as [[s1 [r|ro k th]]|]; [| |done];
    destruct (Hm _ _ eq_refl) as [Es Hr].
  - by injection Hp as <- _.
  - apply bind_Some in Hp as ([rs ev1] & E & [= <- _]). split; [|done]. simpl.
    rewrite <-Es. by eapply (step_strategy plat n (LCall t ro) (raw s1)).
Qed.

(** ** The names of owned guards *)

Definition uses_name g s : Prop :=
  is_Some (owneds s !! g) \/ exists t w, w ∈ waiting s t /\ gop_guard (w_op w) = Some (OG g).

Lemma name_free_unused g s : name_free g s -> ~ uses_name g s.
Proof.
  intros [Hg Hb] [Hs|(t & w & Hw & E)]; [rewrite Hg in Hs; by destruct Hs|].
  by apply (may_borrow_exclusive s (OG g) (CEnterOwned true g) t w Hb).
Qed.

Lemma unused_name_free g s : ~ uses_name g s -> owneds s !! g = None /\ forall o, may_borrow s (OG g) o.
Proof.
  intros Hn. split; [destruct (owneds s !! g) eqn:E; [|done]; destruct Hn; left; by eexists|].
  intros o o' (t & w & Hw & <- & E). destruct Hn. right. by exists t, w.
Qed.

(** The operations on the registry that a step of a collector may do. *)
Definition moved_op (l : glabel) s (ro : reg_op) : Prop :=
  match ro with
  | RCurrent _ => True
  | RExit _ _ => False
  | ROwned g => (exists t mem, l = GOp t (CEnterOwned mem g)) /\ ThreadId.owned (registry s) !! g = None
  | ROwnedDrop _ g => uses_name g s
  end.

Lemma gstep_moves l s s' ev :
  own_label l = true -> glegal_label l s -> gstep l s = Some (s', ev) ->
  strategy (raw s') = strategy (raw s) /\ reg_moves (moved_op l s) (registry s) (registry s').
Proof.
  intros Ho [Hl _] Hst. destruct (raw_label l) as [rl|] eqn:Erl.
  - destruct (gstep_raw _ _ _ _ _ _ _ Erl Hst) as (rs & ev0 & E & Hr).
    assert (strategy rs = strategy (raw s)) as Es.
    { eapply (step_strategy plat n rl (raw s)); [|done]. by destruct l; simplify_eq/=. }
    destruct (returned ev0) as [[t v]|]; [|destruct Hr as [-> _]; split; [done|by left]].
    destruct Hr as (w & ws & ev' & Hw & _ & Ep).
    destruct (perform_moves _ _ _ _ _ _ _ (resume_moves t w v _) Ep) as [Es' Hm]. split; [by rewrite Es'|].
    eapply reg_moves_mono; [|exact Hm]. intros [t'|mem t'|g|mem g]; simpl; try done. intros Eg. right. exists t, w.
    split; [rewrite Hw; by left|done].
  - destruct l as [t o| | | | | |ro]; try done. simpl in Hst. destruct (at_client _); [|done].
    apply bind_Some in Hst as ([s1 ev1] & Ep & [= <- <-]).
    assert (forall mem g, o = CEnterOwned mem g -> ThreadId.owned (registry s) !! g = None) as Hnew by (intros mem g ->; apply Hl).
    destruct (perform_moves _ _ _ _ _ _ _ (handle_moves t o s Hnew) Ep) as [Es Hm]. split; [done|].
    eapply reg_moves_mono; [|exact Hm]. intros [t'|mem t'|g|mem g]; simpl; try done; [by intros ->|].
    intros [mem ->]. eauto 10.
Qed.

(** A step uses no new name but that of an owned guard that it creates. *)
Lemma gstep_names l s s' ev g :
  glegal_label l s -> gstep l s = Some (s', ev) -> uses_name g s' ->
  uses_name g s \/ exists t mem, l = GOp t (CEnterOwned mem g).
Proof.
  intros [Hl _] Hst Hu. destruct (raw_label l) as [rl|] eqn:Erl.
  - left. destruct (gstep_raw _ _ _ _ _ _ _ Erl Hst) as (rs & ev0 & E & Hr).
    destruct (returned ev0) as [[t v]|]; [|by destruct Hr as [-> _]].
    destruct Hr as (w & ws & ev' & Hw & _ & Ep).
    destruct (perform_waits _ _ _ _ _ _ _ _ _ (resume_frames plat n (OG g) t w v _) Ep) as (Hg & _ & Hws).
    assert (forall t' w', w' ∈ waiting (set_waits (<[t := ws]> (waits s)) (set_raw rs s)) t' -> w' ∈ waiting s t') as Hsub.
    { intros t' w'. rewrite (waiting_insert s (set_waits (<[t := ws]> (waits s)) (set_raw rs s)) t ws t' eq_refl).
      case_decide; [subst t'; rewrite Hw; by right|done]. }
    assert (gop_guard (w_op w) = Some (OG g) -> uses_name g s) as Hown by (intros Eg; right; exists t, w; rewrite Hw; split; [by left|done]).
    destruct Hu as [Hu|(t' & w' & Hw' & Eg)].
    + destruct Hg as [Hg|[Hg _]]; [|auto]. left. simpl in Hg. destruct (owneds s !! g); [by eexists|].
      by destruct (owneds s' !! g); [|destruct Hu].
    + destruct (Hws t' w' Hw') as [Hin|Eo]; [right; exists t', w'; split; [by apply Hsub|done]|]. apply Hown. by rewrite <-Eo.
  - destruct l as [t o| | | | | |ro]; try done; simpl in Hst; [|injection Hst as <- _; by left].
    destruct (at_client _); [|done]. apply bind_Some in Hst as ([s1 ev1] & Ep & [= <- _]).
    destruct (perform_waits _ _ _ _ _ _ _ _ _ (handle_frames plat n (OG g) t o s) Ep) as (Hg & _ & Hws).
    assert (gop_guard o = Some (OG g) -> uses_name g s \/ exists t' mem, GOp t o = GOp t' (CEnterOwned mem g)) as Hown.
    { intros Eg. destruct o; simplify_eq/=; first [right; by eauto|left; left; by destruct Hl as [? _]]. }
    destruct Hu as [Hu|(t' & w' & Hw' & Eg)].
    + destruct Hg as [Hg|[Hg _]]; [|auto]. left; left. simpl in Hg. destruct (owneds s !! g); [by eexists|].
      by destruct (owneds s1 !! g); [|destruct Hu].
    + destruct (Hws t' w' Hw') as [Hin|Eo]; [left; right; eauto|]. apply Hown. by rewrite <-Eo.
Qed.

(** For another collector that does not use its names, such a step is foreign. *)
Lemma moved_foreign l s ro s2 :
  moved_op l s ro -> registry s2 = registry s ->
  (forall g, uses_name g s -> ~ uses_name g s2) ->
  (forall t mem g, l = GOp t (CEnterOwned mem g) -> ~ uses_name g s2) -> foreign ro s2.
Proof.
  intros Hm Er Hdis Hnew. destruct ro as [t|mem t|g|mem g]; simpl in *; try done.
  - destruct Hm as [(t & mem & El) Ho]. destruct (unused_name_free g s2) as [Hg Hb]; [by eapply Hnew|].
    split; [done|]. split; [by rewrite Er|apply Hb].
  - destruct (unused_name_free g s2) as [Hg Hb]; [by apply Hdis|]. done.
Qed.

End Moves.

(** ** Traces *)

Lemma trace_of_app c tr1 tr2 : trace_of c (tr1 ++ tr2) = trace_of c tr1 ++ trace_of c tr2.
Proof. apply bind_app. Qed.

Lemma exits_app tr1 tr2 : exits (tr1 ++ tr2) = exits tr1 ++ exits tr2.
Proof. apply bind_app. Qed.

Lemma trace_of_in c c' (ev : list gevent) :
  trace_of c' (map (WIn c) ev) = if decide (c = c') then ev else [].
Proof.
  induction ev as [|e ev IH]; simpl; [by case_decide|]. unfold trace_of in *. simpl. rewrite IH. by case_decide.
Qed.

Lemma exits_in c (ev : list gevent) : exits (map (WIn c) ev) = [].
Proof. by induction ev. Qed.

Section WorldSafe.
Context {A : Type} `{Allocator A} `{!AllocatorLaws A} `{BoxVec A} `{!BoxVecLaws A} `{!MemLaws A}.
Context `{EntryLayout Reservation} `{EntryLayout LocalBatch}.
Variables (plat : Platform).

Abbreviation world := (world A).
Abbreviation member := (member A).
Abbreviation gstate := (guard_state A).
Abbreviation gsteps := (gsteps plat).
Implicit Types (w : world) (m : member) (c t g : nat) (s : gstate) (tr : list wevent).

(** A collector that some constructor made ran from there to [s]. *)
Definition runs_to (n : Z) (ev : list gevent) s : Prop :=
  exists strat cap (a0 a1 : A) r0, strategy_ok strat /\ in_usize cap /\ in_usize n /\
    collector_new strat cap a0 = Ret (a1, Ok r0) /\ gsteps n (gstate_new r0) ev s.

Record WI w tr : Prop := {
  wi_statics : process_ok (statics w);
  wi_members c m : member_at w c = Some m -> runs_to (m_batch m) (trace_of c tr) (view w m);
  wi_future n (r0 : raw_state A) : threads r0 = ∅ ->
    gsteps n (gstate_new r0) (exits tr) (set_registry (ids w) (gstate_new r0));
  wi_unseen c : members w !! c = None -> trace_of c tr = exits tr;
  wi_names c1 c2 m1 m2 g : c1 <> c2 -> member_at w c1 = Some m1 -> member_at w c2 = Some m2 ->
    uses_name g (m_state m1) -> ~ uses_name g (m_state m2)
}.

Lemma runs_to_GI n ev s : runs_to n ev s -> GI plat n None s.
Proof. intros (strat & cap & a0 & a1 & r0 & ? & ? & ? & ? & ?). apply GI_greachable. by exists strat, cap, a0, a1, r0, ev. Qed.

Lemma gsteps_snoc n s ev s' l s'' ev' :
  gsteps n s ev s' -> glegal_label l s' -> gstep plat n l s' = Some (s'', ev') -> gsteps n s (ev ++ ev') s''.
Proof. intros Hst Hl E. eapply gsteps_trans; [done|by eapply gsteps_one]. Qed.

Lemma runs_to_snoc n ev s l s' ev' :
  runs_to n ev s -> glegal_label l s -> gstep plat n l s = Some (s', ev') -> runs_to n (ev ++ ev') s'.
Proof.
  intros (strat & cap & a0 & a1 & r0 & ? & ? & ? & ? & Hst) Hl E. exists strat, cap, a0, a1, r0.
  do 4 (split; [done|]). by eapply gsteps_snoc.
Qed.

(** ** Views *)

Lemma view_own w m s c n i : strategy (raw s) = STRATEGY (statics w) ->
  view (mkWorld (statics w) (registry s) (<[c := Some m]> (members w))) (mkMember i n s) = s.
Proof. intros E. unfold view. simpl. rewrite <-E. destruct s as [r reg ls os ws]. by destruct r. Qed.

Lemma view_registry p reg reg' ms ms' m :
  view (mkWorld p reg' ms') m = set_registry reg' (view (mkWorld p reg ms) m).
Proof. done. Qed.

Lemma uses_name_view g w m : uses_name g (view w m) <-> uses_name g (m_state m).
Proof. done. Qed.

Lemma member_at_insert w c c' p reg (om : option member) :
  member_at (mkWorld p reg (<[c := om]> (members w))) c' = if decide (c = c') then om else member_at w c'.
Proof. unfold member_at. simpl. case_decide; [subst; by rewrite lookup_insert_eq|by rewrite lookup_insert_ne]. Qed.

(** ** Steps of another collector *)

Lemma foreign_moves n n' l s s2 ev reg' :
  runs_to n ev s2 -> Z.of_nat (size (locals s2)) < usize_max -> registry s2 = registry s ->
  reg_moves (moved_op l s) (registry s) reg' ->
  (forall g, uses_name g s -> ~ uses_name g s2) ->
  (forall t mem g, l = GOp t (CEnterOwned mem g) -> ~ uses_name g s2) ->
  n' = n -> runs_to n' ev (set_registry reg' s2).
Proof.
  intros Hr Hsz Er Hm Hdis Hnew ->. destruct Hm as [->|(ro & Hro & ->)].
  - rewrite <-Er. by destruct s2.
  - rewrite <-(app_nil_r ev), <-Er. apply (runs_to_snoc _ _ s2 (GOther ro)); [done| |done].
    split; [|done]. by apply (moved_foreign l s).
Qed.

Lemma future_moves n l s ev reg reg' (r0 : raw_state A) :
  gsteps n (gstate_new r0) ev (set_registry reg (gstate_new r0)) -> registry s = reg ->
  reg_moves (moved_op l s) (registry s) reg' ->
  gsteps n (gstate_new r0) ev (set_registry reg' (gstate_new r0)).
Proof.
  intros Hst Er Hm. assert (forall g, ~ uses_name g (set_registry reg (gstate_new r0))) as Hno.
  { intros g [[og Hog]|(t & w & Hw & _)]; [done|by apply elem_of_nil in Hw]. }
  destruct Hm as [->|(ro & Hro & ->)]; [by rewrite Er|].
  rewrite <-(app_nil_r ev), Er. apply (gsteps_snoc _ _ _ (set_registry reg (gstate_new r0)) (GOther ro)); [done| |done].
  split; [|simpl; rewrite map_size_empty; usize]. by apply (moved_foreign l s).
Qed.

Lemma WI_step w tr c l w' ev :
  WI w tr -> wlegal (WStep c l) w -> wstep plat (WStep c l) w = Some (w', ev) -> WI w' (tr ++ ev).
Proof.
  intros HI [Hfew Hl] E. simpl in E. destruct (own_label l) eqn:Hown; [|done].
  apply bind_Some in E as (m & Hm & ([s gev] & Est & [= <- <-])%bind_Some). destruct (Hl m Hm) as [Hleg Hnew].
  destruct (gstep_moves plat _ _ _ _ _ Hown Hleg Est) as [Estr Hmv].
  pose proof (wi_members _ _ HI c m Hm) as Hrun.
  assert (forall c' m', c' <> c -> member_at w c' = Some m' -> forall g, uses_name g s -> ~ uses_name g (m_state m')) as Hnames.
  { intros c' m' Hc' Hm' g Hg Hg'. destruct (gstep_names plat _ _ _ _ _ g Hleg Est Hg) as [Hu|(t & mem & El)].
    - by apply (wi_names _ _ HI c c' m m' g).
    - by apply (name_free_unused g (view w m')); [apply (Hnew t mem g El c')|]. }
  constructor; simpl.
  - apply HI.
  - intros c' m'. rewrite member_at_insert, trace_of_app, trace_of_in. case_decide as Hc.
    + intros [= <-]. subst c'. simpl. rewrite view_own by done. by eapply runs_to_snoc.
    + intros Hm'. rewrite app_nil_r, (view_registry _ (ids w) _ (members w)).
      eapply (foreign_moves (m_batch m') _ l (view w m)); try done.
      * by apply (wi_members _ _ HI).
      * by apply (Hfew c').
      * intros g. by apply (wi_names _ _ HI c c' m m').
      * intros t mem g El. apply name_free_unused. by apply (Hnew t mem g El c').
  - intros n r0 Hr0. rewrite exits_app, exits_in, app_nil_r. eapply (future_moves _ l (view w m)); [by apply (wi_future _ _ HI)|done|done].
  - intros c' Hc'. destruct (decide (c = c')) as [<-|Hne]; [by rewrite lookup_insert_eq in Hc'|].
    rewrite lookup_insert_ne in Hc' by done.
    rewrite trace_of_app, exits_app, trace_of_in, exits_in, decide_False by done. by rewrite (wi_unseen _ _ HI).
  - intros c1 c2 m1 m2 g Hne. rewrite !member_at_insert. repeat case_decide; subst; try done.
    + intros [= <-] Hm2. simpl. by apply (Hnames c2).
    + intros Hm1 [= <-] Hu1 Hu2. by apply (Hnames c1 m1 ltac:(done) Hm1 g).
    + by apply (wi_names _ _ HI).
Qed.

(** The end of a thread, for a collector that it does not use any more. *)
Lemma exit_step n s t mem o reg :
  at_client (stack (raw s) t) = true -> ThreadGuard_drop mem t (registry s) = (o, reg) ->
  gstep plat n (GOp t (TExit mem)) s = Some (set_registry reg s,
    [GCall t (TExit mem); GDone t (match o with Ret _ => GRet RUnit | Panic => GPanic end)]).
Proof. intros Hc E. simpl. rewrite Hc. unfold thread_exit. rewrite E. by destruct o. Qed.

Lemma no_calls_client n X s t : GI plat n X s -> waiting s t = [] -> at_client (stack (raw s) t) = true.
Proof. intros HI Hw. pose proof (gi_stacks _ _ _ _ HI t) as Hsec. rewrite Hw in Hsec. by inversion Hsec. Qed.

Lemma WI_exit w tr mem t w' ev :
  WI w tr -> wlegal (WExit mem t) w -> wstep plat (WExit mem t) w = Some (w', ev) -> WI w' (tr ++ ev).
Proof.
  intros HI [Hfew Hl] E. simpl in E. destruct (ThreadGuard_drop mem t (ids w)) as [o reg] eqn:Ed. injection E as <- <-.
  set (r := match o with Ret _ => GRet RUnit | Panic => GPanic end).
  assert (forall c, trace_of c [WEnd t mem r] = [GCall t (TExit mem); GDone t r]) as Etr by done.
  constructor; simpl.
  - apply HI.
  - intros c m Hm. change (member_at w c = Some m) in Hm. pose proof (wi_members _ _ HI c m Hm) as Hrun.
    rewrite trace_of_app, Etr, (view_registry _ (ids w) _ (members w)). apply (runs_to_snoc _ _ (view w m) (GOp t (TExit mem))).
    + done.
    + split; [by apply (Hl c)|by apply (Hfew c)].
    + apply exit_step; [|done]. apply (no_calls_client (m_batch m) None); [by eapply runs_to_GI|]. by apply (Hl c m Hm).
  - intros n r0 Hr0. rewrite exits_app.
    apply (gsteps_snoc _ _ _ (set_registry (ids w) (gstate_new r0)) (GOp t (TExit mem))); [by apply (wi_future _ _ HI)| |].
    + split; [|simpl; rewrite map_size_empty; usize]. split; [done|by intros g lg].
    + apply (exit_step n (set_registry (ids w) (gstate_new r0))); [|done]. simpl. unfold stack. by rewrite Hr0, lookup_empty.
  - intros c Hc. rewrite trace_of_app, exits_app. by rewrite (wi_unseen _ _ HI).
  - apply (wi_names _ _ HI).
Qed.

(** A collector is dropped. *)
Lemma trace_of_raw c c' (ev : list event) :
  trace_of c' (map (fun e => WIn c (GRaw e)) ev) = if decide (c = c') then map GRaw ev else [].
Proof. by rewrite <-(map_map GRaw (WIn c)), trace_of_in. Qed.

Lemma exits_raw c (ev : list event) : exits (map (fun e => WIn c (GRaw e)) ev) = [].
Proof. by rewrite <-(map_map GRaw (WIn c)), exits_in. Qed.

Lemma WI_drop w tr c t fuel w' ev :
  WI w tr -> wstep plat (WDrop c t fuel) w = Some (w', ev) -> WI w' (tr ++ ev).
Proof.
  intros HI E. simpl in E. apply bind_Some in E as (m & Hm & ([o dev] & _ & E)%bind_Some). destruct o as [a'|]; [|done].
  injection E as <- <-. constructor; simpl.
  - apply HI.
  - intros c' m'. rewrite member_at_insert. case_decide as Hc; [done|]. intros Hm'.
    rewrite trace_of_app, trace_of_raw, decide_False, app_nil_r by done. by apply (wi_members _ _ HI).
  - intros n r0 Hr0. rewrite exits_app, exits_raw, app_nil_r. by apply (wi_future _ _ HI).
  - intros c' Hc'. destruct (decide (c = c')) as [<-|Hne]; [by rewrite lookup_insert_eq in Hc'|].
    rewrite lookup_insert_ne in Hc' by done. rewrite trace_of_app, exits_app, trace_of_raw, exits_raw, decide_False by done.
    by rewrite (wi_unseen _ _ HI).
  - intros c1 c2 m1 m2 g Hne. rewrite !member_at_insert. repeat case_decide; try done. by apply (wi_names _ _ HI).
Qed.

(** ** Constructors *)

Lemma collector_new_strategy strat cap (a0 a1 : A) r0 : collector_new strat cap a0 = Ret (a1, Ok r0) -> strategy r0 = strat.
Proof.
  unfold collector_new. destruct (with_capacity_in cap a0) as [[a2 [res|]]|]; simpl; [|done..].
  destruct (with_capacity_in cap a2) as [[a3 [bat|]]|]; simpl; [by intros [= _ <-]| |done]. by destruct (tls_drop _ _).
Qed.

Lemma default_batch_usize p par :
  process_ok p -> (forall k, par = Some k -> 1 <= k) -> default (default 1 par) (CPUS p) <= 2 ^ 63 ->
  in_usize (next_power_of_two (default (default 1 par) (CPUS p) `max` DEFAULT_BATCH_SIZE)).
Proof.
  intros (_ & Hcpu & _) Hpar Hmax. unfold DEFAULT_BATCH_SIZE.
  destruct (next_power_of_two_spec (default (default 1 par) (CPUS p) `max` 32)) as (k & _ & -> & _ & Hu); [lia|done].
Qed.

Lemma new_statics sys x86 par p (a : A) :
  process_ok p -> (forall k, par = Some k -> 1 <= k) -> process_ok (new_erased plat sys x86 par p a).1 /\
  STRATEGY (new_erased plat sys x86 par p a).1 = detect plat sys x86 (STRATEGY p).
Proof.
  intros (Hs & Hcpu & Hid) Hpar. split; [|done]. split; [by apply detect_ok|]. split; [|apply wrap_range].
  simpl. intros k [= <-]. destruct (CPUS p) as [k|]; simpl; [by apply Hcpu|]. destruct par; simpl; [by apply Hpar|lia].
Qed.

(** The others see the strategy detected again. *)
Lemma WI_detect w tr sys x86 p :
  WI w tr -> few w -> process_ok p -> STRATEGY p = detect plat sys x86 (STRATEGY (statics w)) ->
  WI (mkWorld p (ids w) (members w)) tr.
Proof.
  intros HI Hfew Hp Es. constructor; simpl; [done| |apply HI|apply HI|apply HI].
  intros c m Hm. change (member_at w c = Some m) in Hm. rewrite <-(app_nil_r (trace_of c tr)).
  apply (runs_to_snoc _ _ (view w m) (GDetect sys x86)); [by apply (wi_members _ _ HI)|split; [done|by apply (Hfew c)]|].
  simpl. unfold view. simpl. by rewrite Es.
Qed.

Lemma WI_insert w tr c i n strat cap (a0 a1 : A) r0 :
  WI w tr -> members w !! c = None -> strategy_ok strat -> in_usize cap -> in_usize n ->
  collector_new strat cap a0 = Ret (a1, Ok r0) -> STRATEGY (statics w) = strat ->
  WI (mkWorld (statics w) (ids w) (<[c := Some (mkMember i n (gstate_new r0))]> (members w))) tr.
Proof.
  intros HI Hc Hs Hcap Hn E Es.
  assert (forall g, ~ uses_name g (gstate_new r0)) as Hno by (intros g [[og Hog]|(t & w0 & Hw & _)]; [done|by apply elem_of_nil in Hw]).
  constructor; simpl; [apply HI| |apply HI| |].
  - intros c' m'. rewrite member_at_insert. case_decide as Hd; [|by apply (wi_members _ _ HI)].
    intros [= <-]. subst c'. exists strat, cap, a0, a1, r0. do 4 (split; [done|]).
    rewrite (wi_unseen _ _ HI c Hc). simpl.
    replace (view _ _) with (set_registry (ids w) (gstate_new r0)); [apply (wi_future _ _ HI); by eapply collector_new_threads|].
    unfold view. simpl. rewrite Es. rewrite <-(collector_new_strategy _ _ _ _ _ E). by destruct r0.
  - intros c' Hc'. destruct (decide (c = c')) as [<-|Hne]; [by rewrite lookup_insert_eq in Hc'|].
    rewrite lookup_insert_ne in Hc' by done. by apply (wi_unseen _ _ HI).
  - intros c1 c2 m1 m2 g Hne. rewrite !member_at_insert. repeat case_decide; subst; try done.
    + by intros [= <-] _ ?%Hno.
    + intros _ [= <-] _. apply Hno.
    + by apply (wi_names _ _ HI).
Qed.

Lemma WI_new w tr c sys x86 par n a w' ev :
  WI w tr -> wlegal (WNew c sys x86 par n a) w -> wstep plat (WNew c sys x86 par n a) w = Some (w', ev) -> WI w' (tr ++ ev).
Proof.
  intros HI (Hfew & Hpar & Hmax & Hn) E. unfold wstep in E. destruct (members w !! c) eqn:Hc; [done|].
  destruct (new_statics sys x86 par (statics w) a (wi_statics _ _ HI) Hpar) as [Hp Es].
  destruct (new_erased plat sys x86 par (statics w) a) as [p r] eqn:Enew. simpl in Hp, Es.
  pose proof (WI_detect w tr sys x86 p HI Hfew Hp Es) as HI'.
  destruct r as [[a' [col|e]]|]; [|injection E as <- <-; by rewrite app_nil_r..].
  destruct (new_erased_inv _ _ _ _ _ _ _ _ _ Enew) as (r0 & E0 & ->).
  injection E as <- <-. rewrite app_nil_r.
  replace (c_state _) with r0 by (by destruct n).
  apply (WI_insert (mkWorld p (ids w) (members w)) tr c _ _ _ (default (default 1 par) (CPUS (statics w))) a a' r0
    HI' Hc (detect_ok plat sys x86 _ (proj1 (wi_statics _ _ HI)))); try done.
  - apply cpus_usize; [apply HI|done|done].
  - destruct n as [k|]; simpl; [by apply Hn|]. apply default_batch_usize; [apply HI|done|done].
Qed.

(** ** Runs *)

Lemma WI_init : WI world_init [].
Proof.
  constructor; try done.
  - split; [by right; right|]. split; [done|]. simpl. usize.
  - intros n r0 _. constructor.
Qed.

Lemma WI_wsteps w tr ev w' : WI w tr -> wsteps plat w ev w' -> WI w' (tr ++ ev).
Proof.
  intros HI Hst. revert tr HI. induction Hst as [w|w1 l w2 ev1 ev2 w3 Hl Hs Hst IH]; intros tr HI; [by rewrite app_nil_r|].
  rewrite (assoc_L (++)). apply IH. destruct l as [c sys x86 par n a|c l|mem t|c t fuel].
  - by eapply WI_new.
  - by eapply WI_step.
  - by eapply WI_exit.
  - by eapply WI_drop.
Qed.

(** C3. A process is as many collectors on their own. Whatever collectors a
    process creates, uses and drops, with one registry of thread IDs and one
    strategy for all of them, the run of each, with what it sees of the ends of
    threads, is a run of a single new collector under clients that keep to the
    rules: all theorems about those apply to it. Its state, with the registry
    and the strategy of the process, is the one that this run reaches. *)
Theorem world_refines tr w c m :
  wsteps plat world_init tr w -> member_at w c = Some m ->
  exists strat cap (a0 a1 : A) r0, strategy_ok strat /\ in_usize cap /\ in_usize (m_batch m) /\
    collector_new strat cap a0 = Ret (a1, Ok r0) /\
    gsteps (m_batch m) (gstate_new r0) (trace_of c tr) (view w m).
Proof. intros Hst Hm. by apply (wi_members _ _ (WI_wsteps _ [] _ _ WI_init Hst)). Qed.


End WorldSafe.
