(* ===== verification/Reclaim.v ===== *)
(** * Ready-made reclaimers ([src/src/reclaim.rs])

    The memory of clients, and what [boxed] and [in_place] do to it. Memory has
    blocks; a block holds a value unless the value was dropped in place. An
    operation on memory that has no value or no block to work on is undefined
    behaviour, [None]. *)

From stdpp Require Import prelude list gmap.
From S2P Require Import Prelude.

Open Scope Z_scope.

(** A value of the client's type: plain data, and the pointers it owns as
    [AtomicPtr] fields, by address, null being 0. *)
Record node := mkNode { node_value : Z; node_links : list Z }.

(** A block, by [Box::new] or part of some other allocation. *)
Record block := mkBlock { in_box : bool; contents : option node }.

Abbreviation memory := (gmap Z block).

#[export] Instance node_eq_dec : EqDecision node.
Proof. solve_decision. Defined.

#[export] Instance block_eq_dec : EqDecision block.
Proof. solve_decision. Defined.

(** The value at [p], if it is initialised. *)
Definition deref (p : Z) (m : memory) : option node := m !! p ≫= contents.

Definition store_node (p : Z) (nd : node) (m : memory) : memory :=
  alter (fun b => mkBlock (in_box b) (Some nd)) p m.

(** ** Standard library *)

(** [Box::into_raw(Box::new(nd))] at a fresh address, or [ptr::write] to memory
    without a value. *)
Definition box_new (p : Z) (nd : node) (m : memory) : option memory :=
  match m !! p with None => Some (<[p := mkBlock true (Some nd)]> m) | Some _ => None end.

Definition ptr_write (p : Z) (nd : node) (m : memory) : option memory :=
  match m !! p with
  | Some (mkBlock box None) => Some (<[p := mkBlock box (Some nd)]> m)
  | _ => None
  end.

(** A block of other memory, without a value. *)
Definition arena_new (p : Z) (m : memory) : option memory :=
  match m !! p with None => Some (<[p := mkBlock false None]> m) | Some _ => None end.

(** [ptr::drop_in_place] *)
Definition drop_in_place (p : Z) (m : memory) : option memory :=
  match m !! p with
  | Some (mkBlock box (Some _)) => Some (<[p := mkBlock box None]> m)
  | _ => None
  end.

(** [drop(Box::from_raw(p))]: the value, then its memory *)
Definition box_drop (p : Z) (m : memory) : option memory :=
  match m !! p with
  | Some (mkBlock true (Some _)) => Some (delete p m)
  | _ => None
  end.

(** ** The reclaimers *)

Definition boxed (ptr : Z) (m : memory) : option memory := box_drop ptr m.

Definition in_place (ptr : Z) (m : memory) : option memory := drop_in_place ptr m.

(** Reclaimers are function pointers; these are the two of the crate. Others are
    code of the client. *)
Definition BOXED : Z := 0.
Definition IN_PLACE : Z := 1.

Definition ready_made (f : Z) : bool := bool_decide (f = BOXED) || bool_decide (f = IN_PLACE).

Definition reclaim_with (f p : Z) (m : memory) : option memory :=
  if decide (f = BOXED) then boxed p m
  else if decide (f = IN_PLACE) then in_place p m
  else Some m.

(** Object [p] may be retired with reclaimer [f]: [Box::from_raw] is for boxes. *)
Definition fits (f p : Z) (m : memory) : Prop :=
  f = BOXED -> exists c, m !! p = Some (mkBlock true c).

(** ** What they do *)

Lemma deref_store p nd m q : is_Some (deref p m) ->
  deref q (store_node p nd m) = if decide (q = p) then Some nd else deref q m.
Proof.
  unfold deref, store_node. intros [nd0 (b & Hb & _)%bind_Some]. case_decide as Hq.
  - subst q. by rewrite lookup_alter_eq, Hb.
  - by rewrite lookup_alter_ne.
Qed.

Lemma deref_insert p b m q : deref q (<[p := b]> m) = if decide (q = p) then contents b else deref q m.
Proof. unfold deref. case_decide; [subst; by rewrite lookup_insert_eq|by rewrite lookup_insert_ne]. Qed.

Lemma deref_delete p m q : deref q (delete p m) = if decide (q = p) then None else deref q m.
Proof. unfold deref. case_decide; [subst; by rewrite lookup_delete_eq|by rewrite lookup_delete_ne]. Qed.

Lemma drop_in_place_inv p m m' : drop_in_place p m = Some m' ->
  is_Some (deref p m) /\ forall q, deref q m' = if decide (q = p) then None else deref q m.
Proof.
  unfold drop_in_place. destruct (m !! p) as [[box [nd|]]|] eqn:E; try done. intros [= <-].
  split; [unfold deref; by rewrite E; eexists|]. intros q. by rewrite deref_insert.
Qed.

Lemma box_drop_inv p m m' : box_drop p m = Some m' ->
  is_Some (deref p m) /\ forall q, deref q m' = if decide (q = p) then None else deref q m.
Proof.
  unfold box_drop. destruct (m !! p) as [[[] [nd|]]|] eqn:E; try done. intros [= <-].
  split; [unfold deref; by rewrite E; eexists|]. intros q. by rewrite deref_delete.
Qed.

Lemma reclaim_with_inv f p m m' : ready_made f = true -> reclaim_with f p m = Some m' ->
  forall q, deref q m' = if decide (q = p) then None else deref q m.
Proof.
  unfold reclaim_with. intros Hf. case_decide; [by intros [_ ?]%box_drop_inv|].
  case_decide; [by intros [_ ?]%drop_in_place_inv|]. exfalso. unfold ready_made in Hf.
  by rewrite !bool_decide_eq_false_2 in Hf.
Qed.

Lemma reclaim_with_defined f p m nd : deref p m = Some nd -> fits f p m -> is_Some (reclaim_with f p m).
Proof.
  intros (b & Hb & Hc)%bind_Some Hf. unfold reclaim_with, boxed, in_place, box_drop, drop_in_place.
  destruct b as [box c]. simpl in Hc. subst c. rewrite Hb. case_decide; [|case_decide; by eexists].
  destruct (Hf ltac:(done)) as [c Hc]. rewrite Hb in Hc. injection Hc as -> _. by eexists.
Qed.

(** Blocks keep their kind. *)
Lemma reclaim_with_fits f p m m' f' q : reclaim_with f p m = Some m' -> q <> p -> fits f' q m -> fits f' q m'.
Proof.
  unfold reclaim_with, boxed, in_place, box_drop, drop_in_place, fits. intros E Hq Hf Hb.
  destruct (Hf Hb) as [c Hc]. exists c.
  destruct (m !! p) as [[[] [nd|]]|]; repeat case_decide; simplify_eq; rewrite ?lookup_insert_ne, ?lookup_delete_ne by done; done.
Qed.

(** The reclaimers of the crate. [boxed] is defined exactly on a box that
    holds a value, and takes the value and its memory away; [in_place] is
    defined exactly where there is a value, of which it leaves the memory, as
    it was allocated; neither touches anything else. So no reclaimer can run
    twice on an object, in any combination, unless its memory is written again
    in between; and what [box_new] and [ptr_write] made, they undo. *)
Theorem reclaimers_once p m :
  (is_Some (boxed p m) <-> exists nd, m !! p = Some (mkBlock true (Some nd))) /\
  (is_Some (in_place p m) <-> is_Some (deref p m)) /\
  (forall m', boxed p m = Some m' -> m' = delete p m /\ boxed p m' = None /\ in_place p m' = None) /\
  (forall m', in_place p m = Some m' ->
     (m' !! p = (fun b => mkBlock (in_box b) None) <$> m !! p) /\ delete p m' = delete p m /\
     boxed p m' = None /\ in_place p m' = None) /\
  (forall nd m', box_new p nd m = Some m' -> boxed p m' = Some m) /\
  (forall nd m', ptr_write p nd m = Some m' -> in_place p m' = Some m).
Proof.
  unfold boxed, in_place, box_drop, drop_in_place, box_new, ptr_write, deref.
  split; [|split; [|split; [|split; [|split]]]].
  - destruct (m !! p) as [[[] [nd|]]|]; split; try (by intros [? [=]]); try (by eexists);
      (intros (nd' & [=]); subst; by eexists).
  - destruct (m !! p) as [[box [nd|]]|]; simpl; split; try (by intros [? [=]]); by eexists.
  - destruct (m !! p) as [[[] [nd|]]|]; intros m' [= <-]. by rewrite lookup_delete_eq.
  - destruct (m !! p) as [[box [nd|]]|] eqn:E; intros m' [= <-]. rewrite lookup_insert_eq. simpl.
    split; [done|]. split; [by rewrite delete_insert_eq|]. by destruct box.
  - intros nd m'. destruct (m !! p) as [b|] eqn:E; [done|]. intros [= <-]. rewrite lookup_insert_eq.
    by rewrite delete_insert_id.
  - intros nd m'. destruct (m !! p) as [[box [nd0|]]|] eqn:E; try done. intros [= <-].
    rewrite lookup_insert_eq. f_equal. rewrite insert_insert_eq. by apply insert_id.
Qed.
