(* ===== verification/Client.v ===== *)
(** * Clients with memory

    Data structures on top of guards: shared atomic pointers, objects in memory
    that hold further pointers, accesses through guards, and retirement with the
    reclaimers of the crate, which run on that memory. The history of a run
    notes what the documentation of the crate and the guide speak of: which
    objects are shared, unlinked, retired, and which pointers were loaded
    through which guard; the rules of clients are stated with it. *)

From stdpp Require Import prelude list gmap.
From S2P Require Import Prelude Alloc ThreadId Membarrier Tls RawData RawStep Guard GuardExec GuardInv GuardSafe GuardRetire GuardSpec Collector Reclaim.

Open Scope Z_scope.

(** ** Accesses *)

(** An atomic pointer: a variable of the data structure, or a field of an
    object. *)
Inductive place := Root (n : nat) | Field (p : Z) (i : nat).

(** What a client asks for, through a guard or directly. *)
Inductive request :=
| QLoad (order : Ordering)
| QSwap (value : Z) (order : Ordering)
| QExchange (weak : bool) (current new : Z) (success failure : Ordering).

(** The methods of [Guard], or those of [AtomicPtr]. *)
Definition issue (guarded : bool) (q : request) : access :=
  match q, guarded with
  | QLoad o, true => protect o
  | QLoad o, false => ALoad o
  | QSwap v o, true => swap v o
  | QSwap v o, false => ASwap v o
  | QExchange false c n o1 o2, true => compare_exchange c n o1 o2
  | QExchange true c n o1 o2, true => compare_exchange_weak c n o1 o2
  | QExchange w c n o1 o2, false => ACompareExchange w c n o1 o2
  end.

(** ** Operations on memory *)

Inductive kop :=
| KNew (p v : Z) (ls : list Z)          (* Box::new, at address p *)
| KArena (p : Z)                        (* a block of other memory *)
| KInit (p v : Z) (ls : list Z)         (* ptr::write to memory without a value *)
| KAccess (x : option gref) (spurious : bool) (pl : place) (q : request)
| KValue (x : option gref) (p : Z)      (* read the data of an object *)
| KFree (f p : Z)                       (* drop an object that the caller owns, as reclaimer f does *)
| KPublish (p : Z)                      (* a step of the history only: p is shared from here on *)
| KUnlink (p : Z).                      (* and from here on it is unlinked *)

(** ** History *)

(** Where an unlinked object is: in the hands of the client, given to the call
    of thread [t] at depth [n], or retired. *)
Inductive whereabouts := Unlinked | Offered (t n : nat) | Retired.

(** [Gone X w]: the guards of [X] were alive when the object was unlinked, and
    still are. [Dropping t n]: the reclaimer at depth [n] of thread [t] runs. *)
Inductive status :=
| Private
| Shared
| Gone (X : gset gref) (w : whereabouts)
| Dropping (t n : nat).

#[export] Instance whereabouts_eq_dec : EqDecision whereabouts.
Proof. solve_decision. Defined.
#[export] Instance status_eq_dec : EqDecision status.
Proof. solve_decision. Defined.

Record history := mkHistory {
  h_calls : gmap nat (list gop);        (* the calls in progress *)
  h_drops : gmap nat (list (Z * Z));    (* the reclaimers that run *)
  h_live : gset gref;                   (* the guards alive *)
  h_status : gmap Z status;             (* of the objects that hold a value *)
  h_seen : gmap gref (gset Z)           (* the pointers loaded through a guard *)
}.

Definition history_init : history := mkHistory ∅ ∅ ∅ ∅ ∅.

Definition calls_in (h : history) (t : nat) : list gop := default [] (h_calls h !! t).
Definition drops_in (h : history) (t : nat) : list (Z * Z) := default [] (h_drops h !! t).
Definition seen_by (h : history) (x : gref) : gset Z := default ∅ (h_seen h !! x).

Definition set_status (f : gmap Z status -> gmap Z status) (h : history) : history :=
  mkHistory (h_calls h) (h_drops h) (h_live h) (f (h_status h)) (h_seen h).

(** Guards [G] end or are renewed. *)
Definition release (G : gset gref) (st : status) : status :=
  match st with Gone X w => Gone (X ∖ G) w | _ => st end.

Definition move (w : whereabouts) (st : status) : status :=
  match st with Gone X _ => Gone X w | _ => st end.

Definition h_call (t : nat) (o : gop) (h : history) : history :=
  let st := release (released o) <$> h_status h in
  mkHistory (<[t := o :: calls_in h t]> (h_calls h)) (h_drops h) (h_live h ∖ released o)
    (match retires o with
     | Some (p, _) => alter (move (Offered t (length (calls_in h t)))) p st
     | None => st
     end)
    (filter (fun '(x, _) => x ∉ released o) (h_seen h)).

Definition h_done (t : nat) (r : gret) (h : history) : history :=
  match calls_in h t with
  | [] => h
  | o :: os =>
      mkHistory (<[t := os]> (h_calls h)) (h_drops h) (h_live h ∪ gained o r)
        (match retires o with
         | Some (p, _) => if decide (r = GRet ROk) then h_status h else alter (move Unlinked) p (h_status h)
         | None => h_status h
         end) (h_seen h)
  end.

(** A reclaimer of the crate has the object until it returns; other reclaimers
    get it to themselves. *)
Definition h_reclaim (t : nat) (p f : Z) (h : history) : history :=
  mkHistory (h_calls h) (<[t := (p, f) :: drops_in h t]> (h_drops h)) (h_live h)
    (<[p := if ready_made f then Dropping t (length (drops_in h t)) else Private]> (h_status h)) (h_seen h).

Definition h_event (e : gevent) (h : history) : history :=
  match e with
  | GCall t o => h_call t o h
  | GDone t r => h_done t r h
  | GRaw (EvRetire _ p _) => set_status (alter (move Retired) p) h
  | GRaw (EvReclaim t p f) => h_reclaim t p f h
  | GRaw _ => h
  end.

(** The reclaimer on top of thread [t] returned. *)
Definition h_return (t : nat) (h : history) : history :=
  match drops_in h t with
  | [] => h
  | (p, f) :: ds =>
      mkHistory (h_calls h) (<[t := ds]> (h_drops h)) (h_live h)
        (if ready_made f then delete p (h_status h) else h_status h) (h_seen h)
  end.

(** The fields of the object are in order for sharing. *)
Definition good_links (h : history) (p : Z) (nd : node) : Prop :=
  Forall (fun v => v = 0 \/ v = p \/ h_status h !! v = Some Shared) (node_links nd).

Definition share (v : Z) (h : history) : history :=
  set_status (alter (fun st => match st with Private => Shared | _ => st end) v) h.

Definition see (x : gref) (v : Z) (h : history) : history :=
  mkHistory (h_calls h) (h_drops h) (h_live h) (h_status h) (<[x := {[v]} ∪ seen_by h x]> (h_seen h)).

(** The object belongs to one thread. *)
Definition owned_by_one (h : history) (p : Z) : Prop :=
  match h_status h !! p with Some Private | Some (Dropping _ _) => True | _ => False end.

Definition exclusive_place (h : history) (pl : place) : Prop :=
  match pl with Root _ => False | Field p _ => owned_by_one h p end.

#[export] Instance owned_by_one_dec h p : Decision (owned_by_one h p).
Proof. unfold owned_by_one. destruct (h_status h !! p) as [[]|]; apply _. Defined.
#[export] Instance exclusive_place_dec h pl : Decision (exclusive_place h pl).
Proof. destruct pl; apply _. Defined.

(** The pointer that an access returned. *)
Definition loaded (r : Z + Z) : Z := match r with inl v | inr v => v end.

(** ** State *)

(** [c_memory] is [None] after undefined behaviour. *)
Record client (A : Type) := mkClient {
  c_sys : guard_state A;
  c_roots : gmap nat Z;
  c_memory : option memory;
  c_history : history
}.
Arguments mkClient {A} _ _ _ _.
Arguments c_sys {A} _.
Arguments c_roots {A} _.
Arguments c_memory {A} _.
Arguments c_history {A} _.

Inductive clabel :=
| KSys (l : glabel)                     (* a step of the library or of a call of it *)
| KDo (t : nat) (o : kop).              (* an operation on memory by client code *)

Inductive cevent :=
| CSys (e : gevent)
| CAccess (t : nat) (x : option gref) (pl : place) (r : outcome (Z + Z))
| CValue (t : nat) (p v : Z)
| CDrop (t : nat) (f p : Z).            (* the value at p is dropped by f *)

Section Client.
Context {A : Type} `{Allocator A} `{BoxVec A}.
Context `{EntryLayout Reservation} `{EntryLayout LocalBatch}.
Variables (plat : Platform) (batch_size : Z).

Abbreviation cstate := (client A).
Abbreviation stepped := (option (cstate * list cevent)).
Implicit Types (c : cstate) (t : nat) (x : gref) (h : history).

Definition root (c : cstate) (n : nat) : Z := default 0 (c_roots c !! n).

(** Undefined behaviour. *)
Definition undefined (c : cstate) : cstate := mkClient (c_sys c) (c_roots c) None (c_history c).

Definition with_memory (c : cstate) (m : option memory) (f : history -> history) : cstate :=
  mkClient (c_sys c) (c_roots c) m (f (c_history c)).

(** The atomic pointer at [pl] now holds [v]; objects that become reachable by
    it are shared. *)
Definition write_place (pl : place) (v : Z) (m : memory) (c : cstate) : cstate :=
  let h := if decide (exclusive_place (c_history c) pl) then c_history c else share v (c_history c) in
  match pl with
  | Root n => mkClient (c_sys c) (<[n := v]> (c_roots c)) (Some m) h
  | Field p i =>
      mkClient (c_sys c) (c_roots c)
        (Some (match deref p m with
               | Some nd => store_node p (mkNode (node_value nd) (<[i := v]> (node_links nd))) m
               | None => m
               end)) h
  end.

(** The pointer at [pl]; [Panic] stands for undefined behaviour here, [None] for
    a field that the type of the object does not have. *)
Definition read_place (pl : place) (m : memory) (c : cstate) : option (outcome Z) :=
  match pl with
  | Root n => Some (Ret (root c n))
  | Field p i => match deref p m with
      | Some nd => v ← node_links nd !! i; Some (Ret v)
      | None => Some Panic
      end
  end.

Definition access_place t (x : option gref) (spurious : bool) (pl : place) (q : request) (m : memory) c : stepped :=
  rd ← read_place pl m c;
  match rd with
  | Panic => Some (undefined c, [])
  | Ret v =>
      match atomic_run spurious (issue (bool_decide (is_Some x)) q) v with
      | Panic => Some (c, [CAccess t x pl Panic])
      | Ret (v', r) =>
          let c' := write_place pl v' m c in
          let seen := match x with
            | Some x => if decide (exclusive_place (c_history c) pl \/ loaded r = 0) then c' else with_memory c' (c_memory c') (see x (loaded r))
            | None => c'
            end in
          Some (seen, [CAccess t x pl (Ret r)])
      end
  end.

(** An operation of client code on memory. *)
Definition do_op t (o : kop) c : stepped :=
  m ← c_memory c;
  match o with
  | KNew p v ls => m ← box_new p (mkNode v ls) m; Some (with_memory c (Some m) (set_status (<[p := Private]>)), [])
  | KArena p => m ← arena_new p m; Some (with_memory c (Some m) (fun h => h), [])
  | KInit p v ls => m ← ptr_write p (mkNode v ls) m; Some (with_memory c (Some m) (set_status (<[p := Private]>)), [])
  | KAccess x spurious pl q => access_place t x spurious pl q m c
  | KValue x p => match deref p m with
      | Some nd => Some (c, [CValue t p (node_value nd)])
      | None => Some (undefined c, [])
      end
  | KFree f p => Some (with_memory c (reclaim_with f p m) (set_status (delete p)), [CDrop t f p])
  | KPublish p => Some (with_memory c (Some m) (share p), [])
  | KUnlink p => Some (with_memory c (Some m) (fun h => set_status (<[p := Gone (h_live h) Unlinked]>) h), [])
  end.

(** A step of the library. When a reclaimer of the crate returns, its body has
    run: the value is dropped. *)
Definition lib_step (l : glabel) c : stepped :=
  '(s, ev) ← gstep plat batch_size l (c_sys c);
  let h := foldl (fun h e => h_event e h) (c_history c) ev in
  match l, match l with GReturn t => stack (raw (c_sys c)) t | _ => [] end with
  | GReturn t, FReclaim p f :: _ =>
      m ← c_memory c;
      Some (mkClient s (c_roots c) (if ready_made f then reclaim_with f p m else Some m) (h_return t h),
        map CSys ev ++ (if ready_made f then [CDrop t f p] else []))
  | _, _ => Some (mkClient s (c_roots c) (c_memory c) h, map CSys ev)
  end.

Definition cstep (l : clabel) c : stepped :=
  match l with
  | KSys l => lib_step l c
  | KDo t o => if at_client (stack (raw (c_sys c)) t) then do_op t o c else None
  end.

(** ** The rules of clients *)

(** Thread [t] can use guard [x] for an access: it is alive, and if it is a
    local guard, on its thread. *)
Definition usable t c x : Prop := x ∈ h_live (c_history c) /\ can_name t (c_sys c) x.

(** The client may follow pointer [p]: it was loaded through the guard that it
    uses, which is alive since then, or the object is its own. *)
Definition may_follow t c (x : option gref) (p : Z) : Prop :=
  owned_by_one (c_history c) p \/
  match x with Some x => usable t c x /\ p ∈ seen_by (c_history c) x | None => False end.

(** Pointer [v] may be stored where others can load it. *)
Definition storable (v : Z) (m : memory) h : Prop :=
  v = 0 \/ match h_status h !! v, deref v m with
           | Some Shared, _ => True
           | Some Private, Some nd => good_links h v nd
           | _, _ => False
           end.

Definition may_access t c (x : option gref) (spurious : bool) (pl : place) (q : request) (m : memory) : Prop :=
  match x with Some x => usable t c x | None => True end /\
  match pl with Root _ => True | Field p _ => may_follow t c x p end /\
  (~ exclusive_place (c_history c) pl ->
   match read_place pl m c with
   | Some (Ret v) => match atomic_run spurious (issue (bool_decide (is_Some x)) q) v with
       | Ret (v', _) => v' = v \/ storable v' m (c_history c)
       | Panic => True
       end
   | _ => True
   end).

(** Object [p] is in no atomic pointer of the data structure. *)
Definition unreachable (p : Z) (m : memory) c : Prop :=
  map_Forall (fun _ v => v <> p) (c_roots c) /\
  map_Forall (fun q b => q <> p -> h_status (c_history c) !! q = Some Shared ->
    match contents b with Some nd => p ∉ node_links nd | None => True end) m.

(** Object [p] belongs to the caller, and nobody else can have a pointer to it. *)
Definition sole_owner h (p : Z) : Prop :=
  match h_status h !! p with Some Private => True | Some (Gone X Unlinked) => X = ∅ | _ => False end.

Definition legal_do t (o : kop) c : Prop :=
  match c_memory c with
  | None => False
  | Some m =>
      match o with
      | KNew p _ _ | KArena p | KInit p _ _ => p <> 0
      | KAccess x spurious pl q => may_access t c x spurious pl q m
      | KValue x p => may_follow t c x p
      | KFree f p => sole_owner (c_history c) p /\ ready_made f = true /\ fits f p m
      | KPublish p => storable p m (c_history c)
      | KUnlink p => h_status (c_history c) !! p = Some Shared /\ unreachable p m c
      end
  end.

(** A retired object is unlinked, and was not retired before; it was allocated
    for its reclaimer. *)
Definition legal_retire (o : gop) c : Prop :=
  match retires o, c_memory c with
  | None, _ => True
  | Some (p, f), Some m =>
      match h_status (c_history c) !! p with Some (Gone _ Unlinked) => fits f p m | _ => False end
  | Some _, None => False
  end.

Definition clegal (l : clabel) c : Prop :=
  match l with
  | KSys l => glegal_label l (c_sys c) /\ match l with GOp _ o => legal_retire o c | _ => True end
  | KDo t o => legal_do t o c
  end.

Inductive csteps : cstate -> list cevent -> cstate -> Prop :=
| csteps_nil c : csteps c [] c
| csteps_cons c1 l c2 ev tr c3 :
    clegal l c1 -> cstep l c1 = Some (c2, ev) -> csteps c2 tr c3 -> csteps c1 (ev ++ tr) c3.

(** A client that starts, with a new collector. *)
Definition client_new (r : raw_state A) : cstate := mkClient (gstate_new r) ∅ (Some ∅) history_init.

End Client.
