(* ===== verification/ClientInv.v ===== *)
(** * The invariant of clients with memory

    What the history of a run says about its memory: shared objects point to
    shared objects, and an unlinked object points to what the guards that may
    still see it protect. Kept by every event of the library, given what the
    specification of safe memory reclamation and the ledger say of it, and by
    every operation on memory that clients may make. *)

From stdpp Require Import prelude list gmap.
From S2P Require Import Prelude Alloc ThreadId Membarrier Tls RawData RawStep Guard GuardRetire GuardSpec Collector Reclaim Client.

Open Scope Z_scope.

(** Guard [x] keeps [p] from being reclaimed. *)
Definition covers (h : history) (x : gref) (p : Z) : Prop :=
  match h_status h !! p with
  | Some Shared => True
  | Some (Gone X _) => x ∈ X
  | _ => False
  end.

(** What an object with status [st] may point to. *)
Definition points (h : history) (st : status) (v : Z) : Prop :=
  match st with
  | Shared => h_status h !! v = Some Shared
  | Gone X _ => forall x, x ∈ X -> covers h x v
  | _ => True
  end.

(** The part about objects and guards. *)
Record Core (roots : gmap nat Z) (m : memory) (h : history) : Prop := {
  co_status p : is_Some (h_status h !! p) <-> is_Some (deref p m);
  co_null : h_status h !! 0 = None;
  co_roots n v : roots !! n = Some v -> v = 0 \/ h_status h !! v = Some Shared;
  co_links p st nd v : h_status h !! p = Some st -> deref p m = Some nd -> v ∈ node_links nd -> v <> 0 -> points h st v;
  co_seen x p : p ∈ seen_by h x -> x ∈ h_live h /\ covers h x p;
  co_gone p X w : h_status h !! p = Some (Gone X w) -> X ⊆ h_live h
}.

(** The part that ties the history to the specification and to the ledger. *)
Record Books (a : smr) (L : ledger) (m : memory) (h : history) : Prop := {
  bo_calls t : calls_in h t = (L t).*1;
  bo_smr t : calls_in h t = calls_of a t;
  bo_live : h_live h = s_live a;
  bo_pending p f B : ((p, f), B) ∈ s_pending a ->
    exists X, h_status h !! p = Some (Gone X Retired) /\ X ⊆ B /\ fits f p m;
  bo_nodup : NoDup (s_pending a).*1.*1;
  bo_offered t n o p f : reverse (L t) !! n = Some (o, false) -> retires o = Some (p, f) ->
    exists X, h_status h !! p = Some (Gone X (Offered t n)) /\ fits f p m;
  bo_drops t n p f : reverse (drops_in h t) !! n = Some (p, f) -> ready_made f = true ->
    h_status h !! p = Some (Dropping t n) /\ fits f p m
}.

(** ** Lists from the bottom *)

Lemma reverse_cons_lookup {B} (y : B) l n z :
  reverse (y :: l) !! n = Some z <-> reverse l !! n = Some z \/ (n = length l /\ z = y).
Proof.
  rewrite reverse_cons. split.
  - intros [Hl|[Hn Hl]]%lookup_app_Some; [by left|]. rewrite length_reverse in *.
    destruct (n - length l)%nat eqn:E; [|done]. injection Hl as <-. right. split; [lia|done].
  - intros [Hl|[-> ->]]; [by apply lookup_app_l_Some|].
    rewrite lookup_app_r; rewrite length_reverse; [|done]. by rewrite Nat.sub_diag.
Qed.

Lemma reverse_lookup_lt {B} (l : list B) n z : reverse l !! n = Some z -> (n < length l)%nat.
Proof. intros Hl%lookup_lt_Some. by rewrite length_reverse in Hl. Qed.

(** ** Steps of the history that move objects on *)

(** Statuses change, for the end of the guards [G], in the sets of guards and
    whereabouts of unlinked objects only. *)
Definition evolved (G : gset gref) (st st' : status) : Prop :=
  match st with Gone X _ => exists w, st' = Gone (X ∖ G) w | _ => st' = st end.

Definition evolves (G : gset gref) (h h' : history) : Prop :=
  forall p, match h_status h !! p with
            | Some st => exists st', h_status h' !! p = Some st' /\ evolved G st st'
            | None => h_status h' !! p = None
            end.

Lemma evolves_covers G h h' x p : evolves G h h' -> x ∉ G -> covers h x p -> covers h' x p.
Proof.
  intros He Hx. specialize (He p). unfold covers. destruct (h_status h !! p) as [st|]; [|done].
  destruct He as (st' & -> & Hst). destruct st; simpl in Hst; try done; [by subst|]. destruct Hst as [w' ->]. set_solver.
Qed.

Lemma evolves_shared G h h' p : evolves G h h' -> h_status h !! p = Some Shared -> h_status h' !! p = Some Shared.
Proof. intros He Hp. specialize (He p). rewrite Hp in He. by destruct He as (st' & -> & ->). Qed.

Lemma evolves_back G h h' p st' : evolves G h h' -> h_status h' !! p = Some st' ->
  exists st, h_status h !! p = Some st /\ evolved G st st'.
Proof.
  intros He Hp. specialize (He p). destruct (h_status h !! p) as [st|]; [|congruence].
  destruct He as (st2 & E & ?). rewrite Hp in E. injection E as <-. eauto.
Qed.

Lemma Core_evolve G roots m h h' :
  Core roots m h -> evolves G h h' -> h_live h ∖ G ⊆ h_live h' ->
  (forall x p, p ∈ seen_by h' x -> (x ∉ G) /\ p ∈ seen_by h x) -> Core roots m h'.
Proof.
  intros HC He Hl Hs. constructor.
  - intros p. rewrite <-(co_status _ _ _ HC p). specialize (He p).
    destruct (h_status h !! p); [|by rewrite He]. destruct He as (? & -> & _). split; intros _; by eexists.
  - specialize (He 0). by rewrite (co_null _ _ _ HC) in He.
  - intros n v Hn. destruct (co_roots _ _ _ HC n v Hn) as [|Hv]; [by left|right]. by apply (evolves_shared G h).
  - intros p st nd v Hp Hd Hv Hv0. destruct (evolves_back _ _ _ _ _ He Hp) as (st0 & Hp0 & Hst).
    pose proof (co_links _ _ _ HC p st0 nd v Hp0 Hd Hv Hv0) as Hpt. unfold points in *.
    destruct st0; simpl in Hst; try (by subst).
    + subst. by apply (evolves_shared G h).
    + destruct Hst as [w' ->]. intros x [Hx HG]%elem_of_difference. apply (evolves_covers G h); [done|done|]. by apply Hpt.
  - intros x p [HG Hp]%Hs. destruct (co_seen _ _ _ HC x p Hp) as [Hx Hc]. split; [set_solver|]. by apply (evolves_covers G h).
  - intros q X w Hp. destruct (evolves_back _ _ _ _ _ He Hp) as (st0 & Hp0 & Hst).
    destruct st0; simpl in Hst; try done. destruct Hst as [w' [= -> ->]].
    pose proof (co_gone _ _ _ HC _ _ _ Hp0). set_solver.
Qed.

Lemma evolved_release G st : evolved G st (release G st).
Proof. destruct st; simpl; eauto. Qed.

Lemma evolved_move w st : evolved ∅ st (move w st).
Proof. destruct st as [| |X w'|]; simpl; try done. exists w. f_equal. set_solver. Qed.

Lemma evolved_refl st : evolved ∅ st st.
Proof. destruct st as [| |X w'|]; simpl; try done. exists w'. f_equal. set_solver. Qed.

Lemma evolves_alter w p h h' : h_status h' = alter (move w) p (h_status h) -> evolves ∅ h h'.
Proof.
  intros E q. rewrite E. destruct (decide (q = p)) as [->|Hq].
  - rewrite lookup_alter_eq. destruct (h_status h !! p); simpl; [|done]. eexists. split; [done|apply evolved_move].
  - rewrite lookup_alter_ne by done. destruct (h_status h !! q); [|done]. eexists. split; [done|apply evolved_refl].
Qed.

Lemma evolves_refl h h' : h_status h' = h_status h -> evolves ∅ h h'.
Proof.
  intros E q. rewrite E. destruct (h_status h !! q); [|done]. eexists. split; [done|apply evolved_refl].
Qed.

(** Where an object is after a call of [o] of thread [t]. *)
Lemma h_call_status t o h p : h_status (h_call t o h) !! p =
  (if decide (fst <$> retires o = Some p) then move (Offered t (length (calls_in h t))) ∘ release (released o)
   else release (released o)) <$> h_status h !! p.
Proof.
  unfold h_call. simpl. destruct (retires o) as [[q f]|]; simpl.
  - case_decide as Hd; [injection Hd as ->; by rewrite lookup_alter_eq, lookup_fmap, <-option_fmap_compose|].
    rewrite lookup_alter_ne by congruence. by rewrite lookup_fmap.
  - by rewrite lookup_fmap.
Qed.

Lemma h_call_evolves t o h : evolves (released o) h (h_call t o h).
Proof.
  intros p. rewrite h_call_status. destruct (h_status h !! p) as [st|]; simpl; [|done].
  eexists. split; [done|]. case_decide; [|apply evolved_release].
  destruct st as [| |X w'|]; simpl; try done. by eexists.
Qed.

Lemma Core_call t o roots m h : Core roots m h -> Core roots m (h_call t o h).
Proof.
  intros HC. eapply Core_evolve; [done|apply h_call_evolves|done|].
  intros x p. unfold seen_by, h_call; simpl. destruct (filter _ (h_seen h) !! x) as [S|] eqn:E; simpl; [|set_solver].
  apply map_lookup_filter_Some in E as [-> Hx]. done.
Qed.

Lemma Core_done t r roots m h : Core roots m h -> Core roots m (h_done t r h).
Proof.
  intros HC. unfold h_done. destruct (calls_in h t) as [|o os]; [done|].
  apply (Core_evolve ∅ _ _ h); [done| |simpl; set_solver|intros x p; simpl; set_solver].
  destruct (retires o) as [[p f]|]; [|by apply evolves_refl].
  case_decide; [by apply evolves_refl|by eapply evolves_alter].
Qed.

Lemma Core_retire p roots m h : Core roots m h -> Core roots m (set_status (alter (move Retired) p) h).
Proof.
  intros HC. apply (Core_evolve ∅ _ _ h); [done|by eapply evolves_alter|simpl; set_solver|intros x q; simpl; set_solver].
Qed.

(** ** Statuses that no guard covers come and go *)

Definition uncovered (st : option status) : Prop :=
  match st with Some Shared => False | Some (Gone X _) => X = ∅ | _ => True end.

Lemma uncovered_covers h x p : uncovered (h_status h !! p) -> ~ covers h x p.
Proof. unfold covers. destruct (h_status h !! p) as [[]|]; simpl; try tauto. intros ->. set_solver. Qed.

(** Object [p] goes from one such status to another, or to none. *)
Lemma Core_uncovered roots m m' h h' p :
  Core roots m h -> p <> 0 -> uncovered (h_status h !! p) ->
  match h_status h' !! p with None | Some Private | Some (Dropping _ _) => True | _ => False end ->
  (forall q, q <> p -> h_status h' !! q = h_status h !! q /\ deref q m' = deref q m) ->
  (is_Some (h_status h' !! p) <-> is_Some (deref p m')) ->
  h_live h' = h_live h -> h_seen h' = h_seen h -> Core roots m' h'.
Proof.
  intros HC Hp0 Hu Hnew Hother Hp El Es.
  assert (forall x q, covers h x q -> covers h' x q) as Hcov.
  { intros x q Hc. destruct (decide (q = p)) as [->|Hq]; [by apply uncovered_covers in Hc|].
    unfold covers in *. by rewrite (proj1 (Hother q Hq)). }
  assert (forall q, h_status h !! q = Some Shared -> h_status h' !! q = Some Shared) as Hsh.
  { intros q Hq. destruct (decide (q = p)) as [->|Hne]; [by rewrite Hq in Hu|]. by rewrite (proj1 (Hother q Hne)). }
  constructor.
  - intros q. destruct (decide (q = p)) as [->|Hq]; [done|]. destruct (Hother q Hq) as [-> ->]. apply HC.
  - rewrite (proj1 (Hother 0 (not_eq_sym Hp0))). apply HC.
  - intros n v Hn. destruct (co_roots _ _ _ HC n v Hn); eauto.
  - intros q st nd v Hq Hd Hv Hv0. destruct (decide (q = p)) as [->|Hne].
    + rewrite Hq in Hnew. by destruct st.
    + destruct (Hother q Hne) as [E1 E2]. rewrite E1 in Hq. rewrite E2 in Hd.
      pose proof (co_links _ _ _ HC q st nd v Hq Hd Hv Hv0) as Hpt. unfold points in *. destruct st; eauto.
  - intros x q. unfold seen_by. rewrite Es, El. intros Hq. destruct (co_seen _ _ _ HC x q Hq). eauto.
  - intros q X w Hq. rewrite El. destruct (decide (q = p)) as [->|Hne]; [by rewrite Hq in Hnew|].
    rewrite (proj1 (Hother q Hne)) in Hq. by eapply co_gone.
Qed.

(** ** Sharing, unlinking and accesses *)

Lemma share_status v h p : h_status (share v h) !! p =
  if decide (p = v) then (fun st => match st with Private => Shared | _ => st end) <$> h_status h !! p else h_status h !! p.
Proof.
  unfold share; simpl. case_decide; [subst; by rewrite lookup_alter_eq|by rewrite lookup_alter_ne].
Qed.

Lemma share_shared v h p : h_status h !! p = Some Shared -> h_status (share v h) !! p = Some Shared.
Proof. rewrite share_status. intros ->. by case_decide. Qed.

Lemma share_covers v h x p : covers h x p -> covers (share v h) x p.
Proof. unfold covers. rewrite share_status. case_decide; [|done]. by destruct (h_status h !! p) as [[]|]. Qed.

(** Everything but private objects stays as it is. *)
Lemma share_kept v h p st : st <> Private -> h_status h !! p = Some st -> h_status (share v h) !! p = Some st.
Proof. intros Hst Hp. rewrite share_status, Hp. case_decide; [|done]. by destruct st. Qed.

Lemma share_gone v h p X w : h_status (share v h) !! p = Some (Gone X w) -> h_status h !! p = Some (Gone X w).
Proof. rewrite share_status. case_decide; [|done]. destruct (h_status h !! p) as [[]|]; simpl; congruence. Qed.

Lemma storable_shared v m h : storable v m h -> v = 0 \/ h_status (share v h) !! v = Some Shared.
Proof.
  unfold storable. intros [|Hs]; [by left|right]. rewrite share_status, decide_True by done.
  destruct (h_status h !! v) as [[]|]; done.
Qed.

Lemma Core_share roots m h v : Core roots m h -> storable v m h -> Core roots m (share v h).
Proof.
  intros HC Hs. constructor.
  - intros p. rewrite <-(co_status _ _ _ HC p), share_status. case_decide; [by rewrite fmap_is_Some|done].
  - rewrite share_status, (co_null _ _ _ HC). by case_decide.
  - intros n u Hu. destruct (co_roots _ _ _ HC n u Hu); [by left|right]. by apply share_shared.
  - intros p st nd u Hp Hd Hu Hu0. rewrite share_status in Hp.
    assert (forall st0, h_status h !! p = Some st0 -> points h st0 u -> points (share v h) st0 u) as Hpt.
    { intros [| |X w|] _; simpl; [done|by apply share_shared| |done]. intros Hc x Hx. by apply share_covers, Hc. }
    case_decide as Hpv.
    + subst p. destruct (h_status h !! v) as [st0|] eqn:E; simpl in Hp; [|done]. injection Hp as <-.
      pose proof (co_links _ _ _ HC v st0 nd u E Hd Hu Hu0) as Hl. destruct st0; try by apply Hpt.
      destruct Hs as [->|Hs]; [by rewrite (co_null _ _ _ HC) in E|]. rewrite E, Hd in Hs.
      unfold good_links in Hs. rewrite Forall_forall in Hs. destruct (Hs u Hu) as [->|[->|Hsu]]; [done| |by apply share_shared].
      unfold points. by rewrite share_status, decide_True, E.
    + apply Hpt; [done|]. by eapply co_links.
  - intros x p Hp. destruct (co_seen _ _ _ HC x p Hp). split; [done|]. by apply share_covers.
  - intros p X w Hp%share_gone. by apply (co_gone _ _ _ HC p X w).
Qed.

(** Sharing again changes nothing. *)
Lemma share_same v h : h_status h !! v <> Some Private -> share v h = h.
Proof.
  intros Hv. unfold share, set_status. destruct h as [c d l st sn]; simpl in *. f_equal.
  apply map_eq. intros p. destruct (decide (p = v)) as [->|Hp]; [|by rewrite lookup_alter_ne].
  rewrite lookup_alter_eq. destruct (st !! v) as [[]|]; done.
Qed.

Lemma Core_unlink roots m h p (X := h_live h) :
  Core roots m h -> h_status h !! p = Some Shared ->
  (forall n v, roots !! n = Some v -> v <> p) ->
  (forall q nd, q <> p -> h_status h !! q = Some Shared -> deref q m = Some nd -> p ∉ node_links nd) ->
  Core roots m (set_status (<[p := Gone X Unlinked]>) h).
Proof.
  intros HC Hp Hr Hl. set (h' := set_status _ h).
  assert (forall q, h_status h' !! q = if decide (q = p) then Some (Gone X Unlinked) else h_status h !! q) as E.
  { intros q. unfold h'; simpl. case_decide; [subst; by rewrite lookup_insert_eq|by rewrite lookup_insert_ne]. }
  assert (forall x q, x ∈ X -> covers h x q -> covers h' x q) as Hcov.
  { intros x q Hx. unfold covers. rewrite E. by case_decide. }
  constructor.
  - intros q. rewrite <-(co_status _ _ _ HC q), E. case_decide; [subst; rewrite Hp|done]. split; intros _; by eexists.
  - rewrite E, decide_False; [apply HC|]. intros <-. by rewrite (co_null _ _ _ HC) in Hp.
  - intros n v Hn. destruct (co_roots _ _ _ HC n v Hn); [by left|right]. rewrite E, decide_False; [done|by eapply Hr].
  - intros q st nd v Hq Hd Hv Hv0. rewrite E in Hq. case_decide as Hqp.
    + subst q. injection Hq as <-. intros x Hx. pose proof (co_links _ _ _ HC p _ nd v Hp Hd Hv Hv0) as Hs. simpl in Hs.
      apply Hcov; [done|]. unfold covers. by rewrite Hs.
    + pose proof (co_links _ _ _ HC q st nd v Hq Hd Hv Hv0) as Hs. destruct st as [| |Y w|]; simpl in *; try done.
      * rewrite E, decide_False; [done|]. intros ->. by apply (Hl q nd Hqp Hq Hd).
      * intros x Hx. apply Hcov; [|by apply Hs]. by apply (co_gone _ _ _ HC q Y w Hq).
  - intros x q Hq. destruct (co_seen _ _ _ HC x q Hq) as [Hx Hc]. split; [done|]. by apply Hcov.
  - intros q Y w Hq. rewrite E in Hq. case_decide; [by injection Hq as <- _|]. by apply (co_gone _ _ _ HC q Y w).
Qed.

(** What is at a place that others can load. *)
Definition fine (h : history) (pl : place) (v : Z) : Prop :=
  v = 0 \/ match pl with
           | Root _ => h_status h !! v = Some Shared
           | Field p _ => match h_status h !! p with Some st => points h st v | None => False end
           end.

Lemma Core_write_root roots m h n v : Core roots m h -> fine h (Root n) v -> Core (<[n := v]> roots) m h.
Proof.
  intros HC Hv. constructor; try apply HC. intros k u. destruct (decide (k = n)) as [->|Hk].
  - rewrite lookup_insert_eq. by intros [= <-].
  - rewrite lookup_insert_ne by done. apply HC.
Qed.

Lemma Core_write_field roots m h p i v nd :
  Core roots m h -> deref p m = Some nd -> fine h (Field p i) v ->
  Core roots (store_node p (mkNode (node_value nd) (<[i := v]> (node_links nd))) m) h.
Proof.
  intros HC Hd Hv. assert (is_Some (deref p m)) as Hsome by (by eexists).
  constructor; try apply HC.
  - intros q. rewrite deref_store by done. case_decide; [subst|apply HC].
    rewrite (co_status _ _ _ HC p), Hd. split; intros _; by eexists.
  - intros q st nd' u Hq. rewrite deref_store by done. case_decide as Hqp; [subst q|by eapply HC].
    intros [= <-]. simpl. intros [k Hk]%list_elem_of_lookup Hu0.
    apply list_lookup_insert_Some in Hk as [(-> & -> & _)|[_ Hk]].
    + destruct Hv as [->|Hv]; [done|]. by rewrite Hq in Hv.
    + apply list_elem_of_lookup_2 in Hk. by apply (co_links _ _ _ HC p st nd u).
Qed.

Lemma Core_see roots m h x v : Core roots m h -> x ∈ h_live h -> covers h x v -> Core roots m (see x v h).
Proof.
  intros HC Hx Hc. constructor; try apply HC. intros y p. unfold seen_by; simpl. intros Hp.
  assert ((y = x /\ p = v) \/ p ∈ seen_by h y) as [[-> ->]|Hp']; [|done|by apply (co_seen _ _ _ HC y p)].
  destruct (decide (y = x)) as [->|Hyx]; [|right; by rewrite lookup_insert_ne in Hp].
  rewrite lookup_insert_eq in Hp. simpl in Hp. apply elem_of_union in Hp as [Hp|]; [|by right].
  left. split; [done|]. set_solver.
Qed.

(** Objects that may be followed are there. *)
Lemma covers_deref roots m h x p : Core roots m h -> covers h x p -> is_Some (deref p m).
Proof.
  intros HC Hc. apply (co_status _ _ _ HC). unfold covers in Hc. by destruct (h_status h !! p) as [[]|]; eauto.
Qed.

Lemma owned_deref roots m h p : Core roots m h -> owned_by_one h p -> is_Some (deref p m).
Proof.
  intros HC Hc. apply (co_status _ _ _ HC). unfold owned_by_one in Hc. by destruct (h_status h !! p) as [[]|]; eauto.
Qed.

(** A pointer that guard [x] finds at a place it may access. *)
Lemma fine_covers h pl v x : fine h pl v -> v <> 0 ->
  match pl with Root _ => True | Field p _ => covers h x p end -> covers h x v.
Proof.
  intros [|Hf] Hv Hx; [done|]. destruct pl as [n|p i].
  - unfold covers. by rewrite Hf.
  - unfold covers in Hx. destruct (h_status h !! p) as [[| |X w|]|]; try done; simpl in Hf; [|by apply Hf].
    unfold covers. by rewrite Hf.
Qed.

(** ** The books *)

(** Object [p] is in the books: the library has it. *)
Definition booked (st : status) : Prop :=
  match st with Gone _ Unlinked | Private | Shared => False | _ => True end.

(** Operations on other objects. *)
Lemma Books_keep a L m m' h h' :
  Books a L m h -> h_calls h' = h_calls h -> h_drops h' = h_drops h -> h_live h' = h_live h ->
  (forall p st, h_status h !! p = Some st -> booked st ->
     h_status h' !! p = Some st /\ forall f, fits f p m -> fits f p m') -> Books a L m' h'.
Proof.
  intros HB Ec Ed El Hk. constructor; unfold calls_in, drops_in; rewrite ?Ec, ?Ed, ?El; try apply HB.
  - intros p f B Hin. destruct (bo_pending _ _ _ _ HB p f B Hin) as (X & Hp & HX & Hf).
    destruct (Hk p _ Hp) as [? ?]; [done|]. exists X. auto.
  - intros t n o p f Hin Ho. destruct (bo_offered _ _ _ _ HB t n o p f Hin Ho) as (X & Hp & Hf).
    destruct (Hk p _ Hp) as [? ?]; [done|]. exists X. auto.
  - intros t n p f Hin Hr. destruct (bo_drops _ _ _ _ HB t n p f Hin Hr) as (Hp & Hf).
    destruct (Hk p _ Hp) as [? ?]; [done|]. auto.
Qed.

Lemma calls_in_insert t os (h : history) cs d l st sn t' :
  cs = h_calls h -> calls_in (mkHistory (<[t := os]> cs) d l st sn) t' = if decide (t' = t) then os else calls_in h t'.
Proof. intros ->. unfold calls_in; simpl. case_decide; [by subst; rewrite lookup_insert_eq|by rewrite lookup_insert_ne]. Qed.

Lemma drops_in_insert t ds (h : history) c d l st sn t' :
  d = h_drops h -> drops_in (mkHistory c (<[t := ds]> d) l st sn) t' = if decide (t' = t) then ds else drops_in h t'.
Proof. intros ->. unfold drops_in; simpl. case_decide; [by subst; rewrite lookup_insert_eq|by rewrite lookup_insert_ne]. Qed.

Lemma Books_call a L m h t o :
  Books a L m h ->
  (forall p f, retires o = Some (p, f) -> exists X, h_status h !! p = Some (Gone X Unlinked) /\ fits f p m) ->
  Books (on_call t o a) (ledger_set t ((o, false) :: L t) L) m (h_call t o h).
Proof.
  intros HB Ho. set (G := released o).
  assert (forall p st, h_status h !! p = Some st -> booked st -> h_status (h_call t o h) !! p = Some (release G st)) as Hk.
  { intros p st Hp Hb. rewrite h_call_status, Hp. simpl. rewrite decide_False; [done|].
    destruct (retires o) as [[q f]|]; [|done]. intros [= ->]. destruct (Ho p f eq_refl) as (X & Hp' & _).
    rewrite Hp in Hp'. by injection Hp' as ->. }
  constructor.
  - intros t'. unfold h_call. erewrite calls_in_insert by done. unfold ledger_set.
    case_decide; [subst; simpl; by rewrite (bo_calls _ _ _ _ HB)|apply HB].
  - intros t'. unfold h_call, on_call. erewrite calls_in_insert by done. rewrite calls_of_insert.
    case_decide; [by rewrite (bo_smr _ _ _ _ HB)|apply HB].
  - simpl. by rewrite (bo_live _ _ _ _ HB).
  - intros p f B Hin. simpl in Hin. apply list_elem_of_fmap in Hin as ([[p' f'] B0] & [= -> -> ->] & Hin).
    destruct (bo_pending _ _ _ _ HB _ _ _ Hin) as (X & Hp & HX & Hf). exists (X ∖ G).
    split; [by rewrite (Hk _ _ Hp)|]. split; [set_solver|done].
  - assert ((s_pending (on_call t o a)).*1 = (s_pending a).*1) as -> by (simpl; by rewrite <-list_fmap_compose).
    apply (bo_nodup _ _ _ _ HB).
  - intros t' n o' p f Hin Hr. destruct (decide (t' = t)) as [->|Ht].
    + rewrite ledger_set_eq in Hin. apply reverse_cons_lookup in Hin as [Hin|[-> [= ->]]].
      * destruct (bo_offered _ _ _ _ HB _ _ _ _ _ Hin Hr) as (X & Hp & Hf). exists (X ∖ G). by rewrite (Hk _ _ Hp).
      * destruct (Ho p f Hr) as (X & Hp & Hf). exists (X ∖ G). split; [|done].
        rewrite h_call_status, Hp. simpl. rewrite Hr, decide_True by done. simpl.
        by rewrite (bo_calls _ _ _ _ HB), length_fmap.
    + rewrite ledger_set_ne in Hin by done.
      destruct (bo_offered _ _ _ _ HB _ _ _ _ _ Hin Hr) as (X & Hp & Hf). exists (X ∖ G). by rewrite (Hk _ _ Hp).
  - intros t' n p f Hin Hr. destruct (bo_drops _ _ _ _ HB t' n p f Hin Hr) as (Hp & Hf). by rewrite (Hk _ _ Hp).
Qed.

Lemma Books_done a L m h t r o b os o' os' :
  Books a L m h -> L t = (o, b) :: os -> answers o b r -> calls_of a t = o' :: os' ->
  Books (on_done t o' os' r a) (ledger_set t os L) m (h_done t r h).
Proof.
  intros HB HL Hans Ha. pose proof (bo_calls _ _ _ _ HB t) as Ec. rewrite HL in Ec. simpl in Ec.
  pose proof (bo_smr _ _ _ _ HB t) as Es. rewrite Ec, Ha in Es. injection Es as <- <-.
  unfold h_done. rewrite Ec. set (st' := match retires o with Some _ => _ | None => _ end).
  assert (forall p st, h_status h !! p = Some st -> booked st -> st' !! p = Some st \/
    (exists X, st = Gone X (Offered t (length os)))) as Hk.
  { intros p st Hp Hb. unfold st'. destruct (retires o) as [[q f]|] eqn:Er; [|by left]. case_decide as Hr; [by left|].
    destruct (decide (p = q)) as [->|Hpq]; [right|left; by rewrite lookup_alter_ne].
    apply (answers_retires _ _ _ _ Er) in Hans. destruct b; [done|].
    destruct (bo_offered _ _ _ _ HB t (length os) o q f) as (X & Hq & _); [|done|].
    - rewrite HL. apply reverse_cons_lookup. by right.
    - exists X. congruence. }
  constructor.
  - intros t'. erewrite calls_in_insert by done. unfold ledger_set. case_decide; [done|apply HB].
  - intros t'. unfold on_done. erewrite calls_in_insert by done. rewrite calls_of_insert. case_decide; [done|apply HB].
  - simpl. by rewrite (bo_live _ _ _ _ HB).
  - intros p f B Hin. destruct (bo_pending _ _ _ _ HB p f B Hin) as (X & Hp & HX & Hf). exists X.
    by destruct (Hk p _ Hp) as [?|[Y [=]]].
  - apply (bo_nodup _ _ _ _ HB).
  - intros t' n o' p f Hin Hr. assert (reverse (L t') !! n = Some (o', false) /\ (t' = t -> n < length os)%nat) as [Hin' Hn].
    { destruct (decide (t' = t)) as [->|Ht]; [|by rewrite ledger_set_ne in Hin].
      rewrite ledger_set_eq in Hin. split; [rewrite HL; apply reverse_cons_lookup; by left|]. intros _. by eapply reverse_lookup_lt. }
    destruct (bo_offered _ _ _ _ HB _ _ _ _ _ Hin' Hr) as (X & Hp & Hf). exists X. split; [|done].
    destruct (Hk p _ Hp) as [?|[Y [= -> -> ->]]]; [done..|]. specialize (Hn eq_refl). lia.
  - intros t' n p f Hin Hr. destruct (bo_drops _ _ _ _ HB t' n p f Hin Hr) as (Hp & Hf).
    by destruct (Hk p _ Hp) as [?|[Y [=]]].
Qed.

Lemma Books_retire roots a L m h t p f o os :
  Books a L m h -> Core roots m h -> L t = (o, false) :: os -> retires o = Some (p, f) ->
  Books (on_retire (p, f) a) (ledger_set t ((o, true) :: os) L) m (set_status (alter (move Retired) p) h).
Proof.
  intros HB HC HL Ho. destruct (bo_offered _ _ _ _ HB t (length os) o p f) as (X & Hp & Hf); [|done|].
  { rewrite HL. apply reverse_cons_lookup. by right. }
  assert (forall q, q <> p -> h_status (set_status (alter (move Retired) p) h) !! q = h_status h !! q) as Hne
    by (intros q Hq; simpl; by rewrite lookup_alter_ne).
  assert (forall q g B, ((q, g), B) ∈ s_pending a -> q <> p) as Hpn.
  { intros q g B Hin ->. destruct (bo_pending _ _ _ _ HB _ _ _ Hin) as (Y & Hq & _). congruence. }
  constructor.
  - intros t'. change (calls_in (set_status _ h) t') with (calls_in h t'). rewrite (bo_calls _ _ _ _ HB).
    unfold ledger_set. case_decide; [subst; by rewrite HL|done].
  - apply HB.
  - apply HB.
  - intros q g B. simpl. intros [[= -> -> ->]|Hin]%elem_of_cons.
    + exists X. rewrite lookup_alter_eq, Hp. simpl. split; [done|]. split; [|done].
      rewrite decide_False; [rewrite <-(bo_live _ _ _ _ HB); by eapply co_gone|].
      intros (f' & ([q' B] & [= <-] & Hin)%list_elem_of_fmap). by apply (Hpn p f' B).
    + destruct (bo_pending _ _ _ _ HB _ _ _ Hin) as (Y & Hq & HY & Hg). exists Y. by rewrite lookup_alter_ne by (by apply not_eq_sym, (Hpn q g B)).
  - simpl. constructor; [|apply (bo_nodup _ _ _ _ HB)].
    intros ([q g] & -> & ([[q' g'] B] & [= -> ->] & Hin)%list_elem_of_fmap)%list_elem_of_fmap. simpl in *. by apply (Hpn q' g' B).
  - intros t' n o' q g Hin Hr. assert (reverse (L t') !! n = Some (o', false) /\ (t', n) <> (t, length os)) as [Hin' Hn].
    { destruct (decide (t' = t)) as [->|Ht]; [|rewrite ledger_set_ne in Hin by done; split; [done|congruence]].
      rewrite ledger_set_eq in Hin. apply reverse_cons_lookup in Hin as [Hin|[_ [=]]].
      split; [rewrite HL; apply reverse_cons_lookup; by left|]. apply reverse_lookup_lt in Hin. intros [= ->]. lia. }
    destruct (bo_offered _ _ _ _ HB _ _ _ _ _ Hin' Hr) as (Y & Hq & Hg). exists Y. split; [|done].
    rewrite Hne; [done|]. intros ->. apply Hn. congruence.
  - intros t' n q g Hin Hr. destruct (bo_drops _ _ _ _ HB t' n q g Hin Hr) as (Hq & Hg). split; [|done].
    rewrite Hne; [done|]. intros ->. congruence.
Qed.

Lemma Books_reclaim a L m h t p f l :
  Books a L m h -> s_pending a ≡ₚ ((p, f), ∅) :: l ->
  h_status h !! p = Some (Gone ∅ Retired) /\ Books (mkSmr (s_calls a) (s_live a) l) L m (h_reclaim t p f h).
Proof.
  intros HB El. assert (((p, f), ∅) ∈ s_pending a) as Hin by (rewrite El; by left).
  destruct (bo_pending _ _ _ _ HB _ _ _ Hin) as (X & Hp & HX & Hf). assert (X = ∅) as -> by set_solver.
  split; [done|]. pose proof (bo_nodup _ _ _ _ HB) as Hn. rewrite El in Hn. simpl in Hn. apply NoDup_cons in Hn as [Hpl Hn].
  assert (forall q st, h_status h !! q = Some st -> st <> Gone ∅ Retired -> h_status (h_reclaim t p f h) !! q = Some st) as Hk.
  { intros q st Hq Hst. simpl. rewrite lookup_insert_ne; [done|]. intros <-. congruence. }
  constructor; simpl.
  - apply HB.
  - apply HB.
  - apply HB.
  - intros q g B Hq. destruct (bo_pending _ _ _ _ HB q g B) as (Y & Hs & HY & Hg); [rewrite El; by right|].
    exists Y. rewrite lookup_insert_ne; [done|]. intros <-. apply Hpl. apply list_elem_of_fmap. exists (p, g). split; [done|].
    apply list_elem_of_fmap. by exists ((p, g), B).
  - done.
  - intros t' n o q g Hq Hr. destruct (bo_offered _ _ _ _ HB _ _ _ _ _ Hq Hr) as (Y & Hs & Hg). exists Y.
    split; [by apply (Hk q)|done].
  - intros t' n q g. unfold h_reclaim. erewrite drops_in_insert by done. intros Hq Hr.
    assert (reverse (drops_in h t') !! n = Some (q, g) \/ (t' = t /\ n = length (drops_in h t) /\ q = p /\ g = f)) as [Hq'|(-> & -> & -> & ->)].
    { case_decide; [subst|by left]. apply reverse_cons_lookup in Hq as [?|[-> [= -> ->]]]; auto. }
    + destruct (bo_drops _ _ _ _ HB t' n q g Hq' Hr) as (Hs & Hg). split; [by apply (Hk q)|done].
    + rewrite lookup_insert_eq, Hr. done.
Qed.

Lemma Books_pop a L m h t p f ds :
  Books a L m h -> drops_in h t = (p, f) :: ds ->
  Books a L m (mkHistory (h_calls h) (<[t := ds]> (h_drops h)) (h_live h) (h_status h) (h_seen h)).
Proof.
  intros HB Ed. constructor; try apply HB. intros t' n q g. erewrite drops_in_insert by done. intros Hq Hr.
  apply (bo_drops _ _ _ _ HB t' n q g); [|done]. case_decide; [subst|done]. rewrite Ed. apply reverse_cons_lookup. by left.
Qed.
