(* ===== verification/ClientSafe.v ===== *)
(** * Memory safety of clients

    Every step of a client that keeps to the rules keeps the invariant of
    ClientInv, together with the simulation of the specification and with the
    ledger; so no client ever reaches undefined behaviour. *)

From stdpp Require Import prelude list gmap.
From S2P Require Import Prelude Alloc ThreadId Membarrier Tls RawData RawStep RawExec RawGhost RawInv RawPreserve RawProtect RawEffect Guard GuardInv GuardPreserve GuardHandle GuardOps GuardRefine GuardSafe GuardRetire GuardSpec Collector Reclaim Client ClientInv.

Open Scope Z_scope.

(** ** Events *)

Lemma status_nonzero roots m h p st : Core roots m h -> h_status h !! p = Some st -> p <> 0.
Proof. intros HC Hp ->. by rewrite (co_null _ _ _ HC) in Hp. Qed.

Lemma Core_reclaim roots m h t p f :
  Core roots m h -> h_status h !! p = Some (Gone ∅ Retired) -> Core roots m (h_reclaim t p f h).
Proof.
  intros HC Hp. apply (Core_uncovered _ m _ h _ p); try done.
  - by eapply status_nonzero.
  - by rewrite Hp.
  - simpl. rewrite lookup_insert_eq. by destruct (ready_made f).
  - intros q Hq. simpl. by rewrite lookup_insert_ne.
  - simpl. rewrite lookup_insert_eq, <-(co_status _ _ _ HC p), Hp. split; intros _; by eexists.
Qed.

(** An event of the library, given its step of the specification and of the
    ledger. *)
Lemma client_event a L roots m h e a' L' :
  Core roots m h -> Books a L m h -> smr_step a e a' -> ledger_step L e L' ->
  (forall t o p f, e = GCall t o -> retires o = Some (p, f) ->
     exists X, h_status h !! p = Some (Gone X Unlinked) /\ fits f p m) ->
  Core roots m (h_event e h) /\ Books a' L' m (h_event e h).
Proof.
  intros HC HB Ha HL Ho.
  destruct Ha as [t o a|t r o' os' a Hcs|t p f a|t p f a l Hpe|e a He].
  - inversion HL; subst. split; [by apply Core_call|]. apply Books_call; [done|]. eauto.
  - inversion HL as [| |t' r' o b os Et Hans|]; subst. split; [by apply Core_done|]. by eapply Books_done.
  - inversion HL as [|t' p' f' o os Et Hr| |e He]; subst; [|done]. split; [by apply Core_retire|]. by eapply Books_retire.
  - inversion HL; subst. destruct (Books_reclaim _ _ _ _ t _ _ _ HB Hpe) as [Hp HB']. split; [by apply Core_reclaim|done].
  - destruct e; try done; by inversion HL; subst.
Qed.

Definition no_call (ev : list gevent) : Prop := forall t o, GCall t o ∉ ev.

Abbreviation h_events := (foldl (fun h e => h_event e h)).

Lemma client_events a L roots m h ev a' L' :
  Core roots m h -> Books a L m h -> smr_steps a ev a' -> ledger_steps L ev L' -> no_call ev ->
  Core roots m (h_events h ev) /\ Books a' L' m (h_events h ev).
Proof.
  intros HC HB Ha. revert L h HC HB. induction Ha as [a|a1 e a2 tr a3 Ha1 Ha IH]; intros L h HC HB HL Hno.
  - inversion HL; subst. done.
  - inversion HL as [|L1 e' L2 tr' L3 HL1 HL2]; subst.
    destruct (client_event _ _ _ _ _ _ _ _ HC HB Ha1 HL1) as [HC' HB'].
    + intros t o p f -> _. destruct (Hno t o). by left.
    + simpl. apply (IH L2); try done. intros t o Hin. apply (Hno t o). by right.
Qed.

(** The reclaimers that run. *)
Lemma drops_event e h t : drops_in (h_event e h) t = given t (raw_events [e]) ++ drops_in h t.
Proof.
  destruct e as [t' o|[t' v|t' p f|t' p f|r|r]|t' v]; try done.
  - simpl. unfold h_reclaim. erewrite drops_in_insert by done. by repeat case_decide; simplify_eq.
  - simpl. unfold h_done. destruct (calls_in h t'); [done|]. by destruct (retires g) as [[p f]|].
Qed.

Lemma given_app t ev1 ev2 : given t (ev1 ++ ev2) = given t ev1 ++ given t ev2.
Proof. apply omap_app. Qed.

Lemma drops_events ev h t : drops_in (h_events h ev) t = reverse (given t (raw_events ev)) ++ drops_in h t.
Proof.
  revert h. induction ev as [|e ev IH]; intros h; [done|]. cbn [foldl]. rewrite IH, drops_event.
  assert (raw_events (e :: ev) = raw_events [e] ++ raw_events ev) as -> by apply (raw_events_app [e] ev).
  rewrite given_app, reverse_app, <-(assoc_L (++)). f_equal. f_equal.
  by destruct e as [|[]|]; simpl; repeat case_decide.
Qed.

Section ClientSafe.
Context {A : Type} `{Allocator A} `{BoxVec A} `{!BoxVecLaws A}.
Context `{EntryLayout Reservation} `{EntryLayout LocalBatch}.
Variables (plat : Platform) (batch_size : Z).

Abbreviation cstate := (client A).
Abbreviation GI := (GI plat batch_size).
Abbreviation gstep := (gstep plat batch_size).
Abbreviation cstep := (cstep plat batch_size).
Abbreviation csteps := (csteps plat batch_size).
Implicit Types (s : guard_state A) (c : cstate) (t : nat) (x : gref) (h : history) (m : memory).

(** ** Steps of the library *)

Lemma perform_no_call t o hd s' ev : perform plat batch_size t o hd = Some (s', ev) -> no_call ev /\ raw_events ev = [].
Proof.
  intros Hp. destruct (perform_inv _ _ _ _ _ _ _ Hp) as (s1 & act & _ & _ & Hev & Hcases). split; [|done].
  destruct Hcases as [(v & -> & _)|(ro & k & th & -> & _)]; intros t' o'; [by intros ?%list_elem_of_singleton|apply not_elem_of_nil].
Qed.

Lemma gstep_events l s s' ev : GI None s -> gstep l s = Some (s', ev) ->
  (length (raw_events ev) <= 1)%nat /\
  match l with
  | GOp t o => exists ev', ev = GCall t o :: ev' /\ no_call ev' /\ raw_events ev' = []
  | GReturn _ => ev = []
  | _ => no_call ev
  end.
Proof.
  intros HI Hst. destruct (raw_label l) as [rl|] eqn:Erl.
  - destruct (gstep_raw _ _ _ _ _ _ _ Erl Hst) as (rs & ev0 & E & Hr).
    pose proof (step_brief plat batch_size rl (raw s) (gi_raw _ _ _ _ HI) _ _ E) as Hlen.
    assert (no_call (map GRaw ev0)) as Hno by (intros t o (e & [=] & _)%list_elem_of_fmap).
    destruct (raw_good _ _ l rl s rs ev0 HI Erl E) as [(t & v & st & Hs & -> & -> & ->)|[Hn HI']].
    + destruct Hr as (w & ws & ev' & Hw & -> & Ep). destruct (perform_no_call _ _ _ _ _ Ep) as [Hno' Hev].
      rewrite raw_events_app, Hev. split; [done|]. intros t' o [Hin|Hin]%elem_of_app; [by apply (Hno t' o)|by apply (Hno' t' o)].
    + rewrite Hn in Hr. destruct Hr as [-> ->]. rewrite raw_events_map. split; [done|].
      destruct l; try done. simpl in Erl, E. injection Erl as <-. simpl in E.
      destruct (stack (raw s) t) as [|[] st]; try done. by injection E as _ <-.
  - destruct l as [t o|t|t|t|r|sys x86|ro]; try done; simpl in Hst.
    2: { injection Hst as _ <-. split; [simpl; lia|]. by intros t o ?%elem_of_nil. }
    destruct (at_client _); [|done]. apply bind_Some in Hst as ([s1 ev1] & Ep & [= <- <-]). destruct (perform_no_call _ _ _ _ _ Ep) as [Hno Hev].
    simpl. rewrite Hev. split; [simpl; lia|]. by exists ev1.
Qed.

(** The invariant of clients. *)
Record CI c : Prop := {
  ci_guards : GI None (c_sys c);
  ci_drops t : drops_in (c_history c) t = reclaiming (stack (raw (c_sys c)) t);
  ci_client : exists a L m, sim (c_sys c) a /\ ledgered (c_sys c) L /\ c_memory c = Some m /\
    Core (c_roots c) m (c_history c) /\ Books a L m (c_history c)
}.

Lemma short_reverse {B} (l : list B) : (length l <= 1)%nat -> reverse l = l.
Proof. destruct l as [|y [|z l]]; simpl; [done|done|lia]. Qed.

Lemma given_length t ev : (length (given t ev) <= length ev)%nat.
Proof. induction ev as [|e ev IH]; [done|]. simpl. destruct e; try lia. case_decide; simpl; lia. Qed.

(** The history after a step of the library, before its reclaimer is taken
    away. *)
Lemma lib_history l s s' ev h roots m a L :
  GI None s -> glegal_label l s -> gstep l s = Some (s', ev) -> sim s a -> ledgered s L ->
  Core roots m h -> Books a L m h ->
  (forall t o p f, l = GOp t o -> retires o = Some (p, f) ->
     exists X, h_status h !! p = Some (Gone X Unlinked) /\ fits f p m) ->
  exists a' L', sim s' a' /\ ledgered s' L' /\ Core roots m (h_events h ev) /\ Books a' L' m (h_events h ev).
Proof.
  intros HI Hl Hst Hsim HL HC HB Hr.
  destruct (sim_gstep _ _ _ _ _ _ _ HI Hl Hst Hsim) as (a' & Ha & Hsim').
  destruct (ledger_gstep _ _ _ _ _ _ _ HI Hl Hst HL) as (L' & HLs & HL').
  exists a', L'. split; [done|]. split; [done|].
  destruct (gstep_events _ _ _ _ HI Hst) as [_ Hev]. destruct l as [t o|t|t|t|r|sys x86|ro];
    try (by apply (client_events a L)); [|subst ev; apply (client_events a L); try done; by intros ? ? ?%elem_of_nil].
  destruct Hev as (ev' & -> & Hno & _). inversion Ha as [|a1 e a2 tr a3 Ha1 Ha2]; subst.
  inversion HLs as [|L1 e' L2 tr' L3 HL1 HL2]; subst.
  destruct (client_event _ _ _ _ _ _ _ _ HC HB Ha1 HL1) as [HC' HB'].
  - intros t' o' p f [= <- <-]. by apply (Hr t o).
  - simpl. by apply (client_events a2 L2).
Qed.

Lemma lib_drops l s s' ev h :
  GI None s -> glegal_label l s -> gstep l s = Some (s', ev) -> (forall t, drops_in h t = reclaiming (stack (raw s) t)) ->
  match l with GReturn _ => False | _ => True end ->
  forall t, drops_in (h_events h ev) t = reclaiming (stack (raw s') t).
Proof.
  intros HI Hl Hst Hd Hnr t. rewrite drops_events, (reclaimers_gstep _ _ _ _ _ _ HI Hl Hst t), Hd.
  destruct (gstep_events _ _ _ _ HI Hst) as [Hlen _]. pose proof (given_length t (raw_events ev)).
  rewrite short_reverse by lia. by destruct l.
Qed.

(** A reclaimer returns. *)
Lemma lib_return roots a L m h t p f ds :
  Core roots m h -> Books a L m h -> drops_in h t = (p, f) :: ds ->
  exists m', (if ready_made f then reclaim_with f p m else Some m) = Some m' /\
    Core roots m' (h_return t h) /\ Books a L m' (h_return t h).
Proof.
  intros HC HB Ed. pose proof (Books_pop _ _ _ _ _ _ _ _ HB Ed) as HB'. unfold h_return. rewrite Ed.
  destruct (ready_made f) eqn:Hf.
  2: { exists m. split; [done|]. split; [|done]. constructor; apply HC. }
  destruct (bo_drops _ _ _ _ HB t (length ds) p f) as [Hp Hfit]; [|done|].
  { rewrite Ed. apply reverse_cons_lookup. by right. }
  destruct (proj1 (co_status _ _ _ HC p)) as [nd Hnd]; [by rewrite Hp|].
  destruct (reclaim_with_defined f p m nd Hnd Hfit) as [m' Em]. exists m'. split; [done|].
  pose proof (reclaim_with_inv _ _ _ _ Hf Em) as Hd. split.
  - apply (Core_uncovered _ m _ h _ p); try done; simpl.
    + by eapply status_nonzero.
    + by rewrite Hp.
    + by rewrite lookup_delete_eq.
    + intros q Hq. by rewrite lookup_delete_ne, Hd, decide_False.
    + rewrite lookup_delete_eq, Hd, decide_True by done. done.
  - set (h0 := mkHistory _ _ _ _ _) in HB'.
    assert (forall t' n q g, reverse (drops_in h0 t') !! n = Some (q, g) -> ready_made g = true -> q <> p) as Hne.
    { intros t' n q g Hin Hg ->. destruct (bo_drops _ _ _ _ HB' t' n p g Hin Hg) as [Hp' _]. simpl in Hp'.
      rewrite Hp in Hp'. injection Hp' as <- <-. unfold h0 in Hin. erewrite drops_in_insert in Hin by done.
      rewrite decide_True in Hin by done. apply reverse_lookup_lt in Hin. lia. }
    constructor; try apply HB'.
    + intros q g B Hin. destruct (bo_pending _ _ _ _ HB' q g B Hin) as (X & Hq & HX & Hg). exists X. simpl in *.
      assert (q <> p) by congruence. rewrite lookup_delete_ne by done. split; [done|]. split; [done|]. by eapply reclaim_with_fits.
    + intros t' n o q g Hin Hr. destruct (bo_offered _ _ _ _ HB' _ _ _ _ _ Hin Hr) as (X & Hq & Hg). exists X. simpl in *.
      assert (q <> p) by congruence. rewrite lookup_delete_ne by done. split; [done|]. by eapply reclaim_with_fits.
    + intros t' n q g Hin Hg. destruct (bo_drops _ _ _ _ HB' t' n q g Hin Hg) as [Hq Hfg]. specialize (Hne _ _ _ _ Hin Hg).
      simpl in *. rewrite lookup_delete_ne by done. split; [done|]. by eapply reclaim_with_fits.
Qed.

Lemma CI_lib l c c' ev : CI c -> clegal (KSys l) c -> cstep (KSys l) c = Some (c', ev) -> CI c'.
Proof.
  intros [HI Hd (a & L & m & Hsim & HL & Em & HC & HB)] [Hl Hr] E. simpl in E. unfold lib_step in E.
  apply bind_Some in E as ([s' ev0] & Est & E).
  destruct (lib_history l _ s' ev0 (c_history c) _ m a L HI Hl Est Hsim HL HC HB) as (a' & L' & Hsim' & HL' & HC' & HB').
  { intros t o p f -> Ho. simpl in Hr. unfold legal_retire in Hr. rewrite Ho, Em in Hr.
    destruct (h_status (c_history c) !! p) as [[| |X []|]|]; try done. by exists X. }
  destruct (gstep_good _ _ _ _ _ _ HI Hl Est) as [HI' _].
  assert (match l with GReturn _ => False | _ => True end ->
    CI (mkClient s' (c_roots c) (c_memory c) (h_events (c_history c) ev0))) as Hplain.
  { intros Hnr. constructor; simpl; [done|by apply (lib_drops l (c_sys c))|]. exists a', L', m. done. }
  destruct (gstep_events _ _ _ _ HI Est) as [_ Hev].
  destruct l as [t o|t|t|t|r|sys x86|ro]; try (by injection E as <- <-; apply Hplain). subst ev0.
  pose proof (reclaimers_gstep _ _ _ _ _ _ HI Hl Est) as Hst. simpl in Est.
  destruct (stack (raw (c_sys c)) t) as [|fr st] eqn:Es; [done|]. destruct fr as [| | | | | | | | | | | | | | |p f| | | |]; try done.
  rewrite Em in E. simpl in E. injection E as <- <-.
  assert (drops_in (c_history c) t = (p, f) :: reclaiming st) as Edt by (by rewrite Hd, Es).
  destruct (lib_return _ _ _ _ _ t p f _ HC' HB' Edt) as (m' & Em' & HC2 & HB2). simpl in *.
  constructor; simpl; [done| |exists a', L', m'; rewrite Em'; done].
  intros t'. rewrite Hst. unfold h_return. rewrite Edt. erewrite drops_in_insert by done.
  case_decide; [subst; by rewrite Es|by rewrite Hd].
Qed.

(** ** Operations on memory *)

(** A client that is as [c], but for its own memory and history. *)
Lemma CI_update c a L m roots' m' h' :
  CI c -> sim (c_sys c) a -> ledgered (c_sys c) L -> Books a L m (c_history c) ->
  h_calls h' = h_calls (c_history c) -> h_drops h' = h_drops (c_history c) -> h_live h' = h_live (c_history c) ->
  (forall p st, h_status (c_history c) !! p = Some st -> booked st ->
     h_status h' !! p = Some st /\ forall f, fits f p m -> fits f p m') ->
  Core roots' m' h' -> CI (mkClient (c_sys c) roots' (Some m') h').
Proof.
  intros HCI Hsim HL HB Ec Ed El Hk HC. constructor; simpl; [apply HCI| |].
  - intros t. unfold drops_in. rewrite Ed. apply (ci_drops _ HCI).
  - exists a, L, m'. split; [done|]. split; [done|]. split; [done|]. split; [done|]. by eapply Books_keep.
Qed.

Lemma fits_insert f p q b m : q <> p -> fits f p m -> fits f p (<[q := b]> m).
Proof. intros Hq Hf E. destruct (Hf E) as [c Hc]. exists c. by rewrite lookup_insert_ne. Qed.

Lemma fits_store f p q nd m : fits f p m -> fits f p (store_node q nd m).
Proof.
  intros Hf E. destruct (Hf E) as [c Hc]. unfold store_node. destruct (decide (q = p)) as [->|Hq].
  - exists (Some nd). by rewrite lookup_alter_eq, Hc.
  - exists c. by rewrite lookup_alter_ne.
Qed.

(** A value is written where there is none. *)
Lemma CI_init c a L m p box nd :
  CI c -> sim (c_sys c) a -> ledgered (c_sys c) L -> Core (c_roots c) m (c_history c) -> Books a L m (c_history c) ->
  p <> 0 -> deref p m = None ->
  CI (with_memory c (Some (<[p := mkBlock box (Some nd)]> m)) (set_status (<[p := Private]>))).
Proof.
  intros HCI Hsim HL HC HB Hp0 Hd. assert (h_status (c_history c) !! p = None) as Hn.
  { destruct (h_status (c_history c) !! p) as [st|] eqn:E; [|done].
    destruct (proj1 (co_status _ _ _ HC p)) as [nd' Hnd]; [by rewrite E|congruence]. }
  eapply (CI_update c a L m); try done.
  - intros q st Hq Hb. assert (q <> p) as Hqp by congruence. simpl. rewrite lookup_insert_ne by done.
    split; [done|]. intros f. by apply fits_insert.
  - apply (Core_uncovered _ m _ (c_history c) _ p); try done; simpl.
    + by rewrite Hn.
    + by rewrite lookup_insert_eq.
    + intros q Hq. by rewrite lookup_insert_ne, deref_insert, decide_False.
    + rewrite lookup_insert_eq, deref_insert, decide_True by done. split; intros _; by eexists.
Qed.

(** A client drops an object that is its own. *)
Lemma CI_free c a L m f p :
  CI c -> sim (c_sys c) a -> ledgered (c_sys c) L -> Core (c_roots c) m (c_history c) -> Books a L m (c_history c) ->
  sole_owner (c_history c) p -> ready_made f = true -> fits f p m ->
  exists m', reclaim_with f p m = Some m' /\ CI (with_memory c (Some m') (set_status (delete p))).
Proof.
  intros HCI Hsim HL HC HB Hs Hf Hfit. unfold sole_owner in Hs.
  destruct (h_status (c_history c) !! p) as [st|] eqn:Hp; [|done].
  destruct (proj1 (co_status _ _ _ HC p)) as [nd Hnd]; [by rewrite Hp|].
  destruct (reclaim_with_defined f p m nd Hnd Hfit) as [m' Em]. exists m'. split; [done|].
  pose proof (reclaim_with_inv _ _ _ _ Hf Em) as Hd. eapply (CI_update c a L m); try done.
  - intros q st' Hq Hb. assert (q <> p) as Hqp. { intros ->. rewrite Hp in Hq. injection Hq as ->. by destruct st' as [| |X []|]. }
    simpl. rewrite lookup_delete_ne by done. split; [done|]. intros g. by eapply reclaim_with_fits.
  - apply (Core_uncovered _ m _ (c_history c) _ p); try done; simpl.
    + by eapply status_nonzero.
    + rewrite Hp. by destruct st as [| |X []|].
    + by rewrite lookup_delete_eq.
    + intros q Hq. by rewrite lookup_delete_ne, Hd, decide_False.
    + by rewrite lookup_delete_eq, Hd, decide_True.
Qed.

Lemma booked_share v h p st : h_status h !! p = Some st -> booked st -> h_status (share v h) !! p = Some st.
Proof. intros Hp Hb. apply share_kept; [|done]. by intros ->. Qed.

(** Unlinking and sharing are steps of the history. *)
Lemma CI_unlink c a L m p :
  CI c -> sim (c_sys c) a -> ledgered (c_sys c) L -> c_memory c = Some m -> Core (c_roots c) m (c_history c) ->
  Books a L m (c_history c) -> h_status (c_history c) !! p = Some Shared -> unreachable p m c ->
  CI (with_memory c (Some m) (fun h => set_status (<[p := Gone (h_live h) Unlinked]>) h)).
Proof.
  intros HCI Hsim HL Em HC HB Hp [Hr Hl]. eapply (CI_update c a L m); try done.
  - intros q st Hq Hb. split; [|done]. simpl. rewrite lookup_insert_ne; [done|]. intros <-. rewrite Hp in Hq. by injection Hq as <-.
  - apply Core_unlink; try done. intros q nd Hq Hs (b & Hb & Hc)%bind_Some. specialize (Hl q b Hb Hq Hs). by rewrite Hc in Hl.
Qed.

(** What an access reads, and that it is defined. *)
Lemma place_read c a L m t (xo : option gref) pl :
  Core (c_roots c) m (c_history c) -> Books a L m (c_history c) ->
  match pl with Root _ => True | Field p _ => may_follow t c xo p end ->
  read_place pl m c <> Some Panic /\
  forall v, read_place pl m c = Some (Ret v) -> ~ exclusive_place (c_history c) pl ->
    fine (c_history c) pl v /\
    match pl, xo with Field p _, Some x => covers (c_history c) x p | Field p _, None => False | _, _ => True end.
Proof.
  intros HC HB Hf. destruct pl as [n|p i]; simpl.
  - split; [done|]. intros v [= <-] _. split; [|by destruct xo]. unfold root. destruct (c_roots c !! n) as [v|] eqn:E; simpl; [|by left].
    by apply (co_roots _ _ _ HC n).
  - assert (is_Some (deref p m)) as [nd Hnd].
    { destruct Hf as [Ho|Hx]; [by eapply owned_deref|]. destruct xo as [x|]; [|done]. destruct Hx as [_ Hs].
      eapply covers_deref; [done|]. by apply (co_seen _ _ _ HC x p). }
    rewrite Hnd. split; [by destruct (node_links nd !! i)|]. intros v (v' & Hv & [= ->])%bind_Some Hne.
    destruct Hf as [Ho|Hx]; [done|]. destruct xo as [x|]; [|done]. destruct Hx as [_ Hs].
    destruct (co_seen _ _ _ HC x p Hs) as [_ Hc]. split; [|done]. unfold fine. destruct (decide (v = 0)); [by left|right].
    destruct (h_status (c_history c) !! p) as [st|] eqn:Est; [|unfold covers in Hc; by rewrite Est in Hc].
    apply (co_links _ _ _ HC p st nd v Est Hnd); [by eapply list_elem_of_lookup_2|done].
Qed.

Lemma atomic_loaded spurious acc v v' lr : atomic_run spurious acc v = Ret (v', lr) -> loaded lr = v.
Proof. destruct acc; simpl; repeat case_match; intros; simplify_eq; done. Qed.

(** The object of a place that others can load is covered by some guard. *)
Definition place_covered h pl : Prop :=
  match pl with Root _ => True | Field p _ => exists x, covers h x p end.

(** What is at such a place can be shared, and is fine there again. *)
Lemma fine_storable roots m h pl v : Core roots m h -> fine h pl v -> place_covered h pl -> h_status h !! v <> Some Private.
Proof.
  intros HC [->|Hf] Hx; [by rewrite (co_null _ _ _ HC)|]. destruct pl as [n|p i]; [by rewrite Hf|].
  destruct Hx as [x Hx]. intros Hv. assert (covers h x v) as Hc; [|unfold covers in Hc; by rewrite Hv in Hc].
  destruct (decide (v = 0)) as [->|Hv0]; [by rewrite (co_null _ _ _ HC) in Hv|].
  apply (fine_covers h (Field p i)); [by right|done|done].
Qed.

Lemma written_fine roots m h pl v v' :
  Core roots m h -> fine h pl v -> place_covered h pl -> ~ exclusive_place h pl -> v' = v \/ storable v' m h ->
  Core roots m (share v' h) /\ fine (share v' h) pl v'.
Proof.
  intros HC Hv Hx He [->|Hs].
  - rewrite share_same by (by eapply fine_storable). done.
  - split; [by apply Core_share|]. destruct (storable_shared _ _ _ Hs) as [|Hsh]; [by left|right].
    destruct pl as [n|p i]; [done|]. destruct Hx as [x Hx]. unfold covers in Hx.
    destruct (h_status h !! p) as [[| |X w|]|] eqn:E; try done.
    + by rewrite (share_shared v' h p E).
    + rewrite (share_kept v' h p (Gone X w) ltac:(done) E). intros y _. unfold covers. by rewrite Hsh.
Qed.

(** A write, at any place the client may access. *)
Lemma write_core c a L m pl v v' :
  Core (c_roots c) m (c_history c) -> Books a L m (c_history c) -> read_place pl m c = Some (Ret v) ->
  (~ exclusive_place (c_history c) pl -> fine (c_history c) pl v /\ place_covered (c_history c) pl /\
     (v' = v \/ storable v' m (c_history c))) ->
  exists roots' m', write_place pl v' m c = mkClient (c_sys c) roots' (Some m')
      (if decide (exclusive_place (c_history c) pl) then c_history c else share v' (c_history c)) /\
    Core roots' m' (if decide (exclusive_place (c_history c) pl) then c_history c else share v' (c_history c)) /\
    forall f p, fits f p m -> fits f p m'.
Proof.
  intros HC HB Hrd Hne. unfold write_place. set (h1 := if decide _ then _ else _).
  assert (Core (c_roots c) m h1 /\ fine h1 pl v') as [HC1 Hf1].
  { unfold h1. case_decide as He.
    - split; [done|]. destruct pl as [n|p i]; [done|]. right. simpl in He. unfold owned_by_one in He.
      destruct (h_status (c_history c) !! p) as [[]|]; done.
    - destruct (Hne He) as (Hv & Hx & Hs). by eapply written_fine. }
  destruct pl as [n|p i].
  - eexists _, m. split; [done|]. split; [by apply Core_write_root|done].
  - simpl in Hrd. destruct (deref p m) as [nd|] eqn:Hnd; [|done]. eexists _, _. split; [done|].
    split; [by apply Core_write_field|]. intros f q. apply fits_store.
Qed.

Lemma CI_access c c' a L m t (xo : option gref) spurious pl q ev :
  CI c -> sim (c_sys c) a -> ledgered (c_sys c) L -> Core (c_roots c) m (c_history c) -> Books a L m (c_history c) ->
  may_access t c xo spurious pl q m -> access_place t xo spurious pl q m c = Some (c', ev) -> CI c'.
Proof.
  intros HCI Hsim HL HC HB (Hu & Hp & Hs) E. set (h := c_history c) in *. unfold access_place in E.
  destruct (place_read c a L m t xo pl HC HB Hp) as [Hnp Hread]. apply bind_Some in E as (rd & Hrd & E).
  destruct rd as [v|]; [|done]. specialize (Hread v Hrd). rewrite Hrd in Hs.
  destruct (atomic_run spurious _ v) as [[v' lr]|] eqn:Ea; [|by injection E as <- _].
  pose proof (atomic_loaded _ _ _ _ _ Ea) as Elr. rewrite Elr in E.
  destruct (write_core c a L m pl v v' HC HB Hrd) as (roots' & m' & Ew & HC' & Hfit).
  { intros He. destruct (Hread He) as [Hf Hx]. split; [done|]. split; [|by apply Hs].
    destruct pl; [done|]. destruct xo as [x|]; [by exists x|done]. }
  cbv zeta in E. rewrite Ew in E. fold h in E, HC', Hs.
  assert (forall p st, h_status h !! p = Some st -> booked st ->
    h_status (if decide (exclusive_place h pl) then h else share v' h) !! p = Some st) as Hbk.
  { intros p st Hst Hb. case_decide; [done|by apply booked_share]. }
  assert (CI (mkClient (c_sys c) roots' (Some m') (if decide (exclusive_place h pl) then h else share v' h))) as Hc'.
  { eapply (CI_update c a L m); try done; try (by case_decide). intros p st Hst Hb. split; [by apply Hbk|]. intros f. apply Hfit. }
  destruct xo as [x|]; [|by injection E as <- _]. destruct (decide (exclusive_place h pl \/ v = 0)) as [Hd|Hd]; [by injection E as <- _|].
  injection E as <- _. simpl. assert (~ exclusive_place h pl /\ v <> 0) as [He Hv0] by tauto.
  rewrite decide_False in HC', Hbk |- * by done. destruct (Hread He) as [Hf Hx]. destruct Hu as [Hxl _].
  eapply (CI_update c a L m); try done.
  - intros p st Hst Hb. split; [by apply Hbk|]. intros f. apply Hfit.
  - apply Core_see; [done|done|]. apply share_covers. eapply fine_covers; [done..|by destruct pl].
Qed.

Lemma CI_do t o c c' ev : CI c -> clegal (KDo t o) c -> cstep (KDo t o) c = Some (c', ev) -> CI c'.
Proof.
  intros HCI Hl E. destruct (ci_client _ HCI) as (a & L & m & Hsim & HL & Em & HC & HB).
  simpl in Hl, E. destruct (at_client _); [|done]. unfold legal_do in Hl. unfold do_op in E. rewrite Em in Hl, E. simpl in E.
  destruct o as [p v ls|p|p v ls|x spurious pl q|x p|f p|p|p].
  - unfold box_new in E. destruct (m !! p) as [b|] eqn:Ep; [done|]. injection E as <- _.
    eapply CI_init; try done. unfold deref. by rewrite Ep.
  - unfold arena_new in E. destruct (m !! p) as [b|] eqn:Ep; [done|]. injection E as <- _.
    eapply (CI_update c a L m); try done.
    + intros q st Hq Hb. split; [done|]. intros f Hf Ef. destruct (Hf Ef) as [c0 Hc0]. exists c0.
      rewrite lookup_insert_ne; [done|]. intros ->. congruence.
    + assert (forall q, deref q (<[p := mkBlock false None]> m) = deref q m) as Hd.
      { intros q. rewrite deref_insert. case_decide; [subst; unfold deref; by rewrite Ep|done]. }
      constructor; try apply HC; intros q; rewrite ?Hd; apply HC.
  - unfold ptr_write in E. destruct (m !! p) as [[box [nd|]]|] eqn:Ep; try done. injection E as <- _.
    eapply CI_init; try done. unfold deref. by rewrite Ep.
  - by eapply CI_access.
  - destruct (deref p m) as [nd|] eqn:Hnd; [by injection E as <- _|]. exfalso.
    assert (is_Some (deref p m)) as [? ?]; [|congruence]. destruct Hl as [Ho|Hx]; [by eapply owned_deref|].
    destruct x as [x|]; [|done]. destruct Hx as [_ Hs]. eapply covers_deref; [done|]. by apply (co_seen _ _ _ HC x p).
  - destruct Hl as (Hs & Hf & Hfit). destruct (CI_free c a L m f p HCI Hsim HL HC HB Hs Hf Hfit) as (m' & Em' & HCI').
    rewrite Em' in E. by injection E as <- _.
  - injection E as <- _. eapply (CI_update c a L m); try done; [|by apply Core_share].
    intros q st Hq Hb. split; [by apply booked_share|done].
  - injection E as <- _. destruct Hl. by eapply CI_unlink.
Qed.

Lemma CI_csteps c tr c' : CI c -> csteps c tr c' -> CI c'.
Proof.
  intros HCI Hst. revert HCI. induction Hst as [c|c1 l c2 ev tr c3 Hl Hs Hst IH]; intros HCI; [done|].
  apply IH. destruct l as [l|t o]; [by eapply CI_lib|by eapply CI_do].
Qed.

Lemma CI_new strat cap (a0 a1 : A) (r0 : raw_state A) :
  strategy_ok strat -> in_usize cap -> in_usize batch_size -> collector_new strat cap a0 = Ret (a1, Ok r0) ->
  CI (client_new r0).
Proof.
  intros Hs Hc Hb E. pose proof (collector_new_threads _ _ _ _ _ E) as Et.
  assert (forall t, stack r0 t = []) as Es by (intros t; unfold stack; by rewrite Et).
  constructor; simpl; [by apply (GI_new plat _ _ _ _ _ _ Hs Hc Hb E)|intros t; by rewrite Es|].
  exists smr_init, ledger_init, ∅. split; [by apply sim_init; eapply collector_new_heap|].
  split; [by apply ledgered_init|]. split; [done|]. split; constructor; try done.
  - intros p. unfold deref. rewrite !lookup_empty. simpl. split; intros [? [=]].
  - by intros p f B ?%elem_of_nil.
  - constructor.
Qed.

(** A client that a run of the rules reaches, from a new collector and no
    memory. *)
Definition creachable c : Prop :=
  exists strat cap a0 a r0 tr, strategy_ok strat /\ in_usize cap /\ in_usize batch_size /\
    collector_new strat cap a0 = Ret (a, Ok r0) /\ csteps (client_new r0) tr c.

Lemma CI_creachable c : creachable c -> CI c.
Proof.
  intros (strat & cap & a0 & a & r0 & tr & Hs & Hc & Hb & E & Hst). eapply CI_csteps; [by apply (CI_new strat cap a0 a)|done].
Qed.

(** C5. Clients are memory safe. Take any number of threads that work on shared
    objects with atomic pointers, through guards, and that keep to the rules of
    the documentation: they follow only pointers that they loaded through a
    guard which is still alive, unlink an object before they retire it, and
    retire it once, with a reclaimer that fits its allocation. Then there is no
    undefined behaviour: no access and no reclaimer, [boxed] or [in_place],
    ever meets an object that was dropped or freed; each pointer loaded through
    a guard that is alive still points to an initialised object; and so does
    everything that those objects, and the shared variables, point to. *)
Theorem clients_are_safe c :
  creachable c ->
  exists m, c_memory c = Some m /\
    (forall x, x ∈ h_live (c_history c) <-> alive (c_sys c) x) /\
    (forall x p, p ∈ seen_by (c_history c) x -> alive (c_sys c) x /\
       exists nd, deref p m = Some nd /\ forall v, v ∈ node_links nd -> v <> 0 -> is_Some (deref v m)) /\
    (forall n, root c n <> 0 -> is_Some (deref (root c n) m)).
Proof.
  intros [_ _ (a & L & m & [HCl _] & _ & Em & HC & HB)]%CI_creachable. exists m. split; [done|].
  assert (forall x, x ∈ h_live (c_history c) <-> alive (c_sys c) x) as Hlive.
  { intros x. rewrite (bo_live _ _ _ _ HB), (cl_live _ _ _ HCl). split; [by intros [? _]|].
    intros Ha. split; [done|]. by intros ? ? ?%elem_of_nil. }
  split; [done|]. split.
  - intros x p Hp. destruct (co_seen _ _ _ HC x p Hp) as [Hx Hc]. split; [by apply Hlive|].
    destruct (covers_deref _ _ _ _ _ HC Hc) as [nd Hnd]. exists nd. split; [done|]. intros v Hv Hv0.
    destruct (proj2 (co_status _ _ _ HC p)) as [st Hst]; [by rewrite Hnd|].
    eapply covers_deref; [done|]. apply (fine_covers _ (Field p 0) v x); [|done|done].
    right. rewrite Hst. by eapply co_links.
  - intros n Hn. apply (co_status _ _ _ HC). unfold root in *. destruct (c_roots c !! n) as [v|] eqn:E; [|done].
    destruct (co_roots _ _ _ HC n v E) as [->|Hv]; [done|]. simpl. rewrite Hv. by eexists.
Qed.
End ClientSafe.
