(* ===== verification/ClientEffect.v ===== *)
(** * What a step of the library leaves to its clients

    A client with memory that reasons about one of its operations has to know
    what the steps of other threads, and of the library, leave alone: the guards
    in use, the objects that are its own, shared, or covered by its guards, and
    what they contain. *)

From stdpp Require Import prelude list gmap.
From S2P Require Import Prelude Alloc ThreadId Membarrier Tls RawData RawStep Guard GuardInv GuardRefine GuardSafe GuardRetire GuardSpec Collector Reclaim Client ClientInv ClientSafe.

Open Scope Z_scope.

(** ** Histories *)

(** From [h] to [h'] the guards [G] ended, and the objects [P] were given to the
    library. *)
Record hist_kept (G : gset gref) (P : Z -> Prop) (h h' : history) : Prop := {
  hk_live x : x ∈ h_live h -> x ∉ G -> x ∈ h_live h';
  hk_seen x : x ∉ G -> seen_by h' x = seen_by h x;
  hk_status p st : h_status h !! p = Some st ->
    match st with
    | Gone X w =>
        (exists X' w', h_status h' !! p = Some (Gone X' w') /\ X ∖ G ⊆ X' /\ (w = Unlinked -> ~ P p -> w' = Unlinked)) \/
        (X ⊆ G /\ (w = Unlinked -> P p))
    | _ => h_status h' !! p = Some st
    end;
  hk_shared p : h_status h' !! p = Some Shared -> h_status h !! p = Some Shared
}.

Lemma hist_kept_refl P h : hist_kept ∅ P h h.
Proof.
  constructor; try done. intros p [| |X w|] Hp; try done. left. exists X, w. split; [done|]. split; [set_solver|done].
Qed.

Lemma hist_kept_trans G P `{dP : forall p, Decision (P p)} h1 h2 h3 : hist_kept G P h1 h2 -> hist_kept ∅ P h2 h3 -> hist_kept G P h1 h3.
Proof.
  intros H1 H2. constructor.
  - intros x Hx HG. apply (hk_live _ _ _ _ H2); [by apply (hk_live _ _ _ _ H1)|set_solver].
  - intros x HG. rewrite (hk_seen _ _ _ _ H2) by set_solver. by apply (hk_seen _ _ _ _ H1).
  - intros p st Hp. pose proof (hk_status _ _ _ _ H1 p st Hp) as Hs1. destruct st as [| |X w|t n];
      try (by apply (hk_status _ _ _ _ H2 p) in Hs1).
    destruct Hs1 as [(X' & w' & Hp' & HX & Hw)|Hs1]; [|by right].
    destruct (hk_status _ _ _ _ H2 p _ Hp') as [(X'' & w'' & Hp'' & HX' & Hw')|[HX' Hw']].
    + left. exists X'', w''. split; [done|]. split; [set_solver|]. auto.
    + right. split; [set_solver|]. intros ->. destruct (decide (w' = Unlinked)) as [->|Hne]; [by apply Hw'|].
      destruct (dP p) as [|Hn]; [done|]. by destruct Hne, Hw.
  - intros p Hp. by apply (hk_shared _ _ _ _ H1), (hk_shared _ _ _ _ H2).
Qed.

(** Unlinked objects move on, others stay. *)
Lemma hist_kept_alter P h h' q w :
  h_live h ⊆ h_live h' -> h_seen h' = h_seen h -> h_status h' = alter (move w) q (h_status h) ->
  w = Unlinked \/ (forall X, h_status h !! q <> Some (Gone X Unlinked)) -> hist_kept ∅ P h h'.
Proof.
  intros Hl Es Est Hw. constructor.
  - intros x Hx _. by apply Hl.
  - intros x _. unfold seen_by. by rewrite Es.
  - intros p st Hp. rewrite Est. destruct (decide (p = q)) as [->|Hpq].
    + rewrite lookup_alter_eq, Hp. destruct st as [| |X w'|]; simpl; try done. left. exists X, w.
      split; [done|]. split; [set_solver|]. intros -> _. destruct Hw as [|Hn]; [done|]. by destruct (Hn X).
    + rewrite lookup_alter_ne by done. destruct st as [| |X w'|]; try done. left. exists X, w'. split; [done|]. split; [set_solver|done].
  - intros p. rewrite Est. destruct (decide (p = q)) as [->|Hpq]; [|by rewrite lookup_alter_ne].
    rewrite lookup_alter_eq. destruct (h_status h !! q) as [[]|]; simpl; congruence.
Qed.

Lemma hist_kept_same P h h' : h_live h ⊆ h_live h' -> h_seen h' = h_seen h -> h_status h' = h_status h -> hist_kept ∅ P h h'.
Proof.
  intros Hl Es Est. constructor.
  - intros x Hx _. by apply Hl.
  - intros x _. unfold seen_by. by rewrite Es.
  - intros p st Hp. rewrite Est. destruct st as [| |X w'|]; try done. left. exists X, w'. split; [done|]. split; [set_solver|done].
  - intros p. by rewrite Est.
Qed.

Lemma hist_kept_call t o h : hist_kept (released o) (fun p => fst <$> retires o = Some p) h (h_call t o h).
Proof.
  constructor.
  - intros x Hx HG. simpl. set_solver.
  - intros x HG. unfold seen_by, h_call; simpl. destruct (h_seen h !! x) as [S|] eqn:E.
    + by rewrite (map_lookup_filter_Some_2 _ _ _ _ E).
    + by rewrite map_lookup_filter_None_2 by auto.
  - intros p st Hp. rewrite h_call_status, Hp. destruct st as [| |X w|]; simpl; try (by case_decide). left.
    case_decide as Hd; simpl; eexists _, _; (split; [done|]); (split; [done|]); [by intros _ ?|done].
  - intros p. rewrite h_call_status. destruct (h_status h !! p) as [[]|]; simpl; try case_decide; simpl; done.
Qed.

(** ** Events *)

Lemma hist_kept_event a L roots m h e a' L' P :
  Core roots m h -> Books a L m h -> smr_step a e a' -> ledger_step L e L' -> (forall t o, e <> GCall t o) ->
  hist_kept ∅ P h (h_event e h).
Proof.
  intros HC HB Ha HL Hno. destruct Ha as [t o a|t r o' os' a Hcs|t p f a|t p f a l Hpe|e a He].
  - by destruct (Hno t o).
  - unfold h_event, h_done. destruct (calls_in h t) as [|o os]; [apply hist_kept_refl|].
    destruct (retires o) as [[p f]|]; [case_decide|].
    + apply hist_kept_same; simpl; [set_solver|done|done].
    + apply (hist_kept_alter _ _ _ p Unlinked); simpl; [set_solver|done|done|by left].
    + apply hist_kept_same; simpl; [set_solver|done|done].
  - inversion HL as [|t' p' f' o os Et Hr| |e He]; subst; [|done].
    destruct (bo_offered _ _ _ _ HB t (length os) o p f) as (X & Hp & Hf); [|done|].
    { rewrite Et. apply reverse_cons_lookup. by right. }
    apply (hist_kept_alter _ _ _ p Retired); [done|done|done|right]. intros Y. congruence.
  - destruct (Books_reclaim _ _ _ _ t _ _ _ HB Hpe) as [Hp _]. simpl.
    assert (forall q, q <> p -> h_status (h_reclaim t p f h) !! q = h_status h !! q) as Hne
      by (intros q Hq; simpl; by rewrite lookup_insert_ne).
    constructor; [done|done| |].
    + intros q st Hq. destruct (decide (q = p)) as [->|Hqp].
      * rewrite Hp in Hq. injection Hq as <-. right. split; [set_solver|done].
      * rewrite Hne by done. destruct st as [| |X w|]; try done. left. exists X, w. split; [done|]. split; [set_solver|done].
    + intros q. destruct (decide (q = p)) as [->|Hqp]; [|by rewrite Hne]. simpl. rewrite lookup_insert_eq. by destruct (ready_made f).
  - destruct e; try done; apply hist_kept_refl.
Qed.

Lemma hist_kept_events a L roots m h ev a' L' P `{forall p, Decision (P p)} :
  Core roots m h -> Books a L m h -> smr_steps a ev a' -> ledger_steps L ev L' -> no_call ev ->
  hist_kept ∅ P h (h_events h ev).
Proof.
  intros HC HB Ha. revert L h HC HB. induction Ha as [a|a1 e a2 tr a3 Ha1 Ha IH]; intros L h HC HB HL Hno.
  - apply hist_kept_refl.
  - inversion HL as [|L1 e' L2 tr' L3 HL1 HL2]; subst.
    assert (forall t o, e <> GCall t o) as Hne by (intros t o ->; apply (Hno t o); by left).
    pose proof (hist_kept_event _ _ _ _ _ _ _ _ P HC HB Ha1 HL1 Hne) as Hk.
    destruct (client_event _ _ _ _ _ _ _ _ HC HB Ha1 HL1) as [HC' HB'].
    + intros t o p f -> _. by destruct (Hne t o).
    + simpl. apply (hist_kept_trans _ _ _ (h_event e h)); [done|]. apply (IH L2); try done. intros t o Hin. apply (Hno t o). by right.
Qed.

(** A thread without calls has none until it makes one. *)
Lemma calls_event e h t : (forall o, e <> GCall t o) -> calls_in h t = [] -> calls_in (h_event e h) t = [].
Proof.
  intros Hno Hc. destruct e as [t' o|[]|t' v]; try done.
  - simpl. unfold h_call. erewrite calls_in_insert by done. case_decide as Ht; [subst; by destruct (Hno o)|done].
  - simpl. unfold h_done. destruct (calls_in h t') as [|o os] eqn:E; [done|].
    erewrite calls_in_insert by done. case_decide; [congruence|done].
Qed.

Lemma calls_events ev h t : (forall o, GCall t o ∉ ev) -> calls_in h t = [] -> calls_in (h_events h ev) t = [].
Proof.
  revert h. induction ev as [|e ev IH]; intros h Hno Hc; [done|]. simpl. apply IH.
  - intros o Ho. apply (Hno o). by right.
  - apply calls_event; [|done]. intros o ->. apply (Hno o). by left.
Qed.

Section ClientEffect.
Context {A : Type} `{Allocator A} `{BoxVec A} `{!BoxVecLaws A}.
Context `{EntryLayout Reservation} `{EntryLayout LocalBatch}.
Variables (plat : Platform) (batch_size : Z).

Abbreviation cstate := (client A).
Abbreviation GI := (GI plat batch_size).
Abbreviation gstep := (gstep plat batch_size).
Abbreviation cstep := (cstep plat batch_size).
Abbreviation CI := (CI plat batch_size).
Implicit Types (s : guard_state A) (c : cstate) (t : nat) (x : gref) (h : history) (m : memory).

(** ** Steps *)

(** Objects [p] that a step has for itself are [P p], and it ends the guards
    [G]; to everybody else it leaves the guards, their objects, and what they
    contain. *)
Record undisturbed (G : gset gref) (P : Z -> Prop) c m c' m' : Prop := {
  un_usable t x : x ∉ G -> usable t c x -> usable t c' x;
  un_seen x : x ∉ G -> seen_by (c_history c) x ⊆ seen_by (c_history c') x;
  un_private p : ~ P p -> h_status (c_history c) !! p = Some Private ->
    h_status (c_history c') !! p = Some Private /\ deref p m' = deref p m;
  un_shared p : ~ P p -> h_status (c_history c) !! p = Some Shared ->
    h_status (c_history c') !! p = Some Shared /\ deref p m' = deref p m;
  un_unlinked p X : ~ P p -> h_status (c_history c) !! p = Some (Gone X Unlinked) ->
    (exists X', h_status (c_history c') !! p = Some (Gone X' Unlinked)) /\ deref p m' = deref p m;
  un_covered x p : x ∉ G -> covers (c_history c) x p -> deref p m' = deref p m
}.

(** The guards and the objects of a step of the library. *)
Definition ended (l : glabel) : gset gref := match l with GOp _ o => released o | _ => ∅ end.
Definition taken (l : glabel) (p : Z) : Prop := match l with GOp _ o => fst <$> retires o = Some p | _ => False end.

#[export] Instance taken_dec l p : Decision (taken l p).
Proof. destruct l; unfold taken; apply _. Defined.

Lemma given_up x o : gives_up x o -> x ∈ released o.
Proof. intros [->|[mem ->]]; simpl; set_solver. Qed.

Lemma can_name_kept s s' t x : guard_info s' x = guard_info s x -> can_name t s x -> can_name t s' x.
Proof.
  destruct x as [g|g]; simpl.
  - intros E (lg & Hg & <-). rewrite Hg in E. destruct (locals s' !! g) as [lg'|]; [|done].
    simpl in E. exists lg'. split; [done|]. congruence.
  - intros E [og Hg]. rewrite Hg in E. destruct (owneds s' !! g); [by eexists|done].
Qed.

(** A guard in use stays the guard that it is. *)
Lemma name_kept l s s' ev t x :
  GI None s -> glegal_label l s -> gstep l s = Some (s', ev) -> alive s x -> x ∉ ended l -> can_name t s x -> can_name t s' x.
Proof.
  intros HI Hl Hst Ha HG. destruct (alive_slot s x Ha) as [r Hx]. apply can_name_kept.
  apply (alive_gstep_info plat batch_size l s s' ev x r); try done.
  intros t' o Hin Hg%given_up. destruct (gstep_events _ _ _ _ _ _ HI Hst) as [_ Hev]. destruct l; try (by destruct (Hev t' o)).
  - destruct Hev as (ev' & -> & Hno & _). apply elem_of_cons in Hin as [[= <- <-]|Hin]; [done|]. by destruct (Hno t' o).
  - subst ev. by apply elem_of_nil in Hin.
Qed.

(** From the history to the client. *)
Lemma kept_undisturbed G P c m c' m' :
  hist_kept G P (c_history c) (c_history c') ->
  (forall t x, x ∉ G -> usable t c x -> can_name t (c_sys c') x) ->
  (forall p st, h_status (c_history c) !! p = Some st ->
     match st with Dropping _ _ => True | _ => False end \/ deref p m' = deref p m) ->
  undisturbed G P c m c' m'.
Proof.
  intros Hk Hn Hm. constructor.
  - intros t x HG Hu. split; [|by apply Hn]. apply (hk_live _ _ _ _ Hk); [apply Hu|done].
  - intros x HG. by rewrite (hk_seen _ _ _ _ Hk).
  - intros p HP Hp. split; [by apply (hk_status _ _ _ _ Hk p _ Hp)|]. by destruct (Hm p _ Hp).
  - intros p HP Hp. split; [by apply (hk_status _ _ _ _ Hk p _ Hp)|]. by destruct (Hm p _ Hp).
  - intros p X HP Hp. destruct (Hm p _ Hp) as [|Hd]; [done|]. split; [|done].
    destruct (hk_status _ _ _ _ Hk p _ Hp) as [(X' & w' & -> & _ & Hw)|[_ Hw]]; [|by destruct (HP (Hw eq_refl))].
    exists X'. by rewrite Hw.
  - intros x p HG Hc. unfold covers in Hc. destruct (h_status (c_history c) !! p) as [st|] eqn:Hp; [|done].
    destruct (Hm p _ Hp) as [Hst|]; [|done]. by destruct st.
Qed.

(** A step of the library. *)
Record library_step (l : glabel) c m c' m' : Prop := {
  ls_memory : c_memory c' = Some m';
  ls_roots : c_roots c' = c_roots c;
  ls_undisturbed : undisturbed (ended l) (taken l) c m c' m';
  ls_shared p : h_status (c_history c') !! p = Some Shared -> h_status (c_history c) !! p = Some Shared;
  ls_boxes : (forall p b, m !! p = Some b -> in_box b = true) -> forall p b, m' !! p = Some b -> in_box b = true;
  ls_values p nd : deref p m' = Some nd -> deref p m = Some nd;
  ls_calls t : (forall o, l <> GOp t o) -> calls_in (c_history c) t = [] -> calls_in (c_history c') t = []
}.

Lemma reclaim_with_boxes f p m m' : reclaim_with f p m = Some m' ->
  (forall q b, m !! q = Some b -> in_box b = true) -> forall q b, m' !! q = Some b -> in_box b = true.
Proof.
  unfold reclaim_with, boxed, in_place, box_drop, drop_in_place. intros E Hb q b.
  destruct (m !! p) as [[[] [nd|]]|] eqn:Ep; repeat case_decide; simplify_eq; try apply Hb.
  - intros [_ Hq]%lookup_delete_Some. by eapply Hb.
  - intros [[<- <-]|[_ Hq]]%lookup_insert_Some; [done|by eapply Hb].
  - by apply Hb in Ep.
Qed.

Lemma ready_made_drop roots a L m h t p f ds :
  Core roots m h -> Books a L m h -> drops_in h t = (p, f) :: ds -> ready_made f = true ->
  exists n, h_status h !! p = Some (Dropping t n).
Proof.
  intros HC HB Ed Hf. exists (length ds). apply (bo_drops _ _ _ _ HB t (length ds) p f); [|done].
  rewrite Ed. apply reverse_cons_lookup. by right.
Qed.

(** A reclaimer returns. *)
Lemma return_undisturbed c m s' t p f ds a L m' :
  Core (c_roots c) m (c_history c) -> Books a L m (c_history c) -> drops_in (c_history c) t = (p, f) :: ds ->
  (if ready_made f then reclaim_with f p m else Some m) = Some m' ->
  (forall t x, usable t c x -> can_name t s' x) ->
  undisturbed ∅ (fun _ => False) c m (mkClient s' (c_roots c) (Some m') (h_return t (c_history c))) m' /\
  forall q, h_status (h_return t (c_history c)) !! q = Some Shared -> h_status (c_history c) !! q = Some Shared.
Proof.
  intros HC HB Ed Em Hn. set (h := c_history c) in *.
  assert (h_live (h_return t h) = h_live h /\ h_seen (h_return t h) = h_seen h) as [El Es] by (unfold h_return; by rewrite Ed).
  assert (forall q, h_status (h_return t h) !! q = if decide (q = p /\ ready_made f = true) then None else h_status h !! q) as Est.
  { intros q. unfold h_return. rewrite Ed. simpl. destruct (ready_made f); case_decide as Hd; try tauto.
    - destruct Hd as [-> _]. by rewrite lookup_delete_eq.
    - rewrite lookup_delete_ne; [done|]. intros ->. by destruct Hd.
    - by destruct Hd. }
  assert (forall q, ready_made f = true -> q <> p -> deref q m' = deref q m) as Hd.
  { intros q Hf Hq. rewrite Hf in Em. rewrite (reclaim_with_inv _ _ _ _ Hf Em q). by rewrite decide_False. }
  assert (forall q st, h_status h !! q = Some st -> match st with Dropping _ _ => True | _ => False end \/ (h_status (h_return t h) !! q = Some st /\ deref q m' = deref q m)) as Hq.
  { intros q st Hq. destruct (ready_made f) eqn:Hf.
    - destruct (decide (q = p)) as [->|Hqp].
      + left. destruct (ready_made_drop _ _ _ _ _ _ _ _ _ HC HB Ed Hf) as [n Hp]. fold h in Hp. rewrite Hp in Hq. by injection Hq as <-.
      + right. rewrite Est, decide_False by (by intros [? _]). split; [done|by apply Hd].
    - right. rewrite Est, decide_False by (by intros [_ [=]]). by injection Em as <-. }
  assert (forall q, h_status (h_return t h) !! q = Some Shared -> h_status h !! q = Some Shared) as Hsh.
  { intros q. rewrite Est. destruct (decide _); [intros [=]|done]. }
  split; [|done]. constructor; simpl.
  - intros t' x _ [Hx Hu]. split; [simpl; by rewrite El|]. by apply Hn.
  - intros x _. unfold seen_by. by rewrite Es.
  - intros q _ Hp. by destruct (Hq q _ Hp).
  - intros q _ Hp. by destruct (Hq q _ Hp).
  - intros q X _ Hp. destruct (Hq q _ Hp) as [|[? ?]]; [done|]. split; [by exists X|done].
  - intros x q _ Hc. unfold covers in Hc. destruct (h_status (c_history c) !! q) as [st|] eqn:Hp; [|done].
    destruct (Hq q st Hp) as [Hst|[_ ?]]; [by destruct st|done].
Qed.

(** The history of a step. *)
Lemma lib_kept l s s' ev h roots m a L :
  GI None s -> glegal_label l s -> gstep l s = Some (s', ev) -> sim s a -> ledgered s L ->
  Core roots m h -> Books a L m h ->
  (forall t o p f, l = GOp t o -> retires o = Some (p, f) ->
     exists X, h_status h !! p = Some (Gone X Unlinked) /\ fits f p m) ->
  hist_kept (ended l) (taken l) h (h_events h ev) /\
  forall t, (forall o, l <> GOp t o) -> calls_in h t = [] -> calls_in (h_events h ev) t = [].
Proof.
  intros HI Hl Hst Hsim HL HC HB Hr.
  destruct (sim_gstep _ _ _ _ _ _ _ HI Hl Hst Hsim) as (a' & Ha & _).
  destruct (ledger_gstep _ _ _ _ _ _ _ HI Hl Hst HL) as (L' & HLs & _).
  destruct (gstep_events _ _ _ _ _ _ HI Hst) as [_ Hev]. split.
  - destruct l as [t o|t|t|t|r|sys x86|ro]; try (by eapply hist_kept_events; try apply taken_dec); [|subst ev; apply hist_kept_refl].
    destruct Hev as (ev' & -> & Hno & _). inversion Ha as [|a1 e a2 tr a3 Ha1 Ha2]; subst.
    inversion HLs as [|L1 e' L2 tr' L3 HL1 HL2]; subst.
    destruct (client_event _ _ _ _ _ _ _ _ HC HB Ha1 HL1) as [HC' HB'].
    { intros t' o' p f [= <- <-]. by apply (Hr t o). }
    apply (hist_kept_trans (released o) (taken (GOp t o)) h (h_call t o h)); [apply hist_kept_call|].
    apply (hist_kept_events a2 L2 roots m (h_call t o h) ev' a' L'); try done. intros p. apply taken_dec.
  - intros t Hno. apply calls_events. intros o Hin. destruct l as [t' o'|t'|t'|t'|r|sys x86|ro]; try (by apply (Hev t o)).
    + destruct Hev as (ev' & -> & Hno' & _). apply elem_of_cons in Hin as [[= <- <-]|Hin]; [by apply (Hno o)|by apply (Hno' t o)].
    + subst ev. by apply elem_of_nil in Hin.
Qed.

Lemma usable_name l c s' ev t x :
  CI c -> glegal_label l (c_sys c) -> gstep l (c_sys c) = Some (s', ev) -> x ∉ ended l -> usable t c x -> can_name t s' x.
Proof.
  intros [HI _ (a & L & m & [HCl _] & _ & _ & _ & HB)] Hl Hst HG [Hx Hn].
  eapply name_kept; try done. rewrite (bo_live _ _ _ _ HB) in Hx. by apply (cl_live _ _ _ HCl) in Hx as [? _].
Qed.

Lemma lib_undisturbed l c m c' ev :
  CI c -> clegal (KSys l) c -> cstep (KSys l) c = Some (c', ev) -> c_memory c = Some m ->
  exists m', library_step l c m c' m'.
Proof.
  intros HCI [Hl Hr] E Em. pose proof HCI as [HI Hd (a & L & m0 & Hsim & HL & Em' & HC & HB)].
  rewrite Em in Em'. injection Em' as <-. simpl in E. unfold lib_step in E.
  apply bind_Some in E as ([s' ev0] & Est & E).
  destruct (lib_kept l _ s' ev0 (c_history c) _ m a L HI Hl Est Hsim HL HC HB) as [Hk Hcalls].
  { intros t o p f -> Ho. simpl in Hr. unfold legal_retire in Hr. rewrite Ho, Em in Hr.
    destruct (h_status (c_history c) !! p) as [[| |X []|]|]; try done. by exists X. }
  pose proof (fun t x => usable_name l c s' ev0 t x HCI Hl Est) as Hn.
  assert (match l with GReturn _ => False | _ => True end ->
    library_step l c m (mkClient s' (c_roots c) (c_memory c) (h_events (c_history c) ev0)) m) as Hplain.
  { intros Hnr. constructor; simpl; try done; [|by apply (hk_shared _ _ _ _ Hk)].
    apply kept_undisturbed; simpl; [done|done|by right]. }
  destruct (gstep_events _ _ _ _ _ _ HI Est) as [_ Hev].
  destruct l as [t o|t|t|t|r|sys x86|ro]; try (injection E as <- <-; exists m; by apply Hplain). subst ev0. clear Hplain.
  pose proof Est as Est'. simpl in Est'. destruct (stack (raw (c_sys c)) t) as [|fr st] eqn:Es; [done|].
  destruct fr as [| | | | | | | | | | | | | | |p f| | | |]; try done. rewrite Em in E. simpl in E. injection E as <- <-.
  assert (drops_in (c_history c) t = (p, f) :: reclaiming st) as Edt by (by rewrite Hd, Es).
  destruct (lib_return _ _ _ _ _ t p f _ HC HB Edt) as (m' & Em' & _ & _).
  destruct (return_undisturbed c m s' t p f _ a L m' HC HB Edt Em') as [Hu Hsh].
  { intros t' x. apply Hn. set_solver. }
  exists m'. rewrite Em'. constructor; simpl; try done.
  - intros Hb. destruct (ready_made f); [by eapply reclaim_with_boxes|by injection Em' as <-].
  - intros q nd. destruct (ready_made f) eqn:Hf; [|by injection Em' as <-].
    rewrite (reclaim_with_inv _ _ _ _ Hf Em' q). by case_decide.
  - intros t' _ Hc. unfold h_return. rewrite Edt. done.
Qed.

(** A thread is in client code exactly if it has no call. *)
Lemma calls_stack c t : CI c -> calls_in (c_history c) t = [] <-> stack (raw (c_sys c)) t = [].
Proof.
  intros [HI _ (a & L & m & _ & HL & _ & _ & HB)]. rewrite (bo_calls _ _ _ _ HB), (kept_ops _ _ _ _ (HL t)).
  destruct (gi_stacks _ _ _ _ HI t) as [|fs rest w ws Hs _ _ _]; [done|]. split; [done|]. intros [E _]%app_eq_nil.
  destruct (section_cons _ Hs) as (f & fs' & ->). done.
Qed.
End ClientEffect.
