(* ===== verification/ClientExec.v ===== *)
(** * Running clients

    Executable runs of clients with memory that check the rules at every step,
    and that they are runs in the sense of the theorems. *)

From stdpp Require Import prelude list gmap.
From S2P Require Import Prelude Alloc ThreadId Membarrier Tls RawData RawStep Guard GuardExec GuardRetire GuardSpec Collector Reclaim Client.

Open Scope Z_scope.

#[export] Instance good_links_dec h p nd : Decision (good_links h p nd).
Proof. unfold good_links. apply _. Defined.

#[export] Instance storable_dec v m h : Decision (storable v m h).
Proof.
  unfold storable. destruct (decide (v = 0)); [left; by left|].
  destruct (h_status h !! v) as [[]|]; destruct (deref v m) as [nd|];
    first [left; by right | right; by intros [] | idtac].
  destruct (decide (good_links h v nd)); [left; by right|right; by intros []].
Defined.

#[export] Instance fits_dec f p m : Decision (fits f p m).
Proof.
  unfold fits. destruct (decide (f = BOXED)) as [Hf|Hf]; [|left; done].
  destruct (m !! p) as [[[] c]|]; [left; eauto|right|right]; intros Hc; by destruct (Hc Hf).
Defined.

#[export] Instance sole_owner_dec h p : Decision (sole_owner h p).
Proof. unfold sole_owner. destruct (h_status h !! p) as [[| |X []|]|]; apply _. Defined.

Section ClientExec.
Context {A : Type} `{Allocator A} `{BoxVec A}.
Context `{EntryLayout Reservation} `{EntryLayout LocalBatch}.
Variables (plat : Platform) (batch_size : Z).

Abbreviation cstate := (client A).
Abbreviation cstep := (cstep plat batch_size).
Abbreviation csteps := (csteps plat batch_size).
Implicit Types (c : cstate) (t : nat).

#[export] Instance usable_dec t c x : Decision (usable t c x).
Proof. unfold usable. apply _. Defined.

#[export] Instance may_follow_dec t c xo p : Decision (may_follow t c xo p).
Proof. unfold may_follow. destruct xo; apply _. Defined.

#[export] Instance may_access_dec t c xo spurious pl q m : Decision (may_access t c xo spurious pl q m).
Proof.
  unfold may_access. apply and_dec; [destruct xo; apply _|]. apply and_dec; [destruct pl; apply _|].
  apply impl_dec; [apply _|]. destruct (read_place pl m c) as [[v|]|]; try apply _.
  destruct (atomic_run _ _ v) as [[v' r]|]; apply _.
Defined.

#[export] Instance unreachable_dec p m c : Decision (unreachable p m c).
Proof.
  unfold unreachable. apply and_dec; [apply _|]. refine (map_Forall_dec _ _). intros q b.
  destruct (contents b); apply _.
Defined.

#[export] Instance legal_do_dec t o c : Decision (legal_do t o c).
Proof. unfold legal_do. destruct (c_memory c); [destruct o; apply _|apply _]. Defined.

#[export] Instance legal_retire_dec o c : Decision (legal_retire o c).
Proof.
  unfold legal_retire. destruct (retires o) as [[p f]|]; [|apply _]. destruct (c_memory c) as [m|]; [|apply _].
  destruct (h_status (c_history c) !! p) as [[| |X []|]|]; apply _.
Defined.

#[export] Instance clegal_dec l c : Decision (clegal l c).
Proof. destruct l as [l|t o]; simpl; [destruct l; apply _|apply _]. Defined.

(** A step within the rules. *)
Definition cchecked (l : clabel) c : option (cstate * list cevent) :=
  if decide (clegal l c) then cstep l c else None.

(** Run one thread until its stack is empty. *)
Fixpoint csettle (fuel t : nat) c : option (cstate * list cevent) :=
  match stack (raw (c_sys c)) t with
  | [] => Some (c, [])
  | fr :: _ =>
      match fuel with
      | O => None
      | S fuel =>
          '(c1, ev) ← cchecked (KSys (match fr with FReclaim _ _ => GReturn t | _ => GRun t end)) c;
          '(c2, tr) ← csettle fuel t c1;
          Some (c2, ev ++ tr)
      end
  end.

(** A script: calls run to completion, operations on memory, single steps. *)
Inductive ccommand :=
| CCall (t : nat) (o : gop)
| CMem (t : nat) (o : kop)
| CStep (l : glabel).

Definition ccommand_run (fuel : nat) (cmd : ccommand) c : option (cstate * list cevent) :=
  match cmd with
  | CCall t o =>
      '(c1, ev) ← cchecked (KSys (GOp t o)) c;
      '(c2, tr) ← csettle fuel t c1;
      Some (c2, ev ++ tr)
  | CMem t o => cchecked (KDo t o) c
  | CStep l => cchecked (KSys l) c
  end.

Fixpoint cscript (fuel : nat) (cs : list ccommand) c : option (cstate * list cevent) :=
  match cs with
  | [] => Some (c, [])
  | cmd :: cs =>
      '(c1, ev) ← ccommand_run fuel cmd c;
      '(c2, tr) ← cscript fuel cs c1;
      Some (c2, ev ++ tr)
  end.

Lemma csteps_trans c1 tr1 c2 tr2 c3 : csteps c1 tr1 c2 -> csteps c2 tr2 c3 -> csteps c1 (tr1 ++ tr2) c3.
Proof.
  intros H12 H23. induction H12 as [c|c1 l c2 ev tr c4 Hl Hs H12 IH]; [done|].
  rewrite <-(assoc_L (++)). econstructor; eauto.
Qed.

Lemma cchecked_steps l c c' ev : cchecked l c = Some (c', ev) -> csteps c ev c'.
Proof.
  unfold cchecked. case_decide as Hl; [|done]. intros Hs. rewrite <-(app_nil_r ev). econstructor; [done..|constructor].
Qed.

Lemma csettle_steps fuel t c c' tr : csettle fuel t c = Some (c', tr) -> csteps c tr c'.
Proof.
  revert c tr. induction fuel as [|fuel IH]; intros c tr; simpl.
  - destruct (stack (raw (c_sys c)) t); intros; simplify_eq; constructor.
  - destruct (stack (raw (c_sys c)) t) as [|fr rest]; [intros [= -> <-]; constructor|].
    intros ([c1 ev] & E1 & ([c2 tr2] & E2 & [= -> <-])%bind_Some)%bind_Some.
    eapply csteps_trans; [by eapply cchecked_steps|by apply IH].
Qed.

Lemma cscript_steps fuel cs c c' tr : cscript fuel cs c = Some (c', tr) -> csteps c tr c'.
Proof.
  revert c tr. induction cs as [|cmd cs IH]; intros c tr; simpl; [intros [= -> <-]; constructor|].
  intros ([c1 ev] & E1 & ([c2 tr2] & E2 & [= -> <-])%bind_Some)%bind_Some.
  eapply csteps_trans; [|by apply IH]. destruct cmd as [t o|t o|l]; [|by eapply cchecked_steps..].
  simpl in E1. apply bind_Some in E1 as ([c3 ev3] & E3 & ([c4 tr4] & E4 & [= -> <-])%bind_Some).
  eapply csteps_trans; [by eapply cchecked_steps|by eapply csettle_steps].
Qed.

End ClientExec.
