(* ===== verification/Treiber.v ===== *)
(** * The concurrent stack ([Stack] of [src/tests/lib.rs])

    The stack with which the crate tests itself, and which its guide explains:
    [push], [pop] and [is_empty] as programs over clients with memory, one
    atomic access of a thread at a time, interleaved with each other, with the
    steps of the library and with calls of guards by the users of the stack. And
    what it means that it is a stack: the specification with atomic operations. *)

From stdpp Require Import prelude list gmap.
From S2P Require Import Prelude Alloc ThreadId Membarrier Tls RawData RawStep Guard GuardExec GuardRetire GuardSpec Collector Reclaim Client ClientExec.

Open Scope Z_scope.

(** ** Operations *)

(** The operations of the stack, and what they return; a panic of [pop] is that
    of the [unwrap] after [retire]. *)
Inductive sop := Push (value : Z) | Pop | IsEmpty.

Inductive sret :=
| RPushed
| RPopped (value : option Z)
| REmpty (b : bool)
| RPanic.

#[export] Instance sop_eq_dec : EqDecision sop.
Proof. solve_decision. Defined.
#[export] Instance sret_eq_dec : EqDecision sret.
Proof. solve_decision. Defined.

(** Where a thread is in an operation, before which access; [x] is the guard
    that it was given. *)
Inductive pc :=
| PushLoad (x : gref) (new : Z)              (* guard.protect(&self.head, ..) *)
| PushSet (x : gref) (new head : Z)          (* ( *new).next = head *)
| PushCas (x : gref) (new head : Z)          (* self.head.compare_exchange(head, new, ..) *)
| PopLoad (x : gref)                         (* guard.protect(&self.head, ..) *)
| PopNext (x : gref) (head : Z)              (* let next = ( *head).next *)
| PopCas (x : gref) (head next : Z)          (* self.head.compare_exchange(head, next, ..) *)
| PopRead (x : gref) (head : Z)              (* ptr::read(&( *head).data) *)
| PopRetire (x : gref) (head data : Z)       (* self.collector.retire(head, ..) *)
| PopWait (x : gref) (data : Z)              (* in that call *)
| EmptyLoad.                                 (* self.head.load(..) *)

(** The guard that an operation borrows. *)
Definition borrowed (pc : pc) : option gref :=
  match pc with
  | PushLoad x _ | PushSet x _ _ | PushCas x _ _ | PopLoad x | PopNext x _ | PopCas x _ _ | PopRead x _
  | PopRetire x _ _ | PopWait x _ => Some x
  | EmptyLoad => None
  end.

Definition guard_of_op (x : gref) (o : sop) : option gref := match o with IsEmpty => None | _ => Some x end.

Definition HEAD : place := Root 0.
Definition next_field (p : Z) : place := Field p 0.

(** What users of the stack see. *)
Inductive tevent :=
| TInvoke (t : nat) (o : sop)
| TReturn (t : nat) (r : sret).

#[export] Instance tevent_eq_dec : EqDecision tevent.
Proof. solve_decision. Defined.

Record stack_state (A : Type) := mkStack { st_client : client A; st_pcs : gmap nat pc }.
Arguments mkStack {A} _ _.
Arguments st_client {A} _.
Arguments st_pcs {A} _.

(** [TSys]: a step of the library, or a call of it by a user. [TCall]: a user
    calls the stack; [addr] is where the allocator puts the node of a push. *)
Inductive tlabel :=
| TSys (l : glabel)
| TCall (t : nat) (x : gref) (o : sop) (addr : Z)
| TStep (t : nat).

Section Treiber.
Context {A : Type} `{Allocator A} `{BoxVec A}.
Context `{EntryLayout Reservation} `{EntryLayout LocalBatch}.
Variables (plat : Platform) (batch_size : Z).

Abbreviation cstate := (client A).
Abbreviation sstate := (stack_state A).
Abbreviation cstep := (cstep plat batch_size).
Implicit Types (s : sstate) (c : cstate) (t : nat) (x : gref).

(** ** The code *)

Definition access t (x : option gref) (pl : place) (q : request) c : option (cstate * (Z + Z)) :=
  '(c, ev) ← cstep (KDo t (KAccess x false pl q)) c;
  match ev with [CAccess _ _ _ (Ret r)] => Some (c, r) | _ => None end.

Definition read_data t (x : option gref) (p : Z) c : option (cstate * Z) :=
  '(c, ev) ← cstep (KDo t (KValue x p)) c;
  match ev with [CValue _ _ v] => Some (c, v) | _ => None end.

(** What the call of thread [t] that ended in a step returned. *)
Definition returned_to t (ev : list cevent) : option gret :=
  hd_error (omap (fun e => match e with CSys (GDone t' r) => if decide (t' = t) then Some r else None | _ => None end) ev).

(** [unwrap] of what [retire] returned. *)
Definition unwrap_retire (r : gret) (data : Z) : sret :=
  if decide (r = GRet ROk) then RPopped (Some data) else RPanic.

(** An access of the operation at [pc], and where it goes on, or what it
    returns. *)
Definition pc_step t (p : pc) c : option (cstate * (pc + sret)) :=
  match p with
  | PushLoad x new =>
      '(c, r) ← access t (Some x) HEAD (QLoad Relaxed) c;
      Some (c, inl (PushSet x new (loaded r)))
  | PushSet x new head =>
      '(c, _) ← access t None (next_field new) (QSwap head Relaxed) c;
      Some (c, inl (PushCas x new head))
  | PushCas x new head =>
      '(c, r) ← access t None HEAD (QExchange false head new Release Relaxed) c;
      Some (c, match r with inl _ => inr RPushed | inr _ => inl (PushLoad x new) end)
  | PopLoad x =>
      '(c, r) ← access t (Some x) HEAD (QLoad Acquire) c;
      Some (c, if decide (loaded r = 0) then inr (RPopped None) else inl (PopNext x (loaded r)))
  | PopNext x head =>
      '(c, r) ← access t (Some x) (next_field head) (QLoad Relaxed) c;
      Some (c, inl (PopCas x head (loaded r)))
  | PopCas x head next =>
      '(c, r) ← access t None HEAD (QExchange false head next Relaxed Relaxed) c;
      match r with
      | inl _ => '(c, _) ← cstep (KDo t (KUnlink head)) c; Some (c, inl (PopRead x head))
      | inr _ => Some (c, inl (PopLoad x))
      end
  | PopRead x head =>
      '(c, data) ← read_data t (Some x) head c;
      Some (c, inl (PopRetire x head data))
  | PopRetire x head data =>
      '(c, ev) ← cstep (KSys (GOp t (CRetire head BOXED))) c;
      Some (c, match returned_to t ev with
               | Some r => inr (unwrap_retire r data)
               | None => inl (PopWait x data)
               end)
  | PopWait _ _ => None
  | EmptyLoad =>
      '(c, r) ← access t None HEAD (QLoad Relaxed) c;
      Some (c, inr (REmpty (bool_decide (loaded r = 0))))
  end.

(** A call: [push] starts with its node. *)
Definition begin t x (o : sop) (addr : Z) c : option (cstate * pc) :=
  match o with
  | Push v => '(c, _) ← cstep (KDo t (KNew addr v [0])) c; Some (c, PushLoad x addr)
  | Pop => Some (c, PopLoad x)
  | IsEmpty => Some (c, EmptyLoad)
  end.

(** A call of the library returned: if it is that of [retire] by [pop], [pop]
    returns. *)
Definition on_event (e : cevent) (pcs : gmap nat pc) : gmap nat pc * list tevent :=
  match e with
  | CSys (GDone t r) =>
      match pcs !! t with
      | Some (PopWait _ data) => (delete t pcs, [TReturn t (unwrap_retire r data)])
      | _ => (pcs, [])
      end
  | _ => (pcs, [])
  end.

Fixpoint on_events (ev : list cevent) (pcs : gmap nat pc) : gmap nat pc * list tevent :=
  match ev with
  | [] => (pcs, [])
  | e :: ev =>
      let '(pcs1, tr1) := on_event e pcs in
      let '(pcs2, tr2) := on_events ev pcs1 in
      (pcs2, tr1 ++ tr2)
  end.

Definition tstep (l : tlabel) s : option (sstate * list tevent) :=
  match l with
  | TSys l =>
      '(c, ev) ← cstep (KSys l) (st_client s);
      let '(pcs, tr) := on_events ev (st_pcs s) in
      Some (mkStack c pcs, tr)
  | TCall t x o addr =>
      '(c, p) ← begin t x o addr (st_client s);
      Some (mkStack c (<[t := p]> (st_pcs s)), [TInvoke t o])
  | TStep t =>
      p ← st_pcs s !! t;
      '(c, next) ← pc_step t p (st_client s);
      Some (match next with
            | inl p => (mkStack c (<[t := p]> (st_pcs s)), [])
            | inr r => (mkStack c (delete t (st_pcs s)), [TReturn t r])
            end)
  end.

(** ** The users *)

(** Users keep the rules of guards; they neither retire objects themselves, nor
    give up a guard that an operation of the stack borrows, and a thread makes
    one call at a time. (Data is [ManuallyDrop], so no code of users runs when
    nodes are reclaimed.) Addresses of new nodes are not null. *)
Definition tlegal (l : tlabel) s : Prop :=
  let few := Z.of_nat (size (locals (c_sys (st_client s)))) < usize_max in
  match l with
  | TSys (GOp t o as l) =>
      glegal_label l (c_sys (st_client s)) /\ retires o = None /\ st_pcs s !! t = None /\
      stack (raw (c_sys (st_client s))) t = [] /\
      map_Forall (fun _ p => forall x, borrowed p = Some x -> x ∉ released o) (st_pcs s)
  | TSys (GOther o as l) => glegal_label l (c_sys (st_client s))
  | TSys _ => few
  | TCall t x o addr =>
      st_pcs s !! t = None /\ stack (raw (c_sys (st_client s))) t = [] /\ addr <> 0 /\
      match guard_of_op x o with Some x => usable t (st_client s) x | None => True end
  | TStep t => few
  end.

Inductive tsteps : sstate -> list tevent -> sstate -> Prop :=
| tsteps_nil s : tsteps s [] s
| tsteps_cons s1 l s2 ev tr s3 :
    tlegal l s1 -> tstep l s1 = Some (s2, ev) -> tsteps s2 tr s3 -> tsteps s1 (ev ++ tr) s3.

(** [Stack::new] *)
Definition stack_new (r : raw_state A) : sstate := mkStack (client_new r) ∅.

End Treiber.

(** ** The specification *)

(** What an operation does when nothing happens in between. *)
Definition sequential (o : sop) (l : list Z) : list Z * sret :=
  match o with
  | Push v => (v :: l, RPushed)
  | Pop => match l with [] => ([], RPopped None) | v :: l => (l, RPopped (Some v)) end
  | IsEmpty => (l, REmpty (bool_decide (l = [])))
  end.

(** An operation in progress, that has happened or not. *)
Inductive progress := Todo (o : sop) | Done (r : sret).

Record spec := mkSpec { sp_stack : list Z; sp_ops : gmap nat progress }.

Definition spec_init : spec := mkSpec [] ∅.

(** A [pop] that has its value may panic instead of returning it. *)
Definition may_return (r r' : sret) : Prop := r' = r \/ (r' = RPanic /\ exists v, r = RPopped (Some v)).

(** Each operation happens at one moment between its call and its return. *)
Inductive spec_step : spec -> list tevent -> spec -> Prop :=
| spec_invoke t o l ops :
    ops !! t = None -> spec_step (mkSpec l ops) [TInvoke t o] (mkSpec l (<[t := Todo o]> ops))
| spec_happen t o l l' r ops :
    ops !! t = Some (Todo o) -> sequential o l = (l', r) ->
    spec_step (mkSpec l ops) [] (mkSpec l' (<[t := Done r]> ops))
| spec_return t r r' l ops :
    ops !! t = Some (Done r) -> may_return r r' ->
    spec_step (mkSpec l ops) [TReturn t r'] (mkSpec l (delete t ops)).

Inductive spec_steps : spec -> list tevent -> spec -> Prop :=
| spec_nil a : spec_steps a [] a
| spec_cons a1 ev a2 tr a3 : spec_step a1 ev a2 -> spec_steps a2 tr a3 -> spec_steps a1 (ev ++ tr) a3.

Lemma spec_steps_trans a1 tr1 a2 tr2 a3 : spec_steps a1 tr1 a2 -> spec_steps a2 tr2 a3 -> spec_steps a1 (tr1 ++ tr2) a3.
Proof.
  intros H12 H23. induction H12 as [a|a1 ev a2 tr a4 Hs H12 IH]; [done|]. rewrite <-(assoc_L (++)). econstructor; eauto.
Qed.

Lemma spec_one a ev a' : spec_step a ev a' -> spec_steps a ev a'.
Proof. intros Hs. rewrite <-(app_nil_r ev). econstructor; [done|constructor]. Qed.
