(* ===== verification/TreiberInv.v ===== *)
(** * The invariant of the stack

    The shared nodes are the list from the head, in the order of the values of
    the specification; each operation in progress has its node, or has seen its
    head through its guard, and the node that it saw has not changed since, as
    its guard covers it. *)

From stdpp Require Import prelude list gmap.
From S2P Require Import Prelude Alloc ThreadId Membarrier Tls RawData RawStep Guard GuardExec GuardInv GuardSafe GuardRetire GuardSpec Collector Reclaim Client ClientInv ClientSafe ClientEffect ClientExec Treiber.

Open Scope Z_scope.

(** ** The list *)

(** From [v] on there are the nodes [ps] with the values [l]. *)
Inductive chain (m : memory) (h : history) : Z -> list Z -> list Z -> Prop :=
| chain_nil : chain m h 0 [] []
| chain_cons p d n ps l :
    p <> 0 -> h_status h !! p = Some Shared -> deref p m = Some (mkNode d [n]) -> chain m h n ps l ->
    chain m h p (p :: ps) (d :: l).

Lemma chain_mono m h m' h' v ps l :
  (forall p, p ∈ ps -> h_status h !! p = Some Shared -> h_status h' !! p = Some Shared /\ deref p m' = deref p m) ->
  chain m h v ps l -> chain m' h' v ps l.
Proof.
  intros Hk Hc. induction Hc as [|p d n ps l Hp Hs Hd Hc IH]; [constructor|].
  destruct (Hk p) as [Hs' Hd']; [by left|done|]. econstructor; [done|done|by rewrite Hd'|].
  apply IH. intros q Hq. apply Hk. by right.
Qed.

Lemma chain_start m h v ps l : chain m h v ps l -> v = 0 \/ (v ∈ ps /\ h_status h !! v = Some Shared).
Proof. intros [|p d n ps' l' Hp Hs _ _]; [by left|right]. split; [by left|done]. Qed.

Lemma chain_from_null m h ps l : chain m h 0 ps l -> ps = [] /\ l = [].
Proof. intros Hc. inversion Hc; subst; done. Qed.

Lemma chain_inv m h v ps l : chain m h v ps l -> v <> 0 ->
  exists d n ps' l', ps = v :: ps' /\ l = d :: l' /\ h_status h !! v = Some Shared /\ deref v m = Some (mkNode d [n]) /\ chain m h n ps' l'.
Proof. intros Hc Hv. inversion Hc; subst; [done|]. by eauto 10. Qed.

Lemma chain_empty m h v ps l : chain m h v ps l -> (l = [] <-> v = 0).
Proof. intros [|p d n ps' l' Hp _ _ _]; done. Qed.

Lemma chain_shared m h v ps l p : chain m h v ps l -> p ∈ ps -> h_status h !! p = Some Shared.
Proof.
  intros Hc. induction Hc as [|q d n ps l Hq Hs Hd Hc IH]; [by intros ?%elem_of_nil|]. intros [->|Hp]%elem_of_cons; auto.
Qed.

(** The links of the list stay in it. *)
Lemma chain_links m h v ps l q nd u : chain m h v ps l -> q ∈ ps -> deref q m = Some nd -> u ∈ node_links nd -> u = 0 \/ u ∈ ps.
Proof.
  intros Hc. induction Hc as [|p d n ps l Hp Hs Hd Hc IH]; [by intros ?%elem_of_nil|].
  intros [->|Hq]%elem_of_cons Hnd Hu.
  - rewrite Hd in Hnd. injection Hnd as <-. apply list_elem_of_singleton in Hu as ->.
    destruct (chain_start _ _ _ _ _ Hc) as [|[? _]]; [by left|right; by right].
  - destruct (IH Hq Hnd Hu); [by left|right; by right].
Qed.

(** ** Operations in progress *)

(** The node that an operation has to itself. *)
Definition owned_node (p : pc) : option Z :=
  match p with
  | PushLoad _ new | PushSet _ new _ | PushCas _ new _ => Some new
  | PopRead _ head | PopRetire _ head _ => Some head
  | _ => None
  end.

Definition is_private (h : history) (p : Z) : Prop := h_status h !! p = Some Private.
Definition is_unlinked (h : history) (p : Z) : Prop := exists X, h_status h !! p = Some (Gone X Unlinked).

(** What is so at [p], with what the specification has of the operation. *)
Definition at_pc (h : history) (m : memory) (p : pc) (o : option progress) : Prop :=
  match p, o with
  | PushLoad _ new, Some (Todo (Push v)) | PushSet _ new _, Some (Todo (Push v)) =>
      is_private h new /\ exists n, deref new m = Some (mkNode v [n])
  | PushCas _ new head, Some (Todo (Push v)) => is_private h new /\ deref new m = Some (mkNode v [head])
  | PopLoad _, Some (Todo Pop) => True
  | PopNext x head, Some (Todo Pop) => head <> 0 /\ head ∈ seen_by h x
  | PopCas x head next, Some (Todo Pop) =>
      head <> 0 /\ head ∈ seen_by h x /\ exists d, deref head m = Some (mkNode d [next])
  | PopRead x head, Some (Done (RPopped (Some v))) =>
      head ∈ seen_by h x /\ is_unlinked h head /\ exists n, deref head m = Some (mkNode v [n])
  | PopRetire x head data, Some (Done (RPopped (Some v))) => data = v /\ is_unlinked h head
  | PopWait x data, Some (Done (RPopped (Some v))) => data = v
  | EmptyLoad, Some (Todo IsEmpty) => True
  | _, _ => False
  end.

(** The owned node is there, and nobody else's. *)
Lemma at_pc_owned h m p o q : at_pc h m p o -> owned_node p = Some q -> is_private h q \/ is_unlinked h q.
Proof.
  intros Hp Hq. destruct p; simpl in *; try done; injection Hq as <-;
    destruct o as [[[]|[|[]| |]]|]; try done; naive_solver.
Qed.

Section TreiberInv.
Context {A : Type} `{Allocator A} `{BoxVec A} `{!BoxVecLaws A}.
Context `{EntryLayout Reservation} `{EntryLayout LocalBatch}.
Variables (plat : Platform) (batch_size : Z).

Abbreviation cstate := (client A).
Abbreviation CI := (CI plat batch_size).
Implicit Types (c : cstate) (t : nat) (x : gref) (h : history) (m : memory) (a : spec).

Definition pc_ok c m t (p : pc) (o : option progress) : Prop :=
  match borrowed p with Some x => usable t c x | None => True end /\
  match p with PopWait _ _ => True | _ => calls_in (c_history c) t = [] end /\
  at_pc (c_history c) m p o.

(** The part about the list. *)
Record Shape c m (ps l : list Z) : Prop := {
  sh_client : CI c;
  sh_memory : c_memory c = Some m;
  sh_chain : chain m (c_history c) (root c 0) ps l;
  sh_nodup : NoDup ps;
  sh_shared p : h_status (c_history c) !! p = Some Shared -> p ∈ ps;
  sh_roots n v : c_roots c !! n = Some v -> n = 0%nat;
  sh_boxes p b : m !! p = Some b -> in_box b = true;
  sh_nodes p nd : deref p m = Some nd -> exists n, node_links nd = [n]
}.

Record TI c (pcs : gmap nat pc) a m (ps : list Z) : Prop := {
  ti_shape : Shape c m ps (sp_stack a);
  ti_pcs t p : pcs !! t = Some p -> pc_ok c m t p (sp_ops a !! t);
  ti_idle t : pcs !! t = None -> sp_ops a !! t = None;
  ti_owned t1 t2 p1 p2 q : pcs !! t1 = Some p1 -> pcs !! t2 = Some p2 ->
    owned_node p1 = Some q -> owned_node p2 = Some q -> t1 = t2
}.

(** ** Steps of others *)

Lemma seen_covers c m ps l x p : Shape c m ps l -> p ∈ seen_by (c_history c) x -> covers (c_history c) x p.
Proof.
  intros Hs Hp. destruct (ci_client _ _ _ (sh_client _ _ _ _ Hs)) as (a & L & m' & _ & _ & _ & HC & _).
  by apply (co_seen _ _ _ HC).
Qed.

Lemma pc_frame G P c m c' m' ps l t p o :
  Shape c m ps l -> undisturbed G P c m c' m' -> pc_ok c m t p o ->
  (forall x, borrowed p = Some x -> x ∉ G) -> (forall q, owned_node p = Some q -> ~ P q) ->
  (calls_in (c_history c) t = [] -> calls_in (c_history c') t = []) -> pc_ok c' m' t p o.
Proof.
  intros Hs Hu (Hb & Hc & Hp) HG HP Hcs.
  assert (forall x q, borrowed p = Some x -> q ∈ seen_by (c_history c) x ->
    q ∈ seen_by (c_history c') x /\ deref q m' = deref q m) as Hseen.
  { intros x q Hx Hq. split; [by apply (un_seen _ _ _ _ _ _ Hu x (HG x Hx))|].
    apply (un_covered _ _ _ _ _ _ Hu x q (HG x Hx)). by eapply seen_covers. }
  assert (forall q, ~ P q -> is_private (c_history c) q -> is_private (c_history c') q /\ deref q m' = deref q m) as Hpr
    by (intros q; apply (un_private _ _ _ _ _ _ Hu)).
  assert (forall q, ~ P q -> is_unlinked (c_history c) q -> is_unlinked (c_history c') q) as Hul
    by (intros q HPq [X Hq]; by apply (un_unlinked _ _ _ _ _ _ Hu q X)).
  split; [|split].
  - destruct (borrowed p) as [x|] eqn:Ex; [|done]. by apply (un_usable _ _ _ _ _ _ Hu t x (HG x eq_refl)).
  - destruct p; auto.
  - destruct p; simpl in *; destruct o as [[[]|[|[]| |]]|]; try done; dex;
      repeat match goal with
      | Hq : ?q ∈ seen_by _ _ |- _ => destruct (Hseen _ _ eq_refl Hq) as [? Hder]; clear Hq; try rewrite Hder
      | Hq : is_private _ ?q |- _ => destruct (Hpr _ (HP _ eq_refl) Hq) as [? Hder]; clear Hq; try rewrite Hder
      | Hq : is_unlinked (c_history c) ?q |- _ => apply (Hul _ (HP _ eq_refl)) in Hq
      end; eauto 10.
Qed.

Lemma partial_alter_const {B} (f : gmap nat B) (b : option B) t t' :
  partial_alter (fun _ => b) t f !! t' = if decide (t' = t) then b else f !! t'.
Proof. case_decide; [subst; apply lookup_partial_alter_eq|by apply lookup_partial_alter_ne]. Qed.

(** A step of thread [t], after which its operation is at [po]. *)
Lemma TI_update P c pcs l ops m ps t c' m' ps' l' (po : option pc) (ao : option progress) :
  TI c pcs (mkSpec l ops) m ps -> Shape c' m' ps' l' -> undisturbed ∅ P c m c' m' ->
  (forall t' p q, t' <> t -> pcs !! t' = Some p -> owned_node p = Some q -> ~ P q) ->
  (forall t', t' <> t -> calls_in (c_history c) t' = [] -> calls_in (c_history c') t' = []) ->
  match po with
  | Some p => pc_ok c' m' t p ao /\
      forall t' p' q, t' <> t -> pcs !! t' = Some p' -> owned_node p = Some q -> owned_node p' <> Some q
  | None => ao = None
  end ->
  TI c' (partial_alter (fun _ => po) t pcs) (mkSpec l' (partial_alter (fun _ => ao) t ops)) m' ps'.
Proof.
  intros [Hs Hp Hi Ho] Hs' Hu HP Hcs Ht. constructor; simpl in *.
  - done.
  - intros t' p. rewrite !partial_alter_const. case_decide as Hne; [by subst; intros ->; apply Ht|]. intros Hpc.
    apply (pc_frame ∅ P c m c' m' ps l); [done|done|by apply Hp|set_solver| |by apply Hcs].
    intros q. by apply (HP t').
  - intros t'. rewrite !partial_alter_const. case_decide; [by intros ->|apply Hi].
  - intros t1 t2 p1 p2 q. rewrite !partial_alter_const. destruct (decide (t1 = t)) as [->|Hn1], (decide (t2 = t)) as [->|Hn2];
      [done| | |by apply Ho]; intros H1' H2' E1 E2; subst; destruct Ht as [_ Ht].
    + by destruct (Ht t2 p2 q Hn2 H2' E1).
    + by destruct (Ht t1 p1 q Hn1 H1' E2).
Qed.

(** ** Operations on memory *)

(** Nothing but what guards have seen changes. *)
Lemma undisturbed_read P c m roots' h' :
  h_live h' = h_live (c_history c) -> h_status h' = h_status (c_history c) ->
  (forall x, seen_by (c_history c) x ⊆ seen_by h' x) ->
  undisturbed ∅ P c m (mkClient (c_sys c) roots' (Some m) h') m.
Proof.
  intros El Est Hs. constructor; simpl; rewrite ?Est; try done.
  - intros t x _ [Hx Hn]. split; [simpl; by rewrite El|done].
  - intros p X _ Hp. split; [by exists X|done].
Qed.

Lemma see_seen x v h y : seen_by h y ⊆ seen_by (see x v h) y.
Proof.
  unfold seen_by; simpl. destruct (decide (y = x)) as [->|Hy]; [rewrite lookup_insert_eq; simpl; set_solver|].
  by rewrite lookup_insert_ne.
Qed.

Lemma seen_see x v h : v ∈ seen_by (see x v h) x.
Proof. unfold seen_by; simpl. rewrite lookup_insert_eq. simpl. set_solver. Qed.

Lemma shape_core c m ps l : Shape c m ps l -> Core (c_roots c) m (c_history c).
Proof.
  intros Hs. destruct (ci_client _ _ _ (sh_client _ _ _ _ Hs)) as (a & L & m' & _ & _ & Em & HC & _).
  rewrite (sh_memory _ _ _ _ Hs) in Em. by injection Em as <-.
Qed.

Lemma shape_idle c m ps l t : Shape c m ps l -> calls_in (c_history c) t = [] -> stack (raw (c_sys c)) t = [].
Proof. intros Hs Hc. by apply (calls_stack plat batch_size c t (sh_client _ _ _ _ Hs)). Qed.

(** The head, its head, and private nodes are no private nodes of others. *)
Lemma shared_not_private h v : v = 0 \/ h_status h !! v = Some Shared -> h_status h !! 0 = None -> h_status h !! v <> Some Private.
Proof. intros [->| ->]; [by intros ->|done]. Qed.

(** What the guard of an access has seen after it returned [v]. *)
Definition seeing (xo : option gref) (v : Z) h : history :=
  match xo with Some x => if decide (v = 0) then h else see x v h | None => h end.

Lemma seeing_status xo v h : h_status (seeing xo v h) = h_status h.
Proof. destruct xo; simpl; [by case_decide|done]. Qed.
Lemma seeing_live xo v h : h_live (seeing xo v h) = h_live h.
Proof. destruct xo; simpl; [by case_decide|done]. Qed.
Lemma seeing_calls xo v h t : calls_in (seeing xo v h) t = calls_in h t.
Proof. destruct xo; simpl; [by case_decide|done]. Qed.
Lemma seeing_seen xo v h x : seen_by h x ⊆ seen_by (seeing xo v h) x.
Proof. destruct xo; simpl; [|done]. case_decide; [done|apply see_seen]. Qed.

(** An access of the head. *)
Lemma head_access t xo q c m ps l v' lr :
  Shape c m ps l -> calls_in (c_history c) t = [] ->
  atomic_run false (issue (bool_decide (is_Some xo)) q) (root c 0) = Ret (v', lr) ->
  access plat batch_size t xo HEAD q c =
    Some (mkClient (c_sys c) (<[0%nat := v']> (c_roots c)) (Some m) (seeing xo (loaded lr) (share v' (c_history c))), lr) /\
  exists ev, cstep plat batch_size (KDo t (KAccess xo false HEAD q)) c =
    Some (mkClient (c_sys c) (<[0%nat := v']> (c_roots c)) (Some m) (seeing xo (loaded lr) (share v' (c_history c))), ev).
Proof.
  intros Hs Hc Ea. assert (cstep plat batch_size (KDo t (KAccess xo false HEAD q)) c =
    Some (mkClient (c_sys c) (<[0%nat := v']> (c_roots c)) (Some m) (seeing xo (loaded lr) (share v' (c_history c))), [CAccess t xo HEAD (Ret lr)])) as E.
  { simpl. rewrite (shape_idle _ _ _ _ _ Hs Hc). simpl. unfold do_op. rewrite (sh_memory _ _ _ _ Hs). simpl.
    unfold access_place. simpl. rewrite Ea. destruct xo as [x|]; simpl; [|done].
    destruct (decide (loaded lr = 0)), (decide (False \/ loaded lr = 0)); tauto. }
  split; [|by eexists]. unfold access. rewrite E. done.
Qed.

(** The clients of a run of the stack are clients in the sense of Client. *)
Definition reaches c c' : Prop := exists tr, csteps plat batch_size c tr c'.

Lemma reaches_trans c1 c2 c3 : reaches c1 c2 -> reaches c2 c3 -> reaches c1 c3.
Proof. intros [tr1 H12] [tr2 H23]. exists (tr1 ++ tr2). by eapply csteps_trans. Qed.

Lemma reaches_one l c c' ev : clegal l c -> cstep plat batch_size l c = Some (c', ev) -> reaches c c'.
Proof. intros Hl E. exists (ev ++ []). econstructor; [done|done|constructor]. Qed.

Lemma do_shape t o c c' ev m ps l :
  Shape c m ps l -> clegal (KDo t o) c -> cstep plat batch_size (KDo t o) c = Some (c', ev) -> CI c' /\ reaches c c'.
Proof. intros Hs Hl E. split; [eapply CI_do; [apply Hs|done|done]|by eapply reaches_one]. Qed.

Lemma root_insert c v m h : root (mkClient (c_sys c) (<[0%nat := v]> (c_roots c)) (Some m) h) 0 = v.
Proof. unfold root; simpl. by rewrite lookup_insert_eq. Qed.

Lemma roots_insert c m ps l v n u : Shape c m ps l -> <[0%nat := v]> (c_roots c) !! n = Some u -> n = 0%nat.
Proof. intros Hs [[<- _]|[_ Hn]]%lookup_insert_Some; [done|by eapply sh_roots]. Qed.

Lemma head_fine c m ps l : Shape c m ps l -> root c 0 = 0 \/ h_status (c_history c) !! root c 0 = Some Shared.
Proof. intros Hs. destruct (chain_start _ _ _ _ _ (sh_chain _ _ _ _ Hs)) as [|[_ ?]]; auto. Qed.

Lemma head_share c m ps l : Shape c m ps l -> share (root c 0) (c_history c) = c_history c.
Proof.
  intros Hs. apply share_same, shared_not_private; [by eapply head_fine|]. eapply co_null, shape_core, Hs.
Qed.

(** An access that leaves the head as it is: a load, or an exchange that fails. *)
Lemma head_keeps t xo q c m ps l lr :
  Shape c m ps l -> calls_in (c_history c) t = [] -> match xo with Some x => usable t c x | None => True end ->
  atomic_run false (issue (bool_decide (is_Some xo)) q) (root c 0) = Ret (root c 0, lr) ->
  exists c', access plat batch_size t xo HEAD q c = Some (c', lr) /\ reaches c c' /\ Shape c' m ps l /\
    (forall P, undisturbed ∅ P c m c' m) /\
    (forall t', calls_in (c_history c') t' = calls_in (c_history c) t') /\
    h_status (c_history c') = h_status (c_history c) /\
    forall x, xo = Some x -> root c 0 <> 0 -> root c 0 ∈ seen_by (c_history c') x.
Proof.
  intros Hs Hc Hu Ea. destruct (head_access t xo q c m ps l _ _ Hs Hc Ea) as [E [ev E']].
  rewrite (head_share _ _ _ _ Hs) in E, E'. pose proof (atomic_loaded _ _ _ _ _ Ea) as Elr. rewrite Elr in E, E'.
  set (c' := mkClient _ _ _ _) in E, E'. exists c'. split; [done|].
  assert (clegal (KDo t (KAccess xo false HEAD q)) c) as Hl.
  { simpl. unfold legal_do. rewrite (sh_memory _ _ _ _ Hs). split; [done|]. split; [done|]. intros _.
    unfold HEAD, read_place. rewrite Ea. by left. }
  destruct (do_shape _ _ _ _ _ _ _ _ Hs Hl E') as [HCI Hr]. split; [done|]. assert (forall P, undisturbed ∅ P c m c' m) as Hun.
  { intros P. apply undisturbed_read; [apply seeing_live|apply seeing_status|intros x; apply seeing_seen]. }
  split; [|split; [done|split; [intros t'; apply seeing_calls|split; [apply seeing_status|]]]].
  - constructor; try apply Hs; try done; simpl.
    + unfold c'. rewrite root_insert. simpl. apply (chain_mono m (c_history c)); [|apply Hs]. intros p _. by rewrite seeing_status.
    + intros p. rewrite seeing_status. apply Hs.
    + intros n v. by apply (roots_insert c m ps l).
  - intros x -> Hv. simpl. rewrite decide_False by done. apply seen_see.
Qed.

(** The exchange of a push that succeeds. *)
Lemma head_push t new v c m ps l :
  Shape c m ps l -> calls_in (c_history c) t = [] -> is_private (c_history c) new ->
  deref new m = Some (mkNode v [root c 0]) ->
  exists c', access plat batch_size t None HEAD (QExchange false (root c 0) new Release Relaxed) c = Some (c', inl (root c 0)) /\
    reaches c c' /\ Shape c' m (new :: ps) (v :: l) /\ undisturbed ∅ (fun p => p = new) c m c' m /\
    forall t', calls_in (c_history c') t' = calls_in (c_history c) t'.
Proof.
  intros Hs Hc Hp Hd. set (q := QExchange false (root c 0) new Release Relaxed).
  assert (atomic_run false (issue false q) (root c 0) = Ret (new, inl (root c 0))) as Ea.
  { simpl. by rewrite decide_True. }
  destruct (head_access t None q c m ps l _ _ Hs Hc Ea) as [E [ev E']]. simpl in E, E'.
  set (c' := mkClient _ _ _ _) in E, E'. exists c'. split; [done|].
  pose proof (shape_core _ _ _ _ Hs) as HC. unfold is_private in Hp. assert (new <> 0) as Hn0 by (intros ->; by rewrite (co_null _ _ _ HC) in Hp).
  assert (clegal (KDo t (KAccess None false HEAD q)) c) as Hl.
  { simpl. unfold legal_do. rewrite (sh_memory _ _ _ _ Hs). split; [done|]. split; [done|]. intros _.
    unfold HEAD, read_place. change (bool_decide (is_Some None)) with false. rewrite Ea. right. right. rewrite Hp, Hd. constructor; [|constructor].
    destruct (head_fine _ _ _ _ Hs) as [|]; auto. }
  destruct (do_shape _ _ _ _ _ _ _ _ Hs Hl E') as [HCI Hr]. split; [done|].
  assert (h_status (c_history c') !! new = Some Shared) as Hnew by (simpl; by rewrite lookup_alter_eq, Hp).
  assert (forall p, p <> new -> h_status (c_history c') !! p = h_status (c_history c) !! p) as Hne
    by (intros p Hpn; simpl; by rewrite lookup_alter_ne).
  assert (new ∉ ps) as Hnps.
  { intros Hin. pose proof (chain_shared _ _ _ _ _ _ (sh_chain _ _ _ _ Hs) Hin) as Hsh. congruence. }
  split; [|split; [|done]].
  - constructor; try apply Hs; try done; simpl.
    + unfold c'. rewrite root_insert. econstructor; [done|done|done|]. apply (chain_mono m (c_history c)); [|apply Hs].
      intros p Hp' Hsp. split; [|done]. rewrite share_status. by case_decide; [rewrite Hsp|].
    + constructor; [done|apply Hs].
    + intros p Hsp. destruct (decide (p = new)) as [->|Hpn]; [by left|right]. apply Hs. by rewrite <-Hne.
    + intros n u. by apply (roots_insert c m ps l).
  - constructor; try done.
    + intros p Hpn. by rewrite Hne.
    + intros p Hpn. by rewrite Hne.
    + intros p X Hpn Hpx. rewrite Hne by done. split; [by exists X|done].
Qed.

(** Its head is unlinked. *)
Lemma unlink_head t c m p :
  CI c -> calls_in (c_history c) t = [] -> c_memory c = Some m -> h_status (c_history c) !! p = Some Shared -> unreachable p m c ->
  exists ev, let c' := with_memory c (Some m) (fun h => set_status (<[p := Gone (h_live h) Unlinked]>) h) in
    cstep plat batch_size (KDo t (KUnlink p)) c = Some (c', ev) /\ CI c' /\ reaches c c'.
Proof.
  intros HCI Hc Em Hp Hu. exists []. assert (clegal (KDo t (KUnlink p)) c) as Hl by (simpl; unfold legal_do; by rewrite Em).
  assert (cstep plat batch_size (KDo t (KUnlink p)) c =
    Some (with_memory c (Some m) (fun h => set_status (<[p := Gone (h_live h) Unlinked]>) h), [])) as E.
  { simpl. rewrite (proj1 (calls_stack plat batch_size c t HCI) Hc). simpl. unfold do_op. by rewrite Em. }
  split; [done|]. split; [by eapply CI_do|by eapply reaches_one].
Qed.

(** The exchange of a pop that succeeds. *)
Lemma head_pop t c m ps l d n :
  Shape c m ps l -> calls_in (c_history c) t = [] -> root c 0 <> 0 -> deref (root c 0) m = Some (mkNode d [n]) ->
  exists c1 c' ev ps' l', access plat batch_size t None HEAD (QExchange false (root c 0) n Relaxed Relaxed) c = Some (c1, inl (root c 0)) /\
    cstep plat batch_size (KDo t (KUnlink (root c 0))) c1 = Some (c', ev) /\
    l = d :: l' /\ reaches c c' /\ Shape c' m ps' l' /\ undisturbed ∅ (fun p => p = root c 0) c m c' m /\
    h_seen (c_history c') = h_seen (c_history c) /\ is_unlinked (c_history c') (root c 0) /\
    forall t', calls_in (c_history c') t' = calls_in (c_history c) t'.
Proof.
  intros Hs Hc Hh Hd. set (p := root c 0) in *. set (q := QExchange false p n Relaxed Relaxed).
  destruct (chain_inv _ _ _ _ _ (sh_chain _ _ _ _ Hs) Hh) as (d' & n' & ps' & l' & -> & -> & Hsh & Hd' & Hch).
  fold p in Hsh, Hd', Hch. rewrite Hd in Hd'. injection Hd' as <- <-.
  pose proof (sh_nodup _ _ _ _ Hs) as Hn. fold p in Hn. apply NoDup_cons in Hn as [Hp Hn].
  assert (n <> p) as Hnp. { destruct (chain_start _ _ _ _ _ Hch) as [->|[Hin _]]; [done|]. by intros ->. }
  assert (atomic_run false (issue false q) (root c 0) = Ret (n, inl p)) as Ea by (simpl; by rewrite decide_True).
  destruct (head_access t None q c m _ _ _ _ Hs Hc Ea) as [E [ev E']]. simpl in E, E'.
  pose proof (shape_core _ _ _ _ Hs) as HC.
  assert (n = 0 \/ h_status (c_history c) !! n = Some Shared) as Hfine
    by (destruct (chain_start _ _ _ _ _ Hch) as [|[_ ?]]; auto).
  rewrite share_same in E, E' by (eapply shared_not_private; [done|apply HC]). set (c1 := mkClient _ _ _ _) in E, E'.
  assert (clegal (KDo t (KAccess None false HEAD q)) c) as Hl.
  { simpl. unfold legal_do. rewrite (sh_memory _ _ _ _ Hs). split; [done|]. split; [done|]. intros _.
    unfold HEAD, read_place. change (bool_decide (is_Some None)) with false. rewrite Ea. right.
    destruct Hfine as [|Hfs]; [by left|right]. by rewrite Hfs. }
  destruct (do_shape _ _ _ _ _ _ _ _ Hs Hl E') as [HCI Hr].
  destruct (unlink_head t c1 m p HCI Hc eq_refl Hsh) as (ev2 & E2 & HCI2 & Hr2).
  { split.
    - intros k u Hk ->. simpl in Hk. apply lookup_insert_Some in Hk as [[_ ?]|[Hk Hu]]; [done|].
      apply Hk. symmetry. by apply (sh_roots _ _ _ _ Hs k p).
    - intros r b Hb Hrp Hrs. destruct (contents b) as [nd|] eqn:Eb; [|done]. intros Hin.
      assert (r ∈ ps') as Hr' by (destruct (proj1 (elem_of_cons _ _ _) (sh_shared _ _ _ _ Hs r Hrs)); [done|done]).
      assert (deref r m = Some nd) as Hdr by (unfold deref; by rewrite Hb).
      destruct (chain_links _ _ _ _ _ _ _ _ Hch Hr' Hdr Hin) as [|]; done. }
  set (c' := with_memory _ _ _) in E2, HCI2, Hr2. exists c1, c', ev2, ps', l'. split; [done|]. split; [done|]. split; [done|].
  split; [by eapply reaches_trans|].
  assert (forall r, h_status (c_history c') !! r = if decide (r = p) then Some (Gone (h_live (c_history c)) Unlinked) else h_status (c_history c) !! r) as Est.
  { intros r. simpl. case_decide; [subst; by rewrite lookup_insert_eq|by rewrite lookup_insert_ne]. }
  split; [|split; [|split; [done|split; [eexists; by rewrite Est, decide_True|done]]]].
  - constructor; try apply Hs; try done.
    + unfold c'. change (root (with_memory c1 _ _) 0) with (root c1 0). unfold c1. rewrite root_insert.
      apply (chain_mono m (c_history c)); [|done]. intros r Hr' Hrs. rewrite Est, decide_False; [done|by intros ->].
    + intros r. rewrite Est. case_decide; [done|]. intros Hrs%(sh_shared _ _ _ _ Hs). by apply elem_of_cons in Hrs as [|].
    + intros k u. by apply (roots_insert c m (p :: ps') (d :: l')).
  - constructor; try done.
    + intros r Hr'. by rewrite Est, decide_False.
    + intros r Hr'. by rewrite Est, decide_False.
    + intros r X Hr' Hx. rewrite Est, decide_False by done. split; [by exists X|done].
Qed.

Lemma store_node_same p nd m : deref p m = Some nd -> store_node p nd m = m.
Proof.
  intros (b & Hb & Hc)%bind_Some. unfold store_node. apply map_eq. intros q. destruct (decide (q = p)) as [->|Hq].
  - rewrite lookup_alter_eq, Hb. destruct b as [box cnt]. simpl in *. by subst.
  - by rewrite lookup_alter_ne.
Qed.

Lemma owned_private h p : is_private h p -> owned_by_one h p.
Proof. unfold is_private, owned_by_one. by intros ->. Qed.

(** The plain write to the new node. *)
Lemma set_next t new v n head c m ps l :
  Shape c m ps l -> calls_in (c_history c) t = [] -> is_private (c_history c) new -> deref new m = Some (mkNode v [n]) ->
  exists c' m', access plat batch_size t None (next_field new) (QSwap head Relaxed) c = Some (c', inl n) /\
    reaches c c' /\ Shape c' m' ps l /\ undisturbed ∅ (fun p => p = new) c m c' m' /\ c_history c' = c_history c /\
    deref new m' = Some (mkNode v [head]).
Proof.
  intros Hs Hc Hp Hd. set (m' := store_node new (mkNode v [head]) m). set (c' := mkClient (c_sys c) (c_roots c) (Some m') (c_history c)).
  assert (cstep plat batch_size (KDo t (KAccess None false (next_field new) (QSwap head Relaxed))) c =
    Some (c', [CAccess t None (next_field new) (Ret (inl n))])) as E.
  { simpl. rewrite (shape_idle _ _ _ _ _ Hs Hc). simpl. unfold do_op. rewrite (sh_memory _ _ _ _ Hs). simpl.
    unfold access_place, next_field, read_place. rewrite Hd. simpl. unfold write_place.
    rewrite decide_True by (by apply owned_private). by rewrite Hd. }
  assert (clegal (KDo t (KAccess None false (next_field new) (QSwap head Relaxed))) c) as Hl.
  { simpl. unfold legal_do. rewrite (sh_memory _ _ _ _ Hs). split; [done|]. split; [left; by apply owned_private|].
    intros He. destruct He. by apply owned_private. }
  destruct (do_shape _ _ _ _ _ _ _ _ Hs Hl E) as [HCI Hr]. exists c', m'.
  assert (forall p, deref p m' = if decide (p = new) then Some (mkNode v [head]) else deref p m) as Hder
    by (intros p; apply deref_store; by rewrite Hd).
  assert (forall p, p <> new -> deref p m' = deref p m) as Hne by (intros p Hpn; by rewrite Hder, decide_False).
  split; [unfold access; by rewrite E|]. split; [done|]. split; [|split; [|split; [done|by rewrite Hder, decide_True]]].
  - constructor; try apply Hs; try done.
    + apply (chain_mono m (c_history c)); [|apply Hs]. intros p _ Hsp. split; [done|]. apply Hne. intros ->. unfold is_private in Hp. congruence.
    + intros p b. unfold m', store_node. destruct (decide (p = new)) as [->|Hpn].
      * rewrite lookup_alter_eq. destruct (m !! new) as [b0|] eqn:Eb; [|done]. intros [= <-]. simpl. by eapply sh_boxes.
      * rewrite lookup_alter_ne by done. by apply (sh_boxes _ _ _ _ Hs).
    + intros p nd. rewrite Hder. case_decide; [intros [= <-]; by exists head|apply Hs].
  - constructor; try done.
    + intros p Hpn. split; [done|by apply Hne].
    + intros p Hpn. split; [done|by apply Hne].
    + intros p X Hpn Hx. split; [by exists X|by apply Hne].
    + intros x p _ Hcov. apply Hne. intros ->. unfold covers, is_private in *. by rewrite Hp in Hcov.
Qed.

Lemma seen_node c m ps l x p : Shape c m ps l -> p ∈ seen_by (c_history c) x -> exists d n, deref p m = Some (mkNode d [n]).
Proof.
  intros Hs Hp. destruct (covers_deref _ _ _ _ _ (shape_core _ _ _ _ Hs) (seen_covers _ _ _ _ _ _ Hs Hp)) as [[d ls] Hd].
  destruct (sh_nodes _ _ _ _ Hs p _ Hd) as [n Hn]. simpl in Hn. subst. by exists d, n.
Qed.

(** The plain reads of a node that a guard has seen. *)
Lemma read_next t x p d n c m ps l :
  Shape c m ps l -> calls_in (c_history c) t = [] -> usable t c x -> p ∈ seen_by (c_history c) x -> deref p m = Some (mkNode d [n]) ->
  exists c', access plat batch_size t (Some x) (next_field p) (QLoad Relaxed) c = Some (c', inl n) /\
    reaches c c' /\ Shape c' m ps l /\ (forall P, undisturbed ∅ P c m c' m) /\
    (forall t', calls_in (c_history c') t' = calls_in (c_history c) t') /\
    seen_by (c_history c) x ⊆ seen_by (c_history c') x.
Proof.
  intros Hs Hc Hu Hp Hd. set (h := c_history c) in *. pose proof (shape_core _ _ _ _ Hs) as HC. fold h in HC.
  pose proof (seen_covers _ _ _ _ _ _ Hs Hp) as Hcov. fold h in Hcov.
  assert (~ owned_by_one h p) as Hex by (unfold covers, owned_by_one in *; destruct (h_status h !! p) as [[]|]; tauto).
  assert (h_status h !! n <> Some Private) as Hn.
  { destruct (decide (n = 0)) as [->|Hn0]; [by rewrite (co_null _ _ _ HC)|]. intros Hn.
    assert (covers h x n) as Hcn; [|unfold covers in Hcn; by rewrite Hn in Hcn].
    apply (fine_covers h (next_field p)); [|done|done]. right. simpl.
    destruct (h_status h !! p) as [st|] eqn:Est; [|unfold covers in Hcov; by rewrite Est in Hcov].
    eapply co_links; [done..|by left|done]. }
  set (c' := mkClient (c_sys c) (c_roots c) (Some m) (seeing (Some x) n h)).
  assert (cstep plat batch_size (KDo t (KAccess (Some x) false (next_field p) (QLoad Relaxed))) c =
    Some (c', [CAccess t (Some x) (next_field p) (Ret (inl n))])) as E.
  { simpl. rewrite (shape_idle _ _ _ _ _ Hs Hc). simpl. unfold do_op. rewrite (sh_memory _ _ _ _ Hs). simpl.
    unfold access_place, next_field, read_place. rewrite Hd. simpl. unfold write_place.
    rewrite (decide_False (P:=exclusive_place (c_history c) (Field p 0))) by exact Hex. rewrite Hd. simpl. rewrite store_node_same, share_same by done. unfold c'. simpl. fold h.
    destruct (decide (n = 0)) as [Hz|Hz]; [by rewrite decide_True by auto|]. rewrite decide_False; [done|]. by intros [|]. }
  assert (clegal (KDo t (KAccess (Some x) false (next_field p) (QLoad Relaxed))) c) as Hl.
  { simpl. unfold legal_do. rewrite (sh_memory _ _ _ _ Hs). split; [done|]. split; [right; done|]. intros _.
    unfold next_field, read_place. rewrite Hd. simpl. by left. }
  destruct (do_shape _ _ _ _ _ _ _ _ Hs Hl E) as [HCI Hr]. exists c'. split; [unfold access; by rewrite E|]. split; [done|].
  split; [|split; [|split; [intros t'; apply seeing_calls|apply seeing_seen]]].
  - constructor; try apply Hs; try done.
    + apply (chain_mono m h); [|apply Hs]. intros q _ Hq. change (h_status (seeing (Some x) n h) !! q = Some Shared /\ deref q m = deref q m). by rewrite seeing_status.
    + intros q. change (h_status (seeing (Some x) n h) !! q = Some Shared -> q ∈ ps). rewrite seeing_status. apply Hs.
  - intros P. apply undisturbed_read; [apply seeing_live|apply seeing_status|intros y; apply seeing_seen].
Qed.

Lemma read_value t x p d ls c m ps l :
  Shape c m ps l -> calls_in (c_history c) t = [] -> usable t c x -> p ∈ seen_by (c_history c) x -> deref p m = Some (mkNode d ls) ->
  read_data plat batch_size t (Some x) p c = Some (c, d) /\ reaches c c.
Proof.
  intros Hs Hc Hu Hp Hd. assert (cstep plat batch_size (KDo t (KValue (Some x) p)) c = Some (c, [CValue t p d])) as E.
  { simpl. rewrite (shape_idle _ _ _ _ _ Hs Hc). simpl. unfold do_op. rewrite (sh_memory _ _ _ _ Hs). simpl. by rewrite Hd. }
  split; [unfold read_data; by rewrite E|]. eapply reaches_one; [|done].
  simpl. unfold legal_do. rewrite (sh_memory _ _ _ _ Hs). by right.
Qed.

(** The node of a new push. *)
Lemma new_node t p v c c' ev m ps l :
  Shape c m ps l -> p <> 0 -> cstep plat batch_size (KDo t (KNew p v [0])) c = Some (c', ev) ->
  exists m', reaches c c' /\ Shape c' m' ps l /\ (forall P, undisturbed ∅ P c m c' m') /\
    (forall t', calls_in (c_history c') t' = calls_in (c_history c) t') /\
    h_status (c_history c) !! p = None /\ is_private (c_history c') p /\ deref p m' = Some (mkNode v [0]).
Proof.
  intros Hs Hp0 E. assert (clegal (KDo t (KNew p v [0])) c) as Hl by (simpl; unfold legal_do; by rewrite (sh_memory _ _ _ _ Hs)).
  destruct (do_shape _ _ _ _ _ _ _ _ Hs Hl E) as [HCI Hr]. simpl in E. destruct (at_client _); [|done]. unfold do_op in E.
  rewrite (sh_memory _ _ _ _ Hs) in E. simpl in E. unfold box_new in E. destruct (m !! p) as [b|] eqn:Ep; [done|]. injection E as <- <-.
  set (m' := <[p := _]> m) in *. exists m'. split; [done|]. pose proof (shape_core _ _ _ _ Hs) as HC.
  assert (h_status (c_history c) !! p = None) as Hn.
  { destruct (h_status (c_history c) !! p) as [st|] eqn:Est; [|done].
    destruct (proj1 (co_status _ _ _ HC p)) as [nd Hnd]; [by rewrite Est|]. unfold deref in Hnd. by rewrite Ep in Hnd. }
  assert (forall q, deref q m' = if decide (q = p) then Some (mkNode v [0]) else deref q m) as Hder
    by (intros q; unfold m'; rewrite deref_insert; by case_decide).
  set (c' := with_memory c (Some m') _) in *.
  assert (forall q, h_status (c_history c') !! q = if decide (q = p) then Some Private else h_status (c_history c) !! q) as Est
    by (intros q; simpl; case_decide; [subst; by rewrite lookup_insert_eq|by rewrite lookup_insert_ne]).
  assert (forall q st, h_status (c_history c) !! q = Some st -> h_status (c_history c') !! q = Some st /\ deref q m' = deref q m) as Hk
    by (intros q st Hq; rewrite Est, Hder, !decide_False by congruence; done).
  split; [|split; [|split; [done|split; [done|split; [unfold is_private; by rewrite Est, decide_True|by rewrite Hder, decide_True]]]]].
  - constructor; try apply Hs; try done.
    + apply (chain_mono m (c_history c)); [|apply Hs]. intros q _. apply Hk.
    + intros q. rewrite Est. case_decide; [done|apply Hs].
    + intros q b [[_ <-]|[_ Hq]]%lookup_insert_Some; [done|by eapply sh_boxes].
    + intros q nd. rewrite Hder. case_decide; [intros [= <-]; by exists 0|apply Hs].
  - intros P. constructor; try done.
    + intros q _. apply Hk.
    + intros q _. apply Hk.
    + intros q X _ Hq. destruct (Hk q _ Hq) as [? ?]. split; [by exists X|done].
    + intros x q _ Hc. unfold covers in Hc. destruct (h_status (c_history c) !! q) as [st|] eqn:Hq; [|done]. by apply (Hk q st).
Qed.

(** A step of the library. *)
Lemma library_shape l0 c c' ev m ps l :
  Shape c m ps l -> clegal (KSys l0) c -> cstep plat batch_size (KSys l0) c = Some (c', ev) ->
  (forall p, taken l0 p -> p ∉ ps) ->
  exists m', reaches c c' /\ library_step l0 c m c' m' /\ Shape c' m' ps l.
Proof.
  intros Hs Hl E Ht. destruct (lib_undisturbed plat batch_size l0 c m c' ev) as [m' HL]; [apply Hs|done|done|apply Hs|].
  exists m'. split; [by eapply reaches_one|]. split; [done|]. pose proof (ls_undisturbed _ _ _ _ _ HL) as Hu.
  assert (CI c') as HCI by (eapply CI_lib; [apply Hs|done|done]).
  constructor; try apply Hs; try done.
  - apply HL.
  - unfold root. rewrite (ls_roots _ _ _ _ _ HL). apply (chain_mono m (c_history c)); [|apply Hs].
    intros p Hp. apply (un_shared _ _ _ _ _ _ Hu). intros Htp. by apply (Ht p).
  - intros p Hp. apply Hs. by apply (ls_shared _ _ _ _ _ HL).
  - intros n v. rewrite (ls_roots _ _ _ _ _ HL). apply Hs.
  - apply (ls_boxes _ _ _ _ _ HL). apply Hs.
  - intros p nd Hp. apply (sh_nodes _ _ _ _ Hs p nd). by apply (ls_values _ _ _ _ _ HL).
Qed.
End TreiberInv.
