(* ===== verification/TreiberSafe.v ===== *)
(** * The stack is linearizable

    Every access of an operation, every call of it and every step of the library
    keep the invariant of TreiberInv; on the way each operation happens once,
    between its call and its return, as the specification has it. The clients
    of the stack keep the rules, so it is memory safe too. *)

From stdpp Require Import prelude list gmap.
From S2P Require Import Prelude Alloc ThreadId Membarrier Tls RawData RawStep Guard GuardExec GuardInv GuardHandle GuardSafe GuardRetire GuardSpec Collector Reclaim Client ClientInv ClientSafe ClientEffect ClientExec Treiber TreiberInv.

Open Scope Z_scope.

Section TreiberSafe.
Context {A : Type} `{Allocator A} `{BoxVec A} `{!BoxVecLaws A}.
Context `{EntryLayout Reservation} `{EntryLayout LocalBatch}.
Variables (plat : Platform) (batch_size : Z).

Abbreviation cstate := (client A).
Abbreviation TI := (TI plat batch_size).
Abbreviation Shape := (Shape plat batch_size).
Abbreviation run_pc := (pc_step plat batch_size).
Abbreviation reaches := (reaches plat batch_size).
Implicit Types (c : cstate) (t : nat) (x : gref) (h : history) (m : memory) (a : spec) (p : pc).

(** What thread [t] does next, and what users see of it. *)
Definition pcs_after t (next : pc + sret) (pcs : gmap nat pc) : gmap nat pc :=
  match next with inl p => <[t := p]> pcs | inr _ => delete t pcs end.

Definition seen_of t (next : pc + sret) : list tevent := match next with inl _ => [] | inr r => [TReturn t r] end.

Definition after c pcs a t c' (next : pc + sret) : Prop :=
  exists a' m' ps', spec_steps a (seen_of t next) a' /\ reaches c c' /\ TI c' (pcs_after t next pcs) a' m' ps'.

Lemma owned_other c pcs a m ps t p q : TI c pcs a m ps -> pcs !! t = Some p -> owned_node p = Some q ->
  is_private (c_history c) q \/ is_unlinked (c_history c) q.
Proof. intros HI Hp. destruct (ti_pcs _ _ _ _ _ _ _ HI t p Hp) as (_ & _ & Hat). by eapply at_pc_owned. Qed.

Lemma owned_ne c pcs a m ps t t' p p' q : TI c pcs a m ps -> pcs !! t = Some p -> owned_node p = Some q ->
  t' <> t -> pcs !! t' = Some p' -> owned_node p' <> Some q.
Proof. intros HI Hp Hq Hne Hp' Hq'. apply Hne. by apply (ti_owned _ _ _ _ _ _ _ HI t' t p' p q). Qed.

(** The operation goes on to [p']. *)
Lemma after_inl P c pcs l ops m ps t p c' m' ps' l' p' o' :
  TI c pcs (mkSpec l ops) m ps -> pcs !! t = Some p -> reaches c c' -> Shape c' m' ps' l' -> undisturbed ∅ P c m c' m' ->
  (forall t' p q, t' <> t -> pcs !! t' = Some p -> owned_node p = Some q -> ~ P q) ->
  (forall t', calls_in (c_history c) t' = [] -> t' <> t -> calls_in (c_history c') t' = []) ->
  pc_ok c' m' t p' o' ->
  (forall q, owned_node p' = Some q -> owned_node p = Some q \/ forall t' p' , pcs !! t' = Some p' -> owned_node p' <> Some q) ->
  (l' = l /\ o' = ops !! t) \/ (exists o r, ops !! t = Some (Todo o) /\ sequential o l = (l', r) /\ o' = Some (Done r)) ->
  after c pcs (mkSpec l ops) t c' (inl p').
Proof.
  intros HI Hp Hr Hs Hu HP Hcs Hok Hown Ho.
  exists (mkSpec l' (partial_alter (fun _ => o') t ops)), m', ps'. split; [|split; [done|]].
  - destruct Ho as [[-> ->]|(o & r & Ho & Hseq & ->)].
    + assert (partial_alter (fun _ => ops !! t) t ops = ops) as ->; [|constructor].
      apply map_eq. intros t'. rewrite partial_alter_const. by case_decide; subst.
    + apply spec_one. by eapply spec_happen.
  - apply (TI_update plat batch_size P c pcs l ops m ps t c' m' ps' l' (Some p') o'); try done.
    + intros t' Hne Hc. by apply Hcs.
    + split; [done|]. intros t' p2 q Hne Hp2 Hq. destruct (Hown q Hq) as [Hq'|Hq']; [|by eapply Hq'].
      by apply (owned_ne c pcs (mkSpec l ops) m ps t t' p p2 q).
Qed.

(** The operation returns [r]. *)
Lemma after_inr P c pcs l ops m ps t c' m' ps' l' r :
  TI c pcs (mkSpec l ops) m ps -> reaches c c' -> Shape c' m' ps' l' -> undisturbed ∅ P c m c' m' ->
  (forall t' p q, t' <> t -> pcs !! t' = Some p -> owned_node p = Some q -> ~ P q) ->
  (forall t', calls_in (c_history c) t' = [] -> t' <> t -> calls_in (c_history c') t' = []) ->
  (l' = l /\ exists r0, ops !! t = Some (Done r0) /\ may_return r0 r) \/
  (exists o, ops !! t = Some (Todo o) /\ sequential o l = (l', r)) ->
  after c pcs (mkSpec l ops) t c' (inr r).
Proof.
  intros HI Hr Hs Hu HP Hcs Ho. exists (mkSpec l' (delete t ops)), m', ps'. split; [|split; [done|]].
  - destruct Ho as [(-> & r0 & Ho & Hm)|(o & Ho & Hseq)].
    + apply spec_one. by econstructor.
    + apply (spec_steps_trans _ [] (mkSpec l' (<[t := Done r]> ops))).
      * apply spec_one. by eapply spec_happen.
      * assert (delete t ops = delete t (<[t := Done r]> ops)) as -> by (by rewrite delete_insert_eq).
        apply spec_one. eapply spec_return; [by rewrite lookup_insert_eq|by left].
  - apply (TI_update plat batch_size P c pcs l ops m ps t c' m' ps' l' None None); try done.
    intros t' Hne Hc. by apply Hcs.
Qed.

(** ** The accesses *)

(** An access of the head that leaves it as it is. *)
Lemma after_keep c pcs l ops m ps t p xo q lr p' :
  TI c pcs (mkSpec l ops) m ps -> pcs !! t = Some p -> calls_in (c_history c) t = [] ->
  match xo with Some x => usable t c x | None => True end ->
  atomic_run false (issue (bool_decide (is_Some xo)) q) (root c 0) = Ret (root c 0, lr) ->
  (forall c', pc_ok c' m t p (ops !! t) -> calls_in (c_history c') t = [] ->
     (forall x, xo = Some x -> root c 0 <> 0 -> root c 0 ∈ seen_by (c_history c') x) -> pc_ok c' m t p' (ops !! t)) ->
  (forall q, owned_node p' = Some q -> owned_node p = Some q) ->
  exists c', access plat batch_size t xo HEAD q c = Some (c', lr) /\ after c pcs (mkSpec l ops) t c' (inl p').
Proof.
  intros HI Hp Hc Hu Ea Hok Hown.
  destruct (head_keeps plat batch_size t xo q c m ps l lr (ti_shape _ _ _ _ _ _ _ HI) Hc Hu Ea)
    as (c' & E & Hr & Hs & Hun & Hcs & Est & Hseen).
  exists c'. split; [done|]. apply (after_inl (fun _ => False) c pcs l ops m ps t p c' m ps l p' (ops !! t)); try done; try (by auto).
  - intros t' Ht _. by rewrite Hcs.
  - apply Hok; [|by rewrite Hcs|done].
    apply (pc_frame plat batch_size ∅ (fun _ => False) c m c' m ps l); [apply HI|done|by apply (ti_pcs _ _ _ _ _ _ _ HI)|set_solver|auto|by rewrite Hcs].
Qed.

(** The same, when the operation returns. *)
Lemma after_keep_return c pcs l ops m ps t xo q lr o r :
  TI c pcs (mkSpec l ops) m ps -> calls_in (c_history c) t = [] ->
  match xo with Some x => usable t c x | None => True end ->
  atomic_run false (issue (bool_decide (is_Some xo)) q) (root c 0) = Ret (root c 0, lr) ->
  ops !! t = Some (Todo o) -> sequential o l = (l, r) ->
  exists c', access plat batch_size t xo HEAD q c = Some (c', lr) /\ after c pcs (mkSpec l ops) t c' (inr r).
Proof.
  intros HI Hc Hu Ea Ho Hseq.
  destruct (head_keeps plat batch_size t xo q c m ps l lr (ti_shape _ _ _ _ _ _ _ HI) Hc Hu Ea)
    as (c' & E & Hr & Hs & Hun & Hcs & _ & _).
  exists c'. split; [done|]. apply (after_inr (fun _ => False) c pcs l ops m ps t c' m ps l r); try done; try (by eauto).
  intros t' Ht _. by rewrite Hcs.
Qed.

Lemma run_keep (q : request) (g : bool) v :
  match q with QLoad Release | QLoad AcqRel => g = true | QLoad _ => True | _ => False end ->
  atomic_run false (issue g q) v = Ret (v, inl v).
Proof. by destruct q as [[]|o|], g. Qed.

Lemma run_fail v head new o1 o2 : load_ordering o2 = true -> v <> head ->
  atomic_run false (issue false (QExchange false head new o1 o2)) v = Ret (v, inr v).
Proof. intros Ho Hv. simpl. rewrite Ho, decide_False; [done|]. by intros [? _]. Qed.

(** Nobody else has the shared head or the node of thread [t]. *)
Lemma shared_unowned c pcs a m ps t p q : TI c pcs a m ps -> h_status (c_history c) !! q = Some Shared ->
  pcs !! t = Some p -> owned_node p <> Some q.
Proof.
  intros HI Hq Hp Ho. destruct (owned_other _ _ _ _ _ _ _ _ HI Hp Ho) as [Hpr|[X Hul]]; unfold is_private in *; congruence.
Qed.

(** ** Operations *)

Lemma step_push_load c pcs l ops m ps t x new :
  TI c pcs (mkSpec l ops) m ps -> pcs !! t = Some (PushLoad x new) ->
  exists c' next, run_pc t (PushLoad x new) c = Some (c', next) /\ after c pcs (mkSpec l ops) t c' next.
Proof.
  intros HI Hp. destruct (ti_pcs _ _ _ _ _ _ _ HI t _ Hp) as (Hu & Hc & Hat). simpl in Hu, Hc, Hat.
  destruct (after_keep c pcs l ops m ps t (PushLoad x new) (Some x) (QLoad Relaxed) (inl (root c 0)) (PushSet x new (root c 0)))
    as (c' & E & Haf); try done.
  exists c'. eexists. split; [unfold pc_step; by rewrite E|done].
Qed.

Lemma step_pop_load c pcs l ops m ps t x :
  TI c pcs (mkSpec l ops) m ps -> pcs !! t = Some (PopLoad x) ->
  exists c' next, run_pc t (PopLoad x) c = Some (c', next) /\ after c pcs (mkSpec l ops) t c' next.
Proof.
  intros HI Hp. destruct (ti_pcs _ _ _ _ _ _ _ HI t _ Hp) as (Hu & Hc & Hat). simpl in Hu, Hc, Hat.
  destruct (ops !! t) as [[[]|]|] eqn:Eo; try done.
  destruct (decide (root c 0 = 0)) as [Hz|Hz].
  - pose proof (sh_chain _ _ _ _ _ _ (ti_shape _ _ _ _ _ _ _ HI)) as Hch. rewrite Hz in Hch. apply chain_from_null in Hch as [_ El]. simpl in El. subst l.
    destruct (after_keep_return c pcs [] ops m ps t (Some x) (QLoad Acquire) (inl (root c 0)) Pop (RPopped None)) as (c' & E & Haf); try done.
    exists c'. eexists. split; [unfold pc_step; rewrite E; simpl; by rewrite decide_True|done].
  - destruct (after_keep c pcs l ops m ps t (PopLoad x) (Some x) (QLoad Acquire) (inl (root c 0)) (PopNext x (root c 0)))
      as (c' & E & Haf); try done.
    { intros c' (Hu' & Hc' & Hat') _ Hseen. split; [done|]. split; [done|]. rewrite Eo. split; [done|by apply Hseen]. }
    exists c'. eexists. split; [unfold pc_step; rewrite E; simpl; by rewrite decide_False|done].
Qed.

Lemma step_empty_load c pcs l ops m ps t :
  TI c pcs (mkSpec l ops) m ps -> pcs !! t = Some EmptyLoad ->
  exists c' next, run_pc t EmptyLoad c = Some (c', next) /\ after c pcs (mkSpec l ops) t c' next.
Proof.
  intros HI Hp. destruct (ti_pcs _ _ _ _ _ _ _ HI t _ Hp) as (Hu & Hc & Hat). simpl in Hu, Hc, Hat.
  destruct (ops !! t) as [[[]|]|] eqn:Eo; try done.
  destruct (after_keep_return c pcs l ops m ps t None (QLoad Relaxed) (inl (root c 0)) IsEmpty (REmpty (bool_decide (root c 0 = 0))))
    as (c' & E & Haf); try done.
  { simpl. f_equal. f_equal. apply bool_decide_ext. apply (chain_empty m (c_history c) _ ps). apply (ti_shape _ _ _ _ _ _ _ HI). }
  exists c'. eexists. split; [unfold pc_step; by rewrite E|done].
Qed.

Lemma step_push_set c pcs l ops m ps t x new head :
  TI c pcs (mkSpec l ops) m ps -> pcs !! t = Some (PushSet x new head) ->
  exists c' next, run_pc t (PushSet x new head) c = Some (c', next) /\ after c pcs (mkSpec l ops) t c' next.
Proof.
  intros HI Hp. destruct (ti_pcs _ _ _ _ _ _ _ HI t _ Hp) as (Hu & Hc & Hat). simpl in Hu, Hc, Hat.
  destruct (ops !! t) as [[[v| |]|]|] eqn:Eo; try done. destruct Hat as (Hpr & n & Hd).
  destruct (set_next plat batch_size t new v n head c m ps l) as (c' & m' & E & Hr & Hs & Hun & Eh & Hd'); [apply HI|done..|].
  exists c'. eexists. split; [unfold pc_step; by rewrite E|].
  apply (after_inl (fun q : Z => q = new) c pcs l ops m ps t (PushSet x new head) c' m' ps l (PushCas x new head) (ops !! t)); try done.
  - intros t' p q Hne Hp' Hq ->. by apply (owned_ne c pcs (mkSpec l ops) m ps t t' (PushSet x new head) p new).
  - intros t' Ht _. by rewrite Eh.
  - split; [by apply (un_usable _ _ _ _ _ _ Hun t x)|]. rewrite Eh, Eo. done.
  - auto.
  - auto.
Qed.

Lemma step_push_cas c pcs l ops m ps t x new head :
  TI c pcs (mkSpec l ops) m ps -> pcs !! t = Some (PushCas x new head) ->
  exists c' next, run_pc t (PushCas x new head) c = Some (c', next) /\ after c pcs (mkSpec l ops) t c' next.
Proof.
  intros HI Hp. destruct (ti_pcs _ _ _ _ _ _ _ HI t _ Hp) as (Hu & Hc & Hat). simpl in Hu, Hc, Hat.
  destruct (ops !! t) as [[[v| |]|]|] eqn:Eo; try done. destruct Hat as (Hpr & Hd).
  destruct (decide (root c 0 = head)) as [Hh|Hh].
  - subst head. destruct (head_push plat batch_size t new v c m ps l) as (c' & E & Hr & Hs & Hun & Hcs); [apply HI|done..|].
    exists c'. eexists. split; [unfold pc_step; by rewrite E|].
    apply (after_inr (fun q : Z => q = new) c pcs l ops m ps t c' m (new :: ps) (v :: l) RPushed); try done; try (by eauto).
    + intros t' p q Hne Hp' Hq ->. by apply (owned_ne c pcs (mkSpec l ops) m ps t t' (PushCas x new (root c 0)) p new).
    + intros t' Ht _. by rewrite Hcs.
  - destruct (after_keep c pcs l ops m ps t (PushCas x new head) None (QExchange false head new Release Relaxed) (inr (root c 0)) (PushLoad x new))
      as (c' & E & Haf); try done; [by apply run_fail| |].
    + intros c' (Hu' & Hc' & Hat') _ _. split; [done|]. split; [done|]. rewrite Eo in *. destruct Hat' as [? ?]. simpl. eauto.
    + exists c'. eexists. split; [unfold pc_step; by rewrite E|done].
Qed.

Lemma step_pop_next c pcs l ops m ps t x head :
  TI c pcs (mkSpec l ops) m ps -> pcs !! t = Some (PopNext x head) ->
  exists c' next, run_pc t (PopNext x head) c = Some (c', next) /\ after c pcs (mkSpec l ops) t c' next.
Proof.
  intros HI Hp. destruct (ti_pcs _ _ _ _ _ _ _ HI t _ Hp) as (Hu & Hc & Hat). simpl in Hu, Hc, Hat.
  destruct (ops !! t) as [[[v| |]|]|] eqn:Eo; try done. destruct Hat as (Hh0 & Hseen).
  pose proof (ti_shape _ _ _ _ _ _ _ HI) as Hs0. simpl in Hs0.
  destruct (seen_node plat batch_size c m ps l x head Hs0 Hseen) as (d & n & Hd).
  destruct (read_next plat batch_size t x head d n c m ps l) as (c' & E & Hr & Hs & Hun & Hcs & Hse); [done..|].
  exists c'. eexists. split; [unfold pc_step; by rewrite E|].
  apply (after_inl (fun _ => False) c pcs l ops m ps t (PopNext x head) c' m ps l (PopCas x head n) (ops !! t)); try done; try (by auto).
  - intros t' Ht _. by rewrite Hcs.
  - split; [by apply (un_usable _ _ _ _ _ _ (Hun (fun _ => False)) t x)|]. split; [by rewrite Hcs|]. rewrite Eo. simpl. eauto.
Qed.

Lemma step_pop_cas c pcs l ops m ps t x head n :
  TI c pcs (mkSpec l ops) m ps -> pcs !! t = Some (PopCas x head n) ->
  exists c' next, run_pc t (PopCas x head n) c = Some (c', next) /\ after c pcs (mkSpec l ops) t c' next.
Proof.
  intros HI Hp. destruct (ti_pcs _ _ _ _ _ _ _ HI t _ Hp) as (Hu & Hc & Hat). simpl in Hu, Hc, Hat.
  destruct (ops !! t) as [[[v| |]|]|] eqn:Eo; try done. destruct Hat as (Hh0 & Hseen & d & Hd).
  pose proof (ti_shape _ _ _ _ _ _ _ HI) as Hs0. simpl in Hs0.
  destruct (decide (root c 0 = head)) as [Hh|Hh].
  - subst head. destruct (head_pop plat batch_size t c m ps l d n) as (c1 & c' & ev & ps' & l' & E & E2 & -> & Hr & Hs & Hun & Hse & Hul & Hcs); [done..|].
    assert (h_status (c_history c) !! root c 0 = Some Shared) as Hsh
      by (destruct (chain_start _ _ _ _ _ (sh_chain _ _ _ _ _ _ Hs0)) as [|[_ ?]]; done).
    exists c'. eexists. split; [unfold pc_step; rewrite E; cbn [mbind option_bind]; by rewrite E2|].
    apply (after_inl (fun q : Z => q = root c 0) c pcs (d :: l') ops m ps t (PopCas x (root c 0) n) c' m ps' l'
      (PopRead x (root c 0)) (Some (Done (RPopped (Some d))))); try done.
    + intros t' p q Hne Hp' Hq ->. by apply (shared_unowned _ _ _ _ _ _ _ _ HI Hsh Hp').
    + intros t' Ht _. by rewrite Hcs.
    + split; [by apply (un_usable _ _ _ _ _ _ Hun t x)|]. split; [by rewrite Hcs|]. simpl.
      split; [|split; [done|by exists n]]. unfold seen_by. by rewrite Hse.
    + intros q [= <-]. right. intros t' p' Hp'. by apply (shared_unowned _ _ _ _ _ _ _ _ HI Hsh Hp').
    + right. exists Pop, (RPopped (Some d)). done.
  - destruct (after_keep c pcs l ops m ps t (PopCas x head n) None (QExchange false head n Relaxed Relaxed) (inr (root c 0)) (PopLoad x))
      as (c' & E & Haf); try done; [by apply run_fail| |].
    + intros c' (Hu' & Hc' & Hat') _ _. split; [done|]. split; [done|]. by rewrite Eo.
    + exists c'. eexists. split; [unfold pc_step; by rewrite E|done].
Qed.

Lemma step_pop_read c pcs l ops m ps t x head :
  TI c pcs (mkSpec l ops) m ps -> pcs !! t = Some (PopRead x head) ->
  exists c' next, run_pc t (PopRead x head) c = Some (c', next) /\ after c pcs (mkSpec l ops) t c' next.
Proof.
  intros HI Hp. destruct (ti_pcs _ _ _ _ _ _ _ HI t _ Hp) as (Hu & Hc & Hat). simpl in Hu, Hc, Hat.
  destruct (ops !! t) as [[|[|[d|]| |]]|] eqn:Eo; try done. destruct Hat as (Hseen & Hul & n & Hd).
  pose proof (ti_shape _ _ _ _ _ _ _ HI) as Hs0. simpl in Hs0.
  destruct (read_value plat batch_size t x head d [n] c m ps l) as (E & Hr); [done..|].
  exists c. eexists. split; [unfold pc_step; by rewrite E|].
  apply (after_inl (fun _ => False) c pcs l ops m ps t (PopRead x head) c m ps l (PopRetire x head d) (ops !! t)); try done; try (by auto).
  - constructor; try done. intros q X _ Hq. split; [by exists X|done].
  - split; [done|]. split; [done|]. by rewrite Eo.
Qed.

(** The call of [retire], within the rules. *)
Lemma retire_legal c pcs l ops m ps t x head d :
  TI c pcs (mkSpec l ops) m ps -> pcs !! t = Some (PopRetire x head d) ->
  Z.of_nat (size (locals (c_sys c))) < usize_max -> clegal (KSys (GOp t (CRetire head BOXED))) c.
Proof.
  intros HI Hp Hfew. destruct (ti_pcs _ _ _ _ _ _ _ HI t _ Hp) as (Hu & Hc & Hat). simpl in Hu, Hc, Hat.
  destruct (ops !! t) as [[|[|[v|]| |]]|] eqn:Eo; try done. destruct Hat as (-> & X & Hul).
  pose proof (ti_shape _ _ _ _ _ _ _ HI) as Hs. simpl in Hs. split; [done|]. unfold legal_retire. simpl.
  rewrite (sh_memory _ _ _ _ _ _ Hs), Hul. intros _.
  destruct (proj1 (co_status _ _ _ (shape_core _ _ _ _ _ _ Hs) head)) as [nd (b & Hb & Hnd)%bind_Some]; [by rewrite Hul|].
  destruct b as [box cnt]. pose proof (sh_boxes _ _ _ _ _ _ Hs head _ Hb) as Hbox. simpl in Hbox. subst box. by exists cnt.
Qed.

Lemma step_pop_retire c pcs l ops m ps t x head d c' next :
  TI c pcs (mkSpec l ops) m ps -> pcs !! t = Some (PopRetire x head d) ->
  Z.of_nat (size (locals (c_sys c))) < usize_max -> run_pc t (PopRetire x head d) c = Some (c', next) ->
  after c pcs (mkSpec l ops) t c' next.
Proof.
  intros HI Hp Hfew E. pose proof (retire_legal _ _ _ _ _ _ _ _ _ _ HI Hp Hfew) as Hl.
  destruct (ti_pcs _ _ _ _ _ _ _ HI t _ Hp) as (Hu & Hc & Hat). simpl in Hu, Hc, Hat.
  destruct (ops !! t) as [[|[|[v|]| |]]|] eqn:Eo; try done. destruct Hat as (-> & X & Hul).
  pose proof (ti_shape _ _ _ _ _ _ _ HI) as Hs. simpl in Hs. unfold pc_step in E.
  apply bind_Some in E as ([c1 ev] & Est & E). injection E as -> <-.
  destruct (library_shape plat batch_size _ c c' ev m ps l Hs Hl Est) as (m' & Hr & HL & Hs').
  { intros q [= <-] Hin. pose proof (chain_shared _ _ _ _ _ _ (sh_chain _ _ _ _ _ _ Hs) Hin). congruence. }
  pose proof (ls_undisturbed _ _ _ _ _ HL) as Hun. simpl in Hun.
  assert (forall t' p q, t' <> t -> pcs !! t' = Some p -> owned_node p = Some q -> ~ taken (GOp t (CRetire head BOXED)) q) as HP.
  { intros t' p q Hne Hp' Hq [= <-]. by apply (owned_ne c pcs (mkSpec l ops) m ps t t' (PopRetire x head v) p head). }
  assert (forall t', calls_in (c_history c) t' = [] -> t' <> t -> calls_in (c_history c') t' = []) as Hcs
    by (intros t' Ht Hne; apply (ls_calls _ _ _ _ _ HL); [congruence|done]).
  destruct (returned_to t ev) as [r|].
  - eapply after_inr; try done. left. split; [done|]. exists (RPopped (Some v)). split; [done|].
    unfold unwrap_retire. case_decide; [by left|right]. split; [done|by exists v].
  - eapply (after_inl _ c pcs l ops m ps t (PopRetire x head v) c' m' ps l (PopWait x v) (ops !! t)); try done; [|by auto].
    split; [by apply (un_usable _ _ _ _ _ _ Hun t x)|]. split; [done|]. by rewrite Eo.
Qed.

Lemma retire_taken c t (p f : Z) : at_client (stack (raw (c_sys c)) t) = true ->
  is_Some (cstep plat batch_size (KSys (GOp t (CRetire p f))) c).
Proof.
  intros Hc. simpl. unfold lib_step. simpl. rewrite Hc. unfold Collector_retire, with_current.
  destruct (Thread_current t (registry (c_sys c))) as [[th|] reg]; simpl; [rewrite Hc; simpl|]; by eexists.
Qed.

(** An operation in progress can go on, if it is not in a call of the library. *)
Lemma pc_step_after c pcs l ops m ps t p :
  TI c pcs (mkSpec l ops) m ps -> pcs !! t = Some p -> Z.of_nat (size (locals (c_sys c))) < usize_max ->
  match p with PopWait _ _ => True | _ =>
    exists c' next, run_pc t p c = Some (c', next) /\ after c pcs (mkSpec l ops) t c' next end.
Proof.
  intros HI Hp Hfew. destruct p as [x new|x new head|x new head|x|x head|x head next|x head|x head data|x data|].
  - by eapply step_push_load.
  - by eapply step_push_set.
  - by eapply step_push_cas.
  - by eapply step_pop_load.
  - by eapply step_pop_next.
  - by eapply step_pop_cas.
  - by eapply step_pop_read.
  - assert (is_Some (run_pc t (PopRetire x head data) c)) as [[c' next] E].
    { destruct (ti_pcs _ _ _ _ _ _ _ HI t _ Hp) as (_ & Hc & _). simpl in Hc.
      destruct (retire_taken c t head BOXED) as [[c' ev] E]; [|unfold pc_step; rewrite E; by eexists].
      by rewrite (shape_idle _ _ _ _ _ _ _ (ti_shape _ _ _ _ _ _ _ HI) Hc). }
    exists c', next. split; [done|]. by eapply step_pop_retire.
  - done.
  - by eapply step_empty_load.
Qed.

(** ** Calls *)

Lemma begin_after c pcs l ops m ps t x o addr c' p :
  TI c pcs (mkSpec l ops) m ps -> pcs !! t = None -> stack (raw (c_sys c)) t = [] -> addr <> 0 ->
  match guard_of_op x o with Some x => usable t c x | None => True end ->
  begin plat batch_size t x o addr c = Some (c', p) ->
  exists m', reaches c c' /\ TI c' (<[t := p]> pcs) (mkSpec l (<[t := Todo o]> ops)) m' ps.
Proof.
  intros HI Hp Hst Ha Hu E. pose proof (ti_shape _ _ _ _ _ _ _ HI) as Hs. simpl in Hs.
  assert (calls_in (c_history c) t = []) as Hc by (by apply (calls_stack plat batch_size c t (sh_client _ _ _ _ _ _ Hs))).
  assert (forall p, match p with PopLoad y => o = Pop /\ y = x | EmptyLoad => o = IsEmpty | _ => False end ->
    TI c (<[t := p]> pcs) (mkSpec l (<[t := Todo o]> ops)) m ps) as Hnop.
  { intros p' Hp'. apply (TI_update plat batch_size (fun _ => False) c pcs l ops m ps t c m ps l (Some p') (Some (Todo o))); try done; try (by auto).
    - constructor; try done. intros q X _ Hq. split; [by exists X|done].
    - destruct p'; try done; [destruct Hp' as [-> ->]|subst o]; (split; [split; [done|split; done]|done]). }
  destruct o as [v| |]; simpl in E, Hu.
  - apply bind_Some in E as ([c1 ev] & E & [= -> <-]).
    destruct (new_node plat batch_size t addr v c c' ev m ps l Hs Ha E) as (m' & Hr & Hs' & Hun & Hcs & Hn & Hpr & Hd).
    exists m'. split; [done|].
    apply (TI_update plat batch_size (fun _ => False) c pcs l ops m ps t c' m' ps l (Some (PushLoad x addr)) (Some (Todo (Push v)))); try done; try (by auto).
    + intros t' Ht. by rewrite Hcs.
    + split; [split; [by apply (un_usable _ _ _ _ _ _ (Hun (fun _ => False)) t x)|split; [by rewrite Hcs|]]|].
      * split; [done|by exists 0].
      * intros t' p' q _ Hp' [= <-] Hq. destruct (owned_other _ _ _ _ _ _ _ _ HI Hp' Hq) as [|[X ?]]; unfold is_private in *; congruence.
  - injection E as <- <-. exists m. split; [by exists []; constructor|]. by apply Hnop.
  - injection E as <- <-. exists m. split; [by exists []; constructor|]. by apply Hnop.
Qed.

(** ** Steps of the library *)

Lemma on_event_after e c pcs a m ps pcs' tr :
  TI c pcs a m ps -> on_event e pcs = (pcs', tr) -> exists a', spec_steps a tr a' /\ TI c pcs' a' m ps.
Proof.
  intros HI E. assert ((pcs', tr) = (pcs, []) -> exists a', spec_steps a tr a' /\ TI c pcs' a' m ps) as Hsame.
  { intros [= -> ->]. exists a. split; [constructor|done]. }
  unfold on_event in E. destruct e as [[t o|e|t r]| | |]; try (by apply Hsame).
  destruct (pcs !! t) as [[]|] eqn:Hp; try (by apply Hsame). injection E as <- <-. clear Hsame. destruct a as [l ops].
  destruct (ti_pcs _ _ _ _ _ _ _ HI t _ Hp) as (_ & _ & Hat). simpl in Hat.
  destruct (ops !! t) as [[|[|[v|]| |]]|] eqn:Eo; try done. subst v.
  exists (mkSpec l (delete t ops)). split.
  - apply spec_one. eapply spec_return; [done|]. unfold unwrap_retire. case_decide; [by left|right]. split; [done|by exists data].
  - apply (TI_update plat batch_size (fun _ => False) c pcs l ops m ps t c m ps l None None); try done; try (by auto).
    + apply (ti_shape _ _ _ _ _ _ _ HI).
    + constructor; try done. intros q X _ Hq. split; [by exists X|done].
Qed.

Lemma on_events_after ev c pcs a m ps pcs' tr :
  TI c pcs a m ps -> on_events ev pcs = (pcs', tr) -> exists a', spec_steps a tr a' /\ TI c pcs' a' m ps.
Proof.
  revert pcs a pcs' tr. induction ev as [|e ev IH]; intros pcs a pcs' tr HI E; simpl in E.
  - injection E as <- <-. exists a. split; [constructor|done].
  - destruct (on_event e pcs) as [pcs1 tr1] eqn:E1. destruct (on_events ev pcs1) as [pcs2 tr2] eqn:E2. injection E as <- <-.
    destruct (on_event_after _ _ _ _ _ _ _ _ HI E1) as (a1 & Ha1 & HI1).
    destruct (IH _ _ _ _ HI1 E2) as (a2 & Ha2 & HI2). exists a2. split; [by eapply spec_steps_trans|done].
Qed.

Lemma library_after g c pcs a m ps c' ev :
  TI c pcs a m ps -> clegal (KSys g) c -> cstep plat batch_size (KSys g) c = Some (c', ev) ->
  match g with
  | GOp t o => retires o = None /\ pcs !! t = None /\ map_Forall (fun _ p => forall x, borrowed p = Some x -> x ∉ released o) pcs
  | _ => True
  end ->
  exists m', reaches c c' /\ TI c' pcs a m' ps.
Proof.
  intros HI Hl E Hg. pose proof (ti_shape _ _ _ _ _ _ _ HI) as Hs.
  assert (forall q, ~ taken g q) as Hnt.
  { intros q Hq. destruct g as [t o|t|t|t|r|sys x86|ro]; try done. destruct Hg as [Hr _]. simpl in Hq. by rewrite Hr in Hq. }
  destruct (library_shape plat batch_size g c c' ev m ps _ Hs Hl E) as (m' & Hr & HL & Hs').
  { intros q Hq. by destruct (Hnt q). }
  exists m'. split; [done|]. constructor; [done| |apply HI|apply HI]. intros t p Hp.
  apply (pc_frame plat batch_size (ended g) (taken g) c m c' m' ps (sp_stack a)); [done|apply HL|by apply (ti_pcs _ _ _ _ _ _ _ HI)| | |].
  - intros x Hx. destruct g as [t' o|t'|t'|t'|r|sys x86|ro]; simpl; set_solver.
  - intros q _. apply Hnt.
  - intros Hc. apply (ls_calls _ _ _ _ _ HL); [|done]. intros o ->. destruct Hg as (_ & Hn & _). congruence.
Qed.

(** ** Runs *)

Abbreviation tstep := (tstep plat batch_size).
Abbreviation tsteps := (tsteps plat batch_size).

Definition inv (s : stack_state A) a : Prop := exists m ps, TI (st_client s) (st_pcs s) a m ps.

Lemma system_legal g (s : stack_state A) : tlegal (TSys g) s -> clegal (KSys g) (st_client s).
Proof.
  destruct g as [t o|t|t|t|r|sys x86|ro]; try by intros Hl. intros (Hl & Hr & _). split; [done|]. unfold legal_retire. by rewrite Hr.
Qed.

Lemma inv_tstep l (s s' : stack_state A) ev a : inv s a -> tlegal l s -> tstep l s = Some (s', ev) ->
  exists a', spec_steps a ev a' /\ inv s' a' /\ reaches (st_client s) (st_client s').
Proof.
  intros (m & ps & HI) Hl E. destruct a as [l0 ops]. destruct l as [g|t x o addr|t]; cbn [Treiber.tstep] in E.
  - apply bind_Some in E as ([c' cev] & Est & E). destruct (on_events cev (st_pcs s)) as [pcs' tr] eqn:Ee. injection E as <- <-.
    destruct (library_after g _ _ _ _ _ c' cev HI (system_legal g s Hl) Est) as (m' & Hr & HI').
    { destruct g; try done. by destruct Hl as (_ & ? & ? & _ & ?). }
    destruct (on_events_after _ _ _ _ _ _ _ _ HI' Ee) as (a' & Ha & HI2).
    exists a'. split; [done|]. split; [|done]. by exists m', ps.
  - destruct Hl as (Hp & Hst & Ha & Hu). apply bind_Some in E as ([c' p] & Eb & E). injection E as <- <-.
    destruct (begin_after _ _ _ _ _ _ _ _ _ _ _ _ HI Hp Hst Ha Hu Eb) as (m' & Hr & HI').
    exists (mkSpec l0 (<[t := Todo o]> ops)). split; [|split; [by exists m', ps|done]].
    apply spec_one, spec_invoke. by apply (ti_idle _ _ _ _ _ _ _ HI t).
  - apply bind_Some in E as (p & Hp & E). apply bind_Some in E as ([c' next] & Ep & E).
    pose proof (pc_step_after _ _ _ _ _ _ _ _ HI Hp Hl) as Hstep.
    assert (after (st_client s) (st_pcs s) (mkSpec l0 ops) t c' next) as (a' & m' & ps' & Ha & Hr & HI').
    { destruct p; try done; destruct Hstep as (c2 & n2 & E2 & Haf); rewrite Ep in E2; by injection E2 as <- <-. }
    exists a'. destruct next as [p'|r]; injection E as <- <-; (split; [done|]); (split; [by exists m', ps'|done]).
Qed.

Lemma inv_tsteps (s : stack_state A) tr s' a : inv s a -> tsteps s tr s' ->
  exists a', spec_steps a tr a' /\ inv s' a' /\ reaches (st_client s) (st_client s').
Proof.
  intros HI Hst. revert a HI. induction Hst as [s|s1 l s2 ev tr s3 Hl Hs Hst IH]; intros a HI.
  - exists a. split; [constructor|]. split; [done|]. exists []. constructor.
  - destruct (inv_tstep l s1 s2 ev a HI Hl Hs) as (a2 & Ha2 & HI2 & Hr2).
    destruct (IH a2 HI2) as (a3 & Ha3 & HI3 & Hr3). exists a3.
    split; [by eapply spec_steps_trans|]. split; [done|]. by eapply reaches_trans.
Qed.

Lemma inv_new strat cap (a0 a1 : A) (r0 : raw_state A) :
  strategy_ok strat -> in_usize cap -> in_usize batch_size -> collector_new strat cap a0 = Ret (a1, Ok r0) ->
  inv (stack_new r0) spec_init.
Proof.
  intros Hs Hc Hb E. exists ∅, []. constructor; simpl; try done. constructor; try done.
  - by apply (CI_new plat batch_size strat cap a0 a1).
  - constructor.
  - constructor.
Qed.

(** C6. The stack is linearizable. Take any number of threads that push to a
    stack and pop from it, through guards of their own, that enter, refresh and
    drop guards in between, and any interleaving of their accesses with each
    other and with the steps of the collector. What they see is what the
    specification does in which each operation happens at one moment between
    its call and its return: pops return the values in the order of a stack,
    each once, and [None] only if the stack is empty. At any time the nodes from
    the head hold the values of that stack. *)
Theorem stack_linearizable strat cap (a0 a1 : A) (r0 : raw_state A) tr s :
  strategy_ok strat -> in_usize cap -> in_usize batch_size ->
  collector_new strat cap a0 = Ret (a1, Ok r0) -> tsteps (stack_new r0) tr s ->
  exists a m ps, spec_steps spec_init tr a /\ c_memory (st_client s) = Some m /\
    chain m (c_history (st_client s)) (root (st_client s) 0) ps (sp_stack a).
Proof.
  intros Hs Hc Hb E Hst. destruct (inv_tsteps _ _ _ _ (inv_new _ _ _ _ _ Hs Hc Hb E) Hst) as (a & Ha & (m & ps & HI) & _).
  exists a, m, ps. split; [done|]. split; apply (ti_shape _ _ _ _ _ _ _ HI).
Qed.

(** C10. The stack keeps the rules of clients. Its accesses never meet a node
    that was dropped or freed: every run of the stack is a run of clients with
    memory that keep to the rules, an operation in progress that is not in the
    call of [retire] can always make its next access, and the memory of the
    stack is defined. *)
Theorem stack_keeps_rules strat cap (a0 a1 : A) (r0 : raw_state A) tr s :
  strategy_ok strat -> in_usize cap -> in_usize batch_size ->
  collector_new strat cap a0 = Ret (a1, Ok r0) -> tsteps (stack_new r0) tr s ->
  (exists ctr, csteps plat batch_size (client_new r0) ctr (st_client s)) /\ is_Some (c_memory (st_client s)) /\
  forall t p, st_pcs s !! t = Some p -> (forall x data, p <> PopWait x data) -> tlegal (TStep t) s -> is_Some (tstep (TStep t) s).
Proof.
  intros Hs Hc Hb E Hst. destruct (inv_tsteps _ _ _ _ (inv_new _ _ _ _ _ Hs Hc Hb E) Hst) as ([l ops] & _ & (m & ps & HI) & Hr).
  split; [done|]. split; [exists m; apply (ti_shape _ _ _ _ _ _ _ HI)|]. intros t p Hp Hw Hl.
  pose proof (pc_step_after _ _ _ _ _ _ _ _ HI Hp Hl) as Hstep.
  assert (exists c' next, run_pc t p (st_client s) = Some (c', next)) as (c' & next & Ep)
    by (destruct p; try (destruct Hstep as (c2 & n2 & E2 & _); eauto); by destruct (Hw x data)).
  cbn [Treiber.tstep]. rewrite Hp. cbn [mbind option_bind]. rewrite Ep. simpl. by destruct next; eexists.
Qed.
End TreiberSafe.
