(* ===== verification/GuardScenario.v ===== *)
(** * Histories of guards

    Concrete histories of clients, evaluated: the hypotheses of the theorems
    about guards hold in them, and what becomes of a guard that is leaked. *)

From stdpp Require Import prelude list gmap.
From S2P Require Import Prelude Alloc ThreadId Membarrier Tls RawData RawStep RawExec RawGhost RawInv RawPreserve RawProtect RawConserve RawScenario Guard GuardExec GuardInv GuardPreserve GuardHandle GuardOps GuardRefine GuardSafe GuardSpec GuardEnter GuardProgress GuardRetire GuardReserve GuardSolo.

Open Scope Z_scope.

Definition gstart : guard_state Bump := gstate_new (start MEMBARRIER).

Definition ghistory := option (guard_state Bump * list gevent).
Definition gstate_of (h : ghistory) : guard_state Bump := from_option fst gstart h.
Definition gtrace_of (h : ghistory) : list gevent := from_option snd [] h.

(** Calls within the rules, with batches of two objects. *)
Definition play (cs : list gcommand) (s : guard_state Bump) : ghistory := gscript PLinux 2 true 400 cs s.

Lemma play_steps cs s : is_Some (play cs s) -> gsteps PLinux 2 s (gtrace_of (play cs s)) (gstate_of (play cs s)).
Proof. intros [[s' tr] E]. rewrite E. by apply (gscript_steps PLinux 2 400 cs). Qed.

Lemma play_reachable cs : is_Some (play cs gstart) -> greachable PLinux 2 (gstate_of (play cs gstart)).
Proof.
  intros Hp. destruct (start_new MEMBARRIER membarrier_ok) as [a E].
  exists MEMBARRIER, 4, bump_init, a, (start MEMBARRIER), (gtrace_of (play cs gstart)).
  split; [apply membarrier_ok|]. split; [usize|]. split; [usize|]. split; [exact E|]. by apply play_steps.
Qed.

(** Thread 1 holds two nested guards, thread 2 retires two objects. *)
Definition nested : list gcommand := [GCallTo 1 (CEnter 10); GCallTo 1 (CEnter 11)].
Definition retiring : list gcommand :=
  [GCallTo 2 (CEnterOwned true 20); GCallTo 2 (GDefer (OG 20) 100 7); GCallTo 2 (GDefer (OG 20) 101 7);
   GCallTo 2 (GFlush (OG 20)); GCallTo 2 (GDrop true (OG 20))].

Definition s_nested : guard_state Bump := gstate_of (play nested gstart).
Definition h_retiring : ghistory := play retiring s_nested.

Lemma s_nested_reachable : greachable PLinux 2 s_nested.
Proof. apply play_reachable. vm_compute. by eexists. Qed.

Lemma retiring_steps : gsteps PLinux 2 s_nested (gtrace_of h_retiring) (gstate_of h_retiring).
Proof. apply play_steps. vm_compute. by eexists. Qed.

(** The guards of the rest of the run, once thread 1 has dropped both. *)
Example nested_reclaims :
  evs_reclaimed (raw_events (gtrace_of (play (nested ++ retiring ++
    [GCallTo 1 (GDrop true (LG 10)); GCallTo 1 (GDrop true (LG 11))]) gstart))) = [(100, 7); (101, 7)].
Proof. vm_compute. reflexivity. Qed.

Lemma guards_keep_contract_witness :
  EvRetire 2 100 7 ∈ raw_events (gtrace_of h_retiring) /\
  reachable PLinux 2 (raw (gstate_of h_retiring)) /\
  steps PLinux 2 (raw s_nested) (raw_events (gtrace_of h_retiring)) (raw (gstate_of h_retiring)).
Proof.
  split; [apply (bool_decide_unpack _); vm_compute; exact I|].
  apply (guards_keep_contract PLinux 2); [exact s_nested_reachable|exact retiring_steps].
Defined.

Lemma no_waits_alive (s : guard_state Bump) x :
  is_Some (guard_info s x) -> map_Forall (fun _ ws => ws = []) (waits s) -> alive s x.
Proof.
  intros Hi Hw. split; [done|]. intros t w Hin. unfold waiting in Hin.
  destruct (waits s !! t) as [ws|] eqn:E; [|by apply elem_of_nil in Hin]. apply Hw in E. subst. by apply elem_of_nil in Hin.
Qed.

Lemma s_nested_alive : alive s_nested (LG 11).
Proof. apply no_waits_alive; [vm_compute; by eexists|]. apply (bool_decide_unpack _). vm_compute. exact I. Qed.

Lemma alive_guard_protects_witness :
  GRaw (EvRetire 2 100 7) ∈ gtrace_of h_retiring /\ forall t f, GRaw (EvReclaim t 100 f) ∉ gtrace_of h_retiring.
Proof.
  split; [apply (bool_decide_unpack _); vm_compute; exact I|].
  apply (alive_guard_protects PLinux 2 s_nested (LG 11) 100 _ (gstate_of h_retiring)).
  - exact s_nested_reachable.
  - exact s_nested_alive.
  - apply heap_empty_unscanned. vm_compute. reflexivity.
  - exact retiring_steps.
  - assert (Forall (fun e => match e with GCall _ (GRefresh (LG _)) | GCall _ (GDrop _ (LG _)) => False | _ => True end)
      (gtrace_of h_retiring)) as HF by (vm_compute; repeat constructor).
    rewrite Forall_forall in HF. intros t o Ho [->|[mem ->]]; exact (HF _ Ho).
Defined.

Lemma reservations_follow_guards_witness :
  guards_of (raw s_nested) s00 = Some 2 /\
  (forall n, guards_of (raw s_nested) s00 = Some n -> n = count (locals s_nested) s00) /\
  (slot_free (raw s_nested) s00 -> guarded (raw s_nested) s00 <-> exists x, has_slot s_nested x s00).
Proof.
  split; [vm_compute; reflexivity|]. apply (reservations_follow_guards PLinux 2). exact s_nested_reachable.
Defined.

Lemma s_nested_slots : has_slot s_nested (LG 10) s00 /\ has_slot s_nested (LG 11) s00.
Proof. split; eexists _, _; vm_compute; reflexivity. Qed.

Lemma reservations_unshared_witness :
  LG 10 = LG 11 \/ exists g g' lg lg', LG 10 = LG g /\ LG 11 = LG g' /\ locals s_nested !! g = Some lg /\
    locals s_nested !! g' = Some lg' /\ l_os lg = l_os lg'.
Proof.
  apply (reservations_unshared PLinux 2 s_nested (LG 10) (LG 11) s00); [exact s_nested_reachable|apply s_nested_slots..].
Defined.

(** Thread 2 in the middle of a flush of its owned guard. *)
Definition s_flushing : guard_state Bump :=
  gstate_of (play [GCallTo 2 (CEnterOwned true 20); GStep (GOp 2 (GFlush (OG 20))); GStep (GRun 2)] gstart).

Lemma s_flushing_reachable : greachable PLinux 2 s_flushing.
Proof. apply play_reachable. vm_compute. by eexists. Qed.

Definition flushing : waiter := mkWaiter (GFlush (OG 20)) (KUnlock s00) (mkThread 0 0 0).

Lemma owned_calls_exclusive_witness :
  waiting s_flushing 2 !! 0%nat = Some flushing /\
  (2 = 2 /\ 0 = 0 /\ lock_of (raw s_flushing) s00 = Some true)%nat.
Proof.
  assert (waiting s_flushing 2 !! 0%nat = Some flushing) as Hw by (vm_compute; reflexivity).
  split; [exact Hw|].
  apply (owned_calls_exclusive PLinux 2 s_flushing 2 2 0 0 flushing flushing s00); [exact s_flushing_reachable|exact Hw..|reflexivity|reflexivity].
Defined.

Lemma guards_never_stuck_witness :
  at_client (stack (raw s_flushing) 2) = false /\
  (exists s' ev, gstep PLinux 2 (GRun 2) s_flushing = Some (s', ev)).
Proof.
  assert (at_client (stack (raw s_flushing) 2) = false) as Hc by (vm_compute; reflexivity). split; [exact Hc|].
  apply (guards_never_stuck PLinux 2 s_flushing 2); [exact s_flushing_reachable|vm_compute; reflexivity|exact Hc].
Defined.

Lemma guards_implement_smr_witness :
  GRaw (EvReclaim 1 100 7) ∈ gtrace_of (play (nested ++ retiring ++
    [GCallTo 1 (GDrop true (LG 10)); GCallTo 1 (GDrop true (LG 11))]) gstart) /\
  exists a, smr_steps smr_init (gtrace_of (play (nested ++ retiring ++
    [GCallTo 1 (GDrop true (LG 10)); GCallTo 1 (GDrop true (LG 11))]) gstart)) a.
Proof.
  split; [apply (bool_decide_unpack _); vm_compute; exact I|].
  destruct (start_new MEMBARRIER membarrier_ok) as [a1 E].
  edestruct (guards_implement_smr PLinux 2 MEMBARRIER 4 bump_init a1 (start MEMBARRIER)) as (a & Ha & _);
    [exact membarrier_ok|usize|usize|exact E| |exists a; exact Ha].
  apply play_steps. vm_compute. by eexists.
Defined.

(** The second object of a batch is retired in the call of [flush] on an owned
    guard; the calls that retired say so, whatever became of the others. *)
Lemma retire_results_witness :
  GDone 2 (GRet ROk) ∈ gtrace_of (play (nested ++ retiring) gstart) /\
  exists L, ledger_steps ledger_init (gtrace_of (play (nested ++ retiring) gstart)) L.
Proof.
  split; [apply (bool_decide_unpack _); vm_compute; exact I|].
  destruct (start_new MEMBARRIER membarrier_ok) as [a1 E].
  edestruct (retire_results PLinux 2 MEMBARRIER 4 bump_init a1 (start MEMBARRIER)) as (L & HL & _);
    [exact membarrier_ok|usize|usize|exact E| |exists L; exact HL].
  apply play_steps. vm_compute. by eexists.
Defined.


(** ** Reservations *)

(** From here on the allocator fails. *)
Definition starve (s : guard_state Bump) : guard_state Bump :=
  set_raw (set_alloc (bump_set_failing true (alloc (raw s))) (raw s)) s.

Definition reserving_run : list gcommand := [GCallTo 2 (CEnterOwned true 20); GCallTo 2 (GReserve (OG 20))].

Definition s_reserved : guard_state Bump := gstate_of (play reserving_run gstart).

(** The reservation stands while another thread retires objects of its own. *)
Lemma reservation_kept_witness :
  GDone 2 (GRet ROk) ∈ gtrace_of (play (reserving_run ++ [GCallTo 3 (CRetire 100 7); GCallTo 3 (CRetire 101 7);
    GCallTo 2 (GDefer (OG 20) 102 7)]) gstart) /\
  exists M, ticket_run (gtrace_of (play (reserving_run ++ [GCallTo 3 (CRetire 100 7); GCallTo 3 (CRetire 101 7);
    GCallTo 2 (GDefer (OG 20) 102 7)]) gstart)) tickets_init = Some M.
Proof.
  split; [apply (bool_decide_unpack _); vm_compute; exact I|].
  destruct (start_new MEMBARRIER membarrier_ok) as [a1 E].
  eapply (reservation_kept PLinux 2 MEMBARRIER 4 bump_init a1 (start MEMBARRIER));
    [exact membarrier_ok|usize|usize|exact E|].
  apply play_steps. vm_compute. by eexists.
Defined.

(** With the reservation the retirement succeeds although no memory is left;
    without one it fails. *)
Example reserved_retirement :
  gtrace_of (play [GCallTo 2 (GDefer (OG 20) 102 7)] (starve s_reserved)) =
    [GCall 2 (GDefer (OG 20) 102 7); GRaw (EvRetire 2 102 7); GRaw (EvRet 2 ROk); GDone 2 (GRet ROk)] /\
  gtrace_of (play [GCallTo 3 (CRetire 102 7)] (starve s_reserved)) =
    [GCall 3 (CRetire 102 7); GRaw (EvRet 3 RErr); GDone 3 (GRet RErr)].
Proof. split; vm_compute; reflexivity. Qed.

(** An owned guard can be shared: two retirements of thread 3 through it use
    the reservation that thread 2 made, although thread 2 itself did nothing in
    between. *)
Example reservation_of_another_thread :
  let h := play [GCallTo 3 (GDefer (OG 20) 100 7); GCallTo 3 (GDefer (OG 20) 101 7)] s_reserved in
  (forall o, GCall 2 o ∉ gtrace_of h) /\ is_Some h /\
  gtrace_of (play [GCallTo 2 (GDefer (OG 20) 102 7)] (starve (gstate_of h))) =
    [GCall 2 (GDefer (OG 20) 102 7); GRaw (EvRet 2 RErr); GDone 2 (GRet RErr)].
Proof.
  split; [|split; vm_compute; [by eexists|reflexivity]].
  intros o Ho. assert (Forall (fun e => match e with GCall t _ => t <> 2%nat | _ => True end)
    (gtrace_of (play [GCallTo 3 (GDefer (OG 20) 100 7); GCallTo 3 (GDefer (OG 20) 101 7)] s_reserved))) as HF
    by (vm_compute; repeat constructor; discriminate).
  by eapply Forall_forall in HF as ?; [|exact Ho].
Qed.

(** ** Wait-freedom *)

Definition own_step (t : nat) (l : glabel) : bool :=
  match l with GRun t' => bool_decide (t' = t) | _ => false end.

Fixpoint gplay (ls : list glabel) (s : guard_state Bump) : ghistory :=
  match ls with
  | [] => Some (s, [])
  | l :: ls => '(s1, ev) ← gchecked PLinux 2 true l s; '(s2, tr) ← gplay ls s1; Some (s2, ev ++ tr)
  end.

Lemma gplay_runs t ls s s' tr :
  gplay ls s = Some (s', tr) -> gruns PLinux 2 t s (length (filter (fun l => own_step t l = true) ls)) tr s'.
Proof.
  revert s tr. induction ls as [|l ls IH]; intros s tr; simpl; [intros [= <- <-]; constructor|].
  intros ([s1 ev] & E1 & ([s2 tr2] & E2 & [= <- <-])%bind_Some)%bind_Some.
  unfold gchecked in E1. case_decide as Hl; [|done]. specialize (Hl eq_refl). rewrite filter_cons.
  case_decide as Ho.
  - destruct l; try done. apply bool_decide_eq_true in Ho as ->. simpl. eapply gruns_own; [done..|by apply IH].
  - eapply gruns_other; [|done..|by apply IH]. intros ->. apply Ho. by apply bool_decide_eq_true.
Qed.

(** Thread 1 enters while thread 2 runs, and goes on to enter again. *)
Definition racing : list glabel :=
  [GRun 1; GOp 2 (CEnter 20); GRun 1; GRun 2; GRun 1; GRun 2; GRun 1; GRun 1; GRun 2; GRun 1; GOp 1 (CEnter 11); GRun 1; GRun 1].

Definition h_racing : ghistory := gplay racing (gstate_of (gchecked PLinux 2 true (GOp 1 (CEnter 10)) gstart)).


(** ** A leaked guard *)

(** Thread 1 enters, leaks its guard and exits; its ID goes to an owned guard,
    and then to thread 3. *)
Definition s_leaked : guard_state Bump := gstate_of (play [GCallTo 1 (CEnter 10)] gstart).
Definition s_exited : guard_state Bump := gstate_of (gscript PLinux 2 false 400 [GCallTo 1 (TExit true)] s_leaked).
Definition s_recycled : guard_state Bump :=
  gstate_of (play [GCallTo 2 (CEnterOwned true 20); GCallTo 2 (GDrop true (OG 20)); GCallTo 3 (CEnter 30)] s_exited).
Definition h_unprotected : ghistory := play [GCallTo 4 (CRetire 100 7); GCallTo 4 (CRetire 101 7)] s_recycled.

