(* ===== verification/CollectorScenario.v ===== *)
(** * Creating and dropping collectors

    The hypotheses about constructors hold for a concrete process, and so do
    those about the whole life of a collector. *)

From stdpp Require Import prelude list gmap.
From S2P Require Import Prelude Alloc ThreadId Membarrier Tls RawData RawStep RawConserve RawMemory RawScenario Guard GuardExec GuardScenario Collector Lifetime.

Open Scope Z_scope.

(** A Linux kernel that supports [membarrier]. *)
Definition kernel (cmd : Z) : Z := if decide (cmd = MEMBARRIER_CMD_QUERY) then 31 else 0.

Definition create (par : option Z) (p : Process) : Process * outcome (Bump * result (Collector Bump)) :=
  new_erased PLinux kernel true par p bump_init.

Lemma process_init_ok : process_ok process_init.
Proof. split; [by right; right|]. split; [done|simpl; usize]. Qed.

Example first_batch_sizes :
  map (fun par => match (create par process_init).2 with Ret (_, Ok c) => c_batch_size c | _ => 0 end)
    [None; Some 1; Some 32; Some 33; Some 96] = [32; 32; 32; 64; 128].
Proof. vm_compute. reflexivity. Qed.

Lemma new_erased_spec_witness :
  exists c, (create (Some 48) process_init).2 = Ret (match (create (Some 48) process_init).2 with Ret (a, _) => a | Panic => bump_init end, Ok c) /\
    ready PLinux c /\ 48 <= c_batch_size c.
Proof.
  set (r := (create (Some 48) process_init).2).
  assert (exists a c, r = Ret (a, Ok c)) as (a & c & Er) by (vm_compute; by eexists _, _).
  exists c. split; [by rewrite Er|].
  destruct (new_erased_spec PLinux kernel true (Some 48) process_init bump_init a (create (Some 48) process_init).1 (Ok c))
    as (_ & _ & _ & Hc).
  - exact process_init_ok.
  - by intros n [= <-].
  - vm_compute. discriminate.
  - fold (create (Some 48) process_init). rewrite <-Er. by destruct (create (Some 48) process_init).
  - destruct (Hc c eq_refl) as (_ & Hr & _ & _ & Hb & _). split; [exact Hr|exact Hb].
Defined.

Definition three : list ((Z -> Z) * bool * option Z * Bump) :=
  [(kernel, true, Some 4, bump_init); (kernel, true, None, bump_init); (fun _ => -1, false, Some 9, bump_init)].

Lemma collectors_distinct_witness :
  exists c1 c2, created PLinux three process_init !! 0%nat = Some c1 /\ created PLinux three process_init !! 2%nat = Some c2 /\
    (Collector_eq c1 c2 = true <-> 0%nat = 2%nat).
Proof.
  assert (exists c1 c2, created PLinux three process_init !! 0%nat = Some c1 /\ created PLinux three process_init !! 2%nat = Some c2)
    as (c1 & c2 & H1 & H2) by (vm_compute; by eexists _, _).
  exists c1, c2. split; [exact H1|]. split; [exact H2|].
  apply (collectors_distinct PLinux three process_init 0 2 c1 c2); [simpl; usize|vm_compute; discriminate|exact H1|exact H2].
Defined.

(** ** A whole life *)

(** A process makes a collector; its clients retire three objects with batches
    of two, while a guard of another thread is alive, and leave. *)
Definition born : Process * outcome (Bump * result (Collector Bump)) := create (Some 4) process_init.

Definition infant : Collector Bump :=
  match born.2 with Ret (_, Ok c) => c | _ => mkCollector no_state 0 0 end.

Definition living : list gcommand :=
  [GCallTo 1 (CEnter 10); GCallTo 2 (CEnterOwned true 20); GCallTo 2 (GDefer (OG 20) 100 7);
   GCallTo 2 (GDefer (OG 20) 101 7); GCallTo 1 (GDrop true (LG 10)); GCallTo 2 (GDefer (OG 20) 102 8);
   GCallTo 2 (GDrop true (OG 20))].

Definition life : ghistory := play living (gstate_new (c_state (batch_size infant 2))).

Example life_reclaims : evs_reclaimed (raw_events (gtrace_of life)) = [(100, 7); (101, 7)].
Proof. vm_compute. reflexivity. Qed.

