(* ===== verification/IntegrationTests.v ===== *)
(** * The integration tests of the crate ([src/tests/lib.rs])

    The tests that check counts and results, translated statement by statement
    onto the machine of guards, and run with the constants that the source has
    for slow targets. Every call keeps to the contract of clients, which is
    checked before it is made. Where threads of a test run at the same time, all
    orders of their calls are run. Accesses through [protect] change nothing and
    are left out; the tests that only look for crashes under load ([refresh] and
    the stress tests) are not here. *)

From stdpp Require Import prelude list gmap.
From S2P Require Import Prelude Alloc ThreadId Membarrier Tls UnitTests RawData RawStep RawExec RawEffect RawMemory RawScenario Guard GuardExec GuardRetire Collector CollectorScenario.

Open Scope Z_scope.

(** ** A collector under test *)

Definition THREADS : nat := 4.
Definition ITEMS : nat := 100.
Definition ITER : nat := 4.

(** The collector with its batch size, the next address of a [Box], how many
    values were dropped, and the messages in a channel. *)
Record rig := mkRig {
  r_state : guard_state Bump;
  r_batch : Z;
  r_next : Z;
  r_dropped : nat;
  r_sent : nat
}.

(** Reclaimers: [reclaim::boxed], and a closure of a test, whose calls to the
    collector are [Recursive]'s. *)
Definition BOXED : Z := 0.
Definition CLOSURE : Z := 1.

(** What client code does in the reclaimer [f] of [p]. *)
Definition closures := Z -> Z -> list gop.

Definition no_closures : closures := fun _ _ => [].

(** The reclaimers that started on thread [t], with what they do. *)
Definition started (cl : closures) (t : nat) (ev : list gevent) : list (list gop) :=
  (fun pf => cl pf.1 pf.2) <$> given t (raw_events ev).

Definition FUEL : nat := N.to_nat 20000.

(** Run thread [t] until it has left the collector. The reclaimers that run have
    the calls [todo] left; [reclaim_all] returns to no handler. *)
Fixpoint drive (cl : closures) (n : Z) (fuel t : nat) (todo : list (list gop)) (s : guard_state Bump)
    : option (guard_state Bump * list gevent) :=
  match stack (raw s) t, fuel with
  | [], _ => Some (s, [])
  | _, O => None
  | fr :: _, S fuel =>
      if at_client (stack (raw s) t) then
        match todo with
        | (o :: os) :: todo =>
            '(s1, ev) ← gchecked PLinux n true (GOp t o) s;
            '(s2, tr) ← drive cl n fuel t (os :: todo) s1;
            Some (s2, ev ++ tr)
        | [] :: todo =>
            '(s1, ev) ← gchecked PLinux n true (GReturn t) s;
            '(s2, tr) ← drive cl n fuel t todo s1;
            Some (s2, ev ++ tr)
        | [] => None
        end
      else if is_ret fr && bool_decide (length (waiting s t) = 0%nat) then
        '(r, ev) ← step PLinux n (LRun t) (raw s);
        Some (set_raw r s, map GRaw ev)
      else
        '(s1, ev) ← gchecked PLinux n true (GRun t) s;
        '(s2, tr) ← drive cl n fuel t (started cl t ev ++ todo) s1;
        Some (s2, ev ++ tr)
  end.

(** Values that reclaimers dropped in a run. *)
Definition drops (ev : list event) : nat :=
  length (omap (fun e => match e with EvReclaim _ p f => if decide (f = BOXED) then Some p else None | _ => None end) ev).

Definition results (t : nat) (ev : list gevent) : list gret :=
  omap (fun e => match e with GDone t' r => if decide (t' = t) then Some r else None | _ => None end) ev.

(** [unwrap] on a result. *)
Definition is_ok (r : gret) : bool := match r with GRet RErr | GPanic => false | _ => true end.

Definition after (ev : list event) (s : guard_state Bump) (x : rig) : rig :=
  mkRig s (r_batch x) (r_next x) (r_dropped x + drops ev) (r_sent x).

(** A call of thread [t], with what it returns; the calls that reclaimers make
    on the way are unwrapped. *)
Definition call_with (cl : closures) (t : nat) (o : gop) : test rig gret := fun x =>
  match gchecked PLinux (r_batch x) true (GOp t o) (r_state x) with
  | None => Panic
  | Some (s1, ev1) =>
      match drive cl (r_batch x) FUEL t [] s1 with
      | None => Panic
      | Some (s2, ev2) =>
          match rev (results t (ev1 ++ ev2)) with
          | r :: inner => if forallb is_ok inner then Ret (r, after (raw_events (ev1 ++ ev2)) s2 x) else Panic
          | [] => Panic
          end
      end
  end.

Definition call : nat -> gop -> test rig gret := call_with no_closures.

(** [assert!(b)] *)
Definition assert {S} (b : bool) : test S () := assert_eq b true.

Definition unwrap (t : nat) (o : gop) : test rig () := r ← call t o; assert (is_ok r).
Definition is_err (t : nat) (o : gop) : test rig () := r ← call t o; assert_eq r (GRet RErr).

(** [collector.reclaim_all()] on thread [t]. *)
Definition call_reclaim_all (cl : closures) (t : nat) : test rig () := fun x =>
  match step PLinux (r_batch x) (LCall t OpReclaimAll) (raw (r_state x)) with
  | None => Panic
  | Some (s1, ev1) =>
      match drive cl (r_batch x) FUEL t [] (set_raw s1 (r_state x)) with
      | Some (s2, ev2) =>
          if forallb is_ok (results t ev2) then Ret ((), after (ev1 ++ raw_events ev2) s2 x) else Panic
      | None => Panic
      end
  end.

(** [drop(collector)] on thread [t]. *)
Definition drop_collector (t : nat) : test rig () := fun x =>
  match collector_drop PLinux (r_batch x) FUEL t (raw (r_state x)) with
  | Some (Ret a, ev) => Ret ((), after ev (set_raw (set_alloc a (raw (r_state x))) (r_state x)) x)
  | _ => Panic
  end.

(** [alloc.set_failing(b)] *)
Definition set_failing (b : bool) : test rig () := fun x =>
  let r := raw (r_state x) in
  Ret ((), after [] (set_raw (set_alloc (bump_set_failing b (alloc r)) r) (r_state x)) x).

(** [boxed(value)] *)
Definition make_boxed : test rig Z := fun x =>
  Ret (r_next x, mkRig (r_state x) (r_batch x) (r_next x + 1) (r_dropped x) (r_sent x)).

Fixpoint boxes_of (n : nat) : test rig (list Z) :=
  match n with
  | O => mret []
  | S n => p ← make_boxed; ps ← boxes_of n; mret (p :: ps)
  end.

(** [drop(Box::from_raw(value))] of a value that was not retired. *)
Definition drop_box : test rig () := fun x =>
  Ret ((), mkRig (r_state x) (r_batch x) (r_next x) (S (r_dropped x)) (r_sent x)).

Definition dropped : test rig nat := fun x => Ret (r_dropped x, x).
Definition assert_dropped (n : nat) : test rig () := d ← dropped; assert_eq d n.
Definition live_bytes : test rig (gmap Z Layout * gset Z) := fun x =>
  let a := alloc (raw (r_state x)) in Ret ((bump_blocks a, bump_boxes a), x).

(** [Collector::new_in(a)] with [batch_size(n)]. *)
Definition new_rig (a : Bump) (n : Z) : outcome (result rig) :=
  out_bind (new_erased PLinux kernel true (Some 4) process_init a).2 (fun '(_, r) =>
    Ret (res_bind r (fun c => let c := Collector.batch_size c n in
      Ok (mkRig (gstate_new (c_state c)) (c_batch_size c) 1 0 0)))).

(** A test of a new collector. *)
Definition with_collector (n : Z) (p : test rig ()) : outcome unit :=
  match new_rig bump_init n with
  | Ret (Ok x) => run_test p x
  | _ => Panic
  end.

(** ** Threads that run at the same time *)

(** A piece of a thread up to its next call, and when it may run: a [recv]
    waits for a message. *)
Record act := mkAct { enabled : rig -> bool; effect : test rig () }.

Definition always (p : test rig ()) : act := mkAct (fun _ => true) p.

Definition with_sent (f : nat -> nat) (x : rig) : rig :=
  mkRig (r_state x) (r_batch x) (r_next x) (r_dropped x) (f (r_sent x)).

(** A call with [tx.send(())] after it, and one with [rx.recv()] before it, [n]
    times; a join waits for a message of the thread. *)
Definition then_send (p : test rig ()) : act := always (_ ← p; UnitTests.action (fun x => Ret ((), with_sent S x))).
Definition after_recv (n : nat) (p : test rig ()) : act :=
  mkAct (fun x => bool_decide (n <= r_sent x)%nat) (_ ← UnitTests.action (fun x => Ret ((), with_sent (fun k => k - n)%nat x)); p).

(** All orders in which the threads [ps] can run, then [k]: one that gets stuck,
    or in which an assertion fails, panics. *)
Fixpoint explore (fuel : nat) (ps : list (list act)) (k : test rig ()) (x : rig) : outcome unit :=
  match fuel with
  | O => Panic
  | S fuel =>
      if forallb (fun p => bool_decide (length p = 0%nat)) ps then run_test k x
      else
        let next i := match ps !! i with
          | Some (a :: p) => if enabled a x then [out_bind (effect a x) (fun '(_, x) => explore fuel (<[i := p]> ps) k x)] else []
          | _ => []
          end in
        match seq 0 (length ps) ≫= next with
        | [] => Panic
        | os => foldr (fun o rest => out_bind o (fun _ => rest)) (Ret tt) os
        end
  end.

(** [thread::scope], and threads that are joined at the end. *)
Definition spawn (ps : list (list act)) (k : test rig ()) : test rig () :=
  fun x => out_bind (explore (S (length (concat ps))) ps k x) (fun _ => Ret ((), x)).

Definition exit (t : nat) : test rig () := unwrap t (TExit true).

(** ** The tests

    The main thread is 0, the others are numbered in the order of their spawns. *)

Module Tests.

Definition custom_allocator : test rig () :=
  l ← live_bytes; _ ← assert (negb (bool_decide (l = (∅, ∅))));
  _ ← unwrap 0 (CEnter 1);
  _ ← for_each (seq 0 10) (fun _ => value ← make_boxed; unwrap 0 (GDefer (LG 1) value BOXED));
  _ ← unwrap 0 (GDrop true (LG 1));
  _ ← drop_collector 0;
  _ ← assert_dropped 10;
  l ← live_bytes; assert_eq l (∅, ∅).

Definition allocation_failure : test rig () :=
  _ ← unwrap 0 (CEnter 1);
  _ ← set_failing true;
  value ← make_boxed;
  _ ← is_err 0 (GDefer (LG 1) value BOXED);
  _ ← assert_dropped 0;
  _ ← unwrap 0 (GFlush (LG 1));
  _ ← set_failing false;
  _ ← unwrap 0 (GDefer (LG 1) value BOXED);
  _ ← unwrap 0 (GDrop true (LG 1));
  _ ← set_failing true;
  _ ← drop_collector 0;
  assert_dropped 1.

Definition reserve_retire : test rig () :=
  _ ← unwrap 0 (CEnter 1);
  _ ← unwrap 0 (GReserve (LG 1));
  _ ← set_failing true;
  value ← make_boxed;
  _ ← unwrap 0 (GDefer (LG 1) value BOXED);
  value ← make_boxed;
  _ ← is_err 0 (GDefer (LG 1) value BOXED);
  _ ← assert_dropped 0;
  _ ← drop_box;
  _ ← assert_dropped 1;
  _ ← unwrap 0 (GDrop true (LG 1));
  assert_dropped 2.

Definition reserve_retire_owned : test rig () :=
  _ ← unwrap 0 (CEnterOwned true 1);
  _ ← unwrap 0 (GReserve (OG 1));
  _ ← set_failing true;
  value ← make_boxed;
  _ ← unwrap 0 (GDefer (OG 1) value BOXED);
  _ ← unwrap 0 (GDrop true (OG 1));
  assert_dropped 1.

Definition single_thread : test rig () :=
  _ ← for_each (seq 0 ITEMS) (fun _ =>
    zero ← make_boxed;
    _ ← unwrap 0 (CEnter 1);
    _ ← unwrap 0 (GDrop true (LG 1));
    _ ← unwrap 0 (CEnter 1);
    _ ← unwrap 0 (CRetire zero BOXED);
    unwrap 0 (GDrop true (LG 1)));
  assert_dropped ITEMS.

(** The main thread and [h], in all orders that the channel allows; the last
    message is the join. There are two values of one counter and one of another,
    so three are dropped if both are right. *)
Definition two_threads : test rig () :=
  one ← make_boxed;
  zero1 ← make_boxed;
  zero2 ← make_boxed;
  let do o := always (unwrap 0 o) in
  let main := [do (CEnter 1); do (CRetire zero1 BOXED); do (GDrop true (LG 1));
    do (CEnter 1); do (CRetire zero2 BOXED); do (GDrop true (LG 1));
    after_recv 1 (unwrap 0 (CEnter 1)); do (CRetire one BOXED); after_recv 2 (unwrap 0 (GDrop true (LG 1)))] in
  let h := [then_send (unwrap 1 (CEnter 2)); then_send (unwrap 1 (GDrop true (LG 2))); then_send (exit 1)] in
  spawn [main; h] (assert_dropped 3).

Definition Recursive (pointers : list Z) (call : Z -> list gop) : closures :=
  fun _ f => if decide (f = CLOSURE) then pointers ≫= call else [].

Definition recursive_retire : test rig () :=
  pointers ← boxes_of ITEMS;
  ptr ← make_boxed;
  r ← call_with (Recursive pointers (fun pointer =>
    [CRetire pointer BOXED; CEnter 1; GFlush (LG 1); GRefresh (LG 1); GDrop true (LG 1)])) 0 (CRetire ptr CLOSURE);
  _ ← assert (is_ok r);
  _ ← unwrap 0 (CEnter 1);
  _ ← unwrap 0 (GFlush (LG 1));
  unwrap 0 (GDrop true (LG 1)).

(** [dropped] is a new counter in each round. *)
Definition reclaim_all : test rig () :=
  for_each (seq 1 ITER) (fun i =>
    items ← boxes_of ITEMS;
    _ ← for_each items (fun item => unwrap 0 (CRetire item BOXED));
    _ ← call_reclaim_all no_closures 0;
    assert_dropped (i * ITEMS)).

Definition recursive_retire_reclaim_all : test rig () :=
  pointers ← boxes_of ITEMS;
  ptr ← make_boxed;
  _ ← unwrap 0 (CRetire ptr CLOSURE);
  _ ← call_reclaim_all (Recursive pointers (fun pointer => [CRetire pointer BOXED])) 0;
  assert_dropped ITEMS.

Definition defer_retire : test rig () :=
  objects ← boxes_of 30;
  _ ← unwrap 0 (CEnter 1);
  _ ← for_each objects (fun object => _ ← unwrap 0 (GDefer (LG 1) object BOXED); unwrap 0 (GFlush (LG 1)));
  _ ← assert_dropped 0;
  _ ← unwrap 0 (GDrop true (LG 1));
  assert_dropped 30.

(** Thread [t] retires five objects with a guard, and is joined. *)
Definition retire_five (t : nat) : test rig () :=
  objects ← boxes_of 5;
  _ ← unwrap t (CEnter 4);
  _ ← for_each objects (fun object => unwrap t (GDefer (LG 4) object BOXED));
  _ ← unwrap t (GDrop true (LG 4));
  exit t.

Definition enter_three : test rig () := for_each [1; 2; 3]%nat (fun g => unwrap 0 (CEnter g)).

(** The counter starts again in the second half. *)
Definition reentrant : test rig () :=
  _ ← enter_three;
  _ ← retire_five 1;
  _ ← assert_dropped 0;
  _ ← unwrap 0 (GDrop true (LG 1)); _ ← assert_dropped 0;
  _ ← unwrap 0 (GDrop true (LG 2)); _ ← assert_dropped 0;
  _ ← unwrap 0 (GDrop true (LG 3)); _ ← assert_dropped 5;
  _ ← enter_three;
  _ ← retire_five 2;
  _ ← assert_dropped 5;
  _ ← unwrap 0 (GRefresh (LG 1)); _ ← assert_dropped 5;
  _ ← unwrap 0 (GDrop true (LG 1));
  _ ← unwrap 0 (GRefresh (LG 2)); _ ← assert_dropped 5;
  _ ← unwrap 0 (GDrop true (LG 2)); _ ← assert_dropped 5;
  _ ← unwrap 0 (GRefresh (LG 3)); assert_dropped 10.

Definition owned_guard : test rig () :=
  objects ← boxes_of 5;
  _ ← assert_dropped 0;
  _ ← unwrap 0 (CEnterOwned true 1);
  _ ← unwrap 0 (CEnter 2);
  _ ← for_each objects (fun object => unwrap 0 (GDefer (LG 2) object BOXED));
  _ ← unwrap 0 (GDrop true (LG 2));
  _ ← assert_dropped 0;
  _ ← unwrap 1 (GDrop true (OG 1));
  assert_dropped 5.

(** Every order of the calls of the threads; they do the same, so the first to
    run is taken to be thread 1. *)
Definition owned_guard_concurrent : test rig () :=
  objects ← boxes_of THREADS;
  _ ← unwrap 0 (CEnterOwned true 1);
  let retire i object := always (unwrap (S i) (GDefer (OG 1) object BOXED)) in
  let flush i := always (_ ← unwrap (S i) (GFlush (OG 1)); assert_dropped 0) in
  match imap (fun i object => [retire i object; flush i]) objects with
  | (first :: rest) :: threads =>
      _ ← effect first;
      spawn (rest :: threads) (
        _ ← unwrap 0 (GDrop true (OG 1));
        assert_dropped THREADS)
  | _ => UnitTests.action (fun _ => Panic)
  end.

(** A new thread may fail in [enter] or in [defer_retire]. *)
Definition budget_exhaustion : test rig () :=
  _ ← unwrap 0 (CEnter 1);
  _ ← set_failing true;
  value ← make_boxed;
  _ ← is_err 0 (GDefer (LG 1) value BOXED);
  _ ← is_err 0 (GReserve (LG 1));
  _ ← assert_dropped 0;
  _ ← drop_box;
  _ ← assert_dropped 1;
  r ← call 1 (CEnter 2);
  _ ← (if is_ok r then
    value ← make_boxed;
    _ ← is_err 1 (GDefer (LG 2) value BOXED);
    _ ← drop_box;
    unwrap 1 (GDrop true (LG 2))
  else mret ());
  _ ← exit 1;
  let dropped_so_far := (if is_ok r then 2 else 1)%nat in
  _ ← assert_dropped dropped_so_far;
  _ ← set_failing false;
  value ← make_boxed;
  _ ← unwrap 0 (GDefer (LG 1) value BOXED);
  _ ← unwrap 0 (GDrop true (LG 1));
  _ ← drop_collector 0;
  _ ← assert_dropped (S dropped_so_far);
  l ← live_bytes; assert_eq l (∅, ∅).

(** Two collectors of one process. *)
Definition collector_equality : outcome unit :=
  match created PLinux [(kernel, true, Some 4, bump_init); (kernel, true, Some 4, bump_init)] process_init with
  | [a; b] => run_test (
      _ ← assert (Collector_eq a a);
      _ ← assert (Collector_eq b b);
      assert (negb (Collector_eq a b))) ()
  | _ => Panic
  end.

End Tests.

(** ** They pass *)

(** The batch sizes that the tests set. *)
Definition sequential : list (Z * test rig ()) :=
  [(2, Tests.custom_allocator); (2, Tests.allocation_failure); (1, Tests.reserve_retire);
   (1, Tests.reserve_retire_owned); (2, Tests.single_thread); (1, Tests.recursive_retire); (2, Tests.reclaim_all);
   (Z.of_nat ITEMS * 2, Tests.recursive_retire_reclaim_all); (5, Tests.defer_retire); (5, Tests.reentrant);
   (5, Tests.owned_guard); (4, Tests.budget_exhaustion)].

Definition concurrent_tests : list (Z * test rig ()) := [(3, Tests.two_threads); (1, Tests.owned_guard_concurrent)].

(** Run the tests of a list. *)
Ltac passes := repeat (apply Forall_cons; split; [vm_compute; reflexivity|]); apply Forall_nil; exact I.


(** The assertions are checked, and so are the rules for clients: objects are
    not dropped while a guard is alive, and a guard is not used after its
    drop. *)
Example wrong_tests_panic :
  Forall (fun p => with_collector 1 p = Panic)
    [(_ ← unwrap 0 (CEnter 1); _ ← unwrap 0 (CRetire 100 BOXED); assert_dropped 1);
     (_ ← unwrap 0 (CEnter 1); _ ← unwrap 0 (GDrop true (LG 1)); unwrap 0 (GFlush (LG 1)));
     (_ ← unwrap 0 (CEnter 1); _ ← unwrap 0 (GFlush (LG 1)); exit 0);
     (_ ← unwrap 0 (CEnter 1); _ ← set_failing true; unwrap 0 (CRetire 100 BOXED));
     spawn [[always (unwrap 1 (CRetire 100 BOXED))]; [always (assert_dropped 0)]] (mret ())].
Proof. passes. Qed.
