(* ===== verification/WorldScenario.v ===== *)
(** * Two collectors in one process

    A concrete process, evaluated: a thread uses two collectors with one ID, an
    owned guard of one takes an ID that the other does not get, and one of the
    collectors is dropped while the other goes on. *)

From stdpp Require Import prelude list gmap.
From S2P Require Import Prelude Alloc ThreadId Membarrier Tls RawData RawStep RawConserve RawMemory RawScenario Guard GuardExec GuardInv GuardRefine GuardScenario Collector Lifetime CollectorScenario World WorldSafe.

Open Scope Z_scope.

(** ** Running a process with its rules checked *)

Section Decisions.
Implicit Types (w : world Bump) (m : member Bump) (P : nat -> member Bump -> Prop).

Definition on_member P c (om : option (member Bump)) : Prop := match om with Some m => P c m | None => True end.

Lemma members_all w P :
  (forall c m, member_at w c = Some m -> P c m) <-> map_Forall (on_member P) (members w).
Proof.
  unfold member_at. split.
  - intros Hm c [m|] Ec; [|done]. apply Hm. by rewrite Ec.
  - intros HF c m E. destruct (members w !! c) as [[m'|]|] eqn:Ec; simpl in E; simplify_eq. exact (HF _ _ Ec).
Qed.

#[export] Instance on_member_dec P `{!forall c m, Decision (P c m)} c om : Decision (on_member P c om).
Proof. destruct om; simpl; apply _. Defined.

#[export] Instance members_dec w P `{!forall c m, Decision (P c m)} : Decision (forall c m, member_at w c = Some m -> P c m).
Proof. refine (cast_if (decide (map_Forall (on_member P) (members w)))); by rewrite members_all. Defined.

#[export] Instance member_dec w c (P : member Bump -> Prop) `{!forall m, Decision (P m)} : Decision (forall m, member_at w c = Some m -> P m).
Proof.
  destruct (member_at w c) as [m|]; [|left; done]. destruct (decide (P m)) as [Hp|Hp]; [left; by intros ? [= <-]|right; auto].
Defined.

#[export] Instance name_free_dec g (s : guard_state Bump) : Decision (name_free g s).
Proof. unfold name_free. apply _. Defined.

#[export] Instance few_dec w : Decision (few w).
Proof. unfold few. apply _. Defined.

Lemma idle_threads (s : raw_state Bump) : (forall t, stack s t = []) <-> map_Forall (fun _ fs => fs = []) (threads s).
Proof.
  unfold stack. split.
  - intros Hst t fs E. specialize (Hst t). by rewrite E in Hst.
  - intros HF t. destruct (threads s !! t) eqn:E; [|done]. exact (HF _ _ E).
Qed.

#[export] Instance no_frames_dec (fs : list frame) : Decision (fs = []).
Proof. destruct fs; [by left|by right]. Defined.

#[export] Instance idle_threads_dec (s : raw_state Bump) : Decision (forall t, stack s t = []).
Proof. refine (cast_if (decide (map_Forall (fun _ fs => fs = []) (threads s)))); by rewrite idle_threads. Defined.

#[export] Instance unused_dec (s : guard_state Bump) : Decision (unused s).
Proof. unfold unused. apply _. Defined.

#[export] Instance fresh_name_dec w c (l : glabel) :
  Decision (forall t mem g, l = GOp t (CEnterOwned mem g) ->
    forall c' m', c' <> c -> member_at w c' = Some m' -> name_free g (view w m')).
Proof.
  destruct l as [t o| | | | | |]; try (left; intros; discriminate).
  destruct o as [|mem g| | | | | | | | |]; try (left; intros; discriminate).
  destruct (decide (forall c' m', member_at w c' = Some m' -> c' <> c -> name_free g (view w m'))) as [Hp|Hp].
  - left. intros ? ? ? [= <- <- <-] c' m' Hc Hm. by apply (Hp c').
  - right. intros Hn. apply Hp. intros c' m' Hm Hc. by apply (Hn t mem g eq_refl c').
Defined.

#[export] Instance par_dec (par : option Z) (P : Z -> Prop) `{!forall k, Decision (P k)} : Decision (forall k, par = Some k -> P k).
Proof.
  destruct par as [k|]; [|left; done]. destruct (decide (P k)) as [Hp|Hp]; [left; by intros ? [= <-]|right; auto].
Defined.

#[export] Instance wlegal_dec l w : Decision (wlegal l w).
Proof. destruct l; unfold wlegal; apply _. Defined.

End Decisions.

Definition whistory := option (world Bump * list wevent).

Definition wchecked (l : wlabel Bump) (w : world Bump) : whistory :=
  if decide (wlegal l w) then wstep PLinux l w else None.

(** Run thread [t] in collector [c] until it has left; reclaimers return at
    once. *)
Fixpoint wsettle (fuel c t : nat) (w : world Bump) : whistory :=
  match (fun m => stack (raw (m_state m)) t) <$> member_at w c with
  | Some (fr :: _) =>
      match fuel with
      | O => None
      | S fuel =>
          '(w1, ev) ← wchecked (WStep c (match fr with FReclaim _ _ => GReturn t | _ => GRun t end)) w;
          '(w2, tr) ← wsettle fuel c t w1;
          Some (w2, ev ++ tr)
      end
  | _ => Some (w, [])
  end.

Inductive wcommand :=
| WCallTo (c t : nat) (o : gop)
| WDo (l : wlabel Bump).

Fixpoint wscript (cs : list wcommand) (w : world Bump) : whistory :=
  match cs with
  | [] => Some (w, [])
  | k :: cs =>
      '(w1, ev) ← match k with
        | WCallTo c t o => '(w1, ev) ← wchecked (WStep c (GOp t o)) w; '(w2, tr) ← wsettle 400 c t w1; Some (w2, ev ++ tr)
        | WDo l => wchecked l w
        end;
      '(w2, tr) ← wscript cs w1;
      Some (w2, ev ++ tr)
  end.

Lemma wsteps_trans (w1 w2 w3 : world Bump) tr1 tr2 :
  wsteps PLinux w1 tr1 w2 -> wsteps PLinux w2 tr2 w3 -> wsteps PLinux w1 (tr1 ++ tr2) w3.
Proof.
  intros H12 H23. induction H12 as [w|w1 l w2 ev tr w4 Hl Hs H12 IH]; [done|].
  rewrite <-(assoc_L (++)). econstructor; eauto.
Qed.

Lemma wchecked_steps l w w' ev : wchecked l w = Some (w', ev) -> wsteps PLinux w ev w'.
Proof.
  unfold wchecked. case_decide as Hl; [|done]. intros E. rewrite <-(app_nil_r ev). by econstructor; [..|constructor].
Qed.

Lemma wsettle_steps fuel c t w w' tr : wsettle fuel c t w = Some (w', tr) -> wsteps PLinux w tr w'.
Proof.
  revert w tr. induction fuel as [|fuel IH]; intros w tr; simpl;
    (destruct (_ <$> member_at w c) as [[|fr st]|]; [by intros [= -> <-]; constructor| |by intros [= -> <-]; constructor]); [done|].
  intros ([w1 ev] & E1 & ([w2 tr2] & E2 & [= -> <-])%bind_Some)%bind_Some.
  eapply wsteps_trans; [by eapply wchecked_steps|by apply IH].
Qed.

Lemma wscript_steps cs w w' tr : wscript cs w = Some (w', tr) -> wsteps PLinux w tr w'.
Proof.
  revert w tr. induction cs as [|k cs IH]; intros w tr; cbn [wscript]; [intros [= -> <-]; constructor|].
  intros ([w1 ev] & E1 & ([w2 tr2] & E2 & [= -> <-])%bind_Some)%bind_Some.
  eapply wsteps_trans; [|by apply IH]. destruct k as [c t o|l]; [|by eapply wchecked_steps].
  apply bind_Some in E1 as ([w3 ev3] & E3 & ([w4 ev4] & E4 & [= -> <-])%bind_Some).
  eapply wsteps_trans; [by eapply wchecked_steps|by eapply wsettle_steps].
Qed.

(** ** A history *)

Definition two_collectors : list wcommand :=
  [WDo (WNew 0 kernel true (Some 4) (Some 2) bump_init); WCallTo 0 1 (CEnter 10);
   WDo (WNew 1 kernel true (Some 4) (Some 2) bump_init); WCallTo 1 1 (CEnter 10);
   WCallTo 1 2 (CEnterOwned true 20);
   WCallTo 0 3 (CRetire 100 7); WCallTo 0 3 (CRetire 101 7);
   WCallTo 1 3 (CRetire 200 7); WCallTo 1 3 (CRetire 201 7);
   WCallTo 0 1 (GDrop true (LG 10)); WDo (WExit true 3)].

Definition world_of (h : whistory) : world Bump := from_option fst world_init h.
Definition wtrace_of (h : whistory) : list wevent := from_option snd [] h.

Definition h_two : whistory := wscript two_collectors world_init.
Definition w_two : world Bump := world_of h_two.

Lemma two_steps : wsteps PLinux world_init (wtrace_of h_two) w_two.
Proof.
  destruct h_two as [[w tr]|] eqn:E; [|vm_compute in E; discriminate E].
  unfold w_two. rewrite E. by apply (wscript_steps two_collectors).
Qed.

Definition member_of (c : nat) : member Bump := default (mkMember 0 0 gstart) (member_at w_two c).

(** Thread 1 has one ID for both; objects of the collector that has no guard
    any more are reclaimed, those of the other wait. *)
Example two_traces :
  evs_reclaimed (raw_events (trace_of 0 (wtrace_of h_two))) = [(100, 7); (101, 7)] /\
  evs_reclaimed (raw_events (trace_of 1 (wtrace_of h_two))) = [] /\
  (m_id (member_of 0), m_id (member_of 1)) = (0, 1) /\
  (id <$> THREAD (ids w_two) !! 1%nat, id <$> ThreadId.owned (ids w_two) !! 20%nat, THREAD (ids w_two) !! 3%nat) =
    (Some 0, Some 1, None).
Proof. split; [|split; [|split]]; vm_compute; reflexivity. Qed.

Lemma world_refines_witness :
  GDone 1 (GGuard (LG 10)) ∈ trace_of 1 (wtrace_of h_two) /\
  exists strat cap a0 a1 r0, collector_new strat cap a0 = Ret (a1, Ok r0) /\
    gsteps PLinux (m_batch (member_of 1)) (gstate_new r0) (trace_of 1 (wtrace_of h_two)) (view w_two (member_of 1)).
Proof.
  split; [apply (bool_decide_unpack _); vm_compute; exact I|].
  destruct (world_refines PLinux (wtrace_of h_two) w_two 1 (member_of 1)) as (strat & cap & a0 & a1 & r0 & _ & _ & _ & E & Hst);
    [exact two_steps|vm_compute; reflexivity|].
  exists strat, cap, a0, a1, r0. split; [exact E|exact Hst].
Defined.

