(* ===== verification/ClientScenario.v ===== *)
(** * A client, run

    The Treiber stack of the tests of the crate ([src/tests/lib.rs],
    [src/benches/stack.rs]), run step by step with two threads, with the rules
    of clients checked at every step: a thread pops a node while another one
    still reads it. *)

From stdpp Require Import prelude list gmap.
From S2P Require Import Prelude Alloc ThreadId Membarrier Tls RawData RawStep RawExec RawScenario Guard GuardExec GuardSafe GuardRetire GuardSpec GuardScenario Collector Reclaim Client ClientInv ClientExec ClientSafe.

Open Scope Z_scope.

Definition cstart : client Bump := client_new (start MEMBARRIER).

Definition cplay (cs : list ccommand) (c : client Bump) : option (client Bump * list cevent) := cscript PLinux 2 400 cs c.

Definition cstate_of (r : option (client Bump * list cevent)) : client Bump := from_option fst cstart r.

Lemma cplay_reachable cs : is_Some (cplay cs cstart) -> creachable PLinux 2 (cstate_of (cplay cs cstart)).
Proof.
  intros [[c tr] E]. destruct (start_new MEMBARRIER membarrier_ok) as [a Ea].
  exists MEMBARRIER, 4, bump_init, a, (start MEMBARRIER), tr.
  split; [apply membarrier_ok|]. split; [usize|]. split; [usize|]. split; [exact Ea|].
  rewrite E. simpl. by apply (cscript_steps PLinux 2 400 cs).
Qed.

(** [push]: the new node points to the head that was loaded, and the exchange
    makes it the head. *)
Definition push_ops (t : nat) (x : gref) (p v head : Z) : list ccommand :=
  [CMem t (KNew p v [0]);
   CMem t (KAccess (Some x) false (Root 0) (QLoad Acquire));
   CMem t (KAccess (Some x) false (Field p 0) (QSwap head Relaxed));
   CMem t (KAccess (Some x) false (Root 0) (QExchange true head p Release Relaxed))].

(** [pop], of head [p] with the node [next] below it: load both, exchange, read
    the data, and retire. *)
Definition pop_loads (t : nat) (x : gref) (p : Z) : list ccommand :=
  [CMem t (KAccess (Some x) false (Root 0) (QLoad Acquire));
   CMem t (KAccess (Some x) false (Field p 0) (QLoad Relaxed))].

Definition pop_ops (t : nat) (x : gref) (p next : Z) : list ccommand :=
  [CMem t (KAccess (Some x) false (Root 0) (QExchange true p next Acquire Relaxed));
   CMem t (KUnlink p); CMem t (KValue (Some x) p); CCall t (GDefer x p BOXED)].

(** Two nodes are pushed; thread 2 loads the head, thread 1 pops both. *)
Definition stack_run : list ccommand :=
  [CCall 1 (CEnter 10)] ++ push_ops 1 (LG 10) 1000 7 0 ++ push_ops 1 (LG 10) 1001 8 1000 ++
  [CCall 2 (CEnter 20)] ++ pop_loads 2 (LG 20) 1001 ++
  pop_loads 1 (LG 10) 1001 ++ pop_ops 1 (LG 10) 1001 1000 ++
  pop_loads 1 (LG 10) 1000 ++ pop_ops 1 (LG 10) 1000 0 ++
  [CCall 1 (GDrop true (LG 10))].

Definition stack_after : client Bump := cstate_of (cplay stack_run cstart).

Definition blocks_of (c : client Bump) : option (list Z) := (fun m => (map_to_list m).*1) <$> c_memory c.

(** Both nodes are retired, and still there for thread 2. *)
Example popped_nodes_stay : blocks_of stack_after = Some [1001; 1000].
Proof. vm_compute. reflexivity. Qed.

(** Its guard dropped, both are freed. *)
Example popped_nodes_go :
  blocks_of (cstate_of (cplay [CCall 2 (GDrop true (LG 20))] stack_after)) = Some [].
Proof. vm_compute. reflexivity. Qed.

Lemma clients_are_safe_witness :
  exists m nd, c_memory stack_after = Some m /\ deref 1001 m = Some nd /\ node_links nd = [1000] /\ is_Some (deref 1000 m).
Proof.
  destruct (clients_are_safe PLinux 2 stack_after) as (m & Em & _ & Hseen & _).
  - apply cplay_reachable. vm_compute. by eexists.
  - destruct (Hseen (LG 20) 1001) as (_ & nd & Hnd & Hl).
    + apply (bool_decide_unpack _). vm_compute. exact I.
    + exists m, nd. split; [exact Em|]. split; [exact Hnd|].
      assert (node_links nd = [1000]) as E.
      { vm_compute in Em. injection Em as <-. vm_compute in Hnd. by injection Hnd as <-. }
      split; [exact E|]. apply Hl; [rewrite E; by left|done].
Defined.
