(* ===== verification/TreiberScenario.v ===== *)
(** * The stack, run

    Two threads push and pop at the same time, one access after another, with
    the rules of users checked at every step: an exchange fails and is tried
    again, and a node that another thread has seen stays when it is retired. *)

From stdpp Require Import prelude list gmap.
From S2P Require Import Prelude Alloc ThreadId Membarrier Tls RawData RawStep RawExec RawScenario Guard GuardExec GuardInv GuardSafe GuardRetire GuardSpec GuardScenario Collector Reclaim Client ClientInv ClientSafe ClientExec Treiber TreiberInv TreiberSafe.

Open Scope Z_scope.

#[export] Instance tlegal_dec l (s : stack_state Bump) : Decision (tlegal l s).
Proof.
  destruct l as [g|t x o addr|t]; [destruct g| |]; simpl; try apply _.
  - repeat (apply and_dec; [apply _|]). refine (map_Forall_dec _ _). intros t' p.
    destruct (borrowed p) as [x|]; [|left; done]. destruct (decide (x ∉ released o)) as [Hx|Hx].
    + left. by intros y [= <-].
    + right. intros Hy. by apply Hx, Hy.
  - repeat (apply and_dec; [apply _|]). destruct (guard_of_op x o); apply _.
Defined.

Definition tchecked (l : tlabel) (s : stack_state Bump) : option (stack_state Bump * list tevent) :=
  if decide (tlegal l s) then tstep PLinux 2 l s else None.

(** Run the library on thread [t] until its stack of calls is empty. *)
Fixpoint tsettle (fuel t : nat) (s : stack_state Bump) : option (stack_state Bump * list tevent) :=
  match stack (raw (c_sys (st_client s))) t with
  | [] => Some (s, [])
  | fr :: _ =>
      match fuel with
      | O => None
      | S fuel =>
          '(s1, ev) ← tchecked (TSys (match fr with FReclaim _ _ => GReturn t | _ => GRun t end)) s;
          '(s2, tr) ← tsettle fuel t s1;
          Some (s2, ev ++ tr)
      end
  end.

(** Each label, and then what it started in the library. *)
Fixpoint tplay (ls : list tlabel) (s : stack_state Bump) : option (stack_state Bump * list tevent) :=
  match ls with
  | [] => Some (s, [])
  | l :: ls =>
      '(s1, ev1) ← tchecked l s;
      '(s2, ev2) ← tsettle 400 (match l with TSys (GOp t _) | TStep t => t | _ => 0%nat end) s1;
      '(s3, tr) ← tplay ls s2;
      Some (s3, ev1 ++ ev2 ++ tr)
  end.

Abbreviation tsteps := (tsteps PLinux 2).

Lemma tsteps_trans s1 tr1 s2 tr2 s3 : tsteps s1 tr1 s2 -> tsteps s2 tr2 s3 -> tsteps s1 (tr1 ++ tr2) s3.
Proof.
  intros H12 H23. induction H12 as [s|s1 l s2 ev tr s4 Hl Hs H12 IH]; [done|].
  rewrite <-(assoc_L (++)). econstructor; eauto.
Qed.

Lemma tchecked_steps l s s' ev : tchecked l s = Some (s', ev) -> tsteps s ev s'.
Proof.
  unfold tchecked. case_decide as Hl; [|done]. intros Hs. rewrite <-(app_nil_r ev). econstructor; [done..|constructor].
Qed.

Lemma tsettle_steps fuel t s s' tr : tsettle fuel t s = Some (s', tr) -> tsteps s tr s'.
Proof.
  revert s tr. induction fuel as [|fuel IH]; intros s tr; simpl.
  - destruct (stack _ t); intros; simplify_eq; constructor.
  - destruct (stack _ t) as [|fr rest]; [intros [= -> <-]; constructor|].
    intros ([s1 ev] & E1 & ([s2 tr2] & E2 & [= -> <-])%bind_Some)%bind_Some.
    eapply tsteps_trans; [by eapply tchecked_steps|by apply IH].
Qed.

Lemma tplay_steps ls s s' tr : tplay ls s = Some (s', tr) -> tsteps s tr s'.
Proof.
  revert s tr. induction ls as [|l ls IH]; intros s tr; cbn [tplay]; [intros [= -> <-]; constructor|].
  intros ([s1 ev1] & E1 & ([s2 ev2] & E2 & ([s3 tr3] & E3 & [= -> <-])%bind_Some)%bind_Some)%bind_Some.
  eapply tsteps_trans; [by eapply tchecked_steps|]. eapply tsteps_trans; [by eapply tsettle_steps|by apply IH].
Qed.

(** ** Two threads *)

Definition sstart : stack_state Bump := stack_new (start MEMBARRIER).

Definition enters : list tlabel := [TSys (GOp 1 (CEnter 10)); TSys (GOp 2 (CEnter 20))].
Definition drops : list tlabel := [TSys (GOp 1 (GDrop true (LG 10))); TSys (GOp 2 (GDrop true (LG 20)))].

(** Thread 1 pushes 7; then both push, and the exchange of thread 2 comes too
    late and is tried again; both pop, and that of thread 1 comes too late. *)
Definition racing_ops : list tlabel :=
  [TCall 1 (LG 10) (Push 7) 1000; TStep 1; TStep 1; TStep 1;
   TCall 1 (LG 10) (Push 8) 1001; TCall 2 (LG 20) (Push 9) 1002; TStep 2; TStep 1; TStep 1; TStep 2; TStep 1; TStep 2;
   TStep 2; TStep 2; TStep 2;
   TCall 1 (LG 10) Pop 1; TCall 2 (LG 20) Pop 1; TStep 1; TStep 1; TStep 2; TStep 2; TStep 2; TStep 2; TStep 2;
   TStep 1; TStep 1; TStep 1; TStep 1; TStep 1; TStep 1;
   TCall 2 (LG 20) Pop 1; TStep 2; TStep 2; TStep 2; TStep 2; TStep 2;
   TCall 1 (LG 10) Pop 1; TStep 1; TCall 2 (LG 20) IsEmpty 1; TStep 2].

Definition h_stack : option (stack_state Bump * list tevent) := tplay (enters ++ racing_ops ++ drops) sstart.
Definition stack_trace : list tevent := from_option snd [] h_stack.

Example stack_runs : stack_trace =
  [TInvoke 1 (Push 7); TReturn 1 RPushed; TInvoke 1 (Push 8); TInvoke 2 (Push 9); TReturn 1 RPushed; TReturn 2 RPushed;
   TInvoke 1 Pop; TInvoke 2 Pop; TReturn 2 (RPopped (Some 9)); TReturn 1 (RPopped (Some 8));
   TInvoke 2 Pop; TReturn 2 (RPopped (Some 7)); TInvoke 1 Pop; TReturn 1 (RPopped None);
   TInvoke 2 IsEmpty; TReturn 2 (REmpty true)].
Proof. vm_compute. reflexivity. Qed.

Lemma stack_linearizable_witness :
  TReturn 2 (RPopped (Some 9)) ∈ stack_trace /\ exists a, spec_steps spec_init stack_trace a.
Proof.
  split; [apply (bool_decide_unpack _); vm_compute; exact I|].
  destruct (start_new MEMBARRIER membarrier_ok) as [a1 E].
  edestruct (stack_linearizable PLinux 2 MEMBARRIER 4 bump_init a1 (start MEMBARRIER) stack_trace) as (a & m & ps & Ha & _);
    [exact membarrier_ok|usize|usize|exact E| |exists a; exact Ha].
  apply (tplay_steps (enters ++ racing_ops ++ drops)). vm_compute. reflexivity.
Defined.

(** Thread 1 has seen the head that thread 2 pops and retires. *)
Definition racing_pop : list tlabel := take 26 (enters ++ racing_ops).
Definition s_racing : stack_state Bump := from_option fst sstart (tplay racing_pop sstart).

Lemma stack_keeps_rules_witness :
  st_pcs s_racing !! 1%nat = Some (PopCas (LG 10) 1002 1001) /\ is_Some (tstep PLinux 2 (TStep 1) s_racing).
Proof.
  assert (st_pcs s_racing !! 1%nat = Some (PopCas (LG 10) 1002 1001)) as Hp by (vm_compute; reflexivity).
  split; [exact Hp|]. destruct (start_new MEMBARRIER membarrier_ok) as [a1 E].
  edestruct (stack_keeps_rules PLinux 2 MEMBARRIER 4 bump_init a1 (start MEMBARRIER)) as (_ & _ & Hstep);
    [exact membarrier_ok|usize|usize|exact E| |apply (Hstep 1%nat _ Hp); [intros x data; discriminate|vm_compute; reflexivity]].
  apply (tplay_steps racing_pop). vm_compute. reflexivity.
Defined.
